(* ===== verification/_CoqProject ===== *)
-Q . S2P
Prelude.v
Fp.v
Buffers.v
PicoHttp.v
PicoHttpProps.v
PicoHttpSplit.v
PicoHttpFormat.v
PicoChunked.v
Rlp.v
RpcMessage.v
RpcMessageProps.v
RpcMapper.v
Config.v
LoadConfig.v
Queues.v
LocalMap.v
LocalMapProps.v
FastMap.v
Stats.v
StatsProps.v
TDigest.v
Ingress.v
IngressProps.v
Connection.v
Moves.v
Pool.v
Http1.v
Http1Props.v
Http1Inv.v
Http1Split.v
Http1Response.v
Http2.v
Http2Props.v
CreditQueue.v
CreditQueueSpec.v
CreditQueueProps.v
World.v
ExampleWorld.v
State.v
StateProps.v
Exchange.v
Forward.v
ForwardHttp2.v
Release.v
Respond.v
Edge.v
Arrive.v
EventLoop.v
Evolution.v
EventLoopProps.v
Syscalls.v
Main.v
