(* ===== verification/Prelude.v ===== *)
(** * The Roshanfer sidecar: a verification development

    Roshanfer is a sidecar proxy for microservices that controls overload
    with credits: a client may send a request to a service only when the
    service's sidecar has granted it a credit. This library models the
    program under [src/] and proves what makes it correct. Paths below are
    relative to the repository.

    ** The program and its model

    Each thread runs an event loop over io_uring. It accepts HTTP/1.1 or
    HTTP/2 connections, turns what it reads into [RPCMessage]s, queues them,
    asks the next sidecar for a credit over UDP (the RLP protocol), forwards
    a request when its credit has arrived, and sends responses back. As a
    server it answers credit requests from the [CreditQueue] that all threads
    share.

    - Foundations. [Prelude]: faults ([res]), the state monad of the handlers
      ([M], whose exceptions carry the state at the throw), machine integers
      ([wrap], [checked_i32]), bytes, checked array accesses. [Fp]: [float]
      and [double]. [Moves]: a logic for what a handler may do to the state.
    - [Buffers]: [src/buffer.cc], [src/buffer_manager.cc],
      [include/ring_helper.hpp] and the unpacking of datagrams in
      [src/ring_wrapper.cc]: the pools of buffers and of [UserData].
    - [PicoHttp]: [src/picohttpparser.c], the parser of HTTP/1 messages, with
      its SSE 4.2 search and without. [PicoHttpProps]: safety, agreement of
      the two builds. [PicoHttpSplit]: text that arrives in pieces.
      [PicoHttpFormat]: what it computes on well-formed text.
      [PicoChunked]: the decoder of chunked bodies, and the machine it refines.
    - [Rlp]: the datagrams built and read in [src/state.cc].
    - [RpcMessage], [RpcMessageProps]: [src/rpc_message.cc]. [RpcMapper]:
      [src/rpc_mapper.cc]. [Queues]: [src/rpc_queue.cc], [src/ppm_queue.cc].
    - [Config], [LoadConfig]: [include/config.h], [src/config.cc].
    - [LocalMap], [LocalMapProps]: the perfect-hash map of
      [include/fast_map.hpp]. [FastMap]: the one with atomic values, and
      threads that share it under the memory orders the code names. [TDigest]: [src/tdigest.c], used by no one.
    - [Stats], [StatsProps]: [src/stats.cc], [include/quantile_estimator.hpp].
      [Ingress], [IngressProps]: [src/ingress.cc], admission and AIMD.
    - [Connection] (data), [Http1] and [Http2] (operations), [Pool] (pools of
      connections, routes, listeners): [src/connection.cc],
      [src/listener.cc]. [Http1Props], [Http1Inv], [Http1Split],
      [Http1Response], [Http2Props]: theorems.
    - [CreditQueue], [CreditQueueSpec], [CreditQueueProps]:
      [src/credit_queue.cc], its abstract specification, its executions.
    - [World]: the objects of one thread ([include/state.h]), the virtual
      calls on connections, the [prepare_] calls of [src/ring_wrapper.cc].
      [State]: the handlers of [src/state.cc]. [EventLoop]:
      [src/event_loop.cc] and the constructors. [StateProps], [Exchange],
      [Forward] and [ForwardHttp2] (a request, from its route to the ring, on
      connections of the two protocols), [Release], [Respond], [Arrive],
      [Edge], [Evolution], [EventLoopProps]: theorems about the composed
      program, of one thread and of two that exchange datagrams.
      [ExampleWorld]: the thread the witnesses run.
    - [Syscalls]: the constructors that ask the operating system for sockets
      and for the ring ([src/connection.cc], [src/listener.cc],
      [src/ring_wrapper.cc], [src/state.cc]), as programs over system calls,
      and a logic for what descriptors they leave open. [Main]:
      [src/main.cc].

    A C++ object is a record, a method a function on it; a pointer to an
    object with more than one holder is a key into a heap (messages:
    [e_heap], connections: [w_conns]), and the number of its holders is
    recomputed where the code tests [use_count]. [World] nests [Ctx], which
    nests [Env]: a component's operation runs on its part ([zoom]).
    [LOG(FATAL)] is [Fatal], undefined behaviour is [Undefined], an exception
    is [Throw e] and is caught where the code catches it.

    ** What the theorems show

    - Credits ([CreditQueueSpec], [CreditQueueProps], [StateProps],
      [EventLoopProps]): the queue refines its specification, conserves
      entries, never admits above the limits, shares service 16:4:1 and
      starves no priority; also with threads interleaved at its spin lock.
      The handlers answer a credit request or return with exactly the grant
      the queue serves, a parallel fan-out takes one slot, and a run of the
      event loop, whatever completions arrive, does with credits what each
      completion is the cause of, sends every grant that leaves the queue,
      and is an execution of the specification of the queue. Between a client and a server with a free
      slot, a request for a credit brings the client its credit and the
      round-trip time ([credit_exchange]). The credit releases the request
      that waits for it: in the mesh its frames go out on the HTTP/2
      connection to the service ([grant_releases_request]), at the edge the
      head of the queue goes out as text on a free connection and the next
      credit is asked for ([ingress_grant_releases_head]). A request that arrives reaches the
      application with its id in a header ([request_reaches_application]); its
      response goes back to the client that asked and its slot is passed on
      ([response_returns]).
    - Resources: buffers are in one place each; every submission to io_uring
      is well formed; a recycled message is fresh but for its priority; one
      [UserData] is lost per client connection. A thread that starts leaves
      open exactly its sockets, whatever the system answers; a full ring is
      not submitted at the default verbosity and ends the process.
    - HTTP: the parser stays in its input and is the same function in both
      builds; what is written parses back; bodies cross HTTP/2 unchanged; the
      state of an HTTP/1.1 connection stays in its types. How bytes are
      spread over reads does not matter: to the parser, to a connection that
      reads a request or a response, and to the decoder of chunked bodies.
    - Messages and maps: headers and identifiers read back; the mapper, the
      queues and [LocalMap] behave as maps and queues; threads that share a
      [FastMap] agree on the history of each key and lose no addition, and
      what they read of different keys is what acquire and release order,
      and no more ([fastmap_coherent], with the run its witness exhibits).
    - Start: at an ingress each service gets one thread
      ([main_one_thread_per_service]).
    - Ingress and statistics: admission, drops and capacity; estimators. A
      digest computes its centroids in place ([merge_in_place]) and does not
      depend on the order of a batch.
    - Errors: which inputs throw, abort or are undefined, each stated beside
      the outcome of the inputs that are not.

    ** Bounds and fuel

    Integers are [Z] with the width written out where the code computes on
    them ([u64], [u8], [i32]; signed overflow is [Undefined]). A loop of the
    code that is not structural has fuel and ends in [Hang] without it:
    - [pop_loop] gets a turn for each of the three priorities, which bring it
      back to the one it started with; [icq_pop_loop] one for each slot of
      the map of endpoints; that they never hang is part of
      [credit_queue_pop];
    - [search] gets twice the size of the pool and one, since it wraps round
      once ([pool_finds_available]);
    - [skip_loop] gets the number of slots ([localmap_iterator_covers]);
    - the blocks of the parser get the length of the text, of which each
      block takes at least one byte; [try_seeds] has the code's own bound, and
      [grow_cap], which doubles, more steps than it needs;
    - [write_frames] and [write_messages] run as long as nghttp2 wants to
      write, which this code does not bound: the fuel is an argument of the
      handlers, and the theorems hold for any, or for any that lets the one message
      of the theorem through. [forward_loop] gets the length
      of its queue and one.
    - [chunked_loop] gets the length of the buffer and one, since every turn
      but the last reads a line end (part of [loop_refines]); [clean_socket]
      three turns, the third dirty socket being fatal; [spawn] more than the
      256 values of its index, past which it never ends ([spawn_hangs]).
    Executions of the credit queue are bounded by [2^62] pushes, below which
    its counters cannot wrap.

    ** Parameters

    nghttp2 ([Nghttp2]: a session, its calls, and the callbacks each call
    runs), HdrHistogram ([HdrHistogram]), yaml-cpp ([Yaml]) are classes of
    operations, and so are [qsort] and [log] ([CLib]), of which C leaves open
    how equal elements are sorted and how the result is rounded; the kernel is the list of completions given to
    [run_events] and the answers to the calls of [Syscalls], whose law is
    [allowed]; the clock is a stream of readings; [pthread_setname_np] is an
    argument. The iteration order of an
    [unordered_map] is that of [map_to_list]. [ExampleWorld] gives concrete
    instances to the witnesses.

    ** Not modelled

    - Logging, the initialisation of the logs in [src/main.cc], and
      [dump_entire_state].
    - The room in the ring of submissions while a handler runs: [World] keeps
      the submissions as a list; [full_ring_aborts] says what happens when
      they do not fit.
    - Memory models: the fields shared by threads are the credit queue, whose
      interleavings are modelled at its lock and its atomic counter, with
      accesses that take effect one after another; the counters [in_local]
      and [local_id_counter], whose updates by other threads are not; and the
      values of a [FastMap], with views for acquire and release accesses. *)

From Stdlib Require Import ZArith Lia Ascii String.
From stdpp Require Import base gmap strings list fin_maps.

Open Scope Z_scope.

(** ** Faults

    The C++ code ends abnormally in four ways, kept apart throughout:
    [Fatal] is glog's [LOG(FATAL)] (the process aborts), [Undefined] is
    undefined behaviour of the language (division by zero, a read outside an
    array, signed overflow), [Throw] is a C++ exception that leaves the
    function, and [Hang] is a loop that never ends (a spin lock acquired
    twice by one thread, or fuel exhausted). *)
Inductive exn : Set :=
  | OutOfRange
  | InvalidArgument
  | LengthError
  | NoConnection
  | BadOptionalAccess
  | YamlError
  | HTTPParse
  | RuntimeError
  | BufferFull (outbuf : list Z).

Inductive fault : Set :=
  | Fatal
  | Undefined
  | Throw (e : exn)
  | Hang.

Inductive res (A : Type) : Type :=
  | Ok (a : A)
  | Err (f : fault).
Arguments Ok {A} a.
Arguments Err {A} f.

#[export] Instance exn_eq_dec : EqDecision exn.
Proof. solve_decision. Defined.
#[export] Instance fault_eq_dec : EqDecision fault.
Proof. solve_decision. Defined.

#[export] Instance res_ret : MRet res := fun A a => Ok a.
#[export] Instance res_bind : MBind res := fun A B f m =>
  match m with Ok a => f a | Err e => Err e end.
#[export] Instance res_fmap : FMap res := fun A B f m =>
  match m with Ok a => Ok (f a) | Err e => Err e end.

(** [LOG(FATAL)] under a condition. *)
Definition fatal_if (b : bool) : res unit := if b then Err Fatal else Ok tt.

(** A checked access: the value, or the fault. *)
Definition or_fault {A} (f : fault) (o : option A) : res A :=
  match o with Some a => Ok a | None => Err f end.

Definition is_ok {A} (r : res A) : Prop := exists a, r = Ok a.

(** ** The stateful monad

    Handlers that change a state of type [S] run in [M S]; an exception
    carries the state at the throw, which a handler resumes from. *)
Inductive outcome (S A : Type) : Type :=
  | Ret (a : A) (s : S)
  | Exc (e : exn) (s : S)
  | Stop (f : fault).
Arguments Ret {S A} a s.
Arguments Exc {S A} e s.
Arguments Stop {S A} f.

Definition M (S A : Type) : Type := S -> outcome S A.

#[export] Instance M_ret {S} : MRet (M S) := fun A a s => Ret a s.
#[export] Instance M_bind {S} : MBind (M S) := fun A B f m s =>
  match m s with
  | Ret a s' => f a s'
  | Exc e s' => Exc e s'
  | Stop f => Stop f
  end.

Definition get_st {S} : M S S := fun s => Ret s s.
Definition gets {S A} (f : S -> A) : M S A := fun s => Ret (f s) s.
Definition modify {S} (f : S -> S) : M S unit := fun s => Ret tt (f s).
Definition fail {S A} (f : fault) : M S A := fun s =>
  match f with Throw e => Exc e s | _ => Stop f end.
Definition lift {S A} (r : res A) : M S A :=
  match r with Ok a => mret a | Err f => fail f end.
Definition guard_fatal {S} (b : bool) : M S unit := lift (fatal_if b).
(** Run a component's operation on the field [get]/[set] of the state. *)
Definition zoom {S T A} (get : S -> T) (set : T -> S -> S)
    (f : T -> res (A * T)) : M S A := fun s =>
  match f (get s) with
  | Ok (a, t) => Ret a (set t s)
  | Err (Throw e) => Exc e s
  | Err f => Stop f
  end.
Definition when {S} (b : bool) (m : M S unit) : M S unit :=
  if b then m else mret tt.
Fixpoint forM {S A} (l : list A) (f : A -> M S unit) : M S unit :=
  match l with
  | [] => mret tt
  | x :: l' => _ ← f x; forM l' f
  end.

(** ** Machine integers

    Unsigned conversions are modulo [2^w]; signed conversions are the two's
    complement representative (C++20); signed arithmetic that leaves its
    range is undefined. *)
Definition wrap (w z : Z) : Z := z mod 2 ^ w.
Definition swrap (w z : Z) : Z := (z + 2 ^ (w - 1)) mod 2 ^ w - 2 ^ (w - 1).

Abbreviation u8 := (wrap 8).
Abbreviation u32 := (wrap 32).
Abbreviation u64 := (wrap 64).
Abbreviation i32 := (swrap 32).
Abbreviation i64 := (swrap 64).
(** A stored [char], signed on the targets the sidecar is built for. *)
Abbreviation schar := (swrap 8).

Definition INT_MAX : Z := 2147483647.
Definition UINT32_MAX : Z := 4294967295.
Definition SIZE_MAX : Z := 18446744073709551615.

Definition in_i32 (z : Z) : bool := (- 2 ^ 31 <=? z) && (z <? 2 ^ 31).
Definition in_i64 (z : Z) : bool := (- 2 ^ 63 <=? z) && (z <? 2 ^ 63).
Definition checked_i32 (z : Z) : res Z :=
  if in_i32 z then Ok z else Err Undefined.
Definition checked_i64 (z : Z) : res Z :=
  if in_i64 z then Ok z else Err Undefined.

Lemma wrap_range w z : 0 <= w -> 0 <= wrap w z < 2 ^ w.
Proof. intros; apply Z.mod_pos_bound; lia. Qed.

Lemma wrap_small w z : 0 <= z < 2 ^ w -> wrap w z = z.
Proof. apply Z.mod_small. Qed.

Lemma swrap_range w z : 0 < w -> - 2 ^ (w - 1) <= swrap w z < 2 ^ (w - 1).
Proof.
  intros Hw. unfold swrap.
  assert (2 ^ w = 2 * 2 ^ (w - 1)) as E.
  { rewrite <- Z.pow_succ_r by lia. f_equal; lia. }
  pose proof (Z.mod_pos_bound (z + 2 ^ (w - 1)) (2 ^ w) ltac:(lia)). lia.
Qed.

Lemma swrap_small w z : 0 < w -> - 2 ^ (w - 1) <= z < 2 ^ (w - 1) -> swrap w z = z.
Proof.
  intros Hw Hz. unfold swrap.
  assert (2 ^ w = 2 * 2 ^ (w - 1)) as E.
  { rewrite <- Z.pow_succ_r by lia. f_equal; lia. }
  rewrite Z.mod_small; lia.
Qed.

Lemma swrap_wrap w z : 0 < w -> swrap w (wrap w z) = swrap w z.
Proof. intros Hw. unfold swrap, wrap. by rewrite Zplus_mod_idemp_l. Qed.

Lemma wrap_swrap w z : 0 < w -> wrap w (swrap w z) = wrap w z.
Proof.
  intros Hw. unfold swrap, wrap.
  rewrite Zminus_mod_idemp_l. f_equal; lia.
Qed.

Lemma wrap_wrap w z : wrap w (wrap w z) = wrap w z.
Proof. unfold wrap. apply Zmod_mod. Qed.

Lemma Z_land_le_r a b : 0 <= a -> 0 <= b -> 0 <= Z.land a b <= b.
Proof.
  intros Ha Hb. rewrite <- (Z2N.id a), <- (Z2N.id b), <- N2Z.inj_land by done.
  pose proof (N.land_le_r (Z.to_N a) (Z.to_N b)). lia.
Qed.

(** ** Big-endian fields of a datagram *)

(** The [n] bytes that [(char)((unsigned char)(x >> 8*(n-1)))] ... write. *)
Fixpoint be_bytes (n : nat) (x : Z) : list Z :=
  match n with
  | O => []
  | S n' => wrap 8 (Z.shiftr x (8 * Z.of_nat n')) :: be_bytes n' x
  end.

(** The unsigned value that or-ing the shifted [unsigned char]s reads. *)
Fixpoint be_value (l : list Z) : Z :=
  match l with
  | [] => 0
  | b :: l' => Z.lor (Z.shiftl b (8 * Z.of_nat (length l'))) (be_value l')
  end.

Lemma length_be_bytes n x : length (be_bytes n x) = n.
Proof. induction n; simpl; auto. Qed.

Lemma be_value_bytes n x : be_value (be_bytes n x) = x mod 2 ^ (8 * Z.of_nat n).
Proof.
  induction n as [|n IH].
  { simpl. by rewrite Z.mod_1_r. }
  cbn [be_bytes be_value]. rewrite length_be_bytes, IH.
  unfold wrap. rewrite <- !Z.land_ones by lia.
  apply Z.bits_inj'. intros i Hi.
  rewrite Z.lor_spec, Z.shiftl_spec, !Z.land_spec, !Z.testbit_ones by lia.
  destruct (Z.ltb_spec i (8 * Z.of_nat n)) as [Hlt|Hge].
  - rewrite (Z.testbit_neg_r _ (i - 8 * Z.of_nat n)) by lia.
    replace (0 <=? i) with true by lia.
    replace (i <? 8 * Z.of_nat (S n)) with true by (symmetry; apply Z.ltb_lt; lia).
    simpl. by rewrite !andb_true_r.
  - rewrite Z.shiftr_spec by lia.
    replace (i - 8 * Z.of_nat n + 8 * Z.of_nat n) with i by lia.
    replace (0 <=? i) with true by lia.
    replace (0 <=? i - 8 * Z.of_nat n) with true by lia.
    rewrite !andb_false_r, orb_false_r. simpl. f_equal.
    destruct (Z.ltb_spec (i - 8 * Z.of_nat n) 8),
      (Z.ltb_spec i (8 * Z.of_nat (S n))); lia || done.
Qed.

Lemma be_bytes_range n x b : b ∈ be_bytes n x -> 0 <= b < 256.
Proof.
  induction n as [|n IH]; cbn [be_bytes]; [set_solver|].
  rewrite elem_of_cons. intros [->|?]; auto. apply (wrap_range 8); lia.
Qed.

(** ** Strings and bytes *)

Definition byte_of_ascii (c : ascii) : Z := Z.of_N (N_of_ascii c).
Definition ascii_of_byte (b : Z) : ascii := ascii_of_N (Z.to_N b).

Fixpoint bytes_of_string (s : string) : list Z :=
  match s with
  | EmptyString => []
  | String c s' => byte_of_ascii c :: bytes_of_string s'
  end.

Fixpoint string_of_bytes (l : list Z) : string :=
  match l with
  | [] => EmptyString
  | b :: l' => String (ascii_of_byte b) (string_of_bytes l')
  end.

Lemma byte_of_ascii_range c : 0 <= byte_of_ascii c < 256.
Proof.
  unfold byte_of_ascii. pose proof (N_ascii_bounded c). lia.
Qed.

Lemma ascii_of_byte_of_ascii c : ascii_of_byte (byte_of_ascii c) = c.
Proof.
  unfold ascii_of_byte, byte_of_ascii. rewrite N2Z.id. apply ascii_N_embedding.
Qed.

Lemma string_of_bytes_of_string s : string_of_bytes (bytes_of_string s) = s.
Proof. induction s; simpl; [done|]. by rewrite ascii_of_byte_of_ascii, IHs. Qed.

Lemma length_bytes_of_string s : length (bytes_of_string s) = String.length s.
Proof. induction s; simpl; auto. Qed.

Lemma bytes_of_string_range s b : b ∈ bytes_of_string s -> 0 <= b < 256.
Proof.
  induction s as [|c s IH]; simpl; [set_solver|].
  rewrite elem_of_cons. intros [->|?]; auto. apply byte_of_ascii_range.
Qed.

(** [std::vector::at] and [std::array::at]. *)
Definition at_ {A} (l : list A) (i : nat) : res A := or_fault (Throw OutOfRange) (l !! i).
Definition set_at {A} (l : list A) (i : nat) (x : A) : res (list A) :=
  if decide (i < length l)%nat then Ok (<[i:=x]> l) else Err (Throw OutOfRange).

(** The same with an index held in a [size_t]. *)
Definition zat {A} (l : list A) (z : Z) : res A :=
  if (0 <=? z) && (z <? Z.of_nat (length l)) then at_ l (Z.to_nat z) else Err (Throw OutOfRange).

(** Little-endian fields, as the kernel lays them out. *)
Fixpoint le_value (l : list Z) : Z :=
  match l with
  | [] => 0
  | b :: l' => b + 256 * le_value l'
  end.

(** [n] elements from position [i], when they are all there. *)
Definition slice {A} (i n : nat) (l : list A) : option (list A) :=
  if decide (i + n <= length l)%nat then Some (take n (drop i l)) else None.

(** [memcpy]/[memmove] of [bs] to position [i]: undefined past the end. *)
Definition store {A} (l : list A) (i : nat) (bs : list A) : res (list A) :=
  if decide (i + length bs <= length l)%nat
  then Ok (take i l ++ bs ++ drop (i + length bs) l) else Err Undefined.

Lemma length_store {A} (l l' : list A) i bs : store l i bs = Ok l' -> length l' = length l.
Proof.
  unfold store. case_decide; [|discriminate]. intros [= <-].
  rewrite !length_app, length_take, length_drop. lia.
Qed.

Lemma slice_Some {A} i n (l l' : list A) : slice i n l = Some l' ->
  length l' = n /\ (i + n <= length l)%nat /\ l' = take n (drop i l).
Proof.
  unfold slice. case_decide; [|discriminate]. intros [= <-].
  rewrite length_take, length_drop. split; [lia|done].
Qed.

(** ** Checking a range of integers by computation *)

Fixpoint all_from (k : nat) (f : Z -> bool) (lo : Z) : bool :=
  match k with
  | O => f lo
  | S k' => all_from k' f lo && all_from k' f (lo + 2 ^ Z.of_nat k')
  end.

Lemma all_from_spec k f lo z : all_from k f lo = true -> lo <= z < lo + 2 ^ Z.of_nat k -> f z = true.
Proof.
  revert lo. induction k as [|k IH]; intros lo H Hz; cbn [all_from] in H.
  - change (2 ^ Z.of_nat 0) with 1 in Hz. by replace z with lo by lia.
  - apply andb_prop in H as [H1 H2].
    rewrite Nat2Z.inj_succ, Z.pow_succ_r in Hz by lia.
    destruct (Z.lt_ge_cases z (lo + 2 ^ Z.of_nat k)); [apply (IH lo)|apply (IH (lo + 2 ^ Z.of_nat k))]; (done || lia).
Qed.

(** ** Automation *)

(** Invert a successful [res] computation. *)
Ltac res_inv :=
  repeat match goal with
    | H : Ok _ = Ok _ |- _ => injection H as H; try subst
    | H : Err _ = Ok _ |- _ => discriminate H
    | H : Ok _ = Err _ |- _ => discriminate H
    | H : Err _ = Err _ |- _ => injection H as H; try subst
    | H : (_, _) = (_, _) |- _ => injection H as H; try subst
    end.

Lemma bind_Ok {A B} (m : res A) (f : A -> res B) b :
  (m ≫= f) = Ok b <-> exists a, m = Ok a /\ f a = Ok b.
Proof.
  destruct m as [a|e]; simpl; split.
  - eauto.
  - intros (a' & [= ->] & H). exact H.
  - discriminate.
  - intros (a' & H & _). discriminate.
Qed.

Lemma bind_Err {A B} (m : res A) (f : A -> res B) e :
  (m ≫= f) = Err e <-> m = Err e \/ exists a, m = Ok a /\ f a = Err e.
Proof.
  destruct m as [a|e']; simpl; split.
  - eauto.
  - intros [|(a' & [= ->] & H)]; [discriminate|exact H].
  - intros [= ->]. by left.
  - intros [[= ->]|(a' & H & _)]; [done|discriminate].
Qed.

(** [m] ends well with [P], or with a failure the program reports: never in
    undefined behaviour, never hanging. *)
Definition safe {A} (P : A -> Prop) (m : res A) : Prop :=
  match m with
  | Ok a => P a
  | Err Fatal => True
  | Err (Throw _) => True
  | Err _ => False
  end.

Lemma safe_bind {A B} (P : A -> Prop) (Q : B -> Prop) (m : res A) (f : A -> res B) :
  safe P m -> (forall a, P a -> safe Q (f a)) -> safe Q (m ≫= f).
Proof. intros Hm Hf. destruct m as [a|[| | |]]; simpl in *; auto. Qed.

Lemma safe_mono {A} (P Q : A -> Prop) (m : res A) :
  (forall a, P a -> Q a) -> safe P m -> safe Q m.
Proof. intros HPQ. destruct m as [a|[| | |]]; simpl; auto. Qed.

Lemma safe_Ok {A} (P : A -> Prop) (m : res A) a : safe P m -> m = Ok a -> P a.
Proof. intros H ->. exact H. Qed.

Lemma safe_fatal_if (P : unit -> Prop) b : (b = false -> P tt) -> safe P (fatal_if b).
Proof. destruct b; simpl; auto. Qed.

Lemma safe_is_ok {A} (m : res A) : is_ok m -> safe (fun a => m = Ok a) m.
Proof. intros [a ->]. done. Qed.

Ltac bind_inv :=
  repeat match goal with
    | H : (_ ≫= _) = Ok _ |- _ =>
        apply bind_Ok in H; let a := fresh "a" in let E := fresh "E" in
        destruct H as (a & E & H)
    end.

Lemma fatal_if_Ok b u : fatal_if b = Ok u -> b = false.
Proof. by destruct b. Qed.

Lemma or_fault_Ok {A} f (o : option A) a : or_fault f o = Ok a <-> o = Some a.
Proof. destruct o; simpl; split; congruence. Qed.

Lemma at_Ok {A} (l : list A) i x : at_ l i = Ok x <-> l !! i = Some x.
Proof. apply or_fault_Ok. Qed.

Lemma set_at_Ok {A} (l l' : list A) i x :
  set_at l i x = Ok l' <-> (i < length l)%nat /\ l' = <[i:=x]> l.
Proof. unfold set_at. case_decide; split; naive_solver. Qed.

Lemma checked_i32_Ok z z' : checked_i32 z = Ok z' <-> z' = z /\ - 2 ^ 31 <= z < 2 ^ 31.
Proof. unfold checked_i32, in_i32. case_match; split; intros; res_inv; try lia; naive_solver lia. Qed.

Create HintDb sidecar.
#[export] Hint Resolve wrap_range swrap_range byte_of_ascii_range : sidecar.
Create Rewrite HintDb sidecar_rw.
#[export] Hint Rewrite @length_insert @length_app @length_be_bytes
  length_bytes_of_string string_of_bytes_of_string : sidecar_rw.
