(* ===== verification/Fp.v ===== *)
(** * Floating point

    [float] and [double] as IEEE 754 binary32 and binary64, on the executable
    [SpecFloat] of the standard library (round to nearest, ties to even).
    Only the operations the sidecar uses are named here. *)

From Stdlib Require Import ZArith Lia.
From Stdlib Require Import SpecFloat.
From stdpp Require Import base option.
From S2P Require Import Prelude.

Open Scope bool_scope.
Open Scope Z_scope.

Definition fp := spec_float.

Definition prec32 : Z := 24.
Definition emax32 : Z := 128.
Definition prec64 : Z := 53.
Definition emax64 : Z := 1024.

Definition f32_of_Z (z : Z) : fp := binary_normalize prec32 emax32 z 0 false.
Definition f64_of_Z (z : Z) : fp := binary_normalize prec64 emax64 z 0 false.

Definition f32_add (x y : fp) : fp := SFadd prec32 emax32 x y.
Definition f32_sub (x y : fp) : fp := SFsub prec32 emax32 x y.
Definition f32_mul (x y : fp) : fp := SFmul prec32 emax32 x y.
Definition f32_div (x y : fp) : fp := SFdiv prec32 emax32 x y.
Definition f64_add (x y : fp) : fp := SFadd prec64 emax64 x y.
Definition f64_sub (x y : fp) : fp := SFsub prec64 emax64 x y.
Definition f64_mul (x y : fp) : fp := SFmul prec64 emax64 x y.
Definition f64_div (x y : fp) : fp := SFdiv prec64 emax64 x y.

(** The comparisons do not depend on the format. *)
Definition fp_lt (x y : fp) : bool := SFltb x y.
Definition fp_gt (x y : fp) : bool := SFltb y x.
Definition fp_ge (x y : fp) : bool := SFleb y x.
Definition fp_neg (x : fp) : fp := SFopp x.

(** [std::max(a, b)] returns [b] only if [a < b]. *)
Definition fp_max (a b : fp) : fp := if fp_lt a b then b else a.

Definition fp_zero : fp := S754_zero false.
Definition fp_nan : fp := S754_nan.
Definition fp_isfinite (x : fp) : bool :=
  match x with S754_zero _ | S754_finite _ _ _ => true | _ => false end.

(** Change of format: exact when widening, rounded when narrowing. *)
Definition fp_round (prec emax : Z) (x : fp) : fp :=
  match x with
  | S754_finite s m e => binary_normalize prec emax (cond_Zopp s (Zpos m)) e s
  | _ => x
  end.
Definition f64_of_f32 (x : fp) : fp := fp_round prec64 emax64 x.
Definition f32_of_f64 (x : fp) : fp := fp_round prec32 emax32 x.

(** The integer [ceil] denotes, and truncation towards zero; [None] on NaN
    and infinities. *)
Definition fp_ceil_Z (x : fp) : option Z :=
  match x with
  | S754_zero _ => Some 0
  | S754_finite s m e =>
      let v := cond_Zopp s (Zpos m) in
      Some (if 0 <=? e then v * 2 ^ e else - ((- v) / 2 ^ (- e)))
  | _ => None
  end.
Definition fp_trunc_Z (x : fp) : option Z :=
  match x with
  | S754_zero _ => Some 0
  | S754_finite s m e =>
      let v := cond_Zopp s (Zpos m) in
      Some (if 0 <=? e then v * 2 ^ e else Z.quot v (2 ^ (- e)))
  | _ => None
  end.

(** [std::ceil] on [float] and [double]: an integer of the format. *)
Definition f32_ceil (x : fp) : fp :=
  match fp_ceil_Z x with Some z => f32_of_Z z | None => x end.
Definition f64_ceil (x : fp) : fp :=
  match fp_ceil_Z x with Some z => f64_of_Z z | None => x end.

(** [std::floor]. *)
Definition fp_floor_Z (x : fp) : option Z := Z.opp <$> fp_ceil_Z (fp_neg x).
Definition f64_floor (x : fp) : fp :=
  match fp_floor_Z x with Some z => f64_of_Z z | None => x end.

(** Conversions to integers are undefined outside the target's range. *)
Definition fp_to_size_t (x : fp) : res Z :=
  match fp_trunc_Z x with
  | Some z => if (0 <=? z) && (z <=? SIZE_MAX) then Ok z else Err Undefined
  | None => Err Undefined
  end.
Definition fp_to_i32 (x : fp) : res Z :=
  match fp_trunc_Z x with
  | Some z => checked_i32 z
  | None => Err Undefined
  end.

(** Literals: the nearest float of a quotient of two exact integers. *)
Definition f32_lit (n d : Z) : fp := f32_div (f32_of_Z n) (f32_of_Z d).
Definition f64_lit (n d : Z) : fp := f64_div (f64_of_Z n) (f64_of_Z d).

Lemma fp_to_i32_range x z : fp_to_i32 x = Ok z -> - 2 ^ 31 <= z < 2 ^ 31.
Proof.
  unfold fp_to_i32. destruct (fp_trunc_Z x); [|discriminate].
  intros [-> ?]%checked_i32_Ok. assumption.
Qed.

Lemma fp_to_size_t_range x z : fp_to_size_t x = Ok z -> 0 <= z <= SIZE_MAX.
Proof.
  unfold fp_to_size_t. destruct (fp_trunc_Z x) as [z'|]; [|discriminate].
  destruct (_ && _) eqn:E; [|discriminate]. intros [= ->].
  apply andb_prop in E as [E1 E2]. lia.
Qed.

(** ** Integers in doubles

    An integer of at most 53 bits is a finite double, exactly. *)
Lemma digits_shift d m : Zpos (digits2_pos (Pos.iter xO m d)) = Zpos (digits2_pos m) + Zpos d.
Proof.
  induction d as [|d IH] using Pos.peano_ind; [cbn; lia|]. rewrite Pos.iter_succ. cbn [digits2_pos]. lia.
Qed.

Lemma digits_bound m : 2 ^ (Zpos (digits2_pos m) - 1) <= Zpos m.
Proof.
  induction m as [m IH|m IH|]; cbn [digits2_pos]; [| |cbn; lia];
    replace (Z.pos (Pos.succ (digits2_pos m)) - 1) with (Z.succ (Z.pos (digits2_pos m) - 1)) by lia;
    rewrite Z.pow_succ_r by lia; lia.
Qed.

Lemma round_aux_small s m e : Zpos (digits2_pos m) = prec64 -> - 1074 <= e <= 971 ->
  binary_round_aux prec64 emax64 s (Zpos m) e loc_Exact = S754_finite s m e.
Proof.
  intros Hd He. unfold binary_round_aux.
  assert (shr_fexp prec64 emax64 (Zpos m) e loc_Exact = (shr_record_of_loc (Zpos m) loc_Exact, e)) as ->.
  { unfold shr_fexp. cbn [Zdigits2]. rewrite Hd. unfold fexp, emin, prec64, emax64. by replace (_ - e) with 0 by lia. }
  cbn [shr_record_of_loc shr_m loc_of_shr_record round_nearest_even shr_fexp].
  assert (shr_fexp prec64 emax64 (Zpos m) e loc_Exact = (shr_record_of_loc (Zpos m) loc_Exact, e)) as ->.
  { unfold shr_fexp. cbn [Zdigits2]. rewrite Hd. unfold fexp, emin, prec64, emax64. by replace (_ - e) with 0 by lia. }
  cbn [shr_record_of_loc shr_m]. unfold prec64, emax64. by rewrite (proj2 (Z.leb_le _ _)) by lia.
Qed.

Lemma f64_of_small z : z <> 0 -> Z.abs z < 2 ^ 53 -> exists m e, f64_of_Z z = S754_finite (z <? 0) m e.
Proof.
  intros Hz Hb. assert (forall s p, Zpos p < 2 ^ 53 -> exists m e, binary_round prec64 emax64 s p 0 = S754_finite s m e) as Hr.
  { intros s p Hp. unfold binary_round. pose proof (digits_bound p) as Hd.
    assert (Zpos (digits2_pos p) <= 53) as Hd'.
    { destruct (decide (Zpos (digits2_pos p) <= 53)); [done|]. pose proof (Z.pow_le_mono_r 2 53 (Zpos (digits2_pos p) - 1)). lia. }
    unfold shl_align, fexp, emin, prec64, emax64. rewrite Z.max_l by lia.
    replace (Zpos (digits2_pos p) + 0 - 53 - 0) with (Zpos (digits2_pos p) - 53) by lia.
    destruct (Zpos (digits2_pos p) - 53) as [|d|d] eqn:E; [|lia|]; eexists _, _; apply round_aux_small; rewrite ?digits_shift; unfold prec64; lia. }
  unfold f64_of_Z, binary_normalize. destruct z as [|p|p]; [done|apply (Hr false); lia|apply (Hr true); lia].
Qed.
