(* ===== verification/Buffers.v ===== *)
(** * Buffers: [include/buffer.h], [src/buffer.cc], [src/buffer_manager.cc]

    The two pools of I/O buffers, TCP and UDP, and the pool of request
    descriptors ([UserData]). A buffer is owned by exactly one place: a slot
    of its pool, where it is free or lent to the kernel, or whoever took it
    out; destroying one is a fatal error. *)

From Stdlib Require Import ZArith Lia.
From stdpp Require Import base gmap strings list fin_maps.
From S2P Require Import Prelude Fp.

Open Scope Z_scope.

(** ** Data *)

(** [struct sockaddr_in], less its family and padding. *)
Record Addr := mkAddr { sin_addr : Z; sin_port : Z }.
Definition zero_addr : Addr := mkAddr 0 0.

(** What [prepare_sendmsg] leaves in [msg] and [iov]: the destination is the
    buffer's own [addr], the vector its first [iov_len] bytes. *)
Record Msg := mkMsg { msg_name : bool; iov_len : Z }.
Definition zero_msg : Msg := mkMsg false 0.

Record Buffer := mkBuffer {
  data : list Z;
  is_free : bool;
  is_provided : bool;
  enter_queue_ts : Z;
  bsize : Z;
  filled : Z;
  index : Z;
  msg : Msg;
  addr : Addr
}.

Definition buffer_make (length id : Z) : Buffer :=
  mkBuffer (replicate (Z.to_nat length) 0) true false 0 (u64 (length - 1)) 0 id zero_msg zero_addr.

Definition buffer_clear (b : Buffer) : Buffer :=
  mkBuffer (data b) true (is_provided b) 0 (bsize b) 0 (index b) zero_msg zero_addr.

Definition set_filled (f : Z) (b : Buffer) : res Buffer :=
  if bsize b <? f then Err Fatal
  else Ok (mkBuffer (data b) (is_free b) (is_provided b) (enter_queue_ts b) (bsize b) f
             (index b) (msg b) (addr b)).

Definition prepare_sendmsg (servaddr : Addr) (b : Buffer) : Buffer :=
  mkBuffer (data b) (is_free b) (is_provided b) (enter_queue_ts b) (bsize b) (filled b)
    (index b) (mkMsg true (filled b)) servaddr.

Definition set_addr (a : Addr) (b : Buffer) : Buffer :=
  mkBuffer (data b) (is_free b) (is_provided b) (enter_queue_ts b) (bsize b) (filled b)
    (index b) (msg b) a.
Definition set_data (d : list Z) (b : Buffer) : Buffer :=
  mkBuffer d (is_free b) (is_provided b) (enter_queue_ts b) (bsize b) (filled b)
    (index b) (msg b) (addr b).
Definition set_ts (t : Z) (b : Buffer) : Buffer :=
  mkBuffer (data b) (is_free b) (is_provided b) t (bsize b) (filled b) (index b) (msg b) (addr b).
Definition set_is_free (f : bool) (b : Buffer) : Buffer :=
  mkBuffer (data b) f (is_provided b) (enter_queue_ts b) (bsize b) (filled b)
    (index b) (msg b) (addr b).
Definition set_provided (p : bool) (b : Buffer) : Buffer :=
  mkBuffer (data b) (is_free b) p (enter_queue_ts b) (bsize b) (filled b)
    (index b) (msg b) (addr b).

(** ** Request descriptors *)

Inductive Operation := ACCEPT | READ | WRITE | CONNECT | CANCEL | RCVMSG | SENDMSG | OP_CLEAR.
Inductive UDPType := REQUEST | RESPONSE | UDP_CLEAR.

Record UserData := mkUserData {
  ud_buffer : option Buffer;
  in_ring : bool;
  ud_listener : option nat;
  ud_conn : option nat;
  ud_op : Operation;
  ud_index : nat;
  udp_type : UDPType;
  accept_addr : Addr
}.

Definition user_data_make (id : nat) : UserData :=
  mkUserData None false None None ACCEPT id REQUEST zero_addr.

Definition ud_get_buffer (ud : UserData) : res (Buffer * UserData) :=
  match ud_buffer ud with
  | None => Err Fatal
  | Some b => Ok (b, mkUserData None (in_ring ud) (ud_listener ud) (ud_conn ud) (ud_op ud)
                       (ud_index ud) (udp_type ud) (accept_addr ud))
  end.

(** Overwriting a buffer would destroy it. *)
Definition ud_set_buffer (buf : option Buffer) (ud : UserData) : res UserData :=
  match buf, ud_buffer ud with
  | None, _ => Err Fatal
  | Some _, Some _ => Err Fatal
  | Some b, None => Ok (mkUserData (Some b) (in_ring ud) (ud_listener ud) (ud_conn ud) (ud_op ud)
                          (ud_index ud) (udp_type ud) (accept_addr ud))
  end.

Definition ud_clear (ud : UserData) : res UserData :=
  match ud_buffer ud with
  | Some _ => Err Fatal
  | None => Ok (mkUserData None false None None OP_CLEAR (ud_index ud) UDP_CLEAR zero_addr)
  end.

Definition prepare_read (ud : UserData) (listener conn : option nat) : UserData :=
  mkUserData (ud_buffer ud) (in_ring ud) listener conn READ (ud_index ud) (udp_type ud) (accept_addr ud).

Definition prepare_write (ud : UserData) (buffer : option Buffer) (conn : option nat) : res UserData :=
  ud ← ud_set_buffer buffer ud;
  Ok (mkUserData (ud_buffer ud) (in_ring ud) (ud_listener ud) conn WRITE (ud_index ud)
        (udp_type ud) (accept_addr ud)).

(** ** The manager *)

Record BufferManager := mkBM {
  count : Z;
  bm_size : Z;
  buffer_vector : list (option Buffer);
  free_buffer_queue : list Z;
  udp_buffer_vector : list (option Buffer);
  free_udp_buffer_queue : list Z;
  user_data_queue : list UserData;
  (* the ids provided to the kernel, per buffer group *)
  tcp_ring : list Z;
  udp_ring : list Z
}.

Definition set_tcp (vec : list (option Buffer)) (q ring : list Z) (bm : BufferManager) : BufferManager :=
  mkBM (count bm) (bm_size bm) vec q (udp_buffer_vector bm) (free_udp_buffer_queue bm)
    (user_data_queue bm) ring (udp_ring bm).
Definition set_udp (vec : list (option Buffer)) (q ring : list Z) (bm : BufferManager) : BufferManager :=
  mkBM (count bm) (bm_size bm) (buffer_vector bm) (free_buffer_queue bm) vec q
    (user_data_queue bm) (tcp_ring bm) ring.
Definition set_user_data_queue (q : list UserData) (bm : BufferManager) : BufferManager :=
  mkBM (count bm) (bm_size bm) (buffer_vector bm) (free_buffer_queue bm) (udp_buffer_vector bm)
    (free_udp_buffer_queue bm) q (tcp_ring bm) (udp_ring bm).

(** [RingWrapper::add_buffer_to_ring] hands the buffer to the kernel under
    [(uint16_t)index]. *)
Definition add_buffer_to_ring (b : Buffer) (ring : list Z) : list Z := ring ++ [wrap 16 (index b)].

(** [(double)i < 0.8 * (double)count]. *)
Definition initially_provided (i count : Z) : bool :=
  fp_lt (f64_of_Z i) (f64_mul (f64_lit 8 10) (f64_of_Z count)).

(** Move a buffer out of a slot and mark it in use. *)
Definition take_at (vec : list (option Buffer)) (j : Z) : res (Buffer * list (option Buffer)) :=
  o ← zat vec j;
  match o with
  | None => Err Undefined
  | Some b =>
      if is_free b then Ok (set_is_free false b, <[Z.to_nat j := None]> vec) else Err Fatal
  end.

(** Move a buffer into a slot: the one it replaces would be destroyed. *)
Definition put_at (vec : list (option Buffer)) (j : Z) (b : Buffer) : res (list (option Buffer)) :=
  o ← zat vec j;
  match o with
  | None => Ok (<[Z.to_nat j := Some b]> vec)
  | Some _ => Err Fatal
  end.

(** One iteration of the constructor's loop. *)
Definition bm_init_step (bm : BufferManager) (i : nat) : BufferManager :=
  let iz := Z.of_nat i in
  let b := buffer_make (bm_size bm) iz in
  let u := buffer_make 256 (iz + count bm) in
  let bm := set_user_data_queue (user_data_queue bm ++ [user_data_make i]) bm in
  if initially_provided iz (count bm) then
    let bm := set_tcp (buffer_vector bm ++ [Some (set_provided true b)]) (free_buffer_queue bm)
                (add_buffer_to_ring b (tcp_ring bm)) bm in
    set_udp (udp_buffer_vector bm ++ [Some (set_provided true u)]) (free_udp_buffer_queue bm)
      (add_buffer_to_ring u (udp_ring bm)) bm
  else
    let bm := set_tcp (buffer_vector bm ++ [Some b]) (free_buffer_queue bm ++ [iz]) (tcp_ring bm) bm in
    set_udp (udp_buffer_vector bm ++ [Some u]) (free_udp_buffer_queue bm ++ [iz + count bm]) (udp_ring bm) bm.

Definition bm_make (len buffer_size : Z) : BufferManager :=
  foldl bm_init_step (mkBM len buffer_size [] [] [] [] [] [] []) (seq 0 (Z.to_nat len)).

Definition get_buffer (bm : BufferManager) : res (Buffer * BufferManager) :=
  match free_buffer_queue bm with
  | [] => Err Fatal
  | i :: q =>
      '(b, vec) ← take_at (buffer_vector bm) i;
      Ok (b, set_tcp vec q (tcp_ring bm) bm)
  end.

Definition get_buffer_by_index (i : Z) (bm : BufferManager) : res (Buffer * BufferManager) :=
  _ ← fatal_if (count bm <=? i);
  o ← zat (buffer_vector bm) i;
  match o with
  | None => Err Fatal
  | Some _ =>
      '(b, vec) ← take_at (buffer_vector bm) i;
      Ok (b, set_tcp vec (free_buffer_queue bm) (tcp_ring bm) bm)
  end.

Definition get_udp_buffer_by_index (i : Z) (bm : BufferManager) : res (Buffer * BufferManager) :=
  _ ← fatal_if ((i <? count bm) || (count bm + Z.of_nat (length (udp_buffer_vector bm)) <=? i));
  o ← zat (udp_buffer_vector bm) (i - count bm);
  match o with
  | None => Err Fatal
  | Some _ =>
      '(b, vec) ← take_at (udp_buffer_vector bm) (i - count bm);
      Ok (b, set_udp vec (free_udp_buffer_queue bm) (udp_ring bm) bm)
  end.

Definition get_udp_buffer (bm : BufferManager) : res (Buffer * BufferManager) :=
  match free_udp_buffer_queue bm with
  | [] => Err Fatal
  | i :: q =>
      '(b, vec) ← take_at (udp_buffer_vector bm) (u64 (i - count bm));
      Ok (b, set_udp vec q (udp_ring bm) bm)
  end.

Definition free_udp_buffer (buffer : option Buffer) (bm : BufferManager) : res BufferManager :=
  match buffer with
  | None => Err Fatal
  | Some b =>
      _ ← fatal_if (is_free b);
      let b := buffer_clear b in
      vec ← put_at (udp_buffer_vector bm) (u64 (index b - count bm)) b;
      Ok (if is_provided b
          then set_udp vec (free_udp_buffer_queue bm) (add_buffer_to_ring b (udp_ring bm)) bm
          else set_udp vec (free_udp_buffer_queue bm ++ [index b]) (udp_ring bm) bm)
  end.

Definition free_buffer (buffer : option Buffer) (bm : BufferManager) : res BufferManager :=
  match buffer with
  | None => Err Fatal
  | Some b =>
      _ ← fatal_if (is_free b);
      let b := buffer_clear b in
      vec ← put_at (buffer_vector bm) (index b) b;
      Ok (if is_provided b
          then set_tcp vec (free_buffer_queue bm) (add_buffer_to_ring b (tcp_ring bm)) bm
          else set_tcp vec (free_buffer_queue bm ++ [index b]) (tcp_ring bm) bm)
  end.

Definition get_user_data (bm : BufferManager) : res (UserData * BufferManager) :=
  match user_data_queue bm with
  | [] => Err Fatal
  | ud :: q => Ok (ud, set_user_data_queue q bm)
  end.

Definition free_user_data (ud : option UserData) (bm : BufferManager) : res BufferManager :=
  match ud with
  | None => Err Fatal
  | Some ud =>
      _ ← fatal_if (in_ring ud);
      ud ← ud_clear ud;
      Ok (set_user_data_queue (user_data_queue bm ++ [ud]) bm)
  end.

(** ** Received datagrams: [RingWrapper::handle_multishot_recv]

    The kernel writes [struct io_uring_recvmsg_out] (four 32-bit words:
    namelen, controllen, payloadlen, flags), the sender's address, the
    control data and the payload. *)
Definition RECVMSG_OUT : nat := 16.
Definition SOCKADDR_IN : Z := 16.

Definition read_u32 (d : list Z) (off : nat) : res Z :=
  bs ← or_fault Undefined (slice off 4 d); Ok (le_value bs).

(** [sin_port] and [sin_addr] are in network order. *)
Definition read_addr (d : list Z) (off : nat) : res Addr :=
  port ← or_fault Undefined (slice (off + 2) 2 d);
  ip ← or_fault Undefined (slice (off + 4) 4 d);
  Ok (mkAddr (be_value ip) (be_value port)).

Definition handle_multishot_recv (b : Buffer) (cqe_res : Z) : res Buffer :=
  namelen ← read_u32 (data b) 0;
  controllen ← read_u32 (data b) 4;
  b1 ← (if 0 <? namelen then
          if namelen =? SOCKADDR_IN then
            a ← read_addr (data b) RECVMSG_OUT; Ok (set_addr a b)
          else Err Fatal
        else Ok b);
  let header_len := Z.of_nat RECVMSG_OUT + namelen + controllen in
  (* (size_t)cqe_res *)
  _ ← fatal_if (u64 cqe_res <? header_len);
  let payload_len := u64 cqe_res - header_len in
  b2 ← (if 0 <? payload_len then
          bs ← or_fault Undefined (slice (Z.to_nat header_len) (Z.to_nat payload_len) (data b1));
          d ← store (data b1) 0 bs;
          Ok (set_data d b1)
        else Ok b1);
  set_filled payload_len b2.

(** ** Conservation of a pool

    Slots, free ids, ids lent to the kernel and buffers held outside. *)

Definition ids (off : Z) (n : nat) : list Z := (fun j => off + Z.of_nat j) <$> seq 0 n.

Definition slot_ok (off : Z) (free ring : list Z) (held : list Buffer) (j : nat) (o : option Buffer) : Prop :=
  match o with
  | Some b => index b = off + Z.of_nat j /\ is_free b = true /\
      (if is_provided b then index b ∈ ring else index b ∈ free)
  | None => off + Z.of_nat j ∈ (index <$> held)
  end.

Record pool_inv (off : Z) (vec : list (option Buffer)) (free ring : list Z) (held : list Buffer) : Prop := {
  pi_part : free ++ ring ++ (index <$> held) ≡ₚ ids off (length vec);
  pi_slot j o : vec !! j = Some o -> slot_ok off free ring held j o;
  pi_held : Forall (fun b => is_free b = false) held
}.

Lemma elem_of_ids off n i : i ∈ ids off n <-> off <= i < off + Z.of_nat n.
Proof.
  unfold ids. rewrite list_elem_of_fmap. split.
  - intros (j & -> & ?%elem_of_seq). lia.
  - intros ?. exists (Z.to_nat (i - off)). rewrite elem_of_seq. split; lia.
Qed.

Lemma ids_NoDup off n : NoDup (ids off n).
Proof. apply NoDup_fmap_2; [intros ???; lia|apply NoDup_seq]. Qed.

Lemma ids_S off n : ids off (S n) = ids off n ++ [off + Z.of_nat n].
Proof. unfold ids. rewrite seq_S, fmap_app. done. Qed.

Lemma zat_lookup {A} (l : list A) (j : nat) x : l !! j = Some x -> zat l (Z.of_nat j) = Ok x.
Proof.
  intros H. unfold zat. pose proof (lookup_lt_Some _ _ _ H).
  replace (0 <=? Z.of_nat j) with true by lia.
  replace (Z.of_nat j <? Z.of_nat (length l)) with true by lia. cbn [andb].
  rewrite Nat2Z.id. by apply at_Ok.
Qed.

Section Pool.
Context (off : Z).
Implicit Types (vec : list (option Buffer)) (free ring : list Z) (held : list Buffer).

Lemma pool_NoDup vec free ring held : pool_inv off vec free ring held ->
  NoDup (free ++ ring ++ (index <$> held)).
Proof. intros H. rewrite (pi_part _ _ _ _ _ H). apply ids_NoDup. Qed.

Lemma pool_range vec free ring held i : pool_inv off vec free ring held ->
  i ∈ free ++ ring ++ (index <$> held) -> off <= i < off + Z.of_nat (length vec).
Proof. intros H. rewrite (pi_part _ _ _ _ _ H). apply elem_of_ids. Qed.

(** An id that is not held sits in its slot. *)
Lemma pool_slot vec free ring held i : pool_inv off vec free ring held -> i ∈ free ++ ring ->
  exists j b, i = off + Z.of_nat j /\ vec !! j = Some (Some b) /\ index b = i /\ is_free b = true.
Proof.
  intros H Hi. destruct (pool_range _ _ _ _ i H) as [Hge Hlt]; [set_solver|].
  pose (j := Z.to_nat (i - off)). assert (i = off + Z.of_nat j) as Ei by lia.
  destruct (lookup_lt_is_Some_2 vec j) as [o Ho]; [lia|].
  pose proof (pi_slot _ _ _ _ _ H _ _ Ho) as Hs. destruct o as [b|]; simpl in Hs.
  - exists j, b. destruct Hs as (? & ? & _). repeat split; try done; lia.
  - exfalso. pose proof (pool_NoDup _ _ _ _ H) as Hnd. rewrite app_assoc in Hnd.
    apply NoDup_app in Hnd as (_ & Hnd & _). apply (Hnd i); [done|]. by rewrite Ei.
Qed.

Lemma pool_take vec free ring held free' ring' i : pool_inv off vec free ring held ->
  free ++ ring ≡ₚ i :: free' ++ ring' ->
  (forall k, k <> i -> k ∈ free -> k ∈ free') -> (forall k, k <> i -> k ∈ ring -> k ∈ ring') ->
  exists b vec', take_at vec (i - off) = Ok (b, vec') /\ index b = i /\
    length vec' = length vec /\ pool_inv off vec' free' ring' (b :: held).
Proof.
  intros H Hp Hfree Hring. destruct (pool_slot _ _ _ _ i H) as (j & b & Hj & Hb & Hi & Hf).
  { rewrite Hp. set_solver. }
  unfold take_at. replace (i - off) with (Z.of_nat j) by lia. rewrite (zat_lookup _ _ _ Hb).
  cbn [mbind res_bind]. rewrite Hf, Nat2Z.id. eexists _, _. split; [reflexivity|]. split; [done|].
  split; [apply length_insert|]. split.
  - rewrite length_insert, <- (pi_part _ _ _ _ _ H), fmap_cons, app_assoc, (app_assoc free), Hp.
    simpl. rewrite Hi. solve_Permutation.
  - intros j' o Ho. destruct (decide (j = j')) as [<-|Hne].
    + rewrite list_lookup_insert_eq in Ho by by eapply lookup_lt_Some. injection Ho as <-.
      simpl. rewrite Hi, Hj. set_solver.
    + rewrite list_lookup_insert_ne in Ho by done.
      pose proof (pi_slot _ _ _ _ _ H _ _ Ho) as Hs. destruct o as [b'|]; simpl in *.
      * destruct Hs as (Hi' & ? & Hm). split; [done|]. split; [done|].
        destruct (is_provided b'); [apply Hring|apply Hfree]; (done || lia).
      * set_solver.
  - constructor; [done|apply H].
Qed.

Lemma pool_put vec free ring held b : pool_inv off vec free ring (b :: held) ->
  exists vec', put_at vec (index b - off) (buffer_clear b) = Ok vec' /\ length vec' = length vec /\
    pool_inv off vec' (if is_provided b then free else free ++ [index b])
      (if is_provided b then ring ++ [index b] else ring) held.
Proof.
  intros H. pose proof (pool_NoDup _ _ _ _ H) as Hnd.
  destruct (pool_range _ _ _ _ (index b) H) as [Hge Hlt]; [rewrite fmap_cons; set_solver|].
  pose (j := Z.to_nat (index b - off)). assert (index b = off + Z.of_nat j) as Ej by lia.
  destruct (lookup_lt_is_Some_2 vec j) as [o Ho]; [lia|].
  pose proof (pi_slot _ _ _ _ _ H _ _ Ho) as Hs. rewrite fmap_cons in Hnd.
  assert (o = None) as ->.
  { destruct o as [b'|]; [|done]. simpl in Hs. exfalso. rewrite app_assoc in Hnd.
    apply NoDup_app in Hnd as (_ & Hnd & _). apply (Hnd (index b)); [|set_solver].
    destruct Hs as (Hi & _ & Hm). rewrite <- Ej in Hi. rewrite <- Hi.
    destruct (is_provided b'); set_solver. }
  unfold put_at. replace (index b - off) with (Z.of_nat j) by lia. rewrite (zat_lookup _ _ _ Ho).
  cbn [mbind res_bind]. rewrite Nat2Z.id. eexists. split; [reflexivity|].
  split; [apply length_insert|]. split.
  - rewrite length_insert, <- (pi_part _ _ _ _ _ H), fmap_cons.
    destruct (is_provided b); solve_Permutation.
  - intros j' o' Ho'. destruct (decide (j = j')) as [<-|Hne].
    + rewrite list_lookup_insert_eq in Ho' by by eapply lookup_lt_Some. injection Ho' as <-.
      simpl. split; [done|]. split; [done|]. destruct (is_provided b); set_solver.
    + rewrite list_lookup_insert_ne in Ho' by done.
      pose proof (pi_slot _ _ _ _ _ H _ _ Ho') as Hs'. destruct o' as [b'|]; simpl in *.
      * destruct Hs' as (? & ? & Hm). split; [done|]. split; [done|].
        destruct (is_provided b), (is_provided b'); set_solver.
      * apply elem_of_cons in Hs' as [Heq|]; [lia|done].
  - by eapply Forall_inv_tail, H.
Qed.
End Pool.

(** ** The manager and its clients *)

(** The manager with the buffers taken out of it, TCP and UDP. *)
Record Pools := mkPools { pm : BufferManager; tcp_held : list Buffer; udp_held : list Buffer }.

Record pools_inv (s : Pools) : Prop := {
  bi_tcp : pool_inv 0 (buffer_vector (pm s)) (free_buffer_queue (pm s)) (tcp_ring (pm s)) (tcp_held s);
  bi_udp : pool_inv (count (pm s)) (udp_buffer_vector (pm s)) (free_udp_buffer_queue (pm s))
             (udp_ring (pm s)) (udp_held s);
  bi_tcp_len : Z.of_nat (length (buffer_vector (pm s))) = count (pm s);
  bi_udp_len : Z.of_nat (length (udp_buffer_vector (pm s))) = count (pm s);
  bi_count : 2 * count (pm s) <= 2 ^ 16
}.

(** The identity a client preserves while it fills and reads a buffer. *)
Definition same_buffer (b b' : Buffer) : Prop :=
  index b' = index b /\ is_free b' = is_free b /\ is_provided b' = is_provided b.

Inductive pools_step : Pools -> Pools -> Prop :=
  | ps_get bm t u b bm' : get_buffer bm = Ok (b, bm') ->
      pools_step (mkPools bm t u) (mkPools bm' (b :: t) u)
  | ps_get_udp bm t u b bm' : get_udp_buffer bm = Ok (b, bm') ->
      pools_step (mkPools bm t u) (mkPools bm' t (b :: u))
  | ps_recv bm t u i ring b bm' : tcp_ring bm ≡ₚ i :: ring ->
      get_buffer_by_index i (set_tcp (buffer_vector bm) (free_buffer_queue bm) ring bm) = Ok (b, bm') ->
      pools_step (mkPools bm t u) (mkPools bm' (b :: t) u)
  | ps_recv_udp bm t u i ring b bm' : udp_ring bm ≡ₚ i :: ring ->
      get_udp_buffer_by_index i (set_udp (udp_buffer_vector bm) (free_udp_buffer_queue bm) ring bm) = Ok (b, bm') ->
      pools_step (mkPools bm t u) (mkPools bm' t (b :: u))
  | ps_free bm t t' u b bm' : t ≡ₚ b :: t' -> free_buffer (Some b) bm = Ok bm' ->
      pools_step (mkPools bm t u) (mkPools bm' t' u)
  | ps_free_udp bm t u u' b bm' : u ≡ₚ b :: u' -> free_udp_buffer (Some b) bm = Ok bm' ->
      pools_step (mkPools bm t u) (mkPools bm' t u')
  | ps_use bm t t' u b b' : t ≡ₚ b :: t' -> same_buffer b b' ->
      pools_step (mkPools bm t u) (mkPools bm (b' :: t') u)
  | ps_use_udp bm t u u' b b' : u ≡ₚ b :: u' -> same_buffer b b' ->
      pools_step (mkPools bm t u) (mkPools bm t (b' :: u')).

Lemma pool_inv_perm off vec free ring ring' held held' : held ≡ₚ held' -> ring ≡ₚ ring' ->
  pool_inv off vec free ring held -> pool_inv off vec free ring' held'.
Proof.
  intros Hh Hr [Hp Hs Hf]. split.
  - by rewrite <- Hh, <- Hr.
  - intros j o Ho. specialize (Hs j o Ho). destruct o as [b|]; simpl in *.
    + destruct Hs as (? & ? & ?). split; [done|]. split; [done|]. destruct (is_provided b); [by rewrite <- Hr|done].
    + by rewrite <- Hh.
  - by rewrite <- Hh.
Qed.

Lemma pool_inv_use off vec free ring b b' held : same_buffer b b' ->
  pool_inv off vec free ring (b :: held) -> pool_inv off vec free ring (b' :: held).
Proof.
  intros (Hi & Hf & _) [Hp Hs Hh]. split.
  - by rewrite fmap_cons, Hi, <- fmap_cons.
  - intros j o Ho. specialize (Hs j o Ho). destruct o; simpl in *; [done|]. by rewrite Hi.
  - apply Forall_cons in Hh as [??]. constructor; [by rewrite Hf|done].
Qed.

Section Manager.
Implicit Types (bm : BufferManager) (t u : list Buffer).


(** An id of the manager, in either range, is a [uint16_t]. *)
Lemma pool_id off vec free ring held i : pool_inv off vec free ring held ->
  i ∈ free ++ ring ++ (index <$> held) -> 0 <= off -> off + Z.of_nat (length vec) <= 2 ^ 16 ->
  0 <= i < 2 ^ 16 /\ off <= i < off + Z.of_nat (length vec).
Proof. intros H Hi ? ?. pose proof (pool_range off _ _ _ _ i H Hi). lia. Qed.

Lemma get_buffer_ok bm t u i q : pools_inv (mkPools bm t u) -> free_buffer_queue bm = i :: q ->
  exists b bm', get_buffer bm = Ok (b, bm') /\ index b = i /\ pools_inv (mkPools bm' (b :: t) u).
Proof.
  intros [Ht Hu L1 L2 Hc] Hq. simpl in *.
  destruct (pool_take 0 _ _ _ _ q (tcp_ring bm) i Ht) as (b & vec & Htk & Hi & Hl & Hinv);
    [by rewrite Hq|intros k ?; rewrite Hq; set_solver|done|].
  unfold get_buffer. rewrite Hq. rewrite Z.sub_0_r in Htk. rewrite Htk. cbn [mbind res_bind].
  eexists _, _. split; [reflexivity|]. split; [done|]. split; simpl; (done || lia).
Qed.

Lemma get_udp_buffer_ok bm t u i q : pools_inv (mkPools bm t u) -> free_udp_buffer_queue bm = i :: q ->
  exists b bm', get_udp_buffer bm = Ok (b, bm') /\ index b = i /\ pools_inv (mkPools bm' t (b :: u)).
Proof.
  intros [Ht Hu L1 L2 Hc] Hq. simpl in *.
  destruct (pool_take (count bm) _ _ _ _ q (udp_ring bm) i Hu) as (b & vec & Htk & Hi & Hl & Hinv);
    [by rewrite Hq|intros k ?; rewrite Hq; set_solver|done|].
  destruct (pool_id _ _ _ _ _ i Hu) as [? ?]; [rewrite Hq; set_solver|lia..|].
  unfold get_udp_buffer. rewrite Hq, wrap_small, Htk by lia. cbn [mbind res_bind].
  eexists _, _. split; [reflexivity|]. split; [done|]. split; simpl; (done || lia).
Qed.

Lemma take_at_zat vec j b vec' : take_at vec j = Ok (b, vec') -> exists b0, zat vec j = Ok (Some b0).
Proof. unfold take_at. intros H. bind_inv. destruct a as [b0|]; [by exists b0|discriminate]. Qed.

Lemma recv_ok bm t u i ring : pools_inv (mkPools bm t u) -> tcp_ring bm ≡ₚ i :: ring ->
  exists b bm', get_buffer_by_index i (set_tcp (buffer_vector bm) (free_buffer_queue bm) ring bm)
      = Ok (b, bm') /\ index b = i /\ pools_inv (mkPools bm' (b :: t) u).
Proof.
  intros [Ht Hu L1 L2 Hc] Hr. simpl in *.
  destruct (pool_take 0 _ _ _ _ (free_buffer_queue bm) ring i Ht) as (b & vec & Htk & Hi & Hl & Hinv);
    [rewrite Hr; solve_Permutation|done|intros k ?; rewrite Hr; set_solver|].
  destruct (pool_id _ _ _ _ _ i Ht) as [? ?]; [rewrite Hr; set_solver|lia..|].
  rewrite Z.sub_0_r in Htk. destruct (take_at_zat _ _ _ _ Htk) as [b0 Hz].
  unfold get_buffer_by_index. simpl. replace (count bm <=? i) with false by lia.
  cbn [fatal_if mbind res_bind]. rewrite Hz. cbn [mbind res_bind]. rewrite Htk. cbn [mbind res_bind].
  eexists _, _. split; [reflexivity|]. split; [done|]. split; simpl; (done || lia).
Qed.

Lemma recv_udp_ok bm t u i ring : pools_inv (mkPools bm t u) -> udp_ring bm ≡ₚ i :: ring ->
  exists b bm', get_udp_buffer_by_index i (set_udp (udp_buffer_vector bm) (free_udp_buffer_queue bm) ring bm)
      = Ok (b, bm') /\ index b = i /\ pools_inv (mkPools bm' t (b :: u)).
Proof.
  intros [Ht Hu L1 L2 Hc] Hr. simpl in *.
  destruct (pool_take (count bm) _ _ _ _ (free_udp_buffer_queue bm) ring i Hu) as (b & vec & Htk & Hi & Hl & Hinv);
    [rewrite Hr; solve_Permutation|done|intros k ?; rewrite Hr; set_solver|].
  destruct (pool_id _ _ _ _ _ i Hu) as [? ?]; [rewrite Hr; set_solver|lia..|].
  destruct (take_at_zat _ _ _ _ Htk) as [b0 Hz].
  unfold get_udp_buffer_by_index. simpl.
  replace (i <? count bm) with false by lia.
  replace (count bm + Z.of_nat (length (udp_buffer_vector bm)) <=? i) with false by lia.
  cbn [orb fatal_if mbind res_bind]. rewrite Hz. cbn [mbind res_bind]. rewrite Htk. cbn [mbind res_bind].
  eexists _, _. split; [reflexivity|]. split; [done|]. split; simpl; (done || lia).
Qed.

Lemma free_buffer_ok bm t t' u b : pools_inv (mkPools bm t u) -> t ≡ₚ b :: t' ->
  exists bm', free_buffer (Some b) bm = Ok bm' /\ pools_inv (mkPools bm' t' u).
Proof.
  intros [Ht Hu L1 L2 Hc] Hp. simpl in *.
  apply (pool_inv_perm _ _ _ _ (tcp_ring bm) _ _ Hp) in Ht; [|done].
  destruct (pool_put 0 _ _ _ _ _ Ht) as (vec & Hput & Hl & Hinv).
  destruct (pool_id _ _ _ _ _ (index b) Ht) as [? ?]; [rewrite fmap_cons; set_solver|lia..|].
  pose proof (pi_held _ _ _ _ _ Ht) as [Hf _]%Forall_cons.
  rewrite Z.sub_0_r in Hput. unfold free_buffer. rewrite Hf. cbn [fatal_if mbind res_bind].
  change (index (buffer_clear b)) with (index b). rewrite Hput. cbn [mbind res_bind].
  change (is_provided (buffer_clear b)) with (is_provided b).
  eexists. split; [reflexivity|]. unfold add_buffer_to_ring. simpl. rewrite wrap_small by lia.
  destruct (is_provided b); split; simpl; (done || lia).
Qed.

Lemma free_udp_buffer_ok bm t u u' b : pools_inv (mkPools bm t u) -> u ≡ₚ b :: u' ->
  exists bm', free_udp_buffer (Some b) bm = Ok bm' /\ pools_inv (mkPools bm' t u').
Proof.
  intros [Ht Hu L1 L2 Hc] Hp. simpl in *.
  apply (pool_inv_perm _ _ _ _ (udp_ring bm) _ _ Hp) in Hu; [|done].
  destruct (pool_put (count bm) _ _ _ _ _ Hu) as (vec & Hput & Hl & Hinv).
  destruct (pool_id _ _ _ _ _ (index b) Hu) as [? ?]; [rewrite fmap_cons; set_solver|lia..|].
  pose proof (pi_held _ _ _ _ _ Hu) as [Hf _]%Forall_cons.
  unfold free_udp_buffer. rewrite Hf. cbn [fatal_if mbind res_bind].
  change (index (buffer_clear b)) with (index b). rewrite (wrap_small 64) by lia.
  rewrite Hput. cbn [mbind res_bind].
  change (is_provided (buffer_clear b)) with (is_provided b).
  eexists. split; [reflexivity|]. unfold add_buffer_to_ring. simpl. rewrite wrap_small by lia.
  destruct (is_provided b); split; simpl; (done || lia).
Qed.

Lemma pools_step_inv s s' : pools_step s s' -> pools_inv s -> pools_inv s'.
Proof.
  intros Hs H. destruct Hs as [bm t u b bm' Hop|bm t u b bm' Hop|bm t u i ring b bm' Hr Hop
    |bm t u i ring b bm' Hr Hop|bm t t' u b bm' Hp Hop|bm t u u' b bm' Hp Hop
    |bm t t' u b b' Hp Hsame|bm t u u' b b' Hp Hsame].
  - destruct (free_buffer_queue bm) as [|i q] eqn:Hq; [unfold get_buffer in Hop; by rewrite Hq in Hop|].
    destruct (get_buffer_ok _ _ _ _ _ H Hq) as (b1 & bm1 & Hop' & _ & Hi). congruence.
  - destruct (free_udp_buffer_queue bm) as [|i q] eqn:Hq; [unfold get_udp_buffer in Hop; by rewrite Hq in Hop|].
    destruct (get_udp_buffer_ok _ _ _ _ _ H Hq) as (b1 & bm1 & Hop' & _ & Hi). congruence.
  - destruct (recv_ok _ _ _ _ _ H Hr) as (b1 & bm1 & Hop' & _ & Hi). congruence.
  - destruct (recv_udp_ok _ _ _ _ _ H Hr) as (b1 & bm1 & Hop' & _ & Hi). congruence.
  - destruct (free_buffer_ok _ _ _ _ _ H Hp) as (bm1 & Hop' & Hi). congruence.
  - destruct (free_udp_buffer_ok _ _ _ _ _ H Hp) as (bm1 & Hop' & Hi). congruence.
  - destruct H as [Ht Hu L1 L2 Hc]. simpl in *. split; simpl; try done.
    apply (pool_inv_use _ _ _ _ b b' _ Hsame). by eapply pool_inv_perm.
  - destruct H as [Ht Hu L1 L2 Hc]. simpl in *. split; simpl; try done.
    apply (pool_inv_use _ _ _ _ b b' _ Hsame). by eapply pool_inv_perm.
Qed.
End Manager.

(** ** Construction *)

Lemma pool_add off vec free ring b : pool_inv off vec free ring [] ->
  index b = off + Z.of_nat (length vec) -> is_free b = true ->
  pool_inv off (vec ++ [Some b]) (if is_provided b then free else free ++ [index b])
    (if is_provided b then ring ++ [index b] else ring) [].
Proof.
  intros [Hp Hs Hh] Hi Hf. split; [| |done].
  - rewrite length_app, Nat.add_1_r, ids_S, <- Hp, <- Hi. destruct (is_provided b); solve_Permutation.
  - intros j o [Ho|[Hge Ho]]%lookup_app_Some.
    + specialize (Hs j o Ho). destruct o as [b'|]; simpl in *; [|done].
      destruct Hs as (? & ? & ?). split; [done|]. split; [done|].
      destruct (is_provided b), (is_provided b'); set_solver.
    + apply list_lookup_singleton_Some in Ho as [Hj <-]. simpl.
      replace j with (length vec) by lia. split; [done|]. split; [done|].
      destruct (is_provided b); set_solver.
Qed.

Lemma init_step_inv bm i : Z.of_nat i < count bm -> 2 * count bm <= 2 ^ 16 ->
  length (buffer_vector bm) = i -> length (udp_buffer_vector bm) = i ->
  pool_inv 0 (buffer_vector bm) (free_buffer_queue bm) (tcp_ring bm) [] ->
  pool_inv (count bm) (udp_buffer_vector bm) (free_udp_buffer_queue bm) (udp_ring bm) [] ->
  let bm' := bm_init_step bm i in
  count bm' = count bm /\ length (buffer_vector bm') = S i /\ length (udp_buffer_vector bm') = S i /\
  pool_inv 0 (buffer_vector bm') (free_buffer_queue bm') (tcp_ring bm') [] /\
  pool_inv (count bm) (udp_buffer_vector bm') (free_udp_buffer_queue bm') (udp_ring bm') [].
Proof.
  intros Hi Hc L1 L2 Ht Hu. unfold bm_init_step.
  destruct (initially_provided _ _); simpl; unfold add_buffer_to_ring; simpl;
    rewrite !length_app, ?wrap_small by lia; simpl;
    (split; [done|]; split; [lia|]; split; [lia|]; split).
  - apply (pool_add 0 _ _ _ (set_provided true (buffer_make (bm_size bm) (Z.of_nat i))) Ht); simpl; (done || lia).
  - apply (pool_add (count bm) _ _ _ (set_provided true (buffer_make 256 (Z.of_nat i + count bm))) Hu); simpl; (done || lia).
  - apply (pool_add 0 _ _ _ (buffer_make (bm_size bm) (Z.of_nat i)) Ht); simpl; (done || lia).
  - apply (pool_add (count bm) _ _ _ (buffer_make 256 (Z.of_nat i + count bm)) Hu); simpl; (done || lia).
Qed.

Lemma init_steps_inv n : forall bm i, Z.of_nat (i + n) <= count bm -> 2 * count bm <= 2 ^ 16 ->
  length (buffer_vector bm) = i -> length (udp_buffer_vector bm) = i ->
  pool_inv 0 (buffer_vector bm) (free_buffer_queue bm) (tcp_ring bm) [] ->
  pool_inv (count bm) (udp_buffer_vector bm) (free_udp_buffer_queue bm) (udp_ring bm) [] ->
  let bm' := foldl bm_init_step bm (seq i n) in
  count bm' = count bm /\ length (buffer_vector bm') = (i + n)%nat /\
  length (udp_buffer_vector bm') = (i + n)%nat /\
  pool_inv 0 (buffer_vector bm') (free_buffer_queue bm') (tcp_ring bm') [] /\
  pool_inv (count bm) (udp_buffer_vector bm') (free_udp_buffer_queue bm') (udp_ring bm') [].
Proof.
  induction n as [|n IH]; intros bm i Hn Hc L1 L2 Ht Hu.
  { cbn [seq foldl]. split; [done|]. rewrite Nat.add_0_r. done. }
  destruct (init_step_inv bm i) as (E & L1' & L2' & Ht' & Hu'); [lia|done..|].
  cbn [seq foldl]. rewrite <- E in Hu'.
  destruct (IH (bm_init_step bm i) (S i)) as (E2 & M1 & M2 & Ht2 & Hu2); [lia|lia|done..|].
  cbn zeta. rewrite E2, E, M1, M2. split; [done|]. split; [lia|]. split; [lia|].
  split; [done|]. by rewrite E in Hu2.
Qed.

Lemma bm_make_inv n size : 2 * Z.of_nat n <= 2 ^ 16 ->
  pools_inv (mkPools (bm_make (Z.of_nat n) size) [] []) /\ count (bm_make (Z.of_nat n) size) = Z.of_nat n.
Proof.
  intros Hn. unfold bm_make. rewrite Nat2Z.id.
  destruct (init_steps_inv n (mkBM (Z.of_nat n) size [] [] [] [] [] [] []) 0)
    as (E & L1 & L2 & Ht & Hu); [simpl; lia|simpl; lia|done|done| | |].
  - split; [done|by intros ? ?|done].
  - split; [done|by intros ? ?|done].
  - split; [|done]. split; simpl; rewrite ?E in *; simpl in *; rewrite ?L1, ?L2; (done || lia).
Qed.

Lemma pools_steps_inv s s' : rtc pools_step s s' -> pools_inv s -> pools_inv s'.
Proof. induction 1; eauto using pools_step_inv. Qed.

(** ** Received datagrams *)

Lemma slice_app_mid {A} (a b c : list A) i n : i = length a -> n = length b ->
  slice i n (a ++ b ++ c) = Some b.
Proof.
  intros -> ->. unfold slice. rewrite decide_True by (rewrite !length_app; lia).
  by rewrite drop_app_length, take_app_length.
Qed.

Fixpoint le_bytes (n : nat) (x : Z) : list Z :=
  match n with O => [] | S n' => x mod 256 :: le_bytes n' (x / 256) end.

Lemma length_le_bytes n x : length (le_bytes n x) = n.
Proof. revert x. induction n; intros; simpl; auto. Qed.

Lemma le_value_bytes n x : 0 <= x < 256 ^ Z.of_nat n -> le_value (le_bytes n x) = x.
Proof.
  revert x. induction n as [|n IH]; intros x Hx; [simpl in *; lia|].
  cbn [le_bytes le_value]. rewrite Nat2Z.inj_succ, Z.pow_succ_r in Hx by lia.
  rewrite IH; [rewrite Z.add_comm; symmetry; rewrite Z.add_comm; pose proof (Z.div_mod x 256); lia|].
  split; [apply Z.div_pos; lia|apply Z.div_lt_upper_bound; lia].
Qed.

(** The kernel's layout of a datagram from [a], with [ctl] and [rest]. *)
Definition recvmsg_layout (a : Addr) (hdr pad ctl payload rest : list Z) : list Z :=
  le_bytes 4 16 ++ le_bytes 4 (Z.of_nat (length ctl)) ++ hdr ++
  (take 2 pad ++ be_bytes 2 (sin_port a) ++ be_bytes 4 (sin_addr a) ++ drop 2 pad) ++
  ctl ++ payload ++ rest.

Section Datagram.
Context (a : Addr) (hdr pad ctl payload rest : list Z).
Context (Hhdr : length hdr = 8%nat) (Hpad : length pad = 10%nat).
Context (Hip : 0 <= sin_addr a < 2 ^ 32) (Hport : 0 <= sin_port a < 2 ^ 16).
Context (Hctl : Z.of_nat (length ctl) < 2 ^ 31) (Hpl : Z.of_nat (length payload) < 2 ^ 31).
Let d := recvmsg_layout a hdr pad ctl payload rest.

Lemma layout_namelen : read_u32 d 0 = Ok 16.
Proof using All.
  unfold read_u32, d, recvmsg_layout.
  pose proof (fun c => slice_app_mid [] (le_bytes 4 16) c 0 4 eq_refl eq_refl) as H. cbn [app] in H.
  by rewrite H.
Qed.

Lemma layout_controllen : read_u32 d 4 = Ok (Z.of_nat (length ctl)).
Proof using All.
  unfold read_u32, d, recvmsg_layout. rewrite (slice_app_mid (le_bytes 4 16)) by by rewrite ?length_le_bytes.
  cbn [or_fault mbind res_bind]. rewrite le_value_bytes; [done|]. simpl. lia.
Qed.

Lemma layout_addr : read_addr d RECVMSG_OUT = Ok a.
Proof using All.
  unfold read_addr, d, recvmsg_layout, RECVMSG_OUT.
  pose (pre := le_bytes 4 16 ++ le_bytes 4 (Z.of_nat (length ctl)) ++ hdr ++ take 2 pad).
  assert (length pre = 18%nat) as Hpre by
    (unfold pre; rewrite !length_app, !length_le_bytes, length_take; lia).
  replace (le_bytes 4 16 ++ _) with
    (pre ++ be_bytes 2 (sin_port a) ++ be_bytes 4 (sin_addr a) ++ drop 2 pad ++ ctl ++ payload ++ rest)
    by (unfold pre; by rewrite <- !app_assoc).
  rewrite (slice_app_mid pre (be_bytes 2 (sin_port a)) _ (16 + 2)) by (rewrite ?length_be_bytes; lia).
  cbn [or_fault mbind res_bind].
  rewrite (app_assoc pre), (slice_app_mid (pre ++ _)) by (rewrite ?length_app, ?length_be_bytes; lia).
  cbn [or_fault mbind res_bind]. rewrite !be_value_bytes.
  rewrite !Z.mod_small by (simpl; lia). by destruct a.
Qed.

Lemma handle_multishot_recv_ok b : data b = d -> Z.of_nat (length payload) <= bsize b ->
  exists b', handle_multishot_recv b (32 + Z.of_nat (length ctl) + Z.of_nat (length payload)) = Ok b' /\
    take (length payload) (data b') = payload /\ filled b' = Z.of_nat (length payload) /\
    addr b' = a /\ length (data b') = length (data b) /\ same_buffer b b'.
Proof using All.
  intros Hd Hsz. unfold handle_multishot_recv. rewrite Hd, layout_namelen. cbn [mbind res_bind].
  rewrite layout_controllen. cbn [mbind res_bind].
  change (0 <? 16) with true. change (16 =? SOCKADDR_IN) with true. cbv iota.
  rewrite layout_addr. cbn [mbind res_bind].
  rewrite wrap_small by lia. change (Z.of_nat RECVMSG_OUT) with 16.
  match goal with |- context [fatal_if (?x <? ?y)] => replace (x <? y) with false by lia end.
  cbn [fatal_if mbind res_bind].
  replace (32 + Z.of_nat (length ctl) + Z.of_nat (length payload) - (16 + 16 + Z.of_nat (length ctl)))
    with (Z.of_nat (length payload)) by lia.
  pose (pre := le_bytes 4 16 ++ le_bytes 4 (Z.of_nat (length ctl)) ++ hdr ++
    (take 2 pad ++ be_bytes 2 (sin_port a) ++ be_bytes 4 (sin_addr a) ++ drop 2 pad) ++ ctl).
  assert (d = pre ++ payload ++ rest) as Ed by (unfold d, recvmsg_layout, pre; by rewrite <- !app_assoc).
  assert (length pre = (32 + length ctl)%nat) as Hpre by
    (unfold pre; rewrite !length_app, !length_le_bytes, !length_be_bytes, length_take, length_drop; lia).
  destruct (Z.ltb_spec 0 (Z.of_nat (length payload))).
  - cbn [data set_addr]. rewrite Hd, Ed, slice_app_mid by lia. cbn [or_fault mbind res_bind].
    unfold store. rewrite decide_True by (rewrite !length_app; lia). cbn [mbind res_bind].
    unfold set_filled. cbn [bsize set_data set_addr]. replace (bsize b <? _) with false by lia.
    eexists. split; [reflexivity|]. cbn [data filled addr set_data]. split; [by rewrite take_0; cbn [app]; rewrite take_app_length|].
    split; [done|]. split; [done|]. split; [|done].
    rewrite take_0, ?Hd, ?Ed. cbn [app]. rewrite !length_app, length_drop, !length_app. lia.
  - assert (payload = []) as -> by (destruct payload; [done|simpl in *; lia]).
    cbn [mbind res_bind]. unfold set_filled. cbn [bsize set_addr].
    destruct (Z.ltb_spec (bsize b) (Z.of_nat (@length Z []))); [lia|]. eexists. split; [reflexivity|].
    repeat split; [reflexivity..|by cbn; rewrite Hd].
Qed.
End Datagram.

(** ** Properties *)

(** C25: The buffer pools conserve their buffers: in every state reachable
    from the constructor, by any interleaving of takes, receptions, uses and
    returns, each TCP id and each UDP id is in exactly one place - a free
    list, the kernel, or a holder - and no operation of the pools can fault,
    except a take from an empty free list. *)
Theorem buffers_conserved n size bm t u :
  2 * Z.of_nat n <= 2 ^ 16 ->
  rtc pools_step (mkPools (bm_make (Z.of_nat n) size) [] []) (mkPools bm t u) ->
  (free_buffer_queue bm ++ tcp_ring bm ++ (index <$> t) ≡ₚ ids 0 (length (buffer_vector bm)) /\
   free_udp_buffer_queue bm ++ udp_ring bm ++ (index <$> u) ≡ₚ
     ids (count bm) (length (udp_buffer_vector bm))) /\
  (free_buffer_queue bm <> [] -> is_ok (get_buffer bm)) /\
  (free_udp_buffer_queue bm <> [] -> is_ok (get_udp_buffer bm)) /\
  (forall i ring, tcp_ring bm ≡ₚ i :: ring ->
     is_ok (get_buffer_by_index i (set_tcp (buffer_vector bm) (free_buffer_queue bm) ring bm))) /\
  (forall i ring, udp_ring bm ≡ₚ i :: ring ->
     is_ok (get_udp_buffer_by_index i (set_udp (udp_buffer_vector bm) (free_udp_buffer_queue bm) ring bm))) /\
  (forall b, b ∈ t -> is_ok (free_buffer (Some b) bm)) /\
  (forall b, b ∈ u -> is_ok (free_udp_buffer (Some b) bm)).
Proof.
  intros Hn Hs. pose proof (pools_steps_inv _ _ Hs (proj1 (bm_make_inv n size Hn))) as H.
  split; [split; apply (pi_part _ _ _ _ _ (bi_tcp _ H)) || apply (pi_part _ _ _ _ _ (bi_udp _ H))|].
  repeat split.
  - destruct (free_buffer_queue bm) eqn:Hq; [done|]. destruct (get_buffer_ok _ _ _ _ _ H Hq) as (? & ? & -> & _). by eexists.
  - destruct (free_udp_buffer_queue bm) eqn:Hq; [done|]. destruct (get_udp_buffer_ok _ _ _ _ _ H Hq) as (? & ? & -> & _). by eexists.
  - intros i ring Hr. destruct (recv_ok _ _ _ _ _ H Hr) as (? & ? & -> & _). by eexists.
  - intros i ring Hr. destruct (recv_udp_ok _ _ _ _ _ H Hr) as (? & ? & -> & _). by eexists.
  - intros b [t' Ht]%elem_of_Permutation. destruct (free_buffer_ok _ _ _ _ _ H Ht) as (? & -> & _). by eexists.
  - intros b [u' Hu]%elem_of_Permutation. destruct (free_udp_buffer_ok _ _ _ _ _ H Hu) as (? & -> & _). by eexists.
Qed.

(** Sixteen buffers: one is taken, one received, the first returned. *)
Definition ex_bm : BufferManager := Eval vm_compute in bm_make 16 8.
Definition ex_bm_got : Buffer * BufferManager := Eval vm_compute in
  match get_buffer ex_bm with Ok r => r | Err _ => (buffer_make 8 0, ex_bm) end.

Lemma buffers_conserved_witness :
  is_ok (free_buffer (Some ex_bm_got.1) ex_bm_got.2) /\
  free_buffer_queue ex_bm_got.2 ++ tcp_ring ex_bm_got.2 ++ (index <$> [ex_bm_got.1]) ≡ₚ ids 0 16.
Proof.
  assert (rtc pools_step (mkPools (bm_make (Z.of_nat 16) 8) [] []) (mkPools ex_bm_got.2 [ex_bm_got.1] [])) as Hs.
  { apply rtc_once. apply (ps_get (bm_make 16 8) [] [] ex_bm_got.1 ex_bm_got.2). by vm_compute. }
  destruct (buffers_conserved 16 8 _ _ _ ltac:(by vm_compute) Hs) as ((H & _) & _ & _ & _ & _ & Hf & _).
  split; [apply Hf; set_solver|exact H].
Defined.

(** A received datagram is unpacked where the kernel laid it out: the
    payload moves to the front of the buffer, [filled] is its length and
    [addr] its sender's address; the buffer keeps its identity. *)
Theorem recv_unpacks a hdr pad ctl payload rest b :
  length hdr = 8%nat -> length pad = 10%nat ->
  0 <= sin_addr a < 2 ^ 32 -> 0 <= sin_port a < 2 ^ 16 ->
  Z.of_nat (length ctl) < 2 ^ 31 -> Z.of_nat (length payload) < 2 ^ 31 ->
  data b = recvmsg_layout a hdr pad ctl payload rest -> Z.of_nat (length payload) <= bsize b ->
  exists b', handle_multishot_recv b (32 + Z.of_nat (length ctl) + Z.of_nat (length payload)) = Ok b' /\
    take (length payload) (data b') = payload /\ filled b' = Z.of_nat (length payload) /\
    addr b' = a /\ length (data b') = length (data b) /\ same_buffer b b'.
Proof. intros. by apply (handle_multishot_recv_ok a hdr pad ctl payload rest). Qed.

Lemma recv_unpacks_witness :
  let b := mkBuffer (recvmsg_layout (mkAddr 2130706433 9090) (replicate 8 0) (replicate 10 0) [1] [7; 8; 9] [0; 0])
             false true 0 37 0 3 zero_msg zero_addr in
  exists b', handle_multishot_recv b 36 = Ok b' /\ take 3 (data b') = [7; 8; 9] /\ filled b' = 3 /\
    addr b' = mkAddr 2130706433 9090 /\ length (data b') = length (data b) /\ same_buffer b b'.
Proof.
  apply (recv_unpacks (mkAddr 2130706433 9090) (replicate 8 0) (replicate 10 0) [1] [7; 8; 9] [0; 0]);
    simpl; (done || lia).
Defined.
