(* ===== verification/PicoHttp.v ===== *)
(** * The HTTP/1 parser: [src/picohttpparser.c]

    A pointer into the text is the list of bytes from it to [buf_end]; a
    token is such a pointer and a length. The parsers return a pointer, or a
    return code ([-1] malformed, [-2] incomplete), or read outside the text.
    [findchar_fast] exists twice, for a processor with SSE 4.2 and without. *)

From Stdlib Require Import ZArith Lia Ascii.
From stdpp Require Import base strings list.
From S2P Require Import Prelude.

Open Scope Z_scope.

(** ** Parsers *)

Inductive presult (A : Type) : Type :=
  | Got (a : A) (rest : list Z)
  | Fail (ret : Z)
  | Oob.
Arguments Got {A} a rest.
Arguments Fail {A} ret.
Arguments Oob {A}.

Definition P (A : Type) : Type := list Z -> presult A.

#[export] Instance P_ret : MRet P := fun A a l => Got a l.
#[export] Instance P_bind : MBind P := fun A B f m l =>
  match m l with Got a l' => f a l' | Fail r => Fail r | Oob => Oob end.

Definition pfail {A} (r : Z) : P A := fun _ => Fail r.
Definition pos : P (list Z) := fun l => Got l l.
Definition CHECK_EOF : P unit := fun l => match l with [] => Fail (-2) | _ => Got tt l end.
(** [*buf], [*buf++] and [++buf]. *)
Definition peek : P Z := fun l => match l with [] => Oob | c :: _ => Got c l end.
Definition next : P Z := fun l => match l with [] => Oob | c :: l' => Got c l' end.
Definition advance : P unit := fun l => match l with [] => Oob | _ :: l' => Got tt l' end.
Definition EXPECT_CHAR_NO_CHECK (ch : Z) : P unit :=
  c ← next; if c =? ch then mret tt else pfail (-1).
Definition EXPECT_CHAR (ch : Z) : P unit := _ ← CHECK_EOF; EXPECT_CHAR_NO_CHECK ch.

Record Token := mkTok { tk_mem : list Z; tk_len : Z }.
(** The bytes of a token. *)
Definition tk_bytes (t : Token) : list Z := take (Z.to_nat (tk_len t)) (tk_mem t).
(** [buf - start]. *)
Definition ptr_diff (stop start : list Z) : Z := Z.of_nat (length start) - Z.of_nat (length stop).

(** ** Characters *)

Definition HT : Z := 9.
Definition LF : Z := 10.
Definition CR : Z := 13.
Definition SP : Z := 32.
Definition COLON : Z := 58.
Definition DEL : Z := 127.

(** [(unsigned char)(c)-040u < 0137u], in unsigned arithmetic. *)
Definition IS_PRINTABLE_ASCII (c : Z) : bool := u32 (c - 32) <? 95.

Definition token_char_map : string :=
  "00000000000000000000000000000000" ++
  "01011111001101101111111111000000" ++
  "01111111111111111111111111100011" ++
  "11111111111111111111111111101010" ++
  "00000000000000000000000000000000" ++
  "00000000000000000000000000000000" ++
  "00000000000000000000000000000000" ++
  "00000000000000000000000000000000".
Definition token_char (c : Z) : bool :=
  match String.get (Z.to_nat c) token_char_map with Some b => Ascii.eqb b "1" | None => false end.

(** ** Finding a character *)

Inductive simd := SSE42 | PORTABLE.

(** [_mm_cmpestri] with [_SIDD_CMP_RANGES] on unsigned bytes: the first of 16
    bytes that lies in one of the ranges, given as pairs of bounds. *)
Definition in_ranges (ranges : list (Z * Z)) (c : Z) : bool :=
  existsb (fun '(lo, hi) => (lo <=? c) && (c <=? hi)) ranges.
Fixpoint first_in (ranges : list (Z * Z)) (l : list Z) : option nat :=
  match l with
  | [] => None
  | c :: l' => if in_ranges ranges c then Some O else S <$> first_in ranges l'
  end.

(** The loop over whole blocks of 16 bytes; the fuel is the length. *)
Fixpoint find_blocks (fuel : nat) (ranges : list (Z * Z)) (l : list Z) : list Z * bool :=
  match fuel with
  | O => (l, false)
  | S fuel' =>
      if decide (16 <= length l)%nat then
        match first_in ranges (take 16 l) with
        | Some r => (drop r l, true)
        | None => find_blocks fuel' ranges (drop 16 l)
        end
      else (l, false)
  end.

Definition findchar_fast (m : simd) (ranges : list (Z * Z)) : P bool := fun l =>
  match m with
  | SSE42 => let '(l', found) := find_blocks (length l) ranges l in Got found l'
  | PORTABLE => Got false l
  end.

(** ** Lines *)

Definition is_ctl (c : Z) : bool := ((c <? 32) && negb (c =? HT)) || (c =? DEL).

(** The unrolled loop of the portable build: eight times [DOIT]; [inr] stops
    at a character that is not printable. *)
Fixpoint doit (n : nat) (l : list Z) : option (list Z + list Z) :=
  match n with
  | O => Some (inl l)
  | S n' =>
      match l with
      | [] => None
      | c :: l' => if negb (IS_PRINTABLE_ASCII c) then Some (inr l) else doit n' l'
      end
  end.
(** [inl]: fewer than eight bytes are left; [inr]: at FOUND_CTL. *)
Fixpoint eol_unrolled (fuel : nat) (l : list Z) : option (list Z + list Z) :=
  match fuel with
  | O => Some (inl l)
  | S fuel' =>
      if decide (8 <= length l)%nat then
        match doit 8 l with
        | Some (inl l') => eol_unrolled fuel' l'
        | Some (inr (c :: l')) => if is_ctl c then Some (inr (c :: l')) else eol_unrolled fuel' l'
        | _ => None
        end
      else Some (inl l)
  end.
(** The loop that follows it, to FOUND_CTL. *)
Fixpoint eol_slow (l : list Z) : presult unit :=
  match l with
  | [] => Fail (-2)
  | c :: l' => if negb (IS_PRINTABLE_ASCII c) && is_ctl c then Got tt l else eol_slow l'
  end.

Definition ranges1 : list (Z * Z) := [(0, 8); (10, 31); (127, 127)].

Definition to_ctl (m : simd) : P unit := fun l =>
  match m with
  | SSE42 =>
      match findchar_fast SSE42 ranges1 l with
      | Got true l' => Got tt l'
      | Got false l' => eol_slow l'
      | Fail r => Fail r
      | Oob => Oob
      end
  | PORTABLE =>
      match eol_unrolled (length l) l with
      | Some (inl l') => eol_slow l'
      | Some (inr l') => Got tt l'
      | None => Oob
      end
  end.

Definition get_token_to_eol (m : simd) : P Token :=
  token_start ← pos;
  _ ← to_ctl m;
  c ← peek;
  if c =? CR then
    _ ← advance; _ ← EXPECT_CHAR LF;
    buf ← pos;
    mret (mkTok token_start (ptr_diff buf token_start - 2))
  else if c =? LF then
    buf ← pos; _ ← advance;
    mret (mkTok token_start (ptr_diff buf token_start))
  else pfail (-1).

(** ** Completeness *)

Fixpoint complete_loop (ret_cnt : Z) (l : list Z) : presult unit :=
  match l with
  | [] => Fail (-2)
  | c :: l' =>
      if c =? CR then
        match l' with
        | [] => Fail (-2)
        | d :: l'' =>
            if d =? LF then if ret_cnt + 1 =? 2 then Got tt l'' else complete_loop (ret_cnt + 1) l''
            else Fail (-1)
        end
      else if c =? LF then if ret_cnt + 1 =? 2 then Got tt l' else complete_loop (ret_cnt + 1) l'
      else complete_loop 0 l'
  end.
Definition is_complete (last_len : Z) : P unit := fun l =>
  if last_len <? 3 then complete_loop 0 l
  else if last_len - 3 <=? Z.of_nat (length l) then complete_loop 0 (drop (Z.to_nat (last_len - 3)) l)
  else Oob.

(** ** Tokens and numbers *)

Definition PARSE_INT (mul : Z) : P Z :=
  c ← next; if (c <? 48) || (57 <? c) then pfail (-1) else mret (mul * (c - 48)).
Definition PARSE_INT_3 : P Z :=
  a ← PARSE_INT 100; b ← PARSE_INT 10; c ← PARSE_INT 1; mret (a + b + c).

Definition token_ranges : list (Z * Z) :=
  [(0, 32); (34, 34); (40, 41); (44, 44); (47, 47); (58, 64); (91, 93); (123, 255)].

(** From here on a loop reads a byte and then checks for the end. *)
Fixpoint token_loop (next_char : Z) (l : list Z) : presult unit :=
  match l with
  | [] => Oob
  | c :: l' =>
      if c =? next_char then Got tt l
      else if negb (token_char c) then Fail (-1)
      else match l' with [] => Fail (-2) | _ => token_loop next_char l' end
  end.

Definition parse_token (m : simd) (next_char : Z) : P Token :=
  buf_start ← pos;
  found ← findchar_fast m token_ranges;
  _ ← (if (found : bool) then mret tt else CHECK_EOF);
  _ ← token_loop next_char;
  buf ← pos;
  mret (mkTok buf_start (ptr_diff buf buf_start)).

Definition ranges2 : list (Z * Z) := [(0, 32); (127, 127)].

Fixpoint advance_loop (l : list Z) : presult unit :=
  match l with
  | [] => Oob
  | c :: l' =>
      if c =? SP then Got tt l
      else if negb (IS_PRINTABLE_ASCII c) && ((c <? 32) || (c =? DEL)) then Fail (-1)
      else match l' with [] => Fail (-2) | _ => advance_loop l' end
  end.

Definition ADVANCE_TOKEN (m : simd) : P Token :=
  tok_start ← pos;
  found2 ← findchar_fast m ranges2;
  _ ← (if (found2 : bool) then mret tt else CHECK_EOF);
  _ ← advance_loop;
  buf ← pos;
  mret (mkTok tok_start (ptr_diff buf tok_start)).

(** [do { ++buf; CHECK_EOF(); } while ( *buf == ' ');] *)
Fixpoint skip_sp (l : list Z) : presult unit :=
  match l with
  | [] => Oob
  | _ :: l' =>
      match l' with
      | [] => Fail (-2)
      | c :: _ => if c =? SP then skip_sp l' else Got tt l'
      end
  end.

Definition parse_http_version : P Z :=
  buf ← pos;
  if decide (length buf < 9)%nat then pfail (-2)
  else
    _ ← EXPECT_CHAR_NO_CHECK 72; _ ← EXPECT_CHAR_NO_CHECK 84; _ ← EXPECT_CHAR_NO_CHECK 84;
    _ ← EXPECT_CHAR_NO_CHECK 80; _ ← EXPECT_CHAR_NO_CHECK 47; _ ← EXPECT_CHAR_NO_CHECK 49;
    _ ← EXPECT_CHAR_NO_CHECK 46;
    PARSE_INT 1.

(** An end of line, if there is one. *)
Definition eol_or {A} (yes no : P A) : P A :=
  c ← peek;
  if c =? CR then _ ← advance; _ ← EXPECT_CHAR LF; yes
  else if c =? LF then _ ← advance; yes
  else no.

(** ** Headers *)

(** [name] is [NULL] on the continuation line of a folded header. *)
Record phr_header := mkHeader { ph_name : option Token; ph_value : Token }.

Definition is_blank (c : Z) : bool := (c =? SP) || (c =? HT).
Fixpoint skip_blanks (l : list Z) : presult unit :=
  match l with
  | [] => Fail (-2)
  | c :: l' => if is_blank c then skip_blanks l' else Got tt l
  end.

(** [value_len] without trailing blanks. *)
Fixpoint trim (rev_value : list Z) : list Z :=
  match rev_value with
  | c :: l => if is_blank c then trim l else rev_value
  | [] => []
  end.
Definition trim_value (t : Token) : Token :=
  mkTok (tk_mem t) (Z.of_nat (length (trim (rev (tk_bytes t))))).

Definition parse_header_name (m : simd) (first : bool) : P (option Token) :=
  c ← peek;
  if negb (negb first && is_blank c) then
    name ← parse_token m COLON;
    if tk_len name =? 0 then pfail (-1)
    else _ ← advance; _ ← skip_blanks; mret (Some name)
  else mret None.

(** [room] is [max_headers - *num_headers]. *)
Fixpoint parse_headers (m : simd) (room : nat) (first : bool) : P (list phr_header) :=
  _ ← CHECK_EOF;
  eol_or (mret [])
    (match room with
     | O => pfail (-1)
     | S room' =>
         name ← parse_header_name m first;
         value ← get_token_to_eol m;
         hs ← parse_headers m room' false;
         mret (mkHeader name (trim_value value) :: hs)
     end).

(** ** Requests *)

Record Request := mkRequest {
  rq_method : Token;
  rq_path : Token;
  rq_minor : Z;
  rq_headers : list phr_header
}.

Definition parse_request (m : simd) (max_headers : nat) : P Request :=
  _ ← CHECK_EOF;
  _ ← eol_or (mret tt) (mret tt);
  method ← parse_token m SP;
  _ ← skip_sp;
  path ← ADVANCE_TOKEN m;
  _ ← skip_sp;
  if (tk_len method =? 0) || (tk_len path =? 0) then pfail (-1)
  else
    minor ← parse_http_version;
    _ ← eol_or (mret tt) (pfail (-1));
    headers ← parse_headers m max_headers true;
    mret (mkRequest method path minor headers).

(** The return value of the entry points is the number of bytes consumed. *)
Definition consumed {A} (l : list Z) (a : A) (rest : list Z) : presult (Z * A) :=
  Got (ptr_diff rest l, a) rest.
Definition checked_complete (last_len : Z) : P unit := fun l =>
  if last_len =? 0 then Got tt l
  else match is_complete last_len l with Got _ _ => Got tt l | Fail r => Fail r | Oob => Oob end.

Definition phr_parse_request (m : simd) (max_headers : nat) (last_len : Z) : P (Z * Request) := fun l =>
  (_ ← checked_complete last_len; r ← parse_request m max_headers; consumed l r) l.

(** ** Responses *)

Record Response := mkResponse {
  rs_minor : Z;
  rs_status : Z;
  rs_msg : Token;
  rs_headers : list phr_header
}.

(** Drop the blanks between the status and the message. *)
Fixpoint strip_sp (mem : list Z) (len : Z) : option Token :=
  match mem with
  | [] => None
  | c :: mem' => if c =? SP then strip_sp mem' (u64 (len - 1)) else Some (mkTok mem len)
  end.
Definition response_msg (t : Token) : P Token := fun l =>
  if tk_len t =? 0 then Got t l
  else match tk_mem t with
  | [] => Oob
  | c :: _ =>
      if c =? SP then match strip_sp (tk_mem t) (tk_len t) with Some t' => Got t' l | None => Oob end
      else Fail (-1)
  end.

Definition parse_response (m : simd) (max_headers : nat) : P Response :=
  minor ← parse_http_version;
  c ← peek;
  if negb (c =? SP) then pfail (-1)
  else
    _ ← skip_sp;
    buf ← pos;
    if decide (length buf < 4)%nat then pfail (-2)
    else
      status ← PARSE_INT_3;
      line ← get_token_to_eol m;
      msg ← response_msg line;
      headers ← parse_headers m max_headers true;
      mret (mkResponse minor status msg headers).

Definition phr_parse_response (m : simd) (max_headers : nat) (last_len : Z) : P (Z * Response) := fun l =>
  (_ ← checked_complete last_len; r ← parse_response m max_headers; consumed l r) l.

Definition phr_parse_headers (m : simd) (max_headers : nat) (last_len : Z) : P (Z * list phr_header) := fun l =>
  (_ ← checked_complete last_len; r ← parse_headers m max_headers true; consumed l r) l.
