(* ===== verification/PicoHttpProps.v ===== *)
(** * The HTTP/1 parser: theorems

    The parser never reads outside its text and what it returns lies inside;
    the accelerated builds compute what the character loops compute. *)

From Stdlib Require Import ZArith Lia Ascii.
From stdpp Require Import base strings list.
From S2P Require Import Prelude PicoHttp.

Open Scope Z_scope.

#[local] Hint Extern 0 (_ `suffix_of` _) => reflexivity : core.

(** ** Postconditions of parsers

    [parses Q p l]: from [l], [p] fails with one of the two codes, or moves
    to a suffix of [l] with a result in [Q]; it never reads outside. *)
Definition parses {A} (Q : A -> list Z -> Prop) (p : P A) (l : list Z) : Prop :=
  match p l with
  | Got a l' => l' `suffix_of` l /\ Q a l'
  | Fail r => r = -1 \/ r = -2
  | Oob => False
  end.

Lemma parses_ret {A} (Q : A -> list Z -> Prop) a l : Q a l -> parses Q (mret a) l.
Proof. intros H. split; done. Qed.

Lemma parses_bind {A B} (Q : A -> list Z -> Prop) (R : B -> list Z -> Prop) (p : P A) (f : A -> P B) l :
  parses Q p l -> (forall a l', l' `suffix_of` l -> Q a l' -> parses R (f a) l') -> parses R (p ≫= f) l.
Proof.
  unfold parses at 1. intros Hp Hf. unfold parses, mbind, P_bind. destruct (p l) as [a l'|r|]; [|done|done].
  destruct Hp as [Hs Hq]. specialize (Hf a l' Hs Hq). unfold parses in Hf.
  destruct (f a l') as [b l''|r|]; [|done|done]. destruct Hf as [Hs' Hr].
  split; [by etrans|done].
Qed.

Lemma parses_mono {A} (Q R : A -> list Z -> Prop) (p : P A) l :
  (forall a l', l' `suffix_of` l -> Q a l' -> R a l') -> parses Q p l -> parses R p l.
Proof.
  unfold parses. intros H. destruct (p l); [|done|done]. intros [? ?]. split; [done|]. by apply H.
Qed.

Lemma parses_fail {A} (Q : A -> list Z -> Prop) r l : r = -1 \/ r = -2 -> parses Q (pfail r) l.
Proof. done. Qed.

Lemma parses_pos l : parses (fun a l' => a = l /\ l' = l) pos l.
Proof. split; done. Qed.
Lemma parses_check_eof l : parses (fun _ l' => l' = l /\ l <> []) CHECK_EOF l.
Proof. unfold parses, CHECK_EOF. destruct l; [by right|]. done. Qed.
Lemma parses_peek l : l <> [] -> parses (fun c l' => l' = l /\ head l = Some c) peek l.
Proof. intros Hl. destruct l as [|c l]; [congruence|]. split; done. Qed.
Lemma parses_next l : l <> [] -> parses (fun c l' => l = c :: l') next l.
Proof.
  intros Hl. destruct l as [|c l]; [congruence|]. split; [by apply suffix_cons_r|]. done.
Qed.
Lemma parses_advance l : l <> [] -> parses (fun _ l' => exists c, l = c :: l') advance l.
Proof.
  intros Hl. destruct l as [|c l]; [congruence|]. split; [by apply suffix_cons_r|]. by eexists.
Qed.

Lemma parses_expect_no_check ch l : l <> [] -> parses (fun _ l' => l = ch :: l') (EXPECT_CHAR_NO_CHECK ch) l.
Proof.
  intros Hl. destruct l as [|c l]; [congruence|]. unfold parses, EXPECT_CHAR_NO_CHECK, mbind, P_bind, next.
  destruct (Z.eqb_spec c ch) as [->|]; [|by left]. split; [by apply suffix_cons_r|done].
Qed.
Lemma parses_expect ch l : parses (fun _ l' => l = ch :: l') (EXPECT_CHAR ch) l.
Proof.
  eapply parses_bind; [apply parses_check_eof|]. intros _ l' _ [-> Hl]. by apply parses_expect_no_check.
Qed.

(** ** Bytes and suffixes *)

Definition bytes (l : list Z) : Prop := Forall (fun c => 0 <= c <= 255) l.

Lemma bytes_suffix l l' : l' `suffix_of` l -> bytes l -> bytes l'.
Proof. intros [k ->]. by intros [_ ?]%Forall_app. Qed.

Lemma bytes_impl (P Q : Z -> Prop) l :
  (forall c, 0 <= c <= 255 -> P c -> Q c) -> bytes l -> Forall P l -> Forall Q l.
Proof. unfold bytes. rewrite !Forall_forall. naive_solver. Qed.

Lemma bytes_string s : bytes (bytes_of_string s).
Proof. apply Forall_forall. intros c H%bytes_of_string_range. lia. Qed.

Lemma suffix_length_le (l l' : list Z) : l' `suffix_of` l -> (length l' <= length l)%nat.
Proof. intros [k ->]. rewrite length_app. lia. Qed.

(** A token inside [l]. *)
Definition inside (l : list Z) (t : Token) : Prop :=
  tk_mem t `suffix_of` l /\ 0 <= tk_len t <= Z.of_nat (length (tk_mem t)).

Lemma inside_suffix l l' t : l' `suffix_of` l -> inside l' t -> inside l t.
Proof. intros Hs [H1 H2]. split; [by etrans|done]. Qed.

(** The token from [l] to [l']: the bytes in between. *)
Lemma token_between pre l : tk_bytes (mkTok (pre ++ l) (ptr_diff l (pre ++ l))) = pre.
Proof.
  unfold tk_bytes, ptr_diff. cbn [tk_mem tk_len]. rewrite length_app.
  replace (Z.to_nat _) with (length pre) by lia. apply take_app_length.
Qed.

(** ** The fast search *)

Lemma first_in_spec ranges l :
  match first_in ranges l with
  | Some r => (r < length l)%nat /\ Forall (fun c => in_ranges ranges c = false) (take r l) /\
      exists c, l !! r = Some c /\ in_ranges ranges c = true
  | None => Forall (fun c => in_ranges ranges c = false) l
  end.
Proof.
  induction l as [|c l IH]; [constructor|]. cbn [first_in]. destruct (in_ranges ranges c) eqn:E.
  - split; [simpl; lia|]. split; [constructor|by exists c].
  - destruct (first_in ranges l) as [r|]; cbn.
    + destruct IH as (H1 & H2 & H3). split; [lia|]. split; [by constructor|done].
    + by constructor.
Qed.

Lemma find_blocks_spec fuel ranges l l' found : find_blocks fuel ranges l = (l', found) ->
  exists pre, l = pre ++ l' /\ Forall (fun c => in_ranges ranges c = false) pre /\
    (found = true -> exists c t, l' = c :: t /\ in_ranges ranges c = true).
Proof.
  revert l. induction fuel as [|fuel IH]; intros l H; cbn [find_blocks] in H.
  { injection H as <- <-. by exists []. }
  case_decide as Hl; [|injection H as <- <-; by exists []].
  pose proof (first_in_spec ranges (take 16 l)) as Hf. destruct (first_in ranges (take 16 l)) as [r|].
  - injection H as <- <-. destruct Hf as (Hr & Hpre & c & Hc & Hin). rewrite length_take in Hr.
    exists (take r l). split; [by rewrite take_drop|]. split.
    + rewrite take_take in Hpre. by replace (r `min` 16)%nat with r in Hpre by lia.
    + intros _. rewrite lookup_take_lt in Hc by lia. exists c, (drop (S r) l).
      split; [by apply drop_S|done].
  - destruct (IH _ H) as (pre & Hd & Hpre & Hfound). exists (take 16 l ++ pre).
    split; [by rewrite <- app_assoc, <- Hd, take_drop|]. split; [by apply Forall_app|done].
Qed.

(** ** Lines *)

Lemma printable_spec c : 0 <= c <= 255 -> IS_PRINTABLE_ASCII c = (32 <=? c) && (c <? 127).
Proof.
  intros Hc. unfold IS_PRINTABLE_ASCII. destruct (Z.leb_spec 32 c).
  - rewrite wrap_small by lia. destruct (Z.ltb_spec (c - 32) 95), (Z.ltb_spec c 127); lia.
  - unfold wrap. rewrite <- (Z_mod_plus_full (c - 32) 1), Z.mod_small by lia. lia.
Qed.

Lemma ctl_not_printable c : 0 <= c <= 255 -> is_ctl c = true -> IS_PRINTABLE_ASCII c = false.
Proof. intros Hc. rewrite printable_spec by done. unfold is_ctl, HT, DEL. lia. Qed.

Lemma eol_slow_skip pre l : Forall (fun c => is_ctl c = false) pre -> eol_slow (pre ++ l) = eol_slow l.
Proof.
  induction 1 as [|c pre Hc _ IH]; [done|]. cbn [app eol_slow]. by rewrite Hc, andb_false_r.
Qed.

Lemma eol_slow_ctl c l : 0 <= c <= 255 -> is_ctl c = true -> eol_slow (c :: l) = Got tt (c :: l).
Proof. intros Hc H. cbn [eol_slow]. by rewrite H, (ctl_not_printable c Hc H). Qed.

Lemma ranges1_spec c : 0 <= c <= 255 -> in_ranges ranges1 c = is_ctl c.
Proof. intros Hc. unfold in_ranges, ranges1, is_ctl, HT, DEL. cbn [existsb]. lia. Qed.

Lemma doit_spec n l : (n <= length l)%nat -> bytes l ->
  exists pre l', l = pre ++ l' /\ Forall (fun c => is_ctl c = false) pre /\
    (doit n l = Some (inl l') \/ exists c t, l' = c :: t /\ doit n l = Some (inr l')).
Proof.
  revert l. induction n as [|n IH]; intros l Hn Hb; cbn [doit].
  { exists [], l. split; [done|]. split; [constructor|by left]. }
  destruct l as [|c l]; [simpl in Hn; lia|]. apply Forall_cons in Hb as [Hc Hb].
  destruct (negb (IS_PRINTABLE_ASCII c)) eqn:E.
  { exists [], (c :: l). split; [done|]. split; [constructor|]. right. by exists c, l. }
  destruct (IH l) as (pre & l' & -> & Hp & Hd); [simpl in Hn; lia|done|].
  exists (c :: pre), l'. split; [done|]. split; [|done]. constructor; [|done].
  apply negb_false_iff in E. destruct (is_ctl c) eqn:Ec; [|done].
  by rewrite (ctl_not_printable c Hc Ec) in E.
Qed.

Lemma eol_unrolled_spec fuel l : bytes l ->
  match eol_unrolled fuel l with
  | Some (inl l') => exists pre, l = pre ++ l' /\ Forall (fun c => is_ctl c = false) pre
  | Some (inr l') => exists pre c t, l = pre ++ l' /\ Forall (fun c => is_ctl c = false) pre /\
      l' = c :: t /\ is_ctl c = true
  | None => False
  end.
Proof.
  revert l. induction fuel as [|fuel IH]; intros l Hb; cbn [eol_unrolled]; [by exists []|].
  case_decide as Hl; [|by exists []].
  destruct (doit_spec 8 l Hl Hb) as (pre & l' & -> & Hp & Hd).
  pose proof (bytes_suffix _ _ (suffix_app_r l' l' pre (reflexivity _)) Hb) as Hb'.
  destruct Hd as [->|(c & t & -> & ->)].
  - specialize (IH l' Hb'). destruct (eol_unrolled fuel l') as [[l''|l'']|]; [| |done].
    + destruct IH as (pre' & -> & Hp'). exists (pre ++ pre'). rewrite app_assoc.
      split; [done|]. by apply Forall_app.
    + destruct IH as (pre' & c & t & -> & Hp' & Ht). exists (pre ++ pre'), c, t. rewrite app_assoc.
      split; [done|]. split; [by apply Forall_app|done].
  - destruct (is_ctl c) eqn:Ec.
    + exists pre, c, t. done.
    + apply Forall_cons in Hb' as [_ Hb']. specialize (IH t Hb').
      destruct (eol_unrolled fuel t) as [[l''|l'']|]; [| |done].
      * destruct IH as (pre' & -> & Hp'). exists (pre ++ c :: pre'). rewrite <- app_assoc.
        split; [done|]. apply Forall_app. split; [done|by constructor].
      * destruct IH as (pre' & c' & t' & -> & Hp' & Ht). exists (pre ++ c :: pre'), c', t'.
        rewrite <- app_assoc. split; [done|]. split; [|done].
        apply Forall_app. split; [done|by constructor].
Qed.

(** Both builds find the end of a line where the plain loop does. *)
Lemma to_ctl_slow m l : bytes l -> to_ctl m l = eol_slow l.
Proof.
  intros Hb. destruct m; unfold to_ctl.
  - unfold findchar_fast. destruct (find_blocks (length l) ranges1 l) as [l' found] eqn:E.
    apply find_blocks_spec in E as (pre & -> & Hp & Hf).
    assert (Forall (fun c => is_ctl c = false) pre) as Hp'.
    { apply Forall_app in Hb as [Hb _]. revert Hb Hp. apply bytes_impl.
      intros c Hc H. by rewrite ranges1_spec in H. }
    rewrite eol_slow_skip by done. destruct found; [|done].
    destruct (Hf eq_refl) as (c & t & -> & Hc). apply Forall_app in Hb as [_ Hb].
    apply Forall_cons in Hb as [Hr _]. rewrite ranges1_spec in Hc by done. by rewrite eol_slow_ctl.
  - pose proof (eol_unrolled_spec (length l) l Hb) as H.
    destruct (eol_unrolled (length l) l) as [[l'|l']|]; [| |done].
    + destruct H as (pre & -> & Hp). by rewrite eol_slow_skip.
    + destruct H as (pre & c & t & -> & Hp & -> & Hc). rewrite eol_slow_skip by done.
      apply Forall_app in Hb as [_ Hb]. apply Forall_cons in Hb as [Hr _]. by rewrite eol_slow_ctl.
Qed.

(** ** The builds agree

    [agrees p q]: on any bytes [p] and [q] give the same result, and leave
    bytes. *)
Definition agrees {A} (p q : P A) : Prop :=
  forall l, bytes l -> p l = q l /\ match q l with Got _ l' => bytes l' | _ => True end.

Lemma agrees_bind {A B} (p q : P A) (f g : A -> P B) :
  agrees p q -> (forall a, agrees (f a) (g a)) -> agrees (p ≫= f) (q ≫= g).
Proof.
  intros Hp Hf l Hb. destruct (Hp l Hb) as [E Hq]. unfold mbind, P_bind. rewrite E.
  destruct (q l) as [a l'|r|]; [|done|done]. by apply Hf.
Qed.

Lemma agrees_refl {A} (p : P A) :
  (forall l, match p l with Got _ l' => l' `suffix_of` l | _ => True end) -> agrees p p.
Proof.
  intros H l Hb. split; [done|]. specialize (H l). destruct (p l); [|done|done]. by eapply bytes_suffix.
Qed.

Lemma agrees_ret {A} (a : A) : agrees (mret a) (mret a).
Proof. apply agrees_refl. intros l. change (l `suffix_of` l). done. Qed.
Lemma agrees_fail {A} r : agrees (pfail (A := A) r) (pfail r).
Proof. by apply agrees_refl. Qed.
Lemma agrees_pos : agrees pos pos.
Proof. apply agrees_refl. intros l. change (l `suffix_of` l). done. Qed.
Lemma agrees_check_eof : agrees CHECK_EOF CHECK_EOF.
Proof. apply agrees_refl. intros [|c l]; [done|]. apply (reflexivity (c :: l)). Qed.
Lemma agrees_peek : agrees peek peek.
Proof. apply agrees_refl. intros [|c l]; [done|]. apply (reflexivity (c :: l)). Qed.
Lemma agrees_next : agrees next next.
Proof. apply agrees_refl. intros [|c l]; [done|by apply suffix_cons_r]. Qed.
Lemma agrees_advance : agrees advance advance.
Proof. apply agrees_refl. intros [|c l]; [done|by apply suffix_cons_r]. Qed.

Lemma agrees_if {A} (b : bool) (p q p' q' : P A) :
  agrees p q -> agrees p' q' -> agrees (if b then p else p') (if b then q else q').
Proof. by destruct b. Qed.

Create HintDb agree.
#[export] Hint Resolve agrees_bind agrees_ret agrees_fail agrees_pos agrees_check_eof agrees_peek
  agrees_next agrees_advance agrees_if : agree.

Lemma agrees_expect_no_check ch : agrees (EXPECT_CHAR_NO_CHECK ch) (EXPECT_CHAR_NO_CHECK ch).
Proof. unfold EXPECT_CHAR_NO_CHECK. auto with agree. Qed.
#[export] Hint Resolve agrees_expect_no_check : agree.
Lemma agrees_expect ch : agrees (EXPECT_CHAR ch) (EXPECT_CHAR ch).
Proof. unfold EXPECT_CHAR. auto with agree. Qed.
#[export] Hint Resolve agrees_expect : agree.
Lemma agrees_eol_or {A} (p q p' q' : P A) :
  agrees p q -> agrees p' q' -> agrees (eol_or p p') (eol_or q q').
Proof. unfold eol_or. auto 10 with agree. Qed.
#[export] Hint Resolve agrees_eol_or : agree.

(** The loops that walk over the text. *)
Lemma skip_sp_suffix l : match skip_sp l with Got _ l' => l' `suffix_of` l | _ => True end.
Proof.
  induction l as [|c [|d l] IH]; [done|done|].
  change (skip_sp (c :: d :: l)) with (if d =? SP then skip_sp (d :: l) else Got tt (d :: l)).
  destruct (d =? SP).
  - destruct (skip_sp (d :: l)); [|done|done]. by apply suffix_cons_r.
  - by apply suffix_cons_r.
Qed.
Lemma skip_blanks_suffix l : match skip_blanks l with Got _ l' => l' `suffix_of` l | _ => True end.
Proof.
  induction l as [|c l IH]; [done|]. cbn [skip_blanks]. destruct (is_blank c); [|done].
  destruct (skip_blanks l); [|done|done]. by apply suffix_cons_r.
Qed.
Lemma eol_slow_suffix l : match eol_slow l with Got _ l' => l' `suffix_of` l | _ => True end.
Proof.
  induction l as [|c l IH]; [done|]. cbn [eol_slow]. destruct (_ && _); [done|].
  destruct (eol_slow l); [|done|done]. by apply suffix_cons_r.
Qed.
Lemma token_loop_suffix next_char l : match token_loop next_char l with Got _ l' => l' `suffix_of` l | _ => True end.
Proof.
  induction l as [|c l IH]; [done|]. cbn [token_loop]. destruct (c =? next_char); [done|].
  destruct (negb _); [done|]. destruct l as [|d l]; [done|].
  destruct (token_loop next_char (d :: l)); [|done|done]. by apply suffix_cons_r.
Qed.
Lemma advance_loop_suffix l : match advance_loop l with Got _ l' => l' `suffix_of` l | _ => True end.
Proof.
  induction l as [|c l IH]; [done|]. cbn [advance_loop]. destruct (c =? SP); [done|].
  destruct (_ && _); [done|]. destruct l as [|d l]; [done|].
  destruct (advance_loop (d :: l)); [|done|done]. by apply suffix_cons_r.
Qed.

Lemma agrees_skip_sp : agrees skip_sp skip_sp.
Proof. apply agrees_refl, skip_sp_suffix. Qed.
Lemma agrees_skip_blanks : agrees skip_blanks skip_blanks.
Proof. apply agrees_refl, skip_blanks_suffix. Qed.
#[export] Hint Resolve agrees_skip_sp agrees_skip_blanks : agree.

Lemma agrees_to_ctl m m' : agrees (to_ctl m) (to_ctl m').
Proof.
  intros l Hb. rewrite !to_ctl_slow by done. split; [done|]. pose proof (eol_slow_suffix l) as H.
  destruct (eol_slow l); [|done|done]. by eapply bytes_suffix.
Qed.
#[export] Hint Resolve agrees_to_ctl : agree.
Lemma agrees_get_token_to_eol m m' : agrees (get_token_to_eol m) (get_token_to_eol m').
Proof. unfold get_token_to_eol. auto 10 with agree. Qed.
#[export] Hint Resolve agrees_get_token_to_eol : agree.

(** The characters the accelerated search passes over end no token. *)
Definition all_bytes (f : Z -> bool) : bool := all_from 8 f 0.
Lemma all_bytes_spec f c : all_bytes f = true -> 0 <= c <= 255 -> f c = true.
Proof. intros H Hc. apply (all_from_spec 8 f 0 c H). change (2 ^ Z.of_nat 8) with 256. lia. Qed.

Lemma token_ranges_spec c : 0 <= c <= 255 -> in_ranges token_ranges c = false ->
  token_char c = true /\ c <> SP /\ c <> COLON.
Proof.
  intros Hc H.
  assert (in_ranges token_ranges c || (token_char c && negb (c =? SP) && negb (c =? COLON)) = true) as E.
  { revert Hc. apply (all_bytes_spec (fun c => in_ranges token_ranges c ||
      (token_char c && negb (c =? SP) && negb (c =? COLON)))). vm_compute. reflexivity. }
  rewrite H in E. apply andb_prop in E as [E E2]. apply andb_prop in E as [E E1].
  split; [done|]. apply negb_true_iff, Z.eqb_neq in E1, E2. done.
Qed.

Lemma ranges2_spec c : 0 <= c <= 255 -> in_ranges ranges2 c = false ->
  c <> SP /\ negb (IS_PRINTABLE_ASCII c) && ((c <? 32) || (c =? DEL)) = false.
Proof.
  intros Hc. rewrite printable_spec by done. unfold in_ranges, ranges2, SP, DEL. cbn [existsb].
  destruct (Z.leb_spec 0 c), (Z.leb_spec c 32), (Z.leb_spec 127 c), (Z.leb_spec c 127); cbn; try done; lia.
Qed.

Lemma token_loop_skip next_char pre l : next_char = SP \/ next_char = COLON -> l <> [] ->
  Forall (fun c => 0 <= c <= 255 /\ in_ranges token_ranges c = false) pre ->
  token_loop next_char (pre ++ l) = token_loop next_char l.
Proof.
  intros Hn Hl. induction 1 as [|c pre [Hc H] _ IH]; [done|]. cbn [app token_loop].
  destruct (token_ranges_spec c Hc H) as (-> & H1 & H2).
  replace (c =? next_char) with false by (symmetry; apply Z.eqb_neq; destruct Hn; congruence).
  cbn [negb]. rewrite IH. destruct (pre ++ l) eqn:E; [|done]. apply app_eq_nil in E as [_ ->]. done.
Qed.

Lemma advance_loop_skip pre l : l <> [] ->
  Forall (fun c => 0 <= c <= 255 /\ in_ranges ranges2 c = false) pre ->
  advance_loop (pre ++ l) = advance_loop l.
Proof.
  intros Hl. induction 1 as [|c pre [Hc H] _ IH]; [done|]. cbn [app advance_loop].
  destruct (ranges2_spec c Hc H) as [H1 ->]. rewrite (proj2 (Z.eqb_neq _ _) H1).
  rewrite IH. destruct (pre ++ l) eqn:E; [|done]. apply app_eq_nil in E as [_ ->]. done.
Qed.

(** At the end of the text every character of a prefix was passed over. *)
Lemma token_loop_end next_char pre : next_char = SP \/ next_char = COLON -> pre <> [] ->
  Forall (fun c => 0 <= c <= 255 /\ in_ranges token_ranges c = false) pre ->
  token_loop next_char pre = Fail (-2).
Proof.
  intros Hn Hp. induction 1 as [|c pre [Hc H] Hf IH]; [done|]. cbn [token_loop].
  destruct (token_ranges_spec c Hc H) as (-> & H1 & H2).
  replace (c =? next_char) with false by (symmetry; apply Z.eqb_neq; destruct Hn; congruence).
  cbn [negb]. destruct pre; [done|]. by apply IH.
Qed.

Lemma advance_loop_end pre : pre <> [] ->
  Forall (fun c => 0 <= c <= 255 /\ in_ranges ranges2 c = false) pre -> advance_loop pre = Fail (-2).
Proof.
  intros Hp. induction 1 as [|c pre [Hc H] Hf IH]; [done|]. cbn [advance_loop].
  destruct (ranges2_spec c Hc H) as [H1 ->]. rewrite (proj2 (Z.eqb_neq _ _) H1).
  destruct pre; [done|]. by apply IH.
Qed.

Lemma app_cons_ne (pre : list Z) c l : pre ++ c :: l <> [].
Proof. intros H. by apply app_eq_nil in H as [_ H]. Qed.

(** Searching first, then looping, is looping from the start. *)
Lemma find_then_loop m ranges (loop : P unit) l : bytes l ->
  (forall pre l', l' <> [] -> Forall (fun c => 0 <= c <= 255 /\ in_ranges ranges c = false) pre ->
    loop (pre ++ l') = loop l') ->
  (forall pre, pre <> [] -> Forall (fun c => 0 <= c <= 255 /\ in_ranges ranges c = false) pre ->
    loop pre = Fail (-2)) ->
  (found ← findchar_fast m ranges; _ ← (if (found : bool) then mret tt else CHECK_EOF); loop) l
  = (_ ← CHECK_EOF; loop) l.
Proof.
  intros Hb Hskip Hend. destruct m; [|done]. unfold mbind, P_bind, findchar_fast.
  destruct (find_blocks (length l) ranges l) as [l' found] eqn:E.
  apply find_blocks_spec in E as (pre & -> & Hp & Hf).
  assert (Forall (fun c => 0 <= c <= 255 /\ in_ranges ranges c = false) pre) as Hp'.
  { apply Forall_app in Hb as [Hb _]. revert Hb Hp. by apply bytes_impl. }
  assert (forall t, t <> [] -> match CHECK_EOF t with Got _ t' => loop t' | Fail r => Fail r | Oob => Oob end = loop t)
    as Heof by (by intros [|]).
  destruct found.
  - destruct (Hf eq_refl) as (c & t & -> & _). rewrite (Heof (pre ++ c :: t)) by apply app_cons_ne.
    change (loop (c :: t) = loop (pre ++ c :: t)). by rewrite Hskip.
  - destruct l' as [|c l'].
    + rewrite app_nil_r. destruct pre as [|c pre]; [reflexivity|]. by rewrite (Heof (c :: pre)), Hend.
    + rewrite (Heof (pre ++ c :: l')) by apply app_cons_ne. by rewrite (Heof (c :: l')), Hskip.
Qed.

Lemma agrees_then_suffix {A} (p q r : P A) :
  (forall l, bytes l -> p l = r l) -> (forall l, bytes l -> q l = r l) -> agrees r r -> agrees p q.
Proof. intros Hp Hq Hr l Hb. rewrite (Hp l Hb), (Hq l Hb). by apply Hr. Qed.

(** What [parse_token] and [ADVANCE_TOKEN] are without the search. *)
Definition token_plain (next_char : Z) : P Token :=
  buf_start ← pos; _ ← CHECK_EOF; _ ← token_loop next_char;
  buf ← pos; mret (mkTok buf_start (ptr_diff buf buf_start)).
Definition advance_plain : P Token :=
  buf_start ← pos; _ ← CHECK_EOF; _ ← advance_loop;
  buf ← pos; mret (mkTok buf_start (ptr_diff buf buf_start)).

Lemma P_bind_assoc {A B C} (p : P A) (f : A -> P B) (g : B -> P C) l :
  (p ≫= fun a => f a ≫= g) l = ((p ≫= f) ≫= g) l.
Proof. unfold mbind, P_bind. by destruct (p l). Qed.

Lemma P_bind_ext_l {A B} (p q : P A) (f : A -> P B) l : p l = q l -> (p ≫= f) l = (q ≫= f) l.
Proof. unfold mbind, P_bind. by intros ->. Qed.

Lemma P_bind_ext {A B} (p : P A) (f g : A -> P B) l : (forall a l', f a l' = g a l') -> (p ≫= f) l = (p ≫= g) l.
Proof. unfold mbind, P_bind. intros H. by destruct (p l). Qed.

(** Bring a search and its loop together. *)
Lemma search_plain {A} m ranges (loop : P unit) (k : list Z -> P A) l :
  (found ← findchar_fast m ranges; _ ← (if (found : bool) then mret tt else CHECK_EOF); loop) l
    = (_ ← CHECK_EOF; loop) l ->
  (start ← pos; found ← findchar_fast m ranges; _ ← (if (found : bool) then mret tt else CHECK_EOF); _ ← loop; k start) l
  = (start ← pos; _ ← CHECK_EOF; _ ← loop; k start) l.
Proof.
  intros H. unfold mbind at 1 5. unfold P_bind at 1 5. cbn [pos].
  rewrite (P_bind_assoc CHECK_EOF), <- (P_bind_ext_l _ _ _ _ H), <- P_bind_assoc.
  apply P_bind_ext. intros found l'. by rewrite <- P_bind_assoc.
Qed.

Lemma parse_token_plain m next_char l : next_char = SP \/ next_char = COLON -> bytes l ->
  parse_token m next_char l = token_plain next_char l.
Proof.
  intros Hn Hb. apply search_plain, find_then_loop; [done| |].
  - intros pre l' Hl Hp. by apply token_loop_skip.
  - intros pre Hl Hp. by apply token_loop_end.
Qed.

Lemma ADVANCE_TOKEN_plain m l : bytes l -> ADVANCE_TOKEN m l = advance_plain l.
Proof.
  intros Hb. apply search_plain, find_then_loop; [done| |].
  - intros pre l' Hl Hp. by apply advance_loop_skip.
  - intros pre Hl Hp. by apply advance_loop_end.
Qed.

Lemma agrees_token_plain next_char : agrees (token_plain next_char) (token_plain next_char).
Proof.
  unfold token_plain. assert (agrees (token_loop next_char) (token_loop next_char)) by
    (apply agrees_refl, token_loop_suffix). auto 10 with agree.
Qed.
Lemma agrees_advance_plain : agrees advance_plain advance_plain.
Proof.
  unfold advance_plain. assert (agrees advance_loop advance_loop) by
    (apply agrees_refl, advance_loop_suffix). auto 10 with agree.
Qed.

Lemma agrees_parse_token m m' next_char : next_char = SP \/ next_char = COLON ->
  agrees (parse_token m next_char) (parse_token m' next_char).
Proof.
  intros Hn. apply (agrees_then_suffix _ _ (token_plain next_char)); [| |apply agrees_token_plain];
    intros l Hb; by apply parse_token_plain.
Qed.
Lemma agrees_ADVANCE_TOKEN m m' : agrees (ADVANCE_TOKEN m) (ADVANCE_TOKEN m').
Proof.
  apply (agrees_then_suffix _ _ advance_plain); [| |apply agrees_advance_plain];
    intros l Hb; by apply ADVANCE_TOKEN_plain.
Qed.
#[export] Hint Resolve agrees_parse_token agrees_ADVANCE_TOKEN : agree.
#[export] Hint Extern 0 (_ \/ _) => (by left) || (by right) : agree.

Lemma agrees_PARSE_INT mul : agrees (PARSE_INT mul) (PARSE_INT mul).
Proof. unfold PARSE_INT. auto with agree. Qed.
#[export] Hint Resolve agrees_PARSE_INT : agree.
Lemma agrees_version : agrees parse_http_version parse_http_version.
Proof.
  unfold parse_http_version. apply agrees_bind; [auto with agree|]. intros l.
  destruct (decide _); auto 20 with agree.
Qed.
Lemma agrees_header_name m m' first : agrees (parse_header_name m first) (parse_header_name m' first).
Proof. unfold parse_header_name. auto 20 with agree. Qed.
#[export] Hint Resolve agrees_version agrees_header_name : agree.
Lemma agrees_headers m m' room first : agrees (parse_headers m room first) (parse_headers m' room first).
Proof.
  revert first. induction room as [|room IH]; intros first; cbn [parse_headers]; auto 20 with agree.
Qed.
Lemma agrees_response_msg t : agrees (response_msg t) (response_msg t).
Proof.
  apply agrees_refl. intros l. unfold response_msg. destruct (tk_len t =? 0); [done|].
  destruct (tk_mem t); [done|]. destruct (_ =? SP); [|done]. by destruct (strip_sp _ _).
Qed.
#[export] Hint Resolve agrees_headers agrees_response_msg : agree.
Lemma agrees_request m m' n : agrees (parse_request m n) (parse_request m' n).
Proof. unfold parse_request. auto 30 with agree. Qed.
Lemma agrees_response m m' n : agrees (parse_response m n) (parse_response m' n).
Proof.
  unfold parse_response, PARSE_INT_3. apply agrees_bind; [auto with agree|]. intros minor.
  apply agrees_bind; [auto with agree|]. intros c. apply agrees_if; [auto with agree|].
  apply agrees_bind; [auto with agree|]. intros _. apply agrees_bind; [auto with agree|]. intros buf.
  destruct (decide _); auto 30 with agree.
Qed.

Lemma agrees_entry {A} (p q : P A) last_len l : agrees p q -> bytes l ->
  (_ ← checked_complete last_len; r ← p; consumed l r) l = (_ ← checked_complete last_len; r ← q; consumed l r) l.
Proof.
  intros Hpq Hb. unfold mbind, P_bind, checked_complete.
  assert (match p l with Got r l' => consumed l r l' | Fail r => Fail r | Oob => Oob end =
    match q l with Got r l' => consumed l r l' | Fail r => Fail r | Oob => Oob end) as E.
  { destruct (Hpq l Hb) as [-> _]. done. }
  destruct (last_len =? 0); [done|]. by destruct (is_complete last_len l).
Qed.

(** C29: the build with the SSE 4.2 search and the build without it parse any
    request, any response and any header block alike: the same fields, the
    same number of bytes consumed, the same error. *)
Theorem pico_builds_agree m m' max_headers last_len l : bytes l ->
  phr_parse_request m max_headers last_len l = phr_parse_request m' max_headers last_len l /\
  phr_parse_response m max_headers last_len l = phr_parse_response m' max_headers last_len l /\
  phr_parse_headers m max_headers last_len l = phr_parse_headers m' max_headers last_len l.
Proof.
  intros Hb. split; [|split]; apply agrees_entry; try done.
  - apply agrees_request.
  - apply agrees_response.
  - apply agrees_headers.
Qed.

Lemma pico_builds_agree_witness : exists n r l',
  phr_parse_request SSE42 10 0 (bytes_of_string "GET /a HTTP/1.1" ++ [13; 10; 13; 10; 120]) = Got (n, r) l' /\
  phr_parse_request PORTABLE 10 0 (bytes_of_string "GET /a HTTP/1.1" ++ [13; 10; 13; 10; 120]) = Got (n, r) l' /\
  n = 19 /\ l' = [120].
Proof.
  eexists _, _, _. split; [vm_compute; reflexivity|]. split; [|split; vm_compute; reflexivity].
  rewrite (proj1 (pico_builds_agree PORTABLE SSE42 10 0 (bytes_of_string "GET /a HTTP/1.1" ++ [13; 10; 13; 10; 120])
    ltac:(apply Forall_app; split; [apply bytes_string|repeat constructor; lia]))).
  vm_compute. reflexivity.
Defined.

(** ** Safety *)

Definition nonempty (l : list Z) : Prop := l <> [].

Lemma parses_eol_or {A} (Q : A -> list Z -> Prop) (yes no : P A) l : l <> [] ->
  (forall l', l' `suffix_of` l -> parses Q yes l') -> parses Q no l -> parses Q (eol_or yes no) l.
Proof.
  intros Hl Hyes Hno. unfold eol_or. eapply parses_bind; [by apply parses_peek|].
  intros c l' _ [-> _]. destruct (c =? CR).
  - eapply parses_bind; [by apply parses_advance|]. intros _ l' Hs _.
    eapply parses_bind; [apply parses_expect|]. intros _ l'' Hs' _. apply Hyes. by etrans.
  - destruct (c =? LF); [|done]. eapply parses_bind; [by apply parses_advance|].
    intros _ l' Hs _. by apply Hyes.
Qed.

Lemma parses_skip_sp l : l <> [] -> parses (fun _ l' => l' <> []) skip_sp l.
Proof.
  unfold parses. induction l as [|c [|d l] IH]; [done|by right|]. intros _.
  change (skip_sp (c :: d :: l)) with (if d =? SP then skip_sp (d :: l) else Got tt (d :: l)).
  destruct (d =? SP); [|split; [by apply suffix_cons_r|done]].
  specialize (IH ltac:(done)). destruct (skip_sp (d :: l)); [|done|done].
  destruct IH. split; [by apply suffix_cons_r|done].
Qed.

Lemma parses_skip_blanks l : parses (fun _ l' => l' <> []) skip_blanks l.
Proof.
  unfold parses. induction l as [|c l IH]; [by right|]. cbn [skip_blanks]. destruct (is_blank c); [|done].
  destruct (skip_blanks l); [|done|done]. destruct IH. split; [by apply suffix_cons_r|done].
Qed.

(** The loops stop at a suffix whose prefix is made of the characters they
    pass over. *)
Lemma parses_token_loop next_char l : l <> [] ->
  parses (fun _ l' => exists pre t, l = pre ++ l' /\ l' = next_char :: t /\
    Forall (fun c => token_char c = true /\ c <> next_char) pre) (token_loop next_char) l.
Proof.
  unfold parses. induction l as [|c l IH]; [done|]. intros _. cbn [token_loop].
  destruct (Z.eqb_spec c next_char) as [->|Hc]; [split; [done|]; exists [], l; by repeat constructor|].
  destruct (token_char c) eqn:Ec; [|by left]. cbn [negb]. destruct l as [|d l]; [by right|].
  specialize (IH ltac:(done)). destruct (token_loop next_char (d :: l)) as [u l'|r|]; [|done|done].
  destruct IH as (Hs & pre & t & -> & Ht & Hp). split; [by exists (c :: pre)|].
  exists (c :: pre), t. split; [done|]. split; [done|by constructor].
Qed.

Lemma parses_advance_loop l : l <> [] ->
  parses (fun _ l' => exists pre t, l = pre ++ l' /\ l' = SP :: t /\
    Forall (fun c => c <> SP) pre) advance_loop l.
Proof.
  unfold parses. induction l as [|c l IH]; [done|]. intros _. cbn [advance_loop].
  destruct (Z.eqb_spec c SP) as [->|Hc]; [split; [done|]; exists [], l; by repeat constructor|].
  destruct (_ && _); [by left|]. destruct l as [|d l]; [by right|].
  specialize (IH ltac:(done)). destruct (advance_loop (d :: l)) as [u l'|r|]; [|done|done].
  destruct IH as (Hs & pre & t & -> & Ht & Hp). split; [by exists (c :: pre)|].
  exists (c :: pre), t. split; [done|]. split; [done|by constructor].
Qed.

Lemma parses_eol_slow l : parses (fun _ l' => exists pre c t, l = pre ++ l' /\ l' = c :: t /\
    is_ctl c = true) eol_slow l.
Proof.
  unfold parses. induction l as [|c l IH]; [by right|]. cbn [eol_slow].
  destruct (negb (IS_PRINTABLE_ASCII c) && is_ctl c) eqn:E.
  - apply andb_prop in E as [_ E]. split; [done|]. by exists [], c, l.
  - destruct (eol_slow l) as [u l'|r|]; [|done|done].
    destruct IH as (Hs & pre & d & t & -> & Ht). split; [by apply suffix_cons_r|].
    by exists (c :: pre), d, t.
Qed.

(** A request or header token, and what follows it. *)
Lemma parses_token m next_char l : next_char = SP \/ next_char = COLON -> bytes l ->
  parses (fun t l' => exists pre l'', l = pre ++ l' /\ l' = next_char :: l'' /\ t = mkTok l (Z.of_nat (length pre)) /\
    Forall (fun c => token_char c = true /\ c <> next_char) pre) (parse_token m next_char) l.
Proof.
  intros Hn Hb. unfold parses. rewrite parse_token_plain by done.
  change (parses (fun t l' => exists pre l'', l = pre ++ l' /\ l' = next_char :: l'' /\
    t = mkTok l (Z.of_nat (length pre)) /\
    Forall (fun c => token_char c = true /\ c <> next_char) pre) (token_plain next_char) l).
  eapply parses_bind; [apply parses_pos|]. intros ? ? _ [-> ->].
  eapply parses_bind; [apply parses_check_eof|]. intros _ ? _ [-> Hl].
  eapply parses_bind; [by apply parses_token_loop|]. intros _ ? _ (pre & t & -> & -> & Hp).
  eapply parses_bind; [apply parses_pos|]. intros ? ? _ [-> ->].
  apply parses_ret. exists pre, t. split_and!; [done|done| |done].
  f_equal. unfold ptr_diff. rewrite length_app. lia.
Qed.

Lemma parses_ADVANCE_TOKEN m l : bytes l ->
  parses (fun t l' => exists pre l'', l = pre ++ l' /\ l' = SP :: l'' /\ t = mkTok l (Z.of_nat (length pre)) /\
    Forall (fun c => c <> SP) pre) (ADVANCE_TOKEN m) l.
Proof.
  intros Hb. unfold parses. rewrite ADVANCE_TOKEN_plain by done.
  change (parses (fun t l' => exists pre l'', l = pre ++ l' /\ l' = SP :: l'' /\
    t = mkTok l (Z.of_nat (length pre)) /\ Forall (fun c => c <> SP) pre) advance_plain l).
  eapply parses_bind; [apply parses_pos|]. intros ? ? _ [-> ->].
  eapply parses_bind; [apply parses_check_eof|]. intros _ ? _ [-> Hl].
  eapply parses_bind; [by apply parses_advance_loop|]. intros _ ? _ (pre & t & -> & -> & Hp).
  eapply parses_bind; [apply parses_pos|]. intros ? ? _ [-> ->].
  apply parses_ret. exists pre, t. split_and!; [done|done| |done].
  f_equal. unfold ptr_diff. rewrite length_app. lia.
Qed.

(** A line, and the end of line after it. *)
Lemma parses_to_eol m l : bytes l ->
  parses (fun t l' => exists pre c l'', l = pre ++ c :: l'' /\ (c = CR \/ c = LF) /\
    t = mkTok l (Z.of_nat (length pre))) (get_token_to_eol m) l.
Proof.
  intros Hb. eapply parses_bind; [apply parses_pos|]. intros ? ? _ [-> ->].
  eapply parses_bind.
  { unfold parses. rewrite to_ctl_slow by done. apply parses_eol_slow. }
  intros _ ? _ (pre & c & t & -> & -> & Hc).
  eapply parses_bind; [by apply parses_peek|]. intros ? ? _ [-> [= <-]].
  destruct (Z.eqb_spec c CR) as [->|].
  - eapply parses_bind; [by apply parses_advance|]. intros _ ? _ [? [= <- <-]].
    eapply parses_bind; [apply parses_expect|]. intros _ ? _ ->.
    eapply parses_bind; [apply parses_pos|]. intros ? ? _ [-> ->].
    apply parses_ret. exists pre, CR, (LF :: l'). split_and!; [done|by left|].
    f_equal. unfold ptr_diff. rewrite length_app. cbn [length]. lia.
  - destruct (Z.eqb_spec c LF) as [->|]; [|apply parses_fail; by left].
    eapply parses_bind; [apply parses_pos|]. intros ? ? _ [-> ->].
    eapply parses_bind; [by apply parses_advance|]. intros _ ? _ _.
    apply parses_ret. exists pre, LF, t. split_and!; [done|by right|].
    f_equal. unfold ptr_diff. rewrite length_app. cbn [length]. lia.
Qed.

Lemma inside_prefix pre l : inside (pre ++ l) (mkTok (pre ++ l) (Z.of_nat (length pre))).
Proof. split; [done|]. cbn. rewrite length_app. lia. Qed.

Lemma bytes_prefix pre l : tk_bytes (mkTok (pre ++ l) (Z.of_nat (length pre))) = pre.
Proof. unfold tk_bytes. cbn [tk_mem tk_len]. rewrite Nat2Z.id. apply take_app_length. Qed.

Lemma trim_length l : (length (trim l) <= length l)%nat.
Proof. induction l as [|c l IH]; cbn [trim]; [done|]. destruct (is_blank c); cbn [length]; lia. Qed.

Lemma inside_trim l t : inside l t -> inside l (trim_value t).
Proof.
  intros [Hs Hl]. split; [done|]. cbn. pose proof (trim_length (rev (tk_bytes t))) as H.
  rewrite length_rev in H. unfold tk_bytes in *. rewrite length_take in H. lia.
Qed.

Definition name_ok (l : list Z) (name : option Token) : Prop :=
  match name with
  | Some t => inside l t /\ 0 < tk_len t /\ Forall (fun c => token_char c = true) (tk_bytes t)
  | None => True
  end.
Definition header_ok (l : list Z) (h : phr_header) : Prop :=
  name_ok l (ph_name h) /\ inside l (ph_value h).
(** The first header is not the continuation of another. *)
Definition first_named (hs : list phr_header) : Prop :=
  match hs with h :: _ => ph_name h <> None | [] => True end.

Lemma name_ok_suffix l l' name : l' `suffix_of` l -> name_ok l' name -> name_ok l name.
Proof. intros Hs. destruct name; [|done]. intros (H & ?). split; [by eapply inside_suffix|done]. Qed.
Lemma header_ok_suffix l l' h : l' `suffix_of` l -> header_ok l' h -> header_ok l h.
Proof. intros Hs [H1 H2]. split; [by eapply name_ok_suffix|by eapply inside_suffix]. Qed.

Lemma parses_header_name m first l : l <> [] -> bytes l ->
  parses (fun name _ => name_ok l name /\ (first = true -> name <> None)) (parse_header_name m first) l.
Proof.
  intros Hl Hb. eapply parses_bind; [by apply parses_peek|]. intros c ? _ [-> Hc].
  destruct (negb (negb first && is_blank c)) eqn:E.
  - eapply parses_bind; [apply parses_token; [by right|done]|].
    intros t ? _ (pre & l'' & -> & -> & -> & Hp). cbn [tk_len].
    destruct (Z.eqb_spec (Z.of_nat (length pre)) 0); [apply parses_fail; by left|].
    eapply parses_bind; [by apply parses_advance|]. intros _ l' _ _.
    eapply parses_bind; [apply parses_skip_blanks|]. intros _ ? _ _.
    apply parses_ret. split; [|done]. split; [apply inside_prefix|]. rewrite bytes_prefix.
    split; [cbn; lia|]. eapply Forall_impl; [exact Hp|]. by intros ? [? _].
  - apply parses_ret. split; [done|]. by intros ->.
Qed.

Lemma parses_headers m room first l : bytes l ->
  parses (fun hs _ => Forall (header_ok l) hs /\ (length hs <= room)%nat /\ (first = true -> first_named hs))
    (parse_headers m room first) l.
Proof.
  revert first l. induction room as [|room IH]; intros first l Hb; cbn [parse_headers];
    (eapply parses_bind; [apply parses_check_eof|]; intros _ ? _ [-> Hl]);
    (apply parses_eol_or; [done|intros; apply parses_ret; split_and!; [constructor|cbn; lia|done]|]).
  - apply parses_fail. by left.
  - eapply parses_bind; [by apply parses_header_name|]. intros name l1 Hs1 [Hn Hf].
    eapply parses_bind; [apply parses_to_eol; by eapply bytes_suffix|].
    intros t l2 Hs2 (pre & c & l'' & -> & _ & ->).
    eapply parses_bind; [apply IH; eapply bytes_suffix; [exact Hs2|by eapply bytes_suffix]|].
    intros hs l3 Hs3 (Hhs & Hlen & _). apply parses_ret. split_and!.
    + constructor.
      * split; [done|]. apply inside_trim. eapply inside_suffix; [exact Hs1|apply inside_prefix].
      * eapply Forall_impl; [exact Hhs|]. intros h. apply header_ok_suffix. by etrans.
    + cbn. lia.
    + intros ->. by apply Hf.
Qed.

Lemma parses_int mul l : l <> [] ->
  parses (fun v l' => exists c, l = c :: l' /\ 48 <= c <= 57 /\ v = mul * (c - 48)) (PARSE_INT mul) l.
Proof.
  intros Hl. eapply parses_bind; [by apply parses_next|]. intros c l' _ ->.
  destruct ((c <? 48) || (57 <? c)) eqn:E; [apply parses_fail; by left|].
  apply parses_ret. exists c. split; [done|]. split; [lia|done].
Qed.

Lemma parses_bind_expect {A} (Q : A -> list Z -> Prop) ch (p : P A) l : (2 <= length l)%nat ->
  (forall l', l = ch :: l' -> parses Q p l') -> parses Q (_ ← EXPECT_CHAR_NO_CHECK ch; p) l.
Proof.
  intros Hl H. eapply parses_bind; [apply parses_expect_no_check; intros ->; cbn in Hl; lia|].
  intros [] l' _ E. by apply H.
Qed.

Lemma parses_version l :
  parses (fun v l' => 0 <= v <= 9 /\ l' <> []) parse_http_version l.
Proof.
  eapply parses_bind; [apply parses_pos|]. intros ? ? _ [-> ->]. case_decide as Hl; [apply parses_fail; by right|].
  do 7 (apply parses_bind_expect; [cbn in Hl |- *; lia|]; intros ? ->).
  eapply parses_mono; [|apply parses_int; intros ->; cbn in Hl; lia].
  intros v l'' _ (c & -> & Hc & ->). split; [lia|]. intros ->. cbn in Hl. lia.
Qed.

Definition request_ok (max_headers : nat) (l : list Z) (r : Request) : Prop :=
  inside l (rq_method r) /\ 0 < tk_len (rq_method r) /\ Forall (fun c => token_char c = true) (tk_bytes (rq_method r)) /\
  inside l (rq_path r) /\ 0 < tk_len (rq_path r) /\ Forall (fun c => c <> SP) (tk_bytes (rq_path r)) /\
  0 <= rq_minor r <= 9 /\
  Forall (header_ok l) (rq_headers r) /\ (length (rq_headers r) <= max_headers)%nat /\ first_named (rq_headers r).

Definition response_ok (max_headers : nat) (l : list Z) (r : Response) : Prop :=
  0 <= rs_minor r <= 9 /\ 0 <= rs_status r <= 999 /\ inside l (rs_msg r) /\
  Forall (header_ok l) (rs_headers r) /\ (length (rs_headers r) <= max_headers)%nat /\ first_named (rs_headers r).

Lemma parses_request m n l : bytes l -> parses (fun r _ => request_ok n l r) (parse_request m n) l.
Proof.
  intros Hb. eapply parses_bind; [apply parses_check_eof|]. intros _ ? _ [-> Hl].
  eapply (parses_bind (fun _ _ => True)).
  { apply parses_eol_or; [done| |]; intros; by apply parses_ret. }
  intros _ l1 Hs1 _. pose proof (bytes_suffix _ _ Hs1 Hb) as Hb1.
  eapply parses_bind; [apply parses_token; [by left|done]|].
  intros t1 l2 Hs2 (pre1 & ? & -> & -> & -> & Hp1).
  eapply parses_bind; [by apply parses_skip_sp|]. intros [] l3 Hs3 Hl3.
  pose proof (bytes_suffix _ _ Hs3 (bytes_suffix _ _ Hs2 Hb1)) as Hb3.
  eapply parses_bind; [by apply parses_ADVANCE_TOKEN|]. intros t2 l4 Hs4 (pre2 & rest2 & -> & -> & -> & Hp2).
  eapply parses_bind; [by apply parses_skip_sp|]. intros [] l5 Hs5 Hl5.
  destruct (_ || _) eqn:E; [apply parses_fail; by left|]. cbn [tk_len] in E.
  eapply parses_bind; [apply parses_version|]. intros minor l6 Hs6 [Hm Hl6].
  eapply (parses_bind (fun _ _ => True)).
  { apply parses_eol_or; [done| |]; intros; [by apply parses_ret|apply parses_fail; by left]. }
  intros _ l7 Hs7 _.
  assert (pre2 ++ SP :: rest2 `suffix_of` l) as Hs by (by etrans; [|etrans]).
  assert (l7 `suffix_of` l) as Hs' by (by etrans; [|etrans; [|etrans; [|etrans]]]).
  eapply parses_bind; [apply parses_headers; by eapply bytes_suffix|].
  intros hs l8 Hs8 (Hhs & Hlen & Hf). apply parses_ret. unfold request_ok.
  cbn [rq_method rq_path rq_minor rq_headers tk_len]. rewrite !bytes_prefix. split_and!; try lia.
  - eapply inside_suffix; [exact Hs1|apply inside_prefix].
  - eapply Forall_impl; [exact Hp1|]. by intros ? [? _].
  - eapply inside_suffix; [exact Hs|apply inside_prefix].
  - done.
  - eapply Forall_impl; [exact Hhs|]. intros h. by apply header_ok_suffix.
  - by apply Hf.
Qed.

Lemma strip_sp_inside pre c t len : (c = CR \/ c = LF) -> len = Z.of_nat (length pre) -> len < 2 ^ 64 ->
  exists tok, strip_sp (pre ++ c :: t) len = Some tok /\ inside (pre ++ c :: t) tok.
Proof.
  intros Hc. revert len. induction pre as [|d pre IH]; intros len Hlen Hlt; cbn [app strip_sp].
  - rewrite (proj2 (Z.eqb_neq c SP)) by (destruct Hc as [-> | ->]; done).
    eexists. split; [done|]. split; [done|]. cbn in *. lia.
  - destruct (d =? SP).
    + destruct (IH (u64 (len - 1))) as (tok & -> & Ht).
      * cbn [length] in Hlen. rewrite (wrap_small 64) by lia. lia.
      * apply (wrap_range 64). lia.
      * eexists. split; [done|]. eapply inside_suffix; [|exact Ht]. by apply suffix_cons_r.
    + eexists. split; [done|]. split; [done|]. cbn [tk_mem tk_len length] in *. rewrite length_app. lia.
Qed.

Lemma parses_status l : (4 <= length l)%nat -> parses (fun v _ => 0 <= v <= 999) PARSE_INT_3 l.
Proof.
  intros Hl.
  do 3 (eapply parses_bind; [apply parses_int; intros ->; cbn in Hl; lia|]; intros ? ? _ (? & -> & ? & ->)).
  apply parses_ret. lia.
Qed.

Lemma parses_response m n l : bytes l -> Z.of_nat (length l) < 2 ^ 64 ->
  parses (fun r _ => response_ok n l r) (parse_response m n) l.
Proof.
  intros Hb Hlong. eapply parses_bind; [apply parses_version|]. intros minor l1 Hs1 [Hm Hl1].
  eapply parses_bind; [by apply parses_peek|]. intros c ? _ [-> Hc].
  destruct (negb (c =? SP)); [apply parses_fail; by left|].
  eapply parses_bind; [by apply parses_skip_sp|]. intros [] l2 Hs2 Hl2.
  eapply parses_bind; [apply parses_pos|]. intros ? ? _ [-> ->].
  case_decide as Hl; [apply parses_fail; by right|].
  eapply parses_bind; [apply parses_status; lia|]. intros status l3 Hs3 Hstatus.
  assert (l3 `suffix_of` l) as Hs by (by etrans; [|etrans]).
  eapply parses_bind; [apply parses_to_eol; by eapply bytes_suffix|].
  intros t l4 Hs4 (pre & e & l'' & -> & He & ->).
  eapply (parses_bind (fun tok _ => inside l tok)).
  { unfold response_msg, parses. cbn [tk_len tk_mem].
    destruct (_ =? 0); [split; [done|]; eapply inside_suffix; [exact Hs|apply inside_prefix]|].
    apply suffix_length_le in Hs as Hlen. rewrite length_app in Hlen.
    destruct (strip_sp_inside pre e l'' (Z.of_nat (length pre)) He eq_refl ltac:(lia)) as (tok & -> & Htok).
    pose proof (inside_suffix _ _ _ Hs Htok).
    destruct (pre ++ e :: l'') eqn:E; [by apply app_cons_ne in E|].
    destruct (_ =? SP); [done|by left]. }
  intros msg l5 Hs5 Hmsg.
  assert (l5 `suffix_of` l) as Hs' by (by etrans; [|etrans]).
  eapply parses_bind; [apply parses_headers; by eapply bytes_suffix|].
  intros hs l6 Hs6 (Hhs & Hlen & Hf). apply parses_ret. split_and!; cbn; try done; try lia.
  - eapply Forall_impl; [exact Hhs|]. intros h. by apply header_ok_suffix.
  - by apply Hf.
Qed.

Lemma complete_loop_safe fuel cnt l : (length l <= fuel)%nat ->
  match complete_loop cnt l with Oob => False | Got _ _ => True | Fail r => r = -1 \/ r = -2 end.
Proof.
  revert cnt l. induction fuel as [|fuel IH]; intros cnt [|c l] Hl; cbn [length] in Hl; try lia; try (by right).
  cbn [complete_loop]. destruct (c =? CR).
  - destruct l as [|d l]; [by right|]. destruct (d =? LF); [|by left].
    destruct (_ =? 2); [done|]. apply IH. cbn in Hl. lia.
  - destruct (c =? LF); [destruct (_ =? 2); [done|]|]; apply IH; lia.
Qed.

Lemma parses_entry {A} (Q : A -> Prop) (p : P A) last_len l :
  0 <= last_len -> last_len - 3 <= Z.of_nat (length l) -> parses (fun a _ => Q a) p l ->
  match (_ ← checked_complete last_len; r ← p; consumed l r) l with
  | Got (n, a) l' => 0 <= n <= Z.of_nat (length l) /\ l' = drop (Z.to_nat n) l /\ Q a
  | Fail r => r = -1 \/ r = -2
  | Oob => False
  end.
Proof.
  intros Hn Hlast Hp. unfold mbind, P_bind, checked_complete, consumed.
  assert (match match p l with Got a l' => Got (ptr_diff l' l, a) l' | Fail r => Fail r | Oob => Oob end with
    | Got (n, a) l' => 0 <= n <= Z.of_nat (length l) /\ l' = drop (Z.to_nat n) l /\ Q a
    | Fail r => r = -1 \/ r = -2
    | Oob => False
    end) as H.
  { unfold parses in Hp. destruct (p l) as [a l'|r|]; [|done|done]. destruct Hp as [[pre ->] Hq].
    unfold ptr_diff. rewrite length_app. replace (Z.to_nat _) with (length pre) by lia.
    rewrite drop_app_length. split; [lia|done]. }
  destruct (last_len =? 0); [done|]. unfold is_complete.
  destruct (last_len <? 3).
  - pose proof (complete_loop_safe (length l) 0 l ltac:(lia)). by destruct (complete_loop 0 l).
  - rewrite (proj2 (Z.leb_le _ _) Hlast).
    pose proof (complete_loop_safe _ 0 (drop (Z.to_nat (last_len - 3)) l) (le_n _)).
    by destruct (complete_loop 0 _).
Qed.

Lemma request_parser_ok m max_headers last_len l : bytes l ->
  0 <= last_len -> last_len - 3 <= Z.of_nat (length l) ->
  match phr_parse_request m max_headers last_len l with
  | Got (n, r) l' => 0 <= n <= Z.of_nat (length l) /\ l' = drop (Z.to_nat n) l /\ request_ok max_headers l r
  | Fail r => r = -1 \/ r = -2
  | Oob => False
  end.
Proof. intros Hb Hn Hlast. apply parses_entry; [done|done|]. by apply parses_request. Qed.

(** C30: whatever bytes it is given, the request parser does not read past
    them; it fails with -1 or -2, or consumes a prefix and returns a method
    of token characters, a path without spaces and at most [max_headers]
    headers, each inside the text, the first with a name. *)
Theorem request_parser_safe m max_headers last_len l : bytes l ->
  0 <= last_len -> last_len - 3 <= Z.of_nat (length l) ->
  match phr_parse_request m max_headers last_len l with
  | Got (n, r) l' => 0 <= n <= Z.of_nat (length l) /\ l' = drop (Z.to_nat n) l /\ request_ok max_headers l r
  | Fail r => r = -1 \/ r = -2
  | Oob => False
  end.
Proof. apply request_parser_ok. Qed.

Lemma request_parser_safe_witness :
  phr_parse_request SSE42 10 7 (bytes_of_string "GET / HTTP/1.1") = Fail (-2) /\
  (phr_parse_request SSE42 10 0 (bytes_of_string "@ / HTTP/1.1") = Fail (-1)) /\
  match phr_parse_request SSE42 10 7 (bytes_of_string "GET / HTTP/1.1") with
  | Got (n, r) l' => 0 <= n <= 14 /\ l' = drop (Z.to_nat n) (bytes_of_string "GET / HTTP/1.1") /\
      request_ok 10 (bytes_of_string "GET / HTTP/1.1") r
  | Fail r => r = -1 \/ r = -2
  | Oob => False
  end.
Proof.
  split; [vm_compute; reflexivity|]. split; [vm_compute; reflexivity|].
  apply (request_parser_safe SSE42 10 7 (bytes_of_string "GET / HTTP/1.1"));
    [apply bytes_string|lia|vm_compute; discriminate].
Defined.

Lemma response_parser_ok m max_headers last_len l : bytes l -> Z.of_nat (length l) < 2 ^ 64 ->
  0 <= last_len -> last_len - 3 <= Z.of_nat (length l) ->
  match phr_parse_response m max_headers last_len l with
  | Got (n, r) l' => 0 <= n <= Z.of_nat (length l) /\ l' = drop (Z.to_nat n) l /\ response_ok max_headers l r
  | Fail r => r = -1 \/ r = -2
  | Oob => False
  end.
Proof. intros Hb Hl Hn Hlast. apply parses_entry; [done|done|]. by apply parses_response. Qed.

(** The same for the response parser: the status is a number of three
    digits and the message and the headers lie inside the text. *)
Theorem response_parser_safe m max_headers last_len l : bytes l -> Z.of_nat (length l) < 2 ^ 64 ->
  0 <= last_len -> last_len - 3 <= Z.of_nat (length l) ->
  match phr_parse_response m max_headers last_len l with
  | Got (n, r) l' => 0 <= n <= Z.of_nat (length l) /\ l' = drop (Z.to_nat n) l /\ response_ok max_headers l r
  | Fail r => r = -1 \/ r = -2
  | Oob => False
  end.
Proof. apply response_parser_ok. Qed.

Lemma response_parser_safe_witness :
  (exists r, phr_parse_response PORTABLE 10 0 (bytes_of_string "HTTP/1.1 200   OK" ++ [10; 10; 65]) = Got (19, r) [65] /\
    rs_status r = 200 /\ tk_bytes (rs_msg r) = bytes_of_string "OK") /\
  match phr_parse_response PORTABLE 10 0 (bytes_of_string "HTTP/1.1 2x0 OK") with
  | Got (n, r) l' => 0 <= n <= 15 /\ l' = drop (Z.to_nat n) (bytes_of_string "HTTP/1.1 2x0 OK") /\
      response_ok 10 (bytes_of_string "HTTP/1.1 2x0 OK") r
  | Fail r => r = -1 \/ r = -2
  | Oob => False
  end.
Proof.
  split; [eexists; split; [vm_compute; reflexivity|split; vm_compute; reflexivity]|].
  apply (response_parser_safe PORTABLE 10 0 (bytes_of_string "HTTP/1.1 2x0 OK"));
    [apply bytes_string|vm_compute; reflexivity|lia|vm_compute; discriminate].
Defined.
