(* ===== verification/PicoHttpSplit.v ===== *)
(** * The HTTP/1 parser on text that arrives in pieces

    A message is parsed again from its start each time more of it arrives;
    [last_len] lets the parser look for the blank line first. A text that
    parses is incomplete as long as a byte of it is missing, and then parses
    as if it had come at once. *)

From Stdlib Require Import ZArith Lia Ascii.
From stdpp Require Import base strings list.
From S2P Require Import Prelude PicoHttp PicoHttpProps.

Open Scope Z_scope.

#[local] Hint Extern 0 (_ `suffix_of` _) => reflexivity : core.

(** ** Parsers that only move forward *)

Definition forward_only {A} (p : P A) : Prop :=
  forall l, bytes l -> match p l with Got _ r => r `suffix_of` l | _ => True end.

Lemma fwd_bind {A B} (p : P A) (f : A -> P B) :
  forward_only p -> (forall a, forward_only (f a)) -> forward_only (p ≫= f).
Proof.
  intros Hp Hf l Hb. unfold mbind, P_bind. specialize (Hp l Hb). destruct (p l) as [a r|r|]; [|done|done].
  specialize (Hf a r (bytes_suffix _ _ Hp Hb)). destruct (f a r); [|done|done]. by etrans.
Qed.
Lemma fwd_ret {A} (a : A) : forward_only (mret a).
Proof. intros l _. apply (reflexivity l). Qed.
Lemma fwd_fail {A} z : forward_only (pfail (A := A) z).
Proof. done. Qed.
Lemma fwd_pos : forward_only pos.
Proof. intros l _. apply (reflexivity l). Qed.
Lemma fwd_check_eof : forward_only CHECK_EOF.
Proof. intros [|c l] _; [done|]. apply (reflexivity (c :: l)). Qed.
Lemma fwd_peek : forward_only peek.
Proof. intros [|c l] _; [done|]. apply (reflexivity (c :: l)). Qed.
Lemma fwd_next : forward_only next.
Proof. intros [|c l] _; [done|by apply suffix_cons_r]. Qed.
Lemma fwd_advance : forward_only advance.
Proof. intros [|c l] _; [done|by apply suffix_cons_r]. Qed.
Lemma fwd_if {A} (b : bool) (p q : P A) : forward_only p -> forward_only q -> forward_only (if b then p else q).
Proof. by destruct b. Qed.
Lemma fwd_decide {A} (Q : Prop) `{Decision Q} (p q : P A) :
  forward_only p -> forward_only q -> forward_only (if decide Q then p else q).
Proof. by destruct (decide Q). Qed.
Create HintDb fwd.
#[export] Hint Resolve fwd_bind fwd_ret fwd_fail fwd_pos fwd_check_eof fwd_peek fwd_next fwd_advance fwd_if
  fwd_decide : fwd.
#[export] Hint Extern 1 (forward_only skip_sp) => exact (fun l _ => skip_sp_suffix l) : fwd.
#[export] Hint Extern 1 (forward_only skip_blanks) => exact (fun l _ => skip_blanks_suffix l) : fwd.
#[export] Hint Extern 1 (forward_only eol_slow) => exact (fun l _ => eol_slow_suffix l) : fwd.
#[export] Hint Extern 1 (forward_only (token_loop ?c)) => exact (fun l _ => token_loop_suffix c l) : fwd.
#[export] Hint Extern 1 (forward_only advance_loop) => exact (fun l _ => advance_loop_suffix l) : fwd.

(** ** A text cut short

    [cut N N' R p p']: when [p'] succeeds on [l ++ e], then on [l] either [p]
    succeeds at the same place, with a result related by [R], or it finds the
    text incomplete and [p'] has used all of [l]. [N] and [N'] tell whether
    [l] and what [p] leaves of it must not be empty. *)
Section Cut.
Context (e : list Z).

Definition filled_if (N : bool) (l : list Z) : Prop := if N then l <> [] else True.

Definition cut {A} (N N' : bool) (R : A -> A -> Prop) (p p' : P A) : Prop :=
  forall l a' r', bytes (l ++ e) -> filled_if N l -> p' (l ++ e) = Got a' r' ->
    r' `suffix_of` l ++ e /\
    ((exists a r, p l = Got a r /\ r' = r ++ e /\ filled_if N' r /\ R a a') \/
     (p l = Fail (-2) /\ (length r' <= length e)%nat)).

Lemma cut_bind {A B} N N1 N2 (R : A -> A -> Prop) (Q : B -> B -> Prop) (p p' : P A) (f f' : A -> P B) :
  cut N N1 R p p' -> (forall a a', R a a' -> cut N1 N2 Q (f a) (f' a')) -> (forall a, forward_only (f' a)) ->
  cut N N2 Q (p ≫= f) (p' ≫= f').
Proof.
  intros Hp Hf Hfwd l b' r2' Hb HN. unfold mbind, P_bind. destruct (p' (l ++ e)) as [a' r'|z|] eqn:E; [|done|done].
  intros E2. destruct (Hp l a' r' Hb HN E) as [Hs [(a & r & -> & -> & HN1 & HR)|[-> Hlen]]].
  - destruct (Hf a a' HR r b' r2' ltac:(by eapply bytes_suffix) HN1 E2) as [Hs2 ?]. split; [by etrans|done].
  - specialize (Hfwd a' r' (bytes_suffix _ _ Hs Hb)). rewrite E2 in Hfwd. split; [by etrans|]. right. split; [done|].
    apply suffix_length_le in Hfwd. lia.
Qed.

Definition eq_or_all {A} (a a' : A) : Prop := True.
(** Positions and tokens. *)
Definition same_pos (l l' : list Z) : Prop := l' = l ++ e.
Definition same_token (t t' : Token) : Prop :=
  tk_mem t' = tk_mem t ++ e /\ tk_len t' = tk_len t /\ tk_len t <= Z.of_nat (length (tk_mem t)).

Lemma cut_ret {A} N (R : A -> A -> Prop) a a' : R a a' -> cut N N R (mret a) (mret a').
Proof. intros HR l ? ? Hb HN [= <- <-]. split; [done|]. left. by exists a, l. Qed.
Lemma cut_fail {A} N N' (R : A -> A -> Prop) z z' : cut N N' R (pfail z) (pfail z').
Proof. by intros l a' r' _ _ [=]. Qed.
Lemma cut_pos N : cut N N same_pos pos pos.
Proof. intros l ? ? Hb HN [= <- <-]. split; [done|]. left. by exists l, l. Qed.
Lemma cut_check_eof N : cut N true eq CHECK_EOF CHECK_EOF.
Proof.
  intros [|c l] [] r' Hb HN; cbn.
  - destruct e as [|d e']; [done|]. intros [= <-]. split; [done|]. by right.
  - intros [= <-]. split; [done|]. left. by exists tt, (c :: l).
Qed.
Lemma cut_peek : cut true true eq peek peek.
Proof. intros [|c l] a' r' Hb HN; [done|]. intros [= <- <-]. split; [done|]. left. by exists c, (c :: l). Qed.
Lemma cut_next : cut true false eq next next.
Proof.
  intros [|c l] a' r' Hb HN; [done|]. intros [= <- <-]. split; [by apply suffix_cons_r|]. left. by exists c, l.
Qed.
Lemma cut_advance : cut true false eq advance advance.
Proof.
  intros [|c l] [] r' Hb HN; [done|]. intros [= <-]. split; [by apply suffix_cons_r|]. left. by exists tt, l.
Qed.
Lemma cut_weaken {A} N N' (R : A -> A -> Prop) p p' : cut false true R p p' -> cut N N' R p p'.
Proof.
  intros H l a' r' Hb _ E. destruct (H l a' r' Hb I E) as [Hs [(a & r & ? & ? & Hr & ?)|?]]; split; auto.
  left. exists a, r. split_and!; [done|done|destruct N'; done|done].
Qed.
Lemma cut_leave {A} N (R : A -> A -> Prop) p p' : cut N true R p p' -> cut N false R p p'.
Proof.
  intros H l a' r' Hb HN E. destruct (H l a' r' Hb HN E) as [Hs [(a & r & ? & ? & Hr & ?)|?]]; split; auto.
  left. by exists a, r.
Qed.
Lemma cut_mono {A} N N' (R Q : A -> A -> Prop) p p' : (forall a a', R a a' -> Q a a') -> cut N N' R p p' -> cut N N' Q p p'.
Proof.
  intros HRQ H l a' r' Hb HN E. destruct (H l a' r' Hb HN E) as [Hs [(a & r & ? & ? & ? & ?)|?]]; split; auto.
  left. exists a, r. auto.
Qed.

(** ** The loops *)

Lemma cut_token_loop next_char : cut true true eq (token_loop next_char) (token_loop next_char).
Proof.
  intros l. induction l as [|c l IH]; intros [] r' Hb HN; [done|]. cbn [app token_loop].
  destruct (c =? next_char). { intros [= <-]. split; [done|]. left. by exists tt, (c :: l). }
  destruct (negb (token_char c)); [done|]. destruct l as [|d l].
  - cbn [app]. destruct e as [|d e'] eqn:Ee; [done|]. rewrite <- Ee. intros E.
    pose proof (token_loop_suffix next_char e) as Hs. rewrite E in Hs. split; [by apply suffix_cons_r|].
    right. split; [done|]. by apply suffix_length_le.
  - intros E. change (token_loop next_char ((d :: l) ++ e) = Got tt r') in E.
    destruct (IH tt r' ltac:(by inversion Hb) ltac:(done) E) as [Hs ?]. split; [by apply suffix_cons_r|done].
Qed.

Lemma cut_advance_loop : cut true true eq advance_loop advance_loop.
Proof.
  intros l. induction l as [|c l IH]; intros [] r' Hb HN; [done|]. cbn [app advance_loop].
  destruct (c =? SP). { intros [= <-]. split; [done|]. left. by exists tt, (c :: l). }
  destruct (negb (IS_PRINTABLE_ASCII c) && _); [done|]. destruct l as [|d l].
  - cbn [app]. destruct e as [|d e'] eqn:Ee; [done|]. rewrite <- Ee. intros E.
    pose proof (advance_loop_suffix e) as Hs. rewrite E in Hs. split; [by apply suffix_cons_r|].
    right. split; [done|]. by apply suffix_length_le.
  - intros E. change (advance_loop ((d :: l) ++ e) = Got tt r') in E.
    destruct (IH tt r' ltac:(by inversion Hb) ltac:(done) E) as [Hs ?]. split; [by apply suffix_cons_r|done].
Qed.

Lemma cut_skip_sp : cut true true eq skip_sp skip_sp.
Proof.
  intros l. induction l as [|c l IH]; intros [] r' Hb HN; [done|]. destruct l as [|d l].
  - cbn [app]. destruct e as [|d e'] eqn:Ee; [done|]. rewrite <- Ee.
    assert (skip_sp (c :: e) = if d =? SP then skip_sp e else Got tt e) as -> by (by rewrite Ee).
    pose proof (skip_sp_suffix e) as Hs. destruct (d =? SP); intros E; [rewrite E in Hs|injection E as <-];
      (split; [by apply suffix_cons_r|]; right; split; [done|by apply suffix_length_le]).
  - change (skip_sp ((c :: d :: l) ++ e)) with (if d =? SP then skip_sp ((d :: l) ++ e) else Got tt ((d :: l) ++ e)).
    change (skip_sp (c :: d :: l)) with (if d =? SP then skip_sp (d :: l) else Got tt (d :: l)).
    destruct (d =? SP); intros E.
    + destruct (IH tt r' ltac:(by inversion Hb) ltac:(done) E) as [Hs ?]. split; [by apply suffix_cons_r|done].
    + injection E as <-. split; [by apply suffix_cons_r|]. left. by exists tt, (d :: l).
Qed.

Lemma cut_skip_blanks : cut false true eq skip_blanks skip_blanks.
Proof.
  intros l. induction l as [|c l IH]; intros [] r' Hb HN.
  - cbn [app]. intros E. pose proof (skip_blanks_suffix e) as Hs. rewrite E in Hs. split; [done|].
    right. split; [done|]. by apply suffix_length_le.
  - cbn [app skip_blanks]. destruct (is_blank c).
    + intros E. destruct (IH tt r' ltac:(by inversion Hb) I E) as [Hs ?]. split; [by apply suffix_cons_r|done].
    + intros [= <-]. split; [done|]. left. by exists tt, (c :: l).
Qed.

Lemma cut_eol_slow : cut false true eq eol_slow eol_slow.
Proof.
  intros l. induction l as [|c l IH]; intros [] r' Hb HN.
  - cbn [app]. intros E. pose proof (eol_slow_suffix e) as Hs. rewrite E in Hs. split; [done|].
    right. split; [done|]. by apply suffix_length_le.
  - cbn [app eol_slow]. destruct (_ && _).
    + intros [= <-]. split; [done|]. left. by exists tt, (c :: l).
    + intros E. destruct (IH tt r' ltac:(by inversion Hb) I E) as [Hs ?]. split; [by apply suffix_cons_r|done].
Qed.

(** ** The parsers *)

Lemma fwd_expect_no_check ch : forward_only (EXPECT_CHAR_NO_CHECK ch).
Proof. unfold EXPECT_CHAR_NO_CHECK. auto with fwd. Qed.
Lemma fwd_expect ch : forward_only (EXPECT_CHAR ch).
Proof. unfold EXPECT_CHAR, EXPECT_CHAR_NO_CHECK. auto 10 with fwd. Qed.
Hint Resolve fwd_expect_no_check fwd_expect : fwd.
Lemma fwd_eol_or {A} (p q : P A) : forward_only p -> forward_only q -> forward_only (eol_or p q).
Proof. unfold eol_or. auto 10 with fwd. Qed.
Lemma fwd_token_plain ch : forward_only (token_plain ch).
Proof. unfold token_plain. auto 10 with fwd. Qed.
Lemma fwd_advance_plain : forward_only advance_plain.
Proof. unfold advance_plain. auto 10 with fwd. Qed.
Hint Resolve fwd_eol_or fwd_token_plain fwd_advance_plain : fwd.

Lemma cut_if {A} N N' (R : A -> A -> Prop) (b : bool) p p' q q' :
  cut N N' R p p' -> cut N N' R q q' -> cut N N' R (if b then p else q) (if b then p' else q').
Proof. by destruct b. Qed.

Lemma cut_expect_no_check ch : cut true false eq (EXPECT_CHAR_NO_CHECK ch) (EXPECT_CHAR_NO_CHECK ch).
Proof.
  unfold EXPECT_CHAR_NO_CHECK. eapply cut_bind; [apply cut_next| |auto with fwd].
  intros c ? <-. apply cut_if; [by apply cut_ret|apply cut_fail].
Qed.
Lemma cut_expect N ch : cut N false eq (EXPECT_CHAR ch) (EXPECT_CHAR ch).
Proof.
  unfold EXPECT_CHAR. eapply cut_bind; [apply cut_check_eof| |auto with fwd].
  intros ? ? _. apply cut_expect_no_check.
Qed.
Lemma cut_eol_or {A} N' (R : A -> A -> Prop) yes yes' no no' : cut false N' R yes yes' -> cut true N' R no no' ->
  forward_only yes' -> forward_only no' -> cut true N' R (eol_or yes no) (eol_or yes' no').
Proof.
  intros Hy Hn Fy Fn. unfold eol_or. eapply cut_bind; [apply cut_peek| |auto 10 with fwd].
  intros c ? <-. apply cut_if; [|apply cut_if; [|done]].
  - eapply cut_bind; [apply cut_advance| |auto with fwd]. intros ? ? _.
    eapply cut_bind; [apply cut_expect| |done]. done.
  - eapply cut_bind; [apply cut_advance| |done]. done.
Qed.

(** From a position to the one reached: a token. *)
Lemma cut_between N l l' : same_pos l l' ->
  cut N N (same_token) (buf ← pos; mret (mkTok l (ptr_diff buf l))) (buf ← pos; mret (mkTok l' (ptr_diff buf l'))).
Proof.
  intros ->. eapply cut_bind; [apply cut_pos| |auto with fwd]. intros b ? ->. apply cut_ret.
  unfold same_token, ptr_diff. cbn [tk_mem tk_len]. rewrite !length_app. split_and!; [done|lia|lia].
Qed.
Lemma cut_token_plain N ch : cut N true (same_token) (token_plain ch) (token_plain ch).
Proof.
  unfold token_plain. eapply cut_bind; [apply cut_pos| |auto 10 with fwd]. intros l l' Hl.
  eapply cut_bind; [apply cut_check_eof| |auto 10 with fwd]. intros ? ? _.
  eapply cut_bind; [apply cut_token_loop| |auto 10 with fwd]. intros ? ? _. by apply cut_between.
Qed.
Lemma cut_advance_plain N : cut N true (same_token) advance_plain advance_plain.
Proof.
  unfold advance_plain. eapply cut_bind; [apply cut_pos| |auto 10 with fwd]. intros l l' Hl.
  eapply cut_bind; [apply cut_check_eof| |auto 10 with fwd]. intros ? ? _.
  eapply cut_bind; [apply cut_advance_loop| |auto 10 with fwd]. intros ? ? _. by apply cut_between.
Qed.

(** A parser is cut as one that agrees with it on bytes. *)
Lemma cut_agrees {A} N N' (R : A -> A -> Prop) (p p' q q' : P A) :
  (forall l, bytes l -> p l = q l) -> (forall l, bytes l -> p' l = q' l) -> cut N N' R q q' -> cut N N' R p p'.
Proof.
  intros Hp Hp' H l a' r' Hb HN. rewrite Hp' by done.
  rewrite Hp by (eapply Forall_app in Hb; by destruct Hb). by apply H.
Qed.

Lemma fwd_agrees {A} (p q : P A) : (forall l, bytes l -> p l = q l) -> forward_only q -> forward_only p.
Proof. intros E H l Hb. rewrite E by done. by apply H. Qed.
Lemma fwd_parse_token m ch : ch = SP \/ ch = COLON -> forward_only (parse_token m ch).
Proof. intros Hc. apply (fwd_agrees _ (token_plain ch)); [intros; by apply parse_token_plain|auto with fwd]. Qed.
Lemma fwd_ADVANCE_TOKEN m : forward_only (ADVANCE_TOKEN m).
Proof. apply (fwd_agrees _ advance_plain); [intros; by apply ADVANCE_TOKEN_plain|auto with fwd]. Qed.
Lemma fwd_to_ctl m : forward_only (to_ctl m).
Proof. apply (fwd_agrees _ eol_slow); [intros; by apply to_ctl_slow|auto with fwd]. Qed.
Hint Resolve fwd_ADVANCE_TOKEN fwd_to_ctl : fwd.
Hint Extern 1 (forward_only (parse_token _ SP)) => (apply fwd_parse_token; by left) : fwd.
Hint Extern 1 (forward_only (parse_token _ COLON)) => (apply fwd_parse_token; by right) : fwd.
Lemma fwd_to_eol m : forward_only (get_token_to_eol m).
Proof. unfold get_token_to_eol. auto 15 with fwd. Qed.
Hint Resolve fwd_to_eol : fwd.
Lemma fwd_PARSE_INT mul : forward_only (PARSE_INT mul).
Proof. unfold PARSE_INT. auto with fwd. Qed.
Hint Resolve fwd_PARSE_INT : fwd.
Lemma fwd_version : forward_only parse_http_version.
Proof. unfold parse_http_version. auto 20 with fwd. Qed.
Lemma fwd_header_name m first : forward_only (parse_header_name m first).
Proof. unfold parse_header_name. auto 20 with fwd. Qed.
Hint Resolve fwd_version fwd_header_name : fwd.
Lemma fwd_headers m room first : forward_only (parse_headers m room first).
Proof. revert first. induction room as [|room IH]; intros first; cbn [parse_headers]; auto 20 with fwd. Qed.
Hint Resolve fwd_headers : fwd.

Lemma cut_parse_token N m ch : ch = SP \/ ch = COLON -> cut N true same_token (parse_token m ch) (parse_token m ch).
Proof. intros Hc. eapply cut_agrees; [intros; by apply parse_token_plain..|apply cut_token_plain]. Qed.
Lemma cut_ADVANCE_TOKEN N m : cut N true same_token (ADVANCE_TOKEN m) (ADVANCE_TOKEN m).
Proof. eapply cut_agrees; [intros; by apply ADVANCE_TOKEN_plain..|apply cut_advance_plain]. Qed.
Lemma cut_to_ctl m : cut false true eq (to_ctl m) (to_ctl m).
Proof. eapply cut_agrees; [intros; by apply to_ctl_slow..|apply cut_eol_slow]. Qed.

Lemma cut_to_eol m : cut false false same_token (get_token_to_eol m) (get_token_to_eol m).
Proof.
  unfold get_token_to_eol. eapply cut_bind; [apply cut_pos| |auto 15 with fwd]. intros l ? ->.
  eapply cut_bind; [apply cut_to_ctl| |auto 15 with fwd]. intros ? ? _.
  eapply cut_bind; [apply cut_peek| |auto 15 with fwd]. intros c ? <-.
  apply cut_if; [|apply cut_if; [|apply cut_fail]].
  - eapply cut_bind; [apply cut_advance| |auto 15 with fwd]. intros ? ? _.
    eapply cut_bind; [apply cut_expect| |auto 15 with fwd]. intros ? ? _.
    eapply cut_bind; [apply cut_pos| |auto 15 with fwd]. intros b ? ->. apply cut_ret.
    unfold same_token, ptr_diff. cbn [tk_mem tk_len]. rewrite !length_app. split_and!; [done|lia|lia].
  - eapply cut_bind; [apply cut_pos| |auto 15 with fwd]. intros b ? ->.
    eapply cut_bind; [apply cut_advance| |auto 15 with fwd]. intros ? ? _. apply cut_ret.
    unfold same_token, ptr_diff. cbn [tk_mem tk_len]. rewrite !length_app. split_and!; [done|lia|lia].
Qed.

Lemma cut_PARSE_INT mul : cut true false eq (PARSE_INT mul) (PARSE_INT mul).
Proof.
  unfold PARSE_INT. eapply cut_bind; [apply cut_next| |auto with fwd]. intros c ? <-.
  apply cut_if; [apply cut_fail|by apply cut_ret].
Qed.

(** A parser that asks for more bytes than it reads. *)
Definition asks {A} (n : nat) (p : P A) : P A := fun l => if decide (length l < n)%nat then Fail (-2) else p l.
Definition reads_exactly {A} (n : nat) (p : P A) : Prop :=
  forall h, length h = n -> exists o : option A, forall t, t <> [] ->
    p (h ++ t) = match o with Some a => Got a t | None => Fail (-1) end.

Lemma cut_asks {A} N n (p : P A) : reads_exactly n p -> cut N true eq (asks (S n) p) (asks (S n) p).
Proof.
  intros Hp l a' r' Hb _. unfold asks. destruct (decide (length (l ++ e) < S n)%nat) as [|Hn]; [done|].
  destruct (decide (length l < S n)%nat) as [Hl|Hl].
  - destruct (Hp (take n (l ++ e))) as [o Ho]; [rewrite length_take; lia|].
    assert (drop n (l ++ e) <> []) as Ht by (intros E%(f_equal length); rewrite length_drop in E; cbn in E; lia).
    specialize (Ho _ Ht). rewrite take_drop in Ho. rewrite Ho. destruct o as [a|]; [|done]. intros [= <- <-].
    split; [apply suffix_drop|]. right. split; [done|]. rewrite length_drop, length_app. lia.
  - destruct (Hp (take n l)) as [o Ho]; [rewrite length_take; lia|].
    assert (drop n l <> []) as Ht by (intros E%(f_equal length); rewrite length_drop in E; cbn in E; lia).
    pose proof (Ho _ Ht) as H1. rewrite take_drop in H1.
    assert (drop n l ++ e <> []) as Ht' by (by intros [? _]%app_nil).
    specialize (Ho _ Ht'). rewrite app_assoc, take_drop in Ho. rewrite Ho, H1. destruct o as [a|]; [|done]. intros [= <- <-].
    split; [|left; by exists a, (drop n l)]. exists (take n l). by rewrite app_assoc, take_drop.
Qed.

Lemma version_exact : reads_exactly 8 (_ ← EXPECT_CHAR_NO_CHECK 72; _ ← EXPECT_CHAR_NO_CHECK 84; _ ← EXPECT_CHAR_NO_CHECK 84;
    _ ← EXPECT_CHAR_NO_CHECK 80; _ ← EXPECT_CHAR_NO_CHECK 47; _ ← EXPECT_CHAR_NO_CHECK 49;
    _ ← EXPECT_CHAR_NO_CHECK 46; PARSE_INT 1).
Proof.
  intros h Hh. do 8 (destruct h as [|? h]; [discriminate|]). destruct h; [|discriminate].
  unfold EXPECT_CHAR_NO_CHECK, PARSE_INT, mbind, P_bind, next. cbn -[Z.eqb Z.ltb Z.mul Z.sub].
  repeat match goal with |- context [?x =? ?y] => destruct (x =? y); cbn -[Z.eqb Z.ltb Z.mul Z.sub]; [|by exists None] end.
  destruct (_ || _); [by exists None|]. by eexists (Some _).
Qed.
Lemma status_exact : reads_exactly 3 PARSE_INT_3.
Proof.
  intros h Hh. do 3 (destruct h as [|? h]; [discriminate|]). destruct h; [|discriminate].
  unfold PARSE_INT_3, PARSE_INT, mbind, P_bind, next. cbn -[Z.eqb Z.ltb Z.mul Z.sub Z.add].
  repeat match goal with |- context [(?x <? ?y) || ?z] => destruct ((x <? y) || z); cbn -[Z.eqb Z.ltb Z.mul Z.sub Z.add]; [by exists None|] end.
  by eexists (Some _).
Qed.
Lemma cut_version N : cut N true eq parse_http_version parse_http_version.
Proof.
  eapply cut_agrees; [| |apply (cut_asks N 8), version_exact]; intros l _;
    unfold parse_http_version, asks, mbind at 1, P_bind at 1; cbn [pos]; by destruct (decide _).
Qed.

(** ** Headers, requests and responses *)

Definition same_name : option Token -> option Token -> Prop := option_Forall2 same_token.
Definition same_header (h h' : phr_header) : Prop :=
  same_name (ph_name h) (ph_name h') /\ same_token (ph_value h) (ph_value h').
Definition stretched (t t' : Token) : Prop := tk_mem t' = tk_mem t ++ e /\ tk_len t' = tk_len t.
Definition same_response (q q' : Response) : Prop :=
  rs_minor q' = rs_minor q /\ rs_status q' = rs_status q /\ stretched (rs_msg q) (rs_msg q') /\
  Forall2 same_header (rs_headers q) (rs_headers q').

Lemma same_token_bytes t t' : same_token t t' -> tk_bytes t' = tk_bytes t.
Proof. intros (Em & El & Hl). unfold tk_bytes. rewrite Em, El. apply take_app_le. lia. Qed.
Lemma same_trim t t' : same_token t t' -> same_token (trim_value t) (trim_value t').
Proof.
  intros H. pose proof (same_token_bytes t t' H) as Eb. destruct H as (Em & El & Hl). unfold trim_value, same_token.
  cbn [tk_mem tk_len]. rewrite Eb. split_and!; [done|done|]. pose proof (trim_length (rev (tk_bytes t))) as Hr.
  rewrite length_rev in Hr. unfold tk_bytes in *. rewrite length_take in Hr. lia.
Qed.

Lemma cut_header_name m first : cut true true same_name (parse_header_name m first) (parse_header_name m first).
Proof.
  unfold parse_header_name. eapply cut_bind; [apply cut_peek| |auto 20 with fwd]. intros c ? <-.
  apply cut_if; [|apply cut_ret; constructor].
  eapply cut_bind; [apply cut_parse_token; by right| |auto 20 with fwd]. intros t t' Ht.
  destruct (Ht) as (_ & <- & _). apply cut_if; [apply cut_fail|].
  eapply cut_bind; [apply cut_advance| |auto 20 with fwd]. intros ? ? _.
  eapply cut_bind; [apply cut_skip_blanks| |auto 20 with fwd]. intros ? ? _. apply cut_ret. by constructor.
Qed.
Lemma cut_any {A} N N' (R : A -> A -> Prop) p p' : cut N N' R p p' -> cut N N' eq_or_all p p'.
Proof. by apply cut_mono. Qed.
Lemma cut_true_false {A} N' (R : A -> A -> Prop) p p' : cut false N' R p p' -> cut true N' R p p'.
Proof. intros H l a' r' Hb _. by apply H. Qed.

(** *** Parsers that end a message

    With [cuts] a text that is incomplete is not all of what [p'] used. *)

Definition strict {A} (p : P A) : Prop := forall l a r, bytes l -> p l = Got a r -> (length r < length l)%nat.
Definition cuts {A} (N : bool) (R : A -> A -> Prop) (p p' : P A) : Prop :=
  forall l a' r', bytes (l ++ e) -> filled_if N l -> p' (l ++ e) = Got a' r' ->
    (exists a r, p l = Got a r /\ r' = r ++ e /\ R a a') \/ (p l = Fail (-2) /\ (length r' < length e)%nat).

Lemma strict_fail {A} z : strict (pfail (A := A) z).
Proof. by intros l a r _ [=]. Qed.
Lemma strict_advance : strict advance.
Proof. intros [|c l] a r _; [done|]. intros [= <- <-]. cbn. lia. Qed.
Lemma strict_next : strict next.
Proof. intros [|c l] a r _; [done|]. intros [= <- <-]. cbn. lia. Qed.
Lemma strict_if {A} (b : bool) (p q : P A) : strict p -> strict q -> strict (if b then p else q).
Proof. by destruct b. Qed.
Lemma strict_first {A B} (p : P A) (f : A -> P B) : strict p -> forward_only p -> (forall a, forward_only (f a)) ->
  strict (p ≫= f).
Proof.
  intros Hp Hs Hf l b r Hb. unfold mbind, P_bind. destruct (p l) as [a r1|z|] eqn:E; [|done|done]. intros E2.
  specialize (Hs l Hb). rewrite E in Hs. specialize (Hf a r1 (bytes_suffix _ _ Hs Hb)). rewrite E2 in Hf.
  apply suffix_length_le in Hf. pose proof (Hp l a r1 Hb E). lia.
Qed.
Lemma strict_then {A B} (p : P A) (f : A -> P B) : forward_only p -> (forall a, strict (f a)) -> strict (p ≫= f).
Proof.
  intros Hs Hf l b r Hb. unfold mbind, P_bind. destruct (p l) as [a r1|z|] eqn:E; [|done|done]. intros E2.
  specialize (Hs l Hb). rewrite E in Hs. pose proof (Hf a r1 b r (bytes_suffix _ _ Hs Hb) E2).
  apply suffix_length_le in Hs. lia.
Qed.
Lemma strict_eol_or {A} (yes no : P A) : forward_only yes -> strict no -> strict (eol_or yes no).
Proof.
  intros Hy Hn. unfold eol_or. apply strict_then; [auto with fwd|]. intros c.
  apply strict_if; [|apply strict_if; [|done]]; (apply strict_first; [apply strict_advance|auto 10 with fwd..]).
Qed.
Lemma strict_to_eol m : strict (get_token_to_eol m).
Proof.
  unfold get_token_to_eol. do 3 (apply strict_then; [auto with fwd|intros ?]).
  apply strict_if; [|apply strict_if; [|apply strict_fail]].
  - apply strict_first; [apply strict_advance|auto 10 with fwd..].
  - apply strict_then; [auto with fwd|intros ?]. apply strict_first; [apply strict_advance|auto with fwd..].
Qed.
Lemma strict_header_line m room first name : strict (value ← get_token_to_eol m; hs ← parse_headers m room first;
  mret (mkHeader name (trim_value value) :: hs)).
Proof. apply strict_first; [apply strict_to_eol|auto 20 with fwd..]. Qed.
Lemma strict_headers m room first : strict (parse_headers m room first).
Proof.
  destruct room; cbn [parse_headers]; (apply strict_then; [auto with fwd|intros _]);
    (apply strict_eol_or; [auto with fwd|]); [apply strict_fail|].
  apply strict_then; [auto with fwd|]. intros name. apply strict_header_line.
Qed.

Lemma cuts_cut {A} N R (p p' : P A) : forward_only p' -> cuts N R p p' -> cut N false R p p'.
Proof.
  intros Hf H l a' r' Hb HN E. pose proof (Hf _ Hb) as Hs. rewrite E in Hs. split; [done|].
  destruct (H l a' r' Hb HN E) as [(a & r & ? & ? & ?)|[? ?]]; [left; by exists a, r|right; split; [done|lia]].
Qed.
Lemma cuts_fail {A} N (R : A -> A -> Prop) z z' : cuts N R (pfail z) (pfail z').
Proof. by intros l a' r' _ _ [=]. Qed.
Lemma cuts_if {A} N (R : A -> A -> Prop) (b : bool) p p' q q' :
  cuts N R p p' -> cuts N R q q' -> cuts N R (if b then p else q) (if b then p' else q').
Proof. by destruct b. Qed.
Lemma cuts_true {A} (R : A -> A -> Prop) p p' : cuts false R p p' -> cuts true R p p'.
Proof. intros H l a' r' Hb _. by apply H. Qed.
Lemma cuts_bind {A B} N N1 (R : A -> A -> Prop) (Q : B -> B -> Prop) (p p' : P A) (f f' : A -> P B) :
  cut N N1 R p p' -> (forall a a', R a a' -> cuts N1 Q (f a) (f' a')) -> (forall a, strict (f' a)) ->
  cuts N Q (p ≫= f) (p' ≫= f').
Proof.
  intros Hp Hf Hst l b' r2' Hb HN. unfold mbind, P_bind. destruct (p' (l ++ e)) as [a' r'|z|] eqn:E; [|done|done].
  intros E2. destruct (Hp l a' r' Hb HN E) as [Hs [(a & r & -> & -> & HN1 & HR)|[-> Hlen]]].
  - exact (Hf a a' HR r b' r2' ltac:(by eapply bytes_suffix) HN1 E2).
  - right. split; [done|]. pose proof (Hst a' r' b' r2' (bytes_suffix _ _ Hs Hb) E2). lia.
Qed.
Lemma cuts_map {A B} N (R : A -> A -> Prop) (Q : B -> B -> Prop) (p p' : P A) g g' :
  cuts N R p p' -> (forall a a', R a a' -> Q (g a) (g' a')) -> cuts N Q (a ← p; mret (g a)) (a ← p'; mret (g' a)).
Proof.
  intros Hp Hg l b' r' Hb HN. unfold mbind, P_bind. destruct (p' (l ++ e)) as [a' r1|z|] eqn:E; [|done|done].
  intros [= <- <-]. destruct (Hp l a' r1 Hb HN E) as [(a & r & -> & -> & HR)|[-> ?]]; [left|by right].
  exists (g a), r. auto.
Qed.
Lemma cuts_eol_or {A} (R : A -> A -> Prop) a a' no no' : R a a' -> cuts true R no no' ->
  cuts true R (eol_or (mret a) no) (eol_or (mret a') no').
Proof.
  intros Ha Hno [|c l] b' r' Hb HN; [done|].
  unfold eol_or, EXPECT_CHAR, EXPECT_CHAR_NO_CHECK, mbind, P_bind. cbn [app peek].
  destruct (c =? CR); [|destruct (c =? LF); [|by apply (Hno (c :: l))]]; cbn [advance].
  - destruct l as [|d l]; cbn [app].
    + unfold CHECK_EOF. destruct e as [|d e']; [done|]. cbn. destruct (d =? LF); [|done]. intros [= <- <-].
      right. split; [done|lia].
    + cbn. destruct (d =? LF); [|done]. intros [= <- <-]. left. by exists a, l.
  - intros [= <- <-]. left. by exists a, l.
Qed.

Lemma cuts_headers m room first : cuts false (Forall2 same_header) (parse_headers m room first) (parse_headers m room first).
Proof.
  revert first. induction room as [|room IH]; intros first; cbn [parse_headers];
    (eapply cuts_bind; [apply cut_check_eof|intros _ _ _; apply cuts_eol_or; [constructor|]|
      intros _; apply strict_eol_or; [auto with fwd|]]).
  - apply cuts_fail.
  - apply strict_fail.
  - eapply cuts_bind; [apply cut_header_name| |intros name; apply strict_header_line]. intros n n' Hn.
    eapply cuts_bind; [apply cut_true_false, cut_to_eol| |].
    + intros t t' Ht. eapply cuts_map; [apply IH|]. intros hs hs' Hhs. constructor; [|done].
      split; [done|by apply same_trim].
    + intros value. apply strict_first; [apply strict_headers|auto with fwd..].
  - apply strict_then; [auto with fwd|]. intros name. apply strict_header_line.
Qed.
Lemma cut_headers m room first : cut false false (Forall2 same_header) (parse_headers m room first) (parse_headers m room first).
Proof. apply cuts_cut; [auto with fwd|apply cuts_headers]. Qed.

Lemma cut_request m n : cut false false eq_or_all (parse_request m n) (parse_request m n).
Proof.
  unfold parse_request. eapply cut_bind; [apply cut_check_eof| |auto 30 with fwd]. intros ? ? _.
  eapply (cut_bind _ _ false);
    [apply (cut_eol_or _ eq); [by apply cut_ret|by apply cut_leave, cut_ret|auto with fwd..]| |auto 30 with fwd].
  intros ? ? _. eapply cut_bind; [apply cut_parse_token; by left| |auto 30 with fwd]. intros t t' (_ & <- & _).
  eapply cut_bind; [apply cut_skip_sp| |auto 30 with fwd]. intros ? ? _.
  eapply cut_bind; [apply cut_ADVANCE_TOKEN| |auto 30 with fwd]. intros u u' (_ & <- & _).
  eapply cut_bind; [apply cut_skip_sp| |auto 30 with fwd]. intros ? ? _.
  apply cut_if; [apply cut_fail|].
  eapply cut_bind; [apply cut_version| |auto 30 with fwd]. intros v ? <-.
  eapply (cut_bind _ _ false); [apply (cut_eol_or _ eq); [by apply cut_ret|apply cut_fail|auto with fwd..]| |auto 30 with fwd].
  intros ? ? _. eapply cut_bind; [apply cut_headers| |auto 30 with fwd]. intros ? ? _. by apply cut_ret.
Qed.

Lemma cut_refine {A} N N' (R : A -> A -> Prop) (Q : A -> Prop) (p p' : P A) :
  (forall l a r, bytes l -> p l = Got a r -> Q a) -> cut N N' R p p' -> cut N N' (fun a a' => R a a' /\ Q a) p p'.
Proof.
  intros HQ H l a' r' Hb HN E. destruct (H l a' r' Hb HN E) as [Hs [(a & r & E1 & ? & ? & ?)|?]]; split; auto.
  left. exists a, r. split_and!; try done. eapply HQ; [|exact E1]. apply Forall_app in Hb. by destruct Hb.
Qed.

(** A line ends in a byte that is not a space. *)
Definition ended (t : Token) : Prop := exists c, c ∈ tk_mem t /\ c <> SP.
Lemma to_eol_ended m l t r : bytes l -> get_token_to_eol m l = Got t r -> ended t.
Proof.
  intros Hb E. pose proof (parses_to_eol m l Hb) as H. unfold parses in H. rewrite E in H.
  destruct H as (_ & pre & c & l'' & -> & Hc & ->). exists c. cbn. split; [apply elem_of_app; right; by left|]. unfold CR, LF, SP in *. lia.
Qed.

Lemma strip_sp_app mem len : (exists c, c ∈ mem /\ c <> SP) ->
  exists t, strip_sp mem len = Some t /\ strip_sp (mem ++ e) len = Some (mkTok (tk_mem t ++ e) (tk_len t)).
Proof.
  revert len. induction mem as [|c mem IH]; intros len (d & Hd & Hs); [by apply elem_of_nil in Hd|]. cbn [app strip_sp].
  destruct (Z.eqb_spec c SP) as [->|Hc]; [|by eexists]. apply IH. exists d. split; [|done].
  by apply elem_of_cons in Hd as [->|].
Qed.
Lemma cut_response_msg N t t' : same_token t t' /\ ended t -> cut N N stretched (response_msg t) (response_msg t').
Proof.
  intros [(Em & El & _) Hend] l a' r' Hb HN. unfold response_msg. rewrite El, Em.
  destruct (tk_len t =? 0). { intros [= <- <-]. split; [done|]. left. by exists t, l. }
  pose proof (strip_sp_app (tk_mem t) (tk_len t) Hend) as (u & Hu & Hu').
  destruct (tk_mem t) as [|c mem]; [done|].
  cbn [app] in *. destruct (c =? SP); [|done]. rewrite Hu, Hu'. intros [= <- <-]. split; [done|]. left. by exists u, l.
Qed.
Lemma fwd_response_msg t : forward_only (response_msg t).
Proof.
  intros l _. unfold response_msg. destruct (_ =? 0); [done|]. destruct (tk_mem t); [done|].
  destruct (_ =? SP); [|done]. by destruct (strip_sp _ _).
Qed.
Hint Resolve fwd_response_msg : fwd.
Lemma fwd_status : forward_only PARSE_INT_3.
Proof. unfold PARSE_INT_3. auto 20 with fwd. Qed.
Hint Resolve fwd_status : fwd.

(** What follows a parser that asks for room. *)
Lemma asks_bind {A B} n (p : P A) (f : A -> P B) l :
  (buf ← pos; if decide (length buf < n)%nat then pfail (-2) else p ≫= f) l = (asks n p ≫= f) l.
Proof. unfold asks, mbind, P_bind. cbn [pos]. by destruct (decide _). Qed.
Lemma cut_asks_bind {A B} N N' n (p : P A) (f : A -> P B) (Q : B -> B -> Prop) : reads_exactly n p ->
  (forall a, cut true N' Q (f a) (f a)) -> (forall a, forward_only (f a)) ->
  cut N N' Q (buf ← pos; if decide (length buf < S n)%nat then pfail (-2) else p ≫= f)
             (buf ← pos; if decide (length buf < S n)%nat then pfail (-2) else p ≫= f).
Proof.
  intros Hp Hf Hfwd. eapply cut_agrees; [intros l _; apply asks_bind..|].
  eapply cut_bind; [by apply cut_asks| |done]. by intros a ? <-.
Qed.

Lemma strict_then_headers {A B} (p : P A) m n (f : A -> list phr_header -> B) : forward_only p ->
  strict (a ← p; hs ← parse_headers m n true; mret (f a hs)).
Proof. intros Hp. apply strict_then; [done|]. intros a. apply strict_first; [apply strict_headers|auto with fwd..]. Qed.
Lemma strict_decide {A} (Q : Prop) `{Decision Q} (p q : P A) : strict p -> strict q -> strict (if decide Q then p else q).
Proof. by destruct (decide Q). Qed.
Lemma cuts_asks_bind {A B} N n (p : P A) (f : A -> P B) (Q : B -> B -> Prop) : reads_exactly n p ->
  (forall a, cuts true Q (f a) (f a)) -> (forall a, strict (f a)) ->
  cuts N Q (buf ← pos; if decide (length buf < S n)%nat then pfail (-2) else p ≫= f)
           (buf ← pos; if decide (length buf < S n)%nat then pfail (-2) else p ≫= f).
Proof.
  intros Hp Hf Hst l a' r' Hb HN. rewrite !asks_bind.
  apply (cuts_bind N true eq Q (asks (S n) p) (asks (S n) p) f f); [by apply cut_asks| |done..]. by intros a ? <-.
Qed.

(** What remains of a response is strict, as headers follow. *)
Ltac strict_steps :=
  repeat first [apply strict_fail | apply strict_then_headers; solve [auto with fwd] |
    apply strict_first; [apply strict_headers|solve [auto with fwd]..] | apply strict_if | apply strict_decide |
    apply strict_then; [solve [auto with fwd]|intros ?]].
Lemma cuts_response m n : cuts false same_response (parse_response m n) (parse_response m n).
Proof.
  unfold parse_response. eapply cuts_bind; [apply cut_version|intros v ? <-|intros; strict_steps].
  eapply cuts_bind; [apply cut_peek|intros c ? <-|intros; strict_steps].
  apply cuts_if; [apply cuts_fail|]. eapply cuts_bind; [apply cut_skip_sp|intros ? ? _|intros; strict_steps].
  apply cuts_asks_bind; [apply status_exact|intros status|intros; strict_steps].
  eapply cuts_bind; [apply cut_refine; [intros *; apply to_eol_ended|apply cut_true_false, cut_to_eol]|intros t t' Ht|
    intros; strict_steps].
  eapply cuts_bind; [by apply (cut_response_msg false)|intros u u' Hu|intros; strict_steps].
  eapply cuts_map; [apply cuts_headers|]. intros hs hs' Hhs. by split_and!.
Qed.
Lemma cut_response m n : cut false false same_response (parse_response m n) (parse_response m n).
Proof. apply cuts_cut; [unfold parse_response; auto 30 with fwd|apply cuts_response]. Qed.

(** In short: a parser that uses up more than [l] finds [l] incomplete. *)
Lemma cut_incomplete {A} (R : A -> A -> Prop) (p : P A) l a r : cut false false R p p -> bytes (l ++ e) ->
  p (l ++ e) = Got a r -> (length r < length e)%nat -> p l = Fail (-2).
Proof.
  intros H Hb E Hlen. destruct (H l a r Hb I E) as [_ [(? & r0 & _ & -> & _)|[? _]]]; [|done].
  rewrite length_app in Hlen. lia.
Qed.
End Cut.

(** ** What a message consists of

    Every CR is followed by LF, and the message ends in a blank line. *)

Fixpoint cr_ok (l : list Z) : Prop :=
  match l with
  | [] => True
  | c :: l' => (c = CR -> exists t, l' = LF :: t) /\ cr_ok l'
  end.

Lemma cr_ok_app a b : cr_ok a -> cr_ok b -> cr_ok (a ++ b).
Proof.
  induction a as [|c a IH]; [done|]. cbn. intros [Hc Ha] Hb. split; [|auto].
  intros [t ->]%Hc. by exists (t ++ b).
Qed.
Lemma cr_ok_plain l : Forall (fun c => c <> CR) l -> cr_ok l.
Proof. induction 1; cbn; [done|]. done. Qed.
Lemma cr_ok_drop n l : cr_ok l -> cr_ok (drop n l).
Proof. revert l. induction n as [|n IH]; intros [|c l]; cbn; [done..|]. intros [_ H]. auto. Qed.

Lemma cr_ok_cons c l : c <> CR -> cr_ok l -> cr_ok (c :: l).
Proof. by split. Qed.

(** A blank line, and a text whose last line is followed by one. *)
Definition blank (b : list Z) : Prop := b = [LF] \/ b = [CR; LF].
Definition ends_blank (t : list Z) : Prop := exists u b, t = u ++ LF :: b /\ blank b.

(** [cnt] is the number of line ends just seen. *)
Lemma complete_loop_found n cnt t rest : (length t <= n)%nat -> cr_ok t -> (cnt = 0 /\ ends_blank t) \/ (cnt = 1 /\ ends_blank (LF :: t)) ->
  exists l', complete_loop cnt (t ++ rest) = Got tt l'.
Proof.
  revert cnt t. induction n as [|n IH]; intros cnt [|c t] Hn Hok Hend; cbn [length] in Hn; try lia.
  1, 2: destruct Hend as [[_ (u & b & E & [->| ->])]|[_ (u & b & E & [->| ->])]]; apply (f_equal length) in E;
    rewrite length_app in E; cbn in E; lia.
  destruct Hok as [Hcr Hok]. cbn [app complete_loop].
  destruct (Z.eqb_spec c CR) as [->|Hc].
  - destruct (Hcr eq_refl) as [t' ->]. cbn [app]. destruct Hok as [_ Hok].
    change (LF =? LF) with true. cbn match. destruct Hend as [[-> (u & b & E & Hb)]|[-> _]]; [|by eexists].
    change (0 + 1 =? 2) with false. cbn match. apply IH; [cbn in Hn; lia|done|]. right. split; [done|].
    destruct u as [|? u]; [done|]. injection E as <- E. by exists u, b.
  - destruct (Z.eqb_spec c LF) as [->|Hl].
    + destruct Hend as [[-> Hend]|[-> _]]; [|by eexists]. change (0 + 1 =? 2) with false. cbn match.
      apply IH; [lia|done|]. by right.
    + apply IH; [lia|done|]. left. split; [done|].
      assert (ends_blank (c :: t)) as (u & b & E & Hb).
      { destruct Hend as [[_ H]|[_ (u & b & E & Hb)]]; [done|]. destruct u as [|? u]; [|injection E as <- E; by exists u, b].
        injection E as <-. by destruct Hb as [[= -> ->]|[= -> ->]]. }
      destruct u as [|? u]; [by injection E as ->|]. injection E as -> E. by exists u, b.
Qed.

(** Any part of it is never malformed. *)
Lemma complete_loop_part n cnt t j : (length t <= n)%nat -> cr_ok t ->
  match complete_loop cnt (take j t) with Got _ _ => True | Fail r => r = -2 | Oob => False end.
Proof.
  revert cnt t j. induction n as [|n IH]; intros cnt [|c t] j Hn Hok; cbn [length] in Hn; try lia.
  1, 2: by rewrite take_nil. destruct j as [|j]; [done|]. destruct Hok as [Hcr Hok]. cbn [take complete_loop].
  destruct (Z.eqb_spec c CR) as [->|Hc].
  - destruct (Hcr eq_refl) as [t' ->]. destruct Hok as [_ Hok]. destruct j as [|j]; [done|]. cbn [take].
    change (LF =? LF) with true. cbn match. destruct (_ =? 2); [done|]. apply IH; [cbn in Hn; lia|done].
  - destruct (c =? LF); [destruct (_ =? 2); [done|]|]; (apply IH; [lia|done]).
Qed.

Lemma ends_blank_drop k t : ends_blank t -> (k + 3 <= length t)%nat -> ends_blank (drop k t).
Proof.
  intros (u & b & -> & Hb) Hk. exists (drop k u), b. split; [|done].
  assert (length b <= 2)%nat by (destruct Hb as [-> | ->]; cbn; lia).
  rewrite length_app in Hk. cbn in Hk. rewrite drop_app_le by lia. done.
Qed.

(** The search for the blank line from [last_len] on. *)
Lemma is_complete_found last_len t rest : cr_ok t -> ends_blank t -> 0 <= last_len <= Z.of_nat (length t) ->
  exists l', is_complete last_len (t ++ rest) = Got tt l'.
Proof.
  intros Hok Hend Hl. unfold is_complete. destruct (Z.ltb_spec last_len 3) as [|H3].
  - eapply complete_loop_found; [done|done|by left].
  - rewrite length_app. rewrite (proj2 (Z.leb_le _ _)) by lia. rewrite drop_app_le by lia.
    eapply complete_loop_found; [done|by apply cr_ok_drop|]. left. split; [done|].
    apply ends_blank_drop; [done|lia].
Qed.
Lemma is_complete_part last_len t j : cr_ok t -> 0 <= last_len <= Z.of_nat j -> (j <= length t)%nat ->
  match is_complete last_len (take j t) with Got _ _ => True | Fail r => r = -2 | Oob => False end.
Proof.
  intros Hok Hl Hj. unfold is_complete. destruct (last_len <? 3); [by eapply complete_loop_part|].
  rewrite length_take, (proj2 (Z.leb_le _ _)) by lia.
  rewrite skipn_firstn_comm. eapply complete_loop_part; [done|by apply cr_ok_drop].
Qed.

(** [eats Pre Q p]: where [Pre] holds, [p] consumes a text without a lone CR
    that satisfies [Q], as does what it leaves. *)
Definition eats {A} (Pre : list Z -> Prop) (Q : list Z -> list Z -> Prop) (p : P A) : Prop :=
  forall l a r, bytes l -> Pre l -> p l = Got a r -> exists t, l = t ++ r /\ cr_ok t /\ Q t r.
Definition anything (l : list Z) : Prop := True.
Definition starts (c : Z) (l : list Z) : Prop := exists t, l = c :: t.

Lemma eats_bind {A B} Pre Q1 Q (p : P A) (f : A -> P B) : eats Pre Q1 p ->
  (forall a t1, eats (Q1 t1) (fun t r => Q (t1 ++ t) r) (f a)) -> eats Pre Q (p ≫= f).
Proof.
  intros Hp Hf l b r Hb HPre. unfold mbind, P_bind. destruct (p l) as [a l1|z|] eqn:E; [|done|done].
  destruct (Hp l a l1 Hb HPre E) as (t1 & -> & Hc1 & HQ1). intros E2.
  apply Forall_app in Hb as Hb'. destruct Hb' as [_ Hb1].
  destruct (Hf a t1 l1 b r Hb1 HQ1 E2) as (t & -> & Hc & HQ). exists (t1 ++ t). rewrite app_assoc.
  split; [done|]. split; [by apply cr_ok_app|done].
Qed.
Lemma eats_stays {A} (Pre : list Z -> Prop) (Q : list Z -> list Z -> Prop) (p : P A) :
  (forall l a r, p l = Got a r -> r = l) -> (forall l, Pre l -> Q [] l) -> eats Pre Q p.
Proof. intros Hp HQ l a r Hb HPre E. rewrite (Hp l a r E). exists []. split_and!; [done|done|by apply HQ]. Qed.
Lemma eats_ret {A} (Pre : list Z -> Prop) (Q : list Z -> list Z -> Prop) (a : A) :
  (forall l, Pre l -> Q [] l) -> eats Pre Q (mret a).
Proof. apply eats_stays. by intros l ? r [= _ <-]. Qed.
Lemma eats_fail {A} Pre Q z : eats (A := A) Pre Q (pfail z).
Proof. by intros l a r _ _ [=]. Qed.
Lemma eats_pos Pre : eats Pre (fun t r => t = [] /\ Pre r) pos.
Proof. apply eats_stays; [by intros l ? r [= _ <-]|done]. Qed.
Lemma eats_check_eof Pre : eats Pre (fun t r => t = [] /\ Pre r) CHECK_EOF.
Proof. apply eats_stays; [|done]. intros [|c l] a r; [done|]. by intros [= _ <-]. Qed.
Lemma eats_peek Pre : eats Pre (fun t r => t = [] /\ Pre r) peek.
Proof. apply eats_stays; [|done]. intros [|c l] a r; [done|]. by intros [= _ <-]. Qed.
Lemma eats_advance c : c <> CR -> eats (starts c) (fun t r => t = [c]) advance.
Proof. intros Hc l a r Hb [t ->] [= <- <-]. exists [c]. split; [done|]. split; [|done]. by apply cr_ok_cons. Qed.
Lemma eats_if {A} Pre Q (b : bool) (p q : P A) : eats Pre Q p -> eats Pre Q q -> eats Pre Q (if b then p else q).
Proof. by destruct b. Qed.
Lemma eats_mono {A} (Pre Pre' : list Z -> Prop) (Q Q' : list Z -> list Z -> Prop) (p : P A) :
  (forall l, Pre l -> Pre' l) -> (forall t r, Q' t r -> Q t r) -> eats Pre' Q' p -> eats Pre Q p.
Proof.
  intros HP HQ H l a r Hb HPre E. destruct (H l a r Hb (HP _ HPre) E) as (t & ? & ? & ?). exists t. auto.
Qed.

Definition eol (t : list Z) : Prop := t = [CR; LF] \/ t = [LF].
Lemma eats_eol_or {A} Pre Q (yes no : P A) :
  (forall t1, eol t1 -> eats anything (fun t r => Q (t1 ++ t) r) yes) -> eats Pre Q no -> eats Pre Q (eol_or yes no).
Proof.
  intros Hyes Hno l a r Hb HPre. destruct l as [|c l]; [done|]. unfold eol_or, mbind, P_bind. cbn [peek].
  destruct (Z.eqb_spec c CR) as [->|]; [|destruct (Z.eqb_spec c LF) as [->|]; [|by apply Hno]].
  - cbn [advance]. destruct l as [|d l]; [done|].
    unfold EXPECT_CHAR, EXPECT_CHAR_NO_CHECK, mbind, P_bind. cbn [CHECK_EOF next].
    destruct (Z.eqb_spec d LF) as [->|]; [|done]. cbn [mret P_ret]. intros E.
    inversion Hb as [|? ? _ Hb1]; subst. inversion Hb1 as [|? ? _ Hb2]; subst.
    destruct (Hyes _ (or_introl eq_refl) l a r Hb2 I E) as (t & -> & Hc & HQ). exists (CR :: LF :: t).
    split; [done|]. split; [|done]. split; [by eexists|]. by split.
  - cbn [advance]. intros E. inversion Hb as [|? ? _ Hb1]; subst.
    destruct (Hyes _ (or_intror eq_refl) l a r Hb1 I E) as (t & -> & Hc & HQ). exists (LF :: t).
    split; [done|]. split; [|done]. by split.
Qed.

(** A parser with a postcondition. *)
Lemma eats_parses {A} Pre (Q : list Z -> list Z -> Prop) (p : P A) :
  (forall l, bytes l -> Pre l -> parses (fun _ r => exists t, l = t ++ r /\ cr_ok t /\ Q t r) p l) -> eats Pre Q p.
Proof. intros H l a r Hb HPre E. specialize (H l Hb HPre). unfold parses in H. rewrite E in H. by destruct H. Qed.

Lemma token_char_plain c : token_char c = true -> c <> CR.
Proof. by intros E ->. Qed.
Lemma eats_token m ch : ch = SP \/ ch = COLON -> eats anything (fun t r => starts ch r) (parse_token m ch).
Proof.
  intros Hc. apply eats_parses. intros l Hb _. eapply parses_mono; [|by apply parses_token].
  intros a r _ (pre & t & -> & -> & _ & Hp). exists pre. split; [done|]. split; [|by eexists].
  apply cr_ok_plain. eapply Forall_impl; [exact Hp|]. intros c [H _]. by apply token_char_plain.
Qed.
Lemma eats_skip_sp : eats (starts SP) (fun t r => True) skip_sp.
Proof.
  intros l. induction l as [|c l IH]; intros [] r Hb [t E]; [done|]. injection E as -> ->. destruct t as [|d t]; [done|].
  change (skip_sp (SP :: d :: t)) with (if d =? SP then skip_sp (d :: t) else Got tt (d :: t)).
  destruct (Z.eqb_spec d SP) as [->|]; intros E.
  - destruct (IH tt r ltac:(by inversion Hb) ltac:(by eexists) E) as (u & Hu & Hok & _). exists (SP :: u).
    rewrite Hu. split; [done|]. split; [by apply cr_ok_cons|done].
  - injection E as <-. exists [SP]. split; [done|]. split; [by apply cr_ok_cons|done].
Qed.

Lemma advance_loop_plain c : negb (IS_PRINTABLE_ASCII c) && ((c <? 32) || (c =? DEL)) = false -> c <> CR.
Proof. by intros E ->. Qed.
Lemma eats_advance_loop : eats anything (fun t r => starts SP r) advance_loop.
Proof.
  intros l. induction l as [|c l IH]; intros [] r Hb _; [done|]. cbn [advance_loop].
  destruct (Z.eqb_spec c SP) as [->|]; [intros [= <-]; exists []; split_and!; [done|done|by eexists]|].
  destruct (negb _ && _) eqn:Ec; [done|]. destruct l as [|d l]; [done|]. intros E.
  destruct (IH tt r ltac:(by inversion Hb) I E) as (t & Ht & Hok & Hr). exists (c :: t). rewrite Ht.
  split; [done|]. split; [|done]. apply cr_ok_cons; [by apply advance_loop_plain|done].
Qed.
Lemma eats_ADVANCE_TOKEN m : eats anything (fun t r => starts SP r) (ADVANCE_TOKEN m).
Proof.
  intros l a r Hb HPre. rewrite ADVANCE_TOKEN_plain by done. revert l a r Hb HPre. change (eats anything (fun t r => starts SP r) advance_plain).
  unfold advance_plain. eapply eats_bind; [apply eats_pos|]. intros a t1.
  eapply eats_bind; [eapply eats_mono; [| |apply (eats_check_eof anything)]; [done|]; intros t r H; exact (conj H I)|]. intros _ t2.
  eapply eats_bind; [eapply eats_mono; [| |apply eats_advance_loop]; [done|]; intros t r H; exact H|]. intros _ t3.
  eapply eats_bind; [apply eats_pos|]. intros b t4. apply eats_ret. intros l [_ H]. exact H.
Qed.

Lemma eol_slow_plain c : negb (IS_PRINTABLE_ASCII c) && is_ctl c = false -> c <> CR.
Proof. by intros E ->. Qed.
Lemma eats_to_ctl m : eats anything (fun t r => True) (to_ctl m).
Proof.
  intros l a r Hb _. rewrite to_ctl_slow by done. revert r. induction l as [|c l IH]; intros r; [done|]. cbn [eol_slow].
  destruct (negb _ && _) eqn:Ec; [intros [= _ <-]; exists []; by split_and!|]. intros E.
  destruct (IH ltac:(by inversion Hb) r E) as (t & -> & Hok & _). exists (c :: t).
  split; [done|]. split; [|done]. apply cr_ok_cons; [by apply eol_slow_plain|done].
Qed.

(** A line: it ends in LF. *)
Definition ends_lf (t : list Z) : Prop := exists w, t = w ++ [LF].
Lemma eol_lf t : eol t -> ends_lf t.
Proof. intros [-> | ->]; [by exists [CR]|by exists []]. Qed.
Lemma ends_lf_app a b : ends_lf b -> ends_lf (a ++ b).
Proof. intros [w ->]. exists (a ++ w). by rewrite app_assoc. Qed.
Lemma eats_to_eol m : eats anything (fun t r => ends_lf t) (get_token_to_eol m).
Proof.
  intros l a r Hb _. unfold get_token_to_eol. unfold mbind at 1, P_bind at 1. cbn [pos].
  unfold mbind at 1, P_bind at 1. destruct (to_ctl m l) as [u l1|z|] eqn:E; [|done|done].
  destruct (eats_to_ctl m l u l1 Hb I E) as (t1 & -> & Hc1 & _). intros E2.
  assert (bytes l1) as Hb1 by (eapply Forall_app in Hb; by destruct Hb).
  enough (exists t, l1 = t ++ r /\ cr_ok t /\ eol t) as (t & -> & Hc & Ht).
  { exists (t1 ++ t). rewrite app_assoc. split; [done|]. split; [by apply cr_ok_app|]. by apply ends_lf_app, eol_lf. }
  clear E Hb. destruct l1 as [|c l1]; [done|].
  unfold EXPECT_CHAR, EXPECT_CHAR_NO_CHECK, mbind, P_bind, advance, CHECK_EOF, next, peek, pos in E2. destruct (Z.eqb_spec c CR) as [->|].
  - destruct l1 as [|d l1]; [done|]. destruct (Z.eqb_spec d LF) as [->|]; [|done]. injection E2 as _ <-.
    exists [CR; LF]. split; [done|]. split; [|by left]. split; [by eexists|]. by apply cr_ok_cons.
  - destruct (Z.eqb_spec c LF) as [->|]; [|done]. injection E2 as _ <-.
    exists [LF]. split; [done|]. split; [|by right]. by apply cr_ok_cons.
Qed.

Lemma blanks_plain c : is_blank c = true -> c <> CR.
Proof. by intros E ->. Qed.
Lemma eats_skip_blanks : eats anything (fun t r => True) skip_blanks.
Proof.
  intros l [] r Hb _. revert r. induction l as [|c l IH]; intros r; [done|]. cbn [skip_blanks].
  destruct (is_blank c) eqn:Ec; [|intros [= <-]; exists []; by split_and!]. intros E.
  destruct (IH ltac:(by inversion Hb) r E) as (t & -> & Hok & _). exists (c :: t).
  split; [done|]. split; [|done]. apply cr_ok_cons; [by apply blanks_plain|done].
Qed.

Lemma digit_plain c : (c <? 48) || (57 <? c) = false -> c <> CR.
Proof. unfold CR. lia. Qed.
Lemma eats_PARSE_INT mul : eats anything (fun t r => True) (PARSE_INT mul).
Proof.
  intros l a r Hb _. destruct l as [|c l]; [done|]. unfold PARSE_INT, mbind, P_bind. cbn [next].
  destruct ((c <? 48) || _) eqn:E; [done|]. intros [= _ <-]. exists [c]. split; [done|]. split; [|done].
  apply cr_ok_cons; [by apply digit_plain|done].
Qed.
Lemma eats_expect ch : ch <> CR -> eats anything (fun t r => True) (EXPECT_CHAR_NO_CHECK ch).
Proof.
  intros Hc l a r Hb _. destruct l as [|c l]; [done|]. unfold EXPECT_CHAR_NO_CHECK, mbind, P_bind. cbn [next].
  destruct (Z.eqb_spec c ch) as [->|]; [|done]. intros [= _ <-]. exists [ch]. split; [done|]. split; [|done]. by apply cr_ok_cons.
Qed.
(** Where only the absence of a lone CR matters. *)
Lemma eats_then {A B} (Q : list Z -> list Z -> Prop) (p : P A) (f : A -> P B) : eats anything (fun t r => True) p ->
  (forall a, eats anything (fun t r => True) (f a)) -> eats anything (fun t r => True) (p ≫= f).
Proof.
  intros Hp Hf. eapply eats_bind; [exact Hp|]. intros a t1. eapply eats_mono; [| |apply Hf]; done.
Qed.
Lemma eats_version : eats anything (fun t r => True) parse_http_version.
Proof.
  unfold parse_http_version. eapply eats_bind; [apply eats_pos|]. intros buf t1.
  destruct (decide _); [apply eats_fail|]. eapply (eats_mono _ anything _ (fun _ _ => True)); [done|done|].
  repeat (apply (eats_then (fun _ _ => True)); [by apply eats_expect|intros _]). apply eats_PARSE_INT.
Qed.
Lemma eats_status : eats anything (fun t r => True) PARSE_INT_3.
Proof.
  unfold PARSE_INT_3. repeat (apply (eats_then (fun _ _ => True)); [apply eats_PARSE_INT|intros ?]). by apply eats_ret.
Qed.

Lemma ends_blank_app a b : ends_blank b -> ends_blank (a ++ b).
Proof. intros (u & c & -> & Hc). exists (a ++ u), c. by rewrite app_assoc. Qed.
Lemma ends_blank_after a b : ends_lf a -> ends_blank (LF :: b) -> ends_blank (a ++ b).
Proof. intros [w ->] H. rewrite <- app_assoc. by apply ends_blank_app. Qed.

(** A part of a message that is followed by its end. *)
Lemma eats_before {A B} (Pre Mid : list Z -> Prop) (p : P A) (f : A -> P B) : eats Pre (fun _ r => Mid r) p ->
  (forall a, eats Mid (fun t _ => ends_blank t) (f a)) -> eats Pre (fun t _ => ends_blank t) (p ≫= f).
Proof.
  intros Hp Hf. eapply eats_bind; [exact Hp|]. intros a t1. eapply eats_mono; [| |apply Hf]; [done|].
  intros t r. apply ends_blank_app.
Qed.
Lemma eats_last_line {A B} (Pre : list Z -> Prop) (p : P A) (f : A -> P B) : eats Pre (fun t _ => ends_lf t) p ->
  (forall a, eats anything (fun t _ => ends_blank (LF :: t)) (f a)) -> eats Pre (fun t _ => ends_blank t) (p ≫= f).
Proof.
  intros Hp Hf. eapply eats_bind; [exact Hp|]. intros a t1 l b r Hb Ht E.
  destruct (Hf a l b r Hb I E) as (t & ? & ? & ?). exists t. split; [done|]. split; [done|]. by apply ends_blank_after.
Qed.
Lemma eats_stay {A B} Pre Q (p : P A) (f : A -> P B) : (forall l a r, p l = Got a r -> r = l) ->
  (forall a, eats Pre Q (f a)) -> eats Pre Q (p ≫= f).
Proof.
  intros Hp Hf l b r Hb HPre. unfold mbind, P_bind. destruct (p l) as [a l1|z|] eqn:E; [|done|done].
  rewrite (Hp l a l1 E). by apply Hf.
Qed.
Lemma pos_stays l a r : pos l = Got a r -> r = l.
Proof. by intros [= _ <-]. Qed.
Lemma eof_stays l a r : CHECK_EOF l = Got a r -> r = l.
Proof. destruct l; [done|]. by intros [= _ <-]. Qed.
Lemma peek_stays l a r : peek l = Got a r -> r = l.
Proof. destruct l; [done|]. by intros [= _ <-]. Qed.
Lemma eats_anywhere {A} (Pre : list Z -> Prop) Q (p : P A) : eats anything Q p -> eats Pre Q p.
Proof. apply eats_mono; done. Qed.

Lemma eats_header_name m first : eats anything (fun t r => True) (parse_header_name m first).
Proof.
  unfold parse_header_name. eapply eats_bind; [apply (eats_peek anything)|]. intros c t1.
  apply eats_anywhere. apply eats_if; [|by apply eats_ret].
  eapply eats_bind; [apply eats_token; by right|]. intros t t2. apply eats_if; [apply eats_fail|].
  eapply eats_bind; [by apply eats_advance|]. intros _ t3. apply eats_anywhere.
  eapply eats_bind; [apply eats_skip_blanks|]. intros _ t4. by apply eats_ret.
Qed.

Lemma eats_header_line m first : eats anything (fun t _ => ends_lf t) (name ← parse_header_name m first; value ← get_token_to_eol m; mret (name, value)).
Proof.
  eapply eats_bind; [apply eats_header_name|]. intros name t1.
  eapply (eats_bind _ (fun t _ => ends_lf t)); [apply eats_anywhere, eats_to_eol|]. intros value t2. apply eats_ret.
  intros l H. rewrite app_nil_r. by apply ends_lf_app.
Qed.

(** The headers, behind the end of a line. *)
Lemma eats_headers m room first : eats anything (fun t _ => ends_blank (LF :: t)) (parse_headers m room first).
Proof.
  assert (forall t1, eol t1 -> eats anything (fun t _ => ends_blank (LF :: t1 ++ t)) (mret (M := P) ([] : list phr_header))) as Hend.
  { intros t1 Ht. apply eats_ret. intros l _. rewrite app_nil_r. exists [], t1. split; [done|].
    destruct Ht as [-> | ->]; [by right|by left]. }
  revert first. induction room as [|room IH]; intros first; cbn [parse_headers];
    (apply eats_stay; [apply eof_stays|]; intros _; apply eats_eol_or; [exact Hend|]); [apply eats_fail|].
  eapply (eats_mono _ anything _ (fun t _ => ends_blank t)); [done|intros t _ H; by apply (ends_blank_app [LF])|].
  intros l hs r Hb _ E.
  assert ((nv ← (name ← parse_header_name m first; value ← get_token_to_eol m; mret (name, value));
    hs ← parse_headers m room false; mret (mkHeader (fst nv) (trim_value (snd nv)) :: hs)) l = Got hs r) as E'.
  { rewrite <- E. unfold mbind, P_bind. destruct (parse_header_name m first l) as [nm l1|z|]; [|done|done].
    by destruct (get_token_to_eol m l1). }
  revert E'. apply eats_last_line with (Pre := anything); [apply eats_header_line| |done|done]. intros [name value].
  eapply eats_bind; [apply IH|]. intros hs' t1. apply eats_ret. intros l' H. by rewrite app_nil_r.
Qed.

Lemma eats_request m n : eats anything (fun t _ => ends_blank t) (parse_request m n).
Proof.
  unfold parse_request. apply eats_stay; [apply eof_stays|]. intros _.
  eapply (eats_before _ anything); [apply eats_eol_or; [intros t1 _|]; by apply eats_ret|]. intros _.
  eapply eats_before; [apply eats_token; by left|]. intros method.
  eapply (eats_before _ anything); [eapply eats_mono; [| |apply eats_skip_sp]; done|]. intros _.
  eapply eats_before; [apply eats_ADVANCE_TOKEN|]. intros path.
  eapply (eats_before _ anything); [eapply eats_mono; [| |apply eats_skip_sp]; done|]. intros _.
  apply eats_if; [apply eats_fail|].
  eapply (eats_before _ anything); [eapply eats_mono; [| |apply eats_version]; done|]. intros minor.
  eapply eats_last_line; [apply eats_eol_or; [|apply eats_fail]|].
  - intros t1 Ht. apply eats_ret. intros l _. rewrite app_nil_r. by apply eol_lf.
  - intros _. eapply eats_bind; [apply eats_headers|]. intros hs t1. apply eats_ret. intros l H. by rewrite app_nil_r.
Qed.

Lemma response_msg_stays t l a r : response_msg t l = Got a r -> r = l.
Proof.
  unfold response_msg. destruct (_ =? 0); [by intros [= _ <-]|]. destruct (tk_mem t); [done|].
  destruct (_ =? SP); [|done]. destruct (strip_sp _ _); [by intros [= _ <-]|done].
Qed.
Lemma eats_if_peek {A} (p : P A) : eats (starts SP) (fun t _ => ends_blank t) p ->
  eats anything (fun t _ => ends_blank t) (c ← peek; if negb (c =? SP) then pfail (-1) else p).
Proof.
  intros Hp l a r Hb _. destruct l as [|c l]; [done|]. unfold mbind, P_bind. cbn [peek].
  destruct (Z.eqb_spec c SP) as [->|]; [|done]. apply Hp; [done|by eexists].
Qed.
Lemma eats_response m n : eats anything (fun t _ => ends_blank t) (parse_response m n).
Proof.
  unfold parse_response. eapply (eats_before _ anything); [eapply eats_mono; [| |apply eats_version]; done|]. intros minor.
  apply eats_if_peek. eapply (eats_before _ anything); [eapply eats_mono; [| |apply eats_skip_sp]; done|]. intros _.
  apply eats_stay; [apply pos_stays|]. intros buf. destruct (decide _); [apply eats_fail|].
  eapply (eats_before _ anything); [eapply eats_mono; [| |apply eats_status]; done|]. intros status.
  eapply eats_last_line; [apply eats_to_eol|]. intros line. apply eats_stay; [apply response_msg_stays|]. intros msg.
  eapply eats_bind; [apply eats_headers|]. intros hs t1. apply eats_ret. intros l H. by rewrite app_nil_r.
Qed.

(** ** Text that arrives in pieces *)

(** The entry points: [p] parses a message. *)
Lemma resumes {A} (p : P A) last_len l j n a r : 
  (forall e, cut e false false eq_or_all p p) -> eats anything (fun t _ => ends_blank t) p -> bytes l ->
  (_ ← checked_complete 0; a ← p; consumed l a) l = Got (n, a) r -> 0 <= last_len ->
  (last_len <= Z.of_nat j < n -> (_ ← checked_complete last_len; a ← p; consumed (take j l) a) (take j l) = Fail (-2)) /\
  (last_len <= n -> (_ ← checked_complete last_len; a ← p; consumed l a) l = Got (n, a) r).
Proof.
  intros Hcut Heats Hb E Hlast. unfold mbind, P_bind, checked_complete in *. change (0 =? 0) with true in E. cbn iota in E.
  destruct (p l) as [a' r'|z|] eqn:Ep; [|done|done]. injection E as En <- <-.
  destruct (Heats l a' r' Hb I Ep) as (t & -> & Hok & Hend). unfold ptr_diff in En. rewrite length_app in En.
  assert (n = Z.of_nat (length t)) as -> by lia. split.
  - intros Hj. assert (j < length t)%nat by lia. rewrite take_app_le by lia.
    assert (p (take j t) = Fail (-2)) as Hp.
    { eapply (cut_incomplete (drop j t ++ r')); [apply Hcut|by rewrite app_assoc, take_drop|by rewrite app_assoc, take_drop|].
      rewrite length_app, length_drop. lia. }
    destruct (last_len =? 0); [by rewrite Hp|].
    pose proof (is_complete_part last_len t j Hok ltac:(lia) ltac:(lia)) as Hc.
    destruct (is_complete _ _); [by rewrite Hp|by rewrite Hc|done].
  - intros Hl. assert (consumed (t ++ r') a' r' = Got (Z.of_nat (length t), a') r') as Hc.
    { unfold consumed, ptr_diff. by rewrite length_app, En. }
    destruct (last_len =? 0); [by rewrite Ep|].
    destruct (is_complete_found last_len t r' Hok Hend ltac:(lia)) as [l' ->]. by rewrite Ep.
Qed.

Lemma request_resumes m max_headers last_len l j n q r : bytes l -> 0 <= last_len ->
  phr_parse_request m max_headers 0 l = Got (n, q) r ->
  (last_len <= Z.of_nat j < n -> phr_parse_request m max_headers last_len (take j l) = Fail (-2)) /\
  (last_len <= n -> phr_parse_request m max_headers last_len l = Got (n, q) r).
Proof. intros Hb Hlast E. apply resumes; [intros e; apply cut_request|apply eats_request|done..]. Qed.

Lemma response_resumes m max_headers last_len l j n q r : bytes l -> 0 <= last_len ->
  phr_parse_response m max_headers 0 l = Got (n, q) r ->
  (last_len <= Z.of_nat j < n -> phr_parse_response m max_headers last_len (take j l) = Fail (-2)) /\
  (last_len <= n -> phr_parse_response m max_headers last_len l = Got (n, q) r).
Proof. intros Hb Hlast E. apply resumes; [intros e; eapply cut_any, cut_response|apply eats_response|done..]. Qed.

(** A response is found as soon as its header is there; what follows it only
    lies behind its tokens. *)
Lemma response_without_rest m max_headers l j n q r : bytes l ->
  phr_parse_response m max_headers 0 l = Got (n, q) r -> n <= Z.of_nat j ->
  exists q' r', phr_parse_response m max_headers 0 (take j l) = Got (n, q') r' /\ same_response (drop j l) q' q.
Proof.
  intros Hb E Hj. unfold phr_parse_response, checked_complete, mbind, P_bind in *. change (0 =? 0) with true in *. cbn iota in *.
  destruct (parse_response m max_headers l) as [q1 r1|z|] eqn:Ep; [|done|done]. injection E as En -> ->.
  rewrite <- (take_drop j l) in Hb, Ep. unfold ptr_diff in En.
  assert (length l = (length (take j l) + length (drop j l))%nat) as Hl by (by rewrite <- length_app, take_drop).
  destruct (cuts_response (drop j l) m max_headers (take j l) q r Hb I Ep) as [(q' & r' & -> & -> & Hq)|[_ Hlen]].
  - exists q', r'. split; [|done]. unfold consumed, ptr_diff. rewrite <- En, length_app. do 2 f_equal. lia.
  - exfalso. rewrite length_take, length_drop in *. lia.
Qed.
Lemma response_prefix m max_headers l n q r : bytes l -> Z.of_nat (length l) < 2 ^ 64 ->
  phr_parse_response m max_headers 0 l = Got (n, q) r ->
  exists q0, 0 <= n <= Z.of_nat (length l) /\ response_ok max_headers (take (Z.to_nat n) l) q0 /\
    forall j last_len, 0 <= last_len ->
    (last_len <= Z.of_nat j < n -> phr_parse_response m max_headers last_len (take j l) = Fail (-2)) /\
    (last_len <= n <= Z.of_nat j -> exists q' r' e,
      phr_parse_response m max_headers last_len (take j l) = Got (n, q') r' /\ same_response e q0 q').
Proof.
  intros Hb Hlen E. destruct (response_without_rest m max_headers l (Z.to_nat n) n q r Hb E ltac:(lia)) as (q0 & r0 & E0 & _).
  exists q0. pose proof (response_parser_ok m max_headers 0 l Hb Hlen ltac:(lia) ltac:(lia)) as Hn. rewrite E in Hn.
  pose proof (response_parser_ok m max_headers 0 (take (Z.to_nat n) l) ltac:(by apply Forall_take)
    ltac:(rewrite length_take; lia) ltac:(lia) ltac:(lia)) as Hok. rewrite E0 in Hok.
  split; [by destruct Hn|]. split; [by destruct Hok as (_ & _ & ?)|]. clear Hn Hok.
  intros j last_len Hlast. split; [by apply (response_resumes m max_headers last_len l j n q r)|]. intros [Hn Hj].
  destruct (response_without_rest m max_headers l j n q r Hb E Hj) as (q' & r' & E' & _).
  assert (bytes (take j l)) as Hbj by (by apply Forall_take).
  destruct (response_without_rest m max_headers (take j l) (Z.to_nat n) n q' r' Hbj E' ltac:(lia)) as (q1 & r1 & E1 & H1).
  rewrite take_take, Nat.min_l in E1 by lia. rewrite E0 in E1. injection E1 as <- <-.
  eexists q', r', _. split; [|exact H1]. by apply (response_resumes m max_headers last_len (take j l) 0 n q' r').
Qed.

(** C31: a message may arrive in any pieces. Whenever the parser is called on
    part of a request or a response that is well formed as a whole, it
    answers -2, more is to come, and never that it is malformed; and called
    again on the whole, with any [last_len] that was not yet the whole, it
    finds the message as if it had come at once. *)
Theorem parser_resumes m max_headers last_len l j : bytes l -> 0 <= last_len ->
  (forall n q r, phr_parse_request m max_headers 0 l = Got (n, q) r ->
    (last_len <= Z.of_nat j < n -> phr_parse_request m max_headers last_len (take j l) = Fail (-2)) /\
    (last_len <= n -> phr_parse_request m max_headers last_len l = Got (n, q) r)) /\
  (forall n q r, phr_parse_response m max_headers 0 l = Got (n, q) r ->
    (last_len <= Z.of_nat j < n -> phr_parse_response m max_headers last_len (take j l) = Fail (-2)) /\
    (last_len <= n -> phr_parse_response m max_headers last_len l = Got (n, q) r)).
Proof.
  intros Hb Hlast. split; intros n q r E.
  - by apply request_resumes.
  - by apply response_resumes.
Qed.

Lemma parser_resumes_witness :
  let l := bytes_of_string "GET /geo HTTP/1.1" ++ [13; 10] ++ bytes_of_string "a: b" ++ [13; 10; 13; 10] in
  (exists q, phr_parse_request SSE42 10 0 l = Got (27, q) [] /\ phr_parse_request SSE42 10 26 l = Got (27, q) []) /\
  phr_parse_request SSE42 10 21 (take 25 l) = Fail (-2).
Proof.
  intros l. assert (match phr_parse_request SSE42 10 0 l with Got (n, _) r => n = 27 /\ r = [] | _ => False end) as E
    by (vm_compute; by split).
  destruct (phr_parse_request SSE42 10 0 l) as [[n q] r|z|] eqn:Eq; [|done|done]. destruct E as [-> ->].
  assert (bytes l) as Hb by (refine (bool_decide_unpack (Forall _ l) _); vm_compute; exact I).
  split.
  - exists q. split; [done|]. apply (parser_resumes SSE42 10 26 l 0 Hb ltac:(lia)); [exact Eq|lia].
  - apply (parser_resumes SSE42 10 21 l 25 Hb ltac:(lia)) with (n := 27) (q := q) (r := []); [exact Eq|lia].
Defined.
