(* ===== verification/PicoHttpFormat.v ===== *)
(** * The HTTP/1 parser on well-formed text

    What the parser computes on a request line, a status line and a block of
    headers that are laid out as the writer lays them out. *)

From Stdlib Require Import ZArith Lia Ascii.
From stdpp Require Import base strings list.
From S2P Require Import Prelude PicoHttp PicoHttpProps.

Open Scope Z_scope.

(** ** Parts of a message *)

Definition CRLF_ : list Z := [CR; LF].
Definition token_ok (t : list Z) : Prop := Forall (fun c => 0 <= c <= 255 /\ token_char c = true) t.
(** A path: no blanks, no control characters. *)
Definition path_char (c : Z) : bool := (33 <=? c) && (c <=? 255) && negb (c =? DEL).
Definition path_ok (t : list Z) : Prop := t <> [] /\ Forall (fun c => path_char c = true) t.
(** A line without control characters. *)
Definition line_ok (t : list Z) : Prop := Forall (fun c => 0 <= c <= 255 /\ is_ctl c = false) t.
(** A header value does not begin or end with a blank. *)
Definition starts_ok (v : list Z) : Prop := match v with c :: _ => is_blank c = false | [] => True end.
Definition value_ok (v : list Z) : Prop := line_ok v /\ starts_ok v /\ starts_ok (rev v).
Definition field_ok (f : list Z * list Z) : Prop := f.1 <> [] /\ token_ok f.1 /\ value_ok f.2.

Definition field_text (f : list Z * list Z) : list Z := f.1 ++ [COLON; SP] ++ f.2 ++ CRLF_.
Definition fields_text (fs : list (list Z * list Z)) : list Z := concat (field_text <$> fs) ++ CRLF_.
Definition version_text (minor : Z) : list Z := bytes_of_string "HTTP/1." ++ [48 + minor].
Definition request_format (mth pth : list Z) (minor : Z) (fs : list (list Z * list Z)) : list Z :=
  mth ++ [SP] ++ pth ++ [SP] ++ version_text minor ++ CRLF_ ++ fields_text fs.

Lemma Forall_mono (P Q : Z -> Prop) l : (forall c, P c -> Q c) -> Forall P l -> Forall Q l.
Proof. intros H Hl. by eapply Forall_impl. Qed.

Lemma token_not_sep c : 0 <= c <= 255 -> token_char c = true -> c <> SP /\ c <> COLON.
Proof. intros _ H. split; intros ->; discriminate H. Qed.

Lemma token_bytes t : token_ok t -> bytes t.
Proof. apply Forall_mono. by intros c [? _]. Qed.
Lemma line_bytes t : line_ok t -> bytes t.
Proof. apply Forall_mono. by intros c [? _]. Qed.
Lemma path_bytes t : path_ok t -> bytes t.
Proof. intros [_ H]. revert H. apply Forall_mono. unfold path_char. intros c ?. lia. Qed.
Lemma bytes_app l l' : bytes l -> bytes l' -> bytes (l ++ l').
Proof. apply Forall_app_2. Qed.

(** ** Tokens and lines *)

Lemma token_loop_stops next_char t rest : next_char = SP \/ next_char = COLON -> token_ok t ->
  token_loop next_char (t ++ next_char :: rest) = Got tt (next_char :: rest).
Proof.
  intros Hn. induction 1 as [|c t [Hc Ht] _ IH]; cbn [app token_loop]; [by rewrite Z.eqb_refl|].
  destruct (token_not_sep c Hc Ht) as [H1 H2].
  replace (c =? next_char) with false by (symmetry; apply Z.eqb_neq; destruct Hn; congruence).
  rewrite Ht. cbn [negb]. rewrite IH. destruct (t ++ next_char :: rest) eqn:E; [by apply app_cons_ne in E|done].
Qed.

Lemma advance_loop_stops t rest : Forall (fun c => path_char c = true) t ->
  advance_loop (t ++ SP :: rest) = Got tt (SP :: rest).
Proof.
  induction 1 as [|c t Ht _ IH]; cbn [app advance_loop]; [done|].
  unfold path_char, DEL in Ht. rewrite printable_spec by lia.
  replace (c =? SP) with false by (unfold SP; lia).
  replace (negb _ && _) with false by (unfold DEL; lia).
  rewrite IH. destruct (t ++ SP :: rest) eqn:E; [by apply app_cons_ne in E|done].
Qed.

Lemma check_eof_cons (l : list Z) : l <> [] -> CHECK_EOF l = Got tt l.
Proof. by destruct l. Qed.

Lemma token_at t l : mkTok (t ++ l) (ptr_diff l (t ++ l)) = mkTok (t ++ l) (Z.of_nat (length t)).
Proof. f_equal. unfold ptr_diff. rewrite length_app. lia. Qed.

Lemma parse_token_format m next_char t rest : next_char = SP \/ next_char = COLON ->
  token_ok t -> bytes rest ->
  parse_token m next_char (t ++ next_char :: rest) =
    Got (mkTok (t ++ next_char :: rest) (Z.of_nat (length t))) (next_char :: rest).
Proof.
  intros Hn Ht Hr. rewrite parse_token_plain; [|done|].
  - unfold token_plain, mbind, P_bind, pos. rewrite check_eof_cons by apply app_cons_ne.
    rewrite token_loop_stops by done. by rewrite <- token_at.
  - apply bytes_app; [by apply token_bytes|]. constructor; [|done].
    by destruct Hn as [-> | ->].
Qed.

Lemma ADVANCE_TOKEN_format m t rest : path_ok t -> bytes rest ->
  ADVANCE_TOKEN m (t ++ SP :: rest) = Got (mkTok (t ++ SP :: rest) (Z.of_nat (length t))) (SP :: rest).
Proof.
  intros Ht Hr. rewrite ADVANCE_TOKEN_plain.
  - unfold advance_plain, mbind, P_bind, pos. rewrite check_eof_cons by apply app_cons_ne.
    rewrite advance_loop_stops by apply Ht. by rewrite <- token_at.
  - apply bytes_app; [by apply path_bytes|]. by constructor.
Qed.

Lemma get_token_to_eol_format m v rest : line_ok v -> bytes rest ->
  get_token_to_eol m (v ++ CRLF_ ++ rest) = Got (mkTok (v ++ CRLF_ ++ rest) (Z.of_nat (length v))) rest.
Proof.
  intros Hv Hr. unfold get_token_to_eol, mbind, P_bind, pos. rewrite to_ctl_slow.
  - rewrite eol_slow_skip by (revert Hv; apply Forall_mono; by intros c [_ ?]).
    cbn [CRLF_ app]. rewrite eol_slow_ctl by done.
    change (peek (CR :: LF :: rest)) with (Got CR (CR :: LF :: rest)). cbn iota beta.
    change (CR =? CR) with true. cbn iota beta. change (advance (CR :: LF :: rest)) with (Got tt (LF :: rest)).
    cbn iota beta. change (EXPECT_CHAR LF (LF :: rest)) with (Got tt rest). cbn iota beta.
    unfold mret, P_ret, ptr_diff. do 2 f_equal. rewrite length_app. cbn [length]. lia.
  - apply bytes_app; [by apply line_bytes|]. by repeat constructor.
Qed.

(** ** Headers *)

Lemma skip_blanks_format v rest : starts_ok v ->
  skip_blanks ((SP :: v) ++ CRLF_ ++ rest) = Got tt (v ++ CRLF_ ++ rest).
Proof.
  intros Hv. cbn [app skip_blanks]. change (is_blank SP) with true. cbn iota.
  destruct v as [|c v]; [done|]. cbn [app skip_blanks]. by rewrite Hv.
Qed.

Lemma trim_id l : starts_ok l -> trim l = l.
Proof. destruct l as [|c l]; [done|]. cbn. by intros ->. Qed.

Lemma trim_value_id v rest : starts_ok (rev v) ->
  trim_value (mkTok (v ++ rest) (Z.of_nat (length v))) = mkTok (v ++ rest) (Z.of_nat (length v)).
Proof.
  intros Hv. unfold trim_value. rewrite bytes_prefix. cbn [tk_mem]. by rewrite trim_id, length_rev.
Qed.

Lemma fields_bytes fs : Forall field_ok fs -> bytes (concat (field_text <$> fs)).
Proof.
  induction 1 as [|f fs (_ & Hn & Hv & _) _ IH]; [constructor|]. cbn [fmap list_fmap concat].
  apply bytes_app; [|done]. unfold field_text. apply bytes_app; [by apply token_bytes|].
  apply bytes_app; [by repeat constructor|]. apply bytes_app; [by apply line_bytes|]. by repeat constructor.
Qed.

(** A header that carries the field [f]. *)
Definition carries_field (h : phr_header) (f : list Z * list Z) : Prop :=
  (exists t, ph_name h = Some t /\ tk_bytes t = f.1 /\ tk_len t = Z.of_nat (length f.1)) /\
  tk_bytes (ph_value h) = f.2 /\ tk_len (ph_value h) = Z.of_nat (length f.2).

Lemma parse_header_name_format m first name v rest : name <> [] -> token_ok name -> starts_ok v -> bytes (v ++ rest) ->
  exists t, parse_header_name m first (name ++ [COLON; SP] ++ v ++ CRLF_ ++ rest) =
      Got (Some t) (v ++ CRLF_ ++ rest) /\ tk_bytes t = name /\ tk_len t = Z.of_nat (length name).
Proof.
  intros Hne Ht Hv Hb. destruct name as [|c name]; [done|].
  apply Forall_cons in Ht as Hc. destruct Hc as [[Hc1 Hc2] _].
  assert (is_blank c = false) as Hbl.
  { unfold is_blank. destruct (token_not_sep c Hc1 Hc2) as [H1 _]. apply orb_false_iff. split; [lia|].
    apply Z.eqb_neq. intros ->. discriminate Hc2. }
  assert (bytes (SP :: v ++ CRLF_ ++ rest)) as Hb'.
  { constructor; [done|]. apply Forall_app in Hb as [? ?]. apply bytes_app; [done|]. by repeat constructor. }
  exists (mkTok ((c :: name) ++ COLON :: SP :: v ++ CRLF_ ++ rest) (Z.of_nat (length (c :: name)))).
  split; [|split; [apply bytes_prefix|done]].
  unfold parse_header_name, mbind, P_bind. change (peek ((c :: name) ++ [COLON; SP] ++ v ++ CRLF_ ++ rest))
    with (Got c ((c :: name) ++ COLON :: SP :: v ++ CRLF_ ++ rest)). cbn iota beta.
  rewrite Hbl, andb_false_r. cbn [negb].
  rewrite parse_token_format; [|by right|done|done]. cbn iota beta.
  change (tk_len (mkTok ((c :: name) ++ COLON :: SP :: v ++ CRLF_ ++ rest) (Z.of_nat (length (c :: name)))) =? 0)
    with false. cbn iota beta.
  change (advance (COLON :: SP :: v ++ CRLF_ ++ rest)) with (Got tt ((SP :: v) ++ CRLF_ ++ rest)). cbn iota beta.
  by rewrite skip_blanks_format.
Qed.

Lemma parse_headers_end m room first rest : parse_headers m room first (CRLF_ ++ rest) = Got [] rest.
Proof. by destruct room. Qed.

(** A line that starts with a token character is not the end of the block. *)
Lemma eol_or_no {A} (yes no : P A) c l : 0 <= c <= 255 -> token_char c = true -> eol_or yes no (c :: l) = no (c :: l).
Proof.
  intros Hc Ht. unfold eol_or, mbind, P_bind. cbn [peek].
  assert (c <> CR /\ c <> LF) as [H1 H2] by (split; intros ->; discriminate Ht).
  by rewrite (proj2 (Z.eqb_neq _ _) H1), (proj2 (Z.eqb_neq _ _) H2).
Qed.

Lemma fields_text_cons f fs rest : fields_text (f :: fs) ++ rest =
  f.1 ++ [COLON; SP] ++ f.2 ++ CRLF_ ++ fields_text fs ++ rest.
Proof. unfold fields_text, field_text. cbn [fmap list_fmap concat]. by rewrite <- !app_assoc. Qed.

Lemma parse_headers_format m room first fs rest : Forall field_ok fs -> bytes rest ->
  (length fs <= room)%nat ->
  exists hs, parse_headers m room first (fields_text fs ++ rest) = Got hs rest /\ Forall2 carries_field hs fs.
Proof.
  intros Hfs Hr. revert room first. induction Hfs as [|f fs (Hne & Ht & Hv & Hs & He) Hfs IH]; intros room first Hlen.
  { exists []. split; [apply parse_headers_end|constructor]. }
  destruct room as [|room]; [cbn in Hlen; lia|].
  assert (bytes (fields_text fs ++ rest)) as Hb.
  { apply bytes_app; [|done]. apply bytes_app; [by apply fields_bytes|]. by repeat constructor. }
  destruct (IH room false ltac:(cbn in Hlen; lia)) as (hs & Ehs & Hhs).
  destruct (parse_header_name_format m first f.1 f.2 (fields_text fs ++ rest) Hne Ht Hs) as (t & Et & Ht1 & Ht2).
  { apply bytes_app; [by apply line_bytes|done]. }
  destruct f as [[|c name] v]; [done|]. cbn [fst snd] in *.
  eexists. split; [|constructor; [|exact Hhs]].
  - rewrite fields_text_cons. cbn [parse_headers]. unfold mbind at 1, P_bind at 1.
    apply Forall_cons in Ht as [[Hc1 Hc2] _].
    cbn [CHECK_EOF app fst snd]. rewrite eol_or_no by done.
    unfold mbind, P_bind. cbn [app] in Et. rewrite Et. rewrite get_token_to_eol_format by done.
    cbn iota beta. rewrite Ehs. reflexivity.
  - split; cbn [ph_name ph_value]; [by exists t|]. rewrite trim_value_id by done.
    by rewrite bytes_prefix.
Qed.

(** A block with more headers than there is room for is malformed. *)
Lemma parse_headers_overflow m room first fs rest : Forall field_ok fs -> bytes rest ->
  (room < length fs)%nat -> parse_headers m room first (fields_text fs ++ rest) = Fail (-1).
Proof.
  intros Hfs Hr. revert room first. induction Hfs as [|f fs (Hne & Ht & Hv & Hs & He) Hfs IH]; intros room first Hlen;
    [cbn in Hlen; lia|].
  assert (bytes (fields_text fs ++ rest)) as Hb.
  { apply bytes_app; [|done]. apply bytes_app; [by apply fields_bytes|]. by repeat constructor. }
  destruct (parse_header_name_format m first f.1 f.2 (fields_text fs ++ rest) Hne Ht Hs) as (t & Et & _).
  { apply bytes_app; [by apply line_bytes|done]. }
  rewrite fields_text_cons. destruct f as [[|c name] v]; [done|]. cbn [fst snd] in *. apply Forall_cons in Ht as [[Hc1 Hc2] _].
  destruct room as [|room]; cbn [parse_headers]; unfold mbind at 1, P_bind at 1; cbn [CHECK_EOF app fst snd];
    rewrite eol_or_no by done; [done|].
  unfold mbind, P_bind. cbn [app] in Et. rewrite Et. rewrite get_token_to_eol_format by done.
  cbn iota beta. rewrite IH; [done|]. cbn in Hlen. lia.
Qed.

(** ** Requests *)

Lemma skip_sp_format l : starts_ok l -> l <> [] -> skip_sp (SP :: l) = Got tt l.
Proof.
  destruct l as [|c l]; [done|]. intros Hc _. cbn [starts_ok] in Hc. unfold is_blank in Hc.
  apply orb_false_iff in Hc as [Hc _].
  change (skip_sp (SP :: c :: l)) with (if c =? SP then skip_sp (c :: l) else Got tt (c :: l)). by rewrite Hc.
Qed.

Lemma version_format minor l : 0 <= minor <= 9 -> l <> [] ->
  parse_http_version (version_text minor ++ l) = Got minor l.
Proof.
  intros Hm Hl. unfold parse_http_version, mbind, P_bind, pos.
  rewrite decide_False by (destruct l; [done|]; cbn; lia).
  transitivity (PARSE_INT 1 (48 + minor :: l)); [reflexivity|].
  unfold PARSE_INT, mbind, P_bind, next.
  replace ((48 + minor <? 48) || (57 <? 48 + minor)) with false by lia.
  unfold mret, P_ret. f_equal. lia.
Qed.

Lemma version_starts minor rest : starts_ok (version_text minor ++ rest).
Proof. done. Qed.

Lemma path_starts p rest : path_ok p -> starts_ok (p ++ rest).
Proof.
  intros [Hne Hp]. destruct p as [|c p]; [done|]. apply Forall_cons in Hp as [Hc _].
  cbn. unfold path_char in Hc. unfold is_blank, SP, HT. lia.
Qed.

Definition carries_request (r : Request) (mth pth : list Z) (minor : Z) (fs : list (list Z * list Z)) : Prop :=
  tk_bytes (rq_method r) = mth /\ tk_bytes (rq_path r) = pth /\ rq_minor r = minor /\
  Forall2 carries_field (rq_headers r) fs.

Section RequestFormat.
Context (m : simd) (n : nat) (mth pth : list Z) (minor : Z) (fs : list (list Z * list Z)) (body : list Z).
Hypothesis Hm : mth <> [].
Hypothesis Ht : token_ok mth.
Hypothesis Hp : path_ok pth.
Hypothesis Hv : 0 <= minor <= 9.
Hypothesis Hfs : Forall field_ok fs.
Hypothesis Hb : bytes body.

Lemma headers_bytes : bytes (fields_text fs ++ body).
Proof. apply bytes_app; [|done]. apply bytes_app; [by apply fields_bytes|]. by repeat constructor. Qed.

(** Up to the headers the parser goes through. *)
Lemma parse_request_line : exists t1 t2,
  tk_bytes t1 = mth /\ tk_bytes t2 = pth /\
  parse_request m n (request_format mth pth minor fs ++ body) =
  (hs ← parse_headers m n true; mret (mkRequest t1 t2 minor hs)) (fields_text fs ++ body).
Proof.
  set (after_path := version_text minor ++ CRLF_ ++ fields_text fs ++ body).
  set (after_method := pth ++ SP :: after_path).
  assert (bytes after_path) as Hb1.
  { apply bytes_app; [|apply bytes_app; [by repeat constructor|apply headers_bytes]].
    apply bytes_app; [apply bytes_string|]. repeat constructor; lia. }
  assert (bytes after_method) as Hb2 by (apply bytes_app; [by apply path_bytes|by constructor]).
  assert (request_format mth pth minor fs ++ body = mth ++ SP :: after_method) as ->.
  { unfold request_format, after_method, after_path. by rewrite <- !app_assoc. }
  exists (mkTok (mth ++ SP :: after_method) (Z.of_nat (length mth))),
    (mkTok (pth ++ SP :: after_path) (Z.of_nat (length pth))).
  split; [apply bytes_prefix|]. split; [apply bytes_prefix|].
  unfold parse_request, mbind at 1, P_bind at 1. rewrite check_eof_cons by apply app_cons_ne.
  unfold mbind at 1, P_bind at 1.
  assert (eol_or (mret tt) (mret tt) (mth ++ SP :: after_method) = Got tt (mth ++ SP :: after_method)) as ->.
  { destruct mth as [|c l]; [done|]. apply Forall_cons in Ht as [[Hc1 Hc2] _]. cbn [app]. by apply eol_or_no. }
  unfold mbind at 1, P_bind at 1. rewrite parse_token_format; [|by left|done|done].
  unfold mbind at 1, P_bind at 1. rewrite skip_sp_format by (apply path_starts; done) || apply app_cons_ne.
  unfold mbind at 1, P_bind at 1. unfold after_method at 1. rewrite ADVANCE_TOKEN_format by done.
  unfold mbind at 1, P_bind at 1. rewrite skip_sp_format by done. cbn [tk_len].
  destruct mth as [|c1 l1] eqn:E1; [done|]. destruct pth as [|c2 l2] eqn:E2; [by destruct Hp|].
  change ((Z.of_nat (length (c1 :: l1)) =? 0) || (Z.of_nat (length (c2 :: l2)) =? 0)) with false. cbn iota.
  unfold mbind at 1, P_bind at 1, after_path at 1. rewrite version_format by done.
  unfold mbind at 1, P_bind at 1. reflexivity.
Qed.

Lemma request_format_parses : (length fs <= n)%nat -> exists r,
  phr_parse_request m n 0 (request_format mth pth minor fs ++ body) =
    Got (Z.of_nat (length (request_format mth pth minor fs)), r) body /\ carries_request r mth pth minor fs.
Proof.
  intros Hlen. destruct parse_request_line as (t1 & t2 & Ht1 & Ht2 & E).
  destruct (parse_headers_format m n true fs body Hfs Hb Hlen) as (hs & Ehs & Hhs).
  exists (mkRequest t1 t2 minor hs). split; [|done].
  unfold phr_parse_request, mbind, P_bind. change (checked_complete 0 ?l) with (Got tt l). cbn iota beta.
  rewrite E. unfold mbind, P_bind. rewrite Ehs. unfold consumed, mret, P_ret, ptr_diff.
  rewrite length_app. do 2 f_equal. lia.
Qed.

Lemma request_format_overflows : (n < length fs)%nat ->
  phr_parse_request m n 0 (request_format mth pth minor fs ++ body) = Fail (-1).
Proof.
  intros Hlen. destruct parse_request_line as (t1 & t2 & _ & _ & E).
  unfold phr_parse_request, mbind, P_bind. change (checked_complete 0 ?l) with (Got tt l). cbn iota beta.
  rewrite E. unfold mbind, P_bind. by rewrite parse_headers_overflow.
Qed.
End RequestFormat.

(** ** Responses *)

(** Three decimal digits. *)
Definition digits3 (z : Z) : list Z := [48 + z / 100; 48 + z / 10 mod 10; 48 + z mod 10].
Definition response_format (minor status : Z) (msg : list Z) (fs : list (list Z * list Z)) : list Z :=
  version_text minor ++ [SP] ++ digits3 status ++ [SP] ++ msg ++ CRLF_ ++ fields_text fs.

Definition carries_response (r : Response) (minor status : Z) (msg : list Z) (fs : list (list Z * list Z)) : Prop :=
  rs_minor r = minor /\ rs_status r = status /\ tk_bytes (rs_msg r) = msg /\
  Forall2 carries_field (rs_headers r) fs.

Lemma parse_int_digit mul d l : 0 <= d <= 9 -> PARSE_INT mul (48 + d :: l) = Got (mul * d) l.
Proof.
  intros Hd. unfold PARSE_INT, mbind, P_bind, next.
  replace ((48 + d <? 48) || (57 <? 48 + d)) with false by lia.
  unfold mret, P_ret. do 2 f_equal. lia.
Qed.

Lemma status_format status l : 100 <= status <= 999 -> PARSE_INT_3 (digits3 status ++ l) = Got status l.
Proof.
  intros Hs. unfold PARSE_INT_3, digits3, mbind, P_bind. cbn [app].
  pose proof (Z.mod_pos_bound (status / 10) 10 ltac:(lia)). pose proof (Z.mod_pos_bound status 10 ltac:(lia)).
  pose proof (Z_div_mod_eq_full status 10). pose proof (Z_div_mod_eq_full (status / 10) 10).
  pose proof (Z.div_div status 10 10 ltac:(lia) ltac:(lia)) as Hq. change (10 * 10) with 100 in Hq.
  rewrite !parse_int_digit; [unfold mret, P_ret; f_equal; lia|lia|lia|lia].
Qed.

Lemma response_msg_format v rest l : starts_ok v -> Z.of_nat (length v) + 1 < 2 ^ 64 ->
  response_msg (mkTok ((SP :: v) ++ CRLF_ ++ rest) (Z.of_nat (length (SP :: v)))) l =
    Got (mkTok (v ++ CRLF_ ++ rest) (Z.of_nat (length v))) l.
Proof.
  intros Hv Hl. unfold response_msg. cbn [tk_len tk_mem].
  rewrite (proj2 (Z.eqb_neq _ _)) by (cbn [length]; lia). cbn [app].
  change (SP =? SP) with true. cbn iota. cbn [strip_sp]. change (SP =? SP) with true. cbn iota.
  rewrite (wrap_small 64) by (cbn [length]; lia).
  replace (Z.of_nat (length (SP :: v)) - 1) with (Z.of_nat (length v)) by (cbn [length]; lia).
  destruct v as [|c v]; [done|]. cbn [app strip_sp]. cbn [starts_ok] in Hv. unfold is_blank in Hv.
  apply orb_false_iff in Hv as [-> _]. done.
Qed.

Section ResponseFormat.
Context (m : simd) (n : nat) (minor status : Z) (msg : list Z) (fs : list (list Z * list Z)) (body : list Z).
Hypothesis Hv : 0 <= minor <= 9.
Hypothesis Hst : 100 <= status <= 999.
Hypothesis Hmsg : line_ok msg.
Hypothesis Hms : starts_ok msg.
Hypothesis Hlen : Z.of_nat (length msg) + 1 < 2 ^ 64.
Hypothesis Hfs : Forall field_ok fs.
Hypothesis Hb : bytes body.

Lemma parse_status_line : exists t, tk_bytes t = msg /\
  parse_response m n (response_format minor status msg fs ++ body) =
  (hs ← parse_headers m n true; mret (mkResponse minor status t hs)) (fields_text fs ++ body).
Proof.
  assert (response_format minor status msg fs ++ body =
    version_text minor ++ SP :: (digits3 status ++ (SP :: msg) ++ CRLF_ ++ fields_text fs ++ body)) as ->.
  { unfold response_format. by rewrite <- !app_assoc. }
  exists (mkTok (msg ++ CRLF_ ++ fields_text fs ++ body) (Z.of_nat (length msg))).
  split; [apply bytes_prefix|].
  unfold parse_response, mbind at 1, P_bind at 1. rewrite version_format by done.
  unfold mbind at 1, P_bind at 1. cbn [peek]. change (negb (SP =? SP)) with false. cbn iota.
  assert (is_blank (48 + status / 100) = false) as Hd.
  { pose proof (Z.div_pos status 100 ltac:(lia) ltac:(lia)). unfold is_blank, SP, HT. lia. }
  unfold mbind at 1, P_bind at 1. rewrite skip_sp_format by done.
  unfold mbind at 1, P_bind at 1, pos. rewrite decide_False by (cbn; lia).
  unfold mbind at 1, P_bind at 1. rewrite status_format by done.
  unfold mbind at 1, P_bind at 1. rewrite get_token_to_eol_format.
  - unfold mbind at 1, P_bind at 1. rewrite response_msg_format by done. done.
  - by constructor.
  - apply bytes_app; [|done]. apply bytes_app; [by apply fields_bytes|]. by repeat constructor.
Qed.

Lemma response_format_parses : (length fs <= n)%nat -> exists r,
  phr_parse_response m n 0 (response_format minor status msg fs ++ body) =
    Got (Z.of_nat (length (response_format minor status msg fs)), r) body /\
  carries_response r minor status msg fs.
Proof.
  intros Hn. destruct parse_status_line as (t & Ht & E).
  destruct (parse_headers_format m n true fs body Hfs Hb Hn) as (hs & Ehs & Hhs).
  exists (mkResponse minor status t hs). split; [|done].
  unfold phr_parse_response, mbind, P_bind. change (checked_complete 0 ?l) with (Got tt l). cbn iota beta.
  rewrite E. unfold mbind, P_bind. rewrite Ehs. unfold consumed, mret, P_ret, ptr_diff.
  rewrite length_app. do 2 f_equal. lia.
Qed.
End ResponseFormat.
