(* ===== verification/PicoChunked.v ===== *)
(** * The decoder of chunked bodies: [phr_decode_chunked] of [src/picohttpparser.c]

    The call works in place on [bufsz] bytes: [src] is what it has read,
    [dst] what it has written. A case of the [switch] is a Definition in the
    state of the call, that says where control goes next. The specification
    is a machine that reads one byte at a time and knows neither the buffer
    nor the pieces; a call refines it, so that a body comes out the same
    however it was cut. *)

From Stdlib Require Import ZArith Lia Ascii.
From stdpp Require Import base strings list.
From S2P Require Import Prelude PicoHttp.

Open Scope Z_scope.

(** ** The decoder *)

(** The values of [_state]; [CHUNKED_CORRUPT] stands for any other. *)
Inductive chunked_state :=
  | CHUNKED_IN_CHUNK_SIZE
  | CHUNKED_IN_CHUNK_EXT
  | CHUNKED_IN_CHUNK_DATA
  | CHUNKED_IN_CHUNK_CRLF
  | CHUNKED_IN_TRAILERS_LINE_HEAD
  | CHUNKED_IN_TRAILERS_LINE_MIDDLE
  | CHUNKED_CORRUPT.

Record phr_chunked_decoder := mkDec {
  bytes_left_in_chunk : Z;
  consume_trailer : bool;
  _hex_count : Z;
  _state : chunked_state;
  _total_read : Z;
  _total_overhead : Z
}.

(** A decoder as its user zeroes it. *)
Definition chunked_start (trailer : bool) : phr_chunked_decoder :=
  mkDec 0 trailer 0 CHUNKED_IN_CHUNK_SIZE 0 0.

Definition set_left (n : Z) (d : phr_chunked_decoder) : phr_chunked_decoder :=
  mkDec n (consume_trailer d) (_hex_count d) (_state d) (_total_read d) (_total_overhead d).
Definition set_hex_count (n : Z) (d : phr_chunked_decoder) : phr_chunked_decoder :=
  mkDec (bytes_left_in_chunk d) (consume_trailer d) n (_state d) (_total_read d) (_total_overhead d).
Definition set_chunked_state (s : chunked_state) (d : phr_chunked_decoder) : phr_chunked_decoder :=
  mkDec (bytes_left_in_chunk d) (consume_trailer d) (_hex_count d) s (_total_read d) (_total_overhead d).
Definition set_total_read (n : Z) (d : phr_chunked_decoder) : phr_chunked_decoder :=
  mkDec (bytes_left_in_chunk d) (consume_trailer d) (_hex_count d) (_state d) n (_total_overhead d).
Definition set_total_overhead (n : Z) (d : phr_chunked_decoder) : phr_chunked_decoder :=
  mkDec (bytes_left_in_chunk d) (consume_trailer d) (_hex_count d) (_state d) (_total_read d) n.

Definition phr_decode_chunked_is_in_data (d : phr_chunked_decoder) : bool :=
  match _state d with CHUNKED_IN_CHUNK_DATA => true | _ => false end.

Definition decode_hex (ch : Z) : Z :=
  if (48 <=? ch) && (ch <=? 57) then ch - 48
  else if (65 <=? ch) && (ch <=? 70) then ch - 65 + 10
  else if (97 <=? ch) && (ch <=? 102) then ch - 97 + 10
  else -1.

(** ** A call *)

(** The bytes of the buffer, and the two positions in it. *)
Record ChunkCall := mkCall {
  decoder : phr_chunked_decoder;
  chunk_buf : list Z;
  dst : nat;
  src : nat
}.

Definition on_decoder (f : phr_chunked_decoder -> phr_chunked_decoder) (c : ChunkCall) : ChunkCall :=
  mkCall (f (decoder c)) (chunk_buf c) (dst c) (src c).
Definition at_src (n : nat) (c : ChunkCall) : ChunkCall :=
  mkCall (decoder c) (chunk_buf c) (dst c) n.
(** The bytes from [buf + src] on. *)
Definition unread_bytes (c : ChunkCall) : list Z := drop (src c) (chunk_buf c).

(** How a case ends: [break], into the next case, [goto Exit] with [ret], or
    [goto Complete]. *)
Inductive flow :=
  | Break
  | Fallthru
  | Exit (ret : Z)
  | Complete.

Definition C := M ChunkCall.

(** [memmove(buf + dst, buf + src, n)], when the two differ. *)
Definition move_down (n : nat) : C unit := fun c =>
  if Nat.eqb (dst c) (src c) then Ret tt c
  else
    match slice (src c) n (chunk_buf c) with
    | None => Stop Undefined
    | Some bs =>
        match store (chunk_buf c) (dst c) bs with
        | Ok b => Ret tt (mkCall (decoder c) b (dst c) (src c))
        | Err f => Stop f
        end
    end.

(** [src += n; dst += n]. *)
Definition pass (n : nat) : C unit :=
  modify (fun c => mkCall (decoder c) (chunk_buf c) (dst c + n) (src c + n)).

(** [buf[src]]. *)
Definition cur : C Z := fun c =>
  match chunk_buf c !! src c with Some ch => Ret ch c | None => Stop Undefined end.
Definition step_src : C unit := modify (fun c => at_src (S (src c)) c).
Definition enter (s : chunked_state) : C unit := modify (on_decoder (set_chunked_state s)).

(** [for (;; ++src)] up to a byte that [stop] accepts; [false] at the end of
    the buffer. The fuel is what is left of it. *)
Fixpoint scan (fuel : nat) (stop : Z -> bool) : C bool :=
  match fuel with
  | O => mret false
  | S fuel' =>
      ch ← cur;
      if stop ch then mret true else _ ← step_src; scan fuel' stop
  end.
Definition scan_to (stop : Z -> bool) : C bool :=
  n ← gets (fun c => length (unread_bytes c)); scan n stop.

(** A byte that may follow the size. *)
Definition ends_size (ch : Z) : bool :=
  (ch =? SP) || (ch =? HT) || (ch =? 59) || (ch =? LF) || (ch =? CR).

Definition add_digit (v : Z) (d : phr_chunked_decoder) : phr_chunked_decoder :=
  set_hex_count (_hex_count d + 1) (set_left (u64 (bytes_left_in_chunk d * 16 + v)) d).

Fixpoint size_loop (fuel : nat) : C flow :=
  match fuel with
  | O => mret (Exit (-2))
  | S fuel' =>
      ch ← cur;
      d ← gets decoder;
      let v := decode_hex ch in
      if v =? -1 then
        if _hex_count d =? 0 then mret (Exit (-1))
        else if ends_size ch then mret Fallthru else mret (Exit (-1))
      else if _hex_count d =? 16 then mret (Exit (-1))
      else
        _ ← modify (on_decoder (add_digit v));
        _ ← step_src;
        size_loop fuel'
  end.

Definition in_chunk_size : C flow :=
  n ← gets (fun c => length (unread_bytes c));
  r ← size_loop n;
  match r with
  | Fallthru =>
      _ ← modify (on_decoder (set_hex_count 0));
      _ ← enter CHUNKED_IN_CHUNK_EXT;
      mret Fallthru
  | _ => mret r
  end.

Definition in_chunk_ext : C flow :=
  found ← scan_to (fun ch => ch =? LF);
  if negb found then mret (Exit (-2))
  else
    _ ← step_src;
    d ← gets decoder;
    if bytes_left_in_chunk d =? 0 then
      if consume_trailer d then _ ← enter CHUNKED_IN_TRAILERS_LINE_HEAD; mret Break
      else mret Complete
    else _ ← enter CHUNKED_IN_CHUNK_DATA; mret Fallthru.

Definition in_chunk_data : C flow :=
  c ← get_st;
  let avail := (length (chunk_buf c) - src c)%nat in
  let left := bytes_left_in_chunk (decoder c) in
  if Z.of_nat avail <? left then
    _ ← move_down avail;
    _ ← pass avail;
    _ ← modify (on_decoder (set_left (u64 (left - Z.of_nat avail))));
    mret (Exit (-2))
  else
    _ ← move_down (Z.to_nat left);
    _ ← pass (Z.to_nat left);
    _ ← modify (on_decoder (set_left 0));
    _ ← enter CHUNKED_IN_CHUNK_CRLF;
    mret Fallthru.

Definition in_chunk_crlf : C flow :=
  found ← scan_to (fun ch => negb (ch =? CR));
  if negb found then mret (Exit (-2))
  else
    ch ← cur;
    if negb (ch =? LF) then mret (Exit (-1))
    else
      _ ← step_src;
      _ ← enter CHUNKED_IN_CHUNK_SIZE;
      mret Break.

Definition in_trailers_line_head : C flow :=
  found ← scan_to (fun ch => negb (ch =? CR));
  if negb found then mret (Exit (-2))
  else
    ch ← cur;
    _ ← step_src;
    if ch =? LF then mret Complete
    else _ ← enter CHUNKED_IN_TRAILERS_LINE_MIDDLE; mret Fallthru.

Definition in_trailers_line_middle : C flow :=
  found ← scan_to (fun ch => ch =? LF);
  if negb found then mret (Exit (-2))
  else
    _ ← step_src;
    _ ← enter CHUNKED_IN_TRAILERS_LINE_HEAD;
    mret Break.

(** The next case, when this one falls through. *)
Definition fallthru (m next : C flow) : C flow :=
  r ← m; match r with Fallthru => next | _ => mret r end.

(** The [switch]; [assert] stops in its default. *)
Definition chunked_switch : C flow :=
  d ← gets decoder;
  let crlf := in_chunk_crlf in
  let data := fallthru in_chunk_data crlf in
  let ext := fallthru in_chunk_ext data in
  match _state d with
  | CHUNKED_IN_CHUNK_SIZE => fallthru in_chunk_size ext
  | CHUNKED_IN_CHUNK_EXT => ext
  | CHUNKED_IN_CHUNK_DATA => data
  | CHUNKED_IN_CHUNK_CRLF => crlf
  | CHUNKED_IN_TRAILERS_LINE_HEAD => fallthru in_trailers_line_head in_trailers_line_middle
  | CHUNKED_IN_TRAILERS_LINE_MIDDLE => in_trailers_line_middle
  | CHUNKED_CORRUPT => fail Fatal
  end.

(** [while (1)], up to [Exit]: the value of [ret] there. *)
Fixpoint chunked_loop (fuel : nat) : C Z :=
  match fuel with
  | O => fail Hang
  | S fuel' =>
      r ← chunked_switch;
      match r with
      | Exit ret => mret ret
      | Complete => gets (fun c => Z.of_nat (length (chunk_buf c)) - Z.of_nat (src c))
      | _ => chunked_loop fuel'
      end
  end.

(** At least 100 KB of encoding, and more than three quarters of what came. *)
Definition too_much_overhead (d : phr_chunked_decoder) : bool :=
  (100 * 1024 <=? _total_overhead d) &&
  (u64 (_total_read d - _total_overhead d) <? _total_read d `div` 4).

(** The call: what it returns, the decoder, the buffer and [*_bufsz]. Every
    turn of the loop but the last reads a line end. *)
Definition phr_decode_chunked (d : phr_chunked_decoder) (buf : list Z) :
    res (Z * phr_chunked_decoder * list Z * nat) :=
  let bufsz := length buf in
  let d0 := set_total_read (u64 (_total_read d + Z.of_nat bufsz)) d in
  let run :=
    ret ← chunked_loop (S bufsz);
    c ← get_st;
    _ ← move_down (bufsz - src c);
    mret ret in
  match run (mkCall d0 buf 0 0) with
  | Ret ret c =>
      if ret =? -2 then
        let d1 := set_total_overhead
          (u64 (_total_overhead (decoder c) + Z.of_nat (bufsz - dst c))) (decoder c) in
        Ok (if too_much_overhead d1 then -1 else -2, d1, chunk_buf c, dst c)
      else Ok (ret, decoder c, chunk_buf c, dst c)
  | Exc e _ => Err (Throw e)
  | Stop f => Err f
  end.

(** ** The specification: a machine that reads one byte at a time *)

Inductive chunk_at :=
  | AtSize (n digits : Z)
  | AtExt (n : Z)
  | AtData (n : Z)
  | AtCrlf
  | AtHead
  | AtMiddle.

Inductive byte_result :=
  | Goes (s : chunk_at) (out : list Z)
  | Bad
  | Ends.

Definition after_size (trailer : bool) (n : Z) : byte_result :=
  if n =? 0 then if trailer then Goes AtHead [] else Ends else Goes (AtData n) [].

Definition byte_step (trailer : bool) (s : chunk_at) (ch : Z) : byte_result :=
  match s with
  | AtSize n k =>
      if decode_hex ch =? -1 then
        if k =? 0 then Bad
        else if ch =? LF then after_size trailer n
        else if ends_size ch then Goes (AtExt n) [] else Bad
      else if k =? 16 then Bad else Goes (AtSize (n * 16 + decode_hex ch) (k + 1)) []
  | AtExt n => if ch =? LF then after_size trailer n else Goes (AtExt n) []
  | AtData n => Goes (if n =? 1 then AtCrlf else AtData (n - 1)) [ch]
  | AtCrlf =>
      if ch =? CR then Goes AtCrlf [] else if ch =? LF then Goes (AtSize 0 0) [] else Bad
  | AtHead =>
      if ch =? CR then Goes AtHead [] else if ch =? LF then Ends else Goes AtMiddle []
  | AtMiddle => if ch =? LF then Goes AtHead [] else Goes AtMiddle []
  end.

Inductive verdict :=
  | Incomplete (s : chunk_at)
  | Malformed
  | Ended (rest : list Z).

Definition prepend (out : list Z) (r : list Z * verdict) : list Z * verdict :=
  (out ++ r.1, r.2).

(** The body in a text, and how the text ends. *)
Fixpoint decode (trailer : bool) (s : chunk_at) (l : list Z) : list Z * verdict :=
  match l with
  | [] => ([], Incomplete s)
  | ch :: l' =>
      match byte_step trailer s ch with
      | Goes s' out => prepend out (decode trailer s' l')
      | Bad => ([], Malformed)
      | Ends => ([], Ended l')
      end
  end.

(** What a decoder stands for, and when it does. *)
Definition abs_dec (d : phr_chunked_decoder) : chunk_at :=
  match _state d with
  | CHUNKED_IN_CHUNK_SIZE => AtSize (bytes_left_in_chunk d) (_hex_count d)
  | CHUNKED_IN_CHUNK_EXT => AtExt (bytes_left_in_chunk d)
  | CHUNKED_IN_CHUNK_DATA => AtData (bytes_left_in_chunk d)
  | CHUNKED_IN_CHUNK_CRLF => AtCrlf
  | CHUNKED_IN_TRAILERS_LINE_HEAD => AtHead
  | _ => AtMiddle
  end.

Definition dec_wf (d : phr_chunked_decoder) : Prop :=
  0 <= _hex_count d <= 16 /\ 0 <= bytes_left_in_chunk d < 2 ^ 64 /\
  match _state d with
  | CHUNKED_IN_CHUNK_SIZE => bytes_left_in_chunk d < 16 ^ _hex_count d
  | CHUNKED_IN_CHUNK_EXT => _hex_count d = 0
  | CHUNKED_IN_CHUNK_DATA => _hex_count d = 0 /\ 0 < bytes_left_in_chunk d
  | CHUNKED_CORRUPT => False
  | _ => _hex_count d = 0 /\ bytes_left_in_chunk d = 0
  end.

(** ** The machine *)

Lemma prepend_nil r : prepend [] r = r.
Proof. by destruct r. Qed.

Lemma prepend_app o o' r : prepend (o ++ o') r = prepend o (prepend o' r).
Proof. unfold prepend. simpl. by rewrite (assoc_L (++)). Qed.

Lemma decode_app t l1 : forall s l2,
  decode t s (l1 ++ l2) =
  match decode t s l1 with
  | (o, Incomplete s') => prepend o (decode t s' l2)
  | (o, Malformed) => (o, Malformed)
  | (o, Ended r) => (o, Ended (r ++ l2))
  end.
Proof.
  induction l1 as [|ch l1 IH]; intros s l2; simpl; [by rewrite prepend_nil|].
  destruct (byte_step t s ch) as [s' out| |]; [|done..].
  rewrite IH. destruct (decode t s' l1) as [o [s''| |r]]; simpl; [|done..].
  by rewrite prepend_app.
Qed.

(** Bytes the machine passes over. *)
Lemma decode_skip t s pre l : Forall (fun ch => byte_step t s ch = Goes s []) pre ->
  decode t s (pre ++ l) = decode t s l.
Proof. induction 1 as [|ch pre E _ IH]; [done|]. simpl. by rewrite E, prepend_nil. Qed.

Lemma decode_data t pre : forall n l, 0 < n -> Z.of_nat (length pre) <= n ->
  decode t (AtData n) (pre ++ l) =
  prepend pre (decode t (if n =? Z.of_nat (length pre) then AtCrlf else AtData (n - Z.of_nat (length pre))) l).
Proof.
  induction pre as [|ch pre IH]; intros n l Hn Hp.
  - rewrite prepend_nil. cbn [length app]. change (Z.of_nat 0) with 0.
    destruct (Z.eqb_spec n 0); [lia|]. by rewrite Z.sub_0_r.
  - cbn [length app decode byte_step] in *.
    change (ch :: pre) with ([ch] ++ pre). rewrite prepend_app. f_equal.
    destruct (Z.eqb_spec n 1) as [->|].
    + destruct pre; [|simpl in Hp; lia]. simpl. by rewrite prepend_nil.
    + rewrite IH by lia. f_equal. f_equal.
      replace (n - Z.of_nat (S (length pre))) with (n - 1 - Z.of_nat (length pre)) by lia.
      destruct (Z.eqb_spec (n - 1) (Z.of_nat (length pre))), (Z.eqb_spec n (Z.of_nat (S (length pre)))); lia || done.
Qed.

Lemma length_decode t l : forall s o v, decode t s l = (o, v) ->
  (length o + match v with Ended r => length r | _ => 0 end <= length l)%nat.
Proof.
  induction l as [|ch l IH]; intros s o v; simpl; [by intros [= <- <-]|].
  destruct (byte_step t s ch) as [s1 out| |] eqn:E; [|intros [= <- <-]; simpl; lia..].
  destruct (decode t s1 l) as [o1 v1] eqn:E1. intros [= <- ->]. apply IH in E1.
  assert (length out <= 1)%nat; [|rewrite length_app; simpl; lia].
  revert E. unfold byte_step, after_size. repeat case_match; intros [= <- <-]; simpl; lia.
Qed.

(** ** A call, seen as what it wrote, what it read, and what is left *)

Definition call (d : phr_chunked_decoder) (out junk rest : list Z) : ChunkCall :=
  mkCall d (out ++ junk ++ rest) (length out) (length out + length junk).

Lemma unread_call d out junk rest : unread_bytes (call d out junk rest) = rest.
Proof. unfold unread_bytes. simpl. rewrite (assoc_L (++)), <- length_app. apply drop_app_length. Qed.

Lemma cur_call d out junk ch rest :
  cur (call d out junk (ch :: rest)) = Ret ch (call d out junk (ch :: rest)).
Proof.
  unfold cur. simpl. rewrite (assoc_L (++)), <- length_app.
  by rewrite lookup_app_r, Nat.sub_diag.
Qed.

Lemma step_src_call d out junk ch rest :
  step_src (call d out junk (ch :: rest)) = Ret tt (call d out (junk ++ [ch]) rest).
Proof.
  unfold step_src, modify, at_src, call. simpl. rewrite length_app, <- (assoc_L (++)). simpl.
  do 2 f_equal. lia.
Qed.

Lemma on_decoder_call f d out junk rest :
  on_decoder f (call d out junk rest) = call (f d) out junk rest.
Proof. done. Qed.

(** Moving [n] bytes down and passing over them writes them. *)
Lemma move_call n d out junk rest : (n <= length rest)%nat ->
  exists junk', length junk' = length junk /\ forall A (k : C A),
  (_ ← move_down n; _ ← pass n; k) (call d out junk rest) =
  k (call d (out ++ take n rest) junk' (drop n rest)).
Proof.
  intros Hn. unfold move_down, mbind, M_bind. cbn [dst src call chunk_buf].
  destruct (Nat.eqb_spec (length out) (length out + length junk)) as [E|E].
  - destruct junk; [|simpl in E; lia]. exists []. split; [done|]. intros A k.
    unfold pass, modify, call. cbn. f_equal.
    rewrite <- !(assoc_L (++)), take_drop, length_app, length_take. f_equal; lia.
  - unfold slice. rewrite decide_True by (rewrite !length_app; lia).
    rewrite (assoc_L (++)), <- length_app, drop_app_length.
    unfold store. rewrite decide_True by (rewrite !length_app, length_take; lia).
    exists (take (length junk) (drop n (junk ++ rest))). split.
    { rewrite length_take, length_drop, length_app. lia. }
    intros A k. unfold pass, modify, call. cbn. f_equal. f_equal.
    + rewrite <- (assoc_L (++)), take_app_length, <- !(assoc_L (++)). do 2 f_equal.
      rewrite length_take, Nat.min_l by lia.
      rewrite drop_app, drop_ge by lia. simpl.
      replace (length out + n - length out)%nat with n by lia.
      rewrite <- (take_drop (length junk) (drop n (junk ++ rest))) at 1. f_equal.
      rewrite drop_drop. rewrite Nat.add_comm, <- drop_drop, drop_app_length. done.
    + rewrite length_app, length_take. lia.
    + rewrite !length_app, !length_take, length_drop, length_app. lia.
Qed.

Lemma scan_to_call stop d out junk rest : exists pre post,
  rest = pre ++ post /\ Forall (fun ch => stop ch = false) pre /\
  match post with
  | [] => scan_to stop (call d out junk rest) = Ret false (call d out (junk ++ pre) [])
  | ch :: l => stop ch = true /\
      scan_to stop (call d out junk rest) = Ret true (call d out (junk ++ pre) (ch :: l))
  end.
Proof.
  unfold scan_to, gets, mbind, M_bind. rewrite unread_call.
  revert junk. induction rest as [|ch rest IH]; intros junk.
  { exists [], []. rewrite (app_nil_r junk). by split_and!. }
  cbn [length scan]. unfold mbind, M_bind. rewrite cur_call.
  destruct (stop ch) eqn:E.
  - exists [], (ch :: rest). rewrite (app_nil_r junk). by split_and!.
  - rewrite step_src_call. destruct (IH (junk ++ [ch])) as (pre & post & -> & Hpre & H).
    exists (ch :: pre), post. split_and!; [done|by constructor|].
    rewrite <- (assoc_L (++)) in H. destruct post; exact H.
Qed.

(** ** Each case refines the machine *)

Definition keeps (d d' : phr_chunked_decoder) : Prop :=
  consume_trailer d' = consume_trailer d /\ _total_read d' = _total_read d /\
  _total_overhead d' = _total_overhead d.

#[local] Instance keeps_preorder : PreOrder keeps.
Proof. split; [done|]. intros d1 d2 d3 (? & ? & ?) (? & ? & ?). split_and!; congruence. Qed.

Definition reaches (d : phr_chunked_decoder) (out junk rest : list Z) (nxt : chunked_state)
    (r : flow) (c : ChunkCall) : Prop :=
  exists d' out' junk' rest',
    c = call d' (out ++ out') junk' rest' /\ keeps d d' /\ dec_wf d' /\
    (length out' + length junk' + length rest' = length junk + length rest)%nat /\
    let t := consume_trailer d in
    let todo := decode t (abs_dec d) rest in
    match r with
    | Break => todo = prepend out' (decode t (abs_dec d') rest') /\ (length rest' < length rest)%nat
    | Fallthru => todo = prepend out' (decode t (abs_dec d') rest') /\
        (length rest' <= length rest)%nat /\ _state d' = nxt
    | Exit ret =>
        ret = -2 /\ rest' = [] /\ todo = (out', Incomplete (abs_dec d')) \/
        ret = -1 /\ todo = (out', Malformed)
    | Complete => todo = (out', Ended rest')
    end.

(** [m], entered in state [s], refines the machine; it may fall through in
    state [nxt]. *)
Definition refines (s nxt : chunked_state) (m : C flow) : Prop :=
  forall d out junk rest, dec_wf d -> _state d = s ->
    exists r c, m (call d out junk rest) = Ret r c /\ reaches d out junk rest nxt r c.

Lemma refines_fallthru s1 s2 s3 m1 m2 :
  refines s1 s2 m1 -> refines s2 s3 m2 -> refines s1 s3 (fallthru m1 m2).
Proof.
  intros H1 H2 d out junk rest Hd Hs.
  destruct (H1 d out junk rest Hd Hs) as (r & c & E & R).
  unfold fallthru, mbind, M_bind. rewrite E.
  destruct r; try (eexists _, c; split; [reflexivity|exact R]).
  destruct R as (d' & out' & junk' & rest' & -> & Hk & Hd' & Hl & Ht & Hle & Hs').
  destruct (H2 d' (out ++ out') junk' rest' Hd' Hs')
    as (r & c & E2 & d2 & out2 & junk2 & rest2 & -> & Hk2 & Hd2 & Hl2 & R).
  exists r, (call d2 (out ++ out' ++ out2) junk2 rest2). split.
  { rewrite E2. by rewrite (assoc_L (++)). }
  exists d2, (out' ++ out2), junk2, rest2. rewrite length_app.
  split_and!; [done|by transitivity d'|done|lia|].
  assert (consume_trailer d' = consume_trailer d) as Et by apply Hk. rewrite Et in R.
  cbv zeta in *. rewrite Ht. destruct r; simpl in R |- *.
  - destruct R as (-> & ?). rewrite prepend_app. split; [done|lia].
  - destruct R as (-> & ? & ?). rewrite prepend_app. split_and!; [done|lia|done].
  - destruct R as [(-> & -> & ->)|(-> & ->)]; eauto 10.
  - by rewrite R.
Qed.

Ltac run_case := unfold mbind, M_bind, mret, M_ret, gets, get_st, modify, enter, negb;
  rewrite ?on_decoder_call; cbn [decoder call].

(** A case that answers [r], having written [o] and read all but [rest']. *)
Ltac answers d' o j rest' :=
  eexists _, _; split; [reflexivity|];
  exists d', o, j, rest';
  split; [by rewrite ?app_nil_r|split; [unfold keeps; by split_and!|]].

Lemma refines_ext : refines CHUNKED_IN_CHUNK_EXT CHUNKED_IN_CHUNK_DATA in_chunk_ext.
Proof.
  intros d out junk rest (Hh & Hl & Hw) Hs. rewrite Hs in Hw.
  destruct (scan_to_call (fun ch => ch =? LF) d out junk rest) as (pre & post & -> & Hpre & H).
  assert (forall l, decode (consume_trailer d) (abs_dec d) (pre ++ l) =
    decode (consume_trailer d) (abs_dec d) l) as Hskip.
  { intros l. apply decode_skip. unfold abs_dec. rewrite Hs.
    eapply Forall_impl; [exact Hpre|]. intros ch E. simpl. by rewrite E. }
  assert (dec_wf d) as Hd by (unfold dec_wf; by rewrite Hs).
  unfold in_chunk_ext. destruct post as [|ch l].
  - run_case. rewrite H. answers d (@nil Z) (junk ++ pre) (@nil Z).
    split; [done|]. rewrite !length_app. split; [simpl; lia|]. left. split_and!; [done..|]. by rewrite Hskip.
  - destruct H as (Hch & H). run_case. rewrite H, step_src_call. cbn [decoder call].
    set (d' := set_chunked_state
      (if bytes_left_in_chunk d =? 0 then
         if consume_trailer d then CHUNKED_IN_TRAILERS_LINE_HEAD else CHUNKED_IN_CHUNK_EXT
       else CHUNKED_IN_CHUNK_DATA) d).
    assert (dec_wf d') as Hd'.
    { subst d'. unfold dec_wf. simpl. split; [done|split; [done|]].
      destruct (Z.eqb_spec (bytes_left_in_chunk d) 0); [destruct (consume_trailer d)|]; lia. }
    assert (decode (consume_trailer d) (abs_dec d) (ch :: l) =
      match after_size (consume_trailer d) (bytes_left_in_chunk d) with
      | Goes s out => prepend out (decode (consume_trailer d) s l) | Bad => ([], Malformed) | Ends => ([], Ended l)
      end) as E1.
    { unfold abs_dec. rewrite Hs. simpl. by rewrite Hch. }
    assert (length ((junk ++ pre) ++ [ch]) + length l = length junk + length (pre ++ ch :: l))%nat
      by (rewrite !length_app; simpl; lia).
    unfold after_size in E1. subst d'.
    destruct (bytes_left_in_chunk d =? 0) eqn:E0; [destruct (consume_trailer d) eqn:Et|];
      rewrite ?on_decoder_call.
    + answers (set_chunked_state CHUNKED_IN_TRAILERS_LINE_HEAD d) (@nil Z) ((junk ++ pre) ++ [ch]) l.
      split; [done|]. split; [simpl; lia|]. cbv zeta. rewrite Et, Hskip, E1.
      split; [done|rewrite length_app; simpl; lia].
    + answers d (@nil Z) ((junk ++ pre) ++ [ch]) l.
      split; [done|]. split; [simpl; lia|]. cbv zeta. by rewrite Et, Hskip, E1.
    + answers (set_chunked_state CHUNKED_IN_CHUNK_DATA d) (@nil Z) ((junk ++ pre) ++ [ch]) l.
      split; [done|]. split; [simpl; lia|]. cbv zeta. rewrite Hskip, E1.
      split_and!; [done|rewrite length_app; simpl; lia|done].
Qed.

Lemma decode_hex_range ch : decode_hex ch = -1 \/ 0 <= decode_hex ch < 16.
Proof. unfold decode_hex. repeat case_match; lia. Qed.

(** The digits of a size never overflow it. *)
Lemma add_digit_wf d v : dec_wf d -> _state d = CHUNKED_IN_CHUNK_SIZE -> 0 <= v < 16 ->
  _hex_count d <> 16 ->
  dec_wf (add_digit v d) /\
  abs_dec (add_digit v d) = AtSize (bytes_left_in_chunk d * 16 + v) (_hex_count d + 1).
Proof.
  intros (Hh & Hl & Hw) Hs Hv H16. rewrite Hs in Hw.
  assert (bytes_left_in_chunk d * 16 + v < 16 ^ (_hex_count d + 1)) as Hlt.
  { rewrite Z.pow_add_r by lia. change (16 ^ 1) with 16. lia. }
  assert (16 ^ (_hex_count d + 1) <= 2 ^ 64).
  { change (2 ^ 64) with (16 ^ 16). apply Z.pow_le_mono_r; lia. }
  assert (u64 (bytes_left_in_chunk d * 16 + v) = bytes_left_in_chunk d * 16 + v) as E
    by (apply (wrap_small 64); lia).
  unfold dec_wf, abs_dec, add_digit. simpl. rewrite Hs, E. split; [|done]. lia.
Qed.

(** What the loop over the digits does with [rest]. *)
Definition size_read (d : phr_chunked_decoder) (out junk rest : list Z)
    (o : outcome ChunkCall flow) : Prop :=
  exists d' pre post r, rest = pre ++ post /\
    o = Ret r (call d' out (junk ++ pre) post) /\
    keeps d d' /\ dec_wf d' /\ _state d' = CHUNKED_IN_CHUNK_SIZE /\
    decode (consume_trailer d) (abs_dec d) rest = decode (consume_trailer d) (abs_dec d') post /\
    match r with
    | Exit ret => ret = -2 /\ post = [] \/
        ret = -1 /\ decode (consume_trailer d) (abs_dec d') post = ([], Malformed)
    | Fallthru => exists ch l, post = ch :: l /\ decode_hex ch = -1 /\
        _hex_count d' <> 0 /\ ends_size ch = true
    | _ => False
    end.

Lemma size_loop_call out rest : forall d junk, dec_wf d -> _state d = CHUNKED_IN_CHUNK_SIZE ->
  size_read d out junk rest (size_loop (length rest) (call d out junk rest)).
Proof.
  induction rest as [|ch rest IH]; intros d junk Hd Hs; cbn [length size_loop].
  { exists d, [], [], (Exit (-2)). rewrite (app_nil_r junk). split_and!; try done. by left. }
  unfold mbind, M_bind, gets. rewrite cur_call. cbn [decoder call].
  assert (forall r, (match r with
      | Exit ret => ret = -1 /\ byte_step (consume_trailer d) (abs_dec d) ch = Bad
      | Fallthru => decode_hex ch = -1 /\ _hex_count d <> 0 /\ ends_size ch = true
      | _ => False end) ->
    size_read d out junk (ch :: rest) (Ret r (call d out junk (ch :: rest)))) as Hstop.
  { intros r Hr. exists d, [], (ch :: rest), r. rewrite (app_nil_r junk).
    split_and!; try done. destruct r; try done; [by eauto|].
    destruct Hr as (-> & E). right. split; [done|]. simpl. by rewrite E. }
  destruct (Z.eqb_spec (decode_hex ch) (-1)) as [Ex|Ex].
  - destruct (Z.eqb_spec (_hex_count d) 0) as [E0|E0]; [|destruct (ends_size ch) eqn:Ee]; apply Hstop; try done.
    + unfold abs_dec, byte_step. rewrite Hs, E0, Ex. done.
    + unfold abs_dec, byte_step. rewrite Hs, Ex, Ee. simpl.
      rewrite (proj2 (Z.eqb_neq _ _) E0). unfold ends_size in Ee.
      destruct (ch =? LF); [|done]. by rewrite !orb_true_r in Ee.
  - destruct (Z.eqb_spec (_hex_count d) 16) as [E16|E16].
    + apply Hstop. unfold abs_dec, byte_step. rewrite Hs, E16, (proj2 (Z.eqb_neq _ _) Ex). done.
    + unfold modify. rewrite on_decoder_call, step_src_call.
      destruct (decode_hex_range ch) as [|Hv]; [done|].
      destruct (add_digit_wf d _ Hd Hs Hv E16) as (Hd1 & Ha).
      destruct (IH (add_digit (decode_hex ch) d) (junk ++ [ch]) Hd1 Hs)
        as (d' & pre & post & r & -> & E & Hk & Hd' & Hs' & Hdec & Hr).
      exists d', (ch :: pre), post, r. rewrite E, <- (assoc_L (++)).
      split_and!; try done. cbn [decode]. unfold abs_dec at 1. rewrite Hs. cbn [byte_step].
      rewrite (proj2 (Z.eqb_neq _ _) Ex), (proj2 (Z.eqb_neq _ _) E16), prepend_nil, <- Ha. exact Hdec.
Qed.

Lemma refines_size : refines CHUNKED_IN_CHUNK_SIZE CHUNKED_IN_CHUNK_EXT in_chunk_size.
Proof.
  intros d out junk rest Hd Hs.
  destruct (size_loop_call out rest d junk Hd Hs)
    as (d' & pre & post & r & -> & E & Hk & Hd' & Hs' & Hdec & Hr).
  unfold in_chunk_size, mbind, M_bind, gets. rewrite unread_call, E.
  assert (length (@nil Z) + length (junk ++ pre) + length post = length junk + length (pre ++ post))%nat
    by (rewrite !length_app; simpl; lia).
  destruct r as [| |ret|]; try done.
  - destruct Hr as (ch & l & -> & Ex & H0 & He). run_case. rewrite ?on_decoder_call.
    set (d2 := set_chunked_state CHUNKED_IN_CHUNK_EXT (set_hex_count 0 d')).
    eexists _, _. split; [reflexivity|]. exists d2, [], (junk ++ pre), (ch :: l).
    assert (dec_wf d2) as Hd2 by (unfold dec_wf, d2 in *; simpl; lia).
    split; [by rewrite app_nil_r|]. split; [exact Hk|]. split; [done|]. split; [done|]. cbv zeta.
    split_and!; [|rewrite length_app; simpl; lia|done]. rewrite Hdec, prepend_nil. unfold abs_dec at 1. rewrite Hs'.
    unfold abs_dec, d2. cbn [_state set_chunked_state set_hex_count bytes_left_in_chunk decode byte_step].
    rewrite (proj2 (Z.eqb_eq _ _) Ex), (proj2 (Z.eqb_neq _ _) H0), He. by destruct (ch =? LF).
  - eexists _, _. split; [reflexivity|]. exists d', [], (junk ++ pre), post.
    split; [by rewrite app_nil_r|]. split; [exact Hk|]. split; [exact Hd'|]. split; [done|].
    cbv zeta in *. destruct Hr as [(-> & ->)|(-> & Hr)]; [left|right; by rewrite Hdec].
    split_and!; [done..|]. by rewrite Hdec.
Qed.

Lemma refines_data : refines CHUNKED_IN_CHUNK_DATA CHUNKED_IN_CHUNK_CRLF in_chunk_data.
Proof.
  intros d out junk rest (Hh & Hl & Hw) Hs. rewrite Hs in Hw.
  unfold in_chunk_data, get_st, mbind at 1, M_bind at 1.
  assert (length (chunk_buf (call d out junk rest)) - src (call d out junk rest) = length rest)%nat as ->
    by (simpl; rewrite !length_app; lia).
  cbn [decoder call]. destruct (Z.ltb_spec (Z.of_nat (length rest)) (bytes_left_in_chunk d)).
  - destruct (move_call (length rest) d out junk rest) as (junk' & Hj & E); [lia|]. rewrite E. clear E.
    rewrite firstn_all, drop_all. run_case.
    set (d' := set_left (u64 (bytes_left_in_chunk d - Z.of_nat (length rest))) d).
    assert (u64 (bytes_left_in_chunk d - Z.of_nat (length rest)) =
      bytes_left_in_chunk d - Z.of_nat (length rest)) as Eu by (apply (wrap_small 64); lia).
    eexists _, _. split; [reflexivity|]. exists d', rest, junk', [].
    split; [done|]. split; [done|]. split.
    { unfold dec_wf, d'. simpl. rewrite Hs, Eu. lia. }
    split; [simpl; lia|]. left. split; [done|split; [done|]]. unfold abs_dec, d'.
    cbn [_state set_left bytes_left_in_chunk]. rewrite Hs, Eu.
    rewrite <- (app_nil_r rest) at 1. rewrite decode_data by lia.
    destruct (Z.eqb_spec (bytes_left_in_chunk d) (Z.of_nat (length rest))); [lia|].
    unfold prepend. simpl. by rewrite app_nil_r.
  - set (n := Z.to_nat (bytes_left_in_chunk d)).
    destruct (move_call n d out junk rest) as (junk' & Hj & E); [lia|]. rewrite E. clear E.
    run_case.
    eexists _, _. split; [reflexivity|].
    exists (set_chunked_state CHUNKED_IN_CHUNK_CRLF (set_left 0 d)), (take n rest), junk', (drop n rest).
    split; [done|]. split; [done|]. split; [unfold dec_wf; simpl; lia|].
    split; [rewrite length_take, length_drop; lia|].
    split_and!; [|rewrite length_drop; lia|done].
    unfold abs_dec. cbn [_state set_chunked_state set_left]. rewrite Hs.
    rewrite <- (take_drop n rest) at 1. rewrite decode_data by (rewrite ?length_take; lia).
    rewrite length_take, (proj2 (Z.eqb_eq _ _)) by lia. done.
Qed.

(** A case that reads up to a byte that stops it, having written nothing. *)
Lemma refines_scan s nxt stop (k : C flow) :
  (forall d, dec_wf d -> _state d = s -> forall ch, stop ch = false ->
     byte_step (consume_trailer d) (abs_dec d) ch = Goes (abs_dec d) []) ->
  (forall d out junk ch l, dec_wf d -> _state d = s -> stop ch = true ->
     exists r c, k (call d out junk (ch :: l)) = Ret r c /\ reaches d out junk (ch :: l) nxt r c) ->
  refines s nxt (found ← scan_to stop; if negb found then mret (Exit (-2)) else k).
Proof.
  intros Hskip Hk d out junk rest Hd Hs.
  destruct (scan_to_call stop d out junk rest) as (pre & post & -> & Hpre & H).
  assert (forall l, decode (consume_trailer d) (abs_dec d) (pre ++ l) =
    decode (consume_trailer d) (abs_dec d) l) as E.
  { intros l. apply decode_skip. eapply Forall_impl; [exact Hpre|]. by apply Hskip. }
  destruct post as [|ch l].
  - run_case. rewrite H. answers d (@nil Z) (junk ++ pre) (@nil Z).
    split; [done|]. split; [rewrite !length_app; simpl; lia|]. left. by rewrite E.
  - destruct H as (Hch & H). unfold mbind, M_bind. rewrite H. cbn [negb].
    destruct (Hk d out (junk ++ pre) ch l Hd Hs Hch)
      as (r & c & Er & d' & out' & junk' & rest' & Hc & Hkd & Hd' & Hl & R).
    exists r, c. split; [done|]. exists d', out', junk', rest'.
    do 3 (split; [done|]). rewrite !length_app in *. simpl in *. split; [lia|].
    rewrite E. destruct r as [| |ret|]; [destruct R as (R & ?)|destruct R as (R & ? & ?)|exact R|exact R];
      split_and!; done || lia.
Qed.

Lemma refines_crlf nxt : refines CHUNKED_IN_CHUNK_CRLF nxt in_chunk_crlf.
Proof.
  apply refines_scan.
  - intros d _ Hs ch Hch. unfold abs_dec. rewrite Hs. simpl. by destruct (ch =? CR).
  - intros d out junk ch l (Hh & Hl & Hw) Hs Hch. rewrite Hs in Hw.
    assert (dec_wf d) as Hd by (unfold dec_wf; by rewrite Hs).
    assert (abs_dec d = AtCrlf) as Ea by (unfold abs_dec; by rewrite Hs).
    unfold mbind, M_bind. rewrite cur_call. destruct (Z.eqb_spec ch LF) as [->|]; cbn [negb].
    + rewrite step_src_call. run_case.
      answers (set_chunked_state CHUNKED_IN_CHUNK_SIZE d) (@nil Z) (junk ++ [LF]) l.
      split; [unfold dec_wf; simpl; destruct Hw as (-> & ->); lia|].
      split; [rewrite length_app; simpl; lia|]. cbv zeta. rewrite Ea.
      split; [|simpl; lia]. rewrite prepend_nil. unfold abs_dec. simpl.
      destruct Hw as (-> & ->). by rewrite prepend_nil.
    + answers d (@nil Z) junk (ch :: l). split; [done|split; [done|]]. right.
      split; [done|]. rewrite Ea. simpl. destruct (ch =? CR); [done|].
      by rewrite (proj2 (Z.eqb_neq ch LF)).
Qed.

Lemma refines_head :
  refines CHUNKED_IN_TRAILERS_LINE_HEAD CHUNKED_IN_TRAILERS_LINE_MIDDLE in_trailers_line_head.
Proof.
  apply refines_scan.
  - intros d _ Hs ch Hch. unfold abs_dec. rewrite Hs. simpl. by destruct (ch =? CR).
  - intros d out junk ch l (Hh & Hl & Hw) Hs Hch. rewrite Hs in Hw.
    assert (abs_dec d = AtHead) as Ea by (unfold abs_dec; by rewrite Hs).
    unfold mbind, M_bind. rewrite cur_call, step_src_call.
    destruct (ch =? LF) eqn:E.
    + answers d (@nil Z) (junk ++ [ch]) l. split; [unfold dec_wf; by rewrite Hs|].
      split; [rewrite length_app; simpl; lia|]. cbv zeta. rewrite Ea. simpl. rewrite E.
      by destruct (ch =? CR).
    + run_case. answers (set_chunked_state CHUNKED_IN_TRAILERS_LINE_MIDDLE d) (@nil Z) (junk ++ [ch]) l.
      split; [done|]. split; [rewrite length_app; simpl; lia|]. cbv zeta. rewrite Ea. simpl. rewrite E.
      split_and!; [by destruct (ch =? CR)|lia|done].
Qed.

Lemma refines_middle nxt : refines CHUNKED_IN_TRAILERS_LINE_MIDDLE nxt in_trailers_line_middle.
Proof.
  apply refines_scan.
  - intros d _ Hs ch Hch. unfold abs_dec. rewrite Hs. simpl. by rewrite Hch.
  - intros d out junk ch l (Hh & Hl & Hw) Hs Hch. rewrite Hs in Hw.
    assert (abs_dec d = AtMiddle) as Ea by (unfold abs_dec; by rewrite Hs).
    unfold mbind, M_bind. rewrite step_src_call. run_case.
    answers (set_chunked_state CHUNKED_IN_TRAILERS_LINE_HEAD d) (@nil Z) (junk ++ [ch]) l.
    split; [done|]. split; [rewrite length_app; simpl; lia|]. cbv zeta. rewrite Ea. simpl. rewrite Hch.
    split; [done|lia].
Qed.

(** ** The loop *)

Lemma switch_refines d out junk rest : dec_wf d ->
  exists r c, chunked_switch (call d out junk rest) = Ret r c /\
    reaches d out junk rest CHUNKED_CORRUPT r c.
Proof.
  intros Hd.
  assert (refines CHUNKED_IN_CHUNK_DATA CHUNKED_CORRUPT (fallthru in_chunk_data in_chunk_crlf)) as Hdata
    by (eapply refines_fallthru; [apply refines_data|apply refines_crlf]).
  assert (refines CHUNKED_IN_CHUNK_EXT CHUNKED_CORRUPT
    (fallthru in_chunk_ext (fallthru in_chunk_data in_chunk_crlf))) as Hext
    by (eapply refines_fallthru; [apply refines_ext|exact Hdata]).
  unfold chunked_switch, gets, mbind, M_bind. cbn [decoder call].
  destruct (_state d) eqn:Hs.
  - by apply (refines_fallthru _ _ _ _ _ refines_size Hext).
  - by apply Hext.
  - by apply Hdata.
  - by apply refines_crlf.
  - by apply (refines_fallthru _ _ _ _ _ refines_head (refines_middle _)).
  - by apply refines_middle.
  - destruct Hd as (_ & _ & Hd). by rewrite Hs in Hd.
Qed.

(** How the loop ends: it wrote what the machine writes, and answers for how
    the machine ended. *)
Lemma loop_refines n : forall d out junk rest, dec_wf d -> (length rest < n)%nat ->
  exists ret d' out' junk' rest',
    chunked_loop n (call d out junk rest) = Ret ret (call d' (out ++ out') junk' rest') /\
    keeps d d' /\ dec_wf d' /\
    (length out' + length junk' + length rest' = length junk + length rest)%nat /\
    exists v, decode (consume_trailer d) (abs_dec d) rest = (out', v) /\
    match v with
    | Incomplete s => s = abs_dec d' /\ rest' = [] /\ ret = -2
    | Malformed => ret = -1
    | Ended r => r = rest' /\ ret = Z.of_nat (length rest')
    end.
Proof.
  induction n as [|n IH]; intros d out junk rest Hd Hn; [lia|].
  destruct (switch_refines d out junk rest Hd)
    as (r & c & E & d' & out' & junk' & rest' & -> & Hk & Hd' & Hl & R).
  cbn [chunked_loop]. unfold mbind, M_bind. rewrite E. cbv zeta in R.
  destruct r as [| |ret|].
  - destruct R as (Hdec & Hlt). rewrite Hdec. clear Hdec.
    destruct (IH d' (out ++ out') junk' rest' Hd')
      as (ret & d2 & out2 & junk2 & rest2 & E2 & Hk2 & Hd2 & Hl2 & v & Hv & R); [lia|].
    exists ret, d2, (out' ++ out2), junk2, rest2. rewrite E2, (assoc_L (++)), length_app.
    split_and!; [done|by transitivity d'|done|lia|]. exists v. split; [|done].
    assert (consume_trailer d' = consume_trailer d) as <- by apply Hk. by rewrite Hv.
  - destruct R as (_ & _ & Hs). destruct Hd' as (_ & _ & Hd'). by rewrite Hs in Hd'.
  - exists ret, d', out', junk', rest'. split_and!; [done..|].
    destruct R as [(-> & -> & ->)|(-> & ->)]; eexists; (split; [done|]); by split_and?.
  - exists (Z.of_nat (length rest')), d', out', junk', rest'. split_and!; [|done..|by eexists].
    unfold gets. f_equal. simpl. rewrite !length_app. lia.
Qed.

(** ** The call *)

(** The positions stay inside the buffer and the call returns: it leaves the
    body at the front of the buffer, what follows the end of the text behind
    it, and the decoder at the state of the machine. *)
Lemma decode_chunked_call d buf : dec_wf d ->
  exists ret d' buf', phr_decode_chunked d buf =
    Ok (ret, d', buf', length (decode (consume_trailer d) (abs_dec d) buf).1) /\
  length buf' = length buf /\ dec_wf d' /\ consume_trailer d' = consume_trailer d /\
  let '(out, v) := decode (consume_trailer d) (abs_dec d) buf in
  match v with
  | Incomplete s => s = abs_dec d' /\ take (length out) buf' = out /\
      _total_overhead d' = u64 (_total_overhead d + Z.of_nat (length buf - length out)) /\
      _total_read d' = u64 (_total_read d + Z.of_nat (length buf)) /\
      ret = (if too_much_overhead d' then -1 else -2)
  | Malformed => ret = -1 /\ take (length out) buf' = out
  | Ended rest => ret = Z.of_nat (length rest) /\
      take (length out) buf' = out /\ take (length rest) (drop (length out) buf') = rest
  end.
Proof.
  intros Hd. unfold phr_decode_chunked.
  set (d0 := set_total_read _ d).
  destruct (loop_refines (S (length buf)) d0 [] [] buf)
    as (ret & d' & out & junk & rest & E & (Ht & Hr & Ho) & Hd' & Hl & v & Hv & R); [done|lia|].
  change (decode (consume_trailer d) (abs_dec d) buf) with
    (decode (consume_trailer d0) (abs_dec d0) buf). rewrite Hv. cbn [fst].
  unfold mbind, M_bind. change (mkCall d0 buf 0 0) with (call d0 [] [] buf). rewrite E.
  cbn [get_st]. cbn [app] in Hl |- *. unfold get_st.
  (* the bytes behind the end of the text *)
  assert (exists tail, length (out ++ tail) = length buf /\ take (length rest) tail = rest /\
    exists n, move_down (length buf - src (call d' out junk rest)) (call d' out junk rest) =
      Ret tt (mkCall d' (out ++ tail) (length out) n)) as (tail & Htail & Hrest & n & ->).
  { unfold move_down, call. cbn [dst src chunk_buf decoder].
    destruct (Nat.eqb_spec (length out) (length out + length junk)).
    - destruct junk; [|simpl in *; lia]. exists rest. rewrite firstn_all, length_app.
      simpl in *. split; [lia|]. split; [done|]. by eexists.
    - unfold slice. rewrite decide_True by (rewrite !length_app; simpl in *; lia).
      replace (drop (length out + length junk) (out ++ junk ++ rest)) with rest
        by (rewrite (assoc_L (++)), <- length_app; by rewrite drop_app_length).
      rewrite take_ge by (simpl in *; lia).
      unfold store. rewrite decide_True by (rewrite !length_app; lia).
      exists (rest ++ drop (length out + length rest) (out ++ junk ++ rest)).
      rewrite take_app_length. split_and!; [|done|].
      + rewrite !length_app, length_drop, !length_app. simpl in *. lia.
      + rewrite take_app_length. by eexists. }
  assert (take (length out) (out ++ tail) = out) as Hout by apply take_app_length.
  unfold mret, M_ret. cbn [decoder dst chunk_buf].
  destruct v as [s| |r].
  - destruct R as (-> & -> & ->). cbn [Z.eqb]. eexists _, _, _. split; [reflexivity|].
    split_and!; try done. simpl. by rewrite Ho.
  - subst ret. eexists _, _, _. by split_and!.
  - destruct R as (-> & ->).
    destruct (Z.eqb_spec (Z.of_nat (length rest)) (-2)); [lia|].
    eexists _, _, _. split; [reflexivity|]. split_and!; try done.
    by rewrite drop_app_length.
Qed.

(** ** A body in pieces *)

(** The use that the header asks for: call again with what arrives next for
    as long as the answer is [-2]. The body, the last answer, and the bytes
    that were not decoded. *)
Fixpoint decode_pieces (d : phr_chunked_decoder) (pieces : list (list Z)) :
    res (list Z * Z * list Z) :=
  match pieces with
  | [] => Ok ([], -2, [])
  | p :: ps =>
      '(ret, d', buf, n) ← phr_decode_chunked d p;
      if ret =? -2 then
        '(body, r, tail) ← decode_pieces d' ps;
        Ok (take n buf ++ body, r, tail)
      else Ok (take n buf, ret, take (Z.to_nat ret) (drop n buf) ++ concat ps)
  end.

Definition hex_value (n : Z) (digits : list Z) : Z :=
  fold_left (fun n ch => n * 16 + decode_hex ch) digits n.

(** The line with the size of a chunk: digits of either case, then perhaps
    blanks, an extension or a carriage return. *)
Definition size_line (n : Z) (line : list Z) : Prop :=
  exists digits ext, line = digits ++ ext ++ [LF] /\
    Forall (fun ch => decode_hex ch <> -1) digits /\ (0 < length digits <= 16)%nat /\
    hex_value 0 digits = n /\
    match ext with [] => True | ch :: ext' => ends_size ch = true /\ ch <> LF /\ LF ∉ ext' end.

Inductive trailer_lines : list Z -> Prop :=
  | trailers_end crs : Forall (fun ch => ch = CR) crs -> trailer_lines (crs ++ [LF])
  | trailers_line crs ch line text : Forall (fun ch => ch = CR) crs ->
      ch <> CR -> ch <> LF -> LF ∉ line -> trailer_lines text ->
      trailer_lines (crs ++ [ch] ++ line ++ [LF] ++ text).

(** [text] is a body in chunks. *)
Inductive chunk_encoding (trailer : bool) : list Z -> list Z -> Prop :=
  | last_chunk line tail : size_line 0 line ->
      (if trailer then trailer_lines tail else tail = []) ->
      chunk_encoding trailer [] (line ++ tail)
  | one_chunk line chunk crs body text : chunk <> [] ->
      size_line (Z.of_nat (length chunk)) line -> Forall (fun ch => ch = CR) crs ->
      chunk_encoding trailer body text ->
      chunk_encoding trailer (chunk ++ body) (line ++ chunk ++ crs ++ [LF] ++ text).

Lemma decode_digits t digits : forall n k l, Forall (fun ch => decode_hex ch <> -1) digits ->
  0 <= k -> k + Z.of_nat (length digits) <= 16 ->
  decode t (AtSize n k) (digits ++ l) =
  decode t (AtSize (hex_value n digits) (k + Z.of_nat (length digits))) l.
Proof.
  induction digits as [|ch digits IH]; intros n k l Hd Hk H16.
  - simpl. by rewrite Z.add_0_r.
  - inversion_clear Hd. cbn [length app decode byte_step] in *.
    rewrite (proj2 (Z.eqb_neq _ _)) by done. rewrite (proj2 (Z.eqb_neq k 16)) by lia.
    rewrite prepend_nil, IH by (done || lia). unfold hex_value. simpl. do 2 f_equal. lia.
Qed.

Lemma Forall_not_elem (x : Z) l : x ∉ l -> Forall (fun ch => (ch =? x) = false) l.
Proof. intros H. apply Forall_forall. intros ch Hch. apply Z.eqb_neq. congruence. Qed.

Lemma decode_size_line t n line l : size_line n line ->
  decode t (AtSize 0 0) (line ++ l) =
  match after_size t n with
  | Goes s out => prepend out (decode t s l) | Bad => ([], Malformed) | Ends => ([], Ended l)
  end.
Proof.
  intros (digits & ext & -> & Hd & Hlen & <- & He).
  rewrite <- !(assoc_L (++)), decode_digits by (done || lia). rewrite Z.add_0_l.
  assert ((Z.of_nat (length digits) =? 0) = false) as H0 by (apply Z.eqb_neq; lia).
  destruct ext as [|ch ext].
  { cbn [app decode byte_step]. rewrite H0. done. }
  destruct He as (He & Hlf & Hext).
  assert (decode_hex ch = -1) as Hx.
  { revert He. unfold ends_size. rewrite !orb_true_iff, !Z.eqb_eq.
    intros [[[[->| ->]| ->]| ->]| ->]; done. }
  cbn [app decode byte_step]. rewrite Hx, Z.eqb_refl, H0, (proj2 (Z.eqb_neq _ _) Hlf), He, prepend_nil.
  rewrite decode_skip; [done|]. eapply Forall_impl; [by apply Forall_not_elem|].
  intros c E. simpl. by rewrite E.
Qed.

Lemma decode_trailers text : trailer_lines text ->
  forall l, decode true AtHead (text ++ l) = ([], Ended l).
Proof.
  assert (forall crs l, Forall (fun ch => ch = CR) crs ->
    decode true AtHead (crs ++ l) = decode true AtHead l) as Hcr.
  { intros crs l H. apply decode_skip. eapply Forall_impl; [exact H|]. by intros ch ->. }
  induction 1 as [crs H|crs ch line text H Hc Hl Hline _ IH]; intros l; rewrite <- !(assoc_L (++)), Hcr by done.
  - done.
  - cbn [app decode byte_step]. rewrite (proj2 (Z.eqb_neq ch CR)), (proj2 (Z.eqb_neq ch LF)) by done.
    rewrite prepend_nil, decode_skip.
    + change (decode true AtMiddle (LF :: text ++ l)) with (prepend [] (decode true AtHead (text ++ l))).
      by rewrite prepend_nil, IH.
    + eapply Forall_impl; [by apply Forall_not_elem|]. intros c E. simpl. by rewrite E.
Qed.

Lemma decode_encoding t body text : chunk_encoding t body text ->
  forall l, decode t (AtSize 0 0) (text ++ l) = (body, Ended l).
Proof.
  induction 1 as [line tail Hline Ht|line chunk crs body text Hne Hline Hcr _ IH]; intros l;
    rewrite <- !(assoc_L (++)), (decode_size_line _ _ _ _ Hline); unfold after_size.
  - destruct t; [|by subst tail]. rewrite Z.eqb_refl. by rewrite prepend_nil, decode_trailers.
  - assert (0 < length chunk)%nat by (destruct chunk; [done|simpl; lia]).
    destruct (Z.eqb_spec (Z.of_nat (length chunk)) 0); [lia|]. cbv iota beta.
    rewrite prepend_nil, decode_data, Z.eqb_refl by lia.
    rewrite decode_skip by (eapply Forall_impl; [exact Hcr|]; by intros ch ->).
    change (decode t AtCrlf ([LF] ++ text ++ l)) with (prepend [] (decode t (AtSize 0 0) (text ++ l))).
    by rewrite prepend_nil, IH.
Qed.

Lemma decode_pieces_ends pieces : forall d out rest, dec_wf d -> 0 <= _total_overhead d ->
  decode (consume_trailer d) (abs_dec d) (concat pieces) = (out, Ended rest) ->
  _total_overhead d + Z.of_nat (length (concat pieces) - length rest - length out) < 100 * 1024 ->
  exists ret, 0 <= ret /\ decode_pieces d pieces = Ok (out, ret, rest).
Proof.
  induction pieces as [|p ps IH]; intros d out rest Hd H0 Hdec Hov; [done|].
  cbn [concat decode_pieces] in *. rewrite decode_app in Hdec.
  destruct (decode_chunked_call d p Hd) as (ret & d' & buf & E & Hb & Hd' & Ht & H).
  rewrite E. cbn [mbind res_bind]. clear E.
  destruct (decode (consume_trailer d) (abs_dec d) p) as [o [s| |r]] eqn:Ep; [|done|].
  - destruct H as (-> & Htake & Ho & _ & ->). cbn [fst].
    destruct (decode (consume_trailer d) (abs_dec d') (concat ps)) as [o2 v2] eqn:E2.
    injection Hdec as <- ->. apply length_decode in Ep as Hlen. simpl in Hlen. rewrite !length_app in Hov.
    apply length_decode in E2 as Hlen2. simpl in Hlen2.
    rewrite (wrap_small 64) in Ho by lia.
    assert (too_much_overhead d' = false) as ->.
    { unfold too_much_overhead. rewrite (proj2 (Z.leb_gt _ _)) by lia. done. }
    destruct (IH d' o2 rest Hd') as (ret & Hret & E); [lia|by rewrite Ht|lia|].
    exists ret. rewrite E. cbn. by rewrite Htake.
  - destruct H as (-> & Htake & Hrest). injection Hdec as <- <-. cbn [fst].
    exists (Z.of_nat (length r)). split; [lia|].
    destruct (Z.eqb_spec (Z.of_nat (length r)) (-2)); [lia|]. by rewrite Nat2Z.id, Htake, Hrest.
Qed.

(** C24: a body in chunks comes out however it arrives. For every text that
    encodes a body in chunks, with sizes in either case, extensions, and
    trailers where the decoder is to consume them, cut into any pieces: calls
    on the pieces one after the other return each time, never answer that the
    text is malformed, write exactly the body, and end where the text ends;
    as long as the encoding takes less than the 100 KB from which on it is
    refused. *)
Theorem chunked_body_in_pieces trailer body text rest pieces :
  chunk_encoding trailer body text -> concat pieces = text ++ rest ->
  Z.of_nat (length text - length body) < 100 * 1024 ->
  exists ret, 0 <= ret /\
    decode_pieces (chunked_start trailer) pieces = Ok (body, ret, rest).
Proof.
  intros He Hp Hov. apply decode_pieces_ends; [done|done| |].
  - rewrite Hp. by apply decode_encoding.
  - rewrite Hp, length_app. simpl. lia.
Qed.

Definition ex_trailer : list Z := bytes_of_string "X: y" ++ [CR; LF] ++ [CR; LF].
Definition ex_chunks : list Z :=
  (bytes_of_string "0E;n=v" ++ [CR] ++ [LF]) ++ bytes_of_string "hello, chunked" ++ [CR] ++ [LF] ++
  (bytes_of_string "3" ++ [CR] ++ [LF]) ++ bytes_of_string "bye" ++ [CR] ++ [LF] ++
  (bytes_of_string "0" ++ [CR] ++ [LF]) ++ ex_trailer.

Lemma ex_chunks_encode :
  chunk_encoding true (bytes_of_string "hello, chunked" ++ bytes_of_string "bye" ++ []) ex_chunks.
Proof.
  assert (Forall (fun ch => ch = CR) [CR]) as Hcr by by constructor.
  unfold ex_chunks. apply one_chunk; [done| |done|apply one_chunk; [done| |done|apply last_chunk]].
  - exists (bytes_of_string "0E"), (bytes_of_string ";n=v" ++ [CR]).
    split; [done|]. split; [by repeat constructor|]. split; [simpl; lia|]. split; [done|].
    split; [done|]. split; [done|]. by apply (bool_decide_unpack _).
  - exists (bytes_of_string "3"), [CR]. split; [done|]. split; [by repeat constructor|].
    split; [simpl; lia|]. by split_and!; try apply not_elem_of_nil.
  - exists (bytes_of_string "0"), [CR]. split; [done|]. split; [by repeat constructor|].
    split; [simpl; lia|]. by split_and!; try apply not_elem_of_nil.
  - apply (trailers_line [] 88 (bytes_of_string ": y" ++ [CR]) [CR; LF]); [done..| |].
    + by apply (bool_decide_unpack _).
    + by apply (trailers_end [CR]).
Qed.

Lemma chunked_body_in_pieces_witness : exists ret, 0 <= ret /\
  decode_pieces (chunked_start true)
    [take 10 ex_chunks; []; take 20 (drop 10 ex_chunks); drop 30 ex_chunks ++ bytes_of_string "GET /"] =
  Ok (bytes_of_string "hello, chunkedbye", ret, bytes_of_string "GET /").
Proof.
  apply (chunked_body_in_pieces true (bytes_of_string "hello, chunkedbye") ex_chunks
    (bytes_of_string "GET /")); [exact ex_chunks_encode|reflexivity|reflexivity].
Defined.
