(* ===== verification/Rlp.v ===== *)
(** * RLP datagrams: the wire format in [src/state.cc]

    Credit requests, credit grants and credit returns share one layout of 26
    bytes and the service name:
    - [0] length, [1] 0x01 (request or grant) or 0x02 (return),
    - [2] 0x00 request or 0x01 grant, [3] requested and [4] granted credits,
    - [5..12] RPC id, [13] priority, [14..21] sender's clock, big-endian,
    - [22..25] last RTT (request) or time in the credit queue (grant).
    Bytes are 0..255; a [char] read from a buffer is signed. *)

From Stdlib Require Import ZArith Lia Ascii.
From stdpp Require Import base gmap strings list fin_maps.
From S2P Require Import Prelude Fp Buffers.

Open Scope Z_scope.

Definition RLP_HEADER : nat := 26.

(** Consecutive [data.at(i) = ...]: throws past the end. *)
Definition at_write (d : list Z) (i : nat) (bs : list Z) : res (list Z) :=
  if decide (i + length bs <= length d)%nat then store d i bs else Err (Throw OutOfRange).

(** Bytes read with [data.at(i)], and with [data[i]]. *)
Definition at_read (d : list Z) (i n : nat) : res (list Z) := or_fault (Throw OutOfRange) (slice i n d).
Definition raw_read (d : list Z) (i n : nat) : res (list Z) := or_fault Undefined (slice i n d).

(** A stored [char] as an integer. *)
Definition char_at (d : list Z) (i : nat) : res Z := b ← or_fault Undefined (d !! i); Ok (schar b).

(** ** Credit requests: [State::send_credit_request] *)

Definition fill_credit_request (b : Buffer) (service : string) (num_credits id priority now_us last_rtt : Z)
    : res Buffer :=
  let len := Z.of_nat RLP_HEADER + Z.of_nat (String.length service) in
  _ ← fatal_if (Z.of_nat (length (data b)) <? len);
  d ← at_write (data b) 0 [wrap 8 len; 1; 0; wrap 8 num_credits];
  d ← at_write d 5 (be_bytes 8 id);
  d ← at_write d 13 [wrap 8 priority];
  d ← at_write d 14 (be_bytes 8 now_us);
  d ← at_write d 22 (be_bytes 4 last_rtt);
  d ← store d RLP_HEADER (bytes_of_string service);
  set_filled len (set_data d b).

(** ** Fields *)

(** [extract_service_from_rlp_req]: the length is read as a signed [char] and
    converted to [size_t]; a view past the buffer is undefined. *)
Definition extract_service_from_rlp_req (d : list Z) : res string :=
  t ← char_at d 1;
  _ ← fatal_if (negb (t =? 1) && negb (t =? 2));
  l ← char_at d 0;
  _ ← fatal_if (u64 l <? Z.of_nat RLP_HEADER);
  let n := u64 l - Z.of_nat RLP_HEADER in
  if Z.of_nat RLP_HEADER + n <=? Z.of_nat (length d)
  then string_of_bytes <$> raw_read d RLP_HEADER (Z.to_nat n)
  else Err Undefined.

Definition rlp_id (d : list Z) : res Z := bs ← at_read d 5 8; Ok (i64 (be_value bs)).
Definition rlp_priority (d : list Z) : res Z := bs ← at_read d 13 1; Ok (schar (be_value bs)).
Definition rlp_timestamp (d : list Z) : res Z := bs ← at_read d 14 8; Ok (i64 (be_value bs)).
Definition rlp_rtt (d : list Z) : res Z := bs ← at_read d 22 4; Ok (i32 (be_value bs)).

(** ** Credit grants and returns *)

Definition write_credit_grant (granted_credits : Z) (req grant : Buffer) : res Buffer :=
  _ ← fatal_if (u64 (Z.of_nat (length (data grant)) - filled grant) <? filled req);
  bs ← raw_read (data req) 0 (Z.to_nat (filled req));
  d ← store (data grant) 0 bs;
  d ← at_write d 2 [1];
  d ← at_write d 4 [wrap 8 granted_credits];
  set_filled (filled req) (set_data d grant).

Definition write_failed_dn_response (req resp : Buffer) : res Buffer :=
  resp ← write_credit_grant 1 req resp;
  Ok (prepare_sendmsg (addr req) resp).

(** The stamping of the time spent in the credit queue
    ([State::check_credit_transmission]). *)
Definition stamp_queuing_time (now_ts : Z) (b : Buffer) : res Buffer :=
  dt ← checked_i64 (now_ts - enter_queue_ts b);
  d ← at_write (data b) 22 (be_bytes 4 (i32 dt));
  Ok (set_data d b).

(** [State::prepare_credit_return], on the buffer it got. *)
Definition fill_credit_return (grant credit_ret : Buffer) : res Buffer :=
  _ ← fatal_if (u64 (bsize credit_ret - filled credit_ret) <? filled grant);
  bs ← raw_read (data grant) 0 (Z.to_nat (filled grant));
  d ← store (data credit_ret) 0 bs;
  b ← set_filled (filled grant) (set_data d credit_ret);
  d ← at_write (data b) 1 [2];
  Ok (prepare_sendmsg (addr grant) (set_data d b)).

(** ** Dispatch: [State::dispatch_rlp_recv] *)

Inductive rlp_kind := CreditReturn | CreditRequest | CreditGrant.

Definition classify (b : Buffer) : res rlp_kind :=
  let n := filled b in
  _ ← fatal_if (n <? 3);
  b0 ← or_fault Undefined (data b !! 0%nat);
  let declared := wrap 8 b0 in
  _ ← fatal_if ((declared <? Z.of_nat RLP_HEADER) || (n <? declared));
  b1 ← or_fault Undefined (data b !! 1%nat);
  b2 ← or_fault Undefined (data b !! 2%nat);
  if b1 =? 2 then Ok CreditReturn
  else if (b1 =? 1) && (b2 =? 0) then Ok CreditRequest
  else if (b1 =? 1) && (b2 =? 1) then Ok CreditGrant
  else Err Fatal.

(** ** Round-trip time ([State::credit_post_process]) *)

(** [int32_t total = (int32_t)(now_us - timestamp); rtt = total - queueing]. *)
Definition credit_rtt (now_us : Z) (d : list Z) : res Z :=
  timestamp ← rlp_timestamp d;
  queueing_time ← rlp_rtt d;
  dt ← checked_i64 (now_us - timestamp);
  checked_i32 (i32 dt - queueing_time).

(** ** Reading back what was written *)

Lemma slice_store_same (d bs d' : list Z) i : store d i bs = Ok d' -> slice i (length bs) d' = Some bs.
Proof.
  unfold store. case_decide as Hle; [|discriminate]. intros [= <-].
  apply slice_app_mid; [rewrite length_take; lia|done].
Qed.

Lemma slice_store_disj (d bs d' : list Z) i j n : store d i bs = Ok d' ->
  (j + n <= i \/ i + length bs <= j)%nat -> slice j n d' = slice j n d.
Proof.
  intros Hs Hd. pose proof (length_store _ _ _ _ Hs) as Hl.
  unfold store in Hs. case_decide as Hle; [|discriminate]. injection Hs as Hs.
  unfold slice. rewrite Hl. case_decide as Hn; [|done]. f_equal. subst d'.
  destruct Hd as [Hd|Hd].
  - rewrite !take_drop_commute, take_app_le by (rewrite length_take; lia).
    rewrite take_take. do 2 f_equal. lia.
  - rewrite app_assoc, drop_app_ge by (rewrite length_app, length_take; lia).
    rewrite length_app, length_take, drop_drop. do 2 f_equal. lia.
Qed.

(** [d'] is [d] with [bs] written at [i]. *)
Record wrote (d : list Z) (i : nat) (bs d' : list Z) : Prop := {
  wr_len : length d' = length d;
  wr_same : slice i (length bs) d' = Some bs;
  wr_disj j n : (j + n <= i \/ i + length bs <= j)%nat -> slice j n d' = slice j n d
}.

Lemma store_ok (d bs : list Z) i : (i + length bs <= length d)%nat ->
  exists d', store d i bs = Ok d' /\ wrote d i bs d'.
Proof.
  intros H. assert (exists d', store d i bs = Ok d') as [d' Hs].
  { unfold store. rewrite decide_True by done. eauto. }
  exists d'. split; [done|]. split; [by eapply length_store|by eapply slice_store_same|].
  intros. by eapply slice_store_disj.
Qed.

Lemma at_write_ok (d bs : list Z) i : (i + length bs <= length d)%nat ->
  exists d', at_write d i bs = Ok d' /\ wrote d i bs d'.
Proof. intros H. unfold at_write. rewrite decide_True by done. by apply store_ok. Qed.

Lemma slice_split (d : list Z) i n m a b : slice i (n + m) d = Some (a ++ b) -> length a = n ->
  slice i n d = Some a /\ slice (i + n) m d = Some b.
Proof.
  unfold slice. intros H Ha. case_decide; [|discriminate]. injection H as H.
  rewrite !decide_True by lia. rewrite <- (drop_drop d n i).
  split; f_equal.
  - rewrite <- (take_app_length' a b n) by done. rewrite <- H, take_take. f_equal. lia.
  - rewrite take_drop_commute, H, drop_app_length' by done. done.
Qed.

Lemma slice_one (d : list Z) i x : slice i 1 d = Some [x] <-> d !! i = Some x.
Proof.
  unfold slice. split.
  - case_decide; [|discriminate]. intros [= Hx].
    rewrite <- (Nat.add_0_r i), <- lookup_drop. destruct (drop i d); [done|]. simpl in *. congruence.
  - intros H. pose proof (lookup_lt_Some _ _ _ H). rewrite decide_True by lia.
    by rewrite (drop_S d x i H).
Qed.

(** ** What a datagram says *)

Record Packet := mkPacket {
  pk_type : Z;
  pk_flag : Z;
  pk_requested : Z;
  pk_id : Z;
  pk_priority : Z;
  pk_timestamp : Z;
  pk_rtt : Z;
  pk_service : string
}.

Definition pk_len (p : Packet) : Z := Z.of_nat RLP_HEADER + Z.of_nat (String.length (pk_service p)).

(** The bytes [d] carry the packet [p]. *)
Record carries (d : list Z) (p : Packet) : Prop := {
  ca_len : slice 0 1 d = Some [wrap 8 (pk_len p)];
  ca_type : slice 1 1 d = Some [pk_type p];
  ca_flag : slice 2 1 d = Some [pk_flag p];
  ca_requested : slice 3 1 d = Some [wrap 8 (pk_requested p)];
  ca_id : slice 5 8 d = Some (be_bytes 8 (pk_id p));
  ca_priority : slice 13 1 d = Some [wrap 8 (pk_priority p)];
  ca_timestamp : slice 14 8 d = Some (be_bytes 8 (pk_timestamp p));
  ca_rtt : slice 22 4 d = Some (be_bytes 4 (pk_rtt p));
  ca_service : slice RLP_HEADER (String.length (pk_service p)) d = Some (bytes_of_string (pk_service p))
}.

(** The fields fit their widths. *)
Record packet_ok (p : Packet) : Prop := {
  po_id : - 2 ^ 63 <= pk_id p < 2 ^ 63;
  po_priority : - 2 ^ 7 <= pk_priority p < 2 ^ 7;
  po_timestamp : - 2 ^ 63 <= pk_timestamp p < 2 ^ 63;
  po_rtt : - 2 ^ 31 <= pk_rtt p < 2 ^ 31
}.

(** Rewrite the slice of a buffer through the writes that produced it. *)
Ltac slices :=
  repeat match goal with
    | H : wrote _ ?i ?bs ?d' |- slice ?i ?n ?d' = Some ?bs => exact (wr_same _ _ _ _ H)
    | H : wrote _ ?i ?bs ?d' |- slice ?j ?n ?d' = _ =>
        rewrite (wr_disj _ _ _ _ H j n) by
          (unfold RLP_HEADER; rewrite ?length_be_bytes, ?length_bytes_of_string; simpl; lia)
    end.

Lemma fill_credit_request_ok b service num id priority now rtt :
  let p := mkPacket 1 0 num id priority now rtt service in
  pk_len p <= Z.of_nat (length (data b)) -> pk_len p <= bsize b ->
  exists b', fill_credit_request b service num id priority now rtt = Ok b' /\
    carries (data b') p /\ filled b' = pk_len p /\ length (data b') = length (data b) /\
    same_buffer b b'.
Proof.
  intros p Hlen Hsz. unfold pk_len in *. cbn [pk_service p] in *.
  assert (RLP_HEADER = 26%nat) as HR by done. unfold fill_credit_request.
  replace (_ <? _) with false by lia. cbn [fatal_if mbind res_bind].
  destruct (at_write_ok (data b) [wrap 8 (Z.of_nat RLP_HEADER + Z.of_nat (String.length service)); 1; 0; wrap 8 num] 0)
    as (d1 & -> & W1); [simpl; lia|]. pose proof (wr_len _ _ _ _ W1). cbn [mbind res_bind].
  destruct (at_write_ok d1 (be_bytes 8 id) 5) as (d2 & -> & W2); [rewrite length_be_bytes; lia|].
  pose proof (wr_len _ _ _ _ W2). cbn [mbind res_bind].
  destruct (at_write_ok d2 [wrap 8 priority] 13) as (d3 & -> & W3); [simpl; lia|].
  pose proof (wr_len _ _ _ _ W3). cbn [mbind res_bind].
  destruct (at_write_ok d3 (be_bytes 8 now) 14) as (d4 & -> & W4); [rewrite length_be_bytes; lia|].
  pose proof (wr_len _ _ _ _ W4). cbn [mbind res_bind].
  destruct (at_write_ok d4 (be_bytes 4 rtt) 22) as (d5 & -> & W5); [rewrite length_be_bytes; lia|].
  pose proof (wr_len _ _ _ _ W5). cbn [mbind res_bind].
  destruct (store_ok d5 (bytes_of_string service) RLP_HEADER) as (d6 & -> & W6);
    [rewrite length_bytes_of_string; lia|]. pose proof (wr_len _ _ _ _ W6). cbn [mbind res_bind].
  unfold set_filled. cbn [bsize set_data].
  replace (bsize b <? _) with false by lia.
  eexists. split; [reflexivity|]. cbn [data filled set_data].
  split; [|split; [done|split; [lia|done]]].
  destruct (slice_split d1 0 1 3 [wrap 8 (pk_len p)] [1; 0; wrap 8 num]) as [S0 S1];
    [exact (wr_same _ _ _ _ W1)|done|].
  destruct (slice_split d1 1 1 2 [1] [0; wrap 8 num] S1 eq_refl) as [S2 S3].
  destruct (slice_split d1 2 1 1 [0] [wrap 8 num] S3 eq_refl) as [S4 S5].
  split; cbn [p pk_type pk_flag pk_requested pk_id pk_priority pk_timestamp pk_rtt pk_service].
  - slices. exact S0.
  - slices. exact S2.
  - slices. exact S4.
  - slices. exact S5.
  - slices.
  - slices.
  - slices.
  - slices.
  - rewrite <- length_bytes_of_string. slices.
Qed.

(** Reading the fields of a packet. *)
Section Decode.
Context (d : list Z) (p : Packet) (Hc : carries d p) (Hp : packet_ok p).

Lemma i64_be_bytes z : - 2 ^ 63 <= z < 2 ^ 63 -> i64 (be_value (be_bytes 8 z)) = z.
Proof using Type.
  intros Hz. rewrite be_value_bytes. change (8 * Z.of_nat 8) with 64.
  fold (wrap 64 z). rewrite swrap_wrap by lia. apply swrap_small; simpl; lia.
Qed.

Lemma i32_be_bytes z : - 2 ^ 31 <= z < 2 ^ 31 -> i32 (be_value (be_bytes 4 z)) = z.
Proof using Type.
  intros Hz. rewrite be_value_bytes. change (8 * Z.of_nat 4) with 32.
  fold (wrap 32 z). rewrite swrap_wrap by lia. apply swrap_small; simpl; lia.
Qed.

Lemma read_id : rlp_id d = Ok (pk_id p).
Proof using All.
  unfold rlp_id, at_read. rewrite (ca_id _ _ Hc). cbn [or_fault mbind res_bind].
  by rewrite i64_be_bytes by apply Hp.
Qed.

Lemma read_timestamp : rlp_timestamp d = Ok (pk_timestamp p).
Proof using All.
  unfold rlp_timestamp, at_read. rewrite (ca_timestamp _ _ Hc). cbn [or_fault mbind res_bind].
  by rewrite i64_be_bytes by apply Hp.
Qed.

Lemma read_rtt : rlp_rtt d = Ok (pk_rtt p).
Proof using All.
  unfold rlp_rtt, at_read. rewrite (ca_rtt _ _ Hc). cbn [or_fault mbind res_bind].
  by rewrite i32_be_bytes by apply Hp.
Qed.

Lemma read_priority : rlp_priority d = Ok (pk_priority p).
Proof using All.
  unfold rlp_priority, at_read. rewrite (ca_priority _ _ Hc). cbn [or_fault mbind res_bind be_value length].
  rewrite Z.mul_0_r, Z.shiftl_0_r, Z.lor_0_r, swrap_wrap by lia.
  rewrite swrap_small; [done|lia|]. simpl. pose proof (po_priority _ Hp). simpl in *. lia.
Qed.

Lemma carries_byte i x : slice i 1 d = Some [x] -> d !! i = Some x.
Proof using Type. apply slice_one. Qed.

Lemma read_classify b : data b = d -> filled b = pk_len p -> pk_len p < 256 ->
  classify b = if pk_type p =? 2 then Ok CreditReturn
    else if (pk_type p =? 1) && (pk_flag p =? 0) then Ok CreditRequest
    else if (pk_type p =? 1) && (pk_flag p =? 1) then Ok CreditGrant else Err Fatal.
Proof using Hc.
  intros Hd Hf Hl. unfold classify. rewrite Hd, Hf.
  assert (26 <= pk_len p) by (unfold pk_len, RLP_HEADER; lia).
  replace (pk_len p <? 3) with false by lia. cbn [fatal_if mbind res_bind].
  rewrite (carries_byte _ _ (ca_len _ _ Hc)). cbn [or_fault mbind res_bind].
  rewrite wrap_wrap, (wrap_small 8) by lia.
  replace (pk_len p <? Z.of_nat RLP_HEADER) with false by (change (Z.of_nat RLP_HEADER) with 26; lia).
  rewrite Z.ltb_irrefl. cbn [orb fatal_if mbind res_bind].
  rewrite (carries_byte _ _ (ca_type _ _ Hc)), (carries_byte _ _ (ca_flag _ _ Hc)). done.
Qed.

Lemma read_header : pk_type p = 1 \/ pk_type p = 2 ->
  extract_service_from_rlp_req d =
    let l := u64 (schar (pk_len p)) in
    _ ← fatal_if (l <? Z.of_nat RLP_HEADER);
    let n := l - Z.of_nat RLP_HEADER in
    if Z.of_nat RLP_HEADER + n <=? Z.of_nat (length d)
    then string_of_bytes <$> raw_read d RLP_HEADER (Z.to_nat n)
    else Err Undefined.
Proof using Hc.
  intros Ht. unfold extract_service_from_rlp_req, char_at.
  rewrite (carries_byte _ _ (ca_type _ _ Hc)), (carries_byte _ _ (ca_len _ _ Hc)).
  cbn [or_fault mbind res_bind]. rewrite swrap_wrap by lia.
  destruct Ht as [-> | ->]; done.
Qed.

Lemma read_service : pk_type p = 1 \/ pk_type p = 2 -> pk_len p < 128 ->
  pk_len p <= Z.of_nat (length d) ->
  extract_service_from_rlp_req d = Ok (pk_service p).
Proof using Hc.
  intros Ht Hl Hd. rewrite read_header by done. cbv zeta.
  assert (26 <= pk_len p) by (unfold pk_len, RLP_HEADER; lia).
  rewrite swrap_small by (simpl; lia). rewrite wrap_small by lia.
  replace (pk_len p <? Z.of_nat RLP_HEADER) with false by (change (Z.of_nat RLP_HEADER) with 26; lia).
  cbn [fatal_if mbind res_bind]. replace (_ <=? _) with true by lia.
  replace (Z.to_nat (pk_len p - Z.of_nat RLP_HEADER)) with (String.length (pk_service p))
    by (unfold pk_len; lia).
  unfold raw_read. rewrite (ca_service _ _ Hc). simpl. by rewrite string_of_bytes_of_string.
Qed.

(** From 128 bytes on, the length is read as negative. *)
Lemma read_service_long : pk_type p = 1 \/ pk_type p = 2 -> 128 <= pk_len p < 256 ->
  Z.of_nat (length d) < 2 ^ 63 ->
  extract_service_from_rlp_req d = Err Undefined.
Proof using Hc.
  intros Ht Hl Hd. rewrite read_header by done. cbv zeta.
  assert (schar (pk_len p) = pk_len p - 256) as ->.
  { unfold swrap. change (2 ^ (8 - 1)) with 128. change (2 ^ 8) with 256.
    rewrite <- (Z_mod_plus_full _ (-1)), Z.mod_small; lia. }
  assert (u64 (pk_len p - 256) = pk_len p - 256 + 2 ^ 64) as ->.
  { unfold wrap. rewrite <- (Z_mod_plus_full _ 1), Z.mod_small; lia. }
  replace (_ <? Z.of_nat RLP_HEADER) with false by (change (Z.of_nat RLP_HEADER) with 26; lia).
  cbn [fatal_if mbind res_bind]. replace (_ <=? _) with false by (change (Z.of_nat RLP_HEADER) with 26; lia). done.
Qed.
End Decode.

(** ** Copies of a packet *)

Lemma slice_sub (d bs : list Z) m j n : slice 0 m d = Some bs -> (j + n <= m)%nat ->
  slice j n d = slice j n bs.
Proof.
  intros Hs Hj. apply slice_Some in Hs as (Hl & Hm & ->).
  rewrite length_take, length_drop in Hl. unfold slice. rewrite length_take, length_drop.
  rewrite !decide_True by lia. f_equal. rewrite drop_0, !take_drop_commute, take_take.
  do 2 f_equal. lia.
Qed.

Lemma copy_ok (src dst : list Z) m : (m <= length src)%nat -> (m <= length dst)%nat ->
  exists bs d', raw_read src 0 m = Ok bs /\ store dst 0 bs = Ok d' /\ length bs = m /\
    length d' = length dst /\
    forall j n, (j + n <= m)%nat -> slice j n d' = slice j n src.
Proof.
  intros Hs Hd. assert (exists bs, slice 0 m src = Some bs) as [bs Hb].
  { unfold slice. rewrite decide_True by lia. eauto. }
  pose proof (slice_Some _ _ _ _ Hb) as (Hl & _ & _).
  destruct (store_ok dst bs 0) as (d' & Hst & W); [lia|].
  exists bs, d'. unfold raw_read. rewrite Hb. split; [done|]. split; [done|]. split; [done|].
  split; [apply W|]. intros j n Hj. pose proof (wr_same _ _ _ _ W) as H. rewrite Hl in H.
  by rewrite (slice_sub _ _ _ _ _ H Hj), (slice_sub _ _ _ _ _ Hb Hj).
Qed.

(** A packet that fits the first [m] bytes of [d], copied. *)
Lemma carries_copy (d d' : list Z) p : carries d p ->
  (forall j n, (j + n <= Z.to_nat (pk_len p))%nat -> slice j n d' = slice j n d) -> carries d' p.
Proof.
  intros Hc H. assert (Z.to_nat (pk_len p) = 26 + String.length (pk_service p))%nat as E
    by (unfold pk_len; change (Z.of_nat RLP_HEADER) with 26; lia).
  rewrite E in H. split; rewrite H by (unfold RLP_HEADER; lia); apply Hc.
Qed.

Definition granted_packet (p : Packet) : Packet :=
  mkPacket (pk_type p) 1 (pk_requested p) (pk_id p) (pk_priority p) (pk_timestamp p) (pk_rtt p) (pk_service p).
Definition stamped_packet (t : Z) (p : Packet) : Packet :=
  mkPacket (pk_type p) (pk_flag p) (pk_requested p) (pk_id p) (pk_priority p) (pk_timestamp p) t (pk_service p).
Definition returned_packet (p : Packet) : Packet :=
  mkPacket 2 (pk_flag p) (pk_requested p) (pk_id p) (pk_priority p) (pk_timestamp p) (pk_rtt p) (pk_service p).

(** A buffer that carries a packet and nothing else. *)
Record holds (b : Buffer) (p : Packet) : Prop := {
  ho_carries : carries (data b) p;
  ho_filled : filled b = pk_len p;
  ho_fits : pk_len p <= Z.of_nat (length (data b))
}.

(** A UDP buffer fresh from its pool, large enough for [p]. *)
Record fresh_for (b : Buffer) (p : Packet) : Prop := {
  fr_filled : filled b = 0;
  fr_fits : pk_len p <= bsize b;
  fr_size : bsize b < Z.of_nat (length (data b)) < 2 ^ 63
}.

Lemma pk_len_ge p : 26 <= pk_len p.
Proof. unfold pk_len. change (Z.of_nat RLP_HEADER) with 26. lia. Qed.

Lemma carries_wrote_flag d d' p n : carries d p -> wrote d 2 [1] d' ->
  forall d'', wrote d' 4 [n] d'' -> carries d'' (granted_packet p) /\ slice 4 1 d'' = Some [n].
Proof.
  intros Hc W d'' W'. split; [|exact (wr_same _ _ _ _ W')].
  split; cbn [granted_packet pk_type pk_flag pk_requested pk_id pk_priority pk_timestamp pk_rtt pk_service];
    slices; apply Hc.
Qed.

Lemma write_credit_grant_ok n req grant p : holds req p -> fresh_for grant p ->
  exists g, write_credit_grant n req grant = Ok g /\ holds g (granted_packet p) /\
    slice 4 1 (data g) = Some [wrap 8 n] /\ same_buffer grant g /\ bsize g = bsize grant /\
    length (data g) = length (data grant).
Proof.
  intros [Hc Hf Hfit] [Hg0 Hgs [Hgl Hgm]]. pose proof (pk_len_ge p).
  unfold write_credit_grant. rewrite Hf, Hg0, Z.sub_0_r, (wrap_small 64) by lia.
  replace (_ <? _) with false by lia. cbn [fatal_if mbind res_bind].
  destruct (copy_ok (data req) (data grant) (Z.to_nat (pk_len p))) as (bs & d1 & -> & Hst & Hbl & Hl1 & Hsl);
    [lia|lia|]. cbn [mbind res_bind]. rewrite Hst. cbn [mbind res_bind].
  assert (carries d1 p) as Hc1 by by eapply carries_copy.
  destruct (at_write_ok d1 [1] 2) as (d2 & -> & W2); [simpl; lia|]. pose proof (wr_len _ _ _ _ W2).
  cbn [mbind res_bind].
  destruct (at_write_ok d2 [wrap 8 n] 4) as (d3 & -> & W3); [simpl; lia|]. pose proof (wr_len _ _ _ _ W3).
  cbn [mbind res_bind]. unfold set_filled. cbn [bsize set_data].
  replace (bsize grant <? _) with false by lia.
  destruct (carries_wrote_flag _ _ _ _ Hc1 W2 _ W3) as [Hc3 H4].
  eexists. split; [reflexivity|]. cbn [data bsize set_data]. split; [|split; [done|split; [done|split; [done|lia]]]].
  split; cbn [data filled set_data]; [done|done|]. change (pk_len (granted_packet p)) with (pk_len p). lia.
Qed.

Lemma stamp_queuing_time_ok now b p : holds b p -> in_i64 (now - enter_queue_ts b) = true ->
  exists b', stamp_queuing_time now b = Ok b' /\
    holds b' (stamped_packet (i32 (now - enter_queue_ts b)) p) /\
    slice 4 1 (data b') = slice 4 1 (data b) /\ same_buffer b b' /\ addr b' = addr b.
Proof.
  intros [Hc Hf Hfit] Hok. pose proof (pk_len_ge p).
  unfold stamp_queuing_time, checked_i64. rewrite Hok. cbn [mbind res_bind].
  destruct (at_write_ok (data b) (be_bytes 4 (i32 (now - enter_queue_ts b))) 22) as (d & -> & W);
    [rewrite length_be_bytes; lia|]. cbn [mbind res_bind]. eexists. split; [reflexivity|].
  cbn [data set_data]. split; [|split; [by slices|done]].
  split; cbn [data filled set_data]; [|done|rewrite (wr_len _ _ _ _ W); done].
  split; cbn [stamped_packet pk_type pk_flag pk_requested pk_id pk_priority pk_timestamp pk_rtt pk_service];
    slices; apply Hc.
Qed.

Lemma fill_credit_return_ok grant ret p : holds grant p -> fresh_for ret p ->
  exists r, fill_credit_return grant ret = Ok r /\ holds r (returned_packet p) /\
    addr r = addr grant /\ same_buffer ret r.
Proof.
  intros [Hc Hf Hfit] [Hg0 Hgs [Hgl Hgm]]. pose proof (pk_len_ge p).
  unfold fill_credit_return. rewrite Hf, Hg0, Z.sub_0_r, (wrap_small 64) by lia.
  replace (_ <? _) with false by lia. cbn [fatal_if mbind res_bind].
  destruct (copy_ok (data grant) (data ret) (Z.to_nat (pk_len p))) as (bs & d1 & -> & Hst & Hbl & Hl1 & Hsl);
    [lia|lia|]. cbn [mbind res_bind]. rewrite Hst. cbn [mbind res_bind].
  assert (carries d1 p) as Hc1 by by eapply carries_copy.
  unfold set_filled. cbn [bsize set_data]. replace (bsize ret <? _) with false by lia.
  cbn [mbind res_bind data set_data].
  destruct (at_write_ok d1 [2] 1) as (d2 & -> & W2); [simpl; lia|]. pose proof (wr_len _ _ _ _ W2).
  cbn [mbind res_bind]. eexists. split; [reflexivity|]. split; [|done].
  split; cbn [data filled set_data prepare_sendmsg]; [|done|change (pk_len (returned_packet p)) with (pk_len p); lia].
  split; cbn [returned_packet pk_type pk_flag pk_requested pk_id pk_priority pk_timestamp pk_rtt pk_service];
    slices; apply Hc1.
Qed.

(** ** Properties *)

(** A credit request reads back as it was written: the server that
    receives it classifies it as a request and extracts the service, the RPC
    id, the priority and the RTT the client put in, for every service name
    of at most 101 bytes. *)
Theorem rlp_request_round_trip b service num id priority now rtt :
  let p := mkPacket 1 0 num id priority now rtt service in
  packet_ok p -> fresh_for b p -> (String.length service <= 101)%nat ->
  exists b', fill_credit_request b service num id priority now rtt = Ok b' /\
    classify b' = Ok CreditRequest /\
    extract_service_from_rlp_req (data b') = Ok service /\
    rlp_id (data b') = Ok id /\ rlp_priority (data b') = Ok priority /\
    rlp_timestamp (data b') = Ok now /\ rlp_rtt (data b') = Ok rtt.
Proof.
  intros p Hp [_ Hfs [Hl _]] Hs.
  assert (pk_len p < 128) as Hl128 by (unfold pk_len; change (Z.of_nat RLP_HEADER) with 26; simpl; lia).
  destruct (fill_credit_request_ok b service num id priority now rtt) as (b' & Hb & Hc & Hf & Hlen & _);
    [fold p; lia|done|]. exists b'. split; [done|].
  split; [by rewrite (read_classify _ p Hc b') by (done || lia)|].
  split; [rewrite (read_service _ p Hc); [done|by left|done|lia]|].
  split; [by apply (read_id _ p)|]. split; [by apply (read_priority _ p)|].
  split; [by apply (read_timestamp _ p)|by apply (read_rtt _ p)].
Qed.

Definition ex_udp (id : Z) : Buffer := set_is_free false (buffer_make 256 id).

Lemma rlp_request_round_trip_witness :
  exists b', fill_credit_request (ex_udp 3) "geo" 1 (-5) 2 1234567890123 (-1) = Ok b' /\
    classify b' = Ok CreditRequest /\
    extract_service_from_rlp_req (data b') = Ok "geo"%string /\
    rlp_id (data b') = Ok (-5) /\ rlp_priority (data b') = Ok 2 /\
    rlp_timestamp (data b') = Ok 1234567890123 /\ rlp_rtt (data b') = Ok (-1).
Proof.
  apply (rlp_request_round_trip (ex_udp 3) "geo" 1 (-5) 2 1234567890123 (-1)); [..|simpl; lia].
  - split; simpl; lia.
  - split; [done|by vm_compute|by vm_compute].
Defined.

(** A service name of 102 bytes or more breaks the protocol: the request
    is sent and the dispatcher accepts it, but the length byte is then read
    as a signed [char] and the name is taken from beyond the buffer. *)
Theorem rlp_long_service b service num id priority now rtt :
  let p := mkPacket 1 0 num id priority now rtt service in
  fresh_for b p -> (102 <= String.length service < 230)%nat ->
  exists b', fill_credit_request b service num id priority now rtt = Ok b' /\
    classify b' = Ok CreditRequest /\
    extract_service_from_rlp_req (data b') = Err Undefined.
Proof.
  intros p [_ Hfs [Hl Hm]] Hs.
  assert (128 <= pk_len p < 256) as Hl128 by (unfold pk_len; change (Z.of_nat RLP_HEADER) with 26; simpl; lia).
  destruct (fill_credit_request_ok b service num id priority now rtt) as (b' & Hb & Hc & Hf & Hlen & _);
    [fold p; lia|done|]. exists b'. split; [done|].
  split; [by rewrite (read_classify _ p Hc b') by (done || lia)|].
  apply (read_service_long _ p Hc); [by left|done|by rewrite Hlen].
Qed.

Fixpoint repeat_char (c : ascii) (n : nat) : string :=
  match n with O => EmptyString | S n' => String c (repeat_char c n') end.

Lemma rlp_long_service_witness :
  exists b', fill_credit_request (ex_udp 3) (repeat_char "a"%char 102) 1 7 0 0 0 = Ok b' /\
    classify b' = Ok CreditRequest /\ extract_service_from_rlp_req (data b') = Err Undefined.
Proof.
  apply (rlp_long_service (ex_udp 3) (repeat_char "a"%char 102)); [|vm_compute; lia].
  split; [done|by vm_compute|by vm_compute].
Defined.

(** A grant answers its request and the client measures the round trip
    without the wait: the grant carries the id and the service of the
    request and one credit, and the RTT computed at [t3] from a request sent
    at [t0], queued at [t1] and granted at [t2] is [(t3 - t0) - (t2 - t1)]. *)
Theorem rlp_grant_rtt req grant p t1 t2 t3 :
  holds req p -> fresh_for grant p -> packet_ok p -> pk_type p = 1 -> pk_len p < 128 ->
  let t0 := pk_timestamp p in
  0 <= t0 <= t1 -> t1 <= t2 <= t3 -> t3 - t0 < 2 ^ 31 -> t3 < 2 ^ 63 ->
  exists g g', write_failed_dn_response req grant = Ok g /\
    stamp_queuing_time t2 (set_ts t1 g) = Ok g' /\
    classify g' = Ok CreditGrant /\ addr g' = addr req /\
    extract_service_from_rlp_req (data g') = Ok (pk_service p) /\
    rlp_id (data g') = Ok (pk_id p) /\ slice 4 1 (data g') = Some [1] /\
    credit_rtt t3 (data g') = Ok ((t3 - t0) - (t2 - t1)).
Proof.
  intros Hr Hg Hp Ht Hl t0 H01 H12 H3 H3'.
  destruct (write_credit_grant_ok 1 req grant p Hr Hg) as (g & Hw & Hh & H4 & Hs & Hbs & Hln).
  unfold write_failed_dn_response. rewrite Hw. cbn [mbind res_bind].
  eexists. pose (g1 := set_ts t1 (prepare_sendmsg (addr req) g)).
  assert (holds g1 (granted_packet p)) as Hh1 by (destruct Hh; by split).
  destruct (stamp_queuing_time_ok t2 g1 _ Hh1) as (g' & Hst & [Hc' Hf' Hfit'] & H4' & _ & Ha);
    [unfold in_i64; simpl; lia|].
  assert (i32 (t2 - enter_queue_ts g1) = t2 - t1) as E by (simpl; apply swrap_small; simpl; lia).
  rewrite E in Hc', Hf', Hfit'. exists g'. split; [reflexivity|]. split; [exact Hst|].
  set (q := stamped_packet _ _) in *.
  assert (packet_ok q) as Hq by (destruct Hp; split; simpl; (done || lia)).
  split; [rewrite (read_classify _ q Hc' g') by (done || (change (pk_len q) with (pk_len p); lia));
    unfold q; simpl; by rewrite Ht|].
  split; [done|]. split; [by rewrite (read_service _ q Hc') by (by left || done || (change (pk_len q) with (pk_len p); lia))|].
  split; [by apply (read_id _ q)|]. split; [by rewrite H4'|].
  unfold credit_rtt. rewrite (read_timestamp _ q Hc' Hq), (read_rtt _ q Hc' Hq). cbn [mbind res_bind].
  change (pk_timestamp q) with t0. change (pk_rtt q) with (t2 - t1).
  unfold checked_i64. replace (in_i64 (t3 - t0)) with true by (unfold in_i64; symmetry; lia).
  cbn [mbind res_bind]. rewrite swrap_small by (simpl; lia). by apply checked_i32_Ok; split; [|simpl; lia].
Qed.

Definition ex_request : Buffer := Eval vm_compute in
  match fill_credit_request (ex_udp 3) "geo" 1 77 2 1000 0 with
  | Ok b => set_addr (mkAddr 167772161 9090) b | Err _ => ex_udp 3 end.
Definition ex_packet : Packet := mkPacket 1 0 1 77 2 1000 0 "geo".

Lemma ex_request_holds : holds ex_request ex_packet.
Proof. split; [split|..]; by vm_compute. Qed.

Lemma ex_fresh : fresh_for (ex_udp 4) ex_packet.
Proof. split; [done|by vm_compute|by vm_compute]. Qed.

Lemma ex_packet_ok : packet_ok ex_packet.
Proof. split; simpl; lia. Qed.

Lemma rlp_grant_rtt_witness :
  exists g g', write_failed_dn_response ex_request (ex_udp 4) = Ok g /\
    stamp_queuing_time 1800 (set_ts 1100 g) = Ok g' /\
    classify g' = Ok CreditGrant /\ addr g' = addr ex_request /\
    extract_service_from_rlp_req (data g') = Ok "geo"%string /\
    rlp_id (data g') = Ok 77 /\ slice 4 1 (data g') = Some [1] /\
    credit_rtt 2000 (data g') = Ok 300.
Proof.
  apply (rlp_grant_rtt ex_request (ex_udp 4) ex_packet 1100 1800 2000 ex_request_holds ex_fresh ex_packet_ok);
    simpl; (done || lia).
Defined.

(** A credit return is the grant sent back to the granter, marked as a
    return: the server classifies it so and finds the service of the grant. *)
Theorem rlp_return_round_trip grant ret p :
  holds grant p -> fresh_for ret p -> pk_len p < 128 ->
  exists r, fill_credit_return grant ret = Ok r /\ classify r = Ok CreditReturn /\
    extract_service_from_rlp_req (data r) = Ok (pk_service p) /\ addr r = addr grant.
Proof.
  intros Hg Hr Hl. destruct (fill_credit_return_ok grant ret p Hg Hr) as (r & Hw & [Hc Hf Hfit] & Ha & _).
  exists r. split; [done|].
  split; [by rewrite (read_classify _ _ Hc r) by (done || (change (pk_len (returned_packet p)) with (pk_len p); lia))|].
  split; [|done]. by rewrite (read_service _ _ Hc) by (by right || done || (change (pk_len (returned_packet p)) with (pk_len p); lia)).
Qed.

Lemma rlp_return_round_trip_witness :
  exists r, fill_credit_return ex_request (ex_udp 4) = Ok r /\ classify r = Ok CreditReturn /\
    extract_service_from_rlp_req (data r) = Ok "geo"%string /\ addr r = addr ex_request.
Proof. apply (rlp_return_round_trip ex_request (ex_udp 4) ex_packet ex_request_holds ex_fresh). by vm_compute. Defined.
