(* ===== verification/RpcMessage.v ===== *)
(** * RPC messages: [include/rpc_message.h], [src/rpc_message.cc]

    The message objects of both protocols, the parsing of the headers the
    sidecar interprets, the packed identifiers, and the pools the objects
    are taken from. One record holds the fields of [RPCMessage], [gRPCMessage]
    and [HTTPMessage]; [http] tells which class an object is of. *)

From Stdlib Require Import ZArith Lia Ascii.
From stdpp Require Import base gmap strings list fin_maps.
From S2P Require Import Prelude Fp Buffers.

Open Scope Z_scope.

(** ** Enumerations: [include/connection_enums.h] *)

Inductive ConnectionType := INGRESS | EGRESS.
Inductive ConnectionDirection := UPSTREAM | DOWNSTREAM.
Inductive ConnectionStatus := UP | DOWN | TEARDOWN.
Inductive HTTP := HTTP1 | HTTP2.

#[export] Instance ConnectionType_eq_dec : EqDecision ConnectionType.
Proof. solve_decision. Defined.
#[export] Instance ConnectionDirection_eq_dec : EqDecision ConnectionDirection.
Proof. solve_decision. Defined.
#[export] Instance ConnectionStatus_eq_dec : EqDecision ConnectionStatus.
Proof. solve_decision. Defined.
#[export] Instance HTTP_eq_dec : EqDecision HTTP.
Proof. solve_decision. Defined.

(** ** Data *)

Definition MAX_HEADER_FIELD_SIZE : Z := 60.
Definition MAX_PAYLOAD_SIZE : Z := 20000.
Definition MAX_HEADER_FIELD_NUMBER : Z := 13.

Record HeaderField := mkHF {
  hf_name : list Z;
  name_len : Z;
  hf_value : list Z;
  value_len : Z
}.

Definition header_make : HeaderField :=
  mkHF (replicate (Z.to_nat MAX_HEADER_FIELD_SIZE) 0) 0 (replicate (Z.to_nat MAX_HEADER_FIELD_SIZE) 0) 0.

Record DataReadStruct := mkDR { dr_data : list Z; offset : Z; read_offset : Z }.

Definition data_make : DataReadStruct := mkDR (replicate (Z.to_nat MAX_PAYLOAD_SIZE) 0) 0 0.

(** Times are nanoseconds of the steady clock; [dfanout_service] points to
    the service string of another message object. The request body of a gRPC
    message is [data_map.at(0)] ([req_data]); the response body is
    [data_map.at(1)], or [res_data] of an HTTP message. *)
Record RPCMessage := mkRPC {
  ds_stream_id : Z;
  ds_fd : Z;
  us_stream_id : Z;
  us_fd : Z;
  local_id : Z;
  global_id : Z;
  priority : Z;
  type : ConnectionType;
  req_rcv_time : Z;
  req_for_time : Z;
  res_rcv_time : Z;
  pfanout_req : Z;
  pfanout_res : Z;
  credit_return_queue : list Buffer;
  dfanout_service : option nat;
  http : HTTP;
  service : string;
  path : string;
  method : string;
  minor : Z;
  status : Z;
  reason : string;
  error : bool;
  req_headers : list HeaderField;
  req_header_count : Z;
  res_headers : list HeaderField;
  res_header_count : Z;
  res_trailers : list HeaderField;
  res_trailer_count : Z;
  req_data : DataReadStruct;
  res_data : DataReadStruct
}.

Definition set_ds_stream_id (x : Z) (r : RPCMessage) : RPCMessage :=
  mkRPC
    x (ds_fd r) (us_stream_id r) (us_fd r) (local_id r) (global_id r) (priority r) (type r)
    (req_rcv_time r) (req_for_time r) (res_rcv_time r) (pfanout_req r) (pfanout_res r)
    (credit_return_queue r) (dfanout_service r) (http r) (service r) (path r) (method r)
    (minor r) (status r) (reason r) (error r) (req_headers r) (req_header_count r)
    (res_headers r) (res_header_count r) (res_trailers r) (res_trailer_count r) (req_data r)
    (res_data r).
Definition set_ds_fd (x : Z) (r : RPCMessage) : RPCMessage :=
  mkRPC
    (ds_stream_id r) x (us_stream_id r) (us_fd r) (local_id r) (global_id r) (priority r)
    (type r) (req_rcv_time r) (req_for_time r) (res_rcv_time r) (pfanout_req r) (pfanout_res
    r) (credit_return_queue r) (dfanout_service r) (http r) (service r) (path r) (method r)
    (minor r) (status r) (reason r) (error r) (req_headers r) (req_header_count r)
    (res_headers r) (res_header_count r) (res_trailers r) (res_trailer_count r) (req_data r)
    (res_data r).
Definition set_us_stream_id (x : Z) (r : RPCMessage) : RPCMessage :=
  mkRPC
    (ds_stream_id r) (ds_fd r) x (us_fd r) (local_id r) (global_id r) (priority r) (type r)
    (req_rcv_time r) (req_for_time r) (res_rcv_time r) (pfanout_req r) (pfanout_res r)
    (credit_return_queue r) (dfanout_service r) (http r) (service r) (path r) (method r)
    (minor r) (status r) (reason r) (error r) (req_headers r) (req_header_count r)
    (res_headers r) (res_header_count r) (res_trailers r) (res_trailer_count r) (req_data r)
    (res_data r).
Definition set_us_fd (x : Z) (r : RPCMessage) : RPCMessage :=
  mkRPC
    (ds_stream_id r) (ds_fd r) (us_stream_id r) x (local_id r) (global_id r) (priority r)
    (type r) (req_rcv_time r) (req_for_time r) (res_rcv_time r) (pfanout_req r) (pfanout_res
    r) (credit_return_queue r) (dfanout_service r) (http r) (service r) (path r) (method r)
    (minor r) (status r) (reason r) (error r) (req_headers r) (req_header_count r)
    (res_headers r) (res_header_count r) (res_trailers r) (res_trailer_count r) (req_data r)
    (res_data r).
Definition set_local_id (x : Z) (r : RPCMessage) : RPCMessage :=
  mkRPC
    (ds_stream_id r) (ds_fd r) (us_stream_id r) (us_fd r) x (global_id r) (priority r) (type
    r) (req_rcv_time r) (req_for_time r) (res_rcv_time r) (pfanout_req r) (pfanout_res r)
    (credit_return_queue r) (dfanout_service r) (http r) (service r) (path r) (method r)
    (minor r) (status r) (reason r) (error r) (req_headers r) (req_header_count r)
    (res_headers r) (res_header_count r) (res_trailers r) (res_trailer_count r) (req_data r)
    (res_data r).
Definition set_global_id (x : Z) (r : RPCMessage) : RPCMessage :=
  mkRPC
    (ds_stream_id r) (ds_fd r) (us_stream_id r) (us_fd r) (local_id r) x (priority r) (type
    r) (req_rcv_time r) (req_for_time r) (res_rcv_time r) (pfanout_req r) (pfanout_res r)
    (credit_return_queue r) (dfanout_service r) (http r) (service r) (path r) (method r)
    (minor r) (status r) (reason r) (error r) (req_headers r) (req_header_count r)
    (res_headers r) (res_header_count r) (res_trailers r) (res_trailer_count r) (req_data r)
    (res_data r).
Definition set_priority (x : Z) (r : RPCMessage) : RPCMessage :=
  mkRPC
    (ds_stream_id r) (ds_fd r) (us_stream_id r) (us_fd r) (local_id r) (global_id r) x (type
    r) (req_rcv_time r) (req_for_time r) (res_rcv_time r) (pfanout_req r) (pfanout_res r)
    (credit_return_queue r) (dfanout_service r) (http r) (service r) (path r) (method r)
    (minor r) (status r) (reason r) (error r) (req_headers r) (req_header_count r)
    (res_headers r) (res_header_count r) (res_trailers r) (res_trailer_count r) (req_data r)
    (res_data r).
Definition set_type (x : ConnectionType) (r : RPCMessage) : RPCMessage :=
  mkRPC
    (ds_stream_id r) (ds_fd r) (us_stream_id r) (us_fd r) (local_id r) (global_id r)
    (priority r) x (req_rcv_time r) (req_for_time r) (res_rcv_time r) (pfanout_req r)
    (pfanout_res r) (credit_return_queue r) (dfanout_service r) (http r) (service r) (path
    r) (method r) (minor r) (status r) (reason r) (error r) (req_headers r)
    (req_header_count r) (res_headers r) (res_header_count r) (res_trailers r)
    (res_trailer_count r) (req_data r) (res_data r).
Definition set_req_rcv_time (x : Z) (r : RPCMessage) : RPCMessage :=
  mkRPC
    (ds_stream_id r) (ds_fd r) (us_stream_id r) (us_fd r) (local_id r) (global_id r)
    (priority r) (type r) x (req_for_time r) (res_rcv_time r) (pfanout_req r) (pfanout_res
    r) (credit_return_queue r) (dfanout_service r) (http r) (service r) (path r) (method r)
    (minor r) (status r) (reason r) (error r) (req_headers r) (req_header_count r)
    (res_headers r) (res_header_count r) (res_trailers r) (res_trailer_count r) (req_data r)
    (res_data r).
Definition set_req_for_time (x : Z) (r : RPCMessage) : RPCMessage :=
  mkRPC
    (ds_stream_id r) (ds_fd r) (us_stream_id r) (us_fd r) (local_id r) (global_id r)
    (priority r) (type r) (req_rcv_time r) x (res_rcv_time r) (pfanout_req r) (pfanout_res
    r) (credit_return_queue r) (dfanout_service r) (http r) (service r) (path r) (method r)
    (minor r) (status r) (reason r) (error r) (req_headers r) (req_header_count r)
    (res_headers r) (res_header_count r) (res_trailers r) (res_trailer_count r) (req_data r)
    (res_data r).
Definition set_res_rcv_time (x : Z) (r : RPCMessage) : RPCMessage :=
  mkRPC
    (ds_stream_id r) (ds_fd r) (us_stream_id r) (us_fd r) (local_id r) (global_id r)
    (priority r) (type r) (req_rcv_time r) (req_for_time r) x (pfanout_req r) (pfanout_res
    r) (credit_return_queue r) (dfanout_service r) (http r) (service r) (path r) (method r)
    (minor r) (status r) (reason r) (error r) (req_headers r) (req_header_count r)
    (res_headers r) (res_header_count r) (res_trailers r) (res_trailer_count r) (req_data r)
    (res_data r).
Definition set_pfanout_req (x : Z) (r : RPCMessage) : RPCMessage :=
  mkRPC
    (ds_stream_id r) (ds_fd r) (us_stream_id r) (us_fd r) (local_id r) (global_id r)
    (priority r) (type r) (req_rcv_time r) (req_for_time r) (res_rcv_time r) x (pfanout_res
    r) (credit_return_queue r) (dfanout_service r) (http r) (service r) (path r) (method r)
    (minor r) (status r) (reason r) (error r) (req_headers r) (req_header_count r)
    (res_headers r) (res_header_count r) (res_trailers r) (res_trailer_count r) (req_data r)
    (res_data r).
Definition set_pfanout_res (x : Z) (r : RPCMessage) : RPCMessage :=
  mkRPC
    (ds_stream_id r) (ds_fd r) (us_stream_id r) (us_fd r) (local_id r) (global_id r)
    (priority r) (type r) (req_rcv_time r) (req_for_time r) (res_rcv_time r) (pfanout_req r)
    x (credit_return_queue r) (dfanout_service r) (http r) (service r) (path r) (method r)
    (minor r) (status r) (reason r) (error r) (req_headers r) (req_header_count r)
    (res_headers r) (res_header_count r) (res_trailers r) (res_trailer_count r) (req_data r)
    (res_data r).
Definition set_credit_return_queue (x : list Buffer) (r : RPCMessage) : RPCMessage :=
  mkRPC
    (ds_stream_id r) (ds_fd r) (us_stream_id r) (us_fd r) (local_id r) (global_id r)
    (priority r) (type r) (req_rcv_time r) (req_for_time r) (res_rcv_time r) (pfanout_req r)
    (pfanout_res r) x (dfanout_service r) (http r) (service r) (path r) (method r) (minor r)
    (status r) (reason r) (error r) (req_headers r) (req_header_count r) (res_headers r)
    (res_header_count r) (res_trailers r) (res_trailer_count r) (req_data r) (res_data r).
Definition set_dfanout_service (x : option nat) (r : RPCMessage) : RPCMessage :=
  mkRPC
    (ds_stream_id r) (ds_fd r) (us_stream_id r) (us_fd r) (local_id r) (global_id r)
    (priority r) (type r) (req_rcv_time r) (req_for_time r) (res_rcv_time r) (pfanout_req r)
    (pfanout_res r) (credit_return_queue r) x (http r) (service r) (path r) (method r)
    (minor r) (status r) (reason r) (error r) (req_headers r) (req_header_count r)
    (res_headers r) (res_header_count r) (res_trailers r) (res_trailer_count r) (req_data r)
    (res_data r).
Definition assign_service (x : string) (r : RPCMessage) : RPCMessage :=
  mkRPC
    (ds_stream_id r) (ds_fd r) (us_stream_id r) (us_fd r) (local_id r) (global_id r)
    (priority r) (type r) (req_rcv_time r) (req_for_time r) (res_rcv_time r) (pfanout_req r)
    (pfanout_res r) (credit_return_queue r) (dfanout_service r) (http r) x (path r) (method
    r) (minor r) (status r) (reason r) (error r) (req_headers r) (req_header_count r)
    (res_headers r) (res_header_count r) (res_trailers r) (res_trailer_count r) (req_data r)
    (res_data r).
Definition set_path (x : string) (r : RPCMessage) : RPCMessage :=
  mkRPC
    (ds_stream_id r) (ds_fd r) (us_stream_id r) (us_fd r) (local_id r) (global_id r)
    (priority r) (type r) (req_rcv_time r) (req_for_time r) (res_rcv_time r) (pfanout_req r)
    (pfanout_res r) (credit_return_queue r) (dfanout_service r) (http r) (service r) x
    (method r) (minor r) (status r) (reason r) (error r) (req_headers r) (req_header_count
    r) (res_headers r) (res_header_count r) (res_trailers r) (res_trailer_count r) (req_data
    r) (res_data r).
Definition set_method (x : string) (r : RPCMessage) : RPCMessage :=
  mkRPC
    (ds_stream_id r) (ds_fd r) (us_stream_id r) (us_fd r) (local_id r) (global_id r)
    (priority r) (type r) (req_rcv_time r) (req_for_time r) (res_rcv_time r) (pfanout_req r)
    (pfanout_res r) (credit_return_queue r) (dfanout_service r) (http r) (service r) (path
    r) x (minor r) (status r) (reason r) (error r) (req_headers r) (req_header_count r)
    (res_headers r) (res_header_count r) (res_trailers r) (res_trailer_count r) (req_data r)
    (res_data r).
Definition set_minor (x : Z) (r : RPCMessage) : RPCMessage :=
  mkRPC
    (ds_stream_id r) (ds_fd r) (us_stream_id r) (us_fd r) (local_id r) (global_id r)
    (priority r) (type r) (req_rcv_time r) (req_for_time r) (res_rcv_time r) (pfanout_req r)
    (pfanout_res r) (credit_return_queue r) (dfanout_service r) (http r) (service r) (path
    r) (method r) x (status r) (reason r) (error r) (req_headers r) (req_header_count r)
    (res_headers r) (res_header_count r) (res_trailers r) (res_trailer_count r) (req_data r)
    (res_data r).
Definition set_status (x : Z) (r : RPCMessage) : RPCMessage :=
  mkRPC
    (ds_stream_id r) (ds_fd r) (us_stream_id r) (us_fd r) (local_id r) (global_id r)
    (priority r) (type r) (req_rcv_time r) (req_for_time r) (res_rcv_time r) (pfanout_req r)
    (pfanout_res r) (credit_return_queue r) (dfanout_service r) (http r) (service r) (path
    r) (method r) (minor r) x (reason r) (error r) (req_headers r) (req_header_count r)
    (res_headers r) (res_header_count r) (res_trailers r) (res_trailer_count r) (req_data r)
    (res_data r).
Definition set_msg (x : string) (r : RPCMessage) : RPCMessage :=
  mkRPC
    (ds_stream_id r) (ds_fd r) (us_stream_id r) (us_fd r) (local_id r) (global_id r)
    (priority r) (type r) (req_rcv_time r) (req_for_time r) (res_rcv_time r) (pfanout_req r)
    (pfanout_res r) (credit_return_queue r) (dfanout_service r) (http r) (service r) (path
    r) (method r) (minor r) (status r) x (error r) (req_headers r) (req_header_count r)
    (res_headers r) (res_header_count r) (res_trailers r) (res_trailer_count r) (req_data r)
    (res_data r).
Definition set_error (x : bool) (r : RPCMessage) : RPCMessage :=
  mkRPC
    (ds_stream_id r) (ds_fd r) (us_stream_id r) (us_fd r) (local_id r) (global_id r)
    (priority r) (type r) (req_rcv_time r) (req_for_time r) (res_rcv_time r) (pfanout_req r)
    (pfanout_res r) (credit_return_queue r) (dfanout_service r) (http r) (service r) (path
    r) (method r) (minor r) (status r) (reason r) x (req_headers r) (req_header_count r)
    (res_headers r) (res_header_count r) (res_trailers r) (res_trailer_count r) (req_data r)
    (res_data r).
Definition set_req_headers (x0 : list HeaderField) (x1 : Z) (r : RPCMessage) : RPCMessage :=
  mkRPC
    (ds_stream_id r) (ds_fd r) (us_stream_id r) (us_fd r) (local_id r) (global_id r)
    (priority r) (type r) (req_rcv_time r) (req_for_time r) (res_rcv_time r) (pfanout_req r)
    (pfanout_res r) (credit_return_queue r) (dfanout_service r) (http r) (service r) (path
    r) (method r) (minor r) (status r) (reason r) (error r) x0 x1 (res_headers r)
    (res_header_count r) (res_trailers r) (res_trailer_count r) (req_data r) (res_data r).
Definition set_res_headers (x0 : list HeaderField) (x1 : Z) (r : RPCMessage) : RPCMessage :=
  mkRPC
    (ds_stream_id r) (ds_fd r) (us_stream_id r) (us_fd r) (local_id r) (global_id r)
    (priority r) (type r) (req_rcv_time r) (req_for_time r) (res_rcv_time r) (pfanout_req r)
    (pfanout_res r) (credit_return_queue r) (dfanout_service r) (http r) (service r) (path
    r) (method r) (minor r) (status r) (reason r) (error r) (req_headers r)
    (req_header_count r) x0 x1 (res_trailers r) (res_trailer_count r) (req_data r) (res_data
    r).
Definition set_res_trailers (x0 : list HeaderField) (x1 : Z) (r : RPCMessage) : RPCMessage :=
  mkRPC
    (ds_stream_id r) (ds_fd r) (us_stream_id r) (us_fd r) (local_id r) (global_id r)
    (priority r) (type r) (req_rcv_time r) (req_for_time r) (res_rcv_time r) (pfanout_req r)
    (pfanout_res r) (credit_return_queue r) (dfanout_service r) (http r) (service r) (path
    r) (method r) (minor r) (status r) (reason r) (error r) (req_headers r)
    (req_header_count r) (res_headers r) (res_header_count r) x0 x1 (req_data r) (res_data
    r).
Definition set_req_data (x : DataReadStruct) (r : RPCMessage) : RPCMessage :=
  mkRPC
    (ds_stream_id r) (ds_fd r) (us_stream_id r) (us_fd r) (local_id r) (global_id r)
    (priority r) (type r) (req_rcv_time r) (req_for_time r) (res_rcv_time r) (pfanout_req r)
    (pfanout_res r) (credit_return_queue r) (dfanout_service r) (http r) (service r) (path
    r) (method r) (minor r) (status r) (reason r) (error r) (req_headers r)
    (req_header_count r) (res_headers r) (res_header_count r) (res_trailers r)
    (res_trailer_count r) x (res_data r).
Definition set_res_data (x : DataReadStruct) (r : RPCMessage) : RPCMessage :=
  mkRPC
    (ds_stream_id r) (ds_fd r) (us_stream_id r) (us_fd r) (local_id r) (global_id r)
    (priority r) (type r) (req_rcv_time r) (req_for_time r) (res_rcv_time r) (pfanout_req r)
    (pfanout_res r) (credit_return_queue r) (dfanout_service r) (http r) (service r) (path
    r) (method r) (minor r) (status r) (reason r) (error r) (req_headers r)
    (req_header_count r) (res_headers r) (res_header_count r) (res_trailers r)
    (res_trailer_count r) (req_data r) x.


(** ** Identifiers *)

(** [get_new_local_id], on [local_id_counter]: the id and the counter it
    leaves. The variable is one for the process and its increments are not
    synchronised. Only an ingress has several threads (a configuration of
    another sidecar with more than one is rejected, [LoadConfig.v]), and those
    race for it; the model has a counter for each thread, which is exact when
    there is one. *)
Definition get_new_local_id (parent counter : Z) : res (Z * Z) :=
  counter ← checked_i64 (counter + 1);
  let branch := u32 counter in
  let packed := Z.lor (u64 (Z.shiftl (u32 parent) 32)) branch in
  Ok (i64 packed, counter).

(** ** Strings *)

(** [std::strcmp(mem, lit) == 0] and [std::memcmp(mem, lit, n) == 0] on the
    memory [mem] that follows a pointer: the comparison stops at the first
    difference, and is undefined where the memory ends before it. *)
Fixpoint mem_eq (mem lit : list Z) {struct lit} : res bool :=
  match lit with
  | [] => Ok true
  | c :: lit' =>
      match mem with
      | [] => Err Undefined
      | b :: mem' => if b =? c then mem_eq mem' lit' else Ok false
      end
  end.
Definition memcmp_eq (mem : list Z) (lit : string) : res bool := mem_eq mem (bytes_of_string lit).
Definition strcmp_eq (mem : list Z) (lit : string) : res bool := mem_eq mem (bytes_of_string lit ++ [0]).

Definition is_space (b : Z) : bool := (b =? 32) || ((9 <=? b) && (b <=? 13)).
Definition is_digit (b : Z) : bool := (48 <=? b) && (b <=? 57).

(** The value of the leading digits, and whether there was one. *)
Fixpoint parse_digits (acc : Z) (seen : bool) (l : list Z) : Z * bool :=
  match l with
  | b :: l' => if is_digit b then parse_digits (acc * 10 + (b - 48)) true l' else (acc, seen)
  | [] => (acc, seen)
  end.
Fixpoint skip_spaces (l : list Z) : list Z :=
  match l with b :: l' => if is_space b then skip_spaces l' else l | [] => [] end.

(** [std::stoll], base ten. *)
Definition stoll (l : list Z) : res Z :=
  let l := skip_spaces l in
  let '(neg, l) := match l with
    | b :: l' => if b =? 45 then (true, l') else if b =? 43 then (false, l') else (false, l)
    | [] => (false, l)
    end in
  let '(v, seen) := parse_digits 0 false l in
  if negb seen then Err (Throw InvalidArgument)
  else let v := if neg then - v else v in
    if in_i64 v then Ok v else Err (Throw OutOfRange).

(** [snprintf("%lld")]; twenty digits are enough for an [int64_t]. *)
Fixpoint digits (fuel : nat) (n : Z) : list Z :=
  match fuel with
  | O => []
  | S fuel' => if n <? 10 then [48 + n] else digits fuel' (n / 10) ++ [48 + n mod 10]
  end.
Definition print_decimal (z : Z) : list Z :=
  if z <? 0 then 45 :: digits 20 (- z) else digits 20 z.

(** [buf.fill(0); snprintf(buf.data(), 32, ...)]: the buffer and the length
    returned. *)
Definition snprintf32 (z : Z) : list Z * Z :=
  let s := take 31 (print_decimal z) in
  (s ++ replicate (32 - length s) 0, Z.of_nat (length (print_decimal z))).

(** ** Headers *)

(** [HeaderField::set]; [name] and [value] are the memory behind the two
    pointers. *)
Definition hf_set (name : list Z) (field_name_len : Z) (value : list Z) (field_value_len : Z)
    (h : HeaderField) : res HeaderField :=
  _ ← fatal_if (MAX_HEADER_FIELD_SIZE <? field_name_len);
  _ ← fatal_if (MAX_HEADER_FIELD_SIZE <? field_value_len);
  bs ← or_fault Undefined (slice 0 (Z.to_nat field_name_len) name);
  n ← store (hf_name h) 0 bs;
  n ← set_at n (Z.to_nat field_name_len) 0;
  bs ← or_fault Undefined (slice 0 (Z.to_nat field_value_len) value);
  v ← store (hf_value h) 0 bs;
  v ← set_at v (Z.to_nat field_value_len) 0;
  Ok (mkHF n field_name_len v field_value_len).

(** [headers.at(count)->set(...); count++] under its guard. *)
Definition push_header (name : list Z) (nl : Z) (value : list Z) (vl : Z)
    (hs : list HeaderField) (count : Z) : res (list HeaderField * Z) :=
  _ ← fatal_if (MAX_HEADER_FIELD_NUMBER <=? count);
  h ← zat hs count;
  h ← hf_set name nl value vl h;
  Ok (<[Z.to_nat count := h]> hs, count + 1).

Definition read_stoll (value : list Z) (vl : Z) : res Z :=
  bs ← or_fault Undefined (slice 0 (Z.to_nat vl) value); stoll bs.

(** The [if (request)] block both classes share, header by header: the
    message, the counter of ids, and whether the function returns there. *)
Definition on_rpc_id (is_ingress : bool) (name value : list Z) (vl : Z)
    (r : RPCMessage) (counter : Z) : res (RPCMessage * Z) :=
  b ← memcmp_eq name "rpc-id";
  if (b : bool) then
    g ← read_stoll value vl;
    let r := set_global_id g r in
    if is_ingress || bool_decide (type r = INGRESS) then
      '(id, counter) ← get_new_local_id 0 counter;
      Ok (set_local_id id r, counter)
    else Ok (r, counter)
  else Ok (r, counter).

Definition on_rpc_local_id (name value : list Z) (vl : Z) (r : RPCMessage) (counter : Z)
    : res (RPCMessage * Z * bool) :=
  b ← memcmp_eq name "rpc-local-id";
  if (b : bool) then
    id_from_str ← read_stoll value vl;
    match type r with
    | INGRESS =>
        _ ← fatal_if (id_from_str =? -1);
        Ok (r, counter, false)
    | EGRESS =>
        _ ← fatal_if ((id_from_str <=? 0) || (UINT32_MAX <? id_from_str));
        '(id, counter) ← get_new_local_id id_from_str counter;
        Ok (set_local_id id r, counter, true)
    end
  else Ok (r, counter, false).

Definition on_priority (name value : list Z) (vl : Z) (r : RPCMessage) : res RPCMessage :=
  b ← memcmp_eq name "priority";
  if (b : bool) then p ← read_stoll value vl; Ok (set_priority (i32 p) r) else Ok r.

Definition interpret_header (is_ingress : bool) (name value : list Z) (vl : Z)
    (r : RPCMessage) (counter : Z) : res (RPCMessage * Z * bool) :=
  '(r, counter) ← on_rpc_id is_ingress name value vl r counter;
  '(r, counter, returned) ← on_rpc_local_id name value vl r counter;
  if (returned : bool) then Ok (r, counter, true)
  else r ← on_priority name value vl r; Ok (r, counter, false).

Definition push_req_header name nl value vl (r : RPCMessage) : res RPCMessage :=
  '(hs, n) ← push_header name nl value vl (req_headers r) (req_header_count r);
  Ok (set_req_headers hs n r).
Definition push_res_header name nl value vl (r : RPCMessage) : res RPCMessage :=
  '(hs, n) ← push_header name nl value vl (res_headers r) (res_header_count r);
  Ok (set_res_headers hs n r).
Definition push_res_trailer name nl value vl (r : RPCMessage) : res RPCMessage :=
  '(hs, n) ← push_header name nl value vl (res_trailers r) (res_trailer_count r);
  Ok (set_res_trailers hs n r).

(** [gRPCMessage::add_header_field] *)
Definition grpc_add_header_field (is_ingress : bool) (name : list Z) (nl : Z) (value : list Z) (vl : Z)
    (request tailer : bool) (r : RPCMessage) (counter : Z) : res (RPCMessage * Z) :=
  b ← strcmp_eq name ":path";
  r ← (if (b : bool) then
         (* value + 1, value_len - 1 *)
         _ ← (if vl =? 0 then Err (Throw LengthError) else Ok tt);
         bs ← or_fault Undefined (slice 1 (Z.to_nat (vl - 1)) value);
         Ok (set_method "" (assign_service (string_of_bytes bs) r))
       else Ok r);
  '(r, counter, returned) ← (if request then interpret_header is_ingress name value vl r counter
                             else Ok (r, counter, false));
  if (returned : bool) then Ok (r, counter)
  else
    r ← (if tailer then
           if request then Err Fatal else push_res_trailer name nl value vl r
         else if request then push_req_header name nl value vl r
         else push_res_header name nl value vl r);
    Ok (r, counter).

(** [HTTPMessage::add_header_field] *)
Definition http_add_header_field (is_ingress : bool) (name : list Z) (nl : Z) (value : list Z) (vl : Z)
    (request tailer : bool) (r : RPCMessage) (counter : Z) : res (RPCMessage * Z) :=
  _ ← fatal_if tailer;
  '(r, counter, returned) ← (if request then interpret_header is_ingress name value vl r counter
                             else Ok (r, counter, false));
  if (returned : bool) then Ok (r, counter)
  else
    r ← (if request then push_req_header name nl value vl r else push_res_header name nl value vl r);
    Ok (r, counter).

Definition add_header_field (is_ingress : bool) (name : list Z) (nl : Z) (value : list Z) (vl : Z)
    (request tailer : bool) (r : RPCMessage) (counter : Z) : res (RPCMessage * Z) :=
  match http r with
  | HTTP1 => http_add_header_field is_ingress name nl value vl request tailer r counter
  | HTTP2 => grpc_add_header_field is_ingress name nl value vl request tailer r counter
  end.

(** A string literal in memory. *)
Definition c_str (s : string) : list Z := bytes_of_string s ++ [0].

Definition set_local_id_header (is_ingress : bool) (r : RPCMessage) (counter : Z)
    : res (RPCMessage * Z) :=
  let '(buf, len) := snprintf32 (local_id r) in
  add_header_field is_ingress (c_str "rpc-local-id") 12 buf len true false r counter.

(** ** Bodies *)

Definition append_data (bytes : list Z) (d : DataReadStruct) : res DataReadStruct :=
  let len := Z.of_nat (length bytes) in
  _ ← fatal_if (u64 (MAX_PAYLOAD_SIZE - offset d) <? len);
  dd ← store (dr_data d) (Z.to_nat (offset d)) bytes;
  Ok (mkDR dd (offset d + len) (read_offset d)).

(** [gRPCMessage::add_data] and [HTTPMessage::add_data]. *)
Definition grpc_add_data (bytes : list Z) (request : bool) (r : RPCMessage) : res RPCMessage :=
  if request then d ← append_data bytes (req_data r); Ok (set_req_data d r)
  else d ← append_data bytes (res_data r); Ok (set_res_data d r).
Definition http_add_data (bytes : list Z) (request : bool) (r : RPCMessage) : res RPCMessage :=
  _ ← fatal_if request;
  d ← append_data bytes (res_data r); Ok (set_res_data d r).

(** ** The service of an HTTP request *)

Fixpoint memchr (c : Z) (l : list Z) : option nat :=
  match l with
  | [] => None
  | b :: l' => if b =? c then Some O else S <$> memchr c l'
  end.

Definition parse_service_from_request_target (s : list Z) : option string :=
  let p := if decide (7 <= length s)%nat then
             if bool_decide (take 7 s = bytes_of_string "http://") then drop 7 s else s
           else s in
  match memchr 47 p with
  | None => None
  | Some slash =>
      if decide (length p <= slash + 1)%nat then None
      else
        let svc := drop (slash + 1) p in
        Some (string_of_bytes (match memchr 63 svc with Some q => take q svc | None => svc end))
  end.

Definition set_service (s : list Z) (r : RPCMessage) : res RPCMessage :=
  match parse_service_from_request_target s with
  | Some svc => Ok (assign_service svc r)
  | None => Err Fatal
  end.

(** [is_drop]: gRPC messages are never dropped. *)
Definition is_drop (r : RPCMessage) : bool :=
  match http r with HTTP1 => error r && (status r =? 503) | HTTP2 => false end.

(** ** Construction and reuse *)

(** The priority and the type have no initialiser: [pr] and [t] are what the
    memory of the object held. *)
Definition rpc_make (pr : Z) (t : ConnectionType) (h : HTTP) : RPCMessage :=
  let hs := replicate (Z.to_nat MAX_HEADER_FIELD_NUMBER) header_make in
  mkRPC 0 (-1) 0 (-1) (-1) (-1) pr t 0 0 0 0 0 [] None h "" "" "" 0 0 "" false
    hs 0 hs 0 hs 0 data_make data_make.

Definition header_reset (h : HeaderField) : HeaderField := mkHF (hf_name h) 0 (hf_value h) 0.
Definition data_reset (d : DataReadStruct) : DataReadStruct := mkDR (dr_data d) 0 0.

(** [clear], of either class: the priority, the type and, in an HTTP message,
    the path are not reset. *)
Definition clear (r : RPCMessage) : res RPCMessage :=
  _ ← fatal_if (negb (Nat.eqb (length (credit_return_queue r)) 0));
  let '(minor', status', reason') :=
    match http r with HTTP1 => (0, 0, ""%string) | HTTP2 => (minor r, status r, reason r) end in
  Ok (mkRPC (-1) (-1) (-1) (-1) (-1) (-1) (priority r) (type r) 0 0 0 0 0 [] None
        (http r) "" (path r) "" minor' status' reason' false
        (header_reset <$> req_headers r) 0 (header_reset <$> res_headers r) 0
        (match http r with HTTP1 => res_trailers r | HTTP2 => header_reset <$> res_trailers r end)
        (match http r with HTTP1 => res_trailer_count r | HTTP2 => 0 end)
        (match http r with HTTP1 => req_data r | HTTP2 => data_reset (req_data r) end)
        (data_reset (res_data r))).

(** ** The pools

    Objects live in a heap, pointers are its keys; [use_count] is the number
    of [shared_ptr]s to the object when the call is made. *)

Abbreviation heap := (gmap nat RPCMessage).

Record RPCMessagePool := mkPool { grpc_pool : list nat; http_pool : list nat }.

Definition free_rpc (rpc : option nat) (use_count : Z) (h : heap) (p : RPCMessagePool)
    : res (heap * RPCMessagePool) :=
  match rpc with
  | None => Err Fatal
  | Some i =>
      _ ← fatal_if (1 <? use_count);
      r ← or_fault Undefined (h !! i);
      r ← clear r;
      let h := <[i := r]> h in
      Ok (h, match http r with
             | HTTP1 => mkPool (grpc_pool p) (http_pool p ++ [i])
             | HTTP2 => mkPool (grpc_pool p ++ [i]) (http_pool p)
             end)
  end.

(** [n] fresh objects of a class, from pointer [i] on, freed one by one; [mem]
    is what their memory held. *)
Fixpoint pool_fill (mem : nat -> Z * ConnectionType) (n i : nat) (k : HTTP) (h : heap) (p : RPCMessagePool)
    : res (heap * RPCMessagePool) :=
  match n with
  | O => Ok (h, p)
  | S n' =>
      '(h, p) ← free_rpc (Some i) 1 (<[i := rpc_make (fst (mem i)) (snd (mem i)) k]> h) p;
      pool_fill mem n' (S i) k h p
  end.

Definition pool_make (mem : nat -> Z * ConnectionType) (grpc_n http_n : nat) : res (heap * RPCMessagePool) :=
  '(h, p) ← pool_fill mem http_n 0 HTTP1 ∅ (mkPool [] []);
  pool_fill mem grpc_n http_n HTTP2 h p.

Definition get_rpc (stream_id fd : Z) (k : HTTP) (t : ConnectionType) (h : heap) (p : RPCMessagePool)
    : res (nat * heap * RPCMessagePool) :=
  let '(front, p) := match k with
    | HTTP1 => (head (http_pool p), mkPool (grpc_pool p) (tail (http_pool p)))
    | HTTP2 => (head (grpc_pool p), mkPool (tail (grpc_pool p)) (http_pool p))
    end in
  i ← or_fault Fatal front;
  r ← or_fault Undefined (h !! i);
  Ok (i, <[i := set_type t (set_ds_stream_id stream_id (set_ds_fd fd r))]> h, p).
