(* ===== verification/RpcMessageProps.v ===== *)
(** * RPC messages: properties

    Identifiers survive packing, printing and parsing; header fields and
    bodies respect the sizes of their arrays; a recycled message forgets its
    past, but for its priority. *)

From Stdlib Require Import ZArith Lia Ascii.
From stdpp Require Import base gmap strings list fin_maps.
From S2P Require Import Prelude Fp Buffers RpcMessage.

Open Scope Z_scope.

(** ** Decimal numbers *)

Lemma is_digit_digit d : 0 <= d < 10 -> is_digit (48 + d) = true.
Proof. unfold is_digit. lia. Qed.

Lemma parse_digits_app fuel n acc seen l : 0 <= n < 10 ^ Z.of_nat fuel -> (0 < fuel)%nat ->
  parse_digits acc seen (digits fuel n ++ l) =
  parse_digits (acc * 10 ^ Z.of_nat (length (digits fuel n)) + n) true l.
Proof.
  revert n acc seen l. induction fuel as [|fuel IH]; intros n acc seen l Hn Hf; [lia|].
  cbn [digits]. destruct (Z.ltb_spec n 10) as [Hlt|Hge].
  - cbn [app parse_digits length]. rewrite is_digit_digit by lia. f_equal. change (10 ^ Z.of_nat 1) with 10. lia.
  - assert (0 < fuel)%nat as Hf'.
    { destruct fuel; [|lia]. change (10 ^ Z.of_nat 1) with 10 in Hn. lia. }
    rewrite Nat2Z.inj_succ, Z.pow_succ_r in Hn by lia.
    pose proof (Z.div_mod n 10 ltac:(lia)) as Hdm. pose proof (Z.mod_pos_bound n 10 ltac:(lia)).
    rewrite <- app_assoc, IH; [|split; [apply Z.div_pos; lia|apply Z.div_lt_upper_bound; lia]|done].
    cbn [app parse_digits]. rewrite is_digit_digit by lia. f_equal.
    rewrite length_app. cbn [length]. rewrite Nat2Z.inj_add, Z.pow_add_r by lia.
    change (10 ^ Z.of_nat 1) with 10. lia.
Qed.

(** A byte that ends a number. *)
Definition ends_number (l : list Z) : Prop := match l with [] => True | b :: _ => is_digit b = false end.

Lemma parse_digits_end acc l : ends_number l -> parse_digits acc true l = (acc, true).
Proof. destruct l as [|b l]; simpl; [done|]. by intros ->. Qed.

Lemma digits_head fuel n l : 0 <= n < 10 ^ Z.of_nat fuel -> (0 < fuel)%nat ->
  exists b l', digits fuel n ++ l = b :: l' /\ 48 <= b <= 57.
Proof.
  revert n l. induction fuel as [|fuel IH]; intros n l Hn Hf; [lia|].
  cbn [digits]. destruct (Z.ltb_spec n 10); [eexists _, _; split; [reflexivity|lia]|].
  rewrite <- app_assoc. rewrite Nat2Z.inj_succ, Z.pow_succ_r in Hn by lia. apply IH.
  - split; [apply Z.div_pos; lia|apply Z.div_lt_upper_bound; lia].
  - destruct fuel; [|lia]. change (10 ^ Z.of_nat 0) with 1 in Hn. lia.
Qed.

Lemma stoll_print z l : in_i64 z = true -> ends_number l -> stoll (print_decimal z ++ l) = Ok z.
Proof.
  intros Hz Hl. pose proof Hz as Hz'. unfold in_i64 in Hz'.
  assert (10 ^ Z.of_nat 20 = 100000000000000000000) as E20 by done.
  unfold stoll, print_decimal. destruct (Z.ltb_spec z 0) as [Hneg|Hpos].
  - cbn [app skip_spaces]. change (is_space 45) with false. cbv iota. cbn [Z.eqb Pos.eqb].
    rewrite parse_digits_app by (rewrite ?E20; lia). rewrite parse_digits_end by done. cbn [negb].
    replace (- (0 * _ + - z)) with z by lia. by rewrite Hz.
  - destruct (digits_head 20 z l) as (b & l' & E & Hb); [rewrite E20; lia|lia|].
    pose proof (parse_digits_app 20 z 0 false l ltac:(rewrite E20; lia) ltac:(lia)) as Hp.
    rewrite E in *. cbn [skip_spaces].
    replace (is_space b) with false by (unfold is_space; lia).
    replace (b =? 45) with false by lia. replace (b =? 43) with false by lia.
    rewrite Hp, parse_digits_end by done. cbn [negb]. replace (0 * _ + z) with z by lia. by rewrite Hz.
Qed.

Lemma length_digits fuel n : (length (digits fuel n) <= fuel)%nat.
Proof.
  revert n. induction fuel as [|fuel IH]; intros n; [done|]. cbn [digits].
  case_match; [simpl; lia|]. rewrite length_app. simpl. specialize (IH (n / 10)). lia.
Qed.

Lemma length_print_decimal z : (length (print_decimal z) <= 21)%nat.
Proof.
  unfold print_decimal. case_match; cbn [length]; pose proof (length_digits 20 (- z)); pose proof (length_digits 20 z); lia.
Qed.

(** The header buffer of [snprintf], read whole or up to the length. *)
Lemma snprintf32_layout z : exists pad, (snprintf32 z).1 = print_decimal z ++ replicate pad 0 /\
  (snprintf32 z).2 = Z.of_nat (length (print_decimal z)) /\ (pad = 32 - length (print_decimal z))%nat.
Proof.
  pose proof (length_print_decimal z). unfold snprintf32. cbn [fst snd].
  rewrite take_ge by lia. by eexists.
Qed.

Lemma ends_number_zeros n : ends_number (replicate n 0).
Proof. by destruct n. Qed.

Lemma read_printed z : in_i64 z = true -> read_stoll (snprintf32 z).1 (snprintf32 z).2 = Ok z.
Proof.
  intros Hz. destruct (snprintf32_layout z) as (pad & -> & -> & _). unfold read_stoll. rewrite Nat2Z.id.
  rewrite (slice_app_mid [] (print_decimal z) (replicate pad 0)) by done.
  cbn [or_fault mbind res_bind]. rewrite <- (app_nil_r (print_decimal z)). by apply stoll_print.
Qed.

Lemma read_printed_whole z : in_i64 z = true -> read_stoll (snprintf32 z).1 32 = Ok z.
Proof.
  intros Hz. destruct (snprintf32_layout z) as (pad & -> & _ & Hpad). unfold read_stoll.
  pose proof (length_print_decimal z).
  pose proof (slice_app_mid [] (print_decimal z ++ replicate pad 0) [] 0 (Z.to_nat 32) eq_refl) as Hs.
  rewrite !app_nil_r in Hs. cbn [app] in Hs. rewrite Hs by (rewrite length_app, length_replicate; lia).
  cbn [or_fault mbind res_bind]. apply stoll_print; [done|apply ends_number_zeros].
Qed.

(** ** Packed identifiers *)

(** The two halves of an id. *)
Definition parent_of (id : Z) : Z := Z.shiftr (u64 id) 32.
Definition branch_of (id : Z) : Z := u32 (u64 id).

Lemma lor_disjoint a b : 0 <= a < 2 ^ 32 -> 0 <= b < 2 ^ 32 ->
  Z.lor (u64 (Z.shiftl a 32)) b = a * 2 ^ 32 + b.
Proof.
  intros Ha Hb. rewrite Z.shiftl_mul_pow2, wrap_small by lia.
  rewrite <- (Z.add_lor_land (a * 2 ^ 32) b).
  assert (Z.land (a * 2 ^ 32) b = 0) as ->; [|lia].
  replace b with (Z.land b (Z.ones 32)) by (rewrite Z.land_ones by lia; apply Z.mod_small; lia).
  rewrite (Z.land_comm b), Z.land_assoc, Z.land_ones, Z.mod_mul by lia. apply Z.land_0_l.
Qed.

Lemma get_new_local_id_Ok parent c id c' : get_new_local_id parent c = Ok (id, c') ->
  c' = c + 1 /\ u64 id = u32 parent * 2 ^ 32 + u32 (c + 1) /\ in_i64 id = true.
Proof.
  unfold get_new_local_id, checked_i64. destruct (in_i64 (c + 1)); [|discriminate].
  cbn [mbind res_bind]. intros [= <- <-]. split; [done|].
  pose proof (wrap_range 32 parent ltac:(lia)). pose proof (wrap_range 32 (c + 1) ltac:(lia)).
  rewrite lor_disjoint by done. split.
  - rewrite wrap_swrap by lia. apply wrap_small. lia.
  - unfold in_i64. pose proof (swrap_range 64 (u32 parent * 2 ^ 32 + u32 (c + 1)) ltac:(lia)).
    simpl in *. lia.
Qed.

Lemma get_new_local_id_halves parent c id c' : get_new_local_id parent c = Ok (id, c') ->
  parent_of id = u32 parent /\ branch_of id = u32 (c + 1).
Proof.
  intros (_ & Hu & _)%get_new_local_id_Ok.
  pose proof (wrap_range 32 parent ltac:(lia)). pose proof (wrap_range 32 (c + 1) ltac:(lia)).
  unfold parent_of, branch_of. rewrite Hu. split.
  - rewrite Z.shiftr_div_pow2, Z.div_add_l by lia. rewrite Z.div_small; lia.
  - unfold wrap. rewrite Z.add_comm, Z_mod_plus_full. apply Z.mod_small. done.
Qed.

Lemma get_new_local_id_is_Ok parent c : - 2 ^ 63 <= c < 2 ^ 63 - 1 -> is_ok (get_new_local_id parent c).
Proof.
  intros Hc. unfold get_new_local_id, checked_i64.
  replace (in_i64 (c + 1)) with true by (unfold in_i64; lia). by eexists.
Qed.

(** ** Header fields *)

Lemma set_at_lt {A} (l : list A) i x : (i < length l)%nat -> set_at l i x = Ok (<[i:=x]> l).
Proof. intros H. unfold set_at. by rewrite decide_True. Qed.

Record header_wf (h : HeaderField) : Prop := {
  hw_name : length (hf_name h) = 60%nat;
  hw_value : length (hf_value h) = 60%nat
}.

(** What a header field holds. *)
Definition header_bytes (h : HeaderField) : option (list Z) * option (list Z) :=
  (slice 0 (Z.to_nat (name_len h)) (hf_name h), slice 0 (Z.to_nat (value_len h)) (hf_value h)).

Lemma write_terminated (arr bs : list Z) : length arr = 60%nat -> (length bs < 60)%nat ->
  exists arr1 arr2, store arr 0 bs = Ok arr1 /\ set_at arr1 (length bs) 0 = Ok arr2 /\
    length arr2 = 60%nat /\ slice 0 (length bs) arr2 = Some bs.
Proof.
  intros Ha Hb. unfold store. rewrite decide_True by lia. rewrite take_0. cbn [app].
  eexists _, _. split; [reflexivity|]. rewrite set_at_lt by (rewrite length_app, length_drop; lia).
  split; [reflexivity|]. rewrite length_insert, length_app, length_drop. split; [lia|].
  rewrite insert_app_r_alt by lia. rewrite Nat.sub_diag.
  apply (slice_app_mid [] bs); done.
Qed.

Lemma store_full (arr bs : list Z) : length arr = 60%nat -> length bs = 60%nat ->
  store arr 0 bs = Ok bs /\ set_at bs 60 0 = Err (Throw OutOfRange).
Proof.
  intros Ha Hb. unfold store, set_at. rewrite decide_True by lia. rewrite decide_False by lia.
  rewrite take_0, drop_ge by lia. cbn [app]. by rewrite app_nil_r.
Qed.

Lemma slice_prefix (bs rest : list Z) n : n = length bs -> slice 0 n (bs ++ rest) = Some bs.
Proof. intros ->. by apply (slice_app_mid [] bs rest). Qed.

(** Evaluate the binds of a computation whose calls are known. *)
Ltac run_binds E1 E2 E3 E4 :=
  cbn [fatal_if or_fault mbind res_bind];
  repeat (first [rewrite E1 | rewrite E2 | rewrite E3 | rewrite E4]; cbn [or_fault mbind res_bind]).

(** [set] on strings [n] and [v], wherever they lie in memory. *)
Lemma hf_set_spec (n v nrest vrest : list Z) h : header_wf h ->
  let r := hf_set (n ++ nrest) (Z.of_nat (length n)) (v ++ vrest) (Z.of_nat (length v)) h in
  ((length n < 60)%nat -> (length v < 60)%nat -> exists h', r = Ok h' /\ header_wf h' /\
     header_bytes h' = (Some n, Some v) /\ name_len h' = Z.of_nat (length n) /\ value_len h' = Z.of_nat (length v)) /\
  ((60 < length n)%nat \/ (60 < length v)%nat -> r = Err Fatal) /\
  (length n = 60%nat -> (length v <= 60)%nat -> r = Err (Throw OutOfRange)) /\
  ((length n < 60)%nat -> length v = 60%nat -> r = Err (Throw OutOfRange)).
Proof.
  intros [Hn Hv] r. unfold r, hf_set, MAX_HEADER_FIELD_SIZE. rewrite !Nat2Z.id, !slice_prefix by done.
  repeat split.
  - intros H1 H2. destruct (write_terminated _ n Hn H1) as (a1 & a2 & E1 & E2 & La & Sa).
    destruct (write_terminated _ v Hv H2) as (b1 & b2 & E3 & E4 & Lb & Sb).
    replace (60 <? Z.of_nat (length n)) with false by lia. replace (60 <? Z.of_nat (length v)) with false by lia.
    run_binds E1 E2 E3 E4.
    eexists. split; [reflexivity|]. split; [done|]. unfold header_bytes. cbn [name_len value_len hf_name hf_value].
    rewrite !Nat2Z.id, Sa, Sb. done.
  - intros [H|H].
    + replace (60 <? Z.of_nat (length n)) with true by lia. done.
    + replace (60 <? Z.of_nat (length v)) with true by lia. by destruct (_ <? _).
  - intros H1 H2. destruct (store_full _ n Hn H1) as [E1 E2]. rewrite H1.
    change (60 <? Z.of_nat 60) with false. replace (60 <? Z.of_nat (length v)) with false by lia.
    run_binds E1 E2 E1 E2. done.
  - intros H1 H2. destruct (write_terminated _ n Hn H1) as (a1 & a2 & E1 & E2 & La & Sa).
    destruct (store_full _ v Hv H2) as [E3 E4]. rewrite H2.
    replace (60 <? Z.of_nat (length n)) with false by lia. change (60 <? Z.of_nat 60) with false.
    run_binds E1 E2 E3 E4. done.
Qed.

(** ** The arrays of a message *)

Record headers_wf (hs : list HeaderField) (n : Z) : Prop := {
  hsw_len : length hs = 13%nat;
  hsw_all : Forall header_wf hs;
  hsw_count : 0 <= n <= 13
}.

Record data_wf (d : DataReadStruct) : Prop := {
  dw_len : Z.of_nat (length (dr_data d)) = MAX_PAYLOAD_SIZE;
  dw_offset : 0 <= offset d <= MAX_PAYLOAD_SIZE;
  dw_read : 0 <= read_offset d <= offset d
}.

Record msg_wf (r : RPCMessage) : Prop := {
  mw_req : headers_wf (req_headers r) (req_header_count r);
  mw_res : headers_wf (res_headers r) (res_header_count r);
  mw_trailers : headers_wf (res_trailers r) (res_trailer_count r);
  mw_req_data : data_wf (req_data r);
  mw_res_data : data_wf (res_data r)
}.

Lemma header_make_wf : header_wf header_make.
Proof. by split. Qed.

Lemma data_make_wf : data_wf data_make.
Proof.
  split; cbn [data_make dr_data offset read_offset]; [rewrite length_replicate| |]; unfold MAX_PAYLOAD_SIZE; lia.
Qed.

Lemma rpc_make_wf pr t k : msg_wf (rpc_make pr t k).
Proof.
  assert (headers_wf (replicate (Z.to_nat MAX_HEADER_FIELD_NUMBER) header_make) 0) as H.
  { split; [by rewrite length_replicate|apply Forall_replicate, header_make_wf|lia]. }
  split; cbn [rpc_make req_headers res_headers res_trailers req_header_count res_header_count
    res_trailer_count req_data res_data]; (exact H || apply data_make_wf).
Qed.

Lemma header_reset_wf hs n : headers_wf hs n -> headers_wf (header_reset <$> hs) 0.
Proof.
  intros [Hl Ha _]. split; [by rewrite length_fmap| |lia].
  apply Forall_fmap. eapply Forall_impl; [exact Ha|]. intros h [??]. by split.
Qed.

Lemma data_reset_wf d : data_wf d -> data_wf (data_reset d).
Proof. intros [? ? ?]. split; simpl; [done|unfold MAX_PAYLOAD_SIZE; lia|lia]. Qed.

Lemma clear_wf r r' : msg_wf r -> clear r = Ok r' -> msg_wf r'.
Proof.
  intros [H1 H2 H3 H4 H5] H. unfold clear in H. bind_inv.
  destruct (http r); injection H as <-; split;
    cbn [req_headers res_headers res_trailers req_header_count res_header_count res_trailer_count req_data res_data];
    eauto using header_reset_wf, data_reset_wf.
Qed.

(** Memory from which [n] bytes of a string can be read. *)
Definition readable (mem : list Z) (n : Z) : Prop := 0 <= n <= Z.of_nat (length mem).

Lemma readable_split mem n : readable mem n ->
  exists s rest, mem = s ++ rest /\ n = Z.of_nat (length s).
Proof.
  intros Hn. exists (take (Z.to_nat n) mem), (drop (Z.to_nat n) mem).
  rewrite take_drop, length_take. unfold readable in Hn. split; [done|lia].
Qed.

(** Storing a header: refused when the table is full, stored when both
    strings have fewer than 60 bytes, reported otherwise. *)
Inductive push_header_outcome (name : list Z) (nl : Z) (value : list Z) (vl : Z)
    (hs : list HeaderField) (n : Z) : res (list HeaderField * Z) -> Prop :=
  | pho_full : n = 13 -> push_header_outcome name nl value vl hs n (Err Fatal)
  | pho_stored h : n < 13 -> nl < 60 -> vl < 60 -> header_wf h ->
      header_bytes h = (slice 0 (Z.to_nat nl) name, slice 0 (Z.to_nat vl) value) ->
      push_header_outcome name nl value vl hs n (Ok (<[Z.to_nat n := h]> hs, n + 1))
  | pho_long : n < 13 -> 60 < nl \/ 60 < vl -> push_header_outcome name nl value vl hs n (Err Fatal)
  | pho_sixty : n < 13 -> nl = 60 \/ vl = 60 ->
      push_header_outcome name nl value vl hs n (Err (Throw OutOfRange)).

Lemma push_header_spec name nl value vl hs n : headers_wf hs n -> readable name nl -> readable value vl ->
  push_header_outcome name nl value vl hs n (push_header name nl value vl hs n).
Proof.
  intros [Hl Ha Hc] Hn Hv. unfold push_header. change MAX_HEADER_FIELD_NUMBER with 13.
  destruct (Z.leb_spec 13 n) as [Hge|Hlt]; cbn [fatal_if mbind res_bind].
  { apply pho_full. lia. }
  destruct (lookup_lt_is_Some_2 hs (Z.to_nat n)) as [h Hh]; [lia|].
  assert (header_wf h) as Hw by by eapply Forall_lookup_1.
  assert (zat hs n = Ok h) as ->.
  { rewrite <- (Z2Nat.id n) by lia. by apply zat_lookup. }
  cbn [mbind res_bind].
  destruct (readable_split _ _ Hn) as (sn & rn & -> & ->), (readable_split _ _ Hv) as (sv & rv & -> & ->).
  destruct (hf_set_spec sn sv rn rv h Hw) as (S1 & S2 & S3 & S4).
  destruct (decide (60 < length sn \/ 60 < length sv)%nat) as [H|H].
  { rewrite S2 by done. cbn [mbind res_bind]. apply pho_long; lia. }
  destruct (decide (length sn = 60%nat)) as [H1|].
  { rewrite S3 by lia. cbn [mbind res_bind]. apply pho_sixty; lia. }
  destruct (decide (length sv = 60%nat)) as [H2|].
  { rewrite S4 by lia. cbn [mbind res_bind]. apply pho_sixty; lia. }
  destruct S1 as (h' & -> & Hw' & Hb & _); [lia|lia|]. cbn [mbind res_bind].
  apply pho_stored; [lia|lia|lia|done|]. rewrite Hb, !Nat2Z.id, !slice_prefix; done.
Qed.

Lemma push_header_wf name nl value vl hs n hs' n' : headers_wf hs n -> readable name nl -> readable value vl ->
  push_header name nl value vl hs n = Ok (hs', n') -> headers_wf hs' n'.
Proof.
  intros H Hn Hv E. pose proof (push_header_spec _ _ _ _ _ _ H Hn Hv) as Ho. rewrite E in Ho.
  inversion Ho; subst. destruct H as [Hl Ha Hc].
  split; [by rewrite length_insert|by apply Forall_insert|lia].
Qed.

Lemma push_header_safe name nl value vl hs n : headers_wf hs n -> readable name nl -> readable value vl ->
  safe (fun '(hs', n') => headers_wf hs' n' /\ n' = n + 1) (push_header name nl value vl hs n).
Proof.
  intros H Hn Hv. pose proof (push_header_wf name nl value vl hs n) as Hwf.
  destruct (push_header_spec _ _ _ _ _ _ H Hn Hv); simpl; [done| |done|done]. split; [|done].
  destruct H as [Hl Ha Hc]. split; [by rewrite length_insert|by apply Forall_insert|lia].
Qed.

Lemma append_data_spec bytes d : data_wf d ->
  (if decide (offset d + Z.of_nat (length bytes) <= MAX_PAYLOAD_SIZE)
   then exists d', append_data bytes d = Ok d' /\ data_wf d' /\
     offset d' = offset d + Z.of_nat (length bytes) /\ read_offset d' = read_offset d /\
     slice 0 (Z.to_nat (offset d')) (dr_data d') =
       Some (take (Z.to_nat (offset d)) (dr_data d) ++ bytes)
   else append_data bytes d = Err Fatal).
Proof.
  intros [Hl Ho Hr]. unfold append_data. unfold MAX_PAYLOAD_SIZE in *. rewrite (wrap_small 64) by lia.
  case_decide as Hfit.
  - replace (20000 - offset d <? _) with false by lia. cbn [fatal_if mbind res_bind].
    unfold store. rewrite decide_True by lia. cbn [mbind res_bind]. eexists. split; [reflexivity|].
    cbn [offset read_offset dr_data]. split; [|split; [done|split; [done|]]].
    + split; cbn [dr_data offset read_offset]; unfold MAX_PAYLOAD_SIZE;
        [rewrite !length_app, length_take, length_drop; lia|lia|lia].
    + rewrite app_assoc. apply slice_prefix. rewrite length_app, length_take. lia.
  - by replace (20000 - offset d <? _) with true by lia.
Qed.

(** ** [add_header_field] is safe *)

Lemma mem_eq_ok mem lit : (length lit <= length mem)%nat -> is_ok (mem_eq mem lit).
Proof.
  revert mem. induction lit as [|c lit IH]; intros mem Hl; [by eexists|].
  destruct mem as [|b mem]; [simpl in Hl; lia|]. cbn [mem_eq]. case_match; [apply IH; simpl in Hl; lia|by eexists].
Qed.

Lemma mem_eq_safe mem lit : (length lit <= length mem)%nat -> safe (fun _ => True) (mem_eq mem lit).
Proof. intros Hl. eapply safe_mono; [|by apply safe_is_ok, mem_eq_ok]. done. Qed.

Lemma stoll_safe l : safe (fun v => in_i64 v = true) (stoll l).
Proof. unfold stoll. repeat (case_match; simpl; try done). Qed.

Lemma read_stoll_safe value vl : readable value vl -> safe (fun v => in_i64 v = true) (read_stoll value vl).
Proof.
  intros Hv. unfold read_stoll. apply (safe_bind (fun _ => True)); [|intros; apply stoll_safe].
  unfold slice, readable in *. by rewrite decide_True by lia.
Qed.

(** The counter of ids, far from overflow. *)
Definition counter_ok (c : Z) : Prop := 0 <= c < 2 ^ 62.

Lemma new_id_safe parent c : counter_ok c ->
  safe (fun '(id, c') => c' = c + 1 /\ in_i64 id = true) (get_new_local_id parent c).
Proof.
  intros Hc. unfold counter_ok in Hc.
  destruct (get_new_local_id_is_Ok parent c) as [[id c'] E]; [lia|]. rewrite E.
  apply get_new_local_id_Ok in E as (-> & _ & ?). done.
Qed.

(** Interpreting a header touches the identifiers and the priority only. *)
Definition same_arrays (r r' : RPCMessage) : Prop :=
  req_headers r' = req_headers r /\ req_header_count r' = req_header_count r /\
  res_headers r' = res_headers r /\ res_header_count r' = res_header_count r /\
  res_trailers r' = res_trailers r /\ res_trailer_count r' = res_trailer_count r /\
  req_data r' = req_data r /\ res_data r' = res_data r /\ http r' = http r /\ type r' = type r.

Lemma same_arrays_wf r r' : same_arrays r r' -> msg_wf r -> msg_wf r'.
Proof.
  intros (E1 & E2 & E3 & E4 & E5 & E6 & E7 & E8 & _) [H1 H2 H3 H4 H5].
  split; rewrite ?E1, ?E2, ?E3, ?E4, ?E5, ?E6, ?E7, ?E8; done.
Qed.

Lemma same_arrays_trans r1 r2 r3 : same_arrays r1 r2 -> same_arrays r2 r3 -> same_arrays r1 r3.
Proof. unfold same_arrays. intuition congruence. Qed.

Section Safety.
Context (name value : list Z) (vl : Z).
Context (Hname : (13 <= length name)%nat) (Hvalue : readable value vl).

Lemma compare_safe lit : (String.length lit <= 13)%nat -> safe (fun _ => True) (memcmp_eq name lit).
Proof using Hname. intros Hl. apply mem_eq_safe. rewrite length_bytes_of_string. lia. Qed.

Lemma on_rpc_id_safe ing r c : counter_ok c ->
  safe (fun '(r', c') => same_arrays r r' /\ c <= c' <= c + 1) (on_rpc_id ing name value vl r c).
Proof using All.
  intros Hc. apply (safe_bind (fun _ => True)); [apply compare_safe; simpl; lia|]. intros [] _.
  - eapply safe_bind; [by apply read_stoll_safe|]. intros g _. simpl. case_match.
    + eapply safe_bind; [by apply new_id_safe|]. intros [id c'] [-> _]. split; [by repeat split|lia].
    + split; [by repeat split|lia].
  - split; [by repeat split|lia].
Qed.

Lemma on_rpc_local_id_safe r c : counter_ok c ->
  safe (fun '(r', c', _) => same_arrays r r' /\ c <= c' <= c + 1) (on_rpc_local_id name value vl r c).
Proof using All.
  intros Hc. apply (safe_bind (fun _ => True)); [apply compare_safe; simpl; lia|]. intros [] _.
  - eapply safe_bind; [by apply read_stoll_safe|]. intros g _. destruct (type r).
    + apply (safe_bind (fun _ => True)); [by apply safe_fatal_if|]. intros _ _. split; [by repeat split|lia].
    + apply (safe_bind (fun _ => True)); [by apply safe_fatal_if|]. intros _ _.
      eapply safe_bind; [by apply new_id_safe|]. intros [id c'] [-> _]. split; [by repeat split|lia].
  - split; [by repeat split|lia].
Qed.

Lemma on_priority_safe r : safe (same_arrays r) (on_priority name value vl r).
Proof using All.
  apply (safe_bind (fun _ => True)); [apply compare_safe; simpl; lia|]. intros [] _; [|by repeat split].
  eapply safe_bind; [by apply read_stoll_safe|]. intros g _. by repeat split.
Qed.

Lemma interpret_header_safe ing r c : counter_ok (c + 1) -> 0 <= c ->
  safe (fun '(r', c', _) => same_arrays r r' /\ c <= c' <= c + 2) (interpret_header ing name value vl r c).
Proof using All.
  intros Hc H0. eapply safe_bind; [apply on_rpc_id_safe; unfold counter_ok in *; lia|].
  intros [r1 c1] [S1 H1].
  eapply safe_bind; [apply on_rpc_local_id_safe; unfold counter_ok in *; lia|].
  intros [[r2 c2] []] [S2 H2].
  - split; [by eapply same_arrays_trans|lia].
  - eapply safe_bind; [apply on_priority_safe|]. intros r3 S3.
    split; [eapply same_arrays_trans; [|exact S3]; by eapply same_arrays_trans|lia].
Qed.

Context (nl : Z) (Hnl : readable name nl).

Lemma push_req_header_safe r : msg_wf r -> safe msg_wf (push_req_header name nl value vl r).
Proof using All.
  intros [H1 H2 H3 H4 H5]. eapply safe_bind; [by apply push_header_safe|].
  intros [hs n] [Hw _]. by split.
Qed.

Lemma push_res_header_safe r : msg_wf r -> safe msg_wf (push_res_header name nl value vl r).
Proof using All.
  intros [H1 H2 H3 H4 H5]. eapply safe_bind; [by apply push_header_safe|].
  intros [hs n] [Hw _]. by split.
Qed.

Lemma push_res_trailer_safe r : msg_wf r -> safe msg_wf (push_res_trailer name nl value vl r).
Proof using All.
  intros [H1 H2 H3 H4 H5]. eapply safe_bind; [by apply push_header_safe|].
  intros [hs n] [Hw _]. by split.
Qed.

Lemma request_block_safe ing request r c : counter_ok (c + 1) -> 0 <= c -> msg_wf r ->
  safe (fun '(r', c', _) => msg_wf r' /\ c <= c' <= c + 2)
    (if request : bool then interpret_header ing name value vl r c else Ok (r, c, false)).
Proof using All.
  intros Hc H0 Hr. destruct request.
  - eapply safe_mono; [|by apply interpret_header_safe]. intros [[r' c'] ret] [Hs Hb].
    split; [by eapply same_arrays_wf|done].
  - split; [done|lia].
Qed.

Lemma http_add_header_field_safe ing request tailer r c :
  counter_ok (c + 1) -> 0 <= c -> msg_wf r ->
  safe (fun '(r', c') => msg_wf r' /\ c <= c' <= c + 2)
    (http_add_header_field ing name nl value vl request tailer r c).
Proof using All.
  intros Hc H0 Hr. apply (safe_bind (fun _ => True)); [by apply safe_fatal_if|]. intros _ _.
  eapply safe_bind; [by apply request_block_safe|]. intros [[r1 c1] []] [H1 Hb]; [done|].
  eapply (safe_bind msg_wf); [|intros r2 H2; by split].
  destruct request; [by apply push_req_header_safe|by apply push_res_header_safe].
Qed.

Lemma grpc_add_header_field_safe ing request tailer r c :
  counter_ok (c + 1) -> 0 <= c -> msg_wf r ->
  safe (fun '(r', c') => msg_wf r' /\ c <= c' <= c + 2)
    (grpc_add_header_field ing name nl value vl request tailer r c).
Proof using All.
  intros Hc H0 Hr. apply (safe_bind (fun _ => True)).
  { apply mem_eq_safe. simpl. lia. }
  intros b _. eapply (safe_bind msg_wf).
  { destruct b; [|done]. destruct (Z.eqb_spec vl 0); [done|]. cbn [mbind res_bind].
    unfold slice, readable in *. rewrite decide_True by lia.
    destruct Hr as [H1 H2 H3 H4 H5]. by split. }
  intros r1 Hr1. eapply safe_bind; [by apply request_block_safe|].
  intros [[r2 c2] []] [H2 Hb]; [done|].
  eapply (safe_bind msg_wf); [|intros r3 H3; by split].
  destruct tailer, request; [done|by apply push_res_trailer_safe|by apply push_req_header_safe|by apply push_res_header_safe].
Qed.
End Safety.

(** ** The local id, from the hosted service back to its request *)

Lemma mem_eq_app lit rest : mem_eq (lit ++ rest) lit = Ok true.
Proof. induction lit as [|c lit IH]; [done|]. cbn [app mem_eq]. by rewrite Z.eqb_refl. Qed.

Lemma memcmp_prefix s rest : memcmp_eq (bytes_of_string s ++ rest) s = Ok true.
Proof. apply mem_eq_app. Qed.

(** A header in memory: its name, then anything. *)
Lemma local_id_header_egress ing r c id nrest vrest vl : type r = EGRESS ->
  0 < id <= UINT32_MAX -> counter_ok c -> read_stoll vrest vl = Ok id ->
  exists id', get_new_local_id id c = Ok (id', c + 1) /\
    interpret_header ing (bytes_of_string "rpc-local-id" ++ nrest) vrest vl r c
      = Ok (set_local_id id' r, c + 1, true).
Proof.
  intros Ht Hid Hc Hv.
  destruct (get_new_local_id_is_Ok id c) as [[id' c'] E]; [unfold counter_ok in Hc; lia|].
  pose proof (get_new_local_id_Ok _ _ _ _ E) as (-> & _). exists id'. split; [done|].
  unfold interpret_header, on_rpc_id, on_rpc_local_id. rewrite memcmp_prefix.
  change (memcmp_eq (bytes_of_string "rpc-local-id" ++ nrest) "rpc-id") with (@Ok bool false).
  cbn [mbind res_bind]. rewrite Hv. cbn [mbind res_bind]. rewrite Ht.
  replace (id <=? 0) with false by lia. replace (UINT32_MAX <? id) with false by lia.
  cbn [orb fatal_if mbind res_bind]. rewrite E. done.
Qed.

(** ** Requests' services *)

Lemma memchr_spec c l rest : Forall (fun b => b <> c) l -> memchr c (l ++ c :: rest) = Some (length l).
Proof.
  induction 1 as [|b l Hb _ IH]; cbn [app memchr length].
  - by rewrite Z.eqb_refl.
  - destruct (Z.eqb_spec b c); [done|]. by rewrite IH.
Qed.

Lemma memchr_none c l : Forall (fun b => b <> c) l -> memchr c l = None.
Proof.
  induction 1 as [|b l Hb _ IH]; cbn [memchr]; [done|]. destruct (Z.eqb_spec b c); [done|]. by rewrite IH.
Qed.

(** The part of a target after the scheme, which the parser looks into. *)
Definition after_scheme (s : list Z) : list Z :=
  if decide (7 <= length s)%nat then
    if bool_decide (take 7 s = bytes_of_string "http://") then drop 7 s else s
  else s.

Lemma parse_after (s host svc q : list Z) : after_scheme s = host ++ 47 :: svc ++ 63 :: q ->
  Forall (fun b => b <> 47) host -> Forall (fun b => b <> 63) svc ->
  parse_service_from_request_target s = Some (string_of_bytes svc).
Proof.
  intros Hs Hh Hq. unfold parse_service_from_request_target. fold (after_scheme s). rewrite Hs.
  rewrite memchr_spec by done. rewrite decide_False.
  2:{ rewrite !length_app. cbn [length]. rewrite length_app. cbn [length]. lia. }
  replace (drop (length host + 1) (host ++ 47 :: svc ++ 63 :: q)) with (svc ++ 63 :: q).
  2:{ rewrite drop_app_ge by lia. replace (length host + 1 - length host)%nat with 1%nat by lia. done. }
  rewrite memchr_spec by done. by rewrite take_app_length.
Qed.

Lemma parse_after_plain (s host svc : list Z) : after_scheme s = host ++ 47 :: svc -> svc <> [] ->
  Forall (fun b => b <> 47) host -> Forall (fun b => b <> 63) svc ->
  parse_service_from_request_target s = Some (string_of_bytes svc).
Proof.
  intros Hs Hne Hh Hq. unfold parse_service_from_request_target. fold (after_scheme s). rewrite Hs.
  rewrite memchr_spec by done. rewrite decide_False.
  2:{ rewrite length_app. destruct svc; [done|]. cbn [length]. lia. }
  replace (drop (length host + 1) (host ++ 47 :: svc)) with svc.
  2:{ rewrite drop_app_ge by lia. replace (length host + 1 - length host)%nat with 1%nat by lia. done. }
  by rewrite memchr_none.
Qed.

(** ** Properties *)

(** The path of a local id: the id given to a request on the ingress side
    is printed into the [rpc-local-id] header, and the sub-request that
    carries the header back gets an id whose upper half is that very id -
    the key under which [get_ingress_rpc] finds the request; the header
    itself is not forwarded. It fails only for the id 0, after [2^32]
    requests. *)
Theorem local_id_round_trip c0 iid c1 r c nrest :
  counter_ok c0 -> counter_ok c -> get_new_local_id 0 c0 = Ok (iid, c1) -> u32 c1 <> 0 ->
  http r = HTTP1 -> type r = EGRESS ->
  let '(value, len) := snprintf32 iid in
  exists id', http_add_header_field false (bytes_of_string "rpc-local-id" ++ nrest) 12 value len
      true false r c = Ok (set_local_id id' r, c + 1) /\
    parent_of id' = iid /\ 0 < iid <= UINT32_MAX /\ branch_of id' = u32 (c + 1).
Proof.
  intros Hc0 Hc Hg Hne Hh Ht. pose proof (get_new_local_id_Ok _ _ _ _ Hg) as (-> & Hu & Hr).
  pose proof (wrap_range 32 (c0 + 1) ltac:(lia)) as Hw.
  assert (iid = u32 (c0 + 1)) as Ei.
  { change (u32 0) with 0 in Hu. rewrite Z.mul_0_l, Z.add_0_l in Hu.
    unfold in_i64 in Hr. destruct (decide (0 <= iid)).
    - rewrite (wrap_small 64) in Hu; lia.
    - unfold wrap at 1 in Hu. rewrite <- (Z_mod_plus_full iid 1), Z.mod_small in Hu; lia. }
  assert (0 < iid <= UINT32_MAX) as Hid by (unfold UINT32_MAX; lia).
  destruct (snprintf32 iid) as [value len] eqn:Es.
  pose proof (read_printed iid Hr) as Hread. rewrite Es in Hread. cbn [fst snd] in Hread.
  destruct (local_id_header_egress false r c iid nrest value len Ht Hid Hc Hread) as (id' & Eid & Hi).
  exists id'. unfold http_add_header_field. cbn [fatal_if mbind res_bind]. rewrite Hi. cbn [mbind res_bind].
  split; [done|]. destruct (get_new_local_id_halves _ _ _ _ Eid) as [-> ->].
  split; [apply wrap_small; unfold UINT32_MAX in Hid; lia|done].
Qed.

Lemma local_id_round_trip_witness :
  exists id', http_add_header_field false (c_str "rpc-local-id") 12 (snprintf32 8).1 1
      true false (set_type EGRESS (rpc_make 0 INGRESS HTTP1)) 20 = Ok (set_local_id id' (set_type EGRESS (rpc_make 0 INGRESS HTTP1)), 21) /\
    parent_of id' = 8.
Proof.
  destruct (local_id_round_trip 7 8 8 (set_type EGRESS (rpc_make 0 INGRESS HTTP1)) 20 [0]) as (id' & H & Hp & _);
    [unfold counter_ok; lia|unfold counter_ok; lia|done|done|done|done|].
  by exists id'.
Defined.

(** Adding a header to a well-formed message is memory safe whatever the
    header: the message stays well formed or the program stops with a
    reported error, and never more than two ids are consumed. *)
Theorem add_header_field_safe ing name nl value vl request tailer r c :
  (13 <= length name)%nat -> readable name nl -> readable value vl -> 0 <= c < 2 ^ 62 - 1 -> msg_wf r ->
  safe (fun '(r', c') => msg_wf r' /\ c <= c' <= c + 2)
    (add_header_field ing name nl value vl request tailer r c).
Proof.
  intros Hn Hnl Hvl Hc Hr. unfold add_header_field. destruct (http r).
  - apply http_add_header_field_safe; (done || unfold counter_ok; lia).
  - apply grpc_add_header_field_safe; (done || unfold counter_ok; lia).
Qed.

Lemma add_header_field_safe_witness :
  safe (fun '(r', c') => msg_wf r' /\ 5 <= c' <= 7)
    (add_header_field true (bytes_of_string "rpc-id: 7, accept") 6 (bytes_of_string "7, accept") 1
       true false (rpc_make 0 INGRESS HTTP1) 5).
Proof.
  apply (add_header_field_safe true); [vm_compute; lia|split; by vm_compute|split; by vm_compute|lia|apply rpc_make_wf].
Defined.

(** A request that carries the standard [priority] header of HTTP
    (for instance [u=1]) stops the sidecar: the value is given to [stoll],
    whose exception is not handled where headers are added. *)
Theorem priority_header_throws ing r c v vl nl nrest :
  http r = HTTP1 -> slice 0 (Z.to_nat vl) v = Some (bytes_of_string "u=1") ->
  add_header_field ing (bytes_of_string "priority" ++ nrest) nl v vl true false r c
    = Err (Throw InvalidArgument).
Proof.
  intros Hh Hv. unfold add_header_field, http_add_header_field. rewrite Hh. cbn [fatal_if mbind res_bind].
  unfold interpret_header, on_rpc_id, on_rpc_local_id, on_priority. rewrite memcmp_prefix.
  change (memcmp_eq (bytes_of_string "priority" ++ nrest) "rpc-id") with (@Ok bool false).
  change (memcmp_eq (bytes_of_string "priority" ++ nrest) "rpc-local-id") with (@Ok bool false).
  cbn [mbind res_bind]. unfold read_stoll. rewrite Hv. done.
Qed.

Lemma priority_header_throws_witness :
  add_header_field false (bytes_of_string "priority: u=1") 8 (bytes_of_string "u=1") 3 true false
    (rpc_make 0 INGRESS HTTP1) 0 = Err (Throw InvalidArgument).
Proof. apply (priority_header_throws false (rpc_make 0 INGRESS HTTP1) 0 _ 3 8 (bytes_of_string ": u=1")); by vm_compute. Defined.

(** The service of an HTTP request is what stands between the first slash
    after the authority and the query: in origin form and in absolute form,
    with or without a query, and across further slashes. *)
Theorem service_of_target (s host svc q : list Z) :
  after_scheme s = host ++ 47 :: svc ++ q -> Forall (fun b => b <> 47) host ->
  Forall (fun b => b <> 63) svc -> svc <> [] -> (q = [] \/ exists q', q = 63 :: q') ->
  parse_service_from_request_target s = Some (string_of_bytes svc).
Proof.
  intros Hs Hh Hq Hne [->|[q' ->]].
  - rewrite app_nil_r in Hs. by eapply parse_after_plain.
  - by eapply parse_after.
Qed.

Lemma service_of_target_witness :
  parse_service_from_request_target (bytes_of_string "http://10.0.0.1:2000/hotels/near?lat=37.7") = Some "hotels/near"%string.
Proof.
  rewrite <- (string_of_bytes_of_string "hotels/near").
  apply (service_of_target _ (bytes_of_string "10.0.0.1:2000") _ (bytes_of_string "?lat=37.7")); try done.
  - repeat (apply Forall_cons_2; [done|]); apply Forall_nil_2.
  - repeat (apply Forall_cons_2; [done|]); apply Forall_nil_2.
  - right. by eexists.
Defined.

(** A message that goes back to its pool comes out of it, after the ones
    that were there, with empty tables, no service and unset identifiers -
    and with the priority of the request it served before, which stays
    unless the next request has a [priority] header. *)
Theorem message_recycled i r h p h1 p1 stream_id fd t :
  msg_wf r -> h !! i = Some r -> credit_return_queue r = [] -> http r = HTTP1 -> http_pool p = [] ->
  free_rpc (Some i) 1 h p = Ok (h1, p1) ->
  exists h2 p2 r', get_rpc stream_id fd HTTP1 t h1 p1 = Ok (i, h2, p2) /\ h2 !! i = Some r' /\
    msg_wf r' /\ http_pool p2 = [] /\ grpc_pool p2 = grpc_pool p /\
    req_header_count r' = 0 /\ res_header_count r' = 0 /\ offset (res_data r') = 0 /\
    service r' = ""%string /\ local_id r' = -1 /\ global_id r' = -1 /\ error r' = false /\
    ds_fd r' = fd /\ ds_stream_id r' = stream_id /\ type r' = t /\ priority r' = priority r.
Proof.
  intros Hwf Hi Hq Hh Hp Hf. unfold free_rpc in Hf. rewrite Hi in Hf. cbn [fatal_if or_fault mbind res_bind Z.ltb] in Hf.
  change (1 <? 1) with false in Hf. cbn [fatal_if mbind res_bind] in Hf.
  destruct (clear r) as [r0|] eqn:Ec; [|done]. cbn [mbind res_bind] in Hf.
  pose proof (clear_wf _ _ Hwf Ec) as Hwf0.
  unfold clear in Ec. rewrite Hq, Hh in Ec. cbn in Ec. injection Ec as Ec.
  assert (http r0 = HTTP1) as Hh0 by (subst r0; done). rewrite Hh0, Hp in Hf. injection Hf as <- <-.
  unfold get_rpc. cbn [http_pool grpc_pool head tail or_fault mbind res_bind].
  rewrite lookup_insert_eq. cbn [or_fault mbind res_bind].
  eexists _, _, _. split; [reflexivity|]. split; [apply lookup_insert_eq|].
  destruct Hwf0 as [W1 W2 W3 W4 W5]. split; [by split|]. by subst r0.
Qed.

Definition ex_msg : RPCMessage := set_priority 2 (set_local_id 9 (assign_service "geo" (rpc_make 0 INGRESS HTTP1))).

Lemma message_recycled_witness :
  exists h1 p1 h2 p2 r', free_rpc (Some 0%nat) 1 {[0%nat := ex_msg]} (mkPool [] []) = Ok (h1, p1) /\
    get_rpc 5 6 HTTP1 EGRESS h1 p1 = Ok (0%nat, h2, p2) /\ h2 !! 0%nat = Some r' /\
    local_id r' = -1 /\ priority r' = 2.
Proof.
  destruct (free_rpc (Some 0%nat) 1 {[0%nat := ex_msg]} (mkPool [] [])) as [[h1 p1]|] eqn:E; [|done].
  destruct (message_recycled 0 ex_msg {[0%nat := ex_msg]} (mkPool [] []) h1 p1 5 6 EGRESS)
    as (h2 & p2 & r' & Hg & Hl & _ & _ & _ & _ & _ & _ & _ & Hid & _ & _ & _ & _ & _ & Hp);
    [destruct (rpc_make_wf 0 INGRESS HTTP1); by split|apply lookup_singleton_eq|done|done|done|done|].
  exists h1, p1, h2, p2, r'. done.
Defined.
