(* ===== verification/RpcMapper.v ===== *)
(** * RPCMapper: [include/rpc_mapper.h], [src/rpc_mapper.cc]

    Where the messages in progress are found: by their downstream and their
    upstream identifiers, and by their local id, separately for the INGRESS
    and the EGRESS side. The maps hold pointers into the heap of messages. *)

From Stdlib Require Import ZArith Lia Ascii.
From stdpp Require Import base gmap strings list fin_maps numbers.
From S2P Require Import Prelude Fp Buffers RpcMessage RpcMessageProps.

Open Scope Z_scope.

(** An [unordered_map<ConnectionType, A>] with both keys present. *)
Record ByType (A : Type) := mkByType { on_ingress : A; on_egress : A }.
Arguments mkByType {A} _ _.
Arguments on_ingress {A} _.
Arguments on_egress {A} _.

Definition at_type {A} (t : ConnectionType) (m : ByType A) : A :=
  match t with INGRESS => on_ingress m | EGRESS => on_egress m end.
Definition set_type_at {A} (t : ConnectionType) (x : A) (m : ByType A) : ByType A :=
  match t with
  | INGRESS => mkByType x (on_egress m)
  | EGRESS => mkByType (on_ingress m) x
  end.

Lemma at_set_type_eq {A} t (x : A) m : at_type t (set_type_at t x m) = x.
Proof. by destruct t. Qed.
Lemma at_set_type_ne {A} t t' (x : A) m : t <> t' -> at_type t' (set_type_at t x m) = at_type t' m.
Proof. by destruct t, t'. Qed.

(** Pointers by file descriptor and stream. *)
Abbreviation FdMap := (gmap Z (gmap Z nat)).

Definition MAX_gRPC_POOL_SIZE : nat := 4000.
Definition MAX_HTTP_POOL_SIZE : nat := Z.to_nat 10000.

Record RPCMapper := mkMapper {
  ds_map : ByType FdMap;
  us_map : ByType FdMap;
  id_map : ByType (gmap Z nat);
  pool : RPCMessagePool
}.

Definition set_ds (t : ConnectionType) (x : FdMap) (m : RPCMapper) : RPCMapper :=
  mkMapper (set_type_at t x (ds_map m)) (us_map m) (id_map m) (pool m).
Definition set_us (t : ConnectionType) (x : FdMap) (m : RPCMapper) : RPCMapper :=
  mkMapper (ds_map m) (set_type_at t x (us_map m)) (id_map m) (pool m).
Definition set_id (t : ConnectionType) (x : gmap Z nat) (m : RPCMapper) : RPCMapper :=
  mkMapper (ds_map m) (us_map m) (set_type_at t x (id_map m)) (pool m).
Definition set_pool (p : RPCMessagePool) (m : RPCMapper) : RPCMapper :=
  mkMapper (ds_map m) (us_map m) (id_map m) p.

(** The constructor, for pools of the given sizes. *)
Definition mapper_make (mem : nat -> Z * ConnectionType) (grpc_n http_n : nat) : res (heap * RPCMapper) :=
  '(h, p) ← pool_make mem grpc_n http_n;
  Ok (h, mkMapper (mkByType ∅ ∅) (mkByType ∅ ∅) (mkByType ∅ ∅) p).

(** [m.at(fd).at(stream)]. *)
Definition find_at (m : FdMap) (fd stream : Z) : option nat := f ← m !! fd; f !! stream.

(** The caller finds the new message through [get_ds_rpc]; its pointer is
    returned here as well. *)
Definition allocate_rpc (t : ConnectionType) (stream_id fd : Z) (k : HTTP) (h : heap) (m : RPCMapper)
    : res (nat * heap * RPCMapper) :=
  '(i, h, p) ← get_rpc stream_id fd k t h (pool m);
  let m := set_pool p m in
  let ds := at_type t (ds_map m) in
  (* emplaces an empty map if there is none *)
  let f := default ∅ (ds !! fd) in
  match f !! stream_id with
  | Some _ => Err Fatal
  | None => Ok (i, h, set_ds t (<[fd := <[stream_id := i]> f]> ds) m)
  end.

(** [emplace] keeps the entry that is there; the result is not looked at. *)
Definition emplace (k : Z) (i : nat) (m : gmap Z nat) : gmap Z nat :=
  match m !! k with Some _ => m | None => <[k := i]> m end.

Definition route (t : ConnectionType) (ds_stream ds_fd us_stream us_fd : Z) (h : heap) (m : RPCMapper)
    : res RPCMapper :=
  let us := at_type t (us_map m) in
  let f := default ∅ (us !! us_fd) in
  i ← or_fault (Throw OutOfRange) (find_at (at_type t (ds_map m)) ds_fd ds_stream);
  r ← or_fault Undefined (h !! i);
  let ids := at_type t (id_map m) in
  _ ← fatal_if (bool_decide (is_Some (ids !! local_id r)));
  Ok (set_us t (<[us_fd := emplace us_stream i f]> us) (set_id t (<[local_id r := i]> ids) m)).

Definition get_ingress_rpc (id : Z) (m : RPCMapper) : res nat :=
  let ingress_side_id := Z.shiftr (u64 id) 32 in
  _ ← fatal_if (ingress_side_id =? 0);
  or_fault Fatal (at_type INGRESS (id_map m) !! ingress_side_id).

Definition get_us_rpc (t : ConnectionType) (us_stream us_fd : Z) (m : RPCMapper) : res nat :=
  or_fault Fatal (find_at (at_type t (us_map m)) us_fd us_stream).

Definition get_ds_rpc (t : ConnectionType) (ds_stream ds_fd : Z) (m : RPCMapper) : res nat :=
  or_fault Fatal (find_at (at_type t (ds_map m)) ds_fd ds_stream).

(** [m.at(fd).erase(stream)]. *)
Definition erase_at (m : FdMap) (fd stream : Z) : res FdMap :=
  f ← or_fault (Throw OutOfRange) (m !! fd);
  Ok (<[fd := delete stream f]> m).

(** [others] counts the [shared_ptr]s to the message apart from the caller's
    and the ones erased here. *)
Definition remove_rpc (t : ConnectionType) (i : nat) (others : Z) (h : heap) (m : RPCMapper)
    : res (heap * RPCMapper) :=
  r ← or_fault Undefined (h !! i);
  us ← erase_at (at_type t (us_map m)) (us_fd r) (us_stream_id r);
  ds ← erase_at (at_type t (ds_map m)) (ds_fd r) (ds_stream_id r);
  let ids := delete (local_id r) (at_type t (id_map m)) in
  let m := set_id t ids (set_ds t ds (set_us t us m)) in
  '(h, p) ← free_rpc (Some i) (1 + others) h (pool m);
  Ok (h, set_pool p m).

Definition get_fd_concurrency (fd : Z) (t : ConnectionType) (is_us : bool) (m : RPCMapper) : res Z :=
  f ← or_fault (Throw OutOfRange) (at_type t (if is_us then us_map m else ds_map m) !! fd);
  Ok (Z.of_nat (size f)).

Definition check_fd_exists (t : ConnectionType) (fd : Z) (is_us : bool) (m : RPCMapper) : bool :=
  match at_type t (if is_us then us_map m else ds_map m) !! fd with
  | Some f => negb (Nat.eqb (size f) 0)
  | None => false
  end.

(** ** Lookups through the operations *)

Lemma find_at_insert (m : FdMap) fd f fd' s : find_at (<[fd:=f]> m) fd' s =
  if decide (fd = fd') then f !! s else find_at m fd' s.
Proof. unfold find_at. rewrite lookup_insert. by case_decide. Qed.

Lemma find_at_default (m : FdMap) fd s : default ∅ (m !! fd) !! s = find_at m fd s.
Proof. unfold find_at. by destruct (m !! fd). Qed.

Lemma emplace_fresh k i m : m !! k = None -> emplace k i m = <[k := i]> m.
Proof. unfold emplace. by intros ->. Qed.

(** [m'] has [m]'s entries, and [i] at [(fd, s)]. *)
Definition added (fd s : Z) (i : nat) (m m' : FdMap) : Prop :=
  forall fd' s', find_at m' fd' s' = if decide (fd = fd' /\ s = s') then Some i else find_at m fd' s'.
Definition erased (fd s : Z) (m m' : FdMap) : Prop :=
  forall fd' s', find_at m' fd' s' = if decide (fd = fd' /\ s = s') then None else find_at m fd' s'.

Lemma added_insert (m : FdMap) fd s i : added fd s i m (<[fd := <[s := i]> (default ∅ (m !! fd))]> m).
Proof.
  intros fd' s'. rewrite find_at_insert. case_decide as E1; [subst fd'|].
  - rewrite lookup_insert. case_decide as E2; [subst s'|].
    + by rewrite decide_True.
    + rewrite decide_False by naive_solver. apply find_at_default.
  - by rewrite decide_False by naive_solver.
Qed.

Lemma erase_at_spec (m : FdMap) fd s i : find_at m fd s = Some i ->
  exists m', erase_at m fd s = Ok m' /\ erased fd s m m'.
Proof.
  intros Hf. unfold find_at in Hf. destruct (m !! fd) as [f|] eqn:Ef; [|done]. cbn in Hf.
  unfold erase_at. rewrite Ef. cbn [or_fault mbind res_bind]. eexists. split; [reflexivity|].
  intros fd' s'. rewrite find_at_insert. case_decide as E1; [subst fd'|].
  - rewrite lookup_delete. case_decide as E2; [subst s'|].
    + by rewrite decide_True.
    + rewrite decide_False by naive_solver. unfold find_at. by rewrite Ef.
  - by rewrite decide_False by naive_solver.
Qed.

(** ** The life of a message *)

(** Message [i] is in progress on side [t], found under its three keys. *)
Record tracked (t : ConnectionType) (i : nat) (h : heap) (m : RPCMapper) (r : RPCMessage) : Prop := {
  tr_heap : h !! i = Some r;
  tr_ds : find_at (at_type t (ds_map m)) (ds_fd r) (ds_stream_id r) = Some i;
  tr_us : find_at (at_type t (us_map m)) (us_fd r) (us_stream_id r) = Some i;
  tr_id : at_type t (id_map m) !! local_id r = Some i
}.

Lemma route_tracks t i h m r : h !! i = Some r ->
  find_at (at_type t (ds_map m)) (ds_fd r) (ds_stream_id r) = Some i ->
  find_at (at_type t (us_map m)) (us_fd r) (us_stream_id r) = None ->
  at_type t (id_map m) !! local_id r = None ->
  exists m', route t (ds_stream_id r) (ds_fd r) (us_stream_id r) (us_fd r) h m = Ok m' /\
    tracked t i h m' r /\ ds_map m' = ds_map m /\ pool m' = pool m /\
    added (us_fd r) (us_stream_id r) i (at_type t (us_map m)) (at_type t (us_map m')) /\
    at_type t (id_map m') = <[local_id r := i]> (at_type t (id_map m)) /\
    (forall t', t <> t' -> at_type t' (us_map m') = at_type t' (us_map m) /\
       at_type t' (id_map m') = at_type t' (id_map m)).
Proof.
  intros Hh Hd Hu Hi. unfold route. rewrite Hd. cbn [or_fault mbind res_bind]. rewrite Hh.
  cbn [or_fault mbind res_bind]. rewrite bool_decide_eq_false_2 by (rewrite Hi; by intros [? ?]).
  cbn [fatal_if mbind res_bind]. eexists. split; [reflexivity|].
  rewrite emplace_fresh by by rewrite find_at_default.
  pose proof (added_insert (at_type t (us_map m)) (us_fd r) (us_stream_id r) i) as Ha.
  split; [|cbn [set_us set_id ds_map pool us_map id_map]; rewrite !at_set_type_eq; repeat split; try done;
    by rewrite at_set_type_ne].
  split; cbn [set_us set_id ds_map us_map id_map]; rewrite ?at_set_type_eq; try done.
  - rewrite Ha, decide_True; done.
  - apply lookup_insert_eq.
Qed.

Lemma remove_untracks t i h m r : tracked t i h m r -> credit_return_queue r = [] ->
  exists h' m', remove_rpc t i 0 h m = Ok (h', m') /\
    erased (ds_fd r) (ds_stream_id r) (at_type t (ds_map m)) (at_type t (ds_map m')) /\
    erased (us_fd r) (us_stream_id r) (at_type t (us_map m)) (at_type t (us_map m')) /\
    at_type t (id_map m') = delete (local_id r) (at_type t (id_map m)) /\
    (forall t', t <> t' -> at_type t' (ds_map m') = at_type t' (ds_map m) /\
       at_type t' (us_map m') = at_type t' (us_map m) /\ at_type t' (id_map m') = at_type t' (id_map m)) /\
    (forall j, j <> i -> h' !! j = h !! j) /\
    grpc_pool (pool m') ++ http_pool (pool m') ≡ₚ i :: grpc_pool (pool m) ++ http_pool (pool m).
Proof.
  intros [Hh Hd Hu Hi] Hq. unfold remove_rpc. rewrite Hh. cbn [or_fault mbind res_bind].
  destruct (erase_at_spec _ _ _ _ Hu) as (us & -> & Eu). cbn [mbind res_bind].
  destruct (erase_at_spec _ _ _ _ Hd) as (ds & -> & Ed). cbn [mbind res_bind].
  unfold free_rpc. change (1 <? 1 + 0) with false. cbn [fatal_if mbind res_bind]. rewrite Hh.
  cbn [or_fault mbind res_bind]. unfold clear. rewrite Hq. cbn [length Nat.eqb negb fatal_if mbind res_bind].
  destruct (http r); cbn [mbind res_bind http]; (eexists _, _; split; [reflexivity|]);
    cbn [set_pool set_id set_ds set_us ds_map us_map id_map pool grpc_pool http_pool]; rewrite !at_set_type_eq;
    (do 3 (split; [done|])); (split; [intros t' Ht; by rewrite !at_set_type_ne|]);
    (split; [intros j Hj; by rewrite lookup_insert_ne|]); solve_Permutation.
Qed.

Lemma allocate_rpc_spec t s fd k h m i h' m' : allocate_rpc t s fd k h m = Ok (i, h', m') ->
  exists r, h !! i = Some r /\ h' = <[i := set_type t (set_ds_stream_id s (set_ds_fd fd r))]> h /\
    find_at (at_type t (ds_map m)) fd s = None /\
    added fd s i (at_type t (ds_map m)) (at_type t (ds_map m')) /\
    us_map m' = us_map m /\ id_map m' = id_map m /\
    grpc_pool (pool m) ++ http_pool (pool m) ≡ₚ i :: grpc_pool (pool m') ++ http_pool (pool m').
Proof.
  unfold allocate_rpc, get_rpc. intros H. bind_inv. destruct a as [[i0 h0] p0]. bind_inv.
  destruct (default ∅ _ !! s) eqn:Ef; [discriminate|]. injection H as -> -> <-.
  rewrite find_at_default in Ef.
  destruct k; bind_inv; injection E as -> <- <-; apply or_fault_Ok in E0, E1; exists a0;
    (split; [done|]); (split; [done|]); (split; [done|]);
    cbn [set_ds set_pool ds_map us_map id_map pool grpc_pool http_pool]; rewrite at_set_type_eq;
    (split; [apply added_insert|]); (split; [done|]); (split; [done|]).
  - destruct (http_pool (pool m)) as [|j q]; [done|]. injection E0 as ->. simpl. solve_Permutation.
  - destruct (grpc_pool (pool m)) as [|j q]; [done|]. injection E0 as ->. simpl. done.
Qed.

(** ** Properties *)

(** C36: The life of a routed message: from [route] on it is found under its
    upstream key, under its downstream key and, on the ingress side, under
    the upper half of the id of any of its sub-requests; [remove_rpc] forgets
    exactly these entries - every other lookup answers as before the routing
    - and gives the message back to its pool. *)
Theorem mapper_lifecycle t i h m r :
  h !! i = Some r -> credit_return_queue r = [] ->
  find_at (at_type t (ds_map m)) (ds_fd r) (ds_stream_id r) = Some i ->
  find_at (at_type t (us_map m)) (us_fd r) (us_stream_id r) = None ->
  at_type t (id_map m) !! local_id r = None ->
  exists m1, route t (ds_stream_id r) (ds_fd r) (us_stream_id r) (us_fd r) h m = Ok m1 /\
    get_us_rpc t (us_stream_id r) (us_fd r) m1 = Ok i /\
    get_ds_rpc t (ds_stream_id r) (ds_fd r) m1 = Ok i /\
    (forall id, t = INGRESS -> parent_of id = local_id r -> local_id r <> 0 -> get_ingress_rpc id m1 = Ok i) /\
    exists h2 m2, remove_rpc t i 0 h m1 = Ok (h2, m2) /\
      get_ds_rpc t (ds_stream_id r) (ds_fd r) m2 = Err Fatal /\
      (forall t' s fd, get_us_rpc t' s fd m2 = get_us_rpc t' s fd m) /\
      (forall t' s fd, (t', s, fd) <> (t, ds_stream_id r, ds_fd r) -> get_ds_rpc t' s fd m2 = get_ds_rpc t' s fd m) /\
      (forall id, get_ingress_rpc id m2 = get_ingress_rpc id m) /\
      grpc_pool (pool m2) ++ http_pool (pool m2) ≡ₚ i :: grpc_pool (pool m) ++ http_pool (pool m).
Proof.
  intros Hh Hq Hd Hu Hi.
  destruct (route_tracks t i h m r Hh Hd Hu Hi) as (m1 & Hr & Htr & Eds & Ep & Ha & Eid & Ho).
  exists m1. split; [done|]. unfold get_us_rpc, get_ds_rpc. rewrite (tr_us _ _ _ _ _ Htr), (tr_ds _ _ _ _ _ Htr).
  split; [done|]. split; [done|]. split.
  { intros id -> Hp Hne. unfold get_ingress_rpc. fold (parent_of id). rewrite Hp.
    destruct (Z.eqb_spec (local_id r) 0); [done|]. cbn [fatal_if mbind res_bind].
    by rewrite (tr_id _ _ _ _ _ Htr). }
  destruct (remove_untracks t i h m1 r Htr Hq) as (h2 & m2 & Hrm & Ed & Eu & Eid2 & Ho2 & Hheap & Hpool).
  exists h2, m2. split; [done|]. split; [by rewrite Ed, decide_True|].
  split; [|split; [|split; [|by rewrite Hpool, Ep]]].
  - intros t' s fd. f_equal. destruct (decide (t = t')) as [<-|Hne].
    + rewrite Eu, Ha. repeat case_decide; try done. destruct_and!. subst. by rewrite Hu.
    + destruct (Ho2 t' Hne) as (_ & -> & _). by destruct (Ho t' Hne) as [-> _].
  - intros t' s fd Hk. f_equal. destruct (decide (t = t')) as [<-|Hne].
    + rewrite Ed, Eds. rewrite decide_False; [done|]. intros [E1 E2]. apply Hk. congruence.
    + destruct (Ho2 t' Hne) as (-> & _). by rewrite Eds.
  - intros id. unfold get_ingress_rpc. f_equal. destruct (decide (t = INGRESS)) as [->|Hne].
    + by rewrite Eid2, Eid, delete_insert_id.
    + destruct (Ho2 INGRESS Hne) as (_ & _ & ->). by destruct (Ho INGRESS Hne) as [_ ->].
Qed.

Definition ex_rpc : RPCMessage :=
  set_local_id 8 (set_us_fd 31 (set_us_stream_id 0 (set_ds_fd 30 (set_ds_stream_id 1 (rpc_make 0 INGRESS HTTP1))))).
Definition ex_mapper : RPCMapper :=
  mkMapper (mkByType {[30 := {[1 := 0%nat]}]} ∅) (mkByType ∅ ∅) (mkByType ∅ ∅) (mkPool [] []).

Lemma mapper_lifecycle_witness :
  exists m1, route INGRESS 1 30 0 31 {[0%nat := ex_rpc]} ex_mapper = Ok m1 /\
    get_us_rpc INGRESS 0 31 m1 = Ok 0%nat /\ get_ingress_rpc (8 * 2 ^ 32 + 5) m1 = Ok 0%nat.
Proof.
  destruct (mapper_lifecycle INGRESS 0 {[0%nat := ex_rpc]} ex_mapper ex_rpc) as (m1 & Hr & Hu & _ & Hi & _);
    [apply lookup_singleton_eq|done|done|done|done|].
  exists m1. split; [exact Hr|]. split; [exact Hu|]. by apply Hi.
Defined.

(** [allocate_rpc] takes the message from the pool and registers it under
    the downstream key; no other key changes, and a key in use is fatal. *)
Theorem mapper_allocates t s fd k h m i h' m' :
  allocate_rpc t s fd k h m = Ok (i, h', m') ->
  (exists r, h' !! i = Some r /\ ds_fd r = fd /\ ds_stream_id r = s /\ type r = t) /\
  get_ds_rpc t s fd m = Err Fatal /\ get_ds_rpc t s fd m' = Ok i /\
  (forall t' s' fd', (t', s', fd') <> (t, s, fd) ->
     get_us_rpc t' s' fd' m' = get_us_rpc t' s' fd' m) /\
  grpc_pool (pool m) ++ http_pool (pool m) ≡ₚ i :: grpc_pool (pool m') ++ http_pool (pool m').
Proof.
  intros H. destruct (allocate_rpc_spec _ _ _ _ _ _ _ _ _ H) as (r & Hh & -> & Hn & Ha & Eu & _ & Hp).
  split; [eexists; split; [apply lookup_insert_eq|done]|]. unfold get_ds_rpc, get_us_rpc.
  rewrite Hn, Ha, decide_True by done. rewrite Eu. done.
Qed.

Lemma mapper_allocates_witness :
  exists i h' m', allocate_rpc EGRESS 3 40 HTTP1 {[0%nat := rpc_make 0 INGRESS HTTP1]}
      (mkMapper (mkByType ∅ ∅) (mkByType ∅ ∅) (mkByType ∅ ∅) (mkPool [] [0%nat])) = Ok (i, h', m') /\
    get_ds_rpc EGRESS 3 40 m' = Ok i.
Proof.
  destruct (allocate_rpc EGRESS 3 40 HTTP1 {[0%nat := rpc_make 0 INGRESS HTTP1]}
      (mkMapper (mkByType ∅ ∅) (mkByType ∅ ∅) (mkByType ∅ ∅) (mkPool [] [0%nat]))) as [[[i h'] m']|] eqn:E; [|done].
  exists i, h', m'. split; [done|]. apply (mapper_allocates _ _ _ _ _ _ _ _ _ E).
Defined.
