(* ===== verification/Config.v ===== *)
(** * Configuration: [include/config.h]

    The records of the configuration. The two [unordered_map]s are finite
    maps; where the code iterates over one, the order is the one
    [map_to_list] fixes (the C++ order is unspecified). *)

From Stdlib Require Import ZArith Lia.
From stdpp Require Import base gmap strings list fin_maps.
From S2P Require Import Prelude Fp.

Open Scope Z_scope.

Record Upstream := mkUpstream { up_host : string; up_port : Z }.

Record RoutingEntry := mkRoutingEntry {
  upstream : Upstream;
  slo : option Z;
  rt_priority : option Z
}.

Record MappingInfo := mkMappingInfo {
  downstreams : list string;
  listen_port : option Z;
  pfanout : option bool;
  dfanout : option bool
}.

Record Config := mkConfig {
  ring_size : Z;
  buffer_count : Z;
  buffer_size : Z;
  num_threads : Z;
  egress_listener_port : Z;
  ingress_listener_port : Z;
  ingress_upstream_host : string;
  ingress_upstream_port : Z;
  cfg_name : string;
  routing : gmap string RoutingEntry;
  mapping : gmap string MappingInfo;
  is_ingress : bool;
  is_frontend : bool;
  is_plain_frontend : bool;
  ingress_pool_connections : option Z;
  frontend_pool_connections : option Z;
  cpu_count : option Z;
  over_commitment : option fp;
  extra_limit : Z;
  aimd_err_d : fp;
  aimd_err_i : fp;
  aimd_adj_d : fp;
  aimd_adj_i : fp;
  safe_multiply : fp
}.

(** The default member initialisers of the AIMD constants. *)
Definition default_aimd_err_d : fp := f32_lit (-5) 100.
Definition default_aimd_err_i : fp := f32_lit (-3) 10.
Definition default_aimd_adj_d : fp := f32_lit 15 10.
Definition default_aimd_adj_i : fp := f32_of_Z 1.
Definition default_safe_multiply : fp := f32_of_Z 2.

(** [std::optional::value_or]. *)
Definition value_or {A} (o : option A) (d : A) : A := default d o.

Definition get_downstream_services (c : Config) : list string := (map_to_list (routing c)).*1.
Definition get_hosted_services (c : Config) : list string := (map_to_list (mapping c)).*1.

Lemma get_hosted_services_NoDup c : NoDup (get_hosted_services c).
Proof. apply NoDup_fst_map_to_list. Qed.

Lemma get_downstream_services_NoDup c : NoDup (get_downstream_services c).
Proof. apply NoDup_fst_map_to_list. Qed.

Lemma elem_of_get_hosted_services c s :
  s ∈ get_hosted_services c <-> is_Some (mapping c !! s).
Proof.
  unfold get_hosted_services. rewrite list_elem_of_fmap. split.
  - intros ([k v] & -> & ?%elem_of_map_to_list). by eexists.
  - intros [v ?]. exists (s, v). split; [done|]. by apply elem_of_map_to_list.
Qed.
