(* ===== verification/LoadConfig.v ===== *)
(** * Reading the configuration: [load_config] of [src/config.cc]

    The nodes of a YAML document are objects of the yaml-cpp library: an
    abstract type with the calls the code makes. [as_] conversions fail with
    an exception of the library; looking up a key that is absent gives an
    undefined node. *)

From Stdlib Require Import ZArith Lia.
From stdpp Require Import base gmap strings list fin_maps.
From S2P Require Import Prelude Fp Config.

Open Scope Z_scope.

Class Yaml := {
  Node : Type;
  load_file : string -> option Node;
  node_at : Node -> string -> Node;
  is_defined : Node -> bool;
  is_map : Node -> bool;
  is_sequence : Node -> bool;
  entries : Node -> list (Node * Node);
  elements : Node -> list Node;
  (** [as<T>] for an integral type with the given bounds *)
  as_integral : Z -> Z -> Node -> option Z;
  as_bool : Node -> option bool;
  as_float : Node -> option fp;
  as_string : Node -> option string
}.

(** A document of maps, sequences and typed scalars, for examples. *)
Inductive ynode :=
  | YUndefined
  | YInt (z : Z)
  | YBool (b : bool)
  | YFloat (x : fp)
  | YString (s : string)
  | YSeq (l : list ynode)
  | YMap (l : list (string * ynode)).

Definition y_at (n : ynode) (k : string) : ynode :=
  match n with
  | YMap l => default YUndefined (snd <$> find (fun x => String.eqb x.1 k) l)
  | _ => YUndefined
  end.
Definition yaml_example (doc : ynode) : Yaml := {|
  Node := ynode;
  load_file := fun _ => Some doc;
  node_at := y_at;
  is_defined := fun n => match n with YUndefined => false | _ => true end;
  is_map := fun n => match n with YMap _ => true | _ => false end;
  is_sequence := fun n => match n with YSeq _ => true | _ => false end;
  entries := fun n => match n with YMap l => (fun x => (YString x.1, x.2)) <$> l | _ => [] end;
  elements := fun n => match n with YSeq l => l | _ => [] end;
  as_integral := fun lo hi n => match n with YInt z => if (lo <=? z) && (z <=? hi) then Some z else None | _ => None end;
  as_bool := fun n => match n with YBool b => Some b | _ => None end;
  as_float := fun n => match n with YFloat x => Some x | YInt z => Some (f32_of_Z z) | _ => None end;
  as_string := fun n => match n with YString s => Some s | _ => None end
|}.

(** The configuration of a service with two downstreams. *)
Definition ex_doc : ynode := YMap [
  ("ring_size", YInt 128); ("buffer_count", YInt 64); ("buffer_size", YInt 4096); ("num_threads", YInt 1);
  ("egress_listener_port", YInt 8001); ("ingress_listener_port", YInt 8000);
  ("ingress_upstream_host", YString "localhost"); ("ingress_upstream_port", YInt 9000); ("name", YString "geo");
  ("over_commitment", YFloat (f32_lit 1 2)); ("cpu_count", YInt 4);
  ("routing", YMap [("rate", YMap [("upstream", YMap [("host", YString "rate"); ("port", YInt 8000)])]);
                    ("profile", YMap [("upstream", YMap [("host", YString "profile"); ("port", YInt 8000)])])]);
  ("mapping", YMap [("geo", YMap [("downstreams", YSeq [YString "rate"; YString "profile"]); ("pfanout", YBool true)])])
]%string.

Section LoadConfig.
Context `{Yaml}.

Definition yaml {A} (o : option A) : res A := or_fault (Throw YamlError) o.
Definition as_size_t (n : Node) : res Z := yaml (as_integral 0 SIZE_MAX n).
Definition as_int (n : Node) : res Z := yaml (as_integral (- 2 ^ 31) INT_MAX n).
Definition as_uint16 (n : Node) : res Z := yaml (as_integral 0 65535 n).

(** [if (node[key]) { x = node[key].as<T>(); }] *)
Definition optional {A} (as_ : Node -> res A) (n : Node) (key : string) : res (option A) :=
  if is_defined (node_at n key) then Some <$> as_ (node_at n key) else Ok None.
(** The same with a default. *)
Definition flag (n : Node) (key : string) : res bool :=
  o ← optional (fun x => yaml (as_bool x)) n key; Ok (default false o).
Definition float_or (n : Node) (key : string) (d : fp) : res fp :=
  o ← optional (fun x => yaml (as_float x)) n key; Ok (default d o).

(** Required in every sidecar but an ingress. *)
Definition read_over_commitment (ingress : bool) (n : Node) : res (option fp) :=
  _ ← fatal_if (negb ingress && negb (is_defined (node_at n "over_commitment")));
  if ingress then Ok None
  else
    x ← yaml (as_float (node_at n "over_commitment"));
    _ ← fatal_if (fp_gt x (f32_of_Z 1) || fp_lt x fp_zero);
    Ok (Some x).
Definition read_cpu_count (ingress : bool) (n : Node) : res (option Z) :=
  _ ← fatal_if (negb ingress && negb (is_defined (node_at n "cpu_count")));
  if ingress then Ok None
  else
    x ← as_int (node_at n "cpu_count");
    _ ← fatal_if (x <? 1);
    Ok (Some x).
(** Required when the sidecar is of the given kind. *)
Definition read_pool_size (required : bool) (n : Node) (key : string) : res (option Z) :=
  if is_defined (node_at n key) then Some <$> as_int (node_at n key)
  else _ ← fatal_if required; Ok None.

(** ** The routing section *)

Definition read_route (n : Node) : res RoutingEntry :=
  let u := node_at n "upstream" in
  _ ← fatal_if (negb (is_defined u));
  _ ← fatal_if (negb (is_defined (node_at u "host") && is_defined (node_at u "port")));
  host ← yaml (as_string (node_at u "host"));
  port ← as_int (node_at u "port");
  s ← optional as_int n "slo";
  p ← optional as_int n "priority";
  Ok (mkRoutingEntry (mkUpstream host port) s p).

(** [m[key] = entry] for each entry of the section. *)
Fixpoint read_routes (l : list (Node * Node)) (m : gmap string RoutingEntry) : res (gmap string RoutingEntry) :=
  match l with
  | [] => Ok m
  | (k, v) :: l' => s ← yaml (as_string k); e ← read_route v; read_routes l' (<[s := e]> m)
  end.
Definition read_routing (n : Node) : res (gmap string RoutingEntry) :=
  let r := node_at n "routing" in
  if is_defined r then _ ← fatal_if (negb (is_map r)); read_routes (entries r) ∅ else Ok ∅.

(** ** The mapping section *)

Fixpoint read_strings (l : list Node) : res (list string) :=
  match l with [] => Ok [] | x :: l' => s ← yaml (as_string x); r ← read_strings l'; Ok (s :: r) end.
Definition read_downstreams (n : Node) : res (list string) :=
  let d := node_at n "downstreams" in
  if is_defined d then
    _ ← fatal_if (negb (is_sequence d));
    l ← read_strings (elements d);
    _ ← fatal_if (255 <? Z.of_nat (length l));
    Ok l
  else Ok [].

Definition read_mapping_info (ingress : bool) (n : Node) : res MappingInfo :=
  ds ← read_downstreams n;
  port ← optional as_uint16 n "listen_port";
  pf ← optional (fun x => yaml (as_bool x)) n "pfanout";
  df ← optional (fun x => yaml (as_bool x)) n "dfanout";
  _ ← fatal_if ((10 <? Z.of_nat (length ds)) && value_or df false);
  _ ← fatal_if (ingress && negb (Z.of_nat (length ds) =? 1));
  _ ← fatal_if (ingress && (bool_decide (is_Some df) || bool_decide (is_Some pf)));
  Ok (mkMappingInfo ds port pf df).

Fixpoint read_mappings (ingress : bool) (l : list (Node * Node)) (m : gmap string MappingInfo) : res (gmap string MappingInfo) :=
  match l with
  | [] => Ok m
  | (k, v) :: l' => s ← yaml (as_string k); e ← read_mapping_info ingress v; read_mappings ingress l' (<[s := e]> m)
  end.
Definition read_mapping (ingress : bool) (n : Node) : res (gmap string MappingInfo) :=
  let r := node_at n "mapping" in
  if is_defined r then _ ← fatal_if (negb (is_map r)); read_mappings ingress (entries r) ∅ else Ok ∅.

(** ** The file

    [global_is_ingress] is [config.is_ingress] of the global configuration
    before this call assigns it. *)
Definition load_config (global_is_ingress : bool) (filename : string) : res Config :=
  n ← or_fault Fatal (load_file filename);
  ring ← as_size_t (node_at n "ring_size");
  buffers ← as_size_t (node_at n "buffer_count");
  bsize ← as_size_t (node_at n "buffer_size");
  threads ← as_int (node_at n "num_threads");
  egress_port ← as_uint16 (node_at n "egress_listener_port");
  ingress_port ← as_uint16 (node_at n "ingress_listener_port");
  up_host ← yaml (as_string (node_at n "ingress_upstream_host"));
  up_port ← as_uint16 (node_at n "ingress_upstream_port");
  name ← yaml (as_string (node_at n "name"));
  ingress ← flag n "is_ingress";
  plain ← flag n "is_plain_frontend";
  oc ← read_over_commitment ingress n;
  cpus ← read_cpu_count ingress n;
  extra ← optional as_int n "extra_limit";
  err_d ← float_or n "aimd_err_d" default_aimd_err_d;
  err_i ← float_or n "aimd_err_i" default_aimd_err_i;
  adj_d ← float_or n "aimd_adj_d" default_aimd_adj_d;
  adj_i ← float_or n "aimd_adj_i" default_aimd_adj_i;
  safe ← float_or n "safe_multiply" default_safe_multiply;
  frontend ← flag n "is_frontend";
  ipool ← read_pool_size ingress n "ingress_pool_connections";
  fpool ← read_pool_size frontend n "frontend_pool_connections";
  routes ← read_routing n;
  maps ← read_mapping ingress n;
  _ ← fatal_if (global_is_ingress && negb (threads =? Z.of_nat (size maps)));
  _ ← fatal_if ((1 <? threads) && negb ingress);
  Ok (mkConfig ring buffers bsize threads egress_port ingress_port up_host up_port name routes maps
        ingress frontend plain ipool fpool cpus oc (default 0 extra) err_d err_i adj_d adj_i safe).

(** ** What a loaded configuration satisfies *)

Record mapping_ok (ingress : bool) (e : MappingInfo) : Prop := {
  mo_count : Z.of_nat (length (downstreams e)) <= 255;
  mo_dfanout : value_or (dfanout e) false = true -> Z.of_nat (length (downstreams e)) <= 10;
  mo_ingress : ingress = true -> length (downstreams e) = 1%nat /\ pfanout e = None /\ dfanout e = None
}.

Record config_ok (c : Config) : Prop := {
  co_mapping : map_Forall (fun _ => mapping_ok (is_ingress c)) (mapping c);
  co_over_commitment : is_ingress c = false ->
    exists x, over_commitment c = Some x /\ fp_gt x (f32_of_Z 1) = false /\ fp_lt x fp_zero = false;
  co_cpus : is_ingress c = false -> exists n, cpu_count c = Some n /\ 1 <= n;
  co_threads : is_ingress c = false -> num_threads c <= 1;
  co_ingress_pool : is_ingress c = true -> is_Some (ingress_pool_connections c);
  co_frontend_pool : is_frontend c = true -> is_Some (frontend_pool_connections c)
}.

Lemma bool_decide_None {A} (o : option A) : bool_decide (is_Some o) = false -> o = None.
Proof. intros E%bool_decide_eq_false_1. by apply eq_None_not_Some. Qed.

Lemma read_downstreams_count n l : read_downstreams n = Ok l -> Z.of_nat (length l) <= 255.
Proof.
  unfold read_downstreams. intros E. destruct (is_defined _); bind_inv; res_inv; [|cbn; lia].
  match goal with E : fatal_if (255 <? _) = _ |- _ => apply fatal_if_Ok in E end. lia.
Qed.

Lemma read_mapping_info_ok ingress n e : read_mapping_info ingress n = Ok e -> mapping_ok ingress e.
Proof.
  unfold read_mapping_info. intros E. bind_inv. res_inv.
  repeat match goal with E : fatal_if _ = Ok _ |- _ => apply fatal_if_Ok in E end.
  apply read_downstreams_count in E0. split; cbn [downstreams pfanout dfanout].
  - done.
  - intros Hd. rewrite Hd, andb_true_r in E4. lia.
  - intros ->. cbn [andb] in E5, E6. apply orb_false_iff in E6 as [E6 E7].
    split; [lia|]. split; by apply bool_decide_None.
Qed.

Lemma read_mappings_ok ingress l m m' : map_Forall (fun _ => mapping_ok ingress) m ->
  read_mappings ingress l m = Ok m' -> map_Forall (fun _ => mapping_ok ingress) m'.
Proof.
  revert m. induction l as [|[k v] l IH]; intros m Hm E; cbn [read_mappings] in E; [by res_inv|].
  bind_inv. eapply IH; [|exact E]. apply map_Forall_insert_2; [|done]. by eapply read_mapping_info_ok.
Qed.

Lemma read_mapping_ok ingress n m : read_mapping ingress n = Ok m -> map_Forall (fun _ => mapping_ok ingress) m.
Proof.
  unfold read_mapping. intros E. destruct (is_defined _); bind_inv; res_inv; [|apply map_Forall_empty].
  eapply read_mappings_ok; [|eassumption]. apply map_Forall_empty.
Qed.

Lemma read_over_commitment_ok n o : read_over_commitment false n = Ok o ->
  exists x, o = Some x /\ fp_gt x (f32_of_Z 1) = false /\ fp_lt x fp_zero = false.
Proof.
  unfold read_over_commitment. intros E. bind_inv. res_inv.
  repeat match goal with E : fatal_if _ = Ok _ |- _ => apply fatal_if_Ok in E end.
  eexists. split; [done|]. by apply orb_false_iff.
Qed.
Lemma read_cpu_count_ok n o : read_cpu_count false n = Ok o -> exists x, o = Some x /\ 1 <= x.
Proof.
  unfold read_cpu_count. intros E. bind_inv. res_inv.
  repeat match goal with E : fatal_if _ = Ok _ |- _ => apply fatal_if_Ok in E end.
  eexists. split; [done|]. lia.
Qed.
Lemma read_pool_size_ok n k o : read_pool_size true n k = Ok o -> is_Some o.
Proof.
  unfold read_pool_size. destruct (is_defined _); [|discriminate].
  destruct (as_int _); cbn; intros [= <-]. done.
Qed.

(** A configuration that loads is consistent: outside an ingress the
    over-commitment lies in [0, 1], there is at least one CPU and at most one
    thread; an ingress maps every service to one downstream without fan-out;
    the fan-out counters, bytes, can count every downstream; the sizes of the
    pools that will be made are given. *)
Theorem load_config_valid g file cfg : load_config g file = Ok cfg -> config_ok cfg.
Proof.
  unfold load_config. intros E. bind_inv. res_inv.
  repeat match goal with E : fatal_if _ = Ok _ |- _ => apply fatal_if_Ok in E end.
  split; cbn [mapping is_ingress over_commitment cpu_count num_threads ingress_pool_connections
    is_frontend frontend_pool_connections].
  - by eapply read_mapping_ok.
  - intros ->. by eapply read_over_commitment_ok.
  - intros ->. by eapply read_cpu_count_ok.
  - intros ->. rewrite andb_true_r in *. lia.
  - intros ->. by eapply read_pool_size_ok.
  - intros ->. by eapply read_pool_size_ok.
Qed.
End LoadConfig.

Lemma load_config_valid_witness : exists cfg,
  @load_config (yaml_example ex_doc) false "conf.yaml" = Ok cfg /\
  get_hosted_services cfg = ["geo"%string] /\ size (routing cfg) = 2%nat /\ config_ok cfg.
Proof.
  eexists. split; [vm_compute; reflexivity|]. split; [vm_compute; reflexivity|].
  split; [vm_compute; reflexivity|].
  apply (@load_config_valid (yaml_example ex_doc) false "conf.yaml"). vm_compute. reflexivity.
Defined.
