(* ===== verification/Queues.v ===== *)
(** * RPCQueue and PPMQueue: [src/rpc_queue.cc], [src/ppm_queue.cc]

    The four queues of messages that were received and not yet forwarded, by
    type and direction, and the requests that wait for a credit, by service
    and local id. *)

From Stdlib Require Import ZArith Lia Ascii.
From stdpp Require Import base gmap strings list fin_maps numbers.
From S2P Require Import Prelude Fp Config Buffers RpcMessage RpcMessageProps RpcMapper.

Open Scope Z_scope.

(** ** RPCQueue *)

(** An entry is the file descriptor and the stream a message was read from. *)
Record ByDirection (A : Type) := mkByDir { on_upstream : A; on_downstream : A }.
Arguments mkByDir {A} _ _.
Arguments on_upstream {A} _.
Arguments on_downstream {A} _.

Definition RPCQueue : Type := ByType (ByDirection (list (Z * Z))).

Definition rpc_queue_make : RPCQueue := mkByType (mkByDir [] []) (mkByDir [] []).

Definition queue_at (t : ConnectionType) (d : ConnectionDirection) (q : RPCQueue) : list (Z * Z) :=
  match d with UPSTREAM => on_upstream (at_type t q) | DOWNSTREAM => on_downstream (at_type t q) end.
Definition set_queue (t : ConnectionType) (d : ConnectionDirection) (l : list (Z * Z)) (q : RPCQueue) : RPCQueue :=
  set_type_at t (match d with
                 | UPSTREAM => mkByDir l (on_downstream (at_type t q))
                 | DOWNSTREAM => mkByDir (on_upstream (at_type t q)) l
                 end) q.

Definition rpc_enqueue (t : ConnectionType) (d : ConnectionDirection) (fd stream_id : Z) (q : RPCQueue) : RPCQueue :=
  set_queue t d (queue_at t d q ++ [(fd, stream_id)]) q.

Definition rpc_dequeue (t : ConnectionType) (d : ConnectionDirection) (q : RPCQueue) : res ((Z * Z) * RPCQueue) :=
  match queue_at t d q with
  | [] => Err Fatal
  | x :: l => Ok (x, set_queue t d l q)
  end.

Definition rpc_queue_empty (t : ConnectionType) (d : ConnectionDirection) (q : RPCQueue) : bool :=
  match queue_at t d q with [] => true | _ => false end.
Definition rpc_queue_size (t : ConnectionType) (d : ConnectionDirection) (q : RPCQueue) : Z :=
  Z.of_nat (length (queue_at t d q)).

Lemma queue_at_set t d l q t' d' :
  queue_at t' d' (set_queue t d l q) = if decide ((t, d) = (t', d')) then l else queue_at t' d' q.
Proof. unfold queue_at, set_queue. by destruct t, t', d, d'. Qed.

(** ** PPMQueue *)

(** [unordered_map<string, map<RPCID, shared_ptr>>]; the inner maps are
    ordered by id. *)
Abbreviation PPMQueue := (gmap string (gmap Z nat)).

Definition ppm_make (routing : gmap string RoutingEntry) : PPMQueue :=
  (fun _ => ∅) <$> routing.

(** Every exception ends in a fatal error. *)
Definition ppm_push (service : string) (local_id : Z) (i : nat) (q : PPMQueue) : res PPMQueue :=
  m ← or_fault Fatal (q !! service);
  match m !! local_id with
  | Some _ => Err Fatal
  | None => Ok (<[service := <[local_id := i]> m]> q)
  end.

Definition ppm_pop (service : string) (id : Z) (q : PPMQueue) : res (nat * PPMQueue) :=
  m ← or_fault Fatal (q !! service);
  _ ← fatal_if (Nat.eqb (size m) 0);
  i ← or_fault Fatal (m !! id);
  Ok (i, <[service := delete id m]> q).

Definition ppm_check (service : string) (q : PPMQueue) : res string :=
  match q !! service with Some _ => Ok service | None => Err Fatal end.

Definition ppm_size (service : string) (q : PPMQueue) : res Z :=
  m ← or_fault Fatal (q !! service); Ok (Z.of_nat (size m)).

(** [begin()] of an ordered map: the entry with the smallest id. *)
Definition first_id (m : gmap Z nat) : option Z :=
  foldr (fun k o => match o with Some k' => Some (Z.min k k') | None => Some k end) None
    (map_to_list m).*1.

(** [now] is the steady clock, in nanoseconds; [duration_cast] truncates. *)
Definition ppm_waiting_delay_us (service : string) (now : Z) (h : heap) (q : PPMQueue) : res Z :=
  m ← or_fault Fatal (q !! service);
  match first_id m with
  | None => Ok 0
  | Some k =>
      i ← or_fault Undefined (m !! k);
      r ← or_fault Undefined (h !! i);
      Ok (i32 (Z.quot (now - req_rcv_time r) 1000))
  end.

Lemma first_id_spec m k : first_id m = Some k -> is_Some (m !! k) /\ forall k', is_Some (m !! k') -> k <= k'.
Proof.
  intros H. assert (k ∈ (map_to_list m).*1 /\ forall k', k' ∈ (map_to_list m).*1 -> k <= k') as [H1 H2].
  { unfold first_id in H. revert k H. induction (map_to_list m).*1 as [|x l IH]; intros k H; [done|].
    cbn [foldr] in H. destruct (foldr _ None l) as [k'|] eqn:E; injection H as <-.
    - destruct (IH k' eq_refl) as [Hin Hmin]. split.
      + destruct (Z.min_spec x k') as [[_ ->]|[_ ->]]; set_solver.
      + intros k2 [->|Hk2]%elem_of_cons; [lia|]. specialize (Hmin k2 Hk2). lia.
    - destruct l as [|y l]; [|cbn [foldr] in E; by destruct (foldr _ None l)].
      split; [set_solver|]. intros k2 [->|[]%elem_of_nil]%elem_of_cons. lia. }
  split.
  - apply list_elem_of_fmap in H1 as ([k0 v] & -> & Hv%elem_of_map_to_list). by eexists.
  - intros k' [v Hv]. apply H2. apply list_elem_of_fmap. exists (k', v).
    split; [done|]. by apply elem_of_map_to_list.
Qed.

(** ** Properties *)

(** One operation on a family of queues. *)
Inductive queue_op := Enq (t : ConnectionType) (d : ConnectionDirection) (x : Z * Z)
  | Deq (t : ConnectionType) (d : ConnectionDirection).

(** Run the operations, with the entries that came out of queue [(t, d)]. *)
Fixpoint run_queue (t : ConnectionType) (d : ConnectionDirection) (ops : list queue_op) (q : RPCQueue)
    : res (list (Z * Z) * RPCQueue) :=
  match ops with
  | [] => Ok ([], q)
  | Enq t' d' x :: ops' => run_queue t d ops' (rpc_enqueue t' d' x.1 x.2 q)
  | Deq t' d' :: ops' =>
      '(x, q) ← rpc_dequeue t' d' q;
      '(out, q) ← run_queue t d ops' q;
      Ok (if decide ((t', d') = (t, d)) then x :: out else out, q)
  end.

Definition enqueued (t : ConnectionType) (d : ConnectionDirection) (ops : list queue_op) : list (Z * Z) :=
  omap (fun o => match o with
    | Enq t' d' x => if decide ((t', d') = (t, d)) then Some x else None
    | Deq _ _ => None end) ops.

(** Each of the four queues is first-in first-out, whatever is done with
    the others meanwhile: what comes out of a queue, followed by what is left
    in it, is what was there followed by what was put in. *)
Theorem rpc_queue_fifo t d ops q out q' : run_queue t d ops q = Ok (out, q') ->
  queue_at t d q ++ enqueued t d ops = out ++ queue_at t d q'.
Proof.
  revert q out. induction ops as [|[t1 d1 x|t1 d1] ops IH]; intros q out; cbn [run_queue].
  - intros [= <- <-]. by rewrite app_nil_r.
  - intros H%IH. rewrite <- H. unfold rpc_enqueue. rewrite queue_at_set. unfold enqueued. cbn [omap list_omap].
    case_decide as E; [|done]. injection E as -> ->. destruct x. by rewrite <- app_assoc.
  - intros H. bind_inv. destruct a as [x q1]. bind_inv. destruct a as [out1 q2]. injection H as <- <-.
    apply IH in E0. unfold rpc_dequeue in E. destruct (queue_at t1 d1 q) as [|y l] eqn:Eq; [done|].
    injection E as -> <-. rewrite queue_at_set in E0. unfold enqueued in *. cbn [omap list_omap].
    case_decide as Ed.
    + injection Ed as -> ->. rewrite Eq. cbn [app]. by rewrite <- E0.
    + done.
Qed.

Lemma rpc_queue_fifo_witness :
  exists out q', run_queue EGRESS UPSTREAM [Enq EGRESS UPSTREAM (5, 0); Enq INGRESS DOWNSTREAM (9, 9); Enq EGRESS UPSTREAM (6, 0); Deq INGRESS DOWNSTREAM; Deq EGRESS UPSTREAM]
      rpc_queue_make = Ok (out, q') /\
    [(5, 0); (6, 0)] = out ++ queue_at EGRESS UPSTREAM q'.
Proof.
  eexists _, _. split; [reflexivity|].
  apply (rpc_queue_fifo EGRESS UPSTREAM [Enq EGRESS UPSTREAM (5, 0); Enq INGRESS DOWNSTREAM (9, 9); Enq EGRESS UPSTREAM (6, 0); Deq INGRESS DOWNSTREAM; Deq EGRESS UPSTREAM] rpc_queue_make).
  reflexivity.
Defined.

(** A request that waits for a credit is found by its service and its id,
    in whatever order the credits arrive: after it is pushed, and as long as
    it is not popped, pushes and pops of other requests do not touch it; a
    second push or a second pop of the same id is fatal. *)
Theorem ppm_queue_keyed service id i q q1 : ppm_push service id i q = Ok q1 ->
  ppm_push service id i q1 = Err Fatal /\
  (forall service' id' j q2, (service', id') <> (service, id) -> ppm_push service' id' j q1 = Ok q2 ->
     exists q3, ppm_pop service id q2 = Ok (i, q3)) /\
  (forall service' id' j q2, (service', id') <> (service, id) -> ppm_pop service' id' q1 = Ok (j, q2) ->
     exists q3, ppm_pop service id q2 = Ok (i, q3)) /\
  exists q2, ppm_pop service id q1 = Ok (i, q2) /\ ppm_pop service id q2 = Err Fatal /\
    forall s, q2 !! s = q !! s.
Proof.
  unfold ppm_push. intros H. destruct (q !! service) as [m|] eqn:Em; [|done]. cbn [or_fault mbind res_bind] in H.
  destruct (m !! id) eqn:Ei; [done|]. injection H as <-.
  assert (forall q0 m0, q0 !! service = Some m0 -> m0 !! id = Some i ->
    ppm_pop service id q0 = Ok (i, <[service := delete id m0]> q0)) as Hpop.
  { intros q0 m0 Hq Hm. unfold ppm_pop. rewrite Hq. cbn [or_fault mbind res_bind].
    assert (size m0 <> 0%nat) as Hsz by (intros Hz; apply map_size_empty_inv in Hz; subst; done).
    replace (Nat.eqb (size m0) 0) with false by (symmetry; by apply Nat.eqb_neq).
    cbn [fatal_if mbind res_bind]. by rewrite Hm. }
  split; [by rewrite lookup_insert_eq; cbn [or_fault mbind res_bind]; rewrite lookup_insert_eq|].
  split; [|split].
  - intros s' id' j q2 Hne Hp. destruct (decide (s' = service)) as [->|Hs].
    + rewrite lookup_insert_eq in Hp. cbn [or_fault mbind res_bind] in Hp.
      destruct (<[id:=i]> m !! id') eqn:E'; [done|]. injection Hp as <-.
      eexists. apply (Hpop _ (<[id' := j]> (<[id := i]> m))); [apply lookup_insert_eq|].
      rewrite lookup_insert_ne by naive_solver. apply lookup_insert_eq.
    + rewrite lookup_insert_ne in Hp by done. destruct (q !! s') as [m'|]; [|done].
      cbn [or_fault mbind res_bind] in Hp. destruct (m' !! id'); [done|]. injection Hp as <-.
      eexists. apply (Hpop _ (<[id := i]> m)); [|apply lookup_insert_eq].
      by rewrite lookup_insert_ne, lookup_insert_eq.
  - intros s' id' j q2 Hne Hp. unfold ppm_pop in Hp. bind_inv. apply or_fault_Ok in E, E1. injection Hp as -> <-.
    destruct (decide (s' = service)) as [->|Hs].
    + rewrite lookup_insert_eq in E. injection E as <-.
      eexists. apply (Hpop _ (delete id' (<[id := i]> m))); [apply lookup_insert_eq|].
      rewrite lookup_delete_ne by naive_solver. apply lookup_insert_eq.
    + eexists. apply (Hpop _ (<[id := i]> m)); [|apply lookup_insert_eq].
      by rewrite lookup_insert_ne, lookup_insert_eq.
  - eexists. split; [apply (Hpop _ (<[id := i]> m)); apply lookup_insert_eq|].
    rewrite insert_insert_eq. split.
    + unfold ppm_pop. rewrite lookup_insert_eq. cbn [or_fault mbind res_bind]. destruct (Nat.eqb _ 0); cbn [fatal_if mbind res_bind]; [done|].
      by rewrite lookup_delete_eq.
    + intros s. rewrite delete_insert_id by done. destruct (decide (s = service)) as [->|]; [by rewrite lookup_insert_eq|by rewrite lookup_insert_ne].
Qed.

Lemma ppm_queue_keyed_witness :
  exists q1 q2, ppm_push "geo" 77 4%nat {["geo"%string := ∅]} = Ok q1 /\
    ppm_pop "geo" 77 q1 = Ok (4%nat, q2) /\ ppm_pop "geo" 77 q2 = Err Fatal.
Proof.
  destruct (ppm_push "geo" 77 4%nat {["geo"%string := ∅]}) as [q1|] eqn:E; [|done].
  destruct (ppm_queue_keyed "geo" 77 4%nat {["geo"%string := ∅]} q1 E) as (_ & _ & _ & q2 & H1 & H2 & _).
  exists q1, q2. done.
Defined.
