(* ===== verification/LocalMap.v ===== *)
(** * LocalMap: the minimal-perfect-hash map of [include/fast_map.hpp]

    [LocalMap<T>] is built once from a set of keys: the constructor searches
    for a seed under which the keys fall into distinct slots, first with as
    many slots as keys, then with a power of two at least twice as large.
    Afterwards the key set is fixed and only values change. *)

From Stdlib Require Import ZArith Lia Ascii String.
From stdpp Require Import base gmap strings list fin_maps.
From S2P Require Import Prelude.

Open Scope Z_scope.

(** ** Data *)

Record LocalSlot (T : Type) := mkSlot {
  sl_key : string;
  sl_len : Z;          (* uint32_t *)
  sl_fp : Z;           (* uint64_t fingerprint *)
  sl_value : T
}.
Arguments mkSlot {T} _ _ _ _.
Arguments sl_key {T} _.
Arguments sl_len {T} _.
Arguments sl_fp {T} _.
Arguments sl_value {T} _.

Record LocalMap (T : Type) := mkLocalMap {
  slots_ : list (LocalSlot T);
  seed_ : Z;
  size_ : Z;
  mask_ : Z
}.
Arguments mkLocalMap {T} _ _ _ _.
Arguments slots_ {T} _.
Arguments seed_ {T} _.
Arguments size_ {T} _.
Arguments mask_ {T} _.

(** ** The hash *)

Fixpoint fnv1a_fold (h : Z) (s : string) : Z :=
  match s with
  | EmptyString => h
  | String c s' => fnv1a_fold (u64 (Z.lxor h (byte_of_ascii c) * 1099511628211)) s'
  end.

Definition fnv1a64 (s : string) (seed : Z) : Z :=
  let h := fnv1a_fold (Z.lxor 1469598103934665603 seed) s in
  let h := Z.lxor h (Z.shiftr h 33) in
  let h := u64 (h * 0xff51afd7ed558ccd) in
  let h := Z.lxor h (Z.shiftr h 33) in
  let h := u64 (h * 0xc4ceb9fe1a85ec53) in
  Z.lxor h (Z.shiftr h 33).

Section LocalMap.
Context {T : Type} (dflt : T).

Definition occupied (s : LocalSlot T) : bool := negb (sl_len s =? 0).

Definition empty_slot : LocalSlot T := mkSlot "" 0 0 dflt.

(** ** Construction *)

Definition slot_index (cap h : Z) : Z :=
  if Z.land cap (cap - 1) =? 0 then Z.land h (cap - 1) else h mod cap.

Fixpoint fill (cap seed : Z) (keys : list string) (tmp : list (LocalSlot T))
    : option (list (LocalSlot T)) :=
  match keys with
  | [] => Some tmp
  | k :: ks =>
      let h := fnv1a64 k seed in
      let idx := Z.to_nat (slot_index cap h) in
      match tmp !! idx with
      | None => None
      | Some s =>
          if occupied s then None
          else fill cap seed ks
                 (<[idx := mkSlot k (u32 (Z.of_nat (String.length k))) h (sl_value s)]> tmp)
      end
  end.

Definition try_build (keys : list string) (K cap seed : Z) : option (LocalMap T) :=
  match fill cap seed keys (replicate (Z.to_nat cap) empty_slot) with
  | Some tmp =>
      Some (mkLocalMap tmp seed K
              (if Z.land cap (cap - 1) =? 0 then cap - 1 else SIZE_MAX))
  | None => None
  end.

(** The loops over [trial]. *)
Fixpoint try_seeds (fuel : nat) (trial : Z) (keys : list string) (K cap : Z)
    : option (LocalMap T) :=
  match fuel with
  | O => None
  | S fuel' =>
      match try_build keys K cap trial with
      | Some m => Some m
      | None => try_seeds fuel' (trial + 1) keys K cap
      end
  end.

Definition MAX_TRIALS : nat := Z.to_nat 100000.

(** [while (cap < 2 * K) cap <<= 1]. *)
Fixpoint grow_cap (fuel : nat) (cap K : Z) : Z :=
  match fuel with
  | O => cap
  | S fuel' => if cap <? 2 * K then grow_cap fuel' (Z.shiftl cap 1) K else cap
  end.

Definition make (keys : list string) : res (LocalMap T) :=
  match keys with
  | [] => Ok (mkLocalMap [] 0 0 SIZE_MAX)
  | _ =>
      let K := Z.of_nat (length keys) in
      if decide (NoDup keys) then
        match try_seeds MAX_TRIALS 0 keys K K with
        | Some m => Ok m
        | None =>
            match try_seeds MAX_TRIALS 0 keys K (grow_cap (2 * length keys) 1 K) with
            | Some m => Ok m
            | None => Ok (mkLocalMap [] 0 0 0)
            end
        end
      else Err (Throw InvalidArgument)
  end.

(** ** Lookup *)

Definition probe (m : LocalMap T) (k : string) : res nat :=
  let h := fnv1a64 k (seed_ m) in
  if negb (mask_ m =? SIZE_MAX) then Ok (Z.to_nat (Z.land h (mask_ m)))
  else if size_ m =? 0 then Err Undefined
  else Ok (Z.to_nat (h mod size_ m)).

Definition equals (s : LocalSlot T) (k : string) : bool :=
  if negb (sl_len s =? Z.of_nat (String.length k)) then false
  else if negb (occupied s) then false
  else bool_decide (sl_key s = k).

(** The slot holding [k], or [None] for [nullptr]. *)
Definition find_ptr (m : LocalMap T) (k : string) : res (option nat) :=
  idx ← probe m k;
  s ← or_fault Undefined (slots_ m !! idx);
  Ok (if equals s k then Some idx else None).

Definition get_slot (m : LocalMap T) (i : nat) : res (LocalSlot T) :=
  or_fault Undefined (slots_ m !! i).

Definition set_slot_value (m : LocalMap T) (i : nat) (v : T) : LocalMap T :=
  mkLocalMap (alter (fun s => mkSlot (sl_key s) (sl_len s) (sl_fp s) v) i (slots_ m))
    (seed_ m) (size_ m) (mask_ m).

Definition get (m : LocalMap T) (k : string) : res T :=
  p ← find_ptr m k;
  match p with
  | Some i => sl_value <$> get_slot m i
  | None => Err Fatal
  end.

Definition set (m : LocalMap T) (k : string) (v : T) : res (LocalMap T) :=
  p ← find_ptr m k;
  match p with
  | Some i => Ok (set_slot_value m i v)
  | None => Err Fatal
  end.

(** [add]: [*p += delta], with the [+=] of the value type. *)
Definition add (plus : T -> T -> res T) (m : LocalMap T) (k : string) (delta : T)
    : res (LocalMap T) :=
  p ← find_ptr m k;
  match p with
  | Some i =>
      s ← get_slot m i;
      v ← plus (sl_value s) delta;
      Ok (set_slot_value m i v)
  | None => Err Fatal
  end.

(** A reference obtained from [get] and assigned through. *)
Definition update (m : LocalMap T) (k : string) (f : T -> res T) : res (LocalMap T) :=
  v ← get m k;
  v' ← f v;
  set m k v'.

Definition index_of (m : LocalMap T) (k : string) : res Z :=
  p ← find_ptr m k;
  Ok (match p with Some i => Z.of_nat i | None => SIZE_MAX end).

Definition get_key (m : LocalMap T) (k : string) : res string :=
  p ← find_ptr m k;
  match p with
  | Some i => sl_key <$> get_slot m i
  | None => Err Fatal
  end.

(** ** Iteration *)

Definition occ_at (m : LocalMap T) (i : nat) : bool :=
  match slots_ m !! i with Some s => occupied s | None => false end.

(** The scan of [skip_empty], from [idx] until an occupied slot or [start]. *)
Fixpoint skip_loop (fuel : nat) (m : LocalMap T) (start idx : nat) : nat :=
  match fuel with
  | O => idx
  | S fuel' =>
      if occ_at m idx then idx
      else
        let idx' := if decide (length (slots_ m) <= S idx)%nat then O else S idx in
        if decide (idx' = start) then idx' else skip_loop fuel' m start idx'
  end.

Definition skip_empty (m : LocalMap T) (idx : nat) : nat :=
  match slots_ m with
  | [] => idx
  | _ =>
      let idx := if decide (length (slots_ m) <= idx)%nat then O else idx in
      skip_loop (length (slots_ m)) m idx idx
  end.

Definition it_begin (m : LocalMap T) : nat := skip_empty m 0.

(** [operator++]. *)
Definition it_next (m : LocalMap T) (idx : nat) : nat :=
  match slots_ m with
  | [] => idx
  | _ => skip_empty m (S idx)
  end.

Definition get_all_keys (m : LocalMap T) : list string :=
  sl_key <$> filter (fun s => occupied s = true) (slots_ m).

Definition get_all_indices (m : LocalMap T) : list nat :=
  filter (fun i => occ_at m i = true) (seq 0 (length (slots_ m))).

(** [for_each_occupied_index], with the callback as a fold. *)
Definition for_each_occupied_index {A} (f : A -> nat -> A) (a : A) (m : LocalMap T) : A :=
  foldl f a (get_all_indices m).
End LocalMap.

(** ** Well-formedness *)

Section Properties.
Context {T : Type} (dflt : T).
Implicit Types (m : LocalMap T) (k : string) (i : nat).

(** Every key is probed to an existing slot, and an occupied slot is the
    one its own key is probed to. *)
Record wf m : Prop := {
  wf_probe k : exists i, probe m k = Ok i /\ (i < length (slots_ m))%nat;
  wf_slot i s : slots_ m !! i = Some s -> occupied s = true ->
    probe m (sl_key s) = Ok i /\ sl_len s = Z.of_nat (String.length (sl_key s))
}.

(** The key is stored. *)
Definition has_key m k : Prop :=
  exists i s, slots_ m !! i = Some s /\ occupied s = true /\ sl_key s = k.

Lemma has_key_get_all_keys m k : has_key m k <-> k ∈ get_all_keys m.
Proof.
  unfold has_key, get_all_keys. rewrite list_elem_of_fmap. split.
  - intros (i & s & Hs & Ho & <-). exists s. split; [done|].
    apply list_elem_of_filter. split; [done|]. by eapply list_elem_of_lookup_2.
  - intros (s & -> & (Ho & Hs)%list_elem_of_filter).
    apply list_elem_of_lookup in Hs as [i Hi]. eauto.
Qed.

Lemma equals_true (s : LocalSlot T) k :
  equals s k = true <->
  occupied s = true /\ sl_key s = k /\ sl_len s = Z.of_nat (String.length k).
Proof.
  unfold equals. destruct (Z.eqb_spec (sl_len s) (Z.of_nat (String.length k)));
    simpl; [|naive_solver].
  destruct (occupied s); simpl; [|naive_solver].
  rewrite bool_decide_eq_true. naive_solver.
Qed.

Lemma get_slot_Ok m i s : slots_ m !! i = Some s -> get_slot m i = Ok s.
Proof. unfold get_slot. by intros ->. Qed.

Lemma find_ptr_spec m k : wf m ->
  (exists i s, find_ptr m k = Ok (Some i) /\ slots_ m !! i = Some s /\
     occupied s = true /\ sl_key s = k) \/
  (find_ptr m k = Ok None /\ ~ has_key m k).
Proof.
  intros Hwf. destruct (wf_probe m Hwf k) as (i & Hp & Hi).
  apply lookup_lt_is_Some in Hi as [s Hs].
  unfold find_ptr. rewrite Hp. simpl. rewrite Hs. simpl.
  destruct (equals s k) eqn:He.
  - left. apply equals_true in He as (? & ? & ?). exists i, s. auto.
  - right. split; [done|]. intros (j & s' & Hs' & Ho & <-).
    destruct (wf_slot m Hwf j s' Hs' Ho) as [Hp' Hl].
    assert (i = j) as -> by congruence.
    assert (s = s') as -> by congruence.
    enough (equals s' (sl_key s') = true) by congruence.
    by apply equals_true.
Qed.

Lemma find_ptr_slot m i s : wf m ->
  slots_ m !! i = Some s -> occupied s = true ->
  find_ptr m (sl_key s) = Ok (Some i).
Proof.
  intros Hwf Hs Ho. destruct (wf_slot m Hwf i s Hs Ho) as [Hp Hl].
  unfold find_ptr. rewrite Hp. simpl. rewrite Hs. simpl.
  by replace (equals s (sl_key s)) with true by (symmetry; by apply equals_true).
Qed.

(** Occupied slots hold distinct keys. *)
Lemma key_inj m i j s s' : wf m ->
  slots_ m !! i = Some s -> occupied s = true ->
  slots_ m !! j = Some s' -> occupied s' = true ->
  sl_key s = sl_key s' -> i = j.
Proof.
  intros Hwf Hs Ho Hs' Ho' Hk.
  pose proof (find_ptr_slot m i s Hwf Hs Ho) as H1.
  pose proof (find_ptr_slot m j s' Hwf Hs' Ho') as H2.
  rewrite Hk in H1. congruence.
Qed.

Lemma get_has_key m k : wf m -> has_key m k -> is_ok (get m k).
Proof.
  intros Hwf Hk. destruct (find_ptr_spec m k Hwf) as [(i & s & Hf & Hs & _)|[_ ?]]; [|done].
  unfold get, get_slot. rewrite Hf. simpl. rewrite Hs. simpl. by eexists.
Qed.

Lemma get_Ok m k v : wf m ->
  get m k = Ok v <->
  exists i s, slots_ m !! i = Some s /\ occupied s = true /\ sl_key s = k /\ sl_value s = v.
Proof.
  intros Hwf. split.
  - destruct (find_ptr_spec m k Hwf) as [(i & s & Hf & Hs & Ho & Hk)|[Hf Hn]];
      unfold get, get_slot; rewrite Hf; simpl; [|discriminate].
    rewrite Hs. simpl. intros [= <-]. eauto 10.
  - intros (i & s & Hs & Ho & <- & <-). unfold get, get_slot.
    rewrite (find_ptr_slot m i s) by done. simpl. by rewrite Hs.
Qed.

(** A missing key is fatal, on every accessor. *)
Lemma get_missing m k : wf m -> ~ has_key m k -> get m k = Err Fatal.
Proof.
  intros Hwf Hn. destruct (find_ptr_spec m k Hwf) as [(i & s & ? & ? & ? & ?)|[Hf _]].
  - destruct Hn. by exists i, s.
  - unfold get. by rewrite Hf.
Qed.

(** *** Assignment *)

Lemma lookup_set_slot_value m i v j :
  slots_ (set_slot_value m i v) !! j =
  (if decide (i = j)
   then (fun s => mkSlot (sl_key s) (sl_len s) (sl_fp s) v) <$> slots_ m !! j
   else slots_ m !! j).
Proof.
  simpl. case_decide; subst.
  - apply list_lookup_alter_eq.
  - by apply list_lookup_alter_ne.
Qed.

Lemma probe_set_slot_value m i v k : probe (set_slot_value m i v) k = probe m k.
Proof. done. Qed.

Lemma slots_of_set_slot_value m i v j s :
  slots_ (set_slot_value m i v) !! j = Some s ->
  exists s0, slots_ m !! j = Some s0 /\ sl_key s0 = sl_key s /\ sl_len s0 = sl_len s /\
    sl_value s = (if decide (i = j) then v else sl_value s0).
Proof.
  rewrite lookup_set_slot_value. case_decide; subst.
  - intros ([] & Hs & ->)%fmap_Some. eexists; eauto.
  - eauto.
Qed.

Lemma wf_set_slot_value m i v : wf m -> wf (set_slot_value m i v).
Proof.
  intros Hwf. split.
  - intros k. rewrite probe_set_slot_value. simpl. rewrite length_alter. apply (wf_probe m Hwf).
  - intros j s (s0 & Hs & Hk & Hl & _)%slots_of_set_slot_value Ho.
    unfold occupied in Ho. rewrite <- Hk, <- Hl in *.
    rewrite probe_set_slot_value. by apply (wf_slot m Hwf).
Qed.

Lemma has_key_set_slot_value m i v k :
  has_key (set_slot_value m i v) k <-> has_key m k.
Proof.
  split.
  - intros (j & s & (s0 & Hs & Hk & Hl & _)%slots_of_set_slot_value & Ho & <-).
    exists j, s0. unfold occupied in *. by rewrite Hl, Hk.
  - intros (j & s & Hs & Ho & <-). exists j.
    rewrite lookup_set_slot_value. case_decide; subst; rewrite Hs; simpl; eauto.
Qed.

Lemma set_Ok m k v m' : wf m ->
  set m k v = Ok m' <->
  exists i s, slots_ m !! i = Some s /\ occupied s = true /\ sl_key s = k /\
    m' = set_slot_value m i v.
Proof.
  intros Hwf. split.
  - destruct (find_ptr_spec m k Hwf) as [(i & s & Hf & Hs & Ho & Hk)|[Hf Hn]];
      unfold set; rewrite Hf; simpl; [|discriminate].
    intros [= <-]. eauto 10.
  - intros (i & s & Hs & Ho & <- & ->). unfold set.
    by rewrite (find_ptr_slot m i s) by done.
Qed.

Lemma set_wf m k v m' : wf m -> set m k v = Ok m' -> wf m'.
Proof. intros Hwf (i & s & _ & _ & _ & ->)%set_Ok; [|done]. by apply wf_set_slot_value. Qed.

Lemma set_has_key m k v m' k' : wf m -> set m k v = Ok m' -> has_key m' k' <-> has_key m k'.
Proof.
  intros Hwf (i & s & _ & _ & _ & ->)%set_Ok; [|done]. apply has_key_set_slot_value.
Qed.

Lemma set_ok m k v : wf m -> has_key m k -> is_ok (set m k v).
Proof.
  intros Hwf (i & s & Hs & Ho & Hk). eexists. apply set_Ok; eauto 10.
Qed.

Lemma get_set_eq m k v m' : wf m -> set m k v = Ok m' -> get m' k = Ok v.
Proof.
  intros Hwf H. pose proof (set_wf _ _ _ _ Hwf H) as Hwf'.
  apply set_Ok in H as (i & s & Hs & Ho & <- & ->); [|done].
  apply get_Ok; [done|]. exists i.
  rewrite lookup_set_slot_value, decide_True, Hs by done. simpl. eauto.
Qed.

Lemma get_set_ne m k v m' k' : wf m -> set m k v = Ok m' -> k <> k' -> get m' k' = get m k'.
Proof.
  intros Hwf H Hne. pose proof (set_wf _ _ _ _ Hwf H) as Hwf'.
  destruct (find_ptr_spec m k' Hwf) as [(j & s' & Hf & Hs' & Ho' & <-)|[Hf Hn]].
  - transitivity (Ok (sl_value s')); [|symmetry; apply get_Ok; eauto 10].
    apply get_Ok; [done|]. exists j, s'.
    apply set_Ok in H as (i & s & Hs & Ho & <- & ->); [|done].
    rewrite lookup_set_slot_value, decide_False; [done|].
    intros ->. congruence.
  - rewrite !get_missing; try done. by rewrite (set_has_key m k v).
Qed.
End Properties.
#[export] Hint Resolve wf_set_slot_value set_wf get_has_key set_ok : sidecar.

(** ** The constructor *)

Section Make.
Context {T : Type} (dflt : T).

(** The keys a [LocalMap] can hold: an empty string would leave its slot
    unoccupied, and the length is stored in 32 bits. *)
Definition key_ok (k : string) : Prop := 0 < Z.of_nat (String.length k) < 2 ^ 32.

Lemma slot_index_range cap h : 0 < cap -> 0 <= h -> 0 <= slot_index cap h < cap.
Proof.
  intros Hc Hh. unfold slot_index. case_match.
  - pose proof (Z_land_le_r h (cap - 1)). lia.
  - apply Z.mod_pos_bound; lia.
Qed.

Lemma fnv1a_fold_range s h : 0 <= h < 2 ^ 64 -> 0 <= fnv1a_fold h s < 2 ^ 64.
Proof.
  revert h. induction s as [|c s IH]; simpl; intros h Hh; [done|].
  apply IH. apply wrap_range. lia.
Qed.

Lemma xorshift_nonneg h n : 0 <= h -> 0 <= n -> 0 <= Z.lxor h (Z.shiftr h n).
Proof. intros. apply Z.lxor_nonneg. pose proof (Z.shiftr_nonneg h n). tauto. Qed.

Lemma fnv1a64_nonneg s seed : 0 <= fnv1a64 s seed.
Proof.
  unfold fnv1a64. cbv zeta. apply xorshift_nonneg; [|lia]. apply wrap_range. lia.
Qed.

(** What [fill] keeps of the slot array it builds. *)
Definition fill_inv (cap seed : Z) (tmp : list (LocalSlot T)) : Prop :=
  length tmp = Z.to_nat cap /\
  forall i s, tmp !! i = Some s -> sl_value s = dflt /\
    (occupied s = true ->
     i = Z.to_nat (slot_index cap (fnv1a64 (sl_key s) seed)) /\
     sl_len s = Z.of_nat (String.length (sl_key s))).

Definition stored (tmp : list (LocalSlot T)) (k : string) : Prop :=
  exists i s, tmp !! i = Some s /\ occupied s = true /\ sl_key s = k.

Lemma fill_inv_init cap seed : fill_inv cap seed (replicate (Z.to_nat cap) (empty_slot dflt)).
Proof.
  split; [apply length_replicate|].
  intros i s [-> _]%lookup_replicate. by split.
Qed.

Lemma fill_inv_step cap seed k tmp s :
  fill_inv cap seed tmp -> key_ok k ->
  let idx := Z.to_nat (slot_index cap (fnv1a64 k seed)) in
  tmp !! idx = Some s -> occupied s = false ->
  let s' := mkSlot k (u32 (Z.of_nat (String.length k))) (fnv1a64 k seed) (sl_value s) in
  fill_inv cap seed (<[idx := s']> tmp) /\
  forall k', stored (<[idx := s']> tmp) k' <-> k' = k \/ stored tmp k'.
Proof.
  intros [Hlen Hinv] Hk idx Hs Ho s'.
  assert (sl_len s' = Z.of_nat (String.length k)) as Hl.
  { simpl. apply wrap_small. unfold key_ok in Hk. lia. }
  assert (occupied s' = true) as Ho'.
  { unfold occupied. rewrite Hl. destruct Hk. by destruct (Z.eqb_spec (Z.of_nat (String.length k)) 0); [lia|]. }
  assert (idx < length tmp)%nat as Hidx by by eapply lookup_lt_Some.
  split; [split|].
  - by rewrite length_insert.
  - intros i s0 H. apply list_lookup_insert_Some in H as [(<- & <- & _)|(_ & H)]; [|by apply Hinv].
    split; [simpl; by eapply Hinv|]. intros _. split; [done|]. exact Hl.
  - intros k'. split.
    + intros (i & s0 & H & Ho0 & <-).
      apply list_lookup_insert_Some in H as [(<- & <- & _)|(_ & H)]; [by left|right; by exists i, s0].
    + intros [->|(i & s0 & H & Ho0 & <-)].
      * exists idx, s'. by rewrite list_lookup_insert_eq.
      * exists i, s0. rewrite list_lookup_insert_ne; [done|]. intros <-. congruence.
Qed.

Lemma fill_spec cap seed keys tmp tmp' :
  fill_inv cap seed tmp -> (forall k, k ∈ keys -> key_ok k) ->
  fill cap seed keys tmp = Some tmp' ->
  fill_inv cap seed tmp' /\ forall k, stored tmp' k <-> k ∈ keys \/ stored tmp k.
Proof.
  revert tmp. induction keys as [|k ks IH]; intros tmp Hinv Hok Hfill.
  { simpl in Hfill. injection Hfill as <-. split; [done|]. set_solver. }
  simpl in Hfill.
  destruct (tmp !! Z.to_nat (slot_index cap (fnv1a64 k seed))) as [s|] eqn:Hs; [|discriminate].
  destruct (occupied s) eqn:Ho; [discriminate|].
  destruct (fill_inv_step cap seed k tmp s Hinv ltac:(set_solver) Hs Ho) as [Hinv' Hst].
  destruct (IH _ Hinv' ltac:(set_solver) Hfill) as [Hinv'' Hst'].
  split; [done|]. intros k'. rewrite Hst', Hst. set_solver.
Qed.

(** What a successful build guarantees. *)
Definition built (keys : list string) (m : LocalMap T) : Prop :=
  wf m /\ (forall k, has_key m k <-> k ∈ keys) /\
  (forall i s, slots_ m !! i = Some s -> sl_value s = dflt).

Lemma try_build_spec keys K cap seed m :
  0 < cap < 2 ^ 64 -> (forall k, k ∈ keys -> key_ok k) ->
  (Z.land cap (cap - 1) <> 0 -> K = cap) ->
  try_build dflt keys K cap seed = Some m -> built keys m.
Proof.
  intros Hcap Hok HK. unfold try_build.
  destruct (fill _ _ _ _) as [tmp|] eqn:Hfill; [|discriminate]. intros [= <-].
  apply fill_spec in Hfill as [[Hlen Hinv] Hst]; [|apply fill_inv_init|done].
  set (msk := if Z.land cap (cap - 1) =? 0 then cap - 1 else SIZE_MAX).
  assert (forall k, probe (mkLocalMap tmp seed K msk) k =
                    Ok (Z.to_nat (slot_index cap (fnv1a64 k seed)))) as Hp.
  { intros k. unfold probe, slot_index, msk, SIZE_MAX. simpl.
    destruct (Z.eqb_spec (Z.land cap (cap - 1)) 0) as [E|E].
    - destruct (Z.eqb_spec (cap - 1) 18446744073709551615); [lia|done].
    - rewrite Z.eqb_refl. simpl. rewrite HK by done.
      destruct (Z.eqb_spec cap 0); [lia|done]. }
  split; [split|split].
  - intros k. eexists. split; [apply Hp|]. simpl.
    pose proof (slot_index_range cap (fnv1a64 k seed) ltac:(lia) (fnv1a64_nonneg _ _)). lia.
  - intros i s Hs Ho. rewrite Hp. destruct (Hinv i s Hs) as [_ Hi].
    destruct (Hi Ho) as [<- ?]. done.
  - intros k. rewrite <- (Hst k) || rewrite (Hst k). unfold stored at 1.
    split; [intros [?|(i & s & [-> _]%lookup_replicate & Ho & _)]; [done|discriminate Ho]|by left].
  - intros i s Hs. by apply (Hinv i s Hs).
Qed.

Lemma try_seeds_spec fuel trial keys K cap m :
  0 < cap < 2 ^ 64 -> (forall k, k ∈ keys -> key_ok k) ->
  (Z.land cap (cap - 1) <> 0 -> K = cap) ->
  try_seeds dflt fuel trial keys K cap = Some m -> built keys m.
Proof.
  intros Hcap Hok HK. revert trial. induction fuel as [|fuel IH]; intros trial; [discriminate|].
  simpl. destruct (try_build _ _ _ _ _) eqn:E; [|apply IH].
  intros [= <-]. by eapply try_build_spec.
Qed.

Lemma land_pow2_pred j : 0 <= j -> Z.land (2 ^ j) (2 ^ j - 1) = 0.
Proof.
  intros Hj. replace (2 ^ j - 1) with (Z.ones j) by (rewrite Z.ones_equiv; lia).
  rewrite Z.land_ones by done. apply Z_mod_same_full.
Qed.

(** The capacity loop stops at a power of two below [4 * K]; [j] doublings
    with [2 ^ j >= 2 * K] are enough fuel. *)
Lemma grow_cap_spec fuel j K :
  0 < K -> 0 <= j -> 2 ^ j < 4 * K -> 2 * K <= 2 ^ (j + Z.of_nat fuel) ->
  exists j', j <= j' /\ grow_cap fuel (2 ^ j) K = 2 ^ j' /\ 2 * K <= 2 ^ j' < 4 * K.
Proof.
  revert j. induction fuel as [|fuel IH]; intros j HK Hj Hlt Hfuel.
  { exists j. rewrite Z.add_0_r in Hfuel. simpl. lia. }
  cbn [grow_cap]. destruct (Z.ltb_spec (2 ^ j) (2 * K)).
  - rewrite Z.shiftl_mul_pow2, Z.pow_1_r, Z.mul_comm, <- Z.pow_succ_r by lia.
    assert (2 ^ Z.succ j < 4 * K) by (rewrite Z.pow_succ_r; lia).
    destruct (IH (Z.succ j)) as (j' & ? & ? & ?); [done|lia|done| |].
    { replace (Z.succ j + Z.of_nat fuel) with (j + Z.of_nat (S fuel)) by lia. done. }
    exists j'. split; [lia|done].
  - exists j. lia.
Qed.

Lemma grow_cap_make n : (0 < n)%nat ->
  exists j, 0 <= j /\ grow_cap (2 * n) 1 (Z.of_nat n) = 2 ^ j /\
    2 * Z.of_nat n <= 2 ^ j < 4 * Z.of_nat n.
Proof.
  intros Hn. apply (grow_cap_spec (2 * n) 0); try lia.
  pose proof (Z.pow_gt_lin_r 2 (Z.of_nat (2 * n)) ltac:(lia) ltac:(lia)).
  rewrite Z.add_0_l. lia.
Qed.

Lemma make_spec keys m :
  keys <> [] -> Z.of_nat (length keys) < 2 ^ 60 ->
  (forall k, k ∈ keys -> key_ok k) ->
  make dflt keys = Ok m -> slots_ m <> [] -> built keys m.
Proof.
  intros Hne Hlen Hok Hm Hslots. destruct keys as [|k ks]; [done|].
  unfold make in Hm. set (keys := k :: ks) in *.
  assert (0 < length keys)%nat by (simpl; lia).
  case_decide; [|discriminate].
  destruct (try_seeds _ _ _ _ _ (Z.of_nat (length keys))) eqn:E1.
  { injection Hm as <-. by eapply try_seeds_spec in E1; [..|lia|done|done]. }
  destruct (grow_cap_make (length keys)) as (j & ? & Hg & ?); [done|].
  rewrite Hg in Hm. destruct (try_seeds _ MAX_TRIALS 0 keys _ (2 ^ j)) eqn:E2.
  - injection Hm as <-. eapply try_seeds_spec in E2; [done|lia|done|].
    by rewrite land_pow2_pred.
  - injection Hm as <-. done.
Qed.

Lemma make_duplicate keys : ~ NoDup keys -> make dflt keys = Err (Throw InvalidArgument).
Proof.
  intros Hd. destruct keys; [by destruct Hd; constructor|]. unfold make. by case_decide.
Qed.
End Make.

(** ** Refinement: a [LocalMap] is a finite map with a fixed domain *)

Section Abstraction.
Context {T : Type}.
Implicit Types (m : LocalMap T).

Definition to_gmap m : gmap string T :=
  list_to_map ((fun s => (sl_key s, sl_value s)) <$> filter (fun s => occupied s = true) (slots_ m)).

Lemma occupied_NoDup m : wf m ->
  NoDup ((fun s => (sl_key s, sl_value s)) <$> filter (fun s => occupied s = true) (slots_ m)).*1.
Proof.
  intros Hwf. rewrite <- list_fmap_compose. cbn.
  assert (forall i j s s', slots_ m !! i = Some s -> occupied s = true ->
    slots_ m !! j = Some s' -> occupied s' = true -> sl_key s = sl_key s' -> i = j) as Hinj
    by (intros; by eapply key_inj).
  revert Hinj. generalize (slots_ m). clear Hwf m.
  induction l as [|s l IH]; intros Hinj; [constructor|].
  assert (NoDup (compose fst (fun s : LocalSlot T => (sl_key s, sl_value s))
            <$> filter (fun s => occupied s = true) l)) as Hl.
  { apply IH. intros i j s1 s2 ? ? ? ? ?.
    enough (S i = S j) by lia. by eapply (Hinj (S i) (S j)). }
  rewrite filter_cons. case_decide as Ho; [|done]. constructor; [|done].
  intros (s' & Hk & (Ho' & Hin)%list_elem_of_filter)%list_elem_of_fmap.
  apply list_elem_of_lookup in Hin as [j Hj].
  enough (0 = S j)%nat by lia. eapply (Hinj 0%nat (S j)); [done..|]. exact Hk.
Qed.

Lemma lookup_to_gmap m k v : wf m ->
  to_gmap m !! k = Some v <-> get m k = Ok v.
Proof.
  intros Hwf. unfold to_gmap.
  rewrite <- elem_of_list_to_map by by apply occupied_NoDup.
  rewrite list_elem_of_fmap, get_Ok by done. split.
  - intros (s & [= -> ->] & (Ho & Hs)%list_elem_of_filter).
    apply list_elem_of_lookup in Hs as [i Hi]. eauto 10.
  - intros (i & s & Hs & Ho & <- & <-). exists s. split; [done|].
    apply list_elem_of_filter. split; [done|]. by eapply list_elem_of_lookup_2.
Qed.

Lemma get_to_gmap m k : wf m ->
  get m k = match to_gmap m !! k with Some v => Ok v | None => Err Fatal end.
Proof.
  intros Hwf. destruct (to_gmap m !! k) as [v|] eqn:E.
  - by apply lookup_to_gmap.
  - apply get_missing; [done|]. intros [v Hv]%get_has_key; [|done].
    apply lookup_to_gmap in Hv; [congruence|done].
Qed.

Lemma has_key_to_gmap m k : wf m -> has_key m k <-> is_Some (to_gmap m !! k).
Proof.
  intros Hwf. split.
  - intros [v Hv]%get_has_key; [|done]. apply lookup_to_gmap in Hv; eauto.
  - intros [v Hv]. apply lookup_to_gmap in Hv; [|done].
    apply get_Ok in Hv as (i & s & ? & ? & ? & _); [|done]. by exists i, s.
Qed.

Lemma set_to_gmap m k v m' : wf m -> set m k v = Ok m' ->
  to_gmap m' = <[k:=v]> (to_gmap m).
Proof.
  intros Hwf H. pose proof (set_wf _ _ _ _ Hwf H) as Hwf'.
  apply map_eq. intros k'. apply option_eq. intros v'.
  rewrite lookup_to_gmap by done. destruct (decide (k = k')) as [<-|Hne].
  - rewrite lookup_insert_eq, (get_set_eq _ _ _ _ Hwf H). naive_solver.
  - rewrite lookup_insert_ne, (get_set_ne _ _ _ _ _ Hwf H), lookup_to_gmap; done.
Qed.

Lemma set_missing m k v : wf m -> to_gmap m !! k = None -> set m k v = Err Fatal.
Proof.
  intros Hwf Hn. destruct (find_ptr_spec m k Hwf) as [(i & s & ? & ? & ? & ?)|[Hf _]].
  - assert (has_key m k) as Hk by by exists i, s.
    apply has_key_to_gmap in Hk as [? ?]; [congruence|done].
  - unfold set. by rewrite Hf.
Qed.
End Abstraction.

(** ** Iteration

    The iterator walks the occupied slots cyclically; positions are counted
    from a starting slot [i0] as [(i0 + d) mod n]. *)

Lemma mod_succ (a n : nat) : (0 < n)%nat ->
  ((S a) mod n = if decide (n <= S (a mod n)) then 0 else S (a mod n))%nat.
Proof.
  intros Hn. pose proof (Nat.mod_upper_bound a n ltac:(lia)).
  pose proof (Nat.div_mod_eq a n). symmetry. case_decide.
  - apply (Nat.mod_unique _ _ (S (a / n))); lia.
  - apply (Nat.mod_unique _ _ (a / n)); lia.
Qed.

Lemma mod_cycle (i d n : nat) : (i < n)%nat -> (d <= n)%nat ->
  (((i + d) mod n)%nat = i <-> d = O \/ d = n).
Proof.
  intros Hi Hd. split.
  - intros H. pose proof (Nat.div_mod_eq (i + d) n). rewrite H in *.
    assert ((i + d) / n = 0 \/ (i + d) / n = 1 \/ 2 <= (i + d) / n)%nat as [E|[E|E]] by lia;
      rewrite ?E in *; [lia|lia|nia].
  - intros [->| ->].
    + rewrite Nat.add_0_r. by apply Nat.mod_small.
    + rewrite <- (Nat.mul_1_l n) at 1. rewrite Nat.Div0.mod_add. by apply Nat.mod_small.
Qed.

Section Iteration.
Context {T : Type}.
Implicit Types (m : LocalMap T).

Lemma occ_at_lt m i : occ_at m i = true -> (i < length (slots_ m))%nat.
Proof.
  unfold occ_at. destruct (slots_ m !! i) eqn:E; [|discriminate].
  intros _. by eapply lookup_lt_Some.
Qed.

(** [j] is the first occupied slot at distance at least [lo] from [i]. *)
Definition first_from m (i lo j d : nat) : Prop :=
  (lo <= d)%nat /\ j = ((i + d) mod length (slots_ m))%nat /\ occ_at m j = true /\
  forall e, (lo <= e < d)%nat -> occ_at m ((i + e) mod length (slots_ m)) = false.

Lemma skip_loop_spec m start d fuel :
  let n := length (slots_ m) in
  (start < n)%nat -> (d < n)%nat -> (n <= d + fuel)%nat ->
  (exists e, (d <= e < n)%nat /\ occ_at m ((start + e) mod n) = true) ->
  exists d', (d' < n)%nat /\
    first_from m start d (skip_loop fuel m start ((start + d) mod n)) d'.
Proof.
  intros n Hs. revert d. induction fuel as [|fuel IH]; intros d Hd Hf (e & He & Hocc); [lia|].
  cbn [skip_loop]. destruct (occ_at m ((start + d) mod n)) eqn:Ho.
  { exists d. split; [done|]. split; [done|]. split; [done|]. split; [done|]. lia. }
  fold n. rewrite <- mod_succ by lia.
  replace (S (start + d)) with (start + S d)%nat by lia.
  assert (d <> e) by congruence.
  case_decide as Hc.
  { apply mod_cycle in Hc; lia. }
  destruct (IH (S d)) as (d' & ? & ? & ? & ? & Hmin); [lia|lia|by exists e; split; [lia|]|].
  exists d'. split; [done|]. split; [lia|]. split; [done|]. split; [done|].
  intros e' He'. destruct (decide (e' = d)) as [->|]; [done|]. apply Hmin. lia.
Qed.

Lemma skip_empty_nonempty m i : (0 < length (slots_ m))%nat ->
  skip_empty m i =
  let st := if decide (length (slots_ m) <= i)%nat then 0%nat else i in
  skip_loop (length (slots_ m)) m st st.
Proof. unfold skip_empty. destruct (slots_ m); simpl; [lia|done]. Qed.

Lemma it_next_nonempty m i : (0 < length (slots_ m))%nat -> it_next m i = skip_empty m (S i).
Proof. unfold it_next. destruct (slots_ m); simpl; [lia|done]. Qed.

Lemma skip_empty_spec m i :
  (i <= length (slots_ m))%nat -> (exists j, occ_at m j = true) ->
  exists d, (d < length (slots_ m))%nat /\
    first_from m (i mod length (slots_ m)) 0 (skip_empty m i) d.
Proof.
  intros Hi [j Hj]. pose proof (occ_at_lt m j Hj) as Hjn.
  rewrite skip_empty_nonempty by lia. cbv zeta. set (n := length (slots_ m)) in *.
  set (st := if decide (n <= i)%nat then 0%nat else i).
  assert (st = i mod n)%nat as Est.
  { unfold st. case_decide.
    - replace i with n by lia. symmetry. by apply Nat.Div0.mod_same.
    - symmetry. apply Nat.mod_small. lia. }
  assert (st < n)%nat by (rewrite Est; apply Nat.mod_upper_bound; lia).
  rewrite <- Est.
  destruct (skip_loop_spec m st 0 n) as (d & Hd & Hff); [done|lia|lia| |].
  - exists (if decide (st <= j)%nat then (j - st)%nat else (n + j - st)%nat).
    case_decide; (split; [lia|]).
    + replace (st + (j - st))%nat with j by lia. by rewrite Nat.mod_small.
    + replace (st + (n + j - st))%nat with (j + 1 * n)%nat by lia.
      rewrite Nat.Div0.mod_add. by rewrite Nat.mod_small.
  - exists d. split; [done|]. fold n in Hff.
    rewrite Nat.add_0_r, (Nat.mod_small st) in Hff by done. done.
Qed.

(** One [++] of the iterator, from a position [(i0 + d) mod n] on the way
    round from the occupied slot [i0]: it reaches the next occupied slot,
    no later than [i0] itself. *)
Lemma it_next_orbit m i0 d :
  let n := length (slots_ m) in
  occ_at m i0 = true -> (d < n)%nat ->
  exists d', (d < d' <= n)%nat /\
    first_from m i0 (S d) (it_next m ((i0 + d) mod n)) d'.
Proof.
  intros n Hi0 Hd. pose proof (occ_at_lt m i0 Hi0) as Hlt. fold n in Hlt.
  assert ((i0 + d) mod n < n)%nat by (apply Nat.mod_upper_bound; lia).
  rewrite it_next_nonempty by (fold n; lia).
  destruct (skip_empty_spec m (S ((i0 + d) mod n))) as (c & Hc & _ & Hj & Ho & Hmin);
    [fold n; lia|by exists i0|]. fold n in Hc, Hj, Hmin.
  assert (forall e, ((S ((i0 + d) mod n)) mod n + e) mod n = (i0 + (S d + e)) mod n)%nat as E.
  { intros e. rewrite Nat.Div0.add_mod_idemp_l.
    replace (S ((i0 + d) mod n) + e)%nat with ((i0 + d) mod n + (1 + e))%nat by lia.
    rewrite Nat.Div0.add_mod_idemp_l. f_equal. lia. }
  assert (S d + c <= n)%nat.
  { destruct (decide (S d + c <= n)%nat); [done|].
    specialize (Hmin (n - S d)%nat ltac:(lia)). rewrite E in Hmin.
    replace (S d + (n - S d))%nat with n in Hmin by lia.
    rewrite (proj2 (mod_cycle i0 n n Hlt ltac:(lia)) ltac:(by right)) in Hmin. congruence. }
  exists (S d + c)%nat. split; [lia|]. split; [lia|]. fold n. rewrite <- E.
  split; [done|]. split; [done|].
  intros e He. specialize (Hmin (e - S d)%nat ltac:(lia)). rewrite E in Hmin.
  by replace (S d + (e - S d))%nat with e in Hmin by lia.
Qed.

Lemma it_begin_occ m : (exists j, occ_at m j = true) -> occ_at m (it_begin m) = true.
Proof.
  intros Hj. destruct (skip_empty_spec m 0) as (d & _ & _ & _ & Ho & _); [lia|done|done].
Qed.

Lemma it_next_occ m i : occ_at m i = true -> occ_at m (it_next m i) = true.
Proof.
  intros Hi. pose proof (occ_at_lt m i Hi).
  destruct (it_next_orbit m i 0) as (d & _ & _ & _ & Ho & _); [done|lia|].
  by rewrite Nat.add_0_r, Nat.mod_small in Ho.
Qed.

(** Every occupied slot lies on the orbit of [i0]. *)
Lemma orbit_covers m i0 j :
  let n := length (slots_ m) in
  occ_at m i0 = true -> (j < n)%nat -> exists e, (e < n)%nat /\ j = ((i0 + e) mod n)%nat.
Proof.
  intros n Hi0 Hj. pose proof (occ_at_lt m i0 Hi0) as Hlt. fold n in Hlt.
  destruct (decide (i0 <= j)%nat).
  - exists (j - i0)%nat. split; [lia|]. replace (i0 + (j - i0))%nat with j by lia.
    by rewrite Nat.mod_small.
  - exists (n + j - i0)%nat. split; [lia|].
    replace (i0 + (n + j - i0))%nat with (j + 1 * n)%nat by lia.
    rewrite Nat.Div0.mod_add. by rewrite Nat.mod_small.
Qed.

Lemma occ_at_set_slot_value m i v j : occ_at (set_slot_value m i v) j = occ_at m j.
Proof.
  unfold occ_at. rewrite lookup_set_slot_value. case_decide; [|done].
  by destruct (slots_ m !! j).
Qed.

Lemma it_next_set_slot_value m i v j : it_next (set_slot_value m i v) j = it_next m j.
Proof.
  set (m' := set_slot_value m i v).
  assert (length (slots_ m') = length (slots_ m)) as Hlen by apply length_alter.
  assert (forall fuel st idx, skip_loop fuel m' st idx = skip_loop fuel m st idx) as Hloop.
  { induction fuel as [|fuel IH]; intros st idx; [done|]. cbn [skip_loop].
    unfold m' at 1. rewrite occ_at_set_slot_value, Hlen. case_match; [done|].
    by repeat case_decide; rewrite ?IH. }
  destruct (decide (0 < length (slots_ m))%nat).
  - rewrite !it_next_nonempty, !skip_empty_nonempty by lia.
    cbv zeta. by rewrite Hlen, Hloop.
  - unfold it_next. destruct (slots_ m') eqn:E1, (slots_ m) eqn:E2; simpl in *; done || lia.
Qed.

Lemma has_key_occ m k : has_key m k -> exists j, occ_at m j = true.
Proof. intros (i & s & Hs & Ho & _). exists i. unfold occ_at. by rewrite Hs. Qed.
End Iteration.

(** ** Maps over given keys, and updates in place *)

(** A map over the endpoints [keys]. *)
Record over {T} (keys : list string) (m : LocalMap T) : Prop := {
  over_wf : wf m;
  over_keys k : has_key m k <-> k ∈ keys
}.

Lemma over_get {T} keys (m : LocalMap T) k : over keys m -> k ∈ keys -> is_ok (get m k).
Proof. intros [? H] ?. apply get_has_key; [done|]. by apply H. Qed.

Lemma over_set {T} keys (m m' : LocalMap T) k v : over keys m -> set m k v = Ok m' -> over keys m'.
Proof.
  intros [Hwf H] Hs. split; [by eapply set_wf|]. intros k'. rewrite set_has_key; eauto.
Qed.

Lemma update_Ok {T} (m m' : LocalMap T) k f :
  update m k f = Ok m' <-> exists v v', get m k = Ok v /\ f v = Ok v' /\ set m k v' = Ok m'.
Proof.
  unfold update. split.
  - intros H. bind_inv. eauto 10.
  - intros (v & v' & Hg & Hf & Hs). rewrite Hg. simpl. rewrite Hf. done.
Qed.

Lemma over_update {T} keys (m m' : LocalMap T) k f : over keys m -> update m k f = Ok m' -> over keys m'.
Proof. intros Hm (v & v' & _ & _ & Hs)%update_Ok. by eapply over_set. Qed.

Lemma update_get {T} (m m' : LocalMap T) k f : wf m -> update m k f = Ok m' ->
  (exists v v', get m k = Ok v /\ f v = Ok v' /\ get m' k = Ok v') /\
  forall k', k <> k' -> get m' k' = get m k'.
Proof.
  intros Hm (v & v' & Hg & Hf & Hs)%update_Ok. split.
  - exists v, v'. split; [done|]. split; [done|]. by eapply get_set_eq.
  - intros. by eapply get_set_ne.
Qed.

Lemma update_is_ok {T} keys (m : LocalMap T) k f : over keys m -> k ∈ keys ->
  (forall v, get m k = Ok v -> is_ok (f v)) -> is_ok (update m k f).
Proof.
  intros Hm Hk Hf. destruct (over_get _ _ _ Hm Hk) as [v Hv]. destruct (Hf v Hv) as [v' Hv'].
  destruct (set_ok m k v') as [m' Hs]; [by apply Hm|by apply (over_keys _ _ Hm)|].
  exists m'. apply update_Ok. eauto 10.
Qed.

Lemma built_over {T} (dflt : T) keys m : built dflt keys m -> over keys m.
Proof. intros (Hwf & Hk & _). by split. Qed.
