(* ===== verification/LocalMapProps.v ===== *)
(** * LocalMap: properties

    The map built by the constructor behaves as a finite map with a fixed
    set of keys; its iterator reaches every key from every other; the
    construction refuses duplicates, and a map built from no keys cannot be
    probed. *)

From Stdlib Require Import ZArith Lia String.
From stdpp Require Import base gmap strings list fin_maps.
From S2P Require Import Prelude LocalMap.

Open Scope Z_scope.

#[local] Opaque make.

(** The search for a seed succeeded for this set of keys. *)
Definition seeded (keys : list string) : Prop :=
  forall (T : Type) (d : T) m, make d keys = Ok m -> slots_ m <> [].

(** The service names of a configuration: some, not too many, none empty. *)
Record keys_ok (keys : list string) : Prop := {
  ko_some : keys <> [];
  ko_few : Z.of_nat (length keys) < 2 ^ 30;
  ko_names k : k ∈ keys -> key_ok k;
  ko_seeded : seeded keys
}.

Lemma make_built {T} (d : T) keys m : keys_ok keys -> make d keys = Ok m -> built d keys m.
Proof.
  intros [Hne Hlen Hok Hs] Hm. apply make_spec; [done|lia|done|done|]. exact (Hs _ _ _ Hm).
Qed.

(** ** Sequences of writes *)

Section Writes.
Context {T : Type}.
Implicit Types (m : LocalMap T) (ws : list (string * T)) (g : gmap string T).

Fixpoint set_all m ws : res (LocalMap T) :=
  match ws with
  | [] => Ok m
  | (k, v) :: ws' => m' ← set m k v; set_all m' ws'
  end.

Definition write_all g ws : gmap string T := foldl (fun g w => <[w.1:=w.2]> g) g ws.

Lemma set_all_spec m ws : wf m ->
  (Forall (fun w => has_key m w.1) ws ->
     exists m', set_all m ws = Ok m' /\ wf m' /\ to_gmap m' = write_all (to_gmap m) ws) /\
  (Exists (fun w => ~ has_key m w.1) ws -> set_all m ws = Err Fatal).
Proof.
  revert m. induction ws as [|[k v] ws IH]; intros m Hwf.
  { split; [intros _; by exists m|by intros ?%Exists_nil]. }
  cbn [set_all]. destruct (to_gmap m !! k) eqn:Ek.
  - assert (has_key m k) as Hk by by apply has_key_to_gmap.
    destruct (set_ok m k v Hwf Hk) as [m1 Hm1]. pose proof (set_wf _ _ _ _ Hwf Hm1) as Hwf1.
    rewrite Hm1. cbn [mbind res_bind]. destruct (IH m1 Hwf1) as [IH1 IH2].
    assert (forall w : string * T, has_key m1 w.1 <-> has_key m w.1) as Hkeys
      by (intros; by eapply set_has_key). split.
    + intros [_ Hall]%Forall_cons. destruct IH1 as (m' & -> & ? & Hg).
      { eapply Forall_impl; [exact Hall|]. intros w. by rewrite Hkeys. }
      exists m'. split; [done|]. split; [done|]. by rewrite Hg, (set_to_gmap _ _ _ _ Hwf Hm1).
    + intros [Hn|Hex]%Exists_cons; [done|]. apply IH2.
      eapply Exists_impl; [exact Hex|]. intros w. by rewrite Hkeys.
  - rewrite (set_missing m k v Hwf Ek). split; [|done].
    intros [Hk _]%Forall_cons. apply has_key_to_gmap in Hk as [? ?]; [simpl in *; congruence|done].
Qed.

Lemma built_to_gmap (d : T) keys m : built d keys m ->
  to_gmap m = gset_to_gmap d (list_to_set keys).
Proof.
  intros (Hwf & Hk & Hv). apply map_eq. intros k. apply option_eq. intros v.
  rewrite lookup_gset_to_gmap_Some, elem_of_list_to_set, <- Hk, lookup_to_gmap, get_Ok by done.
  split.
  - intros (i & s & Hs & Ho & Hks & <-). split; [by exists i, s|]. symmetry. by eapply Hv.
  - intros [(i & s & Hs & Ho & Hks) <-]. exists i, s. eauto 10.
Qed.
End Writes.

(** ** The iterator *)

Lemma iterate_reaches {T} (m : LocalMap T) i0 e d : (d <= e < length (slots_ m))%nat ->
  occ_at m i0 = true -> occ_at m ((i0 + e) mod length (slots_ m)) = true ->
  exists n, (n <= e - d)%nat /\
    Nat.iter n (it_next m) ((i0 + d) mod length (slots_ m))%nat = ((i0 + e) mod length (slots_ m))%nat.
Proof.
  intros Hd Hi0 He. remember (e - d)%nat as k eqn:Ek. revert d Hd Ek.
  induction k as [k IH] using lt_wf_ind. intros d Hd Ek.
  destruct (decide (d = e)) as [->|Hne]; [by exists 0%nat; split; [lia|]|].
  destruct (it_next_orbit m i0 d) as (d' & Hd' & Hsd & Hj & Ho & Hmin); [done|lia|].
  assert (d' <= e)%nat as Hle.
  { destruct (decide (d' <= e)%nat); [done|]. rewrite (Hmin e) in He by lia. done. }
  destruct (IH (e - d')%nat) with (d := d') as (n & Hn & Hiter); [lia|lia|done|].
  exists (S n). split; [lia|]. by rewrite Nat.iter_succ_r, Hj.
Qed.

(** ** Properties *)

(** C37: A map built from a set of service names is a finite map: any sequence
    of writes to those names succeeds, and a read returns the last value
    written, or the initial one; a write to or a read of any other name is a
    fatal error, never a wrong slot. *)
Theorem localmap_refines_map {T} (d : T) keys m ws k :
  keys_ok keys -> make d keys = Ok m ->
  let g := write_all (gset_to_gmap d (list_to_set keys)) ws in
  (Forall (fun w => w.1 ∈ keys) ws -> exists m', set_all m ws = Ok m' /\ wf m' /\
     get m' k = match g !! k with Some v => Ok v | None => Err Fatal end) /\
  (Exists (fun w => w.1 ∉ keys) ws -> set_all m ws = Err Fatal).
Proof.
  intros Hok Hm g. pose proof (make_built _ _ _ Hok Hm) as Hb.
  pose proof Hb as (Hwf & Hk & _). destruct (set_all_spec m ws Hwf) as [H1 H2]. split.
  - intros Hall. destruct H1 as (m' & Hs & Hwf' & Hg).
    { eapply Forall_impl; [exact Hall|]. intros w. by rewrite Hk. }
    exists m'. split; [done|]. split; [done|].
    by rewrite (get_to_gmap m' k Hwf'), Hg, (built_to_gmap d keys m Hb).
  - intros Hex. apply H2. eapply Exists_impl; [exact Hex|]. intros w. by rewrite Hk.
Qed.

Definition ex_keys : list string := ["orders"; "users"; "geo"]%string.

Lemma ex_keys_ok : keys_ok ex_keys.
Proof.
  split; [done|by vm_compute|..].
  - intros k Hk. unfold ex_keys in Hk. rewrite !elem_of_cons in Hk.
    destruct Hk as [->|[->|[->|[]%elem_of_nil]]]; by vm_compute.
  - intros T d m H. vm_compute in H. injection H as <-. discriminate.
Qed.

Definition ex_map : LocalMap Z := Eval vm_compute in
  match make 0 ex_keys with Ok m => m | Err _ => mkLocalMap [] 0 0 0 end.

Lemma localmap_refines_map_witness :
  exists m', set_all ex_map [("geo", 3); ("users", 4); ("geo", 5)]%string = Ok m' /\
    get m' "geo" = Ok 5 /\ get m' "orders" = Ok 0.
Proof.
  destruct (proj1 (localmap_refines_map 0 ex_keys ex_map [("geo", 3); ("users", 4); ("geo", 5)]%string
    "geo" ex_keys_ok ltac:(by vm_compute))) as (m' & Hm & _ & Hg).
  { repeat (apply Forall_cons_2; [by apply (bool_decide_unpack _)|]); apply Forall_nil_2. }
  exists m'. split; [exact Hm|]. split; [exact Hg|].
  vm_compute in Hm. injection Hm as <-. by vm_compute.
Defined.

(** C39: The iterator of a map is a cycle through the keys: from the slot of
    any name, at most as many steps as there are slots lead to the slot of
    any other name, and each step lands on a slot that holds a name. *)
Theorem localmap_iterator_covers {T} (d : T) keys m k k' :
  keys_ok keys -> make d keys = Ok m -> k ∈ keys -> k' ∈ keys ->
  exists i i' n, find_ptr m k = Ok (Some i) /\ find_ptr m k' = Ok (Some i') /\
    (n < length (slots_ m))%nat /\ Nat.iter n (it_next m) i = i' /\
    forall n', occ_at m (Nat.iter n' (it_next m) i) = true.
Proof.
  intros Hok Hm Hk Hk'. destruct (make_built _ _ _ Hok Hm) as (Hwf & Hkeys & _).
  apply Hkeys in Hk as (i & s & Hs & Ho & <-), Hk' as (i' & s' & Hs' & Ho' & <-).
  assert (occ_at m i = true) as Hi by (unfold occ_at; by rewrite Hs).
  assert (occ_at m i' = true) as Hi' by (unfold occ_at; by rewrite Hs').
  destruct (orbit_covers m i i' Hi (occ_at_lt _ _ Hi')) as (e & He & ->).
  destruct (iterate_reaches m i e 0) as (n & Hn & Hiter); [lia|done|done|].
  rewrite Nat.add_0_r, (Nat.mod_small i) in Hiter by by apply occ_at_lt.
  exists i, ((i + e) mod length (slots_ m))%nat, n.
  split; [by apply find_ptr_slot|]. split; [by apply find_ptr_slot|].
  split; [lia|]. split; [done|].
  intros n'. induction n' as [|n' IH]; [done|]. by apply it_next_occ.
Qed.

Lemma localmap_iterator_covers_witness :
  exists i i' n, find_ptr ex_map "geo" = Ok (Some i) /\ find_ptr ex_map "users" = Ok (Some i') /\
    (n < length (slots_ ex_map))%nat /\ Nat.iter n (it_next ex_map) i = i' /\
    forall n', occ_at ex_map (Nat.iter n' (it_next ex_map) i) = true.
Proof.
  apply (localmap_iterator_covers 0 ex_keys ex_map "geo" "users");
    [exact ex_keys_ok|by vm_compute|by apply (bool_decide_unpack _)..].
Defined.

(** The constructor refuses duplicate names with an exception, and a map
    built from no names at all divides by zero when it is probed, whatever
    the name (the comment of the constructor announces a fatal error). *)
Theorem localmap_bad_keys {T} (d : T) keys k :
  (~ NoDup keys -> make d keys = Err (Throw InvalidArgument)) /\
  (exists m, make d [] = Ok m /\ get m k = Err Undefined).
Proof.
  split; [apply make_duplicate|]. exists (mkLocalMap [] 0 0 SIZE_MAX). split; by vm_compute.
Qed.

Lemma localmap_bad_keys_witness : make 0 ["a"; "b"; "a"]%string = Err (Throw InvalidArgument).
Proof.
  apply (proj1 (localmap_bad_keys 0 ["a"; "b"; "a"]%string "x")).
  apply (bool_decide_unpack _). by vm_compute.
Defined.
