(* ===== verification/FastMap.v ===== *)
(** * FastMap: the map of atomic values of [include/fast_map.hpp]

    [FastMap<T>] has the text of [LocalMap<T>], for slots whose value is a
    [std::atomic<T>]: the keys, the seed and the slots never change after
    construction, and [get], [set] and [add] first find the slot and then
    make one atomic access to its value: an acquire load, a release store, a
    relaxed [fetch_add].

    The accesses have the C++ memory model, in the form of timestamps and
    views: the values an object had, in its modification order, stay in its
    history; a thread may read any that is not older than what it knows of;
    and it knows what it wrote or read, and through an acquire load of a value
    that was published by a release store what the storing thread knew then.
    So threads may see accesses to different keys in different orders. As in
    the repaired C++ model (RC11), no load returns a value that is stored later
    because of the load. *)

From Stdlib Require Import ZArith Lia String Sorted.
From stdpp Require Import base gmap strings list fin_maps sorting.
From S2P Require Import Prelude LocalMap LocalMapProps.

Open Scope Z_scope.

#[local] Opaque make.

(** ** Atomic objects *)

(** What a thread knows of each slot: the timestamp of the newest value it has
    seen there. *)
Abbreviation view := (gmap nat Z).
Definition seen (V : view) (i : nat) : Z := Z.max 0 (default 0 (V !! i)).
Definition join (V W : view) : view := union_with (fun a b => Some (Z.max a b)) V W.

(** A value of an object, and what a thread that acquires it learns. *)
Record message (T : Type) := Message { m_value : T; m_view : view }.
Arguments Message {T} _ _.
Arguments m_value {T} _.
Arguments m_view {T} _.

(** [std::atomic<T>]: the values it had, by their timestamps, which are in the
    order of modification. *)
Record atomic (T : Type) := Atomic { history : gmap Z (message T) }.
Arguments Atomic {T} _.
Arguments history {T} _.

Section Atomic.
Context {T : Type} (plus : T -> T -> T).

Definition atomic_make (v : T) : atomic T := Atomic {[0 := Message v ∅]}.

(** An access, by a thread with view [V], to the object in slot [i], at
    timestamp [t]; [None] when the model has no such access. *)

(** [load(std::memory_order_acquire)] of the value at [t]. *)
Definition load (t : Z) (i : nat) (V : view) (a : atomic T) : option (T * view) :=
  x ← history a !! t;
  if seen V i <=? t then Some (m_value x, join (<[i := t]> V) (m_view x)) else None.

(** [store(v, std::memory_order_release)], as the value at [t]. *)
Definition store_value (v : T) (t : Z) (i : nat) (V : view) (a : atomic T) : option (view * atomic T) :=
  if (seen V i <? t) && bool_decide (history a !! t = None) then
    let V' := <[i := t]> V in Some (V', Atomic (<[t := Message v V']> (history a)))
  else None.

(** [fetch_add(delta, std::memory_order_relaxed)] to the value at [t]: the sum
    is the very next value. The thread learns nothing of what was published
    with the old value, and publishes it again. *)
Definition fetch_add (delta : T) (t : Z) (i : nat) (V : view) (a : atomic T) : option (view * atomic T) :=
  x ← history a !! t;
  if (seen V i <=? t) && bool_decide (history a !! (t + 1) = None) then
    Some (<[i := t + 1]> V,
          Atomic (<[t + 1 := Message (plus (m_value x) delta) (<[i := t + 1]> (m_view x))]> (history a)))
  else None.
End Atomic.

Definition Slot (T : Type) : Type := LocalSlot (atomic T).
Definition FastMap (T : Type) : Type := LocalMap (atomic T).

Section FastMap.
Context {T : Type} (zero : T) (plus : T -> T -> T).
Implicit Types (m : FastMap T).

(** ** Construction and lookup *)

Definition fm_make (keys : list string) : res (FastMap T) := make (atomic_make zero) keys.
Definition fm_try_build (keys : list string) (K cap seed : Z) : option (FastMap T) :=
  try_build (atomic_make zero) keys K cap seed.
Definition fm_probe m (k : string) : res nat := probe m k.
Definition fm_equals (s : Slot T) (k : string) : bool := equals s k.

(** The slot whose value [find_ptr] points to. *)
Definition fm_find_ptr m (k : string) : res (option nat) :=
  idx ← fm_probe m k;
  s ← or_fault Undefined (slots_ m !! idx);
  Ok (if fm_equals s k then Some idx else None).

(** An atomic access to the value of a slot. *)
Definition access {A} (f : atomic T -> option (A * atomic T)) m (i : nat) : res (option (A * FastMap T)) :=
  s ← get_slot m i;
  Ok ('(x, a) ← f (sl_value s); Some (x, set_slot_value m i a)).

Definition at_key {A} (f : nat -> atomic T -> option (A * atomic T)) m (k : string) : res (option (A * FastMap T)) :=
  p ← fm_find_ptr m k;
  match p with Some i => access (f i) m i | None => Err Fatal end.

(** The three operations, of a thread with view [V], at timestamp [t]. *)
Definition fm_get m (k : string) (t : Z) (V : view) : res (option (T * view * FastMap T)) :=
  at_key (fun i a => x ← load t i V a; Some (x, a)) m k.
Definition fm_set m (k : string) (v : T) (t : Z) (V : view) : res (option (view * FastMap T)) :=
  at_key (fun i => store_value v t i V) m k.
Definition fm_add m (k : string) (delta : T) (t : Z) (V : view) : res (option (view * FastMap T)) :=
  at_key (fun i => fetch_add plus delta t i V) m k.

Definition fm_index_of m (k : string) : res Z :=
  p ← fm_find_ptr m k;
  Ok (match p with Some i => Z.of_nat i | None => SIZE_MAX end).
(** A reference to the value of a slot that there is. *)
Definition by_index m (i : nat) : res (atomic T) := sl_value <$> get_slot m i.
Definition fm_size m : Z := size_ m.
Definition fm_get_key m (k : string) : res string :=
  p ← fm_find_ptr m k;
  match p with Some i => sl_key <$> get_slot m i | None => Err Fatal end.

(** ** Enumeration *)

Definition fm_get_all_indices m : list nat :=
  filter (fun i => occ_at m i = true) (seq 0 (length (slots_ m))).
Definition fm_get_all_keys m : list string :=
  sl_key <$> filter (fun s => occupied s = true) (slots_ m).
Definition fm_for_each_occupied_index {A} (f : A -> nat -> A) (a : A) m : A :=
  foldl f a (fm_get_all_indices m).
Definition fm_for_each_key {A} (f : A -> string -> nat -> A) (a : A) m : A :=
  foldl (fun a i => match slots_ m !! i with
    | Some s => if occupied s then f a (sl_key s) i else a | None => a end)
    a (seq 0 (length (slots_ m))).

(** ** Threads that share a map *)

Inductive fm_op :=
  | Get (k : string)
  | Set_ (k : string) (v : T)
  | Add (k : string) (delta : T).

Definition op_key (o : fm_op) : string :=
  match o with Get k => k | Set_ k _ => k | Add k _ => k end.

(** The access an operation makes, and what it returns. *)
Definition op_access (o : fm_op) (t : Z) (i : nat) (V : view) (a : atomic T) : option (option T * view * atomic T) :=
  match o with
  | Get _ => '(v, V) ← load t i V a; Some (Some v, V, a)
  | Set_ _ v => '(V, a) ← store_value v t i V a; Some (None, V, a)
  | Add _ delta => '(V, a) ← fetch_add plus delta t i V a; Some (None, V, a)
  end.

(** A thread has found the slot of its first operation, or not yet. *)
Record fm_thread := mkThread { th_view : view; th_slot : option nat; th_ops : list fm_op }.

(** What was done: by which thread, the operation, what it returned. *)
Definition fm_event : Type := nat * fm_op * option T.

Inductive fm_state :=
  | Running (m : FastMap T) (ths : list fm_thread) (log : list fm_event)
  | Aborted.

(** Thread [i] makes a step: it looks a key up, or makes the access of an
    operation, at [t]. *)
Definition fm_step (i : nat) (t : Z) (s : fm_state) : option fm_state :=
  match s with
  | Running m ths log =>
      match ths !! i with
      | Some (mkThread V None (o :: os)) =>
          match fm_find_ptr m (op_key o) with
          | Ok (Some p) => Some (Running m (<[i := mkThread V (Some p) (o :: os)]> ths) log)
          | _ => Some Aborted
          end
      | Some (mkThread V (Some p) (o :: os)) =>
          match access (op_access o t p V) m p with
          | Ok (Some (r, V', m')) => Some (Running m' (<[i := mkThread V' None os]> ths) (log ++ [(i, o, r)]))
          | Ok None => None
          | Err _ => Some Aborted
          end
      | _ => None
      end
  | Aborted => None
  end.

(** A run: which thread is next, and at which timestamp. Choices that are not
    possible are passed over. *)
Fixpoint fm_run (schedule : list (nat * Z)) (s : fm_state) : fm_state :=
  match schedule with
  | [] => s
  | (i, t) :: rest => fm_run rest (default s (fm_step i t s))
  end.

Definition fm_start m (progs : list (list fm_op)) : fm_state := Running m (mkThread ∅ None <$> progs) [].

(** ** The specification: one value, whose operations take no time *)

Definition effect (o : fm_op) (v : T) : option T * T :=
  match o with
  | Get _ => (Some v, v)
  | Set_ _ v' => (None, v')
  | Add _ delta => (None, plus v delta)
  end.

(** The events, one after the other, return what they say, and take the value
    from [v] to [v']. *)
Fixpoint replay (h : list fm_event) (v v' : T) : Prop :=
  match h with
  | [] => v' = v
  | (_, o, r) :: h' => r = fst (effect o v) /\ replay h' (snd (effect o v)) v'
  end.

(** The events at key [k], the operations of thread [i]. *)
Definition events_at (k : string) (log : list fm_event) : list fm_event := filter (fun e => op_key e.1.2 = k) log.
Definition done_by (i : nat) (log : list fm_event) : list fm_op :=
  (fun e => e.1.2) <$> filter (fun e => e.1.1 = i) log.

(** [v] is the last value at [k], in the order of modification. *)
Definition last_value m (k : string) (v : T) : Prop :=
  exists i s t x, fm_find_ptr m k = Ok (Some i) /\ slots_ m !! i = Some s /\ history (sl_value s) !! t = Some x /\
    m_value x = v /\ forall t', is_Some (history (sl_value s) !! t') -> t' <= t.
End FastMap.
Arguments fm_op T : clear implicits.
Arguments fm_event T : clear implicits.
Arguments fm_thread T : clear implicits.
Arguments fm_state T : clear implicits.

(** ** Lists in the order of their timestamps *)

Section Stamped.
Context {A : Type}.
Implicit Types (L : list (Z * A)) (x : Z * A).

Definition upto (c : Z) L : list (Z * A) := filter (fun x => x.1 <= c) L.
Definition after (c : Z) L : list (Z * A) := filter (fun x => c < x.1) L.
Definition between (t s : Z) L : list (Z * A) := filter (fun x => t < x.1 /\ x.1 <= s) L.
Definition in_order L : Prop := StronglySorted (fun x y => x.1 <= y.1) L.
(** [x] comes behind everything up to [c]. *)
Definition insert_at (c : Z) x L : list (Z * A) := upto c L ++ x :: after c L.

Lemma filter_none (P : Z * A -> Prop) `{!forall x, Decision (P x)} L : Forall (fun x => ~ P x) L -> filter P L = [].
Proof. induction 1 as [|x L Hx _ IH]; [done|]. by rewrite filter_cons_False. Qed.
Lemma filter_all (P : Z * A -> Prop) `{!forall x, Decision (P x)} L : Forall P L -> filter P L = L.
Proof. induction 1 as [|x L Hx _ IH]; [done|]. by rewrite filter_cons_True, IH. Qed.

Lemma in_order_split c L : in_order L -> L = upto c L ++ after c L.
Proof.
  unfold upto, after. induction 1 as [|x L _ IH Hx]; [done|]. destruct (decide (x.1 <= c)) as [Hc|Hc].
  - rewrite filter_cons_True, (filter_cons_False (fun x => c < x.1)) by (done || lia). cbn. by f_equal.
  - rewrite filter_cons_False, (filter_cons_True (fun x => c < x.1)) by (done || lia).
    rewrite filter_none; [|eapply Forall_impl; [exact Hx|]; cbn; lia]. cbn. f_equal.
    rewrite filter_all; [done|]. eapply Forall_impl; [exact Hx|]. cbn. lia.
Qed.
Lemma insert_at_perm c x L : in_order L -> insert_at c x L ≡ₚ x :: L.
Proof. intros HL. unfold insert_at. rewrite (in_order_split c L HL) at 3. by rewrite Permutation_middle. Qed.

Lemma in_order_app L L' : in_order L -> in_order L' -> (forall x y, x ∈ L -> y ∈ L' -> x.1 <= y.1) -> in_order (L ++ L').
Proof.
  intros HL HL'. induction HL as [|x L _ IH Hx]; intros H; [done|]. cbn. constructor.
  - apply IH. intros y z Hy Hz. apply H; [by right|done].
  - apply Forall_app. split; [done|]. apply Forall_forall. intros y Hy. apply H; [by left|done].
Qed.
Lemma in_order_filter (P : Z * A -> Prop) `{!forall x, Decision (P x)} L : in_order L -> in_order (filter P L).
Proof.
  induction 1 as [|x L HL IH Hx]; [constructor|]. rewrite filter_cons. case_decide; [|done]. constructor; [done|].
  apply Forall_forall. intros y [_ Hy]%list_elem_of_filter. rewrite Forall_forall in Hx. by apply Hx.
Qed.
Lemma insert_at_in_order c x L : in_order L -> c <= x.1 -> (forall y, y ∈ L -> c < y.1 -> x.1 <= y.1) -> in_order (insert_at c x L).
Proof.
  intros HL Hc Hy. apply in_order_app; [by apply in_order_filter| |].
  - constructor; [by apply in_order_filter|]. apply Forall_forall. intros y [H1 H2]%list_elem_of_filter. by apply Hy.
  - intros y z [Hyc _]%list_elem_of_filter [->|[Hzc _]%list_elem_of_filter]%elem_of_cons; cbn in *; lia.
Qed.

Lemma between_app t s L L' : between t s (L ++ L') = between t s L ++ between t s L'.
Proof. apply filter_app. Qed.
Lemma between_filter t s t' s' L (P : Z * A -> Prop) `{!forall x, Decision (P x)} :
  (forall x, (t < x.1 /\ x.1 <= s) /\ P x <-> t' < x.1 /\ x.1 <= s') -> between t s (filter P L) = between t' s' L.
Proof. intros HP. unfold between. rewrite list_filter_filter. apply list_filter_iff. exact HP. Qed.
Lemma between_upto t s c L : between t s (upto c L) = between t (Z.min s c) L.
Proof. apply between_filter. intros x. lia. Qed.
Lemma between_after t s c L : between t s (after c L) = between (Z.max t c) s L.
Proof. apply between_filter. intros x. lia. Qed.
Lemma between_split t s c L : in_order L -> between t s L = between t (Z.min s c) L ++ between (Z.max t c) s L.
Proof. intros HL. rewrite (in_order_split c L HL) at 1. by rewrite between_app, between_upto, between_after. Qed.
Lemma between_insert t s c x L : between t s (insert_at c x L) =
  between t (Z.min s c) L ++ (if decide (t < x.1 /\ x.1 <= s) then [x] else []) ++ between (Z.max t c) s L.
Proof.
  unfold insert_at. rewrite (cons_middle x), !between_app, between_upto, between_after. by do 2 f_equal.
Qed.
Lemma between_empty t s L : s <= t -> between t s L = [].
Proof. intros H. apply filter_none, Forall_forall. intros x _. lia. Qed.
Lemma between_all t s L : (forall x, x ∈ L -> t < x.1 /\ x.1 <= s) -> between t s L = L.
Proof. intros H. by apply filter_all, Forall_forall. Qed.
(** Nothing at the timestamps in between. *)
Lemma between_widen t t' s s' L : t <= t' -> s' <= s -> (forall x, x ∈ L -> t < x.1 <= s -> t' < x.1 <= s') ->
  between t s L = between t' s' L.
Proof.
  intros Ht Hs H. unfold between. induction L as [|x L IH]; [done|].
  rewrite !filter_cons, IH by (intros y Hy; apply H; by right).
  specialize (H x (list_elem_of_here _ _)). repeat case_decide; (done || lia).
Qed.
Lemma insert_at_filter c x L (P : A -> Prop) `{!forall a, Decision (P a)} : in_order L ->
  (forall y, y ∈ L -> P y.2 -> y.1 <= c) -> P x.2 ->
  filter P (snd <$> insert_at c x L) = filter P (snd <$> L) ++ [x.2].
Proof.
  intros HL Hc Hx. unfold insert_at. rewrite (in_order_split c L HL) at 3. rewrite !fmap_app, fmap_cons, !filter_app.
  rewrite (filter_cons_True _ x.2) by done.
  assert (filter P (snd <$> after c L) = []) as ->.
  { enough (Forall (fun a => ~ P a) (snd <$> after c L)) as Hn.
    { revert Hn. generalize (snd <$> after c L). induction 1 as [|a l Ha _ IH]; [done|]. by rewrite filter_cons_False. }
    apply Forall_fmap, Forall_forall. intros y [H1 H2]%list_elem_of_filter Hy. specialize (Hc y H2 Hy). cbn in *. lia. }
  by rewrite app_nil_r.
Qed.
Lemma insert_at_filter_out c x L (P : A -> Prop) `{!forall a, Decision (P a)} : in_order L -> ~ P x.2 ->
  filter P (snd <$> insert_at c x L) = filter P (snd <$> L).
Proof.
  intros HL Hx. unfold insert_at. rewrite (in_order_split c L HL) at 3. rewrite !fmap_app, fmap_cons, !filter_app.
  by rewrite (filter_cons_False _ x.2).
Qed.
End Stamped.

(** ** The order of the accesses to one object *)

Section Coherence.
Context {T : Type} (plus : T -> T -> T) (zero : T).
Implicit Types (a : atomic T) (e : fm_event T) (L : list (Z * fm_event T)).
Abbreviation run t s L := (snd <$> between t s L).

Lemma replay_app h h' v v' : replay plus (h ++ h') v v' <-> exists u, replay plus h v u /\ replay plus h' u v'.
Proof.
  revert v. induction h as [|[[i o] r] h IH]; intros v; cbn.
  - split; [intros H; by exists v|by intros (u & -> & H)].
  - rewrite IH. split; [intros (? & u & ? & ?); by exists u|intros (u & (? & ?) & ?); split; [done|by exists u]].
Qed.
Lemma replay_fun h v u u' : replay plus h v u -> replay plus h v u' -> u' = u.
Proof. revert v. induction h as [|[[i o] r] h IH]; intros v; cbn; [by intros -> ->|intros (_ & H) (_ & H'); by eapply IH]. Qed.

(** From where the value is known: before all events, or from a timestamp that
    is free, which no [fetch_add] has read. *)
Definition begins a (t : Z) (v : T) : Prop := (t = -1 /\ v = zero) \/ (0 <= t /\ history a !! t = None).

(** The events at an object, by their timestamps, explain its history. *)
Record explains L a : Prop := {
  ex_order : in_order L;
  ex_zero : is_Some (history a !! 0);
  ex_stamps t x : history a !! t = Some x -> 0 <= t;
  ex_events x : x ∈ L -> is_Some (history a !! x.1);
  ex_values t s v : begins a t v -> exists u, replay plus (run t s L) v u /\
    forall x, history a !! s = Some x -> t < s -> u = m_value x
}.

Lemma explains_make : explains [] (atomic_make zero).
Proof.
  split; cbn.
  - constructor.
  - rewrite lookup_singleton_eq. by eexists.
  - intros t x [<- _]%lookup_singleton_Some. done.
  - by intros x ?%elem_of_nil.
  - intros t s v Hb. exists v. split; [done|]. intros x [<- <-]%lookup_singleton_Some Hs.
    destruct Hb as [[_ ->]|[? _]]; [done|lia].
Qed.

Lemma explains_bound L a x : explains L a -> x ∈ L -> 0 <= x.1.
Proof. intros HL Hx. destruct (ex_events _ _ HL x Hx) as [y Hy]. by eapply ex_stamps. Qed.

(** A load. *)
Lemma explains_load L a t x e : explains L a -> history a !! t = Some x -> (forall v, replay plus [e] (m_value x) v <-> v = m_value x) ->
  explains (insert_at t (t, e) L) a.
Proof.
  intros HL Hx He. pose proof (ex_order _ _ HL) as Ho. split.
  - apply insert_at_in_order; [done|cbn; lia|]. intros y _ Hy. cbn. lia.
  - apply HL.
  - apply HL.
  - intros y Hy. rewrite (insert_at_perm t (t, e) L Ho) in Hy. apply elem_of_cons in Hy as [->|Hy]; [by exists x|by apply HL].
  - intros t0 s v Hb. destruct (ex_values _ _ HL t0 s v Hb) as (u & Hu & Hs). exists u. split; [|done].
    rewrite between_insert. cbn [fst]. case_decide as Hc.
    + rewrite (between_split t0 s t L Ho) in Hu. rewrite fmap_app in Hu. apply replay_app in Hu as (w & Hw & Hu).
      rewrite fmap_app. apply replay_app. exists w. split; [done|]. rewrite fmap_app. apply replay_app. exists w. split; [|done].
      rewrite Z.min_r in Hw by lia. destruct (ex_values _ _ HL t0 t v Hb) as (w' & Hw' & Hval).
      assert (w = m_value x) as -> by (rewrite (replay_fun _ _ _ _ Hw' Hw); apply Hval; [done|lia]). by apply He.
    + rewrite app_nil_l, <- between_split by done. exact Hu.
Qed.

(** A write: the value it leaves is that of the event, run from the value
    before it, which matters if the event reads it. *)
Lemma explains_write L a t x e : explains L a -> 0 <= t -> history a !! t = None ->
  (forall t0 v u, begins a t0 v -> t0 < t -> (history a !! t0 = None) -> replay plus (run t0 (t - 1) L) v u -> replay plus [e] u (m_value x)) ->
  explains (insert_at (t - 1) (t, e) L) (Atomic (<[t := x]> (history a))).
Proof.
  intros HL Ht Hnone He. pose proof (ex_order _ _ HL) as Ho.
  assert (forall y, y ∈ L -> y.1 <> t) as Hne by (intros y Hy E; destruct (ex_events _ _ HL y Hy); congruence).
  assert (history a !! (-1) = None) as Hm1 by (destruct (history a !! (-1)) eqn:E; [apply (ex_stamps _ _ HL) in E; lia|done]).
  split; cbn [history].
  - apply insert_at_in_order; [done|cbn; lia|]. intros y Hy Hyt. cbn. lia.
  - destruct (ex_zero _ _ HL) as [y Hy]. rewrite lookup_insert_ne by congruence. by exists y.
  - intros s y. rewrite lookup_insert_Some. intros [[<- _]|[_ Hy]]; [done|by eapply ex_stamps].
  - intros y Hy. rewrite (insert_at_perm (t - 1) (t, e) L Ho) in Hy. apply elem_of_cons in Hy as [->|Hy].
    + rewrite lookup_insert_eq. by eexists.
    + rewrite lookup_insert_ne by (by apply not_eq_sym, Hne). by apply HL.
  - intros t0 s v Hb. cbn [history begins] in *. unfold begins in Hb. cbn [history] in Hb.
    assert (begins a t0 v /\ t0 <> t /\ history a !! t0 = None) as (Hb0 & Ht0 & Hn0).
    { destruct Hb as [[-> ->]|[H1 H2]]; [split; [by left|]; split; [lia|done]|].
      rewrite lookup_insert_None in H2. destruct H2 as [H2 H3]. split; [by right|]. by split. }
    destruct (ex_values _ _ HL t0 s v Hb0) as (u & Hu & Hs).
    rewrite between_insert. cbn [fst]. case_decide as Hc.
    + destruct (ex_values _ _ HL t0 (t - 1) v Hb0) as (w & Hw & _). rewrite Z.min_r, Z.max_r by lia.
      destruct (ex_values _ _ HL t s (m_value x)) as (u' & Hu' & Hs'); [by right|].
      exists u'. split.
      * rewrite fmap_app. apply replay_app. exists w. split; [done|]. rewrite fmap_app. apply replay_app.
        exists (m_value x). split; [by apply (He t0 v w); [|lia|..]|].
        rewrite (between_widen (t - 1) t s s) by (lia || (intros y Hy; specialize (Hne y Hy); lia)). done.
      * intros y. rewrite lookup_insert_Some. intros [[<- <-]|[_ Hy]] Hlt.
        -- rewrite between_empty in Hu' by lia. by cbn in Hu'.
        -- apply Hs'; [done|]. assert (s <> t) by (intros ->; congruence). lia.
    + exists u. split.
      * rewrite app_nil_l, <- between_split by done. done.
      * intros y. rewrite lookup_insert_Some. intros [[<- _]|[_ Hy]]; [lia|by apply Hs].
Qed.

Lemma explains_store L a t v i : explains L a -> 0 <= t -> history a !! t = None -> forall V k,
  explains (insert_at (t - 1) (t, (i, Set_ k v, None)) L) (Atomic (<[t := Message v V]> (history a))).
Proof. intros HL Ht Hn V k. apply explains_write; [done..|]. by intros t0 w u _ _ _ _. Qed.

Lemma explains_add L a t x d i k V : explains L a -> history a !! t = Some x -> history a !! (t + 1) = None ->
  explains (insert_at t (t + 1, (i, Add k d, None)) L) (Atomic (<[t + 1 := Message (plus (m_value x) d) V]> (history a))).
Proof.
  intros HL Hx Hn. pose proof (ex_stamps _ _ HL t x Hx) as Ht.
  replace t with (t + 1 - 1) at 1 by lia. apply explains_write; [done|lia|done|].
  intros t0 v u Hb Hlt Hn0 Hu. replace (t + 1 - 1) with t in Hu by lia.
  destruct (ex_values _ _ HL t0 t v Hb) as (w & Hw & Hval). rewrite (replay_fun _ _ _ _ Hw Hu).
  rewrite (Hval x Hx) by (assert (t0 <> t) by (intros ->; congruence); lia). done.
Qed.

(** All of it, up to the last value. *)
Lemma explains_last L a t x : explains L a -> history a !! t = Some x -> (forall t', is_Some (history a !! t') -> t' <= t) ->
  replay plus (snd <$> L) zero (m_value x).
Proof.
  intros HL Hx Hlast. destruct (ex_values _ _ HL (-1) t zero) as (u & Hu & Hs); [by left|].
  pose proof (ex_stamps _ _ HL t x Hx). rewrite between_all in Hu.
  - rewrite <- (Hs x Hx ltac:(lia)). exact Hu.
  - intros y Hy. pose proof (explains_bound L a y HL Hy). split; [lia|]. apply Hlast. by apply HL.
Qed.
End Coherence.

(** ** Runs *)

Section Runs.
Context {T : Type} (zero : T) (plus : T -> T -> T).
Implicit Types (m : FastMap T) (o : fm_op T) (log : list (fm_event T)) (ths : list (fm_thread T)).

Lemma seen_insert V i t j : seen V i <= t -> seen V j <= seen (<[i := t]> V) j.
Proof.
  intros Ht. unfold seen in *. destruct (decide (i = j)) as [->|Hne]; [rewrite lookup_insert_eq; cbn; lia|].
  rewrite lookup_insert_ne by done. lia.
Qed.
Lemma seen_insert_eq V i t : t <= seen (<[i := t]> V) i.
Proof. unfold seen. rewrite lookup_insert_eq. cbn. lia. Qed.
Lemma seen_join V W j : seen V j <= seen (join V W) j.
Proof. unfold seen, join. rewrite lookup_union_with. destruct (V !! j), (W !! j); cbn; lia. Qed.
Lemma seen_nonneg V j : 0 <= seen V j.
Proof. unfold seen. lia. Qed.

Lemma access_mono a o t i V r V' a' : op_access plus o t i V a = Some (r, V', a') -> forall q, seen V q <= seen V' q.
Proof.
  destruct o as [k|k v|k d]; cbn [op_access].
  - unfold load. destruct (history a !! t); [|done]. cbn. destruct (Z.leb_spec (seen V i) t); [|done].
    intros [= _ <- _] q. etrans; [by apply seen_insert|apply seen_join].
  - unfold store_value. destruct (Z.ltb_spec (seen V i) t); [|done]. case_bool_decide; [|done].
    intros [= _ <- _] q. apply seen_insert. lia.
  - unfold fetch_add. destruct (history a !! t); [|done]. cbn. destruct (Z.leb_spec (seen V i) t); [|done].
    case_bool_decide; [|done]. intros [= _ <- _] q. apply seen_insert. lia.
Qed.

(** An access finds its place among the events: behind all that the thread
    knows of. *)
Lemma access_explains L a o t i V r V' a' j : explains plus zero L a -> op_access plus o t i V a = Some (r, V', a') ->
  exists c t', explains plus zero (insert_at c (t', (j, o, r)) L) a' /\ seen V i <= c /\ t' <= seen V' i.
Proof.
  intros HL. destruct o as [k|k v|k d]; cbn [op_access].
  - unfold load. destruct (history a !! t) as [x|] eqn:Ex; [|done]. cbn [mbind option_bind].
    destruct (Z.leb_spec (seen V i) t) as [Hv|]; [|done]. intros [= <- <- <-]. exists t, t. split_and!.
    + eapply explains_load; [done|exact Ex|]. intros u. cbn. by split; [intros (_ & ->)|intros ->].
    + done.
    + etrans; [apply seen_insert_eq|apply seen_join].
  - unfold store_value. destruct (Z.ltb_spec (seen V i) t) as [Hv|]; [|done]. case_bool_decide as Hn; [|done].
    intros [= <- <- <-]. exists (t - 1), t. pose proof (seen_nonneg V i). split_and!.
    + apply explains_store; [done|lia|done].
    + lia.
    + apply seen_insert_eq.
  - unfold fetch_add. destruct (history a !! t) as [x|] eqn:Ex; [|done]. cbn [mbind option_bind].
    destruct (Z.leb_spec (seen V i) t) as [Hv|]; [|done]. case_bool_decide as Hn; [|done].
    intros [= <- <- <-]. exists t, (t + 1). split_and!.
    + by eapply explains_add.
    + done.
    + apply seen_insert_eq.
Qed.

Lemma find_ptr_access m i a k : fm_find_ptr (set_slot_value m i a) k = fm_find_ptr m k.
Proof.
  unfold fm_find_ptr, fm_probe, Slot, FastMap. rewrite probe_set_slot_value. destruct (probe m k) as [j|]; [|done].
  cbn [mbind res_bind]. rewrite lookup_set_slot_value. case_decide as E; [|done]. subst j.
  by destruct (slots_ m !! i).
Qed.

(** A key has its own slot. *)
Lemma find_ptr_inj m k k' i : wf m -> fm_find_ptr m k = Ok (Some i) -> fm_find_ptr m k' = Ok (Some i) -> k = k'.
Proof.
  intros Hwf H1 H2. change (find_ptr m k = Ok (Some i)) in H1. change (find_ptr m k' = Ok (Some i)) in H2.
  destruct (find_ptr_spec m k Hwf) as [(i1 & s1 & F1 & S1 & _ & K1)|[F1 _]]; [|congruence].
  destruct (find_ptr_spec m k' Hwf) as [(i2 & s2 & F2 & S2 & _ & K2)|[F2 _]]; congruence.
Qed.

(** The events at key [k] have an order that explains its value. *)
Definition ordered (k : string) m ths log : Prop := exists i s L,
  fm_find_ptr m k = Ok (Some i) /\ slots_ m !! i = Some s /\ explains plus zero L (sl_value s) /\
  snd <$> L ≡ₚ events_at k log /\
  (forall j, filter (fun e => e.1.1 = j) (snd <$> L) = filter (fun e => e.1.1 = j) (events_at k log)) /\
  forall x, x ∈ L -> exists th, ths !! x.2.1.1 = Some th /\ x.1 <= seen (th_view th) i.

Definition th_ok m (th : fm_thread T) : Prop :=
  match th_slot th with
  | None => True
  | Some p => exists o os, th_ops th = o :: os /\ fm_find_ptr m (op_key o) = Ok (Some p)
  end.

Record run_inv (keys : list string) (progs : list (list (fm_op T))) m ths log : Prop := {
  ri_wf : wf m;
  ri_keys k : k ∈ keys <-> exists i, fm_find_ptr m k = Ok (Some i);
  ri_threads : Forall (th_ok m) ths;
  ri_ordered k : k ∈ keys -> ordered k m ths log;
  ri_programs i prog : progs !! i = Some prog -> exists th, ths !! i = Some th /\ prog = done_by i log ++ th_ops th;
  ri_length : length ths = length progs;
  ri_ids e : e ∈ log -> (e.1.1 < length progs)%nat
}.

(** A thread whose view grows keeps what was ordered. *)
Lemma ordered_threads k m ths log i th th' : ordered k m ths log -> ths !! i = Some th ->
  (forall q, seen (th_view th) q <= seen (th_view th') q) -> ordered k m (<[i := th']> ths) log.
Proof.
  intros (p & s & L & Hp & Hs & HL & Hperm & Hby & Hseen) Hi Hv. exists p, s, L. split_and!; try done.
  intros [tx [[j o] r]] Hx. destruct (Hseen _ Hx) as (thx & Hth & Hle). cbn [fst snd] in *. destruct (decide (i = j)) as [<-|Hne].
  - exists th'. assert (thx = th) as -> by congruence. split; [by apply list_lookup_insert_eq, (lookup_lt_Some _ _ _ Hi)|].
    specialize (Hv p). lia.
  - exists thx. by rewrite list_lookup_insert_ne.
Qed.

Lemma events_at_snoc k log e : events_at k (log ++ [e]) = events_at k log ++ (if decide (op_key e.1.2 = k) then [e] else []).
Proof. unfold events_at. by rewrite filter_app. Qed.
Lemma done_by_snoc i (log : list (fm_event T)) e :
  done_by i (log ++ [e]) = done_by i log ++ (if decide (e.1.1 = i) then [e.1.2] else []).
Proof. unfold done_by. rewrite filter_app, fmap_app. f_equal. unfold filter. cbn. by case_decide. Qed.

Lemma ordered_access k m ths log i V os o p s a' t r V' :
  wf m -> ordered k m ths log -> ths !! i = Some (mkThread V (Some p) (o :: os)) ->
  fm_find_ptr m (op_key o) = Ok (Some p) -> slots_ m !! p = Some s -> op_access plus o t p V (sl_value s) = Some (r, V', a') ->
  ordered k (set_slot_value m p a') (<[i := mkThread V' None os]> ths) (log ++ [(i, o, r)]).
Proof.
  intros Hwf (q & sq & L & Hq & Hsq & HL & Hperm & Hby & Hseen) Hi Hf Hs Ha.
  destruct (decide (op_key o = k)) as [E|E].
  - assert (q = p) as -> by (rewrite E in Hf; congruence). assert (sq = s) as -> by congruence.
    destruct (access_explains L (sl_value s) o t p V r V' a' i HL Ha) as (c & t' & HL' & Hc & Ht'). pose proof (access_mono _ _ _ _ _ _ _ _ Ha) as Hmono.
    pose proof (ex_order _ _ _ _ HL) as Ho.
    exists p, (mkSlot (sl_key s) (sl_len s) (sl_fp s) a'), (insert_at c (t', (i, o, r)) L). split_and!.
    + by rewrite find_ptr_access.
    + rewrite lookup_set_slot_value, decide_True by done. by rewrite Hs.
    + exact HL'.
    + rewrite events_at_snoc. cbn [fst snd]. rewrite decide_True by done. rewrite (insert_at_perm c _ L Ho), fmap_cons, Hperm.
      by rewrite Permutation_cons_append.
    + intros j. rewrite events_at_snoc. cbn [fst snd]. rewrite decide_True by done. rewrite filter_app, <- Hby.
      rewrite filter_cons. cbn [fst snd]. case_decide as Ej.
      * apply (insert_at_filter c (t', (i, o, r)) L (fun e => e.1.1 = j) Ho); [|done]. intros [ty [[j' o'] r']] Hy Hyj.
        destruct (Hseen _ Hy) as (th & Hth & Hle). cbn [fst snd] in *. subst j'. assert (th = mkThread V (Some p) (o :: os)) as -> by congruence. cbn in Hle. lia.
      * rewrite filter_nil, app_nil_r. by apply (insert_at_filter_out c (t', (i, o, r)) L (fun e => e.1.1 = j) Ho).
    + intros [tx [[j o'] r']] Hx. rewrite (insert_at_perm c _ L Ho) in Hx. apply elem_of_cons in Hx as [[= -> -> -> ->]|Hx]; cbn [fst snd].
      * eexists. split; [by apply list_lookup_insert_eq, (lookup_lt_Some _ _ _ Hi)|done].
      * destruct (Hseen _ Hx) as (th & Hth & Hle). cbn [fst snd] in *. destruct (decide (i = j)) as [<-|Hne].
        -- eexists. split; [by apply list_lookup_insert_eq, (lookup_lt_Some _ _ _ Hi)|].
           assert (th = mkThread V (Some p) (o :: os)) as -> by congruence. cbn in *. specialize (Hmono p). lia.
        -- exists th. by rewrite list_lookup_insert_ne.
  - assert (q <> p) as Hqp by (intros ->; apply E; by eapply find_ptr_inj).
    assert (forall w, seen V w <= seen V' w) as Hmono by by eapply access_mono.
    destruct (ordered_threads k m ths log i _ (mkThread V' None os)
      ltac:(by exists q, sq, L) Hi Hmono) as (q' & s' & L' & Hq' & Hs' & HL' & Hp' & Hb' & Hv').
    assert (q' = q) as -> by congruence. exists q, s', L'. split_and!; try done.
    + by rewrite find_ptr_access.
    + by rewrite lookup_set_slot_value, decide_False.
    + rewrite events_at_snoc. cbn [fst snd]. by rewrite decide_False, app_nil_r.
    + intros j. rewrite events_at_snoc. cbn [fst snd]. by rewrite decide_False, app_nil_r.
Qed.

Lemma step_inv keys progs m ths log i t s : run_inv keys progs m ths log -> fm_step plus i t (Running m ths log) = Some s ->
  match s with
  | Running m' ths' log' => run_inv keys progs m' ths' log'
  | Aborted => exists i prog o, progs !! i = Some prog /\ o ∈ prog /\ op_key o ∉ keys
  end.
Proof.
  intros [Hwf Hkeys Hths Hord Hprog Hlen Hids]. cbn [fm_step]. destruct (ths !! i) as [[V sl ops]|] eqn:Hi; [|done].
  assert (is_Some (progs !! i)) as [prog Hp] by (apply lookup_lt_is_Some; rewrite <- Hlen; by eapply lookup_lt_Some).
  destruct (Hprog i prog Hp) as (th & Hth & Eprog). assert (th = mkThread V sl ops) as -> by congruence. cbn [th_ops] in Eprog.
  destruct sl as [p|], ops as [|o os]; try done.
  - pose proof (Forall_lookup_1 _ _ _ _ Hths Hi) as (o' & os' & Eo & Hf). injection Eo as <- <-.
    destruct (find_ptr_spec m (op_key o) Hwf) as [(j & sj & Fj & Sj & _)|[Fj _]];
      change (find_ptr m (op_key o)) with (fm_find_ptr m (op_key o)) in Fj; [|congruence].
    assert (j = p) as -> by congruence. unfold access. rewrite (get_slot_Ok m p sj Sj). cbn [mbind res_bind].
    destruct (op_access plus o t p V (sl_value sj)) as [[[r V'] a']|] eqn:Ea; [|done]. cbn [mbind option_bind].
    intros [= <-]. split.
    + by apply wf_set_slot_value.
    + intros k. rewrite Hkeys. split; intros [q Hq]; exists q; by rewrite find_ptr_access in *.
    + apply Forall_insert; [|done]. eapply Forall_impl; [exact Hths|]. intros th. unfold th_ok.
      destruct (th_slot th); [|done]. intros (o2 & os2 & ? & ?). exists o2, os2. by rewrite find_ptr_access.
    + intros k Hk. by eapply ordered_access; [|apply Hord|..].
    + intros q pr Hq. rewrite done_by_snoc. cbn [fst snd]. destruct (decide (i = q)) as [<-|Hne].
      * eexists. split; [by apply list_lookup_insert_eq, (lookup_lt_Some _ _ _ Hi)|]. cbn [th_ops].
        rewrite <- app_assoc. cbn. congruence.
      * rewrite list_lookup_insert_ne, app_nil_r by done. by apply Hprog.
    + by rewrite length_insert.
    + intros e [He| ->%list_elem_of_singleton]%elem_of_app; [by apply Hids|]. cbn. rewrite <- Hlen. by eapply lookup_lt_Some.
  - destruct (fm_find_ptr m (op_key o)) as [[p|]|] eqn:Hf; intros [= <-].
    + split; try done.
      * apply Forall_insert; [done|]. by exists o, os.
      * intros k Hk. eapply ordered_threads; [by apply Hord|exact Hi|done].
      * intros q pr Hq. destruct (decide (i = q)) as [<-|Hne].
        -- eexists. split; [by apply list_lookup_insert_eq, (lookup_lt_Some _ _ _ Hi)|]. cbn [th_ops]. congruence.
        -- rewrite list_lookup_insert_ne by done. by apply Hprog.
      * by rewrite length_insert.
    + exists i, prog, o. split; [done|]. split; [rewrite Eprog; apply elem_of_app; right; by left|].
      rewrite Hkeys. intros [q Hq]. congruence.
    + exfalso. destruct (find_ptr_spec m (op_key o) Hwf) as [(j & sj & Fj & _)|[Fj _]];
        change (find_ptr m (op_key o)) with (fm_find_ptr m (op_key o)) in Fj; congruence.
Qed.

Lemma run_aborted schedule : fm_run plus schedule Aborted = Aborted.
Proof. by induction schedule as [|[i t] l IH]. Qed.

Lemma run_inv_run keys progs schedule : forall m ths log, run_inv keys progs m ths log ->
  match fm_run plus schedule (Running m ths log) with
  | Running m' ths' log' => run_inv keys progs m' ths' log'
  | Aborted => exists i prog o, progs !! i = Some prog /\ o ∈ prog /\ op_key o ∉ keys
  end.
Proof.
  induction schedule as [|[i t] rest IH]; intros m ths log Hinv; [done|]. cbn [fm_run].
  destruct (fm_step plus i t (Running m ths log)) as [s|] eqn:E; [|by apply IH]. cbn [default from_option id].
  apply (step_inv _ _ _ _ _ _ _ _ Hinv) in E. destruct s as [m1 ths1 log1|]; [by apply IH|]. by rewrite run_aborted.
Qed.

Lemma start_inv keys m progs : keys_ok keys -> fm_make zero keys = Ok m ->
  run_inv keys progs m (mkThread ∅ None <$> progs) [].
Proof.
  intros Hok Hm. destruct (make_built _ _ _ Hok Hm) as (Hwf & Hk & Hd).
  assert (forall k, k ∈ keys <-> exists i, fm_find_ptr m k = Ok (Some i)) as Hkeys.
  { intros k. rewrite <- Hk. destruct (find_ptr_spec m k Hwf) as [(i & s & Hf & Hs & Ho & E)|[Hf Hn]].
    - split; [by exists i|]. intros _. by exists i, s.
    - split; [done|]. intros [i Hi]. change (find_ptr m k = Ok (Some i)) in Hi. congruence. }
  split; try done.
  - by apply Forall_fmap, Forall_true.
  - intros k [i Hi]%Hkeys. destruct (find_ptr_spec m k Hwf) as [(j & s & Hf & Hs & Ho & E)|[Hf _]];
      change (find_ptr m k) with (fm_find_ptr m k) in Hf; [|congruence].
    exists j, s, []. split_and!; try done.
    + assert (sl_value s = atomic_make zero) as -> by (by eapply Hd). apply explains_make.
    + by intros x ?%elem_of_nil.
  - intros i prog Hi. exists (mkThread ∅ None prog). by rewrite list_lookup_fmap, Hi.
  - by rewrite length_fmap.
  - by intros e ?%elem_of_nil.
Qed.

(** What an order says at the end. *)
Lemma ordered_last keys progs m ths log k v : run_inv keys progs m ths log -> k ∈ keys -> last_value m k v ->
  exists h, h ≡ₚ events_at k log /\ (forall j, done_by j h = done_by j (events_at k log)) /\ replay plus h zero v.
Proof.
  intros Hinv Hk (i & s & t & x & Hi & Hs & Hx & <- & Hlast).
  destruct (ri_ordered _ _ _ _ _ Hinv k Hk) as (j & sj & L & Hj & Hsj & HL & Hperm & Hby & _).
  assert (j = i) as -> by congruence. assert (sj = s) as -> by congruence.
  exists (snd <$> L). split; [done|]. split; [|by eapply explains_last]. intros q. unfold done_by. by rewrite Hby.
Qed.
Lemma last_value_exists keys progs m ths log k : run_inv keys progs m ths log -> k ∈ keys -> exists v, last_value m k v.
Proof.
  intros Hinv Hk. destruct (ri_ordered _ _ _ _ _ Hinv k Hk) as (i & s & L & Hi & Hs & HL & _).
  destruct (ex_zero _ _ _ _ HL) as [x0 Hx0].
  assert (forall l : list Z, (forall t, t ∈ l -> is_Some (history (sl_value s) !! t)) ->
    exists t, is_Some (history (sl_value s) !! t) /\ forall t', t' ∈ l -> t' <= t) as Hmax.
  { induction l as [|t l IH]; intros Hl; [exists 0; split; [by eexists|by intros ? ?%elem_of_nil]|].
    destruct IH as (u & Hu & Hmax); [intros; apply Hl; by right|]. destruct (Z.le_gt_cases t u).
    - exists u. split; [done|]. intros t' [->|Ht']%elem_of_cons; [done|by apply Hmax].
    - exists t. split; [apply Hl; by left|]. intros t' [->|Ht']%elem_of_cons; [lia|]. specialize (Hmax _ Ht'). lia. }
  destruct (Hmax (elements (dom (history (sl_value s))))) as (t & [x Hx] & Hle).
  { intros t Ht%elem_of_elements. by apply elem_of_dom. }
  exists (m_value x), i, s, t, x. split_and!; try done. intros t' Ht'. by apply Hle, elem_of_elements, elem_of_dom.
Qed.
End Runs.

(** C38: threads that share a map see, at each key, one sequence of operations.
    Take a map made of a set of service names and any threads that get, set
    and add on it, whatever the memory model lets each access read: at each
    key the accesses that were made have one order, which keeps the order of
    every thread's program and in which each returns, and the last leaves,
    what the operations do one after the other on a value that starts at
    zero; so no addition is lost. Nothing is said of accesses to different
    keys, which threads may see in different orders. Each thread made the
    accesses of its program, in their order; and the process aborts only
    where a program names a key the map was not made of. *)
Theorem fastmap_coherent {T} (zero : T) plus keys m progs schedule :
  keys_ok keys -> fm_make zero keys = Ok m ->
  match fm_run plus schedule (fm_start m progs) with
  | Running m' ths log =>
      (forall k, k ∈ keys -> exists v, last_value m' k v) /\
      (forall k v, k ∈ keys -> last_value m' k v ->
        exists h, h ≡ₚ events_at k log /\ (forall i, done_by i h = done_by i (events_at k log)) /\ replay plus h zero v) /\
      forall i prog, progs !! i = Some prog -> exists th, ths !! i = Some th /\ prog = done_by i log ++ th_ops th
  | Aborted => exists i prog o, progs !! i = Some prog /\ o ∈ prog /\ op_key o ∉ keys
  end.
Proof.
  intros Hok Hm. pose proof (run_inv_run zero plus keys progs schedule _ _ _ (start_inv zero plus keys m progs Hok Hm)) as H.
  unfold fm_start. destruct (fm_run plus schedule _) as [m' ths log|]; [|done]. split; [|split].
  - intros k Hk. by eapply last_value_exists.
  - intros k v Hk Hv. by eapply ordered_last.
  - by apply H.
Qed.

Definition ex_fast : FastMap Z := Eval vm_compute in
  match fm_make 0 ex_keys with Ok m => m | Err _ => mkLocalMap [] 0 0 0 end.

(** Each of two threads sets its key and then reads that of the other: both
    may read zero. *)
Definition ex_buffering : list (list (fm_op Z)) := [[Set_ "geo" 1; Get "users"]; [Set_ "users" 1; Get "geo"]]%string.
Definition ex_schedule : list (nat * Z) := [(0%nat, 0); (0%nat, 1); (1%nat, 0); (1%nat, 1); (0%nat, 0); (0%nat, 0); (1%nat, 0); (1%nat, 0)].
Definition ex_buffered : list (fm_event Z) :=
  [(0%nat, Set_ "geo" 1, None); (1%nat, Set_ "users" 1, None); (0%nat, Get "users", Some 0); (1%nat, Get "geo", Some 0)]%string.

Lemma ex_buffering_run : exists m ths, fm_run (fun a b => a + b) ex_schedule (fm_start ex_fast ex_buffering) =
    Running m ths ex_buffered /\
  last_value m "geo" 1.
Proof.
  eexists _, _. split; [vm_compute; reflexivity|]. eexists 0%nat, _, 1, _.
  split; [vm_compute; reflexivity|]. split; [reflexivity|]. split; [reflexivity|]. split; [reflexivity|].
  intros t Ht. change (is_Some ((<[1 := Message 1 {[0%nat := 1]}]> {[0 := Message 0 ∅]} : gmap Z (message Z)) !! t)) in Ht.
  destruct Ht as [x Hx]. rewrite lookup_insert_Some, lookup_singleton_Some in Hx. lia.
Qed.

Lemma fastmap_coherent_witness : exists m ths h,
  fm_run (fun a b => a + b) ex_schedule (fm_start ex_fast ex_buffering) =
    Running m ths ex_buffered /\
  h ≡ₚ [(0%nat, Set_ "geo" 1, None); (1%nat, Get "geo", Some 0)]%string /\ replay (fun a b => a + b) h 0 1.
Proof.
  destruct ex_buffering_run as (m & ths & E & Hl).
  pose proof (fastmap_coherent 0 (fun a b => a + b) ex_keys ex_fast ex_buffering ex_schedule ex_keys_ok ltac:(by vm_compute)) as H.
  rewrite E in H. destruct H as (_ & H & _). destruct (H "geo"%string 1) as (h & Hp & _ & Hr); [by apply (bool_decide_unpack _)|exact Hl|].
  exists m, ths, h. split; [exact E|]. split; [exact Hp|exact Hr].
Defined.

(** What a thread publishes by a release store is seen by those that acquire
    it: a thread that loads the value knows of all that the storing thread
    knew of. *)
Lemma store_publishes {T} (v : T) t i V a V' a' W x W' :
  store_value v t i V a = Some (V', a') -> load t i W a' = Some (x, W') -> x = v /\ forall j, seen V j <= seen W' j.
Proof.
  unfold store_value, load. destruct (Z.ltb_spec (seen V i) t) as [Hv|]; [|done]. case_bool_decide as Hn; [|done].
  intros [= <- <-]. cbn [history]. rewrite lookup_insert_eq. cbn [mbind option_bind m_value m_view].
  destruct (Z.leb_spec (seen W i) t) as [Hw|]; [|done]. intros [= <- <-]. split; [done|]. intros j.
  etrans; [apply (seen_insert V i t j); lia|]. unfold seen, join. rewrite lookup_union_with.
  destruct (<[i:=t]> W !! j), (<[i:=t]> V !! j); cbn; lia.
Qed.

(** ** Counters *)

(** [fetch_add] of a [std::atomic<uint64_t>]. *)
Definition plus_u64 (a b : Z) : Z := u64 (a + b).

(** What operations add to a key. *)
Definition added_by (k : string) (o : fm_op Z) : Z :=
  match o with Add k' d => if decide (k' = k) then d else 0 | _ => 0 end.
Definition added_in (k : string) (os : list (fm_op Z)) : Z := foldr (fun o n => added_by k o + n) 0 os.
Definition only_adds (o : fm_op Z) : Prop := match o with Add _ _ => True | _ => False end.
Definition sum_over (f : nat -> Z) (l : list nat) : Z := foldr (fun i n => f i + n) 0 l.
Abbreviation ops h := ((fun e : fm_event Z => e.1.2) <$> h).

Lemma replay_adds k h : forall v v', replay plus_u64 h v v' -> Forall (fun e => only_adds e.1.2 /\ op_key e.1.2 = k) h -> u64 v = v ->
  v' = u64 (v + added_in k (ops h)).
Proof.
  induction h as [|[[i o] r] h IH]; intros v v' Hr Hadd Hv; [cbn in *; by rewrite Z.add_0_r, Hv|].
  apply Forall_cons in Hadd as ([Ho Hk] & Hadd). destruct o as [| |k' d]; try done. cbn in Hk. subst k'.
  destruct Hr as (_ & Hr). rewrite (IH _ _ Hr Hadd) by apply wrap_wrap. cbn. rewrite decide_True by done.
  unfold plus_u64, wrap. rewrite Z.add_mod_idemp_l by done. f_equal. unfold added_in. lia.
Qed.

Lemma added_in_perm k (h h' : list (fm_event Z)) : h ≡ₚ h' -> added_in k (ops h) = added_in k (ops h').
Proof. unfold added_in. induction 1 as [| | |? ? ? _ IH1 _ IH2]; cbn; [done|lia|lia|by rewrite IH1]. Qed.
Lemma added_in_events k (h : list (fm_event Z)) : added_in k (ops (events_at k h)) = added_in k (ops h).
Proof.
  unfold added_in, events_at. induction h as [|[[i o] r] h IH]; [done|]. rewrite filter_cons. cbn [fst snd].
  case_decide as E; rewrite !fmap_cons; cbn [foldr fst snd]; [f_equal; exact IH|]. etrans; [exact IH|].
  destruct o; cbn in *; try lia. rewrite decide_False by done. lia.
Qed.

Lemma sum_over_at i d (f : nat -> Z) l : NoDup l -> i ∈ l ->
  sum_over (fun j => (if decide (j = i) then d else 0) + f j) l = d + sum_over f l.
Proof.
  assert (forall l, i ∉ l -> sum_over (fun j => (if decide (j = i) then d else 0) + f j) l = sum_over f l) as H0.
  { induction l0 as [|j l0 IH]; intros Hn; [done|]. simpl. rewrite IH by set_solver.
    rewrite decide_False by set_solver. lia. }
  induction 1 as [|j l Hj Hl IH]; [by intros ?%elem_of_nil|].
  intros [->|Hi]%elem_of_cons; simpl.
  - rewrite decide_True, H0 by done. lia.
  - rewrite IH by done. rewrite decide_False by set_solver. lia.
Qed.

Lemma sum_over_ext (f g : nat -> Z) l : (forall i, i ∈ l -> f i = g i) -> sum_over f l = sum_over g l.
Proof.
  induction l as [|i l IH]; intros H; [done|]. simpl. rewrite IH by (intros; apply H; by constructor).
  rewrite H by constructor. done.
Qed.

Lemma done_by_cons i j o r (h : list (fm_event Z)) :
  done_by i ((j, o, r) :: h) = if decide (j = i) then o :: done_by i h else done_by i h.
Proof. unfold done_by. rewrite filter_cons. cbn [fst snd]. by case_decide. Qed.

Lemma added_by_threads k n (h : list (fm_event Z)) : Forall (fun e => (e.1.1 < n)%nat) h ->
  added_in k ((fun e => e.1.2) <$> h) = sum_over (fun i => added_in k (done_by i h)) (seq 0 n).
Proof.
  induction 1 as [|[[i o] r] h Hi _ IH].
  { simpl. generalize 0%nat. induction n as [|n IHn]; intros j; [done|]. simpl. by rewrite <- IHn. }
  cbn [fmap list_fmap fst snd]. change (added_in k (o :: ((fun e => e.1.2) <$> h))) with
    (added_by k o + added_in k ((fun e => e.1.2) <$> h)).
  rewrite IH, <- (sum_over_at i) by (apply NoDup_seq || (apply elem_of_seq; simpl in Hi; lia)).
  apply sum_over_ext. intros j _. rewrite done_by_cons.
  destruct (decide (j = i)), (decide (i = j)); try congruence; simpl; lia.
Qed.

(** No addition is lost. Threads that only add to the counters of a map
    made of a set of names, and have all finished, leave at each name the sum
    of everything they added to it, modulo 2^64, whatever the order in which
    their accesses came. *)
Theorem fastmap_counts keys m progs schedule m' ths log k v :
  keys_ok keys -> fm_make 0 keys = Ok m -> k ∈ keys ->
  Forall (Forall only_adds) progs ->
  fm_run plus_u64 schedule (fm_start m progs) = Running m' ths log ->
  Forall (fun th => th_ops th = []) ths -> last_value m' k v ->
  v = u64 (sum_over (fun i => added_in k (default [] (progs !! i))) (seq 0 (length progs))).
Proof.
  intros Hok Hm Hk Hadds E Hdone Hv. pose proof (run_inv_run 0 plus_u64 keys progs schedule _ _ _ (start_inv 0 plus_u64 keys m progs Hok Hm)) as Hinv.
  unfold fm_start in E. rewrite E in Hinv. destruct (ordered_last _ _ _ _ _ _ _ _ _ Hinv Hk Hv) as (h & Hp & _ & Hr).
  assert (forall i, (i < length progs)%nat -> default [] (progs !! i) = done_by i log) as Hprog.
  { intros i Hi. destruct (lookup_lt_is_Some_2 _ _ Hi) as [prog Hpr]. rewrite Hpr. cbn.
    destruct (ri_programs _ _ _ _ _ _ _ Hinv i prog Hpr) as (th & Hth & ->).
    by rewrite (Forall_lookup_1 _ _ _ _ Hdone Hth), app_nil_r. }
  assert (Forall (fun e => only_adds e.1.2) log) as Hlog.
  { apply Forall_forall. intros [[i o] r] He. cbn. pose proof (ri_ids _ _ _ _ _ _ _ Hinv _ He) as Hi. cbn in Hi.
    assert (o ∈ done_by i log) as Ho.
    { unfold done_by. apply list_elem_of_fmap. exists (i, o, r). split; [done|]. by apply list_elem_of_filter. }
    rewrite <- Hprog in Ho by done. destruct (lookup_lt_is_Some_2 _ _ Hi) as [prog Hpr]. rewrite Hpr in Ho. cbn in Ho.
    pose proof (Forall_lookup_1 _ _ _ _ Hadds Hpr) as Hall. rewrite Forall_forall in Hall. by apply Hall. }
  rewrite (sum_over_ext _ (fun i => added_in k (done_by i log))), <- added_by_threads, <- added_in_events, <- (added_in_perm k _ _ Hp).
  - rewrite <- (Z.add_0_l (added_in _ _)). apply (replay_adds k h 0 v Hr); [|done]. rewrite Hp.
    apply Forall_forall. intros e [He Hin]%list_elem_of_filter. rewrite Forall_forall in Hlog. split; [by apply Hlog|done].
  - apply Forall_forall. intros e He. by apply (ri_ids _ _ _ _ _ _ _ Hinv).
  - intros i [_ Hi]%elem_of_seq. by rewrite Hprog by lia.
Qed.

Definition ex_adds : list (list (fm_op Z)) := [[Add "geo" 3; Add "users" 1]; [Add "geo" (2 ^ 64 - 1)]]%string.
Definition ex_add_schedule : list (nat * Z) := [(0%nat, 0); (1%nat, 0); (1%nat, 0); (0%nat, 1); (0%nat, 0); (0%nat, 0)].
Lemma ex_adds_run : exists m ths log, fm_run plus_u64 ex_add_schedule (fm_start ex_fast ex_adds) = Running m ths log /\
  last_value m "geo" 2 /\ Forall (fun th => th_ops th = []) ths.
Proof.
  eexists _, _, _. split; [vm_compute; reflexivity|]. split; [|by repeat constructor]. eexists 0%nat, _, 2, _.
  split; [vm_compute; reflexivity|]. split; [reflexivity|]. split; [reflexivity|]. split; [reflexivity|].
  intros t [x Hx]. cbn in Hx. apply elem_of_dom_2 in Hx.
  assert (forall t, t ∈ dom ({[0 := Message 0 ∅; 1 := Message 0 ∅; 2 := Message 0 ∅]} : gmap Z (message Z)) -> t <= 2) as Hd
    by (intros u; rewrite !dom_insert, dom_singleton; set_solver by lia).
  apply Hd. exact Hx.
Qed.

Lemma fastmap_counts_witness : 2 = u64 (sum_over (fun i => added_in "geo" (default [] (ex_adds !! i))) (seq 0 2)).
Proof.
  destruct ex_adds_run as (m & ths & log & E & Hl & Hd).
  apply (fastmap_counts ex_keys ex_fast ex_adds ex_add_schedule m ths log "geo" 2 ex_keys_ok ltac:(by vm_compute));
    [by apply (bool_decide_unpack _)|by repeat constructor|exact E|exact Hd|exact Hl].
Defined.
