(* ===== verification/Stats.v ===== *)
(** * Statistics: [src/stats.cc], [include/stats.h], [include/quantile_estimator.hpp]

    Moving averages, the smoothed tail estimator, the time-weighted mean and
    their update from a finished RPC. Clock readings are nanoseconds of the
    steady clock, which is never negative, and are arguments: an operation
    that reads the clock several times takes one reading per call. *)

From Stdlib Require Import ZArith Lia.
From stdpp Require Import base gmap strings list fin_maps.
From S2P Require Import Prelude Fp Config Buffers RpcMessage LocalMap.

Open Scope Z_scope.

(** [duration_cast<microseconds>] and [duration<double>] of nanoseconds. *)
Definition to_us (ns : Z) : Z := Z.quot ns 1000.
Definition seconds (ns : Z) : fp := f64_div (f64_of_Z ns) (f64_of_Z 1000000000).

(** ** Averages *)

Record MovingAverage := mkMA { ma_count : Z; ma_value : fp }.
Definition ma_make : MovingAverage := mkMA 0 fp_zero.
Definition ma_update (new_value : Z) (m : MovingAverage) : MovingAverage :=
  let count := u32 (ma_count m + 1) in
  mkMA count
    (f32_add (ma_value m) (f32_div (f32_sub (f32_of_Z new_value) (ma_value m)) (f32_of_Z count))).

(** [last_value] has no initialiser: [None] until the first update. *)
Record ExponentialMovingAverage := mkEMA {
  ema_count : Z;
  ema_value : fp;
  ema_alpha : fp;
  ema_last : option Z
}.
Definition ema_make : ExponentialMovingAverage := mkEMA 0 fp_zero (f32_lit 1 100) None.
Definition ema_make_alpha (alpha : fp) : ExponentialMovingAverage := mkEMA 0 fp_zero alpha None.

Definition ema_update (new_value : Z) (e : ExponentialMovingAverage) : ExponentialMovingAverage :=
  mkEMA (u32 (ema_count e + 1))
    (f32_add (f32_mul (ema_alpha e) (f32_of_Z new_value))
             (f32_mul (f32_sub (f32_of_Z 1) (ema_alpha e)) (ema_value e)))
    (ema_alpha e) (Some new_value).
Definition ema_up (e : ExponentialMovingAverage) : res ExponentialMovingAverage :=
  l ← or_fault Undefined (ema_last e); v ← checked_i32 (l + 1); Ok (ema_update v e).
Definition ema_down (e : ExponentialMovingAverage) : res ExponentialMovingAverage :=
  l ← or_fault Undefined (ema_last e);
  _ ← fatal_if (l =? 0);
  v ← checked_i32 (l - 1); Ok (ema_update v e).
Definition ema_value_cap (lo hi : fp) (e : ExponentialMovingAverage) : fp :=
  fp_max lo (if fp_lt (ema_value e) hi then ema_value e else hi).

Definition counter_up (val count : Z) : res Z := checked_i32 (count + val).
Definition counter_down (val count : Z) : res Z := checked_i32 (count - val).

(** ** TimeWeightedMean *)

Record TimeWeightedMean := mkTWM {
  last_flush_ : option Z;
  last_t_ : option Z;
  area_ : fp;
  last_x_ : fp
}.
Definition twm_make : TimeWeightedMean := mkTWM None None fp_zero fp_zero.

Definition twm_update (sample : fp) (t : Z) (w : TimeWeightedMean) : res TimeWeightedMean :=
  match last_flush_ w with
  | None => Ok (mkTWM (Some t) (Some t) (area_ w) sample)
  | Some _ =>
      last ← or_fault Undefined (last_t_ w);
      let dt := seconds (t - last) in
      let area := if fp_gt dt fp_zero then f64_add (area_ w) (f64_mul (last_x_ w) dt) else area_ w in
      Ok (mkTWM (last_flush_ w) (Some t) area sample)
  end.

(** The level [up] and [down] start from. *)
Definition twm_level (w : TimeWeightedMean) : fp :=
  match last_flush_ w with Some _ => last_x_ w | None => fp_zero end.
Definition twm_up (t : Z) (w : TimeWeightedMean) : res TimeWeightedMean :=
  twm_update (f64_add (twm_level w) (f64_of_Z 1)) t w.
Definition twm_down (t : Z) (w : TimeWeightedMean) : res TimeWeightedMean :=
  _ ← fatal_if (fp_lt (f64_sub (twm_level w) (f64_of_Z 1)) fp_zero);
  twm_update (f64_sub (twm_level w) (f64_of_Z 1)) t w.

Definition twm_value (now : Z) (w : TimeWeightedMean) : res (fp * TimeWeightedMean) :=
  match last_flush_ w with
  | None => Ok (fp_zero, w)
  | Some flush =>
      if negb (flush <? now) then Ok (fp_zero, w)
      else
        last ← or_fault Undefined (last_t_ w);
        let area := if last <? now
                    then f64_add (area_ w) (f64_mul (last_x_ w) (seconds (now - last)))
                    else area_ w in
        Ok (f64_div area (seconds (now - flush)), mkTWM (Some now) (Some now) fp_zero (last_x_ w))
  end.

(** ** SmoothedQuantileEstimator *)

Definition max_quantile_sorted_index (n : Z) (q : fp) : res Z :=
  if n <=? 1 then Ok (Z.max 0 (n - 1))
  else if fp_ge fp_zero q then Ok 0
  else if fp_ge q (f64_of_Z 1) then Ok (n - 1)
  else
    let h := f64_mul (f64_of_Z (n - 1)) q in
    lo ← fp_to_i32 (f64_floor h);
    hi ← fp_to_i32 (f64_ceil h);
    Ok (Z.max lo hi).

(** [std::sort] on doubles. *)
Fixpoint insert_double (x : fp) (l : list fp) : list fp :=
  match l with
  | [] => [x]
  | y :: l' => if fp_lt y x then y :: insert_double x l' else x :: l
  end.
Definition sort_doubles (l : list fp) : list fp := foldr insert_double [] l.

(** [std::partial_sort] leaves the smallest [need] elements in order at the
    front and the others behind them in some order; here they are sorted too.
    Their order does not matter: [quantile_reads_prefix]. *)
Definition partial_sort_for_quantile (v : list fp) (q : fp) : res (list fp) :=
  let n := Z.of_nat (length v) in
  if n <=? 1 then Ok v
  else _ ← max_quantile_sorted_index (i32 n) q; Ok (sort_doubles v).

(** [s[i]] is unchecked. *)
Definition elem (s : list fp) (i : Z) : res fp :=
  if 0 <=? i then or_fault Undefined (s !! Z.to_nat i) else Err Undefined.

Definition quantile_sorted (s : list fp) (q : fp) : res fp :=
  match s with
  | [] => Ok fp_nan
  | x :: _ =>
      let n := i32 (Z.of_nat (length s)) in
      if n =? 1 then Ok x
      else if fp_ge fp_zero q then Ok x
      else if fp_ge q (f64_of_Z 1) then elem s (n - 1)
      else
        let h := f64_mul (f64_of_Z (n - 1)) q in
        lo ← fp_to_i32 (f64_floor h);
        hi ← fp_to_i32 (f64_ceil h);
        if hi <=? lo then elem s lo
        else
          a ← elem s lo;
          b ← elem s hi;
          Ok (f64_add a (f64_mul (f64_sub h (f64_of_Z lo)) (f64_sub b a)))
  end.

Record SmoothedQuantileEstimator := mkSQE {
  sq_alpha : fp;
  time_period_ : Z;
  sample_period_ : Z;
  target_q_ : fp;
  buf_ : list fp;
  next_flush_ : option Z;
  smoothed_ : fp;
  flush_updated_ : bool
}.

(** The default arguments: 0.5, 200 ms, 100 samples, 0.99. *)
Definition sqe_make : SmoothedQuantileEstimator :=
  mkSQE (f64_lit 1 2) 200000000 100 (f64_lit 99 100) [] None fp_nan false.

Definition set_next_flush (o : option Z) (e : SmoothedQuantileEstimator) : SmoothedQuantileEstimator :=
  mkSQE (sq_alpha e) (time_period_ e) (sample_period_ e) (target_q_ e) (buf_ e) o (smoothed_ e)
    (flush_updated_ e).
Definition set_buf (b : list fp) (e : SmoothedQuantileEstimator) : SmoothedQuantileEstimator :=
  mkSQE (sq_alpha e) (time_period_ e) (sample_period_ e) (target_q_ e) b (next_flush_ e) (smoothed_ e)
    (flush_updated_ e).
Definition set_smoothed (x : fp) (e : SmoothedQuantileEstimator) : SmoothedQuantileEstimator :=
  mkSQE (sq_alpha e) (time_period_ e) (sample_period_ e) (target_q_ e) (buf_ e) (next_flush_ e) x true.

Definition flush_at (now : Z) (e : SmoothedQuantileEstimator) : res SmoothedQuantileEstimator :=
  match buf_ e with
  | [] => Ok (set_next_flush (Some (now + time_period_ e)) e)
  | _ =>
      scratch ← partial_sort_for_quantile (buf_ e) (target_q_ e);
      q ← quantile_sorted scratch (target_q_ e);
      let e := set_next_flush (Some (now + time_period_ e)) (set_buf [] e) in
      if negb (fp_isfinite q) then Ok e
      else if negb (fp_isfinite (smoothed_ e)) then Ok (set_smoothed q e)
      else Ok (set_smoothed (f64_add (f64_mul (sq_alpha e) q)
                               (f64_mul (f64_sub (f64_of_Z 1) (sq_alpha e)) (smoothed_ e))) e)
  end.

Definition sqe_update (sample : fp) (now : Z) (e : SmoothedQuantileEstimator)
    : res SmoothedQuantileEstimator :=
  let e := set_buf (buf_ e ++ [sample]) e in
  let e := match next_flush_ e with
           | None => set_next_flush (Some (now + time_period_ e)) e
           | Some _ => e
           end in
  next ← or_fault Undefined (next_flush_ e);
  if (sample_period_ e <=? Z.of_nat (length (buf_ e))) || (next <=? now)
  then flush_at now e else Ok e.

Definition flush_pending (now : Z) (e : SmoothedQuantileEstimator) : res SmoothedQuantileEstimator :=
  match buf_ e with [] => Ok e | _ => flush_at now e end.

Definition has_value (e : SmoothedQuantileEstimator) : bool := fp_isfinite (smoothed_ e).
Definition sqe_value (e : SmoothedQuantileEstimator) : fp :=
  if has_value e then smoothed_ e else fp_zero.
Definition consume_flush_updated (e : SmoothedQuantileEstimator) : bool * SmoothedQuantileEstimator :=
  (flush_updated_ e,
   mkSQE (sq_alpha e) (time_period_ e) (sample_period_ e) (target_q_ e) (buf_ e) (next_flush_ e)
     (smoothed_ e) false).

(** ** Utilization

    The HDR histogram is a third-party object. *)
Section Utilization.
Context {Hist : Type} (hdr_record_value : Hist -> Z -> Hist) (hdr_reset : Hist -> Hist).

Record Utilization := mkUtil {
  total : LocalMap fp;
  last_in : LocalMap Z;
  u_count : LocalMap Z;
  period : Z;
  last_update : LocalMap Z;
  last_report : LocalMap Z;
  hist : Hist
}.

(** The constructor: the clock is read twice for each service; the histogram
    is that of [hdr_init]. *)
Fixpoint util_times (services : list string) (now : nat -> Z) (update report : LocalMap Z)
    : res (LocalMap Z * LocalMap Z) :=
  match services with
  | [] => Ok (update, report)
  | s :: services' =>
      update ← LocalMap.set update s (now 0%nat);
      report ← LocalMap.set report s (now 1%nat);
      util_times services' (fun i => now (2 + i)%nat) update report
  end.
Definition util_make (period_count : Z) (services : list string) (now : nat -> Z) (h : Hist) : res Utilization :=
  t ← LocalMap.make fp_zero services;
  z ← LocalMap.make 0 services;
  '(update, report) ← util_times services now z z;
  Ok (mkUtil t z z period_count update report h).

(** [report]: the percentiles it reads are only logged. *)
Definition util_report (service : string) (now : nat -> Z) (u : Utilization) : res Utilization :=
  _ ← LocalMap.get (last_report u) service;
  total' ← LocalMap.set (total u) service fp_zero;
  count' ← LocalMap.set (u_count u) service 0;
  last_in' ← LocalMap.set (last_in u) service 0;
  report' ← LocalMap.set (last_report u) service (now 1%nat);
  Ok (mkUtil total' last_in' count' (period u) (last_update u) report' (hdr_reset (hist u))).

Definition util_update (in_ : Z) (service : string) (now : nat -> Z) (u : Utilization) : res Utilization :=
  t0 ← LocalMap.get (last_update u) service;
  let diff := f64_of_Z (to_us (now 0%nat - t0)) in
  l ← LocalMap.get (last_in u) service;
  total' ← LocalMap.add (fun a b => Ok (f64_add a b)) (total u) service (f64_mul (f64_of_Z l) diff);
  last_in' ← LocalMap.set (last_in u) service in_;
  update' ← LocalMap.set (last_update u) service (now 0%nat);
  count' ← LocalMap.add (fun a b => Ok (u32 (a + b))) (u_count u) service 1;
  let u := mkUtil total' last_in' count' (period u) update' (last_report u)
             (hdr_record_value (hist u) in_) in
  n ← LocalMap.get (u_count u) service;
  if period u <=? n then util_report service (fun i => now (S i)) u else Ok u.
End Utilization.
Arguments Utilization : clear implicits.
Arguments util_make {Hist} _ _ _ _.

(** ** Stats *)

Record Stats := mkStats {
  mode2_credits : Z;
  ema_ds_service_time_us : LocalMap ExponentialMovingAverage;
  ema_us_service_time_us : LocalMap ExponentialMovingAverage;
  ema_us_sidecar_rtt_us : LocalMap ExponentialMovingAverage;
  ema_ds_sidecar_rtt_us : LocalMap ExponentialMovingAverage;
  tail_ds_service_time_us : LocalMap SmoothedQuantileEstimator;
  tail_e2e_time_us : LocalMap SmoothedQuantileEstimator;
  time_mean_ds_concurrency : LocalMap TimeWeightedMean;
  ema_wait_to_tx_us : LocalMap ExponentialMovingAverage
}.

(** The constructor names each metric after its service; looking the name up
    is what it can fail on. *)
Definition stats_make (ds_services us_services : list string) : res Stats :=
  ds_time ← LocalMap.make ema_make ds_services;
  us_time ← LocalMap.make ema_make us_services;
  us_rtt ← LocalMap.make ema_make us_services;
  ds_rtt ← LocalMap.make ema_make ds_services;
  tail_ds ← LocalMap.make sqe_make ds_services;
  tail_e2e ← LocalMap.make sqe_make us_services;
  conc ← LocalMap.make twm_make ds_services;
  wait ← LocalMap.make ema_make ds_services;
  Ok (mkStats 0 ds_time us_time us_rtt ds_rtt tail_ds tail_e2e conc wait).

Definition set_ds_time m (s : Stats) : Stats :=
  mkStats (mode2_credits s) m (ema_us_service_time_us s) (ema_us_sidecar_rtt_us s)
    (ema_ds_sidecar_rtt_us s) (tail_ds_service_time_us s) (tail_e2e_time_us s)
    (time_mean_ds_concurrency s) (ema_wait_to_tx_us s).
Definition set_us_time m (s : Stats) : Stats :=
  mkStats (mode2_credits s) (ema_ds_service_time_us s) m (ema_us_sidecar_rtt_us s)
    (ema_ds_sidecar_rtt_us s) (tail_ds_service_time_us s) (tail_e2e_time_us s)
    (time_mean_ds_concurrency s) (ema_wait_to_tx_us s).
Definition set_us_rtt m (s : Stats) : Stats :=
  mkStats (mode2_credits s) (ema_ds_service_time_us s) (ema_us_service_time_us s) m
    (ema_ds_sidecar_rtt_us s) (tail_ds_service_time_us s) (tail_e2e_time_us s)
    (time_mean_ds_concurrency s) (ema_wait_to_tx_us s).
Definition set_ds_rtt m (s : Stats) : Stats :=
  mkStats (mode2_credits s) (ema_ds_service_time_us s) (ema_us_service_time_us s)
    (ema_us_sidecar_rtt_us s) m (tail_ds_service_time_us s) (tail_e2e_time_us s)
    (time_mean_ds_concurrency s) (ema_wait_to_tx_us s).
Definition set_tail_ds m (s : Stats) : Stats :=
  mkStats (mode2_credits s) (ema_ds_service_time_us s) (ema_us_service_time_us s)
    (ema_us_sidecar_rtt_us s) (ema_ds_sidecar_rtt_us s) m (tail_e2e_time_us s)
    (time_mean_ds_concurrency s) (ema_wait_to_tx_us s).
Definition set_tail_e2e m (s : Stats) : Stats :=
  mkStats (mode2_credits s) (ema_ds_service_time_us s) (ema_us_service_time_us s)
    (ema_us_sidecar_rtt_us s) (ema_ds_sidecar_rtt_us s) (tail_ds_service_time_us s) m
    (time_mean_ds_concurrency s) (ema_wait_to_tx_us s).
Definition set_concurrency m (s : Stats) : Stats :=
  mkStats (mode2_credits s) (ema_ds_service_time_us s) (ema_us_service_time_us s)
    (ema_us_sidecar_rtt_us s) (ema_ds_sidecar_rtt_us s) (tail_ds_service_time_us s)
    (tail_e2e_time_us s) m (ema_wait_to_tx_us s).
Definition set_wait m (s : Stats) : Stats :=
  mkStats (mode2_credits s) (ema_ds_service_time_us s) (ema_us_service_time_us s)
    (ema_us_sidecar_rtt_us s) (ema_ds_sidecar_rtt_us s) (tail_ds_service_time_us s)
    (tail_e2e_time_us s) (time_mean_ds_concurrency s) m.

(** [now i] is the [i]-th reading of the clock. A dropped or failed RPC
    changes no statistic. *)
Definition report_latency (is_ingress : bool) (now : nat -> Z) (r : RPCMessage) (s : Stats) : res Stats :=
  if error r then Ok s
  else match type r with
  | EGRESS =>
      _ ← fatal_if (now 0%nat <? req_for_time r);
      let ds_service_time := i32 (to_us (now 1%nat - req_for_time r)) in
      m ← LocalMap.update (ema_ds_service_time_us s) (service r)
            (fun e => Ok (ema_update ds_service_time e));
      let s := set_ds_time m s in
      m ← LocalMap.update (tail_ds_service_time_us s) (service r)
            (sqe_update (f64_of_Z ds_service_time) (now 2%nat));
      let s := set_tail_ds m s in
      if is_ingress then
        _ ← fatal_if (now 3%nat <? req_rcv_time r);
        let e2e_time := to_us (now 4%nat - req_rcv_time r) in
        m ← LocalMap.update (tail_e2e_time_us s) (service r)
              (sqe_update (f64_of_Z e2e_time) (now 5%nat));
        Ok (set_tail_e2e m s)
      else Ok s
  | INGRESS =>
      _ ← fatal_if (now 0%nat <? req_for_time r);
      let us_service_time := i32 (to_us (now 1%nat - req_for_time r)) in
      m ← LocalMap.update (ema_us_service_time_us s) (service r)
            (fun e => Ok (ema_update us_service_time e));
      Ok (set_us_time m s)
  end.
