(* ===== verification/StatsProps.v ===== *)
(** * Statistics: theorems

    The tail estimator reads a quantile from inside its batch, flushes by
    count or by time and tells so once; the concurrency level is an exact
    counter; a finished RPC updates the statistics of its side only. *)

From Stdlib Require Import ZArith Lia SpecFloat Sorted.
From stdpp Require Import base gmap strings list fin_maps.
From S2P Require Import Prelude Fp Config Buffers RpcMessage LocalMap LocalMapProps Stats.

Open Scope Z_scope.

(** ** Sorting doubles *)

Definition fp_le (x y : fp) : Prop := fp_ge y x = true.

Lemma SFcompare_flip x y : x <> fp_nan -> y <> fp_nan ->
  exists c, SFcompare x y = Some c /\ SFcompare y x = Some (CompOpp c).
Proof.
  intros Hx Hy.
  destruct x as [sx|sx| |sx mx ex], y as [sy|sy| |sy my ey]; try done;
    try (destruct sx, sy; eexists; split; reflexivity);
    try (destruct sx; eexists; split; reflexivity);
    try (destruct sy; eexists; split; reflexivity).
  assert (forall c c', Pos.compare_cont c my mx = CompOpp (Pos.compare_cont (CompOpp c') mx my) \/ c <> c')
    as Hanti.
  { intros c c'. destruct (decide (c = c')) as [->|]; [left|by right].
    rewrite (Pos.compare_cont_antisym mx my (CompOpp c')). by destruct c'. }
  destruct (Hanti Eq Eq) as [E|]; [|done].
  destruct sx, sy; cbn [SFcompare]; try (eexists; split; reflexivity);
    rewrite (Z.compare_antisym ex ey); destruct (Z.compare ex ey); cbn [CompOpp];
    try (eexists; split; reflexivity);
    eexists; (split; [reflexivity|]); rewrite E; cbn [CompOpp]; by destruct (Pos.compare_cont _ _ _).
Qed.

Lemma fp_lt_le x y : fp_lt x y = true -> fp_le x y.
Proof. unfold fp_lt, fp_le, fp_ge, SFltb, SFleb. by destruct (SFcompare x y) as [[]|]. Qed.

Lemma fp_not_lt_le x y : x <> fp_nan -> y <> fp_nan -> fp_lt y x = false -> fp_le x y.
Proof.
  intros Hx Hy H. destruct (SFcompare_flip x y Hx Hy) as (c & E1 & E2).
  unfold fp_lt, fp_le, fp_ge, SFltb, SFleb in *. rewrite E1. rewrite E2 in H. by destruct c.
Qed.

Lemma insert_double_perm x l : insert_double x l ≡ₚ x :: l.
Proof.
  induction l as [|y l IH]; [done|]. cbn [insert_double]. destruct (fp_lt y x); [|done].
  rewrite IH. constructor.
Qed.

Lemma sort_doubles_perm l : sort_doubles l ≡ₚ l.
Proof. induction l as [|x l IH]; [done|]. cbn. by rewrite insert_double_perm, IH. Qed.

Lemma length_sort_doubles l : length (sort_doubles l) = length l.
Proof. apply Permutation_length, sort_doubles_perm. Qed.

Lemma insert_double_sorted x l : x <> fp_nan -> (forall y, y ∈ l -> y <> fp_nan) ->
  Sorted fp_le l -> Sorted fp_le (insert_double x l).
Proof.
  intros Hx. induction l as [|y l IH]; intros Hl Hs; cbn [insert_double].
  { by constructor. }
  destruct (fp_lt y x) eqn:E.
  - inversion_clear Hs as [|? ? Hs' Hd]. constructor; [apply IH; [set_solver|done]|].
    destruct l as [|z l]; cbn [insert_double]; [constructor; by apply fp_lt_le|].
    destruct (fp_lt z x); constructor; [by inversion Hd|by apply fp_lt_le].
  - constructor; [done|]. constructor. apply fp_not_lt_le; [done| |done]. set_solver.
Qed.

Lemma sort_doubles_sorted l : (forall y, y ∈ l -> y <> fp_nan) -> Sorted fp_le (sort_doubles l).
Proof.
  induction l as [|x l IH]; intros Hl; [constructor|]. cbn. apply insert_double_sorted.
  - set_solver.
  - intros y Hy. apply Hl. right. by rewrite <- (sort_doubles_perm l).
  - apply IH. set_solver.
Qed.

(** ** The quantile of a batch *)

Definition q99 : fp := f64_lit 99 100.

(** The indices of the 99th percentile of [n] samples. *)
Definition q99_indices (n : Z) : option (Z * Z * Z) :=
  let h := f64_mul (f64_of_Z (n - 1)) q99 in
  match fp_to_i32 (f64_floor h), fp_to_i32 (f64_ceil h), max_quantile_sorted_index n q99 with
  | Ok lo, Ok hi, Ok k => Some (lo, hi, k)
  | _, _, _ => None
  end.
Definition q99_inside (n : nat) : bool :=
  match q99_indices (Z.of_nat n) with
  | Some (lo, hi, k) =>
      (0 <=? lo) && (0 <=? hi) && (lo <=? k) && (hi <=? k) && (k <? Z.of_nat n)
  | None => false
  end.

Lemma q99_inside_all : forallb q99_inside (seq 2 99) = true.
Proof. vm_compute. reflexivity. Qed.

Lemma q99_indices_spec n : (2 <= n <= 100)%nat -> exists lo hi k,
  let h := f64_mul (f64_of_Z (Z.of_nat n - 1)) q99 in
  fp_to_i32 (f64_floor h) = Ok lo /\ fp_to_i32 (f64_ceil h) = Ok hi /\
  max_quantile_sorted_index (Z.of_nat n) q99 = Ok k /\
  0 <= lo <= k /\ 0 <= hi <= k /\ k < Z.of_nat n.
Proof.
  intros Hn. assert (q99_inside n = true) as H.
  { pose proof q99_inside_all as Hall. rewrite forallb_forall in Hall. apply Hall, in_seq. lia. }
  unfold q99_inside, q99_indices in H.
  destruct (fp_to_i32 (f64_floor _)) as [lo|] eqn:E1; [|done].
  destruct (fp_to_i32 (f64_ceil _)) as [hi|] eqn:E2; [|done].
  destruct (max_quantile_sorted_index _ _) as [k|] eqn:E3; [|done].
  exists lo, hi, k. split; [done|]. split; [done|]. split; [done|]. lia.
Qed.

Lemma i32_length {A} (l : list A) : (length l <= 100)%nat -> i32 (Z.of_nat (length l)) = Z.of_nat (length l).
Proof. intros. apply swrap_small; lia. Qed.

Lemma elem_prefix (s s' : list fp) k i : 0 <= i <= k -> k < Z.of_nat (length s) ->
  take (Z.to_nat k + 1) s' = take (Z.to_nat k + 1) s -> elem s' i = elem s i /\ is_ok (elem s i).
Proof.
  intros Hi Hk Ht. unfold elem. replace (0 <=? i) with true by lia.
  assert (s' !! Z.to_nat i = s !! Z.to_nat i) as ->.
  { rewrite <- (lookup_take_lt s' (Z.to_nat k + 1)), <- (lookup_take_lt s (Z.to_nat k + 1)) by lia.
    by rewrite Ht. }
  split; [done|]. destruct (lookup_lt_is_Some_2 s (Z.to_nat i)) as [x Hx]; [lia|].
  rewrite Hx. by exists x.
Qed.

Lemma quantile_sorted_prefix (s s' : list fp) :
  (1 <= length s <= 100)%nat -> length s' = length s ->
  exists k, max_quantile_sorted_index (Z.of_nat (length s)) q99 = Ok k /\ 0 <= k < Z.of_nat (length s) /\
    (take (Z.to_nat k + 1) s' = take (Z.to_nat k + 1) s ->
     quantile_sorted s' q99 = quantile_sorted s q99 /\ is_ok (quantile_sorted s q99)).
Proof.
  intros Hn Hl. destruct (decide (length s = 1)%nat) as [H1|H1].
  - exists 0. rewrite H1. split; [reflexivity|]. split; [lia|]. intros Ht.
    destruct s as [|x [|]], s' as [|x' [|]]; try discriminate. cbn in Ht. injection Ht as ->.
    split; [done|]. by exists x.
  - destruct (q99_indices_spec (length s)) as (lo & hi & k & E1 & E2 & E3 & Hlo & Hhi & Hk); [lia|].
    exists k. split; [done|]. split; [lia|]. intros Ht.
    destruct (elem_prefix s s' k lo) as [Elo Olo]; [lia..|done|].
    destruct (elem_prefix s s' k hi) as [Ehi Ohi]; [lia..|done|].
    unfold quantile_sorted. destruct s as [|x s]; [simpl in Hn; lia|].
    destruct s' as [|x' s']; [discriminate|].
    rewrite Hl, !i32_length by lia.
    replace (Z.of_nat (length (x :: s)) =? 1) with false by lia.
    change (fp_ge fp_zero q99) with false. change (fp_ge q99 (f64_of_Z 1)) with false. cbv iota zeta.
    rewrite E1, E2. cbn [mbind res_bind]. rewrite Elo, Ehi.
    split; [done|]. destruct (hi <=? lo); [done|].
    destruct Olo as [a ->], Ohi as [b ->]. by eexists.
Qed.

(** The tail of a batch of at most 100 samples is read inside the batch
    and only from the part that [std::partial_sort] has ordered: the scratch
    buffer is the batch in increasing order, and any other arrangement of the
    elements behind the largest index the quantile needs gives the same
    result. *)
Theorem quantile_reads_prefix (v s' : list fp) :
  (1 <= length v <= 100)%nat -> (forall x, x ∈ v -> x <> fp_nan) -> length s' = length v ->
  exists s k, partial_sort_for_quantile v q99 = Ok s /\ s ≡ₚ v /\ Sorted fp_le s /\
    max_quantile_sorted_index (Z.of_nat (length v)) q99 = Ok k /\ 0 <= k < Z.of_nat (length v) /\
    is_ok (quantile_sorted s q99) /\
    (take (Z.to_nat k + 1) s' = take (Z.to_nat k + 1) s -> quantile_sorted s' q99 = quantile_sorted s q99).
Proof.
  intros Hn Hnan Hl. destruct (quantile_sorted_prefix (sort_doubles v) s') as (k & Hk & Hr & Hq);
    [by rewrite length_sort_doubles..|]. rewrite length_sort_doubles in Hk, Hr.
  destruct (quantile_sorted_prefix (sort_doubles v) (sort_doubles v)) as (k' & Hk' & _ & Hq');
    [by rewrite length_sort_doubles|done|].
  exists (sort_doubles v), k. split.
  { unfold partial_sort_for_quantile. rewrite i32_length by lia. rewrite Hk.
    destruct (Z.leb_spec (Z.of_nat (length v)) 1); [|done].
    destruct v as [|x [|]]; simpl in *; try lia. done. }
  split; [apply sort_doubles_perm|]. split; [by apply sort_doubles_sorted|].
  split; [done|]. split; [done|]. split; [by apply Hq'|]. intros. by apply Hq.
Qed.

Lemma quantile_reads_prefix_witness : exists s k,
  partial_sort_for_quantile [f64_of_Z 30; f64_of_Z 10; f64_of_Z 20] q99 = Ok s /\
  max_quantile_sorted_index 3 q99 = Ok k.
Proof.
  destruct (quantile_reads_prefix [f64_of_Z 30; f64_of_Z 10; f64_of_Z 20] [f64_of_Z 1; f64_of_Z 1; f64_of_Z 1])
    as (s & k & H1 & _ & _ & H2 & _).
  - simpl. lia.
  - intros x. rewrite !elem_of_cons, elem_of_nil. intros [->|[->|[->|[]]]]; vm_compute; discriminate.
  - reflexivity.
  - exists s, k. split; [exact H1|exact H2].
Defined.

(** ** Flushing *)

(** Between updates the batch is short of the sample period, and a batch that
    is not empty has a deadline. *)
Record sqe_ok (e : SmoothedQuantileEstimator) : Prop := {
  so_period : sample_period_ e = 100;
  so_q : target_q_ e = q99;
  so_short : (length (buf_ e) < 100)%nat;
  so_deadline : buf_ e <> [] -> is_Some (next_flush_ e)
}.

Lemma sqe_make_ok : sqe_ok sqe_make.
Proof. split; try done. cbn. lia. Qed.

(** What a flush of the batch [b] makes of [e]: the deadline moves, the batch
    is emptied, and a finite quantile is smoothed in and announced. *)
Definition flushed (b : list fp) (now : Z) (e : SmoothedQuantileEstimator) (q : fp)
    (e' : SmoothedQuantileEstimator) : Prop :=
  quantile_sorted (sort_doubles b) q99 = Ok q /\ buf_ e' = [] /\
  next_flush_ e' = Some (now + time_period_ e) /\
  if fp_isfinite q then
    flush_updated_ e' = true /\
    smoothed_ e' = (if has_value e
                    then f64_add (f64_mul (sq_alpha e) q)
                           (f64_mul (f64_sub (f64_of_Z 1) (sq_alpha e)) (smoothed_ e))
                    else q)
  else flush_updated_ e' = flush_updated_ e /\ smoothed_ e' = smoothed_ e.

Lemma flush_at_spec now e : (1 <= length (buf_ e) <= 100)%nat -> target_q_ e = q99 ->
  exists q e', flush_at now e = Ok e' /\ flushed (buf_ e) now e q e' /\
    sample_period_ e' = sample_period_ e /\ target_q_ e' = q99 /\ time_period_ e' = time_period_ e.
Proof.
  intros Hn Hq.
  destruct (quantile_sorted_prefix (sort_doubles (buf_ e)) (sort_doubles (buf_ e))) as (k & Hk & _ & Hs);
    [by rewrite length_sort_doubles|done|]. rewrite length_sort_doubles in Hk.
  destruct (Hs eq_refl) as [_ [q Eq]].
  assert (partial_sort_for_quantile (buf_ e) q99 = Ok (sort_doubles (buf_ e))) as Ep.
  { unfold partial_sort_for_quantile. rewrite i32_length, Hk by lia.
    destruct (Z.leb_spec (Z.of_nat (length (buf_ e))) 1); [|done].
    destruct (buf_ e) as [|x [|]]; simpl in *; try lia. done. }
  unfold flush_at. rewrite Hq, Ep. cbn [mbind res_bind]. rewrite Eq. cbn [mbind res_bind].
  exists q. destruct (buf_ e) as [|x b] eqn:Eb; [simpl in Hn; lia|].
  unfold flushed, has_value, set_next_flush, set_buf, set_smoothed.
  cbn [smoothed_ sq_alpha]. destruct (fp_isfinite q) eqn:Ef; cbn [negb].
  - destruct (fp_isfinite (smoothed_ e)); cbn [negb]; eexists; (split; [reflexivity|]);
      cbn [buf_ next_flush_ flush_updated_ smoothed_ sample_period_ target_q_ time_period_];
      (split; [split; [done|split; [done|split; [done|split; done]]]|split; [done|split; done]]).
  - eexists. split; [reflexivity|].
    cbn [buf_ next_flush_ flush_updated_ smoothed_ sample_period_ target_q_ time_period_].
    split; [split; [done|split; [done|split; [done|split; done]]]|split; [done|split; done]].
Qed.

Lemma estimator_ok (e : SmoothedQuantileEstimator) (sample : fp) (now : Z) :
  sqe_ok e -> exists e', sqe_update sample now e = Ok e' /\ sqe_ok e' /\
    let deadline := default (now + time_period_ e) (next_flush_ e) in
    (if (100 <=? Z.of_nat (length (buf_ e)) + 1) || (deadline <=? now)
     then exists q, flushed (buf_ e ++ [sample]) now e q e'
     else buf_ e' = buf_ e ++ [sample] /\ next_flush_ e' = Some deadline /\
       smoothed_ e' = smoothed_ e /\ flush_updated_ e' = flush_updated_ e).
Proof.
  intros [Hp Hq Hs Hd]. unfold sqe_update.
  set (e1 := match next_flush_ (set_buf _ e) with None => _ | Some _ => _ end).
  set (deadline := default (now + time_period_ e) (next_flush_ e)).
  assert (next_flush_ e1 = Some deadline /\ buf_ e1 = buf_ e ++ [sample] /\ sample_period_ e1 = 100 /\
    target_q_ e1 = q99 /\ time_period_ e1 = time_period_ e /\ smoothed_ e1 = smoothed_ e /\
    flush_updated_ e1 = flush_updated_ e /\ sq_alpha e1 = sq_alpha e)
    as (N & B & P & Q & T & S & F & A).
  { unfold e1, deadline. cbn [set_buf next_flush_]. destruct (next_flush_ e) eqn:En; repeat split; try assumption. }
  clearbody e1. rewrite N. cbn [or_fault mbind res_bind]. rewrite P, B, length_app. cbn [length].
  replace (Z.of_nat (length (buf_ e) + 1)) with (Z.of_nat (length (buf_ e)) + 1) by lia.
  destruct ((100 <=? _) || _) eqn:C.
  - destruct (flush_at_spec now e1) as (q & e' & -> & Hf & Hp' & Hq' & _); [|done|].
    { rewrite B, length_app. cbn [length]. lia. }
    exists e'. split; [done|]. destruct Hf as (H1 & H2 & H3 & H4). split.
    + split; [by rewrite Hp'|done|by rewrite H2; simpl; lia|by rewrite H2].
    + exists q. rewrite B in H1. unfold flushed, has_value in *. rewrite T in H3. rewrite S, F, A in H4. done.
  - exists e1. split; [done|]. apply orb_false_iff in C as [C1 C2]. split; [|by rewrite B, N, S, F].
    split; [done|done|rewrite B, length_app; cbn [length]; lia|by rewrite N].
Qed.

(** an update of the tail estimator never faults; it flushes exactly when
    the batch reaches 100 samples or the deadline, set 200 ms after the first
    sample or the previous flush, has passed, and otherwise only adds the
    sample; a flush empties the batch, smooths a finite quantile into the
    value and raises the flag, which reads true once. *)
Theorem estimator_flushes (e : SmoothedQuantileEstimator) (sample : fp) (now : Z) :
  sqe_ok e -> exists e', sqe_update sample now e = Ok e' /\ sqe_ok e' /\
    let deadline := default (now + time_period_ e) (next_flush_ e) in
    (if (100 <=? Z.of_nat (length (buf_ e)) + 1) || (deadline <=? now)
     then exists q, flushed (buf_ e ++ [sample]) now e q e'
     else buf_ e' = buf_ e ++ [sample] /\ next_flush_ e' = Some deadline /\
       smoothed_ e' = smoothed_ e /\ flush_updated_ e' = flush_updated_ e) /\
    fst (consume_flush_updated (snd (consume_flush_updated e'))) = false.
Proof.
  intros He. destruct (estimator_ok e sample now He) as (e' & H1 & H2 & H3).
  exists e'. split; [done|]. split; [done|]. split; [exact H3|done].
Qed.

Lemma estimator_flushes_witness : exists e',
  sqe_update (f64_of_Z 700) 5 sqe_make = Ok e' /\ sqe_ok e'.
Proof.
  destruct (estimator_flushes sqe_make (f64_of_Z 700) 5 sqe_make_ok) as (e' & H1 & H2 & _).
  exists e'. split; assumption.
Defined.

(** ** Concurrency levels *)

Inductive level_event := Up (t : Z) | Down (t : Z).

Definition twm_step (w : TimeWeightedMean) (ev : level_event) : res TimeWeightedMean :=
  match ev with Up t => twm_up t w | Down t => twm_down t w end.
Fixpoint twm_run (w : TimeWeightedMean) (evs : list level_event) : res TimeWeightedMean :=
  match evs with [] => Ok w | ev :: evs' => w ← twm_step w ev; twm_run w evs' end.

(** The integer level, [None] once it has gone below zero, and its peak. *)
Fixpoint level (n : Z) (evs : list level_event) : option Z :=
  match evs with
  | [] => Some n
  | Up _ :: evs' => level (n + 1) evs'
  | Down _ :: evs' => if n =? 0 then None else level (n - 1) evs'
  end.
Fixpoint peak (n : Z) (evs : list level_event) : Z :=
  match evs with
  | [] => n
  | Up _ :: evs' => Z.max n (peak (n + 1) evs')
  | Down _ :: evs' => Z.max n (peak (n - 1) evs')
  end.

(** Counting in doubles is exact up to more than the 14000 pooled messages. *)
Definition MAX_LEVEL : Z := 2 ^ 14.
Definition fp_eqb (x y : fp) : bool :=
  match x, y with
  | S754_zero a, S754_zero b => Bool.eqb a b
  | S754_finite a m e, S754_finite b m' e' => Bool.eqb a b && (Pos.eqb m m') && (e =? e')
  | _, _ => false
  end.
Lemma fp_eqb_eq x y : fp_eqb x y = true -> x = y.
Proof.
  destruct x, y; cbn; try done.
  - by intros ->%Bool.eqb_prop.
  - rewrite !andb_true_iff. intros [[->%Bool.eqb_prop ->%Pos.eqb_eq] ->%Z.eqb_eq]. done.
Qed.

Definition counts_at (z : Z) : bool :=
  let x := f64_of_Z z in
  let y := f64_of_Z (z + 1) in
  fp_eqb (f64_add x (f64_of_Z 1)) y && fp_eqb (f64_sub y (f64_of_Z 1)) x && negb (fp_lt x fp_zero).

Lemma counts_all : all_from 14 counts_at 0 = true.
Proof. vm_compute. reflexivity. Qed.

Lemma counts_exact n : 0 <= n < MAX_LEVEL ->
  f64_add (f64_of_Z n) (f64_of_Z 1) = f64_of_Z (n + 1) /\
  f64_sub (f64_of_Z (n + 1)) (f64_of_Z 1) = f64_of_Z n /\ fp_lt (f64_of_Z n) fp_zero = false.
Proof.
  intros Hn. pose proof (all_from_spec 14 counts_at 0 n counts_all Hn) as H.
  unfold counts_at in H. rewrite !andb_true_iff, negb_true_iff in H. destruct H as [[H1 H2] H3].
  split; [by apply fp_eqb_eq|]. split; [by apply fp_eqb_eq|done].
Qed.

(** [w] counts [n]. *)
Definition at_level (n : Z) (w : TimeWeightedMean) : Prop :=
  twm_level w = f64_of_Z n /\ (is_Some (last_flush_ w) -> is_Some (last_t_ w)).

Lemma twm_update_level sample t w : (is_Some (last_flush_ w) -> is_Some (last_t_ w)) ->
  exists w', twm_update sample t w = Ok w' /\ twm_level w' = sample /\
    (is_Some (last_flush_ w') -> is_Some (last_t_ w')).
Proof.
  intros Hw. unfold twm_update. destruct (last_flush_ w) as [f|] eqn:E.
  - destruct (Hw ltac:(by eexists)) as [l ->]. cbn [or_fault mbind res_bind]. eexists.
    split; [reflexivity|]. unfold twm_level. cbn. split; [done|by eexists].
  - eexists. split; [reflexivity|]. unfold twm_level. cbn. split; [done|by eexists].
Qed.

Lemma peak_ge n evs : n <= peak n evs.
Proof. destruct evs as [|[]]; simpl; lia. Qed.

Lemma twm_run_level evs : forall n w, at_level n w -> 0 <= n -> peak n evs <= MAX_LEVEL ->
  match level n evs with
  | Some n' => exists w', twm_run w evs = Ok w' /\ at_level n' w'
  | None => twm_run w evs = Err Fatal
  end.
Proof.
  induction evs as [|[t|t] evs IH]; intros n w [Hl Hw] Hn Hp; cbn [level twm_run twm_step peak] in *.
  - by exists w.
  - pose proof (peak_ge (n + 1) evs).
    destruct (counts_exact n) as (Ea & _ & _); [lia|].
    unfold twm_up. rewrite Hl, Ea.
    destruct (twm_update_level (f64_of_Z (n + 1)) t w Hw) as (w' & -> & Hl' & Hw').
    cbn [mbind res_bind]. apply IH; [done|lia|lia].
  - unfold twm_down. rewrite Hl. destruct (Z.eqb_spec n 0) as [->|Hne].
    + replace (fp_lt (f64_sub (f64_of_Z 0) (f64_of_Z 1)) fp_zero) with true by (vm_compute; reflexivity).
      done.
    + destruct (counts_exact (n - 1)) as (_ & Es & Hz); [lia|].
      replace (n - 1 + 1) with n in Es by lia. rewrite Es, Hz. cbn [fatal_if mbind res_bind].
      destruct (twm_update_level (f64_of_Z (n - 1)) t w Hw) as (w' & -> & Hl' & Hw').
      cbn [mbind res_bind]. apply IH; [done|lia|lia].
Qed.

(** [TimeWeightedMean] counts concurrent requests exactly: after any
    sequence of [up] and [down] at any times, whose level never exceeds
    16384 (there are 14000 pooled messages), the level held in a double is the number of ups
    less downs, and a [down] below zero is a fatal error. *)
Theorem concurrency_counts (evs : list level_event) : peak 0 evs <= MAX_LEVEL ->
  match level 0 evs with
  | Some n => exists w, twm_run twm_make evs = Ok w /\ twm_level w = f64_of_Z n
  | None => twm_run twm_make evs = Err Fatal
  end.
Proof.
  intros Hp. pose proof (twm_run_level evs 0 twm_make) as H.
  destruct (level 0 evs).
  - destruct H as (w & Hr & Hl & _); [split; [done|by intros []]|lia|done|]. eauto.
  - apply H; [split; [done|by intros []]|lia|done].
Qed.

Lemma concurrency_counts_witness : exists w,
  twm_run twm_make [Up 5; Up 6; Down 9; Up 9] = Ok w /\ twm_level w = f64_of_Z 2.
Proof. apply (concurrency_counts [Up 5; Up 6; Down 9; Up 9]). vm_compute. discriminate. Defined.

(** ** Statistics of a finished RPC *)

(** [m'] is [m] with the value of [k] updated by [f]. *)
Definition changed_at {T} (k : string) (f : T -> res T) (m m' : LocalMap T) : Prop :=
  (exists v v', get m k = Ok v /\ f v = Ok v' /\ get m' k = Ok v') /\
  forall k', k <> k' -> get m' k' = get m k'.

(** The metrics of the downstream services [ds] and the hosted services [us]. *)
Record stats_wf (ds us : list string) (s : Stats) : Prop := {
  sw_ds_time : over ds (ema_ds_service_time_us s);
  sw_us_time : over us (ema_us_service_time_us s);
  sw_us_rtt : over us (ema_us_sidecar_rtt_us s);
  sw_ds_rtt : over ds (ema_ds_sidecar_rtt_us s);
  sw_tail_ds : over ds (tail_ds_service_time_us s);
  sw_tail_e2e : over us (tail_e2e_time_us s);
  sw_conc : over ds (time_mean_ds_concurrency s);
  sw_wait : over ds (ema_wait_to_tx_us s);
  sw_tail_ds_ok k e : get (tail_ds_service_time_us s) k = Ok e -> sqe_ok e;
  sw_tail_e2e_ok k e : get (tail_e2e_time_us s) k = Ok e -> sqe_ok e
}.

Lemma update_changed {T} keys (m : LocalMap T) k f : over keys m -> k ∈ keys ->
  (forall v, get m k = Ok v -> is_ok (f v)) ->
  exists m', update m k f = Ok m' /\ over keys m' /\ changed_at k f m m'.
Proof.
  intros Hm Hk Hf. destruct (update_is_ok _ _ _ _ Hm Hk Hf) as [m' H]. exists m'.
  split; [done|]. split; [by eapply over_update|]. apply update_get; [apply Hm|done].
Qed.

Lemma changed_at_inv {T} (P : T -> Prop) k f (m m' : LocalMap T) : changed_at k f m m' ->
  (forall v v', P v -> f v = Ok v' -> P v') ->
  (forall k e, get m k = Ok e -> P e) -> forall k e, get m' k = Ok e -> P e.
Proof.
  intros [(v & v' & Hg & Hf & Hg') Hne] HP Hm k' e He.
  destruct (decide (k = k')) as [<-|Hk].
  - rewrite Hg' in He. injection He as <-. eauto.
  - rewrite Hne in He by done. eauto.
Qed.

Lemma sqe_update_is_ok e sample now : sqe_ok e -> is_ok (sqe_update sample now e).
Proof. intros He. destruct (estimator_ok e sample now He) as (e' & -> & _). by exists e'. Qed.

Lemma sqe_update_preserves e e' sample now : sqe_ok e -> sqe_update sample now e = Ok e' -> sqe_ok e'.
Proof.
  intros He H. destruct (estimator_ok e sample now He) as (e'' & H' & Hok & _).
  rewrite H in H'. by injection H' as ->.
Qed.

Lemma tail_update us (m : LocalMap SmoothedQuantileEstimator) k x t :
  over us m -> k ∈ us -> (forall k e, get m k = Ok e -> sqe_ok e) ->
  exists m', update m k (sqe_update x t) = Ok m' /\ over us m' /\
    changed_at k (sqe_update x t) m m' /\ (forall k e, get m' k = Ok e -> sqe_ok e).
Proof.
  intros Hm Hk Hok. destruct (update_changed us m k (sqe_update x t)) as (m' & H1 & H2 & H3); [done|done| |].
  { intros v Hv. apply sqe_update_is_ok. eauto. }
  exists m'. split; [done|]. split; [done|]. split; [done|].
  eapply changed_at_inv; [done| |done]. intros v v'. apply sqe_update_preserves.
Qed.

(** A finished RPC that is not an error updates the metrics of its
    service and side and nothing else: on the egress side the downstream
    service time and its tail, and in an ingress also the end-to-end tail; on
    the ingress side the upstream service time. An error RPC changes nothing,
    and a request time in the future is a fatal error. *)
Theorem latency_reported (ds us : list string) (is_ing : bool) (now : nat -> Z) (r : RPCMessage) (s : Stats) :
  stats_wf ds us s ->
  match type r with EGRESS => service r ∈ ds /\ (is_ing = true -> service r ∈ us) | INGRESS => service r ∈ us end ->
  (is_ing = true -> req_rcv_time r <= now 3%nat) ->
  if error r then report_latency is_ing now r s = Ok s
  else if now 0%nat <? req_for_time r then report_latency is_ing now r s = Err Fatal
  else exists s', report_latency is_ing now r s = Ok s' /\ stats_wf ds us s' /\
    let dt := i32 (to_us (now 1%nat - req_for_time r)) in
    match type r with
    | EGRESS => exists m t e, s' = set_tail_e2e e (set_tail_ds t (set_ds_time m s)) /\
        changed_at (service r) (fun x => Ok (ema_update dt x)) (ema_ds_service_time_us s) m /\
        changed_at (service r) (sqe_update (f64_of_Z dt) (now 2%nat)) (tail_ds_service_time_us s) t /\
        (if is_ing then changed_at (service r) (sqe_update (f64_of_Z (to_us (now 4%nat - req_rcv_time r))) (now 5%nat))
                          (tail_e2e_time_us s) e
         else e = tail_e2e_time_us s)
    | INGRESS => exists m, s' = set_us_time m s /\
        changed_at (service r) (fun x => Ok (ema_update dt x)) (ema_us_service_time_us s) m
    end.
Proof.
  intros Hs Hk Hrcv. unfold report_latency. destruct (error r); [done|].
  destruct (now 0%nat <? req_for_time r); [by destruct (type r)|].
  destruct (type r); cbn [fatal_if mbind res_bind].
  - destruct (update_changed us (ema_us_service_time_us s) (service r)
      (fun x => Ok (ema_update (i32 (to_us (now 1%nat - req_for_time r))) x))) as (m & -> & Hm & Hc);
      [apply Hs|done|by eexists|].
    eexists. split; [reflexivity|]. split; [by destruct Hs; split|]. by exists m.
  - destruct Hk as [Hk Hk'].
    destruct (update_changed ds (ema_ds_service_time_us s) (service r)
      (fun x => Ok (ema_update (i32 (to_us (now 1%nat - req_for_time r))) x))) as (m & -> & Hm & Hc);
      [apply Hs|done|by eexists|].
    cbn [mbind res_bind set_ds_time tail_ds_service_time_us].
    destruct (tail_update ds (tail_ds_service_time_us s) (service r)
      (f64_of_Z (i32 (to_us (now 1%nat - req_for_time r)))) (now 2%nat)) as (t & -> & Ht & Hct & Hto);
      [apply Hs|done|apply Hs|]. cbn [mbind res_bind].
    destruct is_ing.
    + replace (now 3%nat <? req_rcv_time r) with false by (specialize (Hrcv eq_refl); lia).
      cbn [fatal_if mbind res_bind set_tail_ds set_ds_time tail_e2e_time_us].
      destruct (tail_update us (tail_e2e_time_us s) (service r)
        (f64_of_Z (to_us (now 4%nat - req_rcv_time r))) (now 5%nat)) as (e & -> & He & Hce & Heo);
        [apply Hs|by apply Hk'|apply Hs|].
      eexists. split; [reflexivity|]. split; [by destruct Hs; split|]. by exists m, t, e.
    + eexists. split; [reflexivity|]. split; [by destruct Hs; split|].
      exists m, t, (tail_e2e_time_us s). by destruct s.
Qed.

(** ** The constructor *)

Lemma make_over_default {T} (dflt : T) keys m : keys <> [] -> Z.of_nat (length keys) < 2 ^ 60 ->
  (forall k, k ∈ keys -> key_ok k) -> make dflt keys = Ok m -> slots_ m <> [] ->
  over keys m /\ forall k v, get m k = Ok v -> v = dflt.
Proof.
  intros Hne Hlen Hk Hm Hs. destruct (make_spec dflt keys m Hne Hlen Hk Hm Hs) as (Hwf & Hkeys & Hd).
  split; [by split|]. intros k v Hg. apply get_Ok in Hg as (i & sl & Hi & _ & _ & <-); [|done]. eauto.
Qed.

Definition ex_services : list string := ["geo"; "rate"]%string.
Definition ex_stats : res Stats := Eval vm_compute in stats_make ex_services ex_services.
Definition ex_finished : RPCMessage :=
  assign_service "geo" (set_type EGRESS (set_req_rcv_time 1000 (set_req_for_time 2000 (rpc_make 0 INGRESS HTTP1)))).

Lemma ex_stats_make : exists s, ex_stats = Ok s /\ stats_make ex_services ex_services = Ok s.
Proof. eexists. split; vm_compute; reflexivity. Qed.

Lemma ex_key_ok k : k ∈ ex_services -> key_ok k.
Proof. unfold ex_services. rewrite !elem_of_cons, elem_of_nil. intros [->|[->|[]]]; vm_compute; split; congruence. Qed.

Lemma ex_over {T} (dflt : T) m :
  match make dflt ex_services with Ok m => negb (Nat.eqb (length (slots_ m)) 0) | Err _ => false end = true ->
  make dflt ex_services = Ok m -> over ex_services m /\ forall k v, get m k = Ok v -> v = dflt.
Proof.
  intros Hs H. rewrite H in Hs.
  apply (make_over_default dflt ex_services m); [done|vm_compute; reflexivity|apply ex_key_ok|done|].
  intros E. rewrite E in Hs. clear -Hs. discriminate Hs.
Qed.

Lemma ex_stats_wf s : ex_stats = Ok s -> stats_wf ex_services ex_services s.
Proof.
  intros Hs. destruct ex_stats_make as (s' & H1 & H2). rewrite Hs in H1. injection H1 as <-.
  unfold stats_make in H2. bind_inv. injection H2 as <-.
  repeat match goal with
    | H : make _ ex_services = Ok _ |- _ =>
        apply ex_over in H; [destruct H as [? ?]|vm_compute; reflexivity]
    end.
  split; try assumption; cbn [tail_ds_service_time_us tail_e2e_time_us]; intros k e He;
    replace e with sqe_make by (symmetry; eauto); apply sqe_make_ok.
Qed.

Lemma latency_reported_witness : exists s s', ex_stats = Ok s /\
  report_latency true (fun i => 5000 + Z.of_nat i) ex_finished s = Ok s'.
Proof.
  destruct ex_stats as [s|] eqn:E; [|vm_compute in E; discriminate].
  exists s. pose proof (latency_reported ex_services ex_services true (fun i => 5000 + Z.of_nat i) ex_finished s
    (ex_stats_wf s E)) as H.
  assert ("geo"%string ∈ ex_services) as Hg by (unfold ex_services; left).
  specialize (H (conj Hg (fun _ => Hg))). specialize (H ltac:(vm_compute; discriminate)).
  change (error ex_finished) with false in H. cbv iota in H.
  change (5000 + Z.of_nat 0 <? req_for_time ex_finished) with false in H. cbv iota in H.
  destruct H as (s' & H1 & _). exists s'. split; [reflexivity|exact H1].
Defined.

(** ** Utilization *)

Section Util.
Context {Hist : Type} (record : Hist -> Z -> Hist) (reset : Hist -> Hist) (keys : list string).

(** Every map has every service. *)
Record util_wf (u : Utilization Hist) : Prop := {
  uw_total : over keys (total u);
  uw_last_in : over keys (last_in u);
  uw_count : over keys (u_count u);
  uw_update : over keys (last_update u);
  uw_report : over keys (last_report u)
}.

Lemma over_set_ok {T} (m : LocalMap T) k v : over keys m -> k ∈ keys ->
  exists m', LocalMap.set m k v = Ok m' /\ over keys m'.
Proof.
  intros Hm Hk. destruct (set_ok m k v) as [m' E]; [apply Hm|by apply (over_keys _ _ Hm)|].
  exists m'. split; [done|by eapply over_set].
Qed.

Lemma util_times_ok services : forall now m1 m2, (forall k, k ∈ services -> k ∈ keys) ->
  over keys m1 -> over keys m2 ->
  exists m1' m2', util_times services now m1 m2 = Ok (m1', m2') /\ over keys m1' /\ over keys m2'.
Proof.
  induction services as [|s services IH]; intros now m1 m2 Hin H1 H2; [by exists m1, m2|].
  cbn [util_times]. assert (s ∈ keys) as Hs by (apply Hin; left).
  destruct (over_set_ok m1 s (now 0%nat) H1 Hs) as (m1' & -> & H1').
  destruct (over_set_ok m2 s (now 1%nat) H2 Hs) as (m2' & E2 & H2'). cbn [mbind res_bind]. rewrite E2.
  apply IH; [|done..]. intros k Hk. apply Hin. by right.
Qed.

Lemma util_make_wf period_count now (h : Hist) u : keys_ok keys -> util_make period_count keys now h = Ok u -> util_wf u.
Proof.
  intros Hok E. unfold util_make in E. bind_inv. destruct a1 as [m1 m2]. injection E as <-.
  apply make_built, built_over in E0, E1; [|done..].
  destruct (util_times_ok keys now a0 a0) as (m1' & m2' & E3 & ? & ?); [done..|].
  rewrite E3 in E2. injection E2 as <- <-. by split.
Qed.

(** An update of a hosted service succeeds, and keeps every service. *)
Lemma util_update_ok in_ service now u : util_wf u -> service ∈ keys ->
  exists u', util_update record reset in_ service now u = Ok u' /\ util_wf u'.
Proof.
  intros [Ht Hl Hc Hu Hr] Hs. unfold util_update.
  assert (forall (T : Type) (m : LocalMap T) plus d, over keys m -> (forall a b, is_ok (plus a b)) ->
    exists m', LocalMap.add plus m service d = Ok m' /\ over keys m') as Hadd.
  { intros T m plus d Hm Hp. destruct (find_ptr_spec m service (over_wf _ _ Hm)) as [(i & s & Hf & Hi & _)|[_ Hn]].
    - destruct (Hp (sl_value s) d) as [v Hv]. exists (set_slot_value m i v).
      unfold LocalMap.add. rewrite Hf. cbn [mbind res_bind]. rewrite (get_slot_Ok m i s Hi). cbn [mbind res_bind].
      rewrite Hv. split; [done|]. eapply (over_set keys m _ service v Hm). unfold LocalMap.set. by rewrite Hf.
    - destruct Hn. by apply (over_keys _ _ Hm). }
  destruct (over_get _ _ _ Hu Hs) as [t0 ->], (over_get _ _ _ Hl Hs) as [l El]. cbn [mbind res_bind]. rewrite El. cbn [mbind res_bind].
  destruct (Hadd _ (total u) (fun a b => Ok (f64_add a b)) (f64_mul (f64_of_Z l) (f64_of_Z (to_us (now 0%nat - t0)))) Ht)
    as (t' & -> & Ht'); [by eexists|]. cbn [mbind res_bind].
  destruct (over_set_ok (last_in u) service in_ Hl Hs) as (l' & -> & Hl'). cbn [mbind res_bind].
  destruct (over_set_ok (last_update u) service (now 0%nat) Hu Hs) as (u' & -> & Hu'). cbn [mbind res_bind].
  destruct (Hadd _ (u_count u) (fun a b => Ok (u32 (a + b))) 1 Hc) as (c' & -> & Hc'); [by eexists|]. cbn [mbind res_bind].
  cbn [u_count period last_update total last_in last_report hist].
  destruct (over_get _ _ _ Hc' Hs) as [n ->]. cbn [mbind res_bind]. destruct (period u <=? n); [|by eexists].
  unfold util_report. cbn [u_count period last_update total last_in last_report hist].
  destruct (over_get _ _ _ Hr Hs) as [r Er]. rewrite Er. cbn [mbind res_bind].
  destruct (over_set_ok t' service fp_zero Ht' Hs) as (t2 & -> & ?). cbn [mbind res_bind].
  destruct (over_set_ok c' service 0 Hc' Hs) as (c2 & -> & ?). cbn [mbind res_bind].
  destruct (over_set_ok l' service 0 Hl' Hs) as (l2 & -> & ?). cbn [mbind res_bind].
  destruct (over_set_ok (last_report u) service (now 2%nat) Hr Hs) as (r2 & -> & ?). cbn [mbind res_bind].
  by eexists.
Qed.
End Util.
