(* ===== verification/TDigest.v ===== *)
(** * The t-digest: [src/tdigest.c] and the class [TDigest] of [include/stats.h]

    A digest keeps centroids, a mean and a count each, in one array: first the
    merged ones, then those added since. [merge] sorts the array and sums up
    neighbours in place. [qsort] and [log] of the C library are operations of
    a class; C leaves open how [qsort] orders equal elements, and what it does
    when the comparison is not an order, which is undefined here.

    The theorems: [merge] in place computes the centroids of a function on
    lists ([merge_in_place]), an addition stays in the array unless a merge
    cannot make room ([td_add_in_bounds]), and the answers about a batch do
    not depend on the order in which it came ([digest_order_irrelevant]). *)

From Stdlib Require Import ZArith Lia SpecFloat Sorted Permutation.
From stdpp Require Import base list sets sorting.
From S2P Require Import Prelude Fp.

Open Scope bool_scope.
Open Scope Z_scope.

(** ** Doubles *)

Definition fp_le (x y : fp) : bool := SFleb x y.
Definition fp_eq (x y : fp) : bool := SFeqb x y.
Definition fp_isnan (x : fp) : bool := match x with S754_nan => true | _ => false end.

Local Infix "⊕" := f64_add (at level 50, left associativity).
Local Infix "⊖" := f64_sub (at level 50, left associativity).
Local Infix "⊗" := f64_mul (at level 40, left associativity).
Local Infix "⊘" := f64_div (at level 40, left associativity).

(** The double nearest to the digits of the source. *)
Definition M_PI : fp := S754_finite false 7074237752028440 (-51).

(** ** Data *)

Record node_t := mkNode { mean : fp; count : fp }.
Definition node_zero : node_t := mkNode fp_zero fp_zero.

(** [nodes] is the flexible array at the end of the structure. *)
Record td_histogram_t := mkTD {
  compression : fp;
  cap : Z;
  merged_nodes : nat;
  unmerged_nodes : nat;
  merged_count : fp;
  unmerged_count : fp;
  nodes : list node_t
}.

Definition node_at (l : list node_t) (i : nat) : res node_t := or_fault Undefined (l !! i).
Definition set_node (i : nat) (n : node_t) (l : list node_t) : res (list node_t) :=
  if decide (i < length l)%nat then Ok (<[i := n]> l) else Err Undefined.

Definition is_very_small (val : fp) : bool :=
  negb (fp_gt val (f64_lit 1 1000000000) || fp_lt val (fp_neg (f64_lit 1 1000000000))).

Definition cap_from_compression (compression : fp) : res Z :=
  n ← fp_to_i32 compression;
  m ← checked_i32 (6 * n);
  checked_i32 (m + 10).

Definition should_merge (h : td_histogram_t) : bool :=
  Z.of_nat (merged_nodes h + unmerged_nodes h) =? cap h.
Definition next_node (h : td_histogram_t) : nat := merged_nodes h + unmerged_nodes h.

Definition compare_nodes (n1 n2 : node_t) : Z :=
  if fp_lt (mean n1) (mean n2) then -1
  else if fp_gt (mean n1) (mean n2) then 1
  else 0.

(** A comparison that orders the elements of [l], as [qsort] demands. *)
Record orders {A} (compar : A -> A -> Z) (l : list A) : Prop := {
  orders_flip x y : x ∈ l -> y ∈ l -> compar x y <= 0 <-> 0 <= compar y x;
  orders_trans x y z : x ∈ l -> y ∈ l -> z ∈ l ->
    compar x y <= 0 -> compar y z <= 0 -> compar x z <= 0
}.

Class CLib := {
  log : fp -> fp;
  qsort : (node_t -> node_t -> Z) -> list node_t -> list node_t;
  qsort_perm compar l : orders compar l -> qsort compar l ≡ₚ l;
  qsort_sorted compar l : orders compar l ->
    StronglySorted (fun a b => compar a b <= 0) (qsort compar l)
}.

(** ** Making a digest *)

(** [sizeof(td_histogram_t)] and [sizeof(node_t)]. *)
Definition header_size : Z := 40.
Definition node_size : Z := 16.

(** The [int] is widened to [size_t]. *)
Definition td_required_buf_size (compression : fp) : res Z :=
  n ← cap_from_compression compression;
  Ok (u64 (header_size + u64 n * node_size)).

(** [buf] is whether there is a buffer; if so it has [buf_size] bytes. *)
Definition td_init (compression : fp) (buf_size : Z) (buf : bool) : res (option td_histogram_t) :=
  if negb buf then Ok None
  else if buf_size <? header_size then Err Undefined
  else
    let n := (buf_size - header_size) / node_size in
    Ok (Some (mkTD compression (i32 n) 0 0 fp_zero fp_zero (replicate (Z.to_nat n) node_zero))).

(** [malloc] is whether the allocation succeeds. *)
Definition td_new (malloc : bool) (compression : fp) : res (option td_histogram_t) :=
  memsize ← td_required_buf_size compression;
  td_init compression memsize malloc.

Definition td_reset (h : td_histogram_t) : td_histogram_t :=
  mkTD (compression h) (cap h) 0 0 fp_zero fp_zero (replicate (Z.to_nat (cap h)) node_zero).

Definition td_total_count (h : td_histogram_t) : fp := merged_count h ⊕ unmerged_count h.

(** The sum over [todo] nodes from [i] on. *)
Fixpoint sum_nodes (ns : list node_t) (todo i : nat) (sum : fp) : res fp :=
  match todo with
  | O => Ok sum
  | S todo =>
      n ← node_at ns i;
      sum_nodes ns todo (S i) (sum ⊕ mean n ⊗ count n)
  end.
Definition td_total_sum (h : td_histogram_t) : res fp :=
  sum_nodes (nodes h) (next_node h) 0 fp_zero.

Section TDigest.
Context `{CLib}.

(** ** Merging *)

(** The test of the loop: does a centroid take the next node, if it has
    [proposed] values then? *)
Definition should_add (normalizer total so_far proposed : fp) : bool :=
  let z := proposed ⊗ normalizer in
  let q0 := so_far ⊘ total in
  let q2 := (so_far ⊕ proposed) ⊘ total in
  fp_le z (q0 ⊗ (f64_of_Z 1 ⊖ q0)) && fp_le z (q2 ⊗ (f64_of_Z 1 ⊖ q2)).

(** The centroid [c] with the node [n] in it. *)
Definition absorb (c n : node_t) : node_t :=
  let k := count c ⊕ count n in
  let delta := mean n ⊖ mean c in
  mkNode (mean c ⊕ (delta ⊗ count n) ⊘ k) k.

(** The body of the loop at [i], on the array, [cur] and [count_so_far]. *)
Definition merge_step (normalizer total : fp) (i : nat) (s : list node_t * nat * fp)
  : res (list node_t * nat * fp) :=
  let '(ns, cur, so_far) := s in
  c ← node_at ns cur;
  n ← node_at ns i;
  '(ns, cur, so_far) ←
    (if should_add normalizer total so_far (count c ⊕ count n)
     then ns' ← set_node cur (absorb c n) ns; Ok (ns', cur, so_far)
     else ns' ← set_node (S cur) n ns; Ok (ns', S cur, so_far ⊕ count c));
  if decide (cur = i) then Ok (ns, cur, so_far)
  else ns' ← set_node i node_zero ns; Ok (ns', cur, so_far).

(** The loop, [todo] turns from [i] on. *)
Fixpoint merge_loop (normalizer total : fp) (todo i : nat) (s : list node_t * nat * fp)
  : res (list node_t * nat * fp) :=
  match todo with
  | O => Ok s
  | S todo => s' ← merge_step normalizer total i s; merge_loop normalizer total todo (S i) s'
  end.

Definition normalizer (h : td_histogram_t) (total : fp) : fp :=
  compression h ⊘ (f64_of_Z 2 ⊗ M_PI ⊗ total ⊗ log total).

(** Two means of which one is no number are not in order. *)
Definition merge (h : td_histogram_t) : res td_histogram_t :=
  if decide (unmerged_nodes h = 0%nat) then Ok h
  else
    let N := next_node h in
    let buffered := take N (nodes h) in
    if (2 <=? N)%nat && existsb (fun n => fp_isnan (mean n)) buffered then Err Undefined
    else
      let sorted := qsort compare_nodes buffered ++ drop N (nodes h) in
      let total := merged_count h ⊕ unmerged_count h in
      '(ns, cur, _) ← merge_loop (normalizer h total) total (N - 1) 1 (sorted, 0%nat, fp_zero);
      Ok (mkTD (compression h) (cap h) (S cur) 0 total fp_zero ns).

Definition td_add (mean count : fp) (h : td_histogram_t) : res td_histogram_t :=
  h ← (if should_merge h then merge h else Ok h);
  ns ← set_node (next_node h) (mkNode mean count) (nodes h);
  Ok (mkTD (compression h) (cap h) (merged_nodes h) (S (unmerged_nodes h))
    (merged_count h) (unmerged_count h ⊕ count) ns).

(** [td_merge], of two digests: not of one into itself. *)
Fixpoint add_nodes (from : list node_t) (todo i : nat) (into : td_histogram_t) : res td_histogram_t :=
  match todo with
  | O => Ok into
  | S todo =>
      n ← node_at from i;
      into ← td_add (mean n) (count n) into;
      add_nodes from todo (S i) into
  end.
Definition td_merge (into from : td_histogram_t) : res (td_histogram_t * td_histogram_t) :=
  into ← merge into;
  from ← merge from;
  into ← add_nodes (nodes from) (merged_nodes from) 0 into;
  Ok (into, from).

Fixpoint decay_nodes (factor : fp) (todo i : nat) (ns : list node_t) : res (list node_t) :=
  match todo with
  | O => Ok ns
  | S todo =>
      n ← node_at ns i;
      ns ← set_node i (mkNode (mean n) (count n ⊗ factor)) ns;
      decay_nodes factor todo (S i) ns
  end.
Definition td_decay (factor : fp) (h : td_histogram_t) : res td_histogram_t :=
  h ← merge h;
  ns ← decay_nodes factor (merged_nodes h) 0 (nodes h);
  Ok (mkTD (compression h) (cap h) (merged_nodes h) (unmerged_nodes h)
    (merged_count h ⊗ factor) (unmerged_count h ⊗ factor) ns).

(** ** Queries *)

(** The loops that look for a node: the counts before [i], [i], and the
    position of [n], the last node looked at. *)
Fixpoint find_node (stop : fp -> node_t -> bool) (ns : list node_t) (todo i : nat) (k : fp) (n : option nat)
  : res (fp * nat * option nat) :=
  match todo with
  | O => Ok (k, i, n)
  | S todo =>
      x ← node_at ns i;
      if stop k x then Ok (k, i, Some i)
      else find_node stop ns todo (S i) (k ⊕ count x) (Some i)
  end.

(** The nodes of the same mean from [i] on add to the count. *)
Fixpoint count_equal (ns : list node_t) (m : fp) (todo i : nat) (k : fp) : res fp :=
  match todo with
  | O => Ok k
  | S todo =>
      x ← node_at ns i;
      if fp_eq (mean x) m then count_equal ns m todo (S i) (k ⊕ count x) else Ok k
  end.

Definition half (x : fp) : fp := x ⊘ f64_of_Z 2.
Definition node_before (ns : list node_t) (i : nat) : res node_t :=
  match i with O => Err Undefined | S i => node_at ns i end.

Definition td_quantile_of (val : fp) (h : td_histogram_t) : res (fp * td_histogram_t) :=
  h ← merge h;
  let ns := nodes h in
  if decide (merged_nodes h = 0%nat) then Ok (fp_nan, h)
  else
    '(k, i, pos) ← find_node (fun _ n => fp_ge (mean n) val) ns (merged_nodes h) 0 fp_zero None;
    pos ← or_fault Undefined pos;
    n ← node_at ns pos;
    if fp_eq val (mean n) then
      count_at_value ← count_equal ns (mean n) (merged_nodes h - S i) (S i) (count n);
      Ok ((k ⊕ half count_at_value) ⊘ merged_count h, h)
    else if fp_gt val (mean n) then Ok (f64_of_Z 1, h)
    else if decide (i = 0%nat) then Ok (fp_zero, h)
    else
      nl ← node_before ns pos;
      let k := k ⊖ half (count nl) in
      let m := (mean n ⊖ mean nl) ⊘ (half (count nl) ⊕ half (count n)) in
      let x := (val ⊖ mean nl) ⊘ m in
      Ok ((k ⊕ x) ⊘ merged_count h, h).

Definition td_value_at (q : fp) (h : td_histogram_t) : res (fp * td_histogram_t) :=
  h ← merge h;
  let ns := nodes h in
  if fp_lt q fp_zero || fp_gt q (f64_of_Z 1) || bool_decide (merged_nodes h = 0%nat) then Ok (fp_nan, h)
  else
    let goal := q ⊗ merged_count h in
    '(k, i, pos) ← find_node (fun k n => fp_gt (k ⊕ count n) goal) ns (merged_nodes h) 0 fp_zero None;
    pos ← or_fault Undefined pos;
    n ← node_at ns pos;
    let delta_k := goal ⊖ k ⊖ half (count n) in
    if is_very_small delta_k then Ok (mean n, h)
    else
      let right := fp_gt delta_k fp_zero in
      if (right && bool_decide (S i = merged_nodes h)) || (negb right && bool_decide (i = 0%nat))
      then Ok (mean n, h)
      else
        '(nl, nr, k) ←
          (if right then nr ← node_at ns (S i); Ok (n, nr, k ⊕ half (count n))
           else nl ← node_before ns i; Ok (nl, n, k ⊖ half (count nl)));
        let x := goal ⊖ k in
        let m := (mean nr ⊖ mean nl) ⊘ (half (count nl) ⊕ half (count nr)) in
        Ok (m ⊗ x ⊕ mean nl, h).

(** The loop over [todo] nodes from [i] on; the tails end at [lo] and [hi]. *)
Fixpoint trimmed_sum (ns : list node_t) (lo hi : fp) (todo i : nat) (seen sum : fp) : res fp :=
  match todo with
  | O => Ok sum
  | S todo =>
      seen ← (if decide (0 < i)%nat then n ← node_before ns i; Ok (seen ⊕ count n) else Ok seen);
      n ← node_at ns i;
      if fp_lt (count n) lo then trimmed_sum ns lo hi todo (S i) seen sum
      else if fp_gt seen hi then Ok sum
      else
        let left := if fp_lt seen lo then lo else seen in
        let right := seen ⊕ count n in
        let right := if fp_gt right hi then hi else right in
        trimmed_sum ns lo hi todo (S i) seen (sum ⊕ mean n ⊗ (right ⊖ left))
  end.
Definition td_trimmed_mean (lo hi : fp) (h : td_histogram_t) : res (fp * td_histogram_t) :=
  h ← (if should_merge h then merge h else Ok h);
  let total := merged_count h in
  weighted ← trimmed_sum (nodes h) (lo ⊗ total) (hi ⊗ total) (merged_nodes h) 0 fp_zero fp_zero;
  Ok (weighted ⊘ (total ⊗ (hi ⊖ lo)), h).

(** ** The class [TDigest]

    [td] is null if the allocation failed; without the log of measurements,
    [count] and [description] stay as they were made. *)
Definition TDigest := option td_histogram_t.

Definition tdigest_make (malloc : bool) : res TDigest := td_new malloc (f64_of_Z 200).

(** [val] is converted from [int32_t]. *)
Definition tdigest_add (val : Z) (td : TDigest) : res TDigest :=
  h ← or_fault Undefined td;
  h ← td_add (f64_of_Z val) (f64_of_Z 1) h;
  Ok (Some h).

Definition get_quantile (q : fp) (td : TDigest) : res (fp * TDigest) :=
  h ← or_fault Undefined td;
  '(val, h) ← td_value_at q h;
  Ok (if fp_isnan val then fp_zero else val, Some h).

End TDigest.

(** ** The order of doubles *)

(** A number as three integers, in whose lexicographic order it is compared. *)
Definition fp_key (x : fp) : Z * Z * Z :=
  match x with
  | S754_infinity s => ((if s then -2 else 2), 0, 0)
  | S754_finite s m e => if s then (-1, - e, - Zpos m) else (1, e, Zpos m)
  | _ => (0, 0, 0)
  end.
Definition key_lt (k k' : Z * Z * Z) : Prop :=
  let '(a, b, c) := k in
  let '(a', b', c') := k' in
  a < a' \/ a = a' /\ (b < b' \/ b = b' /\ c < c').

Lemma fp_lt_key x y : fp_isnan x = false -> fp_isnan y = false -> fp_lt x y = true <-> key_lt (fp_key x) (fp_key y).
Proof.
  assert (forall m n, Pos.compare_cont Eq m n = Pos.compare m n) as Hc by done.
  destruct x as [[]|[]| |[] m e], y as [[]|[]| |[] n e']; intros; try discriminate;
    cbv [fp_lt SFltb SFcompare fp_key key_lt]; rewrite ?Hc; try destruct (Z.compare_spec e e');
    try destruct (Pos.compare_spec m n); cbn [CompOpp]; intuition (discriminate || lia).
Qed.

Lemma compare_nodes_key n n' : fp_isnan (mean n) = false -> fp_isnan (mean n') = false ->
  (compare_nodes n n' <= 0 <-> ~ key_lt (fp_key (mean n')) (fp_key (mean n))) /\
  (0 <= compare_nodes n n' <-> ~ key_lt (fp_key (mean n)) (fp_key (mean n'))).
Proof.
  intros H1 H2. unfold compare_nodes, fp_gt. fold (fp_lt (mean n') (mean n)).
  pose proof (fp_lt_key _ _ H1 H2) as K. pose proof (fp_lt_key _ _ H2 H1) as K'.
  destruct (fp_lt (mean n) (mean n')), (fp_lt (mean n') (mean n));
    destruct (fp_key (mean n)) as [[? ?] ?], (fp_key (mean n')) as [[? ?] ?]; cbn [key_lt] in *; intuition (congruence || lia).
Qed.

(** The means of [l] are numbers. *)
Definition numbers (l : list node_t) : Prop := Forall (fun n => fp_isnan (mean n) = false) l.

Lemma compare_nodes_orders l : numbers l -> orders compare_nodes l.
Proof.
  intros Hl. assert (forall n, n ∈ l -> fp_isnan (mean n) = false) as Hn by (apply Forall_forall, Hl). constructor.
  - intros x y Hx Hy. by rewrite (proj1 (compare_nodes_key x y (Hn _ Hx) (Hn _ Hy))), (proj2 (compare_nodes_key y x (Hn _ Hy) (Hn _ Hx))).
  - intros x y z Hx Hy Hz. rewrite (proj1 (compare_nodes_key x y (Hn _ Hx) (Hn _ Hy))),
      (proj1 (compare_nodes_key y z (Hn _ Hy) (Hn _ Hz))), (proj1 (compare_nodes_key x z (Hn _ Hx) (Hn _ Hz))).
    destruct (fp_key (mean x)) as [[? ?] ?], (fp_key (mean y)) as [[? ?] ?], (fp_key (mean z)) as [[? ?] ?]. cbn [key_lt]. lia.
Qed.

Section Props.
Context `{CLib}.

(** ** Merging, as a function on lists *)

(** The centroids of [c] followed by [l], with [so_far] values before them. *)
Fixpoint centroids (normalizer total so_far : fp) (c : node_t) (l : list node_t) : list node_t :=
  match l with
  | [] => [c]
  | n :: l' =>
      if should_add normalizer total so_far (count c ⊕ count n)
      then centroids normalizer total so_far (absorb c n) l'
      else c :: centroids normalizer total (so_far ⊕ count c) n l'
  end.

(** A centroid of the nodes of [g], which come one after the other. *)
Definition centroid (g : list node_t) : option node_t :=
  match g with [] => None | c :: l => Some (foldl absorb c l) end.

Lemma centroids_groups nm t so_far c l : exists gs,
  concat gs = c :: l /\ centroid <$> gs = Some <$> centroids nm t so_far c l.
Proof.
  revert so_far c. induction l as [|n l IH]; intros so_far c; cbn [centroids]; [by exists [[c]]|].
  destruct (should_add _ _ _ _).
  - destruct (IH so_far (absorb c n)) as ([|[|d g] gs] & Hc & Hg).
    + done.
    + exfalso. cbn in Hg. by destruct (centroids nm t so_far (absorb c n) l).
    + injection Hc as -> Hc. exists ((c :: n :: g) :: gs). split; [cbn; by rewrite <- Hc|done].
  - destruct (IH (so_far ⊕ count c) n) as (gs & Hc & Hg). exists ([c] :: gs). cbn. by rewrite Hc, Hg.
Qed.

Lemma centroids_length nm t so_far c l : (1 <= length (centroids nm t so_far c l) <= S (length l))%nat.
Proof.
  revert so_far c. induction l as [|n l IH]; intros so_far c; cbn; [lia|].
  destruct (should_add _ _ _ _); [specialize (IH so_far (absorb c n))|specialize (IH (so_far ⊕ count c) n); cbn]; lia.
Qed.

Lemma node_at_middle l x r i : i = length l -> node_at (l ++ x :: r) i = Ok x.
Proof. intros ->. unfold node_at. by rewrite list_lookup_middle. Qed.
Lemma set_node_middle l x r n i : i = length l -> set_node i n (l ++ x :: r) = Ok (l ++ n :: r).
Proof.
  intros ->. unfold set_node. rewrite decide_True by (rewrite length_app; cbn; lia).
  by rewrite insert_app_r_alt, Nat.sub_diag by done.
Qed.

(** [k] nodes that hold nothing. *)
Definition room (k : nat) : list node_t := replicate k node_zero.
Lemma room_end k l : room k ++ node_zero :: l = room (S k) ++ l.
Proof. unfold room. rewrite replicate_S_end. by rewrite <- app_assoc. Qed.

(** A turn of the loop on an array that holds the centroids that are
    closed, the one that grows, the room they left, and the rest. *)
Lemma merge_step_run nm t so_far closed c z n rest :
  merge_step nm t (length closed + S z) (closed ++ c :: room z ++ n :: rest, length closed, so_far) =
    if should_add nm t so_far (count c ⊕ count n)
    then Ok (closed ++ absorb c n :: room (S z) ++ rest, length closed, so_far)
    else Ok (closed ++ c :: n :: room z ++ rest, S (length closed), so_far ⊕ count c).
Proof.
  assert (forall d x, closed ++ d :: room z ++ x :: rest = (closed ++ d :: room z) ++ x :: rest) as Hsplit by (by intros; rewrite <- app_assoc).
  assert (forall d, (length closed + S z)%nat = length (closed ++ d :: room z)) as Hi by (intros; rewrite length_app; cbn; unfold room; rewrite length_replicate; lia).
  assert (forall d x, closed ++ d :: x :: rest = (closed ++ [d]) ++ x :: rest) as Hsplit' by (by intros; rewrite <- app_assoc).
  unfold merge_step. rewrite (node_at_middle closed c _ (length closed)) by done. cbn [mbind res_bind].
  rewrite Hsplit, node_at_middle by apply Hi. cbn [mbind res_bind]. rewrite <- Hsplit.
  destruct (should_add _ _ _ _).
  - rewrite set_node_middle by done. cbn [mbind res_bind]. rewrite decide_False by lia.
    rewrite Hsplit, set_node_middle by apply Hi. cbn [mbind res_bind].
    by rewrite <- Hsplit, room_end.
  - destruct z as [|z].
    + cbn [room replicate app]. rewrite Hsplit', set_node_middle by (rewrite length_app; cbn; lia). cbn [mbind res_bind].
      rewrite decide_True by lia. by rewrite <- app_assoc.
    + change (c :: room (S z) ++ n :: rest) with ([c] ++ node_zero :: room z ++ n :: rest).
      rewrite app_assoc, set_node_middle by (rewrite length_app; cbn; lia). cbn [mbind res_bind]. rewrite decide_False by lia.
      assert (forall x, (closed ++ [c]) ++ n :: room z ++ x :: rest = (closed ++ c :: n :: room z) ++ x :: rest) as -> by (by intros; rewrite <- !app_assoc).
      rewrite set_node_middle by (rewrite length_app; cbn; unfold room; rewrite length_replicate; lia). cbn [mbind res_bind].
      by rewrite <- app_assoc; cbn; rewrite room_end.
Qed.

Lemma merge_loop_run nm t rest l closed c z so_far :
  let cs := closed ++ centroids nm t so_far c l in
  exists so_far', merge_loop nm t (length l) (length closed + S z) (closed ++ c :: room z ++ l ++ rest, length closed, so_far) =
    Ok (cs ++ room (length closed + S z + length l - length cs) ++ rest, (length cs - 1)%nat, so_far').
Proof.
  cbn zeta. revert closed c z so_far. induction l as [|n l IH]; intros closed c z so_far; cbn [merge_loop centroids length].
  - exists so_far. rewrite length_app, <- app_assoc. cbn [length app].
    replace (length closed + S z + 0 - (length closed + 1))%nat with z by lia. by replace (length closed + 1 - 1)%nat with (length closed) by lia.
  - cbn [app]. rewrite merge_step_run. destruct (should_add _ _ _ _); cbn [mbind res_bind].
    + destruct (IH closed (absorb c n) (S z) so_far) as [s' E]. exists s'.
      replace (S (length closed + S z)) with (length closed + S (S z))%nat by lia. rewrite E.
      by replace (length closed + S (S z) + length l)%nat with (length closed + S z + S (length l))%nat by lia.
    + destruct (IH (closed ++ [c]) n z (so_far ⊕ count c)) as [s' E]. exists s'. rewrite length_app in E. cbn [length] in E.
      rewrite <- !app_assoc in E. cbn [app] in E. replace (length closed + 1 + S z)%nat with (S (length closed + S z)) in E by lia.
      rewrite Nat.add_1_r in E. rewrite E.
      replace (S (length closed + S z) + length l)%nat with (length closed + S z + S (length l))%nat by lia. by rewrite <- (app_assoc closed).
Qed.
(** ** Digests *)

(** The counters fit the array. *)
Record td_wf (h : td_histogram_t) : Prop := {
  wf_cap : Z.of_nat (length (nodes h)) = cap h;
  wf_next : (next_node h <= length (nodes h))%nat
}.

(** The nodes in use. *)
Definition used (h : td_histogram_t) : list node_t := take (next_node h) (nodes h).
Lemma used_length h : td_wf h -> length (used h) = next_node h.
Proof. intros [_ Hn]. unfold used. rewrite length_take. lia. Qed.

Lemma numbers_no_nan l : numbers l -> existsb (fun n => fp_isnan (mean n)) l = false.
Proof. induction 1 as [|n l Hn _ IH]; cbn; [done|]. by rewrite Hn, IH. Qed.

(** What [merge] makes of the sorted nodes [c :: l]. *)
Definition merged (h : td_histogram_t) (c : node_t) (l : list node_t) : td_histogram_t :=
  let total := merged_count h ⊕ unmerged_count h in
  let cs := centroids (normalizer h total) total fp_zero c l in
  mkTD (compression h) (cap h) (length cs) 0 total fp_zero
    (cs ++ room (S (length l) - length cs) ++ drop (next_node h) (nodes h)).

Lemma merge_run h : td_wf h -> numbers (used h) -> unmerged_nodes h <> 0%nat ->
  exists c l, qsort compare_nodes (used h) = c :: l /\ length (used h) = S (length l) /\ merge h = Ok (merged h c l).
Proof.
  intros Hwf Hnum Hu. pose proof (used_length _ Hwf) as Hlen.
  pose proof (Permutation_length (qsort_perm _ _ (compare_nodes_orders _ Hnum))) as Hq.
  unfold merge. rewrite decide_False by done. fold (used h). rewrite (numbers_no_nan _ Hnum), andb_false_r.
  destruct (qsort compare_nodes (used h)) as [|c l]; [unfold next_node in *; cbn in Hq; lia|]. exists c, l.
  split; [done|]. split; [done|]. cbn [length] in Hq.
  destruct (merge_loop_run (normalizer h (merged_count h ⊕ unmerged_count h)) (merged_count h ⊕ unmerged_count h)
    (drop (next_node h) (nodes h)) l [] c 0 fp_zero) as [s E].
  replace (next_node h - 1)%nat with (length l) by lia. cbn [app length room replicate Nat.add] in E. cbn [app length]. rewrite E. cbn [mbind res_bind].
  unfold merged. pose proof (centroids_length (normalizer h (merged_count h ⊕ unmerged_count h)) (merged_count h ⊕ unmerged_count h) fp_zero c l).
  repeat (f_equal; try lia).
Qed.

Lemma merged_wf h c l : td_wf h -> next_node h = S (length l) -> td_wf (merged h c l).
Proof.
  intros [Hc Hn] Hl. pose proof (centroids_length (normalizer h (merged_count h ⊕ unmerged_count h)) (merged_count h ⊕ unmerged_count h) fp_zero c l).
  split; unfold next_node; cbn; rewrite !length_app, length_drop; unfold room; rewrite length_replicate; lia.
Qed.

Lemma used_merged h c l : used (merged h c l) =
  centroids (normalizer h (td_total_count h)) (td_total_count h) fp_zero c l.
Proof. unfold used, next_node. cbn. by rewrite Nat.add_0_r, take_app_length. Qed.

(** ** Additions *)

Lemma td_add_run m k h : should_merge h = false -> (next_node h < length (nodes h))%nat ->
  td_add m k h = Ok (mkTD (compression h) (cap h) (merged_nodes h) (S (unmerged_nodes h)) (merged_count h)
    (unmerged_count h ⊕ k) (<[next_node h := mkNode m k]> (nodes h))).
Proof. intros Hs Hn. unfold td_add. rewrite Hs. cbn. unfold set_node. by rewrite decide_True by done. Qed.

Lemma should_merge_full h : td_wf h -> should_merge h = false <-> (next_node h < length (nodes h))%nat.
Proof. intros [Hc Hn]. unfold should_merge. rewrite Z.eqb_neq, <- Hc. unfold next_node in *; lia. Qed.

(** A digest with a batch of values in it, not yet merged. *)
Record holds (h0 : td_histogram_t) (batch : list node_t) (h : td_histogram_t) : Prop := {
  ho_compression : compression h = compression h0;
  ho_cap : cap h = cap h0;
  ho_merged : merged_nodes h = merged_nodes h0;
  ho_unmerged : unmerged_nodes h = (unmerged_nodes h0 + length batch)%nat;
  ho_count : merged_count h = merged_count h0;
  ho_sum : unmerged_count h = foldl f64_add (unmerged_count h0) (count <$> batch);
  ho_nodes : nodes h = used h0 ++ batch ++ drop (next_node h0 + length batch) (nodes h0)
}.

Lemma holds_nil h : holds h [] h.
Proof. split; cbn; try done. unfold used. by rewrite Nat.add_0_r, take_drop. Qed.

Lemma td_add_holds h0 batch m k h : td_wf h0 -> (next_node h0 + length batch < length (nodes h0))%nat -> holds h0 batch h ->
  exists h', td_add m k h = Ok h' /\ holds h0 (batch ++ [mkNode m k]) h'.
Proof.
  intros Hwf Hroom Hh. pose proof (used_length _ Hwf) as Hu. destruct Hwf as [Hc Hn].
  assert (length (nodes h) = length (nodes h0)) as Hl.
  { rewrite (ho_nodes _ _ _ Hh), !length_app, length_drop, Hu. lia. }
  assert (next_node h = (next_node h0 + length batch)%nat) as Hnext.
  { unfold next_node. rewrite (ho_merged _ _ _ Hh), (ho_unmerged _ _ _ Hh). lia. }
  rewrite td_add_run.
  2:{ unfold should_merge. rewrite (ho_cap _ _ _ Hh), <- Hc. apply Z.eqb_neq. change (merged_nodes h + unmerged_nodes h)%nat with (next_node h). lia. }
  2:{ lia. }
  eexists. split; [reflexivity|]. destruct Hh. split; cbn; try done; rewrite ?length_app; cbn.
  - rewrite ho_unmerged0. lia.
  - by rewrite ho_sum0, fmap_app, foldl_app.
  - rewrite Hnext, ho_nodes0, app_assoc. rewrite insert_app_r_alt by (rewrite length_app; lia).
    rewrite length_app, Hu, Nat.sub_diag. destruct (drop (next_node h0 + length batch) (nodes h0)) as [|y d] eqn:E.
    { apply (f_equal length) in E. rewrite length_drop in E. cbn in E. lia. }
    cbn. rewrite <- !app_assoc. cbn. repeat f_equal.
    by rewrite Nat.add_assoc, <- drop_drop, E.
Qed.
(** ** Queries *)

Lemma node_at_Ok ns i : (i < length ns)%nat -> exists n, node_at ns i = Ok n.
Proof. intros [n E]%lookup_lt_is_Some. exists n. unfold node_at. by rewrite E. Qed.

(** The loop that looks for a node stops at one, or has passed the last. *)
Lemma find_node_run stop ns todo i k n : (i + todo <= length ns)%nat ->
  exists k' i' pos, find_node stop ns todo i k n = Ok (k', i', pos) /\
    ((i <= i' < i + todo)%nat /\ pos = Some i' \/ i' = (i + todo)%nat /\ pos = match todo with O => n | _ => Some (i' - 1)%nat end).
Proof.
  revert i k n. induction todo as [|todo IH]; intros i k n Hi; cbn [find_node].
  - exists k, i, n. split; [done|]. right. split; [lia|done].
  - destruct (node_at_Ok ns i) as [x ->]; [lia|]. cbn [mbind res_bind]. destruct (stop k x).
    + exists k, i, (Some i). split; [done|]. left. split; [lia|done].
    + destruct (IH (S i) (k ⊕ count x) (Some i)) as (k' & i' & pos & E & [[Hp ->]|[-> ->]]); [lia|..];
        eexists _, _, _; (split; [exact E|]); [left; split; [lia|done]|right].
      split; [lia|]. destruct todo; f_equal; lia.
Qed.

(** A query reads inside the array if it has a node to spare. *)
Lemma td_value_at_total q h h' : merge h = Ok h' -> (1 <= merged_nodes h')%nat -> (S (merged_nodes h') < length (nodes h'))%nat ->
  exists x, td_value_at q h = Ok (x, h').
Proof.
  intros Em H1 Hl. unfold td_value_at. rewrite Em. cbn [mbind res_bind].
  destruct (_ || _ || _); [by eexists|].
  destruct (find_node_run (fun k n => fp_gt (k ⊕ count n) (q ⊗ merged_count h')) (nodes h') (merged_nodes h') 0 fp_zero None)
    as (k & i & pos & -> & Hpos); [lia|]. cbn [mbind res_bind].
  assert (exists p, pos = Some p /\ (p < merged_nodes h')%nat /\ (i <= merged_nodes h')%nat) as (p & -> & Hp & Hi).
  { destruct Hpos as [[? ->]|[-> ->]]; [exists i; split; [done|lia]|].
    destruct (merged_nodes h') as [|m]; [lia|]. eexists. split; [done|lia]. }
  cbn [or_fault mbind res_bind]. destruct (node_at_Ok (nodes h') p) as [n ->]; [lia|]. cbn [mbind res_bind].
  destruct (is_very_small _); [by eexists|]. destruct (fp_gt (_ ⊖ _ ⊖ _) fp_zero); cbn [andb orb negb].
  - destruct (bool_decide _); cbn [orb]; [by eexists|]. destruct (node_at_Ok (nodes h') (S i)) as [nr ->]; [lia|]. by eexists.
  - case_bool_decide as Hi0; [by eexists|]. destruct i as [|i]; [done|]. cbn [node_before].
    destruct (node_at_Ok (nodes h') i) as [nl ->]; [lia|]. by eexists.
Qed.

(** ** Batches *)

(** Equal means are the same double in the nodes of [l]. *)
Definition distinguished (l : list node_t) : Prop :=
  forall n n', n ∈ l -> n' ∈ l -> compare_nodes n n' = 0 -> n = n'.

Lemma qsort_unique l l' : numbers l -> distinguished l -> l ≡ₚ l' -> qsort compare_nodes l = qsort compare_nodes l'.
Proof.
  intros Hl Hd Hp. assert (numbers l') as Hl' by (unfold numbers; by rewrite <- Hp).
  assert (qsort compare_nodes l ≡ₚ l) as P by apply qsort_perm, compare_nodes_orders, Hl.
  assert (qsort compare_nodes l' ≡ₚ l') as P' by apply qsort_perm, compare_nodes_orders, Hl'.
  apply (StronglySorted_unique_strong (fun a b => compare_nodes a b <= 0)).
  - intros n n'. rewrite P, P', <- Hp. intros Hn Hn' H1 H2. apply Hd; [done..|].
    apply (orders_flip _ _ (compare_nodes_orders _ Hl)) in H2; [|done..]. lia.
  - by apply qsort_sorted, compare_nodes_orders.
  - by apply qsort_sorted, compare_nodes_orders.
  - by rewrite P, P'.
Qed.

Section Holds.
Context (h0 : td_histogram_t) (batch : list node_t) (h : td_histogram_t).
Hypotheses (Hwf : td_wf h0) (Hfits : (next_node h0 + length batch <= length (nodes h0))%nat) (Hh : holds h0 batch h).

Lemma holds_next : next_node h = (next_node h0 + length batch)%nat.
Proof. unfold next_node. rewrite (ho_merged _ _ _ Hh), (ho_unmerged _ _ _ Hh). lia. Qed.
Lemma holds_length : length (nodes h) = length (nodes h0).
Proof. rewrite (ho_nodes _ _ _ Hh), !length_app, length_drop, (used_length _ Hwf). lia. Qed.
Lemma holds_wf : td_wf h.
Proof. destruct Hwf. split; rewrite holds_length, ?holds_next, ?(ho_cap _ _ _ Hh); done. Qed.
Lemma holds_used : used h = used h0 ++ batch.
Proof.
  unfold used at 1. rewrite holds_next, (ho_nodes _ _ _ Hh), app_assoc. apply take_app_length'.
  by rewrite length_app, (used_length _ Hwf).
Qed.
Lemma holds_rest : drop (next_node h) (nodes h) = drop (next_node h0 + length batch) (nodes h0).
Proof.
  rewrite holds_next, (ho_nodes _ _ _ Hh), app_assoc. apply drop_app_length'. by rewrite length_app, (used_length _ Hwf).
Qed.
End Holds.

(** Two digests that hold the same batch in different orders merge alike. *)
Lemma merge_permuted h0 batch batch' h h' : td_wf h0 -> next_node h0 = 0%nat -> batch ≡ₚ batch' -> batch <> [] ->
  (length batch <= length (nodes h0))%nat -> numbers batch -> distinguished batch -> count <$> batch = count <$> batch' ->
  holds h0 batch h -> holds h0 batch' h' ->
  exists m, merge h = Ok m /\ merge h' = Ok m /\ (1 <= merged_nodes m <= length batch)%nat /\ length (nodes m) = length (nodes h0).
Proof.
  intros Hwf H0 Hp Hne Hfit Hnum Hd Hc Hh Hh'. pose proof (Permutation_length Hp) as Hlen.
  assert (length batch <> 0%nat) as Hpos by (by destruct batch).
  assert (used h0 = []) as Hu0 by (unfold used; by rewrite H0).
  assert (used h = batch) as Hu by (by rewrite (holds_used h0 batch), Hu0 by (done || lia)).
  assert (used h' = batch') as Hu' by (by rewrite (holds_used h0 batch'), Hu0 by (done || lia)).
  destruct (merge_run h) as (c & l & Eq & El & Em); [apply (holds_wf h0 batch); (done || lia)|by rewrite Hu|rewrite (ho_unmerged _ _ _ Hh); lia|].
  destruct (merge_run h') as (c' & l' & Eq' & El' & Em');
    [apply (holds_wf h0 batch'); (done || lia)|rewrite Hu'; unfold numbers; by rewrite <- Hp|rewrite (ho_unmerged _ _ _ Hh'); lia|].
  rewrite Hu in Eq, El. rewrite Hu' in Eq', El'. rewrite <- (qsort_unique batch batch'), Eq in Eq' by done. injection Eq' as <- <-.
  exists (merged h c l). split; [done|]. split.
  - rewrite Em'. unfold merged, normalizer.
    rewrite (holds_rest h0 batch h), (holds_rest h0 batch' h') by (done || lia). destruct Hh, Hh'. by congruence.
  - pose proof (centroids_length (normalizer h (merged_count h ⊕ unmerged_count h)) (merged_count h ⊕ unmerged_count h) fp_zero c l).
    cbn. split; [lia|]. rewrite !length_app, (holds_rest h0 batch h), length_drop by (done || lia). unfold room. rewrite length_replicate. lia.
Qed.
(** The digest a thread makes, and values added to it one by one. *)
Definition tdigest_fresh : td_histogram_t :=
  mkTD (f64_of_Z 200) 1210 0 0 fp_zero fp_zero (replicate 1210 node_zero).
Lemma tdigest_make_run : tdigest_make true = Ok (Some tdigest_fresh).
Proof. vm_compute. reflexivity. Qed.
Lemma fresh_wf : td_wf tdigest_fresh.
Proof. split; vm_compute; [done|lia]. Qed.

Fixpoint tdigest_add_all (vs : list Z) (td : TDigest) : res TDigest :=
  match vs with
  | [] => Ok td
  | v :: vs => td ← tdigest_add v td; tdigest_add_all vs td
  end.

(** The answer of a new digest after the values [vs], and the digest then. *)
Definition ask (q : fp) (vs : list Z) : res (fp * TDigest) :=
  td ← tdigest_make true;
  td ← tdigest_add_all vs td;
  get_quantile q td.

Definition node_of (v : Z) : node_t := mkNode (f64_of_Z v) (f64_of_Z 1).

Lemma add_all_run vs batch h : (length batch + length vs <= 1210)%nat -> holds tdigest_fresh batch h ->
  exists h', tdigest_add_all vs (Some h) = Ok (Some h') /\ holds tdigest_fresh (batch ++ (node_of <$> vs)) h'.
Proof.
  assert (length (nodes tdigest_fresh) = 1210%nat) as Hl by (vm_compute; done).
  revert batch h. induction vs as [|v vs IH]; intros batch h Hn Hh; [exists h; by rewrite app_nil_r|].
  destruct (td_add_holds tdigest_fresh batch (f64_of_Z v) (f64_of_Z 1) h fresh_wf) as (h1 & E & Hh1).
  { rewrite Hl. cbn in *. lia. }
  { done. }
  destruct (IH (batch ++ [node_of v]) h1) as (h' & E' & Hh'); [rewrite length_app; cbn in *; lia|done|].
  exists h'. split; [|by rewrite <- app_assoc in Hh'].
  cbn [tdigest_add_all tdigest_add or_fault mbind res_bind]. rewrite E. exact E'.
Qed.

Definition int32 (v : Z) : Prop := - 2 ^ 31 <= v < 2 ^ 31.

(** The double of an [int32_t] is zero without a sign, or finite. *)
Lemma f64_of_int32 v : int32 v -> f64_of_Z v = S754_zero false \/ exists s m e, f64_of_Z v = S754_finite s m e.
Proof.
  intros Hv. destruct (decide (v = 0)) as [->|]; [by left|]. right.
  destruct (f64_of_small v) as (m & e & E); [done|unfold int32 in Hv; lia|]. by eexists _, m, e.
Qed.

Lemma nodes_of_numbers vs : Forall int32 vs -> numbers (node_of <$> vs).
Proof.
  intros Hvs. apply Forall_fmap. eapply Forall_impl; [exact Hvs|]. intros v Hv. cbn.
  by destruct (f64_of_int32 v Hv) as [->|(s & m & e & ->)].
Qed.

Lemma nodes_of_distinguished vs : Forall int32 vs -> distinguished (node_of <$> vs).
Proof.
  intros Hvs n n' Hn Hn' Hc. pose proof (nodes_of_numbers vs Hvs) as Hnum. unfold numbers in Hnum. rewrite Forall_forall in Hnum.
  destruct (compare_nodes_key n n' (Hnum _ Hn) (Hnum _ Hn')) as [K1 K2].
  rewrite Hc in K1, K2. apply proj1 in K1, K2. specialize (K1 ltac:(done)). specialize (K2 ltac:(done)).
  apply list_elem_of_fmap in Hn as (v & -> & Hv), Hn' as (v' & -> & Hv'). rewrite Forall_forall in Hvs.
  unfold node_of in *. cbn [mean] in *. f_equal. revert K1 K2.
  destruct (f64_of_int32 v (Hvs _ Hv)) as [->|([] & m & e & ->)], (f64_of_int32 v' (Hvs _ Hv')) as [->|([] & m' & e' & ->)];
    cbn [fp_key key_lt]; intros K1 K2; f_equal; lia.
Qed.

(** ** The theorems *)

(** C40: [merge] in place yields the centroids of the sorted nodes: each is the
    sum of nodes that are neighbours in order, and every node is in one of
    them. The counters still fit the array. *)
Theorem merge_in_place h : td_wf h -> numbers (used h) -> unmerged_nodes h <> 0%nat ->
  exists h' c l gs, merge h = Ok h' /\ td_wf h' /\ unmerged_nodes h' = 0%nat /\ merged_count h' = td_total_count h /\
    (1 <= merged_nodes h' <= next_node h)%nat /\
    c :: l ≡ₚ used h /\ StronglySorted (fun n n' => compare_nodes n n' <= 0) (c :: l) /\
    used h' = centroids (normalizer h (td_total_count h)) (td_total_count h) fp_zero c l /\
    concat gs = c :: l /\ centroid <$> gs = Some <$> used h'.
Proof.
  intros Hwf Hnum Hu. destruct (merge_run h Hwf Hnum Hu) as (c & l & Eq & El & Em).
  rewrite (used_length _ Hwf) in El.
  destruct (centroids_groups (normalizer h (td_total_count h)) (td_total_count h) fp_zero c l) as (gs & Hc & Hg).
  pose proof (centroids_length (normalizer h (td_total_count h)) (td_total_count h) fp_zero c l).
  exists (merged h c l), c, l, gs. split; [done|]. split; [by apply merged_wf|]. split; [done|]. split; [done|].
  split; [cbn; unfold td_total_count in *; lia|].
  rewrite <- Eq. split; [by apply qsort_perm, compare_nodes_orders|]. split; [by apply qsort_sorted, compare_nodes_orders|].
  rewrite used_merged. split; [done|]. split; [by rewrite Eq|done].
Qed.

(** [td_add] appends its node, after a merge if the array is full, and
    writes past the array exactly if that merge leaves no room. *)
Theorem td_add_in_bounds m k h : td_wf h -> numbers (used h) ->
  exists h1, (if should_merge h then merge h else Ok h) = Ok h1 /\ length (nodes h1) = length (nodes h) /\
    if decide (next_node h1 < length (nodes h))%nat
    then exists h', td_add m k h = Ok h' /\ td_wf h' /\ used h' = used h1 ++ [mkNode m k]
    else td_add m k h = Err Undefined /\ merged_nodes h1 = length (nodes h).
Proof.
  intros Hwf Hnum.
  assert (exists h1, (if should_merge h then merge h else Ok h) = Ok h1 /\ td_wf h1 /\ length (nodes h1) = length (nodes h) /\
    ((next_node h1 < length (nodes h))%nat \/ merged_nodes h1 = length (nodes h) /\ next_node h1 = length (nodes h))) as (h1 & E & Hwf1 & Hl & Hr).
  { destruct (should_merge h) eqn:Hs; [destruct (decide (unmerged_nodes h = 0%nat)) as [Hu|Hu]|].
    - exists h. split; [unfold merge; by rewrite decide_True by done|]. split; [done|]. split; [done|]. right.
      apply Z.eqb_eq in Hs. rewrite <- (wf_cap _ Hwf) in Hs. unfold next_node. lia.
    - destruct (merge_run h Hwf Hnum Hu) as (c & l & _ & El & ->). pose proof (wf_next _ Hwf) as Hn.
      pose proof (used_length _ Hwf) as Hun.
      pose proof (merged_wf h c l Hwf ltac:(lia)) as Hwf1.
      assert (length (nodes (merged h c l)) = length (nodes h)) as Hl.
      { destruct Hwf as [Hc _], Hwf1 as [Hc1 _]. cbn [merged cap] in Hc1. lia. }
      exists (merged h c l). split; [done|]. split; [done|]. split; [done|]. destruct Hwf1 as [_ Hn1].
      unfold next_node in Hn1 |- *. cbn [merged merged_nodes unmerged_nodes] in Hn1 |- *. lia.
    - exists h. split; [done|]. split; [done|]. split; [done|]. left. by apply should_merge_full. }
  exists h1. split; [done|]. split; [done|]. unfold td_add. rewrite E. cbn [mbind res_bind]. unfold set_node. rewrite Hl.
  destruct (decide (next_node h1 < length (nodes h))%nat) as [Hlt|Hge]; [|split; [done|lia]].
  eexists. split; [reflexivity|].
  destruct (td_add_holds h1 [] m k h1 Hwf1) as (h' & Ea & Hh'); [cbn; lia|apply holds_nil|].
  rewrite td_add_run in Ea by ((apply should_merge_full; [done|lia]) || lia). injection Ea as <-. cbn [app] in Hh'. split.
  - eapply holds_wf; [exact Hwf1| |exact Hh']. cbn. lia.
  - eapply holds_used; [| |exact Hh']; [done|cbn; lia].
Qed.
(** What a digest answers after a batch of values does not depend on the
    order in which they came, and neither does the digest it leaves. *)
Theorem digest_order_irrelevant q vs vs' : vs ≡ₚ vs' -> Forall int32 vs -> (0 < length vs <= 1208)%nat ->
  exists x td, ask q vs = Ok (x, td) /\ ask q vs' = Ok (x, td) /\ fp_isnan x = false.
Proof.
  intros Hp Hvs Hlen. pose proof (Permutation_length Hp) as Hlen'.
  assert (length (nodes tdigest_fresh) = 1210%nat) as Hl by (vm_compute; done).
  destruct (add_all_run vs [] tdigest_fresh) as (h & E & Hh); [cbn; lia|apply holds_nil|].
  destruct (add_all_run vs' [] tdigest_fresh) as (h' & E' & Hh'); [cbn; lia|apply holds_nil|]. cbn [app] in Hh, Hh'.
  destruct (merge_permuted tdigest_fresh (node_of <$> vs) (node_of <$> vs') h h') as (m & Em & Em' & Hm & Hml);
    [apply fresh_wf|done|by rewrite Hp|by destruct vs; [cbn in Hlen; lia|]|rewrite length_fmap, Hl; lia|by apply nodes_of_numbers|
     by apply nodes_of_distinguished| |done|done|].
  { rewrite <- !list_fmap_compose. clear -Hlen'. revert vs' Hlen'. induction vs; intros [|] ?; cbn in *; try done. f_equal. by apply IHvs; lia. }
  rewrite length_fmap in Hm.
  destruct (td_value_at_total q h m Em) as [x Ex]; [lia|rewrite Hml, Hl; lia|].
  destruct (td_value_at_total q h' m Em') as [x' Ex']; [lia|rewrite Hml, Hl; lia|].
  assert (x' = x) as ->.
  { unfold td_value_at in Ex, Ex'. rewrite Em in Ex. rewrite Em' in Ex'. cbn [mbind res_bind] in Ex, Ex'. congruence. }
  unfold ask. rewrite tdigest_make_run. cbn [mbind res_bind]. rewrite E, E'. cbn [mbind res_bind]. unfold get_quantile. cbn [or_fault mbind res_bind].
  rewrite Ex, Ex'. cbn [mbind res_bind]. eexists _, _. split; [reflexivity|]. split; [reflexivity|]. by destruct (fp_isnan x) eqn:?.
Qed.
End Props.

(** ** A C library

    A sort by insertion, and a logarithm that is right to a bit. *)
Section Insertion.
Context {A : Type} (compar : A -> A -> Z).

Fixpoint insert_by (n : A) (l : list A) : list A :=
  match l with
  | [] => [n]
  | m :: l' => if compar n m <=? 0 then n :: l else m :: insert_by n l'
  end.
Definition sort_by (l : list A) : list A := foldr insert_by [] l.

Lemma insert_by_perm n l : insert_by n l ≡ₚ n :: l.
Proof. induction l as [|m l IH]; cbn; [done|]. destruct (_ <=? _); [done|]. by rewrite IH, Permutation_swap. Qed.
Lemma sort_by_perm l : sort_by l ≡ₚ l.
Proof. induction l as [|n l IH]; cbn; [done|]. by rewrite insert_by_perm, IH. Qed.

Lemma orders_incl l l' : (forall x, x ∈ l' -> x ∈ l) -> orders compar l -> orders compar l'.
Proof. intros Hi [Hf Ht]. split; eauto. Qed.

Lemma insert_by_sorted n l : orders compar (n :: l) -> StronglySorted (fun a b => compar a b <= 0) l ->
  StronglySorted (fun a b => compar a b <= 0) (insert_by n l).
Proof.
  intros Ho Hs. induction Hs as [|m l Hs IH Hm]; cbn; [by repeat constructor|].
  assert (m ∈ n :: m :: l) as Im by (rewrite !elem_of_cons; tauto). assert (n ∈ n :: m :: l) as In' by (rewrite elem_of_cons; tauto).
  rewrite Forall_forall in Hm. destruct (Z.leb_spec (compar n m) 0) as [Hle|Hgt].
  - constructor; [constructor; [done|by apply Forall_forall]|]. apply Forall_forall. intros x [->|Hx]%elem_of_cons; [done|].
    apply (orders_trans _ _ Ho n m x); [done..| |done|by apply Hm]. rewrite !elem_of_cons. by do 2 right.
  - constructor; [apply IH, (orders_incl (n :: m :: l)); [intros x; rewrite !elem_of_cons; tauto|done]|].
    rewrite insert_by_perm. constructor; [|by apply Forall_forall]. apply (orders_flip _ _ Ho); [done..|lia].
Qed.

Lemma sort_by_sorted l : orders compar l -> StronglySorted (fun a b => compar a b <= 0) (sort_by l).
Proof.
  induction l as [|n l IH]; intros Ho; cbn; [constructor|]. apply insert_by_sorted.
  - apply (orders_incl (n :: l)); [|done]. intros x. by rewrite sort_by_perm.
  - apply IH, (orders_incl (n :: l)); [set_solver|done].
Qed.
End Insertion.

Definition ex_log (x : fp) : fp :=
  match x with
  | S754_finite false m e => f64_mul (f64_of_Z (Zpos (digits2_pos m) + e)) (f64_lit 693147 1000000)
  | _ => fp_nan
  end.

#[export] Instance ex_clib : CLib := {|
  log := ex_log;
  qsort := sort_by;
  qsort_perm compar l _ := sort_by_perm compar l;
  qsort_sorted := sort_by_sorted
|}.

(** ** Examples *)

Definition ex_digest (cap : Z) (compression : Z) (counts : list Z) : td_histogram_t :=
  mkTD (f64_of_Z compression) cap 0 (length counts) fp_zero (foldl f64_add fp_zero (f64_of_Z <$> counts))
    (((fun k => mkNode (f64_of_Z k) (f64_of_Z k)) <$> counts) ++ replicate (Z.to_nat cap - length counts) node_zero).

(** Sixteen values whose counts grow a thousandfold: none of them joins its
    neighbour, and the next one is written past the array. *)
Definition ex_steep : td_histogram_t := ex_digest 16 1 ((fun i => 1000 ^ Z.of_nat i) <$> seq 0 16).

Lemma td_new_steep : td_new true (f64_of_Z 1) = Ok (Some (ex_digest 16 1 [])).
Proof. vm_compute. reflexivity. Qed.
Lemma td_add_overruns : exists h, add_nodes (nodes ex_steep) 16 0 (ex_digest 16 1 []) = Ok h /\
  td_add (f64_of_Z 1) (f64_of_Z 1) h = Err Undefined.
Proof. eexists. split; [vm_compute; reflexivity|]. vm_compute. reflexivity. Qed.

(** The mean of ten values without their lowest and their highest fifth is
    zero, since no node of one value weighs as much as the lowest fifth. *)
Definition ex_ones : td_histogram_t :=
  mkTD (f64_of_Z 200) 1210 10 0 (f64_of_Z 10) fp_zero (replicate 10 (mkNode (f64_of_Z 7) (f64_of_Z 1)) ++ replicate 1200 node_zero).
Lemma td_trimmed_mean_skips : td_trimmed_mean (f64_lit 1 5) (f64_lit 4 5) ex_ones = Ok (fp_zero, ex_ones).
Proof. vm_compute. reflexivity. Qed.

(** One centroid and no number to rank: the node before the first is read. *)
Lemma td_quantile_of_nan : td_quantile_of fp_nan (mkTD (f64_of_Z 200) 1 1 0 (f64_of_Z 1) fp_zero [mkNode (f64_of_Z 7) (f64_of_Z 1)]) = Err Undefined.
Proof. vm_compute. reflexivity. Qed.

Lemma ex_steep_wf : td_wf ex_steep /\ numbers (used ex_steep).
Proof. split; [split; vm_compute; [done|lia]|]. unfold numbers. refine (bool_decide_unpack _ _). vm_compute. exact I. Qed.

Lemma merge_in_place_witness : exists h' c l gs, merge ex_steep = Ok h' /\ td_wf h' /\
  c :: l ≡ₚ used ex_steep /\ concat gs = c :: l /\ centroid <$> gs = Some <$> used h'.
Proof.
  destruct (merge_in_place ex_steep (proj1 ex_steep_wf) (proj2 ex_steep_wf)) as (h' & c & l & gs & E & Hw & _ & _ & _ & Hp & _ & _ & Hc & Hg).
  - vm_compute. discriminate.
  - exists h', c, l, gs. exact (conj E (conj Hw (conj Hp (conj Hc Hg)))).
Defined.

Lemma td_add_in_bounds_witness : exists h1, merge ex_steep = Ok h1 /\
  if decide (next_node h1 < 16)%nat then is_ok (td_add fp_zero (f64_of_Z 1) ex_steep)
  else td_add fp_zero (f64_of_Z 1) ex_steep = Err Undefined.
Proof.
  destruct (td_add_in_bounds fp_zero (f64_of_Z 1) ex_steep (proj1 ex_steep_wf) (proj2 ex_steep_wf)) as (h1 & E & _ & Ha).
  exists h1. split; [exact E|]. change (length (nodes ex_steep)) with 16%nat in Ha.
  destruct (decide (next_node h1 < 16)%nat); [destruct Ha as (h' & Eh & _); exists h'; exact Eh|exact (proj1 Ha)].
Defined.

Lemma digest_order_irrelevant_witness : [30; -10; 20] ≡ₚ [-10; 20; 30] /\ exists x td,
  ask (f64_lit 1 2) [30; -10; 20] = Ok (x, td) /\ ask (f64_lit 1 2) [-10; 20; 30] = Ok (x, td).
Proof.
  assert ([30; -10; 20] ≡ₚ [-10; 20; 30]) as Hp by exact (Permutation_cons_append [-10; 20] 30).
  split; [exact Hp|].
  destruct (digest_order_irrelevant (f64_lit 1 2) _ _ Hp) as (x & td & E & E' & _).
  - repeat (constructor; [unfold int32; lia|]). constructor.
  - cbn. lia.
  - exists x, td. exact (conj E E').
Defined.
Lemma ask_median : fst <$> ask (f64_lit 1 2) [30; -10; 20] = Ok (f64_of_Z 20).
Proof. vm_compute. reflexivity. Qed.
