(* ===== verification/Ingress.v ===== *)
(** * The ingress queue: [src/ingress.cc], [include/ingress.h]

    In an ingress sidecar a request waits in [queue] until a credit arrives;
    at most one credit request is outstanding at a time. Above the AIMD
    capacity an arriving request is turned into a 503 response. *)

From Stdlib Require Import ZArith Lia Ascii.
From stdpp Require Import base gmap strings list fin_maps.
From S2P Require Import Prelude Fp Config Buffers RpcMessage RpcMapper Queues LocalMap Stats.

Open Scope Z_scope.

(** ** The objects the handlers of a thread share by reference *)

Record Env := mkEnv {
  e_heap : heap;
  e_counter : Z;       (* local_id_counter, as this thread sees it *)
  e_mapper : RPCMapper;
  e_queue : RPCQueue;
  e_stats : Stats
}.

Definition set_heap (h : heap) (e : Env) : Env :=
  mkEnv h (e_counter e) (e_mapper e) (e_queue e) (e_stats e).
Definition set_counter (c : Z) (e : Env) : Env :=
  mkEnv (e_heap e) c (e_mapper e) (e_queue e) (e_stats e).
Definition set_mapper (m : RPCMapper) (e : Env) : Env :=
  mkEnv (e_heap e) (e_counter e) m (e_queue e) (e_stats e).
Definition set_rpc_queue (q : RPCQueue) (e : Env) : Env :=
  mkEnv (e_heap e) (e_counter e) (e_mapper e) q (e_stats e).
Definition set_stats (s : Stats) (e : Env) : Env :=
  mkEnv (e_heap e) (e_counter e) (e_mapper e) (e_queue e) s.

Definition deref (i : nat) (e : Env) : res RPCMessage := or_fault Undefined (e_heap e !! i).
Definition assign (i : nat) (r : RPCMessage) (e : Env) : Env := set_heap (<[i := r]> (e_heap e)) e.

(** ** State *)

(** [priority] has no initialiser outside an ingress. *)
Record Ingress := mkIngress {
  ingress_size_cap : Z;
  queue : list nat;
  ingress_mean : TimeWeightedMean;
  has_credit_request_on_fly : bool;
  ing_priority : option Z;
  drop_id : Z;
  drop_fd : Z;
  last_rpc_id : Z;
  ingress_service : string
}.

Definition aimd_queue_th : fp := f32_lit 8 10.
Definition RPC_ID_HEADER_NAME_LEN : Z := 7.
Definition PRIORITY_HEADER_NAME_LEN : Z := 9.

Definition set_cap (c : Z) (g : Ingress) : Ingress :=
  mkIngress c (queue g) (ingress_mean g) (has_credit_request_on_fly g) (ing_priority g) (drop_id g)
    (drop_fd g) (last_rpc_id g) (ingress_service g).
Definition set_ing_queue (q : list nat) (w : TimeWeightedMean) (g : Ingress) : Ingress :=
  mkIngress (ingress_size_cap g) q w (has_credit_request_on_fly g) (ing_priority g) (drop_id g)
    (drop_fd g) (last_rpc_id g) (ingress_service g).
Definition set_on_fly (b : bool) (g : Ingress) : Ingress :=
  mkIngress (ingress_size_cap g) (queue g) (ingress_mean g) b (ing_priority g) (drop_id g)
    (drop_fd g) (last_rpc_id g) (ingress_service g).
Definition set_drop_id (d : Z) (g : Ingress) : Ingress :=
  mkIngress (ingress_size_cap g) (queue g) (ingress_mean g) (has_credit_request_on_fly g)
    (ing_priority g) d (drop_fd g) (last_rpc_id g) (ingress_service g).
Definition set_last_rpc_id (x : Z) (g : Ingress) : Ingress :=
  mkIngress (ingress_size_cap g) (queue g) (ingress_mean g) (has_credit_request_on_fly g)
    (ing_priority g) (drop_id g) (drop_fd g) x (ingress_service g).

Definition ingress_make (c : Config) (index_arg : Z) (svc : string) : res Ingress :=
  let g := mkIngress 10 [] twm_make false None 0 (- index_arg) (i64 (Z.shiftl index_arg 48)) svc in
  if is_ingress c then
    entry ← or_fault (Throw OutOfRange) (routing c !! svc);
    _ ← or_fault Fatal (slo entry);
    p ← or_fault Fatal (rt_priority entry);
    _ ← fatal_if ((p <? 0) || (3 <? p));
    Ok (mkIngress 10 [] twm_make false (Some p) 0 (- index_arg) (i64 (Z.shiftl index_arg 48)) svc)
  else Ok g.

(** ** Headers *)

Definition add_rpc_id_header (c : Config) (i : nat) (g : Ingress) (e : Env) : res (Ingress * Env) :=
  id ← checked_i64 (last_rpc_id g + 1);
  r ← deref i e;
  '(r, counter) ← add_header_field (is_ingress c) (c_str "rpc-id") RPC_ID_HEADER_NAME_LEN
                    (fst (snprintf32 id)) 32 true false r (e_counter e);
  Ok (set_last_rpc_id id g, assign i r (set_counter counter e)).

Definition add_priority_header (c : Config) (i : nat) (g : Ingress) (e : Env) : res Env :=
  p ← or_fault Undefined (ing_priority g);
  r ← deref i e;
  '(r, counter) ← add_header_field (is_ingress c) (c_str "priority") PRIORITY_HEADER_NAME_LEN
                    (fst (snprintf32 p)) 32 true false r (e_counter e);
  Ok (assign i r (set_counter counter e)).

(** ** Drops *)

(** The downcast to [HTTPMessage] fails on a gRPC message. *)
Definition drop_rpc (i : nat) (g : Ingress) (e : Env) : res (Ingress * Env) :=
  r ← deref i e;
  _ ← fatal_if (match http r with HTTP1 => false | HTTP2 => true end);
  _ ← fatal_if (negb (bool_decide (service r = ingress_service g)));
  d ← checked_i32 (drop_id g + 1);
  l ← checked_i32 (d + 1);
  let r := set_us_stream_id d (set_us_fd (drop_fd g) (set_local_id (- l)
             (set_status 503 (set_error true r)))) in
  let e := assign i r e in
  m ← route EGRESS (ds_stream_id r) (ds_fd r) (us_stream_id r) (drop_fd g) (e_heap e) (e_mapper e);
  let q := rpc_enqueue EGRESS UPSTREAM (us_fd r) (us_stream_id r) (e_queue e) in
  Ok (set_drop_id d g, set_rpc_queue q (set_mapper m e)).

(** ** The queue *)

Definition ing_size (g : Ingress) : Z := Z.of_nat (length (queue g)).

Definition ing_enqueue (c : Config) (i : nat) (now : Z) (g : Ingress) (e : Env) : res (Ingress * Env) :=
  r ← deref i e;
  _ ← fatal_if (negb (bool_decide (service r = ingress_service g)));
  if ingress_size_cap g <=? ing_size g then drop_rpc i g e
  else
    '(g, e) ← add_rpc_id_header c i g e;
    e ← add_priority_header c i g e;
    let q := queue g ++ [i] in
    w ← twm_update (f64_of_Z (Z.of_nat (length q))) now (ingress_mean g);
    Ok (set_ing_queue q w g, e).

Definition ing_dequeue (now : Z) (g : Ingress) : res (nat * Ingress) :=
  match queue g with
  | [] => Err Fatal
  | i :: q =>
      w ← twm_update (f64_of_Z (Z.of_nat (length q))) now (ingress_mean g);
      Ok (i, set_on_fly false (set_ing_queue q w g))
  end.

Definition send_credit_request_checker (g : Ingress) : bool * Ingress :=
  let check := (0 <? ing_size g) && negb (has_credit_request_on_fly g) in
  (check, set_on_fly (if check then true else has_credit_request_on_fly g) g).

(** [front()] of an empty queue is undefined. *)
Definition get_tail_id (g : Ingress) (e : Env) : res Z :=
  i ← or_fault Undefined (head (queue g)); r ← deref i e; Ok (local_id r).
Definition get_tail_priority (g : Ingress) (e : Env) : res Z :=
  i ← or_fault Undefined (head (queue g)); r ← deref i e; Ok (priority r).

(** ** The AIMD capacity *)

(** The two branches on the error; [now] and [now'] are the readings of the
    two means. *)
Definition decrease_cap (c : Config) (cap : Z) : res Z :=
  fp_to_size_t (f32_ceil (f32_div (f32_of_Z cap) (aimd_adj_d c))).

Definition increase_cap (c : Config) (err ing_mean concurrency : fp) (cap : Z) : res Z :=
  if fp_ge ing_mean (f64_of_f32 (f32_mul (f32_of_Z cap) aimd_queue_th)) then
    d ← fp_to_size_t (f64_ceil (f64_mul (fp_neg err) (f64_of_f32 (aimd_adj_i c))));
    Ok (u64 (cap + d))
  else
    let bound := f64_mul (f64_of_f32 (safe_multiply c)) concurrency in
    if fp_gt (f64_of_f32 (f32_of_Z cap)) bound then
      let lowered := f64_ceil (f64_div (f64_of_Z cap) (f64_of_f32 (aimd_adj_d c))) in
      fp_to_size_t (fp_max bound lowered)
    else Ok cap.

Definition slo_error (c : Config) (svc : string) (s : Stats) : res fp :=
  entry ← or_fault (Throw OutOfRange) (routing c !! svc);
  slo_us ← checked_i32 (value_or (slo entry) 0 * 1000);
  t ← LocalMap.get (tail_e2e_time_us s) svc;
  Ok (f64_div (f64_sub (sqe_value t) (f64_of_Z slo_us)) (f64_of_Z slo_us)).

Definition update_ingress_cap (c : Config) (now now' : Z) (g : Ingress) (e : Env) : res (Ingress * Env) :=
  err ← slo_error c (ingress_service g) (e_stats e);
  '(g, e) ←
    (if fp_gt err (f64_of_f32 (aimd_err_d c)) then
       cap ← decrease_cap c (ingress_size_cap g); Ok (set_cap cap g, e)
     else if fp_lt err (f64_of_f32 (aimd_err_i c)) then
       '(ing_mean, w) ← twm_value now (ingress_mean g);
       let g := set_ing_queue (queue g) w g in
       conc ← LocalMap.get (time_mean_ds_concurrency (e_stats e)) (ingress_service g);
       '(concurrency, conc) ← twm_value now' conc;
       m ← LocalMap.set (time_mean_ds_concurrency (e_stats e)) (ingress_service g) conc;
       let e := set_stats (set_concurrency m (e_stats e)) e in
       cap ← increase_cap c err ing_mean concurrency (ingress_size_cap g);
       Ok (set_cap cap g, e)
     else Ok (g, e));
  Ok (set_cap (Z.max 1 (ingress_size_cap g)) g, e).
