(* ===== verification/IngressProps.v ===== *)
(** * The ingress queue: theorems

    Admission below the capacity stamps the request with a fresh id and the
    service's priority; above it the request becomes a routed 503. A credit
    that arrives finds a request, and the capacity is never zero. *)

From Stdlib Require Import ZArith Lia Ascii.
From stdpp Require Import base gmap strings list fin_maps.
From S2P Require Import Prelude Fp Config Buffers RpcMessage RpcMessageProps RpcMapper Queues LocalMap Stats StatsProps Ingress.

Open Scope Z_scope.

(** ** Appending a request header *)

Lemma push_req_header_small name nl value vl r : msg_wf r -> req_header_count r < 13 ->
  readable name nl -> readable value vl -> nl < 60 -> vl < 60 ->
  exists h, push_req_header name nl value vl r =
      Ok (set_req_headers (<[Z.to_nat (req_header_count r) := h]> (req_headers r)) (req_header_count r + 1) r) /\
    header_wf h /\ header_bytes h = (slice 0 (Z.to_nat nl) name, slice 0 (Z.to_nat vl) value).
Proof.
  intros Hwf Hc Hn Hv Hnl Hvl. unfold push_req_header.
  pose proof (push_header_spec name nl value vl (req_headers r) (req_header_count r) (mw_req _ Hwf) Hn Hv) as Ho.
  inversion Ho as [E|h ? ? ? Hw Hb E|? E|? E]; try lia. exists h. by cbn [mbind res_bind].
Qed.

Lemma set_req_headers_wf h r : msg_wf r -> req_header_count r < 13 -> header_wf h ->
  msg_wf (set_req_headers (<[Z.to_nat (req_header_count r) := h]> (req_headers r)) (req_header_count r + 1) r).
Proof.
  intros [[H1 H2 H3] H4 H5 H6 H7] Hc Hh. split; try done.
  split; cbn [set_req_headers req_headers req_header_count];
    [by rewrite length_insert|by apply Forall_insert|lia].
Qed.

Lemma length_snprintf32 z : length (snprintf32 z).1 = 32%nat.
Proof.
  destruct (snprintf32_layout z) as (pad & -> & _ & ->). rewrite length_app, length_replicate.
  pose proof (length_print_decimal z). lia.
Qed.

Lemma snprintf32_readable z : readable (snprintf32 z).1 32.
Proof. unfold readable. rewrite length_snprintf32. lia. Qed.

Lemma c_str_readable s n : n = Z.of_nat (String.length s) + 1 -> readable (c_str s) n.
Proof.
  intros ->. unfold readable, c_str. rewrite length_app, length_bytes_of_string. cbn [length]. lia.
Qed.

Lemma slice_whole {A} (l : list A) n : n = length l -> slice 0 n l = Some l.
Proof. intros ->. unfold slice. rewrite decide_True by lia. by rewrite drop_0, firstn_all. Qed.

(** What the header [h] says: its name, and the number its value denotes. *)
Definition says (h : HeaderField) (name : string) (z : Z) : Prop :=
  exists v, header_bytes h = (Some (c_str name), Some v) /\ stoll v = Ok z.

Lemma printed_says h name nl z : nl = Z.of_nat (String.length name) + 1 -> in_i64 z = true ->
  header_bytes h = (slice 0 (Z.to_nat nl) (c_str name), slice 0 (Z.to_nat 32) (snprintf32 z).1) ->
  says h name z.
Proof.
  intros Hl Hz Hb. exists (snprintf32 z).1.
  rewrite !slice_whole in Hb by (unfold c_str;
    rewrite ?length_snprintf32, ?length_app, ?length_bytes_of_string; cbn [length]; lia).
  split; [done|]. pose proof (read_printed_whole z Hz) as Hr. unfold read_stoll in Hr.
  by rewrite slice_whole in Hr by by rewrite length_snprintf32.
Qed.

(** A local id without a parent. *)
Lemma get_new_local_id_nonneg c l c' : get_new_local_id 0 c = Ok (l, c') -> 0 <= l.
Proof.
  intros (_ & Hu & Hr)%get_new_local_id_Ok. pose proof (wrap_range 32 (c + 1) ltac:(lia)). change (u32 0) with 0 in Hu.
  unfold in_i64 in Hr. destruct (Z.le_gt_cases 0 l) as [|Hl]; [done|]. unfold wrap in Hu at 1.
  rewrite <- (Z_mod_plus_full l 1), Z.mod_small in Hu by lia. unfold wrap in *. lia.
Qed.

(** ** The two headers of an admitted request *)

Section Headers.
Context (r : RPCMessage) (Hwf : msg_wf r) (Hhttp : http r = HTTP1).

Lemma rpc_id_header id c : req_header_count r < 13 -> in_i64 id = true -> counter_ok c ->
  exists h l, get_new_local_id 0 c = Ok (l, c + 1) /\ says h "rpc-id" id /\ header_wf h /\
    add_header_field true (c_str "rpc-id") RPC_ID_HEADER_NAME_LEN (fst (snprintf32 id)) 32 true false r c =
      Ok (set_req_headers (<[Z.to_nat (req_header_count r) := h]> (req_headers r)) (req_header_count r + 1)
            (set_local_id l (set_global_id id r)), c + 1).
Proof using Hwf Hhttp.
  intros Hn Hid Hc. unfold counter_ok in Hc.
  destruct (get_new_local_id_is_Ok 0 c) as [[l c'] El]; [lia|].
  pose proof (get_new_local_id_Ok _ _ _ _ El) as (-> & _).
  destruct (push_req_header_small (c_str "rpc-id") 7 (snprintf32 id).1 32 (set_local_id l (set_global_id id r)))
    as (h & Eh & Hh & Hb); [by destruct Hwf; split|done|by apply c_str_readable|apply snprintf32_readable|lia|lia|].
  exists h, l. split; [done|]. split; [by apply (printed_says h "rpc-id" 7)|]. split; [done|].
  unfold add_header_field. rewrite Hhttp. unfold http_add_header_field, interpret_header, on_rpc_id.
  change (memcmp_eq (c_str "rpc-id") "rpc-id") with (Ok true).
  cbn [fatal_if mbind res_bind orb]. rewrite (read_printed_whole id Hid). cbn [mbind res_bind].
  rewrite El. cbn [mbind res_bind].
  unfold on_rpc_local_id, on_priority.
  change (memcmp_eq (c_str "rpc-id") "rpc-local-id") with (Ok false).
  change (memcmp_eq (c_str "rpc-id") "priority") with (Ok false). cbn [mbind res_bind].
  unfold RPC_ID_HEADER_NAME_LEN. rewrite Eh. done.
Qed.

Lemma priority_header p c : req_header_count r < 13 -> - 2 ^ 31 <= p < 2 ^ 31 ->
  exists h, says h "priority" p /\ header_wf h /\
    add_header_field true (c_str "priority") PRIORITY_HEADER_NAME_LEN (fst (snprintf32 p)) 32 true false r c =
      Ok (set_req_headers (<[Z.to_nat (req_header_count r) := h]> (req_headers r)) (req_header_count r + 1)
            (set_priority p r), c).
Proof using Hwf Hhttp.
  intros Hn Hp. assert (in_i64 p = true) as Hp64 by (unfold in_i64; lia).
  destruct (push_req_header_small (c_str "priority") 9 (snprintf32 p).1 32 (set_priority p r))
    as (h & Eh & Hh & Hb); [by destruct Hwf; split|done|by apply c_str_readable|apply snprintf32_readable|lia|lia|].
  exists h. split; [by apply (printed_says h "priority" 9)|]. split; [done|].
  unfold add_header_field. rewrite Hhttp.
  unfold http_add_header_field, interpret_header, on_rpc_id, on_rpc_local_id, on_priority.
  change (memcmp_eq (c_str "priority") "rpc-id") with (Ok false).
  change (memcmp_eq (c_str "priority") "rpc-local-id") with (Ok false).
  change (memcmp_eq (c_str "priority") "priority") with (Ok true).
  cbn [fatal_if mbind res_bind]. rewrite (read_printed_whole p Hp64). cbn [mbind res_bind].
  rewrite swrap_small by lia. unfold PRIORITY_HEADER_NAME_LEN. rewrite Eh. done.
Qed.
End Headers.

(** ** Admission *)

(** The parts of the state the constructor establishes and every operation
    keeps. *)
Record ing_wf (g : Ingress) : Prop := {
  iw_cap : 1 <= ingress_size_cap g;
  iw_mean : is_Some (last_flush_ (ingress_mean g)) -> is_Some (last_t_ (ingress_mean g));
  iw_waiting : has_credit_request_on_fly g = true -> queue g <> []
}.

(** C33: Below the capacity the ingress admits an HTTP request of its service:
    it goes to the end of the queue, which stays within the capacity, with
    the next RPC id, a local id and the service's priority; the two headers
    appended to it say that RPC id and that priority to whoever parses them
    back; nothing else changes. *)
Theorem ingress_admits (c : Config) (i : nat) (now : Z) (g : Ingress) (e : Env) (r : RPCMessage) (p : Z) :
  is_ingress c = true -> ing_wf g -> e_heap e !! i = Some r -> msg_wf r -> http r = HTTP1 ->
  service r = ingress_service g -> ing_size g < ingress_size_cap g -> req_header_count r <= 11 ->
  ing_priority g = Some p -> 0 <= p <= 3 -> - 2 ^ 62 <= last_rpc_id g < 2 ^ 62 -> counter_ok (e_counter e) ->
  exists g' e' r' h1 h2, ing_enqueue c i now g e = Ok (g', e') /\ ing_wf g' /\
    queue g' = queue g ++ [i] /\ ing_size g' <= ingress_size_cap g' /\
    has_credit_request_on_fly g' = has_credit_request_on_fly g /\
    e' = set_counter (e_counter e + 1) (assign i r' e) /\
    global_id r' = last_rpc_id g + 1 /\ last_rpc_id g' = last_rpc_id g + 1 /\
    0 <= local_id r' /\ priority r' = p /\
    req_header_count r' = req_header_count r + 2 /\
    req_headers r' !! Z.to_nat (req_header_count r) = Some h1 /\ says h1 "rpc-id" (global_id r') /\
    req_headers r' !! Z.to_nat (req_header_count r + 1) = Some h2 /\ says h2 "priority" p.
Proof.
  intros Hing [Hcap Hmean Hwait] Hr Hwf Hh Hs Hsz Hn Hp Hpr Hid Hc.
  unfold ing_enqueue, deref. rewrite Hr. cbn [or_fault mbind res_bind].
  rewrite bool_decide_eq_true_2 by done. cbn [negb fatal_if mbind res_bind].
  replace (ingress_size_cap g <=? ing_size g) with false by lia.
  assert (in_i64 (last_rpc_id g + 1) = true) as H64 by (unfold in_i64; lia).
  destruct (rpc_id_header r Hwf Hh (last_rpc_id g + 1) (e_counter e)) as (h1 & l & El & Hs1 & Hw1 & E1);
    [lia|done|done|].
  assert (0 <= l) as Hl0 by by eapply get_new_local_id_nonneg.
  unfold add_rpc_id_header, checked_i64, deref. rewrite H64, Hr, Hing. cbn [or_fault mbind res_bind].
  rewrite E1. cbn [mbind res_bind].
  set (r1 := set_req_headers _ _ _) in *.
  assert (msg_wf r1) as Hwf1.
  { apply (set_req_headers_wf h1 (set_local_id l (set_global_id (last_rpc_id g + 1) r)));
      [by destruct Hwf; split|cbn; lia|done]. }
  destruct (priority_header r1 Hwf1 Hh p (e_counter e + 1)) as (h2 & Hs2 & Hw2 & E2); [cbn; lia|lia|].
  unfold add_priority_header, deref. cbn [ing_priority set_last_rpc_id e_heap assign set_heap set_counter e_counter].
  rewrite Hp, Hing, lookup_insert_eq. cbn [or_fault mbind res_bind]. rewrite E2. cbn [mbind res_bind].
  cbn [queue ingress_mean set_last_rpc_id].
  destruct (twm_update_level (f64_of_Z (Z.of_nat (length (queue g ++ [i])))) now (ingress_mean g) Hmean)
    as (w & -> & _ & Hw'). cbn [mbind res_bind].
  eexists _, _, (set_req_headers (<[Z.to_nat (req_header_count r1):=h2]> (req_headers r1))
    (req_header_count r1 + 1) (set_priority p r1)), h1, h2.
  split; [reflexivity|].
  cbn [set_ing_queue set_last_rpc_id queue ingress_size_cap has_credit_request_on_fly last_rpc_id].
  assert (length (req_headers r) = 13%nat) as Hlen by apply Hwf.
  pose proof (hsw_count _ _ (mw_req _ Hwf)).
  split; [split; [done|done|by destruct (queue g)]|]. split; [done|].
  split; [unfold ing_size in *; cbn [queue set_ing_queue]; rewrite length_app; cbn [length]; lia|].
  split; [done|]. split.
  { unfold assign, set_counter, set_heap. cbn [e_heap e_counter e_mapper e_queue e_stats]. f_equal.
    apply insert_insert_eq. }
  split; [done|]. split; [done|]. split; [exact Hl0|]. split; [done|]. split; [cbn; lia|].
  cbn [r1 set_req_headers req_headers req_header_count set_priority set_local_id set_global_id].
  split; [rewrite list_lookup_insert_ne by lia; apply list_lookup_insert_eq; lia|]. split; [exact Hs1|].
  split; [apply list_lookup_insert_eq; rewrite length_insert; lia|exact Hs2].
Qed.

(** ** Drops *)

(** At or above the capacity the arriving HTTP request is dropped, not the
    one at the head that the documents speak of: it becomes an error with status 503, is routed under
    the drop descriptor and a fresh drop id, and is queued as a response for
    its client, last in the egress upstream queue; the waiting requests stay. *)
Theorem ingress_drops (c : Config) (i : nat) (now : Z) (g : Ingress) (e : Env) (r : RPCMessage) :
  e_heap e !! i = Some r -> http r = HTTP1 -> service r = ingress_service g ->
  ingress_size_cap g <= ing_size g -> 0 <= drop_id g < 2 ^ 30 ->
  find_at (at_type EGRESS (ds_map (e_mapper e))) (ds_fd r) (ds_stream_id r) = Some i ->
  find_at (at_type EGRESS (us_map (e_mapper e))) (drop_fd g) (drop_id g + 1) = None ->
  at_type EGRESS (id_map (e_mapper e)) !! (- (drop_id g + 2)) = None ->
  exists e' r', ing_enqueue c i now g e = Ok (set_drop_id (drop_id g + 1) g, e') /\
    e_heap e' = <[i := r']> (e_heap e) /\ is_drop r' = true /\ local_id r' = - (drop_id g + 2) /\
    get_us_rpc EGRESS (drop_id g + 1) (drop_fd g) (e_mapper e') = Ok i /\
    e_queue e' = rpc_enqueue EGRESS UPSTREAM (drop_fd g) (drop_id g + 1) (e_queue e) /\
    e_counter e' = e_counter e /\ e_stats e' = e_stats e.
Proof.
  intros Hr Hh Hs Hsz Hd Hds Hus Hid. unfold ing_enqueue, drop_rpc, deref. rewrite Hr.
  cbn [or_fault mbind res_bind]. rewrite bool_decide_eq_true_2 by done. cbn [negb fatal_if mbind res_bind].
  replace (ingress_size_cap g <=? ing_size g) with true by lia.
  cbn [or_fault mbind res_bind]. rewrite Hh.
  cbn [negb fatal_if mbind res_bind].
  rewrite !(proj2 (checked_i32_Ok (drop_id g + 1) _)) by (split; [done|lia]). cbn [mbind res_bind].
  rewrite !(proj2 (checked_i32_Ok (drop_id g + 1 + 1) _)) by (split; [done|lia]). cbn [mbind res_bind].
  set (r' := set_us_stream_id (drop_id g + 1) (set_us_fd (drop_fd g)
    (set_local_id (- (drop_id g + 1 + 1)) (set_status 503 (set_error true r))))).
  destruct (route_tracks EGRESS i (<[i := r']> (e_heap e)) (e_mapper e) r') as (m' & Em & Ht & _);
    [apply lookup_insert_eq|done|done| |].
  { cbn [r' local_id set_us_stream_id set_us_fd set_local_id].
    by replace (- (drop_id g + 1 + 1)) with (- (drop_id g + 2)) by lia. }
  cbn [assign set_heap e_heap e_mapper e_queue]. change (us_fd r') with (drop_fd g) in Em.
  rewrite Em. cbn [mbind res_bind]. eexists _, r'. split; [reflexivity|].
  cbn [set_rpc_queue set_mapper assign set_heap e_heap e_mapper e_queue e_counter e_stats].
  split; [done|]. split; [unfold is_drop; cbn; by rewrite Hh|]. split; [cbn; lia|].
  split; [unfold get_us_rpc; change (drop_fd g) with (us_fd r');
    change (drop_id g + 1) with (us_stream_id r'); by rewrite (tr_us _ _ _ _ _ Ht)|]. done.
Qed.

(** ** Credits *)

Lemma twm_update_mean sample t w w' : (is_Some (last_flush_ w) -> is_Some (last_t_ w)) ->
  twm_update sample t w = Ok w' -> is_Some (last_flush_ w') -> is_Some (last_t_ w').
Proof. intros Hw E. destruct (twm_update_level sample t w Hw) as (w'' & E' & _ & H).
  rewrite E in E'. by injection E' as ->. Qed.

Lemma twm_value_mean now w x w' : (is_Some (last_flush_ w) -> is_Some (last_t_ w)) ->
  twm_value now w = Ok (x, w') -> is_Some (last_flush_ w') -> is_Some (last_t_ w').
Proof.
  intros Hw. unfold twm_value. destruct (last_flush_ w) as [f|] eqn:Ef.
  - destruct (negb _); [intros [= _ <-]; auto|]. intros H. bind_inv. injection H as _ <-. intros _. by eexists.
  - intros [= _ <-]. rewrite Ef. by intros [].
Qed.

Lemma drop_rpc_queue i g e g' e' : drop_rpc i g e = Ok (g', e') -> exists d, g' = set_drop_id d g.
Proof. unfold drop_rpc. intros H. bind_inv. injection H as <- _. by eexists. Qed.

Lemma ing_enqueue_wf c i now g e g' e' : ing_wf g -> ing_enqueue c i now g e = Ok (g', e') ->
  ing_wf g' /\ has_credit_request_on_fly g' = has_credit_request_on_fly g.
Proof.
  intros [Hc Hm Hw]. unfold ing_enqueue. intros H. bind_inv. destruct (_ <=? _).
  - destruct (drop_rpc_queue _ _ _ _ _ H) as [d ->]. by split.
  - bind_inv. destruct a1 as [g1 e1]. bind_inv. injection H as <- <-.
    unfold add_rpc_id_header in E1. bind_inv. destruct a5 as [r1 c1]. injection E1 as <- <-.
    split; [|done]. split; cbn [set_ing_queue set_last_rpc_id ingress_size_cap ingress_mean queue has_credit_request_on_fly].
    + done.
    + by eapply twm_update_mean.
    + by destruct (queue g).
Qed.

Lemma ing_dequeue_wf now g i g' : ing_wf g -> ing_dequeue now g = Ok (i, g') ->
  ing_wf g' /\ has_credit_request_on_fly g' = false /\ queue g = i :: queue g'.
Proof.
  intros [Hc Hm Hw]. unfold ing_dequeue. destruct (queue g) as [|j q]; [done|]. intros H. bind_inv.
  injection H as <- <-. split; [|done]. split; [done|by eapply twm_update_mean|done].
Qed.

Lemma update_cap_wf c now now' g e g' e' : ing_wf g -> update_ingress_cap c now now' g e = Ok (g', e') ->
  ing_wf g' /\ has_credit_request_on_fly g' = has_credit_request_on_fly g /\ queue g' = queue g.
Proof.
  intros [Hc Hm Hw]. unfold update_ingress_cap. intros H. bind_inv. destruct a0 as [g1 e1].
  injection H as <- <-.
  assert (has_credit_request_on_fly g1 = has_credit_request_on_fly g /\ queue g1 = queue g /\
    (is_Some (last_flush_ (ingress_mean g1)) -> is_Some (last_t_ (ingress_mean g1)))) as (E1 & E2 & Hm1).
  { destruct (fp_gt _ _); [bind_inv; by injection E0 as <- _|]. destruct (fp_lt _ _); [|by injection E0 as <- _].
    bind_inv. destruct a0 as [x w]. bind_inv. destruct a1 as [y v]. bind_inv. injection E0 as <- _.
    do 2 (split; [done|]). cbn. by eapply twm_value_mean. }
  split; [|done]. split; cbn [set_cap ingress_size_cap ingress_mean has_credit_request_on_fly queue];
    [lia|done|by rewrite E1, E2].
Qed.

(** The states of an ingress: requests arrive, the capacity is adjusted,
    credits are asked for, and a credit comes back for each one asked. *)
Inductive ing_reach (c : Config) : nat -> nat -> Ingress -> Prop :=
  | ir_make index svc g : ingress_make c index svc = Ok g -> ing_reach c 0 0 g
  | ir_enqueue a k i now g e g' e' : ing_reach c a k g ->
      ing_enqueue c i now g e = Ok (g', e') -> ing_reach c a k g'
  | ir_adjust a k now now' g e g' e' : ing_reach c a k g ->
      update_ingress_cap c now now' g e = Ok (g', e') -> ing_reach c a k g'
  | ir_ask a k g : ing_reach c a k g ->
      ing_reach c (if fst (send_credit_request_checker g) then S a else a) k (snd (send_credit_request_checker g))
  | ir_credit a k now g i g' : ing_reach c a k g -> (k < a)%nat ->
      ing_dequeue now g = Ok (i, g') -> ing_reach c a (S k) g'.

Lemma ing_reach_inv c a k g : ing_reach c a k g ->
  ing_wf g /\ a = (k + if has_credit_request_on_fly g then 1 else 0)%nat.
Proof.
  induction 1 as [index svc g E|a k i now g e g' e' _ [IH Ha] E|a k now now' g e g' e' _ [IH Ha] E
    |a k g _ [IH Ha]|a k now g i g' _ [IH Ha] Hk E].
  - unfold ingress_make in E. destruct (is_ingress c).
    + bind_inv. injection E as <-. split; [split; [cbn; lia|by intros []|done]|done].
    + injection E as <-. split; [split; [cbn; lia|by intros []|done]|done].
  - destruct (ing_enqueue_wf _ _ _ _ _ _ _ IH E) as [? ->]. done.
  - destruct (update_cap_wf _ _ _ _ _ _ _ IH E) as (? & -> & _). done.
  - unfold send_credit_request_checker, ing_size. destruct IH as [Hc Hm Hw].
    destruct (has_credit_request_on_fly g) eqn:Ef.
    + rewrite andb_false_r. cbn [fst snd]. split; [|done]. split; [done|done|]. intros _. by apply Hw.
    + destruct (Z.ltb_spec 0 (Z.of_nat (length (queue g)))) as [Hq|Hq]; cbn [negb andb fst snd].
      * split; [|cbn; lia]. split; [done|done|]. intros _ E. cbn in E. rewrite E in Hq. simpl in Hq. lia.
      * split; [|cbn; lia]. split; done.
  - destruct (ing_dequeue_wf _ _ _ _ IH E) as (Hw' & -> & _). split; [done|].
    destruct (has_credit_request_on_fly g); lia.
Qed.

(** C32: At most one credit request of an ingress is outstanding, and the
    credit that answers it finds a waiting request: whatever arrives and
    however the capacity moves in between, [dequeue] then returns the head of
    the queue and never fails. (The code's answer to an empty queue, returning
    the credit, is never taken.) *)
Theorem credit_finds_request (c : Config) (a k : nat) (g : Ingress) (now : Z) : ing_reach c a k g ->
  (a <= S k)%nat /\ (k <= a)%nat /\ 1 <= ingress_size_cap g /\
  (fst (send_credit_request_checker g) = true <-> a = k /\ queue g <> []) /\
  ((k < a)%nat -> exists i g', ing_dequeue now g = Ok (i, g') /\ queue g = i :: queue g' /\
     has_credit_request_on_fly g' = false).
Proof.
  intros Hr. destruct (ing_reach_inv c a k g Hr) as [Hwf Ha]. pose proof Hwf as [Hc Hm Hw].
  split; [destruct (has_credit_request_on_fly g); lia|]. split; [lia|]. split; [done|]. split.
  - unfold send_credit_request_checker, ing_size. cbn [fst]. rewrite andb_true_iff, negb_true_iff, Z.ltb_lt.
    destruct (has_credit_request_on_fly g), (queue g); cbn [length]; split; intros; destruct_and?; try split;
      try done; try lia.
  - intros Hk. destruct (has_credit_request_on_fly g) eqn:Ef; [|lia]. specialize (Hw eq_refl).
    unfold ing_dequeue. destruct (queue g) as [|j q]; [done|].
    destruct (twm_update_level (f64_of_Z (Z.of_nat (length q))) now (ingress_mean g) Hm) as (w & -> & _).
    cbn [mbind res_bind]. eexists _, _. split; [reflexivity|]. done.
Qed.

(** ** The capacity *)

(** [std::ceil((float)cap / 1.5F)]. *)
Definition ceil_third (cap : Z) : Z := - ((- 2 * cap) / 3).
Definition decrease_ok (n : Z) : bool :=
  match fp_to_size_t (f32_ceil (f32_div (f32_of_Z n) default_aimd_adj_d)) with
  | Ok z => z =? ceil_third n
  | Err _ => false
  end.

Lemma decrease_all : all_from 12 decrease_ok 0 = true.
Proof. vm_compute. reflexivity. Qed.

Lemma decrease_cap_value c cap : aimd_adj_d c = default_aimd_adj_d -> 0 <= cap < 4096 ->
  decrease_cap c cap = Ok (ceil_third cap).
Proof.
  intros Hd Hc. pose proof (all_from_spec 12 decrease_ok 0 cap decrease_all Hc) as H.
  unfold decrease_ok in H. unfold decrease_cap. rewrite Hd.
  destruct (fp_to_size_t _) as [z|]; [|done]. f_equal. lia.
Qed.

(** C35: When the tail misses the SLO the capacity becomes [2/3] of itself
    rounded up, with the default constants and below 4096: it strictly decreases above two
    and stays at two or one, and nothing else of the ingress changes. (The
    lower bound of one in the code is never what stops it.) *)
Theorem aimd_decrease (c : Config) (now now' : Z) (g : Ingress) (e : Env) (err : fp) :
  aimd_adj_d c = default_aimd_adj_d -> 1 <= ingress_size_cap g < 4096 ->
  slo_error c (ingress_service g) (e_stats e) = Ok err -> fp_gt err (f64_of_f32 (aimd_err_d c)) = true ->
  exists cap, update_ingress_cap c now now' g e = Ok (set_cap cap g, e) /\
    3 * cap - 2 <= 2 * ingress_size_cap g /\ 2 * ingress_size_cap g <= 3 * cap /\
    (2 < ingress_size_cap g -> 2 <= cap < ingress_size_cap g) /\
    (ingress_size_cap g <= 2 -> cap = ingress_size_cap g).
Proof.
  intros Hd Hc Herr Hgt. unfold update_ingress_cap. rewrite Herr. cbn [mbind res_bind]. rewrite Hgt.
  rewrite (decrease_cap_value c _ Hd) by lia. cbn [mbind res_bind set_cap ingress_size_cap].
  unfold ceil_third. pose proof (Z.div_mod (- 2 * ingress_size_cap g) 3 ltac:(lia)).
  pose proof (Z.mod_pos_bound (- 2 * ingress_size_cap g) 3 ltac:(lia)).
  exists (- (-2 * ingress_size_cap g / 3)). rewrite Z.max_r by lia. split; [done|]. lia.
Qed.

(** ** Witnesses *)

Definition ex_cfg_ingress (slo_ms : Z) : Config :=
  mkConfig 4096 2048 4096 1 4000 4001 "" 0 "ingress"
    {[ "geo"%string := mkRoutingEntry (mkUpstream "10.0.0.2" 4001) (Some slo_ms) (Some 1) ]} ∅
    true false false None None None None 0
    default_aimd_err_d default_aimd_err_i default_aimd_adj_d default_aimd_adj_i default_safe_multiply.

Definition ex_ingress : Ingress :=
  mkIngress 10 [] twm_make false (Some 1) 0 (-1) (2 ^ 48) "geo".
Definition ex_request_rpc : RPCMessage :=
  assign_service "geo" (set_ds_fd 30 (set_ds_stream_id 0 (set_type EGRESS (rpc_make 0 INGRESS HTTP1)))).
Definition ex_env (s : Stats) : Env :=
  mkEnv {[0%nat := ex_request_rpc]} 0
    (mkMapper (mkByType ∅ {[30 := {[0 := 0%nat]}]}) (mkByType ∅ ∅) (mkByType ∅ ∅) (mkPool [] []))
    rpc_queue_make s.

Lemma ex_ingress_made : ingress_make (ex_cfg_ingress 250) 1 "geo" = Ok ex_ingress.
Proof. vm_compute. reflexivity. Qed.

Lemma ex_request_rpc_wf : msg_wf ex_request_rpc.
Proof. destruct (rpc_make_wf 0 INGRESS HTTP1). by split. Qed.

Lemma ingress_admits_witness : exists s g' e' r', ex_stats = Ok s /\
  ing_enqueue (ex_cfg_ingress 250) 0 7 ex_ingress (ex_env s) = Ok (g', e') /\ queue g' = [0%nat] /\
  e_heap e' !! 0%nat = Some r' /\ global_id r' = 2 ^ 48 + 1 /\ priority r' = 1.
Proof.
  destruct ex_stats as [s|] eqn:Es; [|vm_compute in Es; discriminate].
  destruct (ingress_admits (ex_cfg_ingress 250) 0 7 ex_ingress (ex_env s) ex_request_rpc 1)
    as (g' & e' & r' & h1 & h2 & E & _ & Hq & _ & _ & -> & Hg & _ & _ & Hp & _).
  - reflexivity.
  - split; [vm_compute; discriminate|intros []; discriminate|discriminate].
  - apply lookup_singleton_eq.
  - apply ex_request_rpc_wf.
  - reflexivity.
  - reflexivity.
  - vm_compute. reflexivity.
  - vm_compute. discriminate.
  - reflexivity.
  - lia.
  - cbn [ex_ingress last_rpc_id]. lia.
  - split; vm_compute; congruence.
  - exists s, g', (set_counter (e_counter (ex_env s) + 1) (assign 0 r' (ex_env s))), r'.
    split; [reflexivity|]. split; [exact E|]. split; [exact Hq|]. split; [apply lookup_insert_eq|].
    split; [exact Hg|exact Hp].
Defined.

Lemma ingress_drops_witness : exists s e', ex_stats = Ok s /\
  ing_enqueue (ex_cfg_ingress 250) 0 7 (set_cap 0 ex_ingress) (ex_env s) =
    Ok (set_drop_id 1 (set_cap 0 ex_ingress), e') /\
  get_us_rpc EGRESS 1 (-1) (e_mapper e') = Ok 0%nat.
Proof.
  destruct ex_stats as [s|] eqn:Es; [|vm_compute in Es; discriminate].
  destruct (ingress_drops (ex_cfg_ingress 250) 0 7 (set_cap 0 ex_ingress) (ex_env s) ex_request_rpc)
    as (e' & r' & E & _ & _ & _ & Hu & _);
    [apply lookup_singleton_eq|reflexivity|reflexivity|vm_compute; discriminate
    |cbn; lia|reflexivity|reflexivity|reflexivity|].
  exists s, e'. split; [reflexivity|]. split; [exact E|exact Hu].
Defined.

Definition ex_light_env (s : Stats) : Env :=
  assign 0 (set_req_data (mkDR [] 0 0) (set_res_data (mkDR [] 0 0) ex_request_rpc)) (ex_env s).

Lemma credit_finds_request_witness : exists s g' e' g2, ex_stats = Ok s /\
  ing_enqueue (ex_cfg_ingress 250) 0 7 ex_ingress (ex_light_env s) = Ok (g', e') /\
  fst (send_credit_request_checker g') = true /\
  ing_dequeue 9 (snd (send_credit_request_checker g')) = Ok (0%nat, g2).
Proof.
  destruct ex_stats as [s|] eqn:Es; [|vm_compute in Es; discriminate].
  destruct (ing_enqueue (ex_cfg_ingress 250) 0 7 ex_ingress (ex_light_env s)) as [[g' e']|] eqn:E;
    [|vm_compute in E; discriminate].
  assert (queue g' = [0%nat]) as Hq by (vm_compute in E; by injection E as <- _).
  assert (ing_reach (ex_cfg_ingress 250) 0 0 g') as H0.
  { eapply ir_enqueue; [eapply ir_make; exact ex_ingress_made|exact E]. }
  assert (fst (send_credit_request_checker g') = true) as Hc.
  { apply (credit_finds_request _ _ _ _ 0 H0). by rewrite Hq. }
  pose proof (ir_ask _ _ _ _ H0) as H1. rewrite Hc in H1.
  destruct (credit_finds_request _ _ _ _ 9 H1) as (_ & _ & _ & _ & Hd).
  destruct (Hd ltac:(lia)) as (i & g2 & E2 & Hq2 & _). exists s, g', e', g2. split; [reflexivity|].
  split; [exact E|]. split; [exact Hc|]. cbn [snd send_credit_request_checker set_on_fly queue] in Hq2.
  rewrite Hq in Hq2. injection Hq2 as <- _. exact E2.
Defined.

Definition ex_late_stats : res Stats :=
  s ← ex_stats;
  m ← LocalMap.set (tail_e2e_time_us s) "geo" (set_smoothed (f64_of_Z 300000) sqe_make);
  Ok (set_tail_e2e m s).

Lemma aimd_decrease_witness : exists s cap, ex_late_stats = Ok s /\
  update_ingress_cap (ex_cfg_ingress 250) 5 6 ex_ingress (ex_env s) = Ok (set_cap cap ex_ingress, ex_env s) /\
  cap < 10.
Proof.
  destruct ex_late_stats as [s|] eqn:Es; [|vm_compute in Es; discriminate].
  destruct (slo_error (ex_cfg_ingress 250) "geo" s) as [err|] eqn:Ee;
    [|vm_compute in Es; injection Es as <-; vm_compute in Ee; discriminate].
  destruct (aimd_decrease (ex_cfg_ingress 250) 5 6 ex_ingress (ex_env s) err) as (cap & E & _ & _ & Hlt & _).
  - reflexivity.
  - cbn [ex_ingress ingress_size_cap]. lia.
  - exact Ee.
  - vm_compute in Es. injection Es as <-. vm_compute in Ee. injection Ee as <-. vm_compute. reflexivity.
  - exists s, cap. split; [reflexivity|]. split; [exact E|]. cbn [ex_ingress ingress_size_cap] in Hlt.
    apply Hlt. lia.
Defined.
