(* ===== verification/Connection.v ===== *)
(** * Connections: data ([include/connection.h])

    A connection is an [HTTPConnection] with the state of its class, HTTP/1.1
    or HTTP/2. An HTTP/2 connection wraps a session of the nghttp2 library,
    which is a parameter of the model: an abstract session type and the calls
    the sidecar makes, each of which reports the callbacks it runs. *)

From Stdlib Require Import ZArith Lia Ascii.
From stdpp Require Import base gmap strings list fin_maps.
From S2P Require Import Prelude Fp Config Buffers RpcMessage RpcMapper Queues Stats Ingress.

Open Scope Z_scope.

(** ** nghttp2

    What the callbacks are given: the category of a header frame, the kind of
    a received frame. *)
Inductive headers_category := HCAT_REQUEST | HCAT_RESPONSE | HCAT_PUSH_RESPONSE | HCAT_HEADERS.
Inductive frame_type := FRAME_DATA | FRAME_HEADERS | FRAME_SETTINGS | FRAME_OTHER.

Inductive h2_event :=
  | BeginHeaders (cat : headers_category) (stream_id : Z)
  | Header (cat : headers_category) (stream_id : Z) (name : list Z) (namelen : Z) (value : list Z) (valuelen : Z)
  | DataChunk (stream_id : Z) (bytes : list Z)
  | FrameRecv (type : frame_type) (end_stream : bool) (stream_id : Z)
  | InvalidFrame
  | ErrorCallback.

(** A name/value pair of a header list, and the body of message [i]: its
    request body or its response body. *)
Definition nv : Type := list Z * list Z.
Record data_provider := mkProvider { prd_message : nat; prd_response : bool }.

(** [mem_send] serialises frames until one is complete; to fill a DATA frame
    of at most [length] bytes it calls the read callback, and [resume]s with
    the bytes and the flags EOF and NO_END_STREAM the callback set. *)
Inductive send_step (session : Type) :=
  | Sent (out : list Z) (s : session)
  | SendFailed
  | ReadData (stream_id : Z) (source : data_provider) (length : Z) (s : session).
Arguments Sent {session} out s.
Arguments SendFailed {session}.
Arguments ReadData {session} stream_id source length s.

Class Nghttp2 := {
  session : Type;
  session_client_new : session;
  session_server_new : session;
  (** the return value, and the callbacks run, in order *)
  mem_recv : session -> list Z -> Z * list h2_event * session;
  session_want_write : session -> bool;
  mem_send : session -> send_step session;
  resume : session -> list Z -> bool -> bool -> option (list Z) * session;
  (** the calls that can fail return [None] when they do *)
  submit_settings : session -> option session;
  submit_request : session -> list nv -> data_provider -> Z * session;
  submit_response : session -> Z -> list nv -> option data_provider -> option session;
  submit_trailer : session -> Z -> list nv -> option session
}.

(** ** Data *)

Definition HTTP1Connection_BUF_SIZE : Z := 200000.
Definition HTTP1Connection_MAX_HEADERS : nat := 10.

(** [buf]: what has been written of the array so far; the rest of it is
    zeros. *)
Record HTTP1State := mkH1 {
  buf : list Z;
  buf_len : Z;
  prev_buf_len : Z;
  hdr_complete : bool;
  content_length : Z;
  hdr_size : Z;
  idle : bool;
  last_id : Z;
  rpc_message : option nat
}.

Inductive Proto (S : Type) : Type :=
  | Proto1 (h : HTTP1State)
  | Proto2 (s : S).
Arguments Proto1 {S} h.
Arguments Proto2 {S} s.

Record Connection (S : Type) := mkConn {
  c_fd : Z;
  c_addr : Addr;
  c_status : ConnectionStatus;
  c_host : string;
  c_port : Z;
  c_type : ConnectionType;
  c_direction : ConnectionDirection;
  c_proto : Proto S
}.
Arguments mkConn {S} _ _ _ _ _ _ _ _.
Arguments c_fd {S} _.
Arguments c_addr {S} _.
Arguments c_status {S} _.
Arguments c_host {S} _.
Arguments c_port {S} _.
Arguments c_type {S} _.
Arguments c_direction {S} _.
Arguments c_proto {S} _.

Definition set_c_status {S} (x : ConnectionStatus) (c : Connection S) : Connection S :=
  mkConn (c_fd c) (c_addr c) x (c_host c) (c_port c) (c_type c) (c_direction c) (c_proto c).
Definition set_c_proto {S} (x : Proto S) (c : Connection S) : Connection S :=
  mkConn (c_fd c) (c_addr c) (c_status c) (c_host c) (c_port c) (c_type c) (c_direction c) x.

Definition c_http {S} (c : Connection S) : HTTP :=
  match c_proto c with Proto1 _ => HTTP1 | Proto2 _ => HTTP2 end.

Definition set_buf (b : list Z) (len prev : Z) (h : HTTP1State) : HTTP1State :=
  mkH1 b len prev (hdr_complete h) (content_length h) (hdr_size h) (idle h) (last_id h) (rpc_message h).
Definition set_hdr_complete (x : bool) (h : HTTP1State) : HTTP1State :=
  mkH1 (buf h) (buf_len h) (prev_buf_len h) x (content_length h) (hdr_size h) (idle h) (last_id h) (rpc_message h).
Definition set_content_length (x : Z) (h : HTTP1State) : HTTP1State :=
  mkH1 (buf h) (buf_len h) (prev_buf_len h) (hdr_complete h) x (hdr_size h) (idle h) (last_id h) (rpc_message h).
Definition set_hdr_size (x : Z) (h : HTTP1State) : HTTP1State :=
  mkH1 (buf h) (buf_len h) (prev_buf_len h) (hdr_complete h) (content_length h) x (idle h) (last_id h) (rpc_message h).
Definition set_idle (x : bool) (h : HTTP1State) : HTTP1State :=
  mkH1 (buf h) (buf_len h) (prev_buf_len h) (hdr_complete h) (content_length h) (hdr_size h) x (last_id h) (rpc_message h).
Definition set_last_id (x : Z) (h : HTTP1State) : HTTP1State :=
  mkH1 (buf h) (buf_len h) (prev_buf_len h) (hdr_complete h) (content_length h) (hdr_size h) (idle h) x (rpc_message h).
Definition put_rpc_message (x : option nat) (h : HTTP1State) : HTTP1State :=
  mkH1 (buf h) (buf_len h) (prev_buf_len h) (hdr_complete h) (content_length h) (hdr_size h) (idle h) (last_id h) x.

Definition h1_make : HTTP1State := mkH1 [] 0 0 false (-1) 0 true 0 None.

(** The two constructors: [socket] and [getaddrinfo] give the descriptor and
    the address of an upstream connection. *)
Definition upstream_conn {S} (fd : Z) (a : Addr) (host : string) (port : Z) (t : ConnectionType) (p : Proto S)
    : Connection S :=
  mkConn fd a DOWN host port t UPSTREAM p.
Definition downstream_conn {S} (fd : Z) (t : ConnectionType) (p : Proto S) : Connection S :=
  mkConn fd zero_addr UP "" 0 t DOWNSTREAM p.

(** ** The objects a connection refers to

    The mapper, the queues and the statistics of the thread ([Env]), the
    ingress queue, and the steady clock: its readings in nanoseconds, and how
    many of them were used. *)
Record Ctx := mkCtx {
  x_ingress : Ingress;
  x_env : Env;
  x_clock : nat -> Z;
  x_ticks : nat
}.

Definition set_x_ingress (g : Ingress) (x : Ctx) : Ctx := mkCtx g (x_env x) (x_clock x) (x_ticks x).
Definition set_x_env (e : Env) (x : Ctx) : Ctx := mkCtx (x_ingress x) e (x_clock x) (x_ticks x).
Definition advance_clock (n : nat) (x : Ctx) : Ctx := mkCtx (x_ingress x) (x_env x) (x_clock x) (x_ticks x + n).
(** The readings from now on. *)
Definition readings (x : Ctx) : nat -> Z := fun i => x_clock x (x_ticks x + i)%nat.

(** Operations of one connection run in [CM]: on its state and on [Ctx]. *)
Record CState (P : Type) := mkCState { cs_conn : P; cs_ctx : Ctx }.
Arguments mkCState {P} _ _.
Arguments cs_conn {P} _.
Arguments cs_ctx {P} _.

Section CM.
Context {P : Type}.

Definition get_conn : M (CState P) P := gets cs_conn.
Definition update_conn (f : P -> P) : M (CState P) unit := modify (fun s => mkCState (f (cs_conn s)) (cs_ctx s)).
Definition get_ctx : M (CState P) Ctx := gets cs_ctx.
Definition put_ctx (x : Ctx) : M (CState P) unit := modify (fun s => mkCState (cs_conn s) x).

(** [std::chrono::steady_clock::now()] *)
Definition now : M (CState P) Z :=
  x ← get_ctx; _ ← put_ctx (advance_clock 1 x); mret (readings x 0%nat).

(** A computation on the shared objects. *)
Definition on_env {A} (f : Env -> res (A * Env)) : M (CState P) A :=
  x ← get_ctx; '(a, e) ← lift (f (x_env x)); _ ← put_ctx (set_x_env e x); mret a.
Definition on_env_ (f : Env -> res Env) : M (CState P) unit :=
  on_env (fun e => e ← f e; Ok (tt, e)).

(** [*rpc] and the assignments to its fields. *)
Definition read_rpc (i : nat) : M (CState P) RPCMessage := x ← get_ctx; lift (deref i (x_env x)).
Definition update_rpc (i : nat) (f : RPCMessage -> res RPCMessage) : M (CState P) unit :=
  on_env_ (fun e => r ← deref i e; r ← f r; Ok (assign i r e)).
Definition rpc_add_header (ingress_mode : bool) (i : nat) (name : list Z) (nl : Z) (value : list Z) (vl : Z)
    (request tailer : bool) : M (CState P) unit :=
  on_env_ (fun e =>
    r ← deref i e;
    '(r, counter) ← add_header_field ingress_mode name nl value vl request tailer r (e_counter e);
    Ok (assign i r (set_counter counter e))).

(** [mapper->allocate_rpc], [get_ds_rpc], [get_us_rpc]. *)
Definition conn_allocate_rpc (t : ConnectionType) (stream fd : Z) (k : HTTP) : M (CState P) unit :=
  on_env_ (fun e =>
    '(_, h, m) ← allocate_rpc t stream fd k (e_heap e) (e_mapper e);
    Ok (set_heap h (set_mapper m e))).
Definition conn_get_ds_rpc (t : ConnectionType) (stream fd : Z) : M (CState P) nat :=
  x ← get_ctx; lift (get_ds_rpc t stream fd (e_mapper (x_env x))).
Definition conn_get_us_rpc (t : ConnectionType) (stream fd : Z) : M (CState P) nat :=
  x ← get_ctx; lift (get_us_rpc t stream fd (e_mapper (x_env x))).
Definition queue_enqueue (t : ConnectionType) (d : ConnectionDirection) (fd stream : Z) : M (CState P) unit :=
  on_env_ (fun e => Ok (set_rpc_queue (rpc_enqueue t d fd stream (e_queue e)) e)).

(** [dynamic_pointer_cast] to [HTTPMessage] or [gRPCMessage]. *)
Definition cast_rpc (k : HTTP) (i : nat) : M (CState P) unit :=
  r ← read_rpc i; guard_fatal (negb (bool_decide (http r = k))).

(** [stats->report_latency(rpc)] and [mapper->remove_rpc(type, rpc)], when a
    response has been written; [others] is the number of other holders. *)
Definition report_and_remove (ingress_mode : bool) (t : ConnectionType) (i : nat) (others : Z)
    : M (CState P) unit :=
  x ← get_ctx;
  r ← read_rpc i;
  s ← lift (report_latency ingress_mode (readings x) r (e_stats (x_env x)));
  _ ← put_ctx (advance_clock 6 (set_x_env (set_stats s (x_env x)) x));
  on_env_ (fun e =>
    '(h, m) ← remove_rpc t i others (e_heap e) (e_mapper e);
    Ok (set_heap h (set_mapper m e))).

(** [ingress.enqueue(rpc)] *)
Definition ingress_enqueue (c : Config) (i : nat) : M (CState P) unit :=
  t ← now;
  x ← get_ctx;
  '(g, e) ← lift (ing_enqueue c i t (x_ingress x) (x_env x));
  put_ctx (set_x_ingress g (set_x_env e x)).
End CM.
