(* ===== verification/Moves.v ===== *)
(** * A logic of state changes

    [moves R m] says that [m] changes the state along the preorder [R],
    whatever it returns or throws. It is proved by following the code; an
    invariant [I] is the preorder [I s -> I s']. *)

From Stdlib Require Import ZArith Lia Ascii.
From stdpp Require Import base gmap strings list fin_maps.
From S2P Require Import Prelude Fp Config Buffers RpcMessage RpcMapper Queues Stats Ingress Connection.

Open Scope Z_scope.

(** ** The logic *)

Definition moves {S A} (R : S -> S -> Prop) (m : M S A) : Prop := forall s,
  match m s with Ret _ s' | Exc _ s' => R s s' | Stop _ => True end.

Section Moves.
Context {S : Type} (R : S -> S -> Prop) `{!PreOrder R}.

Lemma moves_ret {A} (a : A) : moves R (mret a).
Proof. intros s. cbn. reflexivity. Qed.
Lemma moves_fail {A} f : moves R (fail (A:=A) f).
Proof. intros s. unfold fail. by destruct f. Qed.
Lemma moves_lift {A} (r : res A) : moves R (lift r).
Proof. destruct r; [apply moves_ret|apply moves_fail]. Qed.
Lemma moves_guard b : moves R (guard_fatal b).
Proof. apply moves_lift. Qed.
Lemma moves_gets {A} (f : S -> A) : moves R (gets f).
Proof. intros s. cbn. reflexivity. Qed.
Lemma moves_get_st : moves R get_st.
Proof. intros s. cbn. reflexivity. Qed.
Lemma moves_modify f : (forall s, R s (f s)) -> moves R (modify f).
Proof. intros H s. apply H. Qed.

(** The state [m] is run in is known to be [s] behind [get_st]. *)
Lemma moves_bind {A B} (m : M S A) (f : A -> M S B) : moves R m -> (forall a, moves R (f a)) -> moves R (m ≫= f).
Proof.
  intros Hm Hf s. unfold mbind, M_bind. specialize (Hm s). destruct (m s) as [a s'|e s'|]; [|done|done].
  specialize (Hf a s'). destruct (f a s'); [by etrans|by etrans|done].
Qed.

(** What a computation on values returned is known behind it. *)
Lemma moves_lift_bind {A B} (r : res A) (f : A -> M S B) : (forall a, r = Ok a -> moves R (f a)) -> moves R (lift r ≫= f).
Proof.
  intros H. destruct r as [a|e]; [by apply H|]. intros s. unfold mbind, M_bind, lift, fail. destruct e; [done|done|reflexivity|done].
Qed.

Lemma moves_zoom {T A} (get : S -> T) set (f : T -> res (A * T)) :
  (forall s a t, f (get s) = Ok (a, t) -> R s (set t s)) -> moves R (zoom get set f).
Proof. intros H s. unfold zoom. destruct (f (get s)) as [[a t]|[]] eqn:E; [by eapply H|done..]. Qed.

Lemma moves_forM {A} (l : list A) f : (forall x, moves R (f x)) -> moves R (forM l f).
Proof. intros H. induction l as [|x l IH]; [apply moves_ret|]. by apply moves_bind. Qed.

Lemma moves_impl {A} (m : M S A) (R' : S -> S -> Prop) : moves R' m -> (forall s s', R' s s' -> R s s') -> moves R m.
Proof. intros H HR s. specialize (H s). destruct (m s); auto. Qed.
End Moves.

(** Running a computation whose first step is known. *)
Section Run.
Context {S A B : Type}.
Lemma run_bind (m : M S A) (f : A -> M S B) s a s' : m s = Ret a s' -> (m ≫= f) s = f a s'.
Proof. unfold mbind, M_bind. by intros ->. Qed.
Lemma run_lift (r : res A) (f : A -> M S B) s a : r = Ok a -> (lift r ≫= f) s = f a s.
Proof. by intros ->. Qed.
Lemma run_guard b (f : unit -> M S B) s : b = false -> (guard_fatal b ≫= f) s = f tt s.
Proof. by intros ->. Qed.
Lemma run_zoom {T} (get : S -> T) set (f : T -> res (A * T)) s a t : f (get s) = Ok (a, t) -> zoom get set f s = Ret a (set t s).
Proof. unfold zoom. by intros ->. Qed.
End Run.

(** Follow the code: binds, branches, and the operations in [moves]. *)
Create HintDb moves.
#[export] Hint Resolve moves_ret moves_fail moves_lift moves_guard moves_gets moves_get_st : moves.
Ltac moves_step :=
  match goal with
  | |- moves _ (_ ≫= _) => apply moves_bind; [try typeclasses eauto..|intros ?]
  | |- moves _ (forM _ _) => apply moves_forM; [try typeclasses eauto..|intros ?]
  | |- moves _ (match ?x with _ => _ end) => destruct x
  | |- moves _ _ => solve [eauto with moves typeclass_instances]
  end.
Ltac moves_auto := repeat moves_step.

(** ** Operations of a connection

    Those that work on the shared objects leave the connection alone. *)

Section OnConn.
Context {P : Type} (R : P -> P -> Prop) `{!PreOrder R}.

Definition on_P (s s' : CState P) : Prop := R (cs_conn s) (cs_conn s').
#[export] Instance on_P_preorder : PreOrder on_P.
Proof. split; [intros ?; unfold on_P; reflexivity|]. intros x y z ? ?. unfold on_P in *. by etrans. Qed.

Lemma moves_put_ctx x : moves on_P (put_ctx x).
Proof. intros s. unfold on_P. cbn. reflexivity. Qed.
Lemma moves_update_conn f : (forall p, R p (f p)) -> moves on_P (update_conn f).
Proof. intros H s. apply H. Qed.
Hint Resolve moves_put_ctx : moves.

Lemma moves_get_conn : moves on_P get_conn.
Proof. unfold get_conn. moves_auto. Qed.
Lemma moves_get_ctx : moves on_P get_ctx.
Proof. unfold get_ctx. moves_auto. Qed.
Hint Resolve moves_get_conn moves_get_ctx : moves.
Lemma moves_on_env {A} (f : Env -> res (A * Env)) : moves on_P (on_env f).
Proof. unfold on_env. moves_auto. Qed.
Hint Resolve moves_on_env : moves.
Lemma moves_on_env_ f : moves on_P (on_env_ f).
Proof. apply moves_on_env. Qed.
Hint Resolve moves_on_env_ : moves.
Lemma moves_now : moves on_P now.
Proof. unfold now. moves_auto. Qed.
Lemma moves_read_rpc i : moves on_P (read_rpc i).
Proof. unfold read_rpc. moves_auto. Qed.
Lemma moves_update_rpc i f : moves on_P (update_rpc i f).
Proof. apply moves_on_env. Qed.
Hint Resolve moves_now moves_read_rpc moves_update_rpc : moves.
Lemma moves_rpc_add_header g i n nl v vl rq tl : moves on_P (rpc_add_header g i n nl v vl rq tl).
Proof. apply moves_on_env. Qed.
Lemma moves_conn_allocate_rpc t st fd k : moves on_P (conn_allocate_rpc t st fd k).
Proof. apply moves_on_env. Qed.
Lemma moves_conn_get_ds_rpc t st fd : moves on_P (conn_get_ds_rpc t st fd).
Proof. unfold conn_get_ds_rpc. moves_auto. Qed.
Lemma moves_conn_get_us_rpc t st fd : moves on_P (conn_get_us_rpc t st fd).
Proof. unfold conn_get_us_rpc. moves_auto. Qed.
Lemma moves_queue_enqueue t d fd st : moves on_P (queue_enqueue t d fd st).
Proof. apply moves_on_env. Qed.
Lemma moves_cast_rpc k i : moves on_P (cast_rpc k i).
Proof. unfold cast_rpc. moves_auto. Qed.
Lemma moves_report_and_remove g t i o : moves on_P (report_and_remove g t i o).
Proof. unfold report_and_remove. moves_auto. Qed.
Lemma moves_ingress_enqueue c i : moves on_P (ingress_enqueue c i).
Proof. unfold ingress_enqueue. moves_auto. Qed.
End OnConn.
#[export] Hint Resolve moves_put_ctx moves_get_conn moves_get_ctx moves_on_env moves_on_env_ moves_now moves_read_rpc
  moves_update_rpc moves_rpc_add_header moves_conn_allocate_rpc moves_conn_get_ds_rpc moves_conn_get_us_rpc
  moves_queue_enqueue moves_cast_rpc moves_report_and_remove moves_ingress_enqueue : moves.

(** ** Invariants

    [triple I m Q]: [m] keeps the invariant [I], and a value it returns is in
    [Q]. *)

Definition triple {S A} (I : S -> Prop) (m : M S A) (Q : A -> Prop) : Prop := forall s, I s ->
  match m s with Ret a s' => I s' /\ Q a | Exc _ s' => I s' | Stop _ => True end.
Abbreviation keeps I m := (triple I m (fun _ => True)).

Section Triple.
Context {S : Type} (I : S -> Prop).

Lemma triple_bind {A B} (Q : A -> Prop) (R : B -> Prop) (m : M S A) (f : A -> M S B) :
  triple I m Q -> (forall a, Q a -> triple I (f a) R) -> triple I (m ≫= f) R.
Proof.
  intros Hm Hf s Hs. unfold mbind, M_bind. specialize (Hm s Hs). destruct (m s) as [a s'|e s'|]; [|done|done].
  destruct Hm as [Hs' Ha]. by apply (Hf a Ha s' Hs').
Qed.
Lemma triple_conseq {A} (Q Q' : A -> Prop) (m : M S A) : triple I m Q -> (forall a, Q a -> Q' a) -> triple I m Q'.
Proof. intros Hm HQ s Hs. specialize (Hm s Hs). destruct (m s); [destruct Hm; auto|done|done]. Qed.
Lemma keeps_any {A} (Q : A -> Prop) (m : M S A) : triple I m Q -> keeps I m.
Proof. intros Hm. by eapply triple_conseq. Qed.
Lemma triple_ret {A} (Q : A -> Prop) a : Q a -> triple I (mret a) Q.
Proof. by intros HQ s Hs. Qed.
Lemma triple_lift {A} (r : res A) : triple I (lift r) (fun a => r = Ok a).
Proof. intros s Hs. by destruct r as [|[]]. Qed.
Lemma triple_fail {A} f (Q : A -> Prop) : triple I (fail f) Q.
Proof. intros s Hs. by destruct f. Qed.
Lemma triple_modify f : (forall s, I s -> I (f s)) -> keeps I (modify f).
Proof. intros H s Hs. split; [by apply H|done]. Qed.
Lemma triple_moves {A} (R : S -> S -> Prop) (m : M S A) : moves R m -> (forall s s', R s s' -> I s -> I s') -> keeps I m.
Proof. intros Hm HR s Hs. specialize (Hm s). destruct (m s); eauto. Qed.
Lemma triple_forM {A} (l : list A) f : (forall x, keeps I (f x)) -> keeps I (forM l f).
Proof. intros H. induction l as [|x l IH]; [by apply triple_ret|]. by apply (triple_bind (fun _ => True)). Qed.
Lemma triple_guard b : triple I (guard_fatal b) (fun _ => b = false).
Proof. intros s Hs. by destruct b. Qed.
End Triple.

(** Of an invariant of the connection alone. *)
Lemma triple_shared {P A} (I : P -> Prop) (m : M (CState P) A) : moves (on_P eq) m -> keeps (fun s => I (cs_conn s)) m.
Proof. intros Hm. apply (triple_moves _ _ _ Hm). by intros s s' <-. Qed.

(** Follow the code, as [moves_auto] does. *)
Create HintDb triple.
#[export] Hint Resolve triple_lift triple_fail triple_guard : triple.
Ltac triple_step :=
  match goal with
  | |- triple _ (_ ≫= _) _ => first [eapply triple_bind; [solve [eauto with triple]|intros ? ?; cbv beta in *]
                                   |apply (triple_bind _ (fun _ => True)); [|intros ? _]]
  | |- triple _ (forM _ _) _ => apply triple_forM; intros ?
  | |- triple _ (mret _) _ => by apply triple_ret
  | |- triple _ (match ?x with _ => _ end) _ => destruct x eqn:?
  | |- triple _ _ _ => solve [eauto with triple | eapply keeps_any; eauto with triple]
  end.
Ltac triple_auto := repeat triple_step.
