(* ===== verification/Pool.v ===== *)
(** * Connection pools and listeners: [ConnectionPool] of [src/connection.cc],
    [UpstreamRouteMapper] of [src/state.cc], [src/listener.cc]

    Both hold shared pointers to connections by file descriptor. A pool's
    [next_conn] is an iterator of an [unordered_map]: a position in the order
    in which the map lists its elements (the end when past the last). *)

From Stdlib Require Import ZArith Lia Ascii.
From stdpp Require Import base gmap strings list fin_maps.
From S2P Require Import Prelude Buffers RpcMessage.

Open Scope Z_scope.

(** ** Pools *)

Record ConnectionPool := mkConnPool {
  connections : gmap Z nat;
  pool_type : ConnectionType;
  pool_addr : option Addr;
  next_conn : nat
}.

Definition pool_make (t : ConnectionType) : ConnectionPool := mkConnPool ∅ t None 0.

(** [add_connection], for a connection that was just made: [emplace] keeps
    the entry that is there. *)
Definition pool_add (fd : Z) (a : Addr) (p : nat) (cp : ConnectionPool) : nat * ConnectionPool :=
  let m := match connections cp !! fd with Some _ => connections cp | None => <[fd := p]> (connections cp) end in
  (default p (m !! fd),
   mkConnPool m (pool_type cp) (Some (match pool_addr cp with Some x => x | None => a end)) 0).

Definition pool_get_addr (cp : ConnectionPool) : res Addr := or_fault Fatal (pool_addr cp).
Definition has_connection (fd : Z) (cp : ConnectionPool) : bool := bool_decide (is_Some (connections cp !! fd)).
Definition get_connection (fd : Z) (cp : ConnectionPool) : res nat := or_fault Fatal (connections cp !! fd).
Definition pool_remove_connection (fd : Z) (cp : ConnectionPool) : ConnectionPool :=
  mkConnPool (delete fd (connections cp)) (pool_type cp) (pool_addr cp) 0.

(** The order of the elements, and the loop of [get_any_connection]: it
    starts at [next_conn] and wraps around once. *)
Definition listed (cp : ConnectionPool) : list nat := (map_to_list (connections cp)).*2.

Fixpoint search (fuel : nat) (available : nat -> bool) (l : list nat) (wrap : bool) (it : nat)
    : res (nat * nat) :=
  match fuel with
  | O => Err Hang
  | S fuel' =>
      match l !! it with
      | None => Err Undefined
      | Some p =>
          if available p then Ok (p, it)
          else
            let it := S it in
            if wrap && Nat.eqb it (length l) then Err (Throw NoConnection)
            else if negb wrap && Nat.eqb it (length l) then search fuel' available l true 0
            else search fuel' available l wrap it
      end
  end.

Definition get_any_connection (available : nat -> bool) (cp : ConnectionPool) : res (nat * ConnectionPool) :=
  let l := listed cp in
  if Nat.eqb (length l) 0 then Err (Throw NoConnection)
  else
    '(p, it) ← search (2 * length l + 1) available l false (next_conn cp);
    Ok (p, mkConnPool (connections cp) (pool_type cp) (pool_addr cp) it).

(** ** Routes *)

Abbreviation Routes := (gmap string ConnectionPool).

Definition add_route (service : string) (r : Routes) : Routes :=
  match r !! service with Some _ => r | None => <[service := pool_make EGRESS]> r end.

(** The key of the pool that [get_pool] returns: the service's own, or the
    one of the wildcard. *)
Definition route_key (service : string) (r : Routes) : res string :=
  match r !! service with
  | Some _ => Ok service
  | None => match r !! "*"%string with Some _ => Ok "*"%string | None => Err Fatal end
  end.
Definition get_pool (service : string) (r : Routes) : res ConnectionPool :=
  k ← route_key service r; or_fault Fatal (r !! k).

(** ** Listeners *)

Record Listener := mkListener {
  lis_fd : Z;
  lis_port : Z;
  lis_type : ConnectionType;
  lis_connections : gmap Z nat
}.

Definition lis_add_connection (fd : Z) (p : nat) (l : Listener) : nat * Listener :=
  let m := match lis_connections l !! fd with Some _ => lis_connections l | None => <[fd := p]> (lis_connections l) end in
  (default p (m !! fd), mkListener (lis_fd l) (lis_port l) (lis_type l) m).
Definition lis_remove_connection (fd : Z) (l : Listener) : Listener :=
  mkListener (lis_fd l) (lis_port l) (lis_type l) (delete fd (lis_connections l)).
Definition lis_get_connection (fd : Z) (l : Listener) : res nat := or_fault Fatal (lis_connections l !! fd).
Definition no_connections (l : Listener) : bool := bool_decide (lis_connections l = ∅).

(** ** What a search finds *)

Section Search.
Context (available : nat -> bool) (l : list nat).

(** Before the wrap: the positions from [it] on, then those from 0. *)
Lemma search_wrapped fuel it : (it < length l)%nat -> (length l - it < fuel)%nat ->
  match search fuel available l true it with
  | Ok (p, j) => (it <= j)%nat /\ l !! j = Some p /\ available p = true /\
      forall k q, (it <= k < j)%nat -> l !! k = Some q -> available q = false
  | Err e => e = Throw NoConnection /\ forall k q, (it <= k)%nat -> l !! k = Some q -> available q = false
  end.
Proof.
  revert it. induction fuel as [|fuel IH]; intros it Hit Hf; [lia|]. cbn [search].
  destruct (lookup_lt_is_Some_2 l it Hit) as [p Hp]. rewrite Hp. destruct (available p) eqn:Ea.
  { split; [done|]. split; [done|]. split; [done|]. intros; lia. }
  cbn [andb negb]. destruct (Nat.eqb_spec (S it) (length l)) as [He|He].
  - split; [done|]. intros k q Hk Hq. apply lookup_lt_Some in Hq as Hlt.
    assert (k = it) as -> by lia. congruence.
  - specialize (IH (S it) ltac:(lia) ltac:(lia)). destruct (search fuel available l true (S it)) as [[q j]|e].
    + destruct IH as (Hj & Hl & Hav & Hbefore). split; [lia|]. split; [done|]. split; [done|].
      intros k q' Hk Hq'. destruct (decide (k = it)) as [->|]; [congruence|]. apply (Hbefore k q'); [lia|done].
    + destruct IH as [He' Hnone]. split; [done|]. intros k q Hk Hq.
      destruct (decide (k = it)) as [->|]; [congruence|]. apply (Hnone k q); [lia|done].
Qed.

Lemma search_first fuel it : (it < length l)%nat -> (2 * length l - it < fuel)%nat ->
  match search fuel available l false it with
  | Ok (p, j) => l !! j = Some p /\ available p = true
  | Err e => e = Throw NoConnection /\ forall q, q ∈ l -> available q = false
  end.
Proof.
  revert it. induction fuel as [|fuel IH]; intros it Hit Hf; [lia|]. cbn [search].
  destruct (lookup_lt_is_Some_2 l it Hit) as [p Hp]. rewrite Hp. destruct (available p) eqn:Ea; [done|].
  cbn [andb negb]. destruct (Nat.eqb_spec (S it) (length l)) as [He|He]; [|apply IH; lia].
  pose proof (search_wrapped fuel 0 ltac:(lia) ltac:(lia)) as H.
  destruct (search fuel available l true 0) as [[q j]|e].
  - destruct H as (_ & ? & ? & _). done.
  - destruct H as [? H]. split; [done|]. intros q [k Hk]%list_elem_of_lookup. apply (H k); [lia|done].
Qed.
End Search.

Lemma elem_of_listed cp p : p ∈ listed cp <-> exists fd, connections cp !! fd = Some p.
Proof.
  unfold listed. rewrite list_elem_of_fmap. split.
  - intros ([fd p'] & -> & ?%elem_of_map_to_list). by exists fd.
  - intros [fd H]. exists (fd, p). split; [done|]. by apply elem_of_map_to_list.
Qed.

(** The iterator points at an element, unless the pool is empty. *)
Definition pool_wf (cp : ConnectionPool) : Prop := connections cp = ∅ \/ (next_conn cp < size (connections cp))%nat.

Lemma length_listed cp : length (listed cp) = size (connections cp).
Proof. unfold listed. by rewrite length_fmap, length_map_to_list. Qed.

Lemma pool_add_wf fd a p cp : pool_wf (snd (pool_add fd a p cp)).
Proof.
  right. unfold pool_add. cbn [snd next_conn connections].
  apply Nat.neq_0_lt_0. intros H%map_size_empty_inv.
  destruct (connections cp !! fd) eqn:E; [rewrite H in E; by rewrite lookup_empty in E|].
  by apply insert_non_empty in H.
Qed.
Lemma pool_remove_wf fd cp : pool_wf (pool_remove_connection fd cp).
Proof.
  unfold pool_wf, pool_remove_connection. cbn [next_conn connections].
  destruct (decide (delete fd (connections cp) = ∅)) as [|H]; [by left|right].
  apply Nat.neq_0_lt_0. by intros ?%map_size_empty_inv.
Qed.

Lemma get_any_spec available cp : pool_wf cp ->
  match get_any_connection available cp with
  | Ok (p, cp') => (exists fd, connections cp !! fd = Some p) /\ available p = true /\
      connections cp' = connections cp /\ pool_wf cp' /\ listed cp' !! next_conn cp' = Some p
  | Err e => e = Throw NoConnection /\ forall fd p, connections cp !! fd = Some p -> available p = false
  end.
Proof.
  intros Hwf. unfold get_any_connection. destruct (Nat.eqb_spec (length (listed cp)) 0) as [He|He].
  { split; [done|]. intros fd p Hp. rewrite length_listed in He. apply map_size_empty_inv in He.
    by rewrite He, lookup_empty in Hp. }
  destruct Hwf as [Hwf|Hwf]; [rewrite length_listed, Hwf, map_size_empty in He; done|].
  pose proof (search_first available (listed cp) (2 * length (listed cp) + 1) (next_conn cp)) as H.
  rewrite length_listed in *. specialize (H Hwf ltac:(lia)).
  destruct (search _ available (listed cp) false (next_conn cp)) as [[p j]|e]; cbn [mbind res_bind].
  - destruct H as [Hj Ha]. split; [apply elem_of_listed, list_elem_of_lookup; by exists j|].
    split; [done|]. split; [done|]. split; [|done]. right. cbn [next_conn connections].
    apply lookup_lt_Some in Hj. by rewrite length_listed in Hj.
  - destruct H as [-> H]. split; [done|]. intros fd p Hp. apply H, elem_of_listed. by exists fd.
Qed.

Lemma get_any_addr available cp p cp' : get_any_connection available cp = Ok (p, cp') -> pool_addr cp' = pool_addr cp.
Proof.
  unfold get_any_connection. destruct (Nat.eqb _ _); [done|]. intros E. bind_inv. destruct a as [? ?]. by injection E as _ <-.
Qed.

(** [get_any_connection] ends: on an available connection of the pool if
    there is one, in [NoConnectionException] if there is none; the iterator
    stays inside the pool, and on the connection that was returned. *)
Theorem pool_finds_available available cp : pool_wf cp ->
  match get_any_connection available cp with
  | Ok (p, cp') => (exists fd, connections cp !! fd = Some p) /\ available p = true /\
      connections cp' = connections cp /\ pool_wf cp' /\ listed cp' !! next_conn cp' = Some p
  | Err e => e = Throw NoConnection /\ forall fd p, connections cp !! fd = Some p -> available p = false
  end.
Proof. apply get_any_spec. Qed.

Lemma pool_finds_available_witness :
  let cp := snd (pool_add 7 zero_addr 1 (snd (pool_add 5 zero_addr 0 (pool_make EGRESS)))) in
  (exists cp', get_any_connection (Nat.eqb 1) cp = Ok (1%nat, cp')) /\
  match get_any_connection (fun _ => false) cp with
  | Ok (p, cp') => (exists fd, connections cp !! fd = Some p) /\ false = true /\
      connections cp' = connections cp /\ pool_wf cp' /\ listed cp' !! next_conn cp' = Some p
  | Err e => e = Throw NoConnection /\ forall fd p, connections cp !! fd = Some p -> false = false
  end.
Proof.
  split; [eexists; vm_compute; reflexivity|].
  apply (pool_finds_available (fun _ => false)), pool_add_wf.
Defined.
