(* ===== verification/Http1.v ===== *)
(** * HTTP/1.1 connections: [HTTP1Connection] of [src/connection.cc]

    Reading collects bytes in the connection's own buffer until the parser
    has a complete message; writing formats a message into a buffer of the
    buffer manager. A message's [rpc_message] is the one waiting to be
    written. *)

From Stdlib Require Import ZArith Lia Ascii.
From stdpp Require Import base gmap strings list fin_maps.
From S2P Require Import Prelude Fp Config Buffers PicoHttp RpcMessage RpcMapper Queues Stats Ingress Connection.

Open Scope Z_scope.

(** ** C string functions *)

Fixpoint until_nul (l : list Z) : list Z :=
  match l with
  | [] => []
  | b :: l' => if b =? 0 then [] else b :: until_nul l'
  end.

(** [strtoul(mem, NULL, 10)]; without digits it is 0, above the range it is
    [ULONG_MAX]; the minus sign negates in unsigned arithmetic. Undefined
    when the memory ends before a byte that stops it. *)
Definition strtoul (mem : list Z) : res Z :=
  let l := skip_spaces mem in
  let '(neg, ds) := match l with
    | b :: l' => if b =? 45 then (true, l') else if b =? 43 then (false, l') else (false, l)
    | [] => (false, [])
    end in
  if forallb is_digit ds then Err Undefined
  else
    let '(v, _) := parse_digits 0 false ds in
    if SIZE_MAX <? v then Ok SIZE_MAX else Ok (if (neg : bool) then u64 (- v) else v).

(** [std::from_chars] into an [int]: the value, unless there are no digits
    or it is out of range. *)
Definition from_chars_int (bs : list Z) : option Z :=
  let '(neg, ds) := match bs with
    | b :: l' => if b =? 45 then (true, l') else (false, bs)
    | [] => (false, [])
    end in
  let '(v, seen) := parse_digits 0 false ds in
  let v := if (neg : bool) then - v else v in
  if (seen : bool) && in_i32 v then Some v else None.

Definition to_lower (b : Z) : Z := if (65 <=? b) && (b <=? 90) then b + 32 else b.
(** [strncasecmp(mem, lit, n) == 0] where [n] is the length of [lit]. *)
Definition strncasecmp_eq (mem : list Z) (lit : string) : res bool :=
  mem_eq (to_lower <$> mem) (to_lower <$> bytes_of_string lit).

(** ** Reading *)

(** The text is the first [buf_len] bytes of the array; behind a token lie
    the rest of the text and what older messages left in the array, then
    zeros, of which no function below reads more than sixteen. *)
Definition text (h : HTTP1State) : list Z := take (Z.to_nat (buf_len h)) (buf h).
Definition behind (h : HTTP1State) : list Z :=
  drop (Z.to_nat (buf_len h)) (buf h) ++
  replicate (Z.to_nat (Z.min 16 (HTTP1Connection_BUF_SIZE - Z.of_nat (length (buf h))))) 0.
Definition mem_of (h : HTTP1State) (t : Token) : list Z := tk_mem t ++ behind h.

(** [headers[i].name] and [headers[i].name_len]; a null pointer has no
    memory. *)
Definition name_mem (h : HTTP1State) (n : option Token) : list Z :=
  match n with Some t => mem_of h t | None => [] end.
Definition name_length (n : option Token) : Z :=
  match n with Some t => tk_len t | None => 0 end.

(** [copy_n] behind the bytes already collected. *)
Definition append_read (b : Buffer) (h : HTTP1State) : res HTTP1State :=
  _ ← fatal_if (u64 (HTTP1Connection_BUF_SIZE - buf_len h) <? filled b);
  bs ← or_fault Undefined (slice 0 (Z.to_nat (filled b)) (data b));
  let n := Z.to_nat (buf_len h) in
  let arr := take n (buf h) ++ bs ++ drop (n + length bs) (buf h) in
  Ok (set_buf arr (buf_len h + filled b) (buf_len h) h).

Section Http1.
Context {S : Type} (c : Config) (m : simd).

(** The connection, with its HTTP/1.1 state at hand. *)
Record Conn1 := mkConn1 { base : Connection S; h1 : HTTP1State }.
Abbreviation M1 := (M (CState Conn1)).

Definition get_h1 : M1 HTTP1State := x ← get_conn; mret (h1 x).
Definition get_base : M1 (Connection S) := x ← get_conn; mret (base x).
Definition update_h1 (f : HTTP1State -> HTTP1State) : M1 unit :=
  update_conn (fun x => mkConn1 (base x) (f (h1 x))).

(** [add_header_field] for each header of the message. *)
Definition add_headers (i : nat) (hs : list phr_header) (request : bool) : M1 unit :=
  h ← get_h1;
  forM hs (fun hd =>
    rpc_add_header (is_ingress c) i (name_mem h (ph_name hd)) (name_length (ph_name hd))
      (mem_of h (ph_value hd)) (tk_len (ph_value hd)) request false).

Definition reset_read : M1 unit :=
  update_h1 (fun h => set_hdr_size 0 (set_content_length (-1) (set_hdr_complete false (set_buf (buf h) 0 0 h)))).

(** [Content-Length] in a request: any header whose name starts so. *)
Definition request_content_length (hs : list phr_header) : M1 unit :=
  h ← get_h1;
  forM hs (fun hd =>
    if 14 <=? name_length (ph_name hd) then
      b ← lift (mem_eq (name_mem h (ph_name hd)) (bytes_of_string "Content-Length"));
      if (b : bool) then
        v ← lift (strtoul (mem_of h (ph_value hd)));
        update_h1 (set_content_length (i32 v))
      else mret tt
    else mret tt).

(** An ingress throws at a malformed request, any other sidecar aborts. *)
Definition reject : M1 unit := fail (if is_ingress c then Throw HTTPParse else Fatal).

Definition check_target (path : Token) : M1 unit :=
  if is_ingress c then
    x ← get_ctx;
    match parse_service_from_request_target (tk_bytes path) with
    | None => fail (Throw HTTPParse)
    | Some seg => if bool_decide (seg = ingress_service (x_ingress x)) then mret tt else fail (Throw HTTPParse)
    end
  else mret tt.

(** A complete request becomes a message. *)
Definition fill_request (r : Request) : M1 nat :=
  b ← get_base; h ← get_h1;
  id ← lift (checked_i32 (last_id h + 1));
  _ ← update_h1 (set_last_id id);
  _ ← conn_allocate_rpc (c_type b) id (c_fd b) HTTP1;
  i ← conn_get_ds_rpc (c_type b) id (c_fd b);
  t ← now;
  _ ← update_rpc i (fun rpc => Ok (set_req_rcv_time t rpc));
  _ ← add_headers i (rq_headers r) true;
  _ ← update_rpc i (fun rpc => Ok (set_method (string_of_bytes (tk_bytes (rq_method r))) rpc));
  _ ← update_rpc i (set_service (tk_bytes (rq_path r)));
  _ ← update_rpc i (fun rpc =>
        Ok (set_minor (rq_minor r) (set_path (string_of_bytes (tk_bytes (rq_path r))) rpc)));
  mret i.

Definition hand_over (i : nat) : M1 unit :=
  b ← get_base; h ← get_h1;
  if is_frontend c then queue_enqueue (c_type b) (c_direction b) (c_fd b) (last_id h)
  else if is_ingress c then
    _ ← guard_fatal (bool_decide (c_type b = INGRESS));
    ingress_enqueue c i
  else fail Fatal.

Definition read_request : M1 unit :=
  h ← get_h1;
  match phr_parse_request m HTTP1Connection_MAX_HEADERS (prev_buf_len h) (text h) with
  | Oob => fail Undefined
  | Fail r =>
      _ ← update_h1 (set_hdr_size r);
      if r =? -2 then mret tt else reject
  | Got (n, r) _ =>
      _ ← update_h1 (set_hdr_size n);
      _ ← request_content_length (rq_headers r);
      h ← get_h1;
      _ ← (if 0 <=? content_length h then reject else mret tt);
      _ ← check_target (rq_path r);
      _ ← guard_fatal (n <? buf_len h);
      i ← fill_request r;
      _ ← hand_over i;
      h ← get_h1;
      _ ← guard_fatal (negb (idle h));
      _ ← update_h1 (set_idle false);
      reset_read
  end.

Definition header_body_allowed (code : Z) : bool :=
  if ((100 <=? code) && (code <? 200)) || (code =? 204) || (code =? 304) then false else true.

(** The headers of a response that delimit its body. *)
Definition response_body_headers (hs : list phr_header) : M1 unit :=
  h ← get_h1;
  forM hs (fun hd =>
    let name := name_mem h (ph_name hd) in
    let nl := name_length (ph_name hd) in
    _ ← (if nl =? 14 then
           b ← lift (strncasecmp_eq name "Content-Length");
           if (b : bool) then
             match from_chars_int (tk_bytes (ph_value hd)) with
             | Some v => update_h1 (set_content_length v)
             | None => h ← get_h1; guard_fatal (negb (content_length h =? -1))
             end
           else mret tt
         else mret tt);
    if (nl =? 17) && (7 <=? tk_len (ph_value hd)) then
      b ← lift (strncasecmp_eq name "Transfer-Encoding");
      if (b : bool) then
        b ← lift (strncasecmp_eq (mem_of h (ph_value hd)) "chunked");
        guard_fatal b
      else mret tt
    else mret tt).

(** The header part of a response; [false] when it is not all there. *)
Definition read_response_header : M1 bool :=
  h ← get_h1; b ← get_base;
  match phr_parse_response m HTTP1Connection_MAX_HEADERS (prev_buf_len h) (text h) with
  | Oob => fail Undefined
  | Fail r =>
      _ ← update_h1 (set_hdr_size r);
      if r =? -2 then mret false else fail Fatal
  | Got (n, r) _ =>
      _ ← update_h1 (set_hdr_size n);
      _ ← (if header_body_allowed (rs_status r) then response_body_headers (rs_headers r) else mret tt);
      _ ← update_h1 (set_hdr_complete true);
      i ← conn_get_us_rpc (c_type b) (last_id h) (c_fd b);
      _ ← cast_rpc HTTP1 i;
      _ ← add_headers i (rs_headers r) false;
      _ ← update_rpc i (fun rpc =>
            Ok (set_minor (rs_minor r) (set_msg (string_of_bytes (tk_bytes (rs_msg r)))
                 (set_status (rs_status r) rpc))));
      mret true
  end.

(** The body: [content_length] bytes behind the header. *)
Definition take_body : M1 unit :=
  h ← get_h1; b ← get_base;
  if 0 <? content_length h then
    i ← conn_get_us_rpc (c_type b) (last_id h) (c_fd b);
    _ ← cast_rpc HTTP1 i;
    t ← now;
    _ ← update_rpc i (fun rpc => Ok (set_res_rcv_time t rpc));
    body ← lift (or_fault Undefined (slice (Z.to_nat (hdr_size h)) (Z.to_nat (content_length h)) (buf h)));
    update_rpc i (http_add_data body false)
  else update_h1 (set_content_length 0).

Definition finish_response : M1 unit :=
  h ← get_h1; b ← get_base;
  if buf_len h - hdr_size h <? content_length h then mret tt
  else
    _ ← take_body;
    _ ← queue_enqueue (c_type b) (c_direction b) (c_fd b) (last_id h);
    h ← get_h1;
    total ← lift (checked_i32 (hdr_size h + content_length h));
    _ ← guard_fatal (total <? buf_len h);
    _ ← guard_fatal (idle h);
    _ ← update_h1 (set_idle true);
    reset_read.

Definition read_response : M1 unit :=
  h ← get_h1;
  complete ← (if hdr_complete h then mret true else read_response_header);
  if (complete : bool) then finish_response else mret tt.

Definition http1_read (b : Buffer) : M1 unit :=
  if filled b =? 0 then mret tt
  else
    h ← get_h1;
    h ← lift (append_read b h);
    _ ← update_h1 (fun _ => h);
    x ← get_base;
    match c_direction x with DOWNSTREAM => read_request | UPSTREAM => read_response end.

(** ** Writing *)

(** [append_fmt_or_fatal], on the formatted text: it is written at
    [written_total], with a NUL, when it fits into what remains. *)
Definition append_fmt_or_fatal (txt : list Z) (b : Buffer) (written : Z) : res (Buffer * Z) :=
  let remaining := u64 (bsize b - filled b) in
  let ret := Z.of_nat (length txt) in
  _ ← fatal_if (remaining =? 0);
  _ ← fatal_if (remaining <=? ret);
  d ← store (data b) (Z.to_nat written) (txt ++ [0]);
  b ← set_filled (filled b + ret) (set_data d b);
  Ok (b, written + ret).

(** ["%.*s"] *)
Definition fmt_s (mem : list Z) (len : Z) : list Z := until_nul (take (Z.to_nat len) mem).
Definition fmt_str (s : string) : list Z := until_nul (bytes_of_string s).
Definition CRLF : list Z := [13; 10].

Definition header_line (hd : HeaderField) : list Z :=
  fmt_s (hf_name hd) (name_len hd) ++ bytes_of_string ": " ++ fmt_s (hf_value hd) (value_len hd) ++ CRLF.
Definition request_line (r : RPCMessage) : list Z :=
  fmt_str (method r) ++ bytes_of_string " " ++ fmt_str (path r) ++ bytes_of_string " HTTP/1." ++
  print_decimal (minor r) ++ CRLF.
Definition status_line (r : RPCMessage) : list Z :=
  bytes_of_string "HTTP/1." ++ print_decimal (minor r) ++ bytes_of_string " " ++ print_decimal (status r) ++
  bytes_of_string " " ++ fmt_str (reason r) ++ CRLF.
Definition error_text (r : RPCMessage) : list Z :=
  bytes_of_string "HTTP/1." ++ print_decimal (minor r) ++ bytes_of_string " 503 Service Unavailable" ++ CRLF ++
  bytes_of_string "Content-Type: text/plain" ++ CRLF ++ bytes_of_string "Content-Length: 0" ++ CRLF ++ CRLF.

(** [headers.at(0)] ... [headers.at(count - 1)], each on a line. *)
Fixpoint write_headers (hs : list HeaderField) (i n : nat) (b : Buffer) (written : Z) : res (Buffer * Z) :=
  match n with
  | O => Ok (b, written)
  | Datatypes.S n' =>
      hd ← at_ hs i;
      '(b, written) ← append_fmt_or_fatal (header_line hd) b written;
      write_headers hs (Datatypes.S i) n' b written
  end.

Definition write_request (r : RPCMessage) (b : Buffer) : res (Buffer * Z) :=
  '(b, written) ← append_fmt_or_fatal (request_line r) b 0;
  '(b, written) ← write_headers (req_headers r) 0 (Z.to_nat (req_header_count r)) b written;
  '(b, written) ← append_fmt_or_fatal CRLF b written;
  _ ← fatal_if (bsize b <? filled b);
  Ok (b, written).

Definition write_body (r : RPCMessage) (b : Buffer) (written : Z) : res (Buffer * Z) :=
  let d := res_data r in
  _ ← fatal_if (u64 (bsize b - filled b) <? offset d);
  bs ← or_fault Undefined (slice 0 (Z.to_nat (offset d)) (dr_data d));
  x ← store (data b) (Z.to_nat (filled b)) bs;
  b ← set_filled (offset d + filled b) (set_data x b);
  Ok (b, i32 (written + offset d)).

Definition write_response (r : RPCMessage) (b : Buffer) : res (Buffer * Z) :=
  if error r then
    '(b, written) ← append_fmt_or_fatal (error_text r) b 0;
    _ ← fatal_if (bsize b <? filled b);
    Ok (b, written)
  else
    '(b, written) ← append_fmt_or_fatal (status_line r) b 0;
    '(b, written) ← write_headers (res_headers r) 0 (Z.to_nat (res_header_count r)) b written;
    '(b, written) ← append_fmt_or_fatal CRLF b written;
    '(b, written) ← write_body r b written;
    _ ← fatal_if (bsize b <? filled b);
    Ok (b, written).

Definition set_rpc_message (i : nat) : M1 unit :=
  h ← get_h1;
  _ ← guard_fatal (bool_decide (is_Some (rpc_message h)));
  update_h1 (put_rpc_message (Some i)).

(** The pointer is moved out. *)
Definition get_rpc_message : M1 nat :=
  h ← get_h1;
  i ← lift (or_fault Fatal (rpc_message h));
  _ ← update_h1 (put_rpc_message None);
  mret i.

Definition http1_want_write (h : HTTP1State) : bool := bool_decide (is_Some (rpc_message h)).

(** [others] is the number of other holders of the message. *)
Definition http1_write (others : nat -> Z) (b : Buffer) : M1 (Buffer * Z) :=
  x ← get_base;
  i ← get_rpc_message;
  r ← read_rpc i;
  match c_direction x with
  | UPSTREAM =>
      '(b, written) ← lift (write_request r b);
      t ← now;
      _ ← update_rpc i (fun r => Ok (set_req_for_time t r));
      h ← get_h1;
      _ ← guard_fatal (idle h);
      mret (b, written)
  | DOWNSTREAM =>
      '(b, written) ← lift (write_response r b);
      h ← get_h1;
      _ ← guard_fatal (idle h);
      _ ← update_h1 (set_idle true);
      _ ← report_and_remove (is_ingress c) (c_type x) i (others i);
      mret (b, written)
  end.

(** ** Submitting *)

Definition http1_submit_request (i : nat) : M1 Z :=
  _ ← cast_rpc HTTP1 i;
  _ ← set_rpc_message i;
  h ← get_h1;
  id ← lift (checked_i32 (last_id h + 1));
  _ ← update_h1 (fun h => set_idle false (set_last_id id h));
  mret id.

Definition http1_submit_response (i : nat) : M1 unit :=
  _ ← cast_rpc HTTP1 i; set_rpc_message i.
(** [submit_error_response] has the same body. *)
Definition http1_submit_error_response (i : nat) : M1 unit :=
  _ ← cast_rpc HTTP1 i; set_rpc_message i.

Definition http1_available (s : ConnectionStatus) (h : HTTP1State) : bool :=
  idle h && bool_decide (s = UP).
End Http1.
Arguments Conn1 : clear implicits.
Arguments mkConn1 {S} _ _.
Arguments base {S} _.
Arguments h1 {S} _.
