(* ===== verification/Http1Props.v ===== *)
(** * HTTP/1.1 connections: theorems *)

From Stdlib Require Import ZArith Lia Ascii.
From stdpp Require Import base gmap strings list fin_maps.
From S2P Require Import Prelude Fp Config Buffers PicoHttp PicoHttpProps PicoHttpFormat RpcMessage RpcMessageProps RpcMapper Queues Stats Ingress Connection Http1.

Open Scope Z_scope.

(** ** The text of a message *)

Definition fields_of (hs : list HeaderField) (n : nat) : list (list Z * list Z) :=
  (fun hd => (fmt_s (hf_name hd) (name_len hd), fmt_s (hf_value hd) (value_len hd))) <$> take n hs.
Definition lines_of (hs : list HeaderField) (n : nat) : list Z := concat (header_line <$> take n hs).
Definition request_text (r : RPCMessage) : list Z :=
  request_line r ++ lines_of (req_headers r) (Z.to_nat (req_header_count r)) ++ CRLF.
Definition response_text (r : RPCMessage) : list Z :=
  status_line r ++ lines_of (res_headers r) (Z.to_nat (res_header_count r)) ++ CRLF.
Definition body_of (d : DataReadStruct) : list Z := take (Z.to_nat (offset d)) (dr_data d).

(** ** Writing into a buffer

    [holding b t]: the first bytes of [b], its filled part, are [t]. *)
Record holding (b : Buffer) (t : list Z) : Prop := {
  hl_filled : filled b = Z.of_nat (length t);
  hl_text : take (length t) (data b) = t;
  hl_fits : Z.of_nat (length t) < bsize b;
  hl_size : bsize b < Z.of_nat (length (data b)) /\ bsize b < 2 ^ 63
}.

Definition same_frame (b b' : Buffer) : Prop :=
  same_buffer b b' /\ bsize b' = bsize b /\ length (data b') = length (data b).

Lemma same_frame_trans b1 b2 b3 : same_frame b1 b2 -> same_frame b2 b3 -> same_frame b1 b3.
Proof. unfold same_frame, same_buffer. intuition congruence. Qed.
Lemma same_frame_refl b : same_frame b b.
Proof. done. Qed.

(** What a write of [x] behind [t] gives: success exactly when it fits. *)
Definition writes (b : Buffer) (t x : list Z) (m : res (Buffer * Z)) : Prop :=
  if decide (Z.of_nat (length t + length x) < bsize b) then
    exists b', m = Ok (b', Z.of_nat (length (t ++ x))) /\ holding b' (t ++ x) /\ same_frame b b'
  else m = Err Fatal.

Lemma store_at (d bs : list Z) i : (i + length bs <= length d)%nat ->
  store d i bs = Ok (take i d ++ bs ++ drop (i + length bs) d).
Proof. intros H. unfold store. by rewrite decide_True. Qed.

Lemma append_fmt_spec x b t : holding b t -> writes b t x (append_fmt_or_fatal x b (Z.of_nat (length t))).
Proof.
  intros [Hf Ht Hfit [Hs Hs']]. unfold append_fmt_or_fatal, writes. rewrite Hf.
  rewrite (wrap_small 64) by lia. case_decide as Hlt.
  - rewrite (proj2 (Z.eqb_neq _ _)) by lia. rewrite (proj2 (Z.leb_gt _ _)) by lia.
    cbn [fatal_if mbind res_bind]. rewrite Nat2Z.id.
    rewrite store_at by (rewrite length_app; cbn; lia). cbn [mbind res_bind].
    unfold set_filled, set_data. cbn [bsize].
    rewrite (proj2 (Z.ltb_ge _ _)) by lia. cbn [mbind res_bind].
    replace (Z.of_nat (length t) + Z.of_nat (length x)) with (Z.of_nat (length (t ++ x))) by (rewrite length_app; lia).
    eexists. split; [reflexivity|].
    split; [split; cbn [filled data bsize]|split; [done|split; [done|]]].
    + done.
    + rewrite <- !app_assoc, app_assoc. rewrite take_app_length' by (rewrite !length_app, length_take; lia).
      by rewrite Ht.
    + rewrite length_app. lia.
    + rewrite !length_app, length_take, length_drop. cbn [length]. lia.
    + cbn [data]. rewrite !length_app, length_take, length_drop. cbn [length]. lia.
  - destruct (Z.eqb_spec (bsize b - Z.of_nat (length t)) 0); [done|].
    rewrite (proj2 (Z.leb_le _ _)) by lia. done.
Qed.

(** Writes in sequence. *)
Lemma writes_seq b t x y m k : writes b t x m ->
  (forall b', holding b' (t ++ x) -> same_frame b b' -> writes b' (t ++ x) y (k (b', Z.of_nat (length (t ++ x))))) ->
  writes b t (x ++ y) (m ≫= k).
Proof.
  unfold writes at 1. intros Hm Hk. case_decide as Hlt.
  - destruct Hm as (b' & -> & Hh & Hsf). specialize (Hk b' Hh Hsf). cbn [mbind res_bind].
    pose proof Hsf as (_ & Hbs & _). unfold writes in *. rewrite Hbs in Hk.
    replace (length (t ++ x) + length y)%nat with (length t + length (x ++ y))%nat in Hk
      by (rewrite !length_app; lia).
    case_decide; [|done]. destruct Hk as (b'' & -> & Hh' & Hsf'). rewrite <- app_assoc in *.
    exists b''. split; [done|]. split; [done|]. by eapply same_frame_trans.
  - subst m. cbn [mbind res_bind]. unfold writes. rewrite decide_False; [done|]. rewrite length_app. lia.
Qed.

Lemma writes_nil b t : holding b t ->
  writes b t [] (Ok (b, Z.of_nat (length t))).
Proof.
  intros Hh. unfold writes. rewrite Nat.add_0_r, decide_True by apply Hh. exists b.
  rewrite app_nil_r. done.
Qed.

Lemma write_headers_spec hs i n b t : holding b t -> (i + n <= length hs)%nat ->
  writes b t (concat (header_line <$> take n (drop i hs))) (write_headers hs i n b (Z.of_nat (length t))).
Proof.
  revert i b t. induction n as [|n IH]; intros i b t Hh Hlen; cbn [write_headers]; [by apply writes_nil|].
  destruct (lookup_lt_is_Some_2 hs i) as [hd Hhd]; [lia|].
  rewrite (drop_S _ _ _ Hhd). cbn [take fmap list_fmap concat].
  unfold at_. rewrite Hhd. cbn [or_fault mbind res_bind].
  eapply writes_seq; [by apply append_fmt_spec|]. intros b' Hh' _. cbn beta iota. apply IH; [done|lia].
Qed.

(** The last test never fires. *)
Lemma writes_checked b t x m : writes b t x m ->
  writes b t x ('(b', w) ← m; _ ← fatal_if (bsize b' <? filled b'); Ok (b', w)).
Proof.
  unfold writes. case_decide; [|by intros ->]. intros (b' & -> & Hh & Hs). exists b'. split; [|done].
  cbn [mbind res_bind]. destruct Hh as [Hf _ Hfit _]. rewrite (proj2 (Z.ltb_ge _ _)) by lia. done.
Qed.

Lemma bind_assoc {A B C} (m : res A) (f : A -> res B) (g : B -> res C) :
  ((m ≫= f) ≫= g) = (m ≫= fun a => f a ≫= g).
Proof. by destruct m. Qed.
Lemma bind_ext {A B} (m : res A) (f g : A -> res B) : (forall a, f a = g a) -> (m ≫= f) = (m ≫= g).
Proof. intros H. destruct m; [apply H|done]. Qed.

Lemma write_head_spec (line : list Z) hs n b t : holding b t -> (n <= length hs)%nat ->
  writes b t (line ++ lines_of hs n ++ CRLF)
    ('(b, written) ← append_fmt_or_fatal line b (Z.of_nat (length t));
     '(b, written) ← write_headers hs 0 n b written;
     append_fmt_or_fatal CRLF b written).
Proof.
  intros Hh Hn. eapply writes_seq; [by apply append_fmt_spec|]. intros b1 Hh1 _. cbn beta iota.
  eapply writes_seq; [apply (write_headers_spec hs 0 n b1); [done|lia]|]. intros b2 Hh2 _. cbn beta iota.
  by apply append_fmt_spec.
Qed.

(** The whole request, or a fatal error when the buffer is too small. *)
Lemma write_request_spec r b : holding b [] -> headers_wf (req_headers r) (req_header_count r) ->
  writes b [] (request_text r) (write_request r b).
Proof.
  intros Hh [Hlen _ Hc]. pose proof (write_head_spec (request_line r) (req_headers r)
    (Z.to_nat (req_header_count r)) b [] Hh ltac:(lia)) as H.
  apply writes_checked in H. rewrite bind_assoc in H. unfold write_request.
  erewrite bind_ext; [exact H|]. intros [b1 w1]. cbn beta iota. rewrite bind_assoc.
  apply bind_ext. by intros [b2 w2].
Qed.

(** ** Text and format *)

Lemma until_nul_id l : Forall (fun c => c <> 0) l -> until_nul l = l.
Proof.
  induction 1 as [|c l Hc _ IH]; [done|]. cbn [until_nul]. rewrite (proj2 (Z.eqb_neq _ _) Hc). by rewrite IH.
Qed.
Lemma token_no_nul t : token_ok t -> Forall (fun c => c <> 0) t.
Proof. apply Forall_mono. intros c [_ H] ->. discriminate H. Qed.
Lemma path_no_nul t : path_ok t -> Forall (fun c => c <> 0) t.
Proof. intros [_ H]. revert H. apply Forall_mono. intros c H ->. discriminate H. Qed.
Lemma line_no_nul t : line_ok t -> Forall (fun c => c <> 0) t.
Proof. apply Forall_mono. intros c [_ H] ->. discriminate H. Qed.

Lemma print_digit d : 0 <= d <= 9 -> print_decimal d = [48 + d].
Proof.
  intros Hd. unfold print_decimal. rewrite (proj2 (Z.ltb_ge _ _)) by lia. cbn [digits].
  by rewrite (proj2 (Z.ltb_lt _ _)) by lia.
Qed.

Lemma print_status z : 100 <= z <= 999 -> print_decimal z = digits3 z.
Proof.
  intros Hz. pose proof (Z_div_mod_eq_full z 10). pose proof (Z_div_mod_eq_full (z / 10) 10).
  pose proof (Z.mod_pos_bound (z / 10) 10 ltac:(lia)). pose proof (Z.mod_pos_bound z 10 ltac:(lia)).
  pose proof (Z.div_div z 10 10 ltac:(lia) ltac:(lia)) as Hq. change (10 * 10) with 100 in Hq.
  unfold print_decimal. rewrite (proj2 (Z.ltb_ge _ _)) by lia. cbn [digits].
  rewrite (proj2 (Z.ltb_ge z 10)), (proj2 (Z.ltb_ge (z / 10) 10)), (proj2 (Z.ltb_lt (z / 10 / 10) 10)) by lia.
  unfold digits3. by rewrite <- Hq.
Qed.

Lemma lines_format hs n : lines_of hs n = concat (field_text <$> fields_of hs n).
Proof.
  unfold lines_of, fields_of. induction (take n hs) as [|hd l IH]; [done|].
  cbn [fmap list_fmap concat]. by rewrite IH.
Qed.

(** The message can be put on the wire. *)
Record request_wf (r : RPCMessage) : Prop := {
  rw_method : bytes_of_string (method r) <> [] /\ token_ok (bytes_of_string (method r));
  rw_path : path_ok (bytes_of_string (path r));
  rw_minor : 0 <= minor r <= 9;
  rw_fields : Forall field_ok (fields_of (req_headers r) (Z.to_nat (req_header_count r)));
  rw_headers : headers_wf (req_headers r) (req_header_count r)
}.

Lemma request_text_format r : request_wf r -> request_text r =
  request_format (bytes_of_string (method r)) (bytes_of_string (path r)) (minor r)
    (fields_of (req_headers r) (Z.to_nat (req_header_count r))).
Proof.
  intros [[_ Hm] Hp Hv _ _]. unfold request_text, request_line, request_format, fields_text, version_text, fmt_str.
  rewrite print_digit, lines_format by done.
  rewrite !until_nul_id by first [by apply token_no_nul | by apply path_no_nul]. rewrite <- !app_assoc. done.
Qed.

Record response_wf (r : RPCMessage) : Prop := {
  sw_minor : 0 <= minor r <= 9;
  sw_status : 100 <= status r <= 999;
  sw_reason : line_ok (bytes_of_string (reason r)) /\ starts_ok (bytes_of_string (reason r));
  sw_fields : Forall field_ok (fields_of (res_headers r) (Z.to_nat (res_header_count r)));
  sw_headers : headers_wf (res_headers r) (res_header_count r);
  sw_body : 0 <= offset (res_data r) <= Z.of_nat (length (dr_data (res_data r))) /\ bytes (body_of (res_data r))
}.

Lemma response_text_format r : response_wf r -> response_text r =
  response_format (minor r) (status r) (bytes_of_string (reason r))
    (fields_of (res_headers r) (Z.to_nat (res_header_count r))).
Proof.
  intros [Hv Hs [Hr _] _ _ _]. unfold response_text, status_line, response_format, fields_text, version_text, fmt_str.
  rewrite print_digit, print_status, lines_format by done.
  rewrite !until_nul_id by (apply line_no_nul; done). rewrite <- !app_assoc. done.
Qed.

(** A message with one header field, "host: sidecar", both ways. *)
Definition ex_field : HeaderField :=
  mkHF (bytes_of_string "host" ++ replicate 56 0) 4 (bytes_of_string "sidecar" ++ replicate 53 0) 7.
Definition ex_message : RPCMessage :=
  let hs := ex_field :: replicate 12 header_make in
  mkRPC 0 (-1) 0 (-1) (-1) (-1) 0 INGRESS 0 0 0 0 0 [] None HTTP1 "" "/svc" "GET" 1 200 "OK" false
    hs 1 hs 1 [] 0 (mkDR [] 0 0) (mkDR [104; 105] 2 0).

Lemma ex_fields : fields_of (ex_field :: replicate 12 header_make) 1 =
  [(bytes_of_string "host", bytes_of_string "sidecar")].
Proof. by vm_compute. Qed.

Lemma ex_fields_ok : Forall field_ok (fields_of (ex_field :: replicate 12 header_make) 1).
Proof.
  rewrite ex_fields. constructor; [|done]. split; [done|].
  split; [vm_compute; repeat constructor; intros [=]|]. split; [vm_compute; repeat constructor; intros [=]|].
  by vm_compute.
Qed.

Lemma ex_headers_wf : headers_wf (ex_field :: replicate 12 header_make) 1.
Proof.
  split; [done| |lia]. constructor; [by split|]. apply Forall_replicate. apply header_make_wf.
Qed.

Lemma ex_request_wf : request_wf ex_message.
Proof.
  split.
  - split; [done|]. vm_compute. repeat constructor; intros [=].
  - vm_compute. repeat constructor; intros [=].
  - cbn. lia.
  - apply ex_fields_ok.
  - apply ex_headers_wf.
Qed.

Lemma ex_response_wf : response_wf ex_message.
Proof.
  split; [cbn; lia|cbn; lia| |apply ex_fields_ok|apply ex_headers_wf|].
  - split; [vm_compute; repeat constructor; intros [=]|by vm_compute].
  - split; [cbn; lia|]. vm_compute. repeat constructor; intros [=].
Qed.

Lemma ex_holding : holding (buffer_make 129 0) [].
Proof. split; cbn [length take]; rewrite ?length_replicate; vm_compute; split || idtac; done. Qed.

(** ** Requests on the wire *)

(** C21: the bytes [http_write] puts into a fresh buffer for a request parse
    back, in either build of the parser, as the request's method, path,
    version and headers, consuming exactly the bytes written; but with more
    than the ten headers a reader accepts, though a message holds thirteen,
    the reader finds the request malformed. *)
Theorem http1_request_round_trip m r b : request_wf r -> holding b [] ->
  Z.of_nat (length (request_text r)) < bsize b ->
  exists b' w, write_request r b = Ok (b', w) /\ filled b' = w /\ w = Z.of_nat (length (request_text r)) /\
    let wire := take (Z.to_nat w) (data b') in
    if decide (req_header_count r <= Z.of_nat HTTP1Connection_MAX_HEADERS) then
      exists q, phr_parse_request m HTTP1Connection_MAX_HEADERS 0 wire = Got (w, q) [] /\
        carries_request q (bytes_of_string (method r)) (bytes_of_string (path r)) (minor r)
          (fields_of (req_headers r) (Z.to_nat (req_header_count r)))
    else phr_parse_request m HTTP1Connection_MAX_HEADERS 0 wire = Fail (-1).
Proof.
  intros Hr Hb Hfit. pose proof (write_request_spec r b Hb (rw_headers r Hr)) as H.
  unfold writes in H. rewrite decide_True in H by done. destruct H as (b' & Hw & Hh & _).
  change ([] ++ request_text r) with (request_text r) in *.
  exists b', (Z.of_nat (length (request_text r))). split; [done|]. split; [apply Hh|]. split; [done|].
  cbv zeta. rewrite Nat2Z.id, (hl_text _ _ Hh). cbn [app]. rewrite (request_text_format r Hr).
  destruct Hr as [[Hne Hm] Hp Hv Hf [Hl _ Hc]].
  assert (length (fields_of (req_headers r) (Z.to_nat (req_header_count r))) = Z.to_nat (req_header_count r)) as Hlen.
  { unfold fields_of. rewrite length_fmap, length_take. lia. }
  case_decide as Hd.
  - destruct (request_format_parses m HTTP1Connection_MAX_HEADERS (bytes_of_string (method r))
      (bytes_of_string (path r)) (minor r) (fields_of (req_headers r) (Z.to_nat (req_header_count r))) []
      Hne Hm Hp Hv Hf ltac:(constructor) ltac:(lia)) as (q & Eq & Hq).
    rewrite app_nil_r in Eq. by exists q.
  - rewrite <- (app_nil_r (request_format _ _ _ _)).
    apply request_format_overflows; try done; [constructor|lia].
Qed.

Lemma http1_request_round_trip_witness :
  exists b' w, write_request ex_message (buffer_make 129 0) = Ok (b', w) /\
    exists q, phr_parse_request SSE42 HTTP1Connection_MAX_HEADERS 0 (take (Z.to_nat w) (data b')) = Got (w, q) [] /\
      carries_request q (bytes_of_string "GET") (bytes_of_string "/svc") 1
        [(bytes_of_string "host", bytes_of_string "sidecar")].
Proof.
  destruct (http1_request_round_trip SSE42 ex_message (buffer_make 129 0) ex_request_wf ex_holding) as
    (b' & w & E & _ & _ & H); [by vm_compute|].
  exists b', w. split; [exact E|]. cbv zeta in H. rewrite decide_True in H by by vm_compute.
  cbn [ex_message req_headers req_header_count] in H.
  change (Z.to_nat 1) with 1%nat in H. rewrite ex_fields in H. exact H.
Defined.

(** ** Responses on the wire *)

(** What a client sees of a response: its status, message, fields and body. *)
Definition error_fields : list (list Z * list Z) :=
  [(bytes_of_string "Content-Type", bytes_of_string "text/plain");
   (bytes_of_string "Content-Length", bytes_of_string "0")].
Definition view_status (r : RPCMessage) : Z := if error r then 503 else status r.
Definition view_reason (r : RPCMessage) : list Z :=
  bytes_of_string (if error r then "Service Unavailable" else reason r).
Definition view_fields (r : RPCMessage) : list (list Z * list Z) :=
  if error r then error_fields else fields_of (res_headers r) (Z.to_nat (res_header_count r)).
Definition view_body (r : RPCMessage) : list Z := if error r then [] else body_of (res_data r).
Definition view_text (r : RPCMessage) : list Z :=
  response_format (minor r) (view_status r) (view_reason r) (view_fields r).

Lemma length_body d : 0 <= offset d <= Z.of_nat (length (dr_data d)) -> Z.of_nat (length (body_of d)) = offset d.
Proof. intros Ho. unfold body_of. rewrite length_take. lia. Qed.

(** The body follows the head, if there is room. *)
Lemma write_body_spec r b t : holding b t ->
  0 <= offset (res_data r) <= Z.of_nat (length (dr_data (res_data r))) -> bsize b < 2 ^ 31 ->
  Z.of_nat (length t) + offset (res_data r) <= bsize b ->
  exists b', write_body r b (Z.of_nat (length t)) = Ok (b', Z.of_nat (length (t ++ body_of (res_data r)))) /\
    filled b' = Z.of_nat (length (t ++ body_of (res_data r))) /\ bsize b' = bsize b /\
    take (length (t ++ body_of (res_data r))) (data b') = t ++ body_of (res_data r).
Proof.
  intros [Hf Ht Hfit [Hs Hs']] Hd Hsz Hroom. pose proof (length_body _ Hd) as Hlb.
  unfold write_body. rewrite Hf, (wrap_small 64) by lia.
  rewrite (proj2 (Z.ltb_ge _ _)) by lia. cbn [fatal_if mbind res_bind].
  unfold slice. rewrite decide_True by lia. rewrite drop_0. fold (body_of (res_data r)).
  cbn [or_fault mbind res_bind]. rewrite Nat2Z.id, store_at by lia. cbn [mbind res_bind].
  unfold set_filled, set_data. cbn [bsize]. rewrite (proj2 (Z.ltb_ge _ _)) by lia. cbn [mbind res_bind].
  assert (Z.of_nat (length t) + offset (res_data r) = Z.of_nat (length (t ++ body_of (res_data r)))) as ->
    by (rewrite length_app; lia).
  rewrite (swrap_small 32) by (rewrite ?length_app; lia).
  eexists. split; [reflexivity|]. cbn [filled bsize data]. split; [rewrite length_app; lia|]. split; [done|].
  rewrite app_assoc, take_app_length' by (rewrite !length_app, length_take; lia). by rewrite Ht.
Qed.

Lemma write_response_spec r b : holding b [] -> bsize b < 2 ^ 31 -> 0 <= minor r <= 9 ->
  (error r = false -> response_wf r) ->
  Z.of_nat (length (view_text r)) < bsize b ->
  Z.of_nat (length (view_text r ++ view_body r)) <= bsize b ->
  exists b', write_response r b = Ok (b', Z.of_nat (length (view_text r ++ view_body r))) /\
    filled b' = Z.of_nat (length (view_text r ++ view_body r)) /\
    take (length (view_text r ++ view_body r)) (data b') = view_text r ++ view_body r.
Proof.
  intros Hb Hsz Hv Hwf Hfit Hroom. unfold write_response.
  destruct (error r) eqn:Ee.
  - assert (error_text r = view_text r) as ->.
    { unfold view_text, error_text, view_status, view_reason, view_fields, response_format, version_text.
      rewrite Ee, print_digit by done. rewrite <- !app_assoc. reflexivity. }
    assert (view_body r = []) as -> by (unfold view_body; by rewrite Ee). rewrite app_nil_r.
    pose proof (writes_checked _ _ _ _ (append_fmt_spec (view_text r) b [] Hb)) as H.
    unfold writes in H. rewrite decide_True in H by done. destruct H as (b' & E & Hh & _).
    exists b'. split; [exact E|]. split; apply Hh.
  - specialize (Hwf eq_refl). assert (response_text r = view_text r) as Et.
    { rewrite (response_text_format r Hwf). unfold view_text, view_status, view_reason, view_fields. by rewrite Ee. }
    assert (view_body r = body_of (res_data r)) as Ebody by (unfold view_body; by rewrite Ee).
    rewrite Ebody in *. destruct (sw_headers r Hwf) as [Hlen _ Hc].
    pose proof (write_head_spec (status_line r) (res_headers r) (Z.to_nat (res_header_count r)) b [] Hb ltac:(lia)) as H.
    fold (response_text r) in H. rewrite Et in H. unfold writes in H. rewrite decide_True in H by done.
    destruct H as (b1 & E & Hh & (_ & Hbs & _)). cbn [app] in *.
    destruct (write_body_spec r b1 (view_text r) Hh) as (b2 & E2 & Hf2 & Hbs2 & Ht2);
      [apply Hwf|lia|rewrite length_app, Nat2Z.inj_add, length_body in Hroom by apply Hwf; lia|].
    exists b2. split; [|done].
    transitivity (('(b, written) ← ('(b, written) ← append_fmt_or_fatal (status_line r) b (Z.of_nat (length (@nil Z)));
       '(b, written) ← write_headers (res_headers r) 0 (Z.to_nat (res_header_count r)) b written;
       append_fmt_or_fatal CRLF b written); '(b, written) ← write_body r b written;
      _ ← fatal_if (bsize b <? filled b); Ok (b, written))).
    + rewrite bind_assoc. apply bind_ext. intros [b3 w3]. cbn beta iota. rewrite bind_assoc.
      apply bind_ext. by intros [b4 w4].
    + rewrite E. cbn [mbind res_bind]. rewrite E2. cbn [mbind res_bind].
      rewrite (proj2 (Z.ltb_ge _ _)) by lia. done.
Qed.

Lemma error_fields_ok : Forall field_ok error_fields.
Proof. repeat first [constructor | vm_compute; intuition discriminate]. Qed.

Lemma unavailable_ok : line_ok (bytes_of_string "Service Unavailable").
Proof. vm_compute. repeat constructor; intros [=]. Qed.

(** C22: the bytes [http_write] puts into a fresh buffer for a response parse
    back, in either build of the parser, as the response's version, status,
    message and headers, followed by exactly its body; a response marked as an
    error goes out as a 503 without body. *)
Theorem http1_response_round_trip m r b : holding b [] -> bsize b < 2 ^ 31 -> 0 <= minor r <= 9 ->
  (error r = false -> response_wf r /\ res_header_count r <= Z.of_nat HTTP1Connection_MAX_HEADERS) ->
  Z.of_nat (length (view_text r)) < bsize b ->
  Z.of_nat (length (view_text r ++ view_body r)) <= bsize b ->
  exists b' w q, write_response r b = Ok (b', w) /\ filled b' = w /\
    phr_parse_response m HTTP1Connection_MAX_HEADERS 0 (take (Z.to_nat w) (data b')) =
      Got (Z.of_nat (length (view_text r)), q) (view_body r) /\
    carries_response q (minor r) (view_status r) (view_reason r) (view_fields r).
Proof.
  intros Hb Hsz Hv Hwf Hfit Hroom.
  destruct (write_response_spec r b Hb Hsz Hv ltac:(intros H; by apply Hwf) Hfit Hroom) as (b' & E & Hf & Ht).
  exists b', (Z.of_nat (length (view_text r ++ view_body r))).
  rewrite Nat2Z.id, Ht. unfold view_text, view_status, view_reason, view_fields, view_body in *.
  assert (Z.of_nat HTTP1Connection_MAX_HEADERS = 10) as Hmax by done.
  destruct (error r) eqn:Ee.
  - destruct (response_format_parses m HTTP1Connection_MAX_HEADERS (minor r) 503 _ error_fields []
      Hv ltac:(lia) unavailable_ok eq_refl eq_refl error_fields_ok ltac:(constructor) ltac:(cbn; lia)) as (q & Eq & Hq).
    by exists q.
  - destruct (Hwf eq_refl) as [[_ Hs [Hr1 Hr2] Hfs [Hl _ Hc] [Ho Hby]] Hn].
    destruct (response_format_parses m HTTP1Connection_MAX_HEADERS (minor r) (status r) (bytes_of_string (reason r))
      (fields_of (res_headers r) (Z.to_nat (res_header_count r))) (body_of (res_data r))) as (q & Eq & Hq); try done.
    + unfold response_format in Hfit. rewrite !length_app in Hfit. lia.
    + unfold fields_of. rewrite length_fmap, length_take. lia.
    + by exists q.
Qed.

Lemma http1_response_round_trip_witness :
  exists b' w q, write_response ex_message (buffer_make 129 0) = Ok (b', w) /\
    phr_parse_response PORTABLE HTTP1Connection_MAX_HEADERS 0 (take (Z.to_nat w) (data b')) =
      Got (Z.of_nat (length (view_text ex_message)), q) [104; 105] /\
    carries_response q 1 200 (bytes_of_string "OK") [(bytes_of_string "host", bytes_of_string "sidecar")].
Proof.
  destruct (http1_response_round_trip PORTABLE ex_message (buffer_make 129 0) ex_holding) as
    (b' & w & q & E & _ & Eq & H); [by vm_compute|cbn; lia| |by vm_compute|by vm_compute|].
  - intros _. split; [apply ex_response_wf|by vm_compute].
  - exists b', w, q. split; [exact E|]. split; [exact Eq|].
    unfold view_fields in H. cbn [ex_message error res_headers res_header_count] in H.
  change (Z.to_nat 1) with 1%nat in H. rewrite ex_fields in H. exact H.
Defined.
