(* ===== verification/Http1Inv.v ===== *)
(** * The reader of an HTTP/1.1 connection: invariant

    The buffer of a connection never overflows, its counters stay in their
    types, and the parser is always called within its contract. *)

From Stdlib Require Import ZArith Lia Ascii.
From stdpp Require Import base gmap strings list fin_maps.
From S2P Require Import Prelude Fp Config Buffers PicoHttp PicoHttpProps RpcMessage RpcMapper Queues LocalMap Stats Ingress Connection Moves Http1.

Open Scope Z_scope.

Definition in_i32_range (z : Z) : Prop := - 2 ^ 31 <= z < 2 ^ 31.

(** [d] is the direction of the connection: only responses are read in two
    parts. *)
Record h1_wf (d : ConnectionDirection) (h : HTTP1State) : Prop := {
  hw_prev : 0 <= prev_buf_len h <= buf_len h;
  hw_len : buf_len h <= Z.of_nat (length (buf h)) <= HTTP1Connection_BUF_SIZE;
  hw_bytes : bytes (buf h);
  hw_hdr : -2 <= hdr_size h <= buf_len h;
  hw_complete : hdr_complete h = true -> d = UPSTREAM /\ 0 <= hdr_size h;
  hw_content : in_i32_range (content_length h);
  hw_id : in_i32_range (last_id h)
}.

Lemma h1_make_wf d : h1_wf d h1_make.
Proof. split; unfold in_i32_range, HTTP1Connection_BUF_SIZE; cbn; try done; try lia. constructor. Qed.

Lemma append_read_wf d b h h' : h1_wf d h -> bytes (data b) -> 0 <= filled b ->
  append_read b h = Ok h' -> h1_wf d h'.
Proof.
  intros [Hp [Hl Hs] Hb Hh Hc Hcl Hid] Hbs Hf. unfold append_read. intros E. bind_inv. apply fatal_if_Ok in E0 as Hfit.
  apply Z.ltb_ge in Hfit. rewrite (wrap_small 64) in Hfit by (unfold HTTP1Connection_BUF_SIZE in *; lia).
  apply or_fault_Ok in E1. apply slice_Some in E1 as (Hlen & Hfd & ->). rewrite drop_0 in *. injection E as <-.
  split; cbn [set_buf buf buf_len prev_buf_len hdr_size hdr_complete content_length last_id]; try done; try lia.
  - rewrite !length_app, length_take, length_drop, Hlen. lia.
  - apply Forall_app. split; [by apply Forall_take|]. apply Forall_app. split; [by apply Forall_take|by apply Forall_drop].
Qed.

(** The parser is called within its contract, in either direction. *)
Lemma wf_text d h : h1_wf d h -> bytes (text h) /\ Z.of_nat (length (text h)) = buf_len h.
Proof.
  intros [Hp [Hl Hs] Hb _ _ _ _]. unfold text. split; [by apply Forall_take|]. rewrite length_take. lia.
Qed.
Lemma wf_parse_request m d h : h1_wf d h -> match phr_parse_request m HTTP1Connection_MAX_HEADERS (prev_buf_len h) (text h) with
  | Got (n, _) _ => 0 <= n <= buf_len h | Fail r => r = -1 \/ r = -2 | Oob => False end.
Proof.
  intros Hw. destruct (wf_text d h Hw) as [Hb Hl]. pose proof (hw_prev _ _ Hw).
  pose proof (request_parser_ok m HTTP1Connection_MAX_HEADERS (prev_buf_len h) (text h) Hb ltac:(lia) ltac:(lia)) as Hr.
  destruct (phr_parse_request _ _ _ _) as [[n r] l'|r|]; [|done|done]. destruct Hr as [? _]. lia.
Qed.
Lemma wf_parse_response m d h : h1_wf d h -> match phr_parse_response m HTTP1Connection_MAX_HEADERS (prev_buf_len h) (text h) with
  | Got (n, _) _ => 0 <= n <= buf_len h | Fail r => r = -1 \/ r = -2 | Oob => False end.
Proof.
  intros Hw. destruct (wf_text d h Hw) as [Hb Hl]. pose proof (hw_prev _ _ Hw). pose proof (hw_len _ _ Hw).
  pose proof (response_parser_ok m HTTP1Connection_MAX_HEADERS (prev_buf_len h) (text h) Hb
    ltac:(unfold HTTP1Connection_BUF_SIZE in *; lia) ltac:(lia) ltac:(lia)) as Hr.
  destruct (phr_parse_response _ _ _ _) as [[n r] l'|r|]; [|done|done]. destruct Hr as [? _]. lia.
Qed.

(** ** The operations *)

Section Ops.
Context {S : Type} (c : Config) (m : simd).
Implicit Types (h : HTTP1State) (d : ConnectionDirection).

(** With [p], a header was read. *)
Definition inv1 d (p : bool) (x : Conn1 S) : Prop :=
  c_direction (base x) = d /\ h1_wf d (h1 x) /\ (p = true -> 0 <= hdr_size (h1 x)).
Abbreviation I d p := (fun s : CState (Conn1 S) => inv1 d p (cs_conn s)).

Lemma triple_get_h1 d p : triple (I d p) get_h1 (fun h => h1_wf d h /\ (p = true -> 0 <= hdr_size h)).
Proof. intros s Hs. split; [done|]. by destruct Hs as (_ & ? & ?). Qed.
Lemma triple_get_base d p : triple (I d p) get_base (fun x => c_direction x = d).
Proof. intros s Hs. split; [done|]. by destruct Hs. Qed.
Lemma triple_update_h1 d p f : (forall h, h1_wf d h -> (p = true -> 0 <= hdr_size h) -> h1_wf d (f h) /\ (p = true -> 0 <= hdr_size (f h))) ->
  keeps (I d p) (update_h1 f).
Proof. intros Hf s (Hd & Hh & Hp). split; [|done]. split; [done|]. by apply Hf. Qed.

Lemma keeps_content d p v : in_i32_range v -> keeps (I d p) (update_h1 (set_content_length v)).
Proof. intros Hv. apply triple_update_h1. intros h [] Hp. by split; [split|]. Qed.
Lemma keeps_id d p v : in_i32_range v -> keeps (I d p) (update_h1 (set_last_id v)).
Proof. intros Hv. apply triple_update_h1. intros h [] Hp. by split; [split|]. Qed.
Lemma keeps_idle d p b : keeps (I d p) (update_h1 (set_idle b)).
Proof. apply triple_update_h1. intros h [] Hp. by split; [split|]. Qed.
Lemma keeps_message d p o : keeps (I d p) (update_h1 (put_rpc_message o)).
Proof. apply triple_update_h1. intros h [] Hp. by split; [split|]. Qed.
Lemma keeps_reset d p : keeps (I d p) reset_read.
Proof.
  apply triple_update_h1. intros h [? [] ? ? ? ? ?] Hp. split; [|done].
  split; unfold in_i32_range; cbn; try done; lia.
Qed.
Lemma keeps_shared d p {A} (op : M (CState (Conn1 S)) A) : moves (on_P eq) op -> keeps (I d p) op.
Proof. apply triple_shared. Qed.
Lemma checked_range z v : checked_i32 z = Ok v -> in_i32_range v.
Proof. by intros [-> ?]%checked_i32_Ok. Qed.
Hint Resolve triple_get_h1 triple_get_base keeps_idle keeps_message keeps_reset : triple.
Hint Extern 5 (triple _ _ _) => (apply keeps_shared; solve [eauto with moves typeclass_instances]) : triple.
Hint Extern 3 (triple _ (update_h1 (set_last_id _)) _) => (apply keeps_id; eapply checked_range; eassumption) : triple.

Lemma in_i32_swrap v : in_i32_range (i32 v).
Proof. apply (swrap_range 32). lia. Qed.
Lemma from_chars_range bs v : from_chars_int bs = Some v -> in_i32_range v.
Proof.
  unfold from_chars_int.
  match goal with |- context [let '(_, _) := ?e in _] => destruct e as [neg ds] end. destruct (parse_digits 0 false ds) as [x seen].
  destruct (seen && _) eqn:E; [|done]. intros [= <-]. apply andb_prop in E as [_ E]. unfold in_i32, in_i32_range in *. lia.
Qed.

Lemma keeps_request_content_length d p hs : keeps (I d p) (request_content_length hs).
Proof.
  unfold request_content_length. triple_auto. apply keeps_content, in_i32_swrap.
Qed.
Lemma keeps_response_body_headers d p hs : keeps (I d p) (response_body_headers hs).
Proof.
  unfold response_body_headers. triple_auto. apply keeps_content. by eapply from_chars_range.
Qed.
Hint Resolve keeps_request_content_length keeps_response_body_headers : triple.

Lemma wf_fill_request d p r : keeps (I d p) (fill_request c r).
Proof. unfold fill_request, add_headers. triple_auto. Qed.
Lemma wf_hand_over d p i : keeps (I d p) (hand_over c i).
Proof. unfold hand_over. triple_auto. Qed.
Lemma keeps_add_headers d p i hs b : keeps (I d p) (add_headers c i hs b).
Proof. unfold add_headers. triple_auto. Qed.
Hint Resolve wf_fill_request wf_hand_over keeps_add_headers : triple.

(** The size of a header just parsed. *)
Lemma set_hdr_size_inv d p n (s : CState (Conn1 S)) : I d p s -> d = DOWNSTREAM \/ 0 <= n -> -2 <= n <= buf_len (h1 (cs_conn s)) ->
  (hdr_complete (h1 (cs_conn s)) = true -> 0 <= n) ->
  I d (bool_decide (0 <= n)) (mkCState (mkConn1 (base (cs_conn s)) (set_hdr_size n (h1 (cs_conn s)))) (cs_ctx s)).
Proof.
  intros (Hd & [] & _) Hor Hn Hc. split; [done|]. split; [|by intros ?%bool_decide_eq_true].
  split; cbn; try done. intros E. split; [by apply hw_complete0|by apply Hc].
Qed.

Lemma keeps_weaken d p (s : CState (Conn1 S)) : I d p s -> I d false s.
Proof. by intros (? & ? & ?). Qed.

Lemma wf_read_request : keeps (I DOWNSTREAM false) (read_request c m).
Proof.
  intros s Hs. unfold read_request. rewrite (run_bind _ _ _ (h1 (cs_conn s)) s) by done.
  pose proof Hs as (_ & Hh & _). pose proof (wf_parse_request m _ _ Hh) as Hp.
  assert (hdr_complete (h1 (cs_conn s)) = true -> False) as Hnc by (intros E; by apply (hw_complete _ _ Hh) in E as [? _]).
  assert (0 <= buf_len (h1 (cs_conn s))) by (pose proof (hw_prev _ _ Hh); lia).
  destruct (phr_parse_request _ _ _ _) as [[n r] l'|r|]; [| |done].
  - rewrite (run_bind _ _ _ tt (mkCState (mkConn1 (base (cs_conn s)) (set_hdr_size n (h1 (cs_conn s)))) (cs_ctx s))) by done.
    match goal with |- match ?op ?s1 with _ => _ end =>
      assert (keeps (I DOWNSTREAM false) op) as Hop; [|specialize (Hop s1)] end.
    { unfold reject, check_target. triple_auto. }
    apply Hop. apply (keeps_weaken _ (bool_decide (0 <= n))). apply (set_hdr_size_inv _ false); try done; [by left|lia].
  - rewrite (run_bind _ _ _ tt (mkCState (mkConn1 (base (cs_conn s)) (set_hdr_size r (h1 (cs_conn s)))) (cs_ctx s))) by done.
    match goal with |- match ?op ?s1 with _ => _ end =>
      assert (keeps (I DOWNSTREAM false) op) as Hop; [|specialize (Hop s1)] end.
    { unfold reject. triple_auto. }
    apply Hop. apply (keeps_weaken _ (bool_decide (0 <= r))). apply (set_hdr_size_inv _ false); try done; [by left|lia].
Qed.

Lemma keeps_complete : keeps (I UPSTREAM true) (update_h1 (set_hdr_complete true)).
Proof. apply triple_update_h1. intros h [] Hp. split; [|done]. split; cbn; try done. intros _. by split; [|apply Hp]. Qed.
Hint Resolve keeps_complete : triple.

(** An outcome that keeps the invariant. *)
Definition kept d {A} (o : outcome (CState (Conn1 S)) A) : Prop :=
  match o with Ret _ s' => I d false s' /\ True | Exc _ s' => I d false s' | Stop _ => True end.
Lemma kept_after d {A} (op : M (CState (Conn1 S)) A) s : keeps (I d true) op -> I d true s -> kept d (op s).
Proof.
  intros Hop Hs. specialize (Hop s Hs). unfold kept.
  destruct (op s); [split; [|done]; eapply keeps_weaken; apply Hop|by eapply keeps_weaken|done].
Qed.

Lemma keeps_read_response_header s : I UPSTREAM false s -> hdr_complete (h1 (cs_conn s)) = false ->
  kept UPSTREAM (read_response_header c m s).
Proof.
  intros Hs Hnc. unfold read_response_header. rewrite (run_bind _ _ _ (h1 (cs_conn s)) s) by done.
  rewrite (run_bind _ _ _ (base (cs_conn s)) s) by done.
  pose proof Hs as (_ & Hh & _). pose proof (wf_parse_response m _ _ Hh) as Hp.
  assert (0 <= buf_len (h1 (cs_conn s))) by (pose proof (hw_prev _ _ Hh); lia).
  assert (forall n, -2 <= n <= buf_len (h1 (cs_conn s)) ->
    I UPSTREAM (bool_decide (0 <= n)) (mkCState (mkConn1 (base (cs_conn s)) (set_hdr_size n (h1 (cs_conn s)))) (cs_ctx s))) as Hset.
  { intros n Hn. destruct Hs as (Hd & [] & _). split; [done|]. split; [|by intros ?%bool_decide_eq_true].
    split; cbn; try done. by rewrite Hnc. }
  destruct (phr_parse_response _ _ _ _) as [[n r] l'|r|]; [| |done].
  - rewrite (run_bind _ _ _ tt (mkCState (mkConn1 (base (cs_conn s)) (set_hdr_size n (h1 (cs_conn s)))) (cs_ctx s))) by done.
    apply kept_after; [triple_auto|]. specialize (Hset n ltac:(lia)). by rewrite bool_decide_true in Hset by lia.
  - rewrite (run_bind _ _ _ tt (mkCState (mkConn1 (base (cs_conn s)) (set_hdr_size r (h1 (cs_conn s)))) (cs_ctx s))) by done.
    destruct (r =? -2) eqn:E; [|done]. split; [|done]. eapply keeps_weaken, Hset. lia.
Qed.

Lemma keeps_finish_response : keeps (I UPSTREAM false) finish_response.
Proof. unfold finish_response, take_body. triple_auto. apply keeps_content. unfold in_i32_range. lia. Qed.

Lemma wf_read_response : keeps (I UPSTREAM false) (read_response c m).
Proof.
  intros s Hs. unfold read_response. rewrite (run_bind _ _ _ (h1 (cs_conn s)) s) by done.
  destruct (hdr_complete (h1 (cs_conn s))) eqn:E; [by apply keeps_finish_response|].
  pose proof (keeps_read_response_header s Hs E) as Hk. unfold mbind, M_bind, kept in *.
  destruct (read_response_header c m s) as [a s'|e s'|]; [|done|done].
  destruct Hk as [Hk _]. destruct a; [exact (keeps_finish_response s' Hk)|done].
Qed.

Lemma wf_http1_read d b : bytes (data b) -> 0 <= filled b -> keeps (I d false) (http1_read c m b).
Proof.
  intros Hb Hf s Hs. unfold http1_read. destruct (filled b =? 0); [done|].
  rewrite (run_bind _ _ _ (h1 (cs_conn s)) s) by done.
  destruct (append_read b (h1 (cs_conn s))) as [h'|e] eqn:E; [|by destruct e].
  rewrite (run_lift _ _ _ h') by done.
  rewrite (run_bind _ _ _ tt (mkCState (mkConn1 (base (cs_conn s)) h') (cs_ctx s))) by done.
  rewrite (run_bind _ _ _ (base (cs_conn s)) (mkCState (mkConn1 (base (cs_conn s)) h') (cs_ctx s))) by done.
  destruct Hs as (Hd & Hh & _).
  assert (I d false (mkCState (mkConn1 (base (cs_conn s)) h') (cs_ctx s))) as Hs'.
  { split; [done|]. split; [|done]. by eapply append_read_wf. }
  rewrite Hd. destruct d; [by apply wf_read_response|by apply wf_read_request].
Qed.

Lemma wf_http1_write d others b : keeps (I d false) (http1_write c others b).
Proof. unfold http1_write, get_rpc_message. triple_auto. Qed.
Lemma keeps_submit_request d i : keeps (I d false) (http1_submit_request i).
Proof.
  unfold http1_submit_request, set_rpc_message. triple_auto. apply triple_update_h1. intros h [] Hp. by split; [split; cbn; try done; eapply checked_range|].
Qed.
Lemma keeps_submit_response d i : keeps (I d false) (http1_submit_response i).
Proof. unfold http1_submit_response, set_rpc_message. triple_auto. Qed.
End Ops.

(** ** The life of a connection *)

Section Life.
Context {S : Type} (c : Config) (m : simd).

(** The operations of a connection, each on a buffer the kernel filled; the
    objects it shares with other connections may change in between. *)
Inductive h1_step : CState (Conn1 S) -> CState (Conn1 S) -> Prop :=
  | hs_read b s s' : bytes (data b) -> 0 <= filled b -> http1_read c m b s = Ret tt s' -> h1_step s s'
  | hs_malformed b s e s' : bytes (data b) -> 0 <= filled b -> http1_read c m b s = Exc e s' -> h1_step s s'
  | hs_write others b s r s' : http1_write c others b s = Ret r s' -> h1_step s s'
  | hs_request i s id s' : http1_submit_request i s = Ret id s' -> h1_step s s'
  | hs_response i s s' : http1_submit_response i s = Ret tt s' -> h1_step s s'
  | hs_elsewhere x ctx ctx' : h1_step (mkCState x ctx) (mkCState x ctx').

Lemma kept_by {A} d (op : M (CState (Conn1 S)) A) s : keeps (fun s => inv1 d false (cs_conn s)) op -> inv1 d false (cs_conn s) ->
  forall s', (exists a, op s = Ret a s') \/ (exists e, op s = Exc e s') -> inv1 d false (cs_conn s').
Proof. intros Hop Hs s' Hr. specialize (Hop s Hs). destruct Hr as [[a E]|[e E]]; rewrite E in Hop; [by destruct Hop|done]. Qed.

Lemma h1_step_inv d s s' : h1_step s s' -> inv1 d false (cs_conn s) -> inv1 d false (cs_conn s').
Proof.
  intros Hst Hs. destruct Hst as [b s s' Hb Hf E|b s e s' Hb Hf E|o b s r s' E|i s id s' E|i s s' E|x ctx ctx']; [..|exact Hs].
  - eapply kept_by; [by apply (wf_http1_read c m d b)|exact Hs|eauto].
  - eapply kept_by; [by apply (wf_http1_read c m d b)|exact Hs|eauto].
  - eapply kept_by; [by apply (wf_http1_write c d o b)|exact Hs|eauto].
  - eapply kept_by; [by apply (keeps_submit_request d i)|exact Hs|eauto].
  - eapply kept_by; [by apply (keeps_submit_response d i)|exact Hs|eauto].
Qed.

(** C13: whatever is read from and written to an HTTP/1.1 connection, from its
    creation on: the bytes it has collected fit its array, what was there
    before the last read is part of them, its header size, content length and
    ids stay in their types, only a response is ever half read; and the
    parsers are called within their contract, so that they never read past
    the text and never claim more of it than there is. *)
Theorem http1_connection_invariant (x : Connection S) ctx s : rtc h1_step (mkCState (mkConn1 x h1_make) ctx) s ->
  let h := h1 (cs_conn s) in
  h1_wf (c_direction x) h /\ c_direction (base (cs_conn s)) = c_direction x /\
  match phr_parse_request m HTTP1Connection_MAX_HEADERS (prev_buf_len h) (text h) with
  | Got (n, _) _ => 0 <= n <= buf_len h | Fail r => r = -1 \/ r = -2 | Oob => False end /\
  match phr_parse_response m HTTP1Connection_MAX_HEADERS (prev_buf_len h) (text h) with
  | Got (n, _) _ => 0 <= n <= buf_len h | Fail r => r = -1 \/ r = -2 | Oob => False end.
Proof.
  intros Hs h. assert (inv1 (c_direction x) false (cs_conn s)) as (Hd & Hw & _).
  { remember (mkCState (mkConn1 x h1_make) ctx) as s0 eqn:E0.
    assert (inv1 (c_direction x) false (cs_conn s0)) as H0 by (subst s0; split; [done|]; split; [apply h1_make_wf|done]).
    clear E0. induction Hs as [s|s s1 s2 Hst _ IH]; [done|]. by eapply IH, h1_step_inv. }
  split; [done|]. split; [done|]. split; [by eapply wf_parse_request|by eapply wf_parse_response].
Qed.
End Life.

(** The first bytes of a request arrive. *)
Definition ex_conn : Connection unit := downstream_conn 7 INGRESS (Proto1 h1_make).
Definition ex_read : Buffer := mkBuffer (bytes_of_string "GET / HT") false false 0 200 8 0 zero_msg zero_addr.
Definition ex_config : Config := mkConfig 64 16 4096 1 8080 9090 "127.0.0.1" 8000 "leaf" ∅ ∅
  false false false None None (Some 4) (Some (f32_of_Z 0)) 0
  default_aimd_err_d default_aimd_err_i default_aimd_adj_d default_aimd_adj_i default_safe_multiply.
Definition no_map {T} : LocalMap T := mkLocalMap [] 0 0 0.
Definition ex_ctx : Ctx :=
  mkCtx (mkIngress 10 [] twm_make false None 0 0 0 "")
    (mkEnv ∅ 0 (mkMapper (mkByType ∅ ∅) (mkByType ∅ ∅) (mkByType ∅ ∅) (mkPool [] [])) rpc_queue_make
       (mkStats 0 no_map no_map no_map no_map no_map no_map no_map no_map))
    (fun n => 1000 * Z.of_nat n) 0.

Lemma http1_connection_invariant_witness :
  exists s, http1_read ex_config SSE42 ex_read (mkCState (mkConn1 ex_conn h1_make) ex_ctx) = Ret tt s /\
    h1_wf DOWNSTREAM (h1 (cs_conn s)) /\ buf_len (h1 (cs_conn s)) = 8 /\ hdr_size (h1 (cs_conn s)) = -2.
Proof.
  eexists. split; [vm_compute; reflexivity|]. split; [|by split].
  apply (http1_connection_invariant ex_config SSE42 ex_conn ex_ctx). apply rtc_once.
  apply (hs_read _ _ ex_read); [apply bytes_string|done|vm_compute; reflexivity].
Defined.
