(* ===== verification/Http1Split.v ===== *)
(** * HTTP/1.1 requests that arrive in pieces

    A stream of bytes reaches [http_read] in buffers that respect no message
    border. A request read piece by piece is handled as if it had been read
    at once. *)

From Stdlib Require Import ZArith Lia Ascii.
From stdpp Require Import base gmap strings list fin_maps.
From S2P Require Import Prelude Fp Config Buffers PicoHttp PicoHttpProps PicoHttpSplit RpcMessage RpcMapper Queues LocalMap Stats Ingress Connection Moves Http1 Http1Inv.

Open Scope Z_scope.

(** ** Computations that do not look at a part of the state

    [f] changes that part. [blind f m]: [m] gives the same with and without
    the change, and keeps it; [settles f m]: in the end it overwrites it. *)

Definition blind {S A} (f : S -> S) (m : M S A) : Prop := forall s,
  m (f s) = match m s with Ret a s' => Ret a (f s') | Exc e s' => Exc e (f s') | Stop x => Stop x end.
Definition settles {S A} (f : S -> S) (m : M S A) : Prop := forall s,
  match m s with
  | Ret a s' => m (f s) = Ret a s'
  | Exc e s' => m (f s) = Exc e (f s')
  | Stop x => m (f s) = Stop x
  end.

Section Blind.
Context {S : Type} (f : S -> S).

Lemma blind_bind {A B} (m : M S A) (g : A -> M S B) : blind f m -> (forall a, blind f (g a)) -> blind f (m ≫= g).
Proof. intros Hm Hg s. unfold mbind, M_bind. rewrite Hm. destruct (m s); [apply Hg|done..]. Qed.
Lemma blind_ret {A} (a : A) : blind f (mret a).
Proof. done. Qed.
Lemma blind_fail {A} x : blind f (fail (A := A) x).
Proof. intros s. by destruct x. Qed.
Lemma blind_lift {A} (r : res A) : blind f (lift r).
Proof. destruct r; [done|apply blind_fail]. Qed.
Lemma blind_guard b : blind f (guard_fatal b).
Proof. apply blind_lift. Qed.
Lemma blind_gets {A} (g : S -> A) : (forall s, g (f s) = g s) -> blind f (gets g).
Proof. intros H s. unfold gets. by rewrite H. Qed.
Lemma blind_modify g : (forall s, g (f s) = f (g s)) -> blind f (modify g).
Proof. intros H s. unfold modify. by rewrite H. Qed.
Lemma blind_forM {A} (l : list A) g : (forall x, blind f (g x)) -> blind f (forM l g).
Proof. intros H. induction l as [|x l IH]; [done|]. by apply blind_bind. Qed.

Lemma settles_bind {A B} (m : M S A) (g : A -> M S B) : blind f m -> (forall a, settles f (g a)) -> settles f (m ≫= g).
Proof. intros Hm Hg s. unfold mbind, M_bind. rewrite Hm. destruct (m s) as [a s'|e s'|]; [apply Hg|done..]. Qed.
Lemma settles_fail {A} x : settles f (fail (A := A) x).
Proof. intros s. by destruct x. Qed.
Lemma settles_modify g : (forall s, g (f s) = g s) -> settles f (modify g).
Proof. intros H s. unfold modify. by rewrite H. Qed.
End Blind.
Create HintDb blind.
#[export] Hint Resolve blind_ret blind_fail blind_lift blind_guard : blind.

(** ** The HTTP/1.1 state of a connection *)

Definition on_h1 {S} (f : HTTP1State -> HTTP1State) (s : CState (Conn1 S)) : CState (Conn1 S) :=
  mkCState (mkConn1 (base (cs_conn s)) (f (h1 (cs_conn s)))) (cs_ctx s).

Section OnH1.
Context {S : Type} (f : HTTP1State -> HTTP1State).
Implicit Types (s : CState (Conn1 S)).

Lemma blind_get_ctx : blind (on_h1 (S := S) f) get_ctx.
Proof. by apply blind_gets. Qed.
Lemma blind_put_ctx x : blind (on_h1 (S := S) f) (put_ctx x).
Proof. by apply blind_modify. Qed.
Lemma blind_get_base : blind (on_h1 (S := S) f) get_base.
Proof. done. Qed.
Lemma blind_get_h1 {B} (g : HTTP1State -> M (CState (Conn1 S)) B) : (forall h, g (f h) = g h) ->
  (forall h, blind (on_h1 f) (g h)) -> blind (on_h1 f) (get_h1 ≫= g).
Proof.
  intros Hg Hb s. change ((get_h1 ≫= g) (on_h1 f s)) with (g (f (h1 (cs_conn s))) (on_h1 f s)).
  change ((get_h1 ≫= g) s) with (g (h1 (cs_conn s)) s). rewrite Hg. apply Hb.
Qed.
Lemma settles_get_h1 {B} (g : HTTP1State -> M (CState (Conn1 S)) B) : (forall h, g (f h) = g h) ->
  (forall h, settles (on_h1 f) (g h)) -> settles (on_h1 f) (get_h1 ≫= g).
Proof.
  intros Hg Hb s. change ((get_h1 ≫= g) (on_h1 f s)) with (g (f (h1 (cs_conn s))) (on_h1 f s)).
  change ((get_h1 ≫= g) s) with (g (h1 (cs_conn s)) s). rewrite Hg. apply Hb.
Qed.
Lemma blind_update_h1 g : (forall h, g (f h) = f (g h)) -> blind (on_h1 (S := S) f) (update_h1 g).
Proof. intros Hg s. unfold update_h1, update_conn, modify, on_h1. cbn. by rewrite Hg. Qed.
End OnH1.
#[export] Hint Resolve blind_get_ctx blind_put_ctx blind_get_base : blind.
#[export] Hint Extern 2 (blind (on_h1 _) (update_h1 _)) => (by apply blind_update_h1) : blind.

(** Follow the code, as [moves_auto] does. *)
Ltac blind_step :=
  match goal with
  | |- blind (on_h1 _) (get_h1 ≫= _) => apply blind_get_h1; [reflexivity|intros ?]
  | |- settles (on_h1 _) (get_h1 ≫= _) => apply settles_get_h1; [reflexivity|intros ?]
  | |- blind _ (_ ≫= _) => apply blind_bind; [|intros ?]
  | |- settles _ (_ ≫= _) => apply settles_bind; [|intros ?]
  | |- blind _ (forM _ _) => apply blind_forM; intros ?
  | |- blind _ (match ?x with _ => _ end) => destruct x
  | |- blind _ _ => solve [auto with blind]
  end.
Ltac blind_auto := repeat blind_step.

Section Shared.
Context {S : Type} (f : HTTP1State -> HTTP1State).

Lemma blind_on_env {A} (g : Env -> res (A * Env)) : blind (on_h1 (S := S) f) (on_env g).
Proof. unfold on_env. blind_auto. Qed.
Hint Resolve blind_on_env : blind.
Lemma blind_now : blind (on_h1 (S := S) f) now.
Proof. unfold now. blind_auto. Qed.
Lemma blind_on_env_ g : blind (on_h1 (S := S) f) (on_env_ g).
Proof. apply blind_on_env. Qed.
Hint Resolve blind_on_env_ : blind.
Lemma blind_rpc_add_header g i n nl v vl rq tl : blind (on_h1 (S := S) f) (rpc_add_header g i n nl v vl rq tl).
Proof. apply blind_on_env_. Qed.
Lemma blind_update_rpc i g : blind (on_h1 (S := S) f) (update_rpc i g).
Proof. apply blind_on_env_. Qed.
Lemma blind_queue_enqueue t d fd st : blind (on_h1 (S := S) f) (queue_enqueue t d fd st).
Proof. apply blind_on_env_. Qed.
Lemma blind_get_us_rpc t st fd : blind (on_h1 (S := S) f) (conn_get_us_rpc t st fd).
Proof. unfold conn_get_us_rpc. blind_auto. Qed.
Lemma blind_cast_rpc k i : blind (on_h1 (S := S) f) (cast_rpc k i).
Proof. unfold cast_rpc, read_rpc. blind_auto. Qed.
End Shared.
#[export] Hint Resolve blind_on_env blind_now blind_on_env_ blind_rpc_add_header blind_update_rpc blind_queue_enqueue
  blind_get_us_rpc blind_cast_rpc : blind.

(** ** The length of the text before the last read *)

Section Pieces.
Context {S : Type} (c : Config) (m : simd).
Implicit Types (h : HTTP1State).

Definition with_prev (k : Z) h : HTTP1State := set_buf (buf h) (buf_len h) k h.
Definition forget (k : Z) : CState (Conn1 S) -> CState (Conn1 S) := on_h1 (with_prev k).

Lemma blind_add_headers k i hs b : blind (on_h1 (S := S) (with_prev k)) (add_headers c i hs b).
Proof. unfold add_headers. blind_auto. Qed.
Hint Resolve blind_add_headers : blind.
Lemma blind_request_content_length k hs : blind (on_h1 (S := S) (with_prev k)) (request_content_length hs).
Proof. unfold request_content_length. blind_auto. Qed.
Lemma blind_fill_request k r : blind (on_h1 (S := S) (with_prev k)) (fill_request c r).
Proof. unfold fill_request, conn_allocate_rpc, conn_get_ds_rpc. blind_auto. Qed.
Lemma blind_hand_over k i : blind (on_h1 (S := S) (with_prev k)) (hand_over c i).
Proof. unfold hand_over, ingress_enqueue. blind_auto. Qed.
Hint Resolve blind_request_content_length blind_fill_request blind_hand_over : blind.

(** What [read_request] does with a request it has parsed. *)
Definition accept_request (n : Z) (r : Request) : M (CState (Conn1 S)) unit :=
  _ ← update_h1 (set_hdr_size n);
  _ ← request_content_length (rq_headers r);
  h ← get_h1;
  _ ← (if 0 <=? content_length h then reject c else mret tt);
  _ ← check_target c (rq_path r);
  _ ← guard_fatal (n <? buf_len h);
  i ← fill_request c r;
  _ ← hand_over c i;
  h ← get_h1;
  _ ← guard_fatal (negb (idle h));
  _ ← update_h1 (set_idle false);
  reset_read.
Lemma accept_settles k n r : settles (forget k) (accept_request n r).
Proof.
  unfold forget, accept_request, check_target, reject. repeat blind_step. by apply settles_modify.
Qed.
Lemma read_request_accepts (s : CState (Conn1 S)) n r rest :
  phr_parse_request m HTTP1Connection_MAX_HEADERS (prev_buf_len (h1 (cs_conn s))) (text (h1 (cs_conn s))) = Got (n, r) rest ->
  read_request c m s = accept_request n r s.
Proof. intros E. unfold read_request. rewrite (run_bind _ _ _ (h1 (cs_conn s)) s) by done. by rewrite E. Qed.
Lemma read_request_waits (s : CState (Conn1 S)) :
  phr_parse_request m HTTP1Connection_MAX_HEADERS (prev_buf_len (h1 (cs_conn s))) (text (h1 (cs_conn s))) = Fail (-2) ->
  read_request c m s = Ret tt (mkCState (mkConn1 (base (cs_conn s)) (set_hdr_size (-2) (h1 (cs_conn s)))) (cs_ctx s)).
Proof. intros E. unfold read_request. rewrite (run_bind _ _ _ (h1 (cs_conn s)) s) by done. by rewrite E. Qed.

(** ** Piece by piece *)

(** The bytes the kernel put into a buffer. *)
Definition content (b : Buffer) : list Z := take (Z.to_nat (filled b)) (data b).
Definition piece (b : Buffer) : Prop := 0 < filled b <= Z.of_nat (length (data b)) /\ bytes (data b).
Lemma length_content b : piece b -> Z.of_nat (length (content b)) = filled b.
Proof. intros [? _]. unfold content. rewrite length_take. lia. Qed.
Lemma content_bytes b : piece b -> bytes (content b).
Proof. intros [_ ?]. by apply Forall_take. Qed.

(** A connection without text that has then read [l], in two reads of which
    the first brought [k] bytes. *)
Definition holds_text (l : list Z) (k : Z) h : HTTP1State :=
  set_buf (l ++ drop (length l) (buf h)) (Z.of_nat (length l)) k h.
Definition has_read (l : list Z) (k : Z) : CState (Conn1 S) -> CState (Conn1 S) := on_h1 (holds_text l k).
Definition sized (z : Z) : CState (Conn1 S) -> CState (Conn1 S) := on_h1 (set_hdr_size z).

Lemma text_holds l k h : text (holds_text l k h) = l.
Proof. unfold text, holds_text. cbn. rewrite Nat2Z.id. apply take_app_length. Qed.

Lemma text_read z l k (s : CState (Conn1 S)) : text (h1 (cs_conn (sized z (has_read l k s)))) = l.
Proof. apply text_holds. Qed.
Lemma accept_sized z n r (s : CState (Conn1 S)) : accept_request n r (sized z s) = accept_request n r s.
Proof. reflexivity. Qed.
Lemma bind_mret_unit {T} (op : M T unit) (s : T) : (op ≫= fun _ => mret tt) s = op s.
Proof. unfold mbind, M_bind. by destruct (op s) as [[]| |]. Qed.

Lemma append_holds b l k z h : piece b -> Z.of_nat (length l) + filled b <= HTTP1Connection_BUF_SIZE ->
  append_read b (set_hdr_size z (holds_text l k h)) =
    Ok (set_hdr_size z (holds_text (l ++ content b) (Z.of_nat (length l)) h)).
Proof.
  intros Hp Hfit. pose proof (length_content b Hp) as Hlen. destruct Hp as [Hf _].
  unfold append_read, holds_text. cbn [buf buf_len set_buf set_hdr_size].
  rewrite (wrap_small 64) by (unfold HTTP1Connection_BUF_SIZE in *; lia). rewrite (proj2 (Z.ltb_ge _ _)) by lia.
  unfold slice. rewrite drop_0, decide_True by lia. fold (content b). cbn.
  rewrite Nat2Z.id, take_app_length, drop_app_ge, drop_drop by lia.
  unfold set_hdr_size, set_buf. cbn. do 2 f_equal; rewrite ?length_app; [|lia].
  rewrite app_assoc. do 2 f_equal. lia.
Qed.

Lemma http1_read_step b l k z (s : CState (Conn1 S)) : piece b -> Z.of_nat (length l) + filled b <= HTTP1Connection_BUF_SIZE ->
  http1_read c m b (sized z (has_read l k s)) =
    match c_direction (base (cs_conn s)) with DOWNSTREAM => read_request c m | UPSTREAM => read_response c m end
      (sized z (has_read (l ++ content b) (Z.of_nat (length l)) s)).
Proof.
  intros Hp Hfit. pose proof Hp as [Hf _]. unfold http1_read. rewrite (proj2 (Z.eqb_neq _ _)) by lia.
  rewrite (run_bind _ _ _ (h1 (cs_conn (sized z (has_read l k s)))) (sized z (has_read l k s))) by done.
  rewrite (run_lift _ _ _ (set_hdr_size z (holds_text (l ++ content b) (Z.of_nat (length l)) (h1 (cs_conn s))))) by (by apply append_holds).
  rewrite (run_bind _ _ _ tt (sized z (has_read (l ++ content b) (Z.of_nat (length l)) s))) by done.
  rewrite (run_bind _ _ _ (base (cs_conn s)) (sized z (has_read (l ++ content b) (Z.of_nat (length l)) s))) by done.
  cbn. by destruct (c_direction _).
Qed.

(** The pieces from [l] on, when a request of [n] bytes is complete with the
    last of them. *)
Lemma read_pieces bs l k z (s : CState (Conn1 S)) q r : Forall piece bs -> bs <> [] ->
  c_direction (base (cs_conn s)) = DOWNSTREAM -> bytes l -> 
  let whole := l ++ concat (content <$> bs) in
  let n := Z.of_nat (length whole) in
  n <= HTTP1Connection_BUF_SIZE -> phr_parse_request m HTTP1Connection_MAX_HEADERS 0 whole = Got (n, q) r ->
  exists k', forM bs (http1_read c m) (sized z (has_read l k s)) = accept_request n q (has_read whole k' s).
Proof.
  intros Hbs. revert l k z. induction bs as [|b bs IH]; intros l k z Hne Hd Hl whole n Hn Hq; [done|].
  inversion Hbs as [|? ? Hb Hbs']; subst. pose proof (length_content b Hb) as Hlen. pose proof Hb as [Hf _].
  assert (whole = (l ++ content b) ++ concat (content <$> bs)) as Ew by (unfold whole; cbn; by rewrite app_assoc).
  assert (n = Z.of_nat (length (l ++ content b)) + Z.of_nat (length (concat (content <$> bs)))) as En
    by (unfold n; rewrite Ew, (length_app (l ++ content b)); lia).
  assert (bytes whole) as Hw.
  { unfold whole. apply Forall_app. split; [done|]. clear -Hbs. induction Hbs as [|x bs0 Hx _ IH]; [constructor|].
    cbn. apply Forall_app. split; [by apply content_bytes|done]. }
  cbn [forM]. rewrite length_app in En.
  assert (http1_read c m b (sized z (has_read l k s)) =
    read_request c m (sized z (has_read (l ++ content b) (Z.of_nat (length l)) s))) as Hread
    by (rewrite http1_read_step by (done || lia); by rewrite Hd).
  pose proof (request_resumes m HTTP1Connection_MAX_HEADERS (Z.of_nat (length l)) whole (length (l ++ content b)) n q r
    Hw ltac:(lia) Hq) as [Hpart Hwhole].
  destruct bs as [|b2 bs].
  - exists (Z.of_nat (length l)). cbn in Ew. rewrite app_nil_r in Ew. cbn [forM].
    rewrite bind_mret_unit, Hread, Ew, <- (accept_sized z). apply (read_request_accepts _ n q r).
    rewrite text_read, <- Ew. apply Hwhole. lia.
  - assert (0 < Z.of_nat (length (concat (content <$> b2 :: bs)))) as Hmore.
    { cbn. rewrite length_app. inversion Hbs' as [|? ? H2 _]; subst. pose proof (length_content b2 H2). destruct H2. lia. }
    destruct (IH Hbs' (l ++ content b) (Z.of_nat (length l)) (-2) ltac:(done) Hd) as [k' Hk'].
    + apply Forall_app. split; [done|by apply content_bytes].
    + rewrite <- Ew. done.
    + rewrite <- Ew. done.
    + exists k'. rewrite <- Ew in Hk'. fold n in Hk'. rewrite <- Hk'.
      rewrite (run_bind _ _ _ tt (sized (-2) (has_read (l ++ content b) (Z.of_nat (length l)) s))); [done|].
      rewrite Hread. rewrite read_request_waits; [done|].
      rewrite text_read.
      rewrite Ew, take_app_length in Hpart. apply Hpart. rewrite length_app. lia.
Qed.

Lemma fresh_has_read (s : CState (Conn1 S)) : buf_len (h1 (cs_conn s)) = 0 ->
  s = sized (hdr_size (h1 (cs_conn s))) (has_read [] (prev_buf_len (h1 (cs_conn s))) s).
Proof. destruct s as [[x []] ctx]. cbn. by intros ->. Qed.

(** C14: how the bytes of a request are spread over reads does not matter: a
    connection between requests that reads a complete request in any
    number of non-empty pieces does what it would do if it read it at once.
    It ends in the same state, with the same message handed over; or it
    throws or aborts alike, and then differs only in the length it had before
    the last read. *)
Theorem request_read_in_pieces b bs (s : CState (Conn1 S)) q r : piece b -> Forall piece bs ->
  content b = concat (content <$> bs) -> filled b <= HTTP1Connection_BUF_SIZE ->
  c_direction (base (cs_conn s)) = DOWNSTREAM -> buf_len (h1 (cs_conn s)) = 0 ->
  phr_parse_request m HTTP1Connection_MAX_HEADERS 0 (content b) = Got (filled b, q) r ->
  match http1_read c m b s with
  | Ret a s' => forM bs (http1_read c m) s = Ret a s'
  | Exc e s' => exists k, forM bs (http1_read c m) s = Exc e (forget k s')
  | Stop f => forM bs (http1_read c m) s = Stop f
  end.
Proof.
  intros Hb Hbs Ec Hfit Hd Hfresh Hq. pose proof (length_content b Hb) as Hlen. pose proof Hb as [Hf _].
  rewrite <- Hlen in Hq.
  assert (forall bs', Forall piece bs' -> bs' <> [] -> concat (content <$> bs') = content b ->
    exists k, forM bs' (http1_read c m) s = accept_request (filled b) q (has_read (content b) k s)) as Hread.
  { intros bs' Hbs' Hne E. rewrite <- Hlen, <- E.
    destruct (read_pieces bs' [] (prev_buf_len (h1 (cs_conn s))) (hdr_size (h1 (cs_conn s))) s q r Hbs' Hne Hd) as [k Hk];
      [constructor|cbn; rewrite E; lia|cbn; rewrite E; exact Hq|].
    exists k. etrans; [exact (f_equal _ (fresh_has_read s Hfresh))|exact Hk]. }
  destruct (Hread [b]) as [k1 H1]; [by constructor|done|cbn; by rewrite app_nil_r|].
  destruct (Hread bs) as [k2 H2]; [done|intros ->; cbn in Ec; rewrite Ec in Hlen; cbn in Hlen; lia|done|].
  cbn [forM] in H1. rewrite bind_mret_unit in H1. rewrite H1, H2.
  pose proof (accept_settles k2 (filled b) q (has_read (content b) k1 s)) as Hs.
  change (forget k2 (has_read (content b) k1 s)) with (has_read (content b) k2 s) in Hs.
  destruct (accept_request _ _ (has_read (content b) k1 s)); [done|by exists k2|done].
Qed.
End Pieces.

(** A request for "leaf" reaches a frontend in three pieces. *)
Definition ex_piece (l : list Z) : Buffer := mkBuffer l false false 0 200 (Z.of_nat (length l)) 0 zero_msg zero_addr.
Definition ex_text : list Z :=
  bytes_of_string "GET /leaf HTTP/1.1" ++ [13; 10] ++ bytes_of_string "rpc-id: 12" ++ [13; 10; 13; 10].
Definition ex_pieces : list Buffer := [ex_piece (take 8 ex_text); ex_piece (take 25 (drop 8 ex_text)); ex_piece (drop 33 ex_text)].
Definition ex_frontend : Config := mkConfig 64 16 4096 1 8080 9090 "127.0.0.1" 8000 "leaf" ∅ ∅
  false true false None None (Some 4) (Some (f32_of_Z 0)) 0
  default_aimd_err_d default_aimd_err_i default_aimd_adj_d default_aimd_adj_i default_safe_multiply.

Definition ex_start : CState (Conn1 unit) :=
  mkCState (mkConn1 ex_conn h1_make)
    (mkCtx (x_ingress ex_ctx)
      (mkEnv {[0%nat := rpc_make 0 INGRESS HTTP1]} 0 (mkMapper (mkByType ∅ ∅) (mkByType ∅ ∅) (mkByType ∅ ∅) (mkPool [] [0%nat])) rpc_queue_make
        (e_stats (x_env ex_ctx))) (x_clock ex_ctx) 0).

Lemma both_return {T} (Q : T -> Prop) (g : Z -> T -> T) (o o' : outcome T unit) :
  match o with Ret a s' => o' = Ret a s' | Exc e s' => exists k, o' = Exc e (g k s') | Stop f => o' = Stop f end ->
  match o with Ret _ s' => Q s' | _ => False end -> exists s', o = Ret tt s' /\ o' = Ret tt s' /\ Q s'.
Proof. destruct o as [[] s'|e s'|]; [|done|done]. intros H HQ. by exists s'. Qed.

Lemma request_read_in_pieces_witness : exists s',
  http1_read ex_frontend SSE42 (ex_piece ex_text) ex_start = Ret tt s' /\
  forM ex_pieces (http1_read ex_frontend SSE42) ex_start = Ret tt s' /\ last_id (h1 (cs_conn s')) = 1.
Proof.
  assert (match phr_parse_request SSE42 HTTP1Connection_MAX_HEADERS 0 (content (ex_piece ex_text)) with
    | Got (n, _) _ => n = filled (ex_piece ex_text) | _ => False end) as Hq by (vm_compute; reflexivity).
  destruct (phr_parse_request _ _ _ _) as [[n q] r|z|] eqn:Eq; [|done|done]. subst n.
  assert (Forall piece [ex_piece ex_text] /\ Forall piece ex_pieces) as [Hb Hbs].
  { split; (refine (bool_decide_unpack (Forall (fun b => 0 < filled b <= Z.of_nat (length (data b)) /\
      Forall (fun c => 0 <= c <= 255) (data b)) _) _); vm_compute; exact I). }
  assert (content (ex_piece ex_text) = concat (content <$> ex_pieces)) as Ec by (vm_compute; reflexivity).
  assert (filled (ex_piece ex_text) <= HTTP1Connection_BUF_SIZE) as Hfit by (vm_compute; discriminate).
  pose proof (request_read_in_pieces ex_frontend SSE42 (ex_piece ex_text) ex_pieces ex_start q r
    (Forall_inv Hb) Hbs Ec Hfit eq_refl eq_refl Eq) as H.
  assert (match http1_read ex_frontend SSE42 (ex_piece ex_text) ex_start with
    | Ret _ s' => last_id (h1 (cs_conn s')) = 1 | _ => False end) as Hid by (vm_compute; reflexivity).
  exact (both_return (fun s' => last_id (h1 (cs_conn s')) = 1) forget
    (http1_read ex_frontend SSE42 (ex_piece ex_text) ex_start) (forM ex_pieces (http1_read ex_frontend SSE42) ex_start) H Hid).
Defined.
