(* ===== verification/Http1Response.v ===== *)
(** * HTTP/1.1 responses that arrive in pieces

    A response is read in two parts: its header as soon as it is complete,
    its body when all of it has come. What the header is read into does not
    depend on what lies behind it, so a response read piece by piece is
    handled as if it had been read at once. *)

From Stdlib Require Import ZArith Lia Ascii.
From stdpp Require Import base gmap strings list fin_maps.
From S2P Require Import Prelude Fp Config Buffers PicoHttp PicoHttpProps PicoHttpSplit RpcMessage RpcMessageProps RpcMapper Queues LocalMap Stats Ingress Connection Moves Http1 Http1Inv Http1Split.

Open Scope Z_scope.

(** ** Memory behind a token

    What reads a token reads the same when more memory follows. *)

Lemma mem_eq_more mem x lit : (length lit <= length mem)%nat -> mem_eq (mem ++ x) lit = mem_eq mem lit.
Proof.
  revert mem. induction lit as [|c lit IH]; intros mem Hl; [done|]. destruct mem as [|b mem]; [cbn in Hl; lia|].
  cbn. destruct (b =? c); [|done]. apply IH. cbn in Hl. lia.
Qed.
Lemma strncasecmp_more mem x lit : (String.length lit <= length mem)%nat ->
  strncasecmp_eq (mem ++ x) lit = strncasecmp_eq mem lit.
Proof.
  intros Hl. unfold strncasecmp_eq. rewrite fmap_app. apply mem_eq_more.
  by rewrite !length_fmap, length_bytes_of_string.
Qed.
Lemma slice_more (mem x : list Z) i n : (i + n <= length mem)%nat -> slice i n (mem ++ x) = slice i n mem.
Proof.
  intros Hl. unfold slice. rewrite !decide_True by (rewrite ?length_app; lia).
  rewrite drop_app_le by lia. f_equal. apply take_app_le. rewrite length_drop. lia.
Qed.
Lemma hf_set_more name x nl value y vl h : readable name nl -> readable value vl ->
  hf_set (name ++ x) nl (value ++ y) vl h = hf_set name nl value vl h.
Proof. intros Hn Hv. unfold hf_set, readable in *. by rewrite !slice_more by lia. Qed.

(** The name of a header does not start with a colon. *)
Definition plain_name (name : list Z) : Prop := exists c l, name = c :: l /\ c <> 58.
Lemma add_header_more ing name x nl value y vl r cnt : plain_name name \/ (name = [] /\ x = []) ->
  readable name nl -> readable value vl ->
  add_header_field ing (name ++ x) nl (value ++ y) vl false false r cnt = add_header_field ing name nl value vl false false r cnt.
Proof.
  intros Hp Hn Hv. unfold add_header_field, http_add_header_field, grpc_add_header_field, push_res_header, push_header.
  assert (forall h, hf_set (name ++ x) nl (value ++ y) vl h = hf_set name nl value vl h) as E by (intros; by apply hf_set_more).
  assert (strcmp_eq (name ++ x) ":path" = strcmp_eq name ":path" /\ strcmp_eq name ":path" <> Ok true) as [-> Hne].
  { destruct Hp as [(c & l & -> & Hc)|[-> ->]]; [|done]. unfold strcmp_eq.
    change (bytes_of_string ":path" ++ [0]) with [58; 112; 97; 116; 104; 0]. cbn [mem_eq app].
    by rewrite (proj2 (Z.eqb_neq c 58)) by done. }
  destruct (http r); cbn [fatal_if mbind res_bind].
  - destruct (fatal_if _); [|done]. cbn [mbind res_bind]. destruct (zat _ _); [|done]. cbn [mbind res_bind]. by rewrite E.
  - destruct (strcmp_eq name ":path") as [[]|]; [done| |done]. cbn [mbind res_bind].
    destruct (fatal_if _); [|done]. cbn [mbind res_bind]. destruct (zat _ _); [|done]. cbn [mbind res_bind]. by rewrite E.
Qed.

(** ** Computations that are the same *)

Section Same.
Context {S : Type}.

Lemma same_bind {A B} (m m' : M S A) (f g : A -> M S B) : (forall s, m s = m' s) -> (forall a s, f a s = g a s) ->
  forall s, (m ≫= f) s = (m' ≫= g) s.
Proof. intros Hm Hf s. unfold mbind, M_bind. rewrite Hm. by destruct (m' s). Qed.
Lemma same_forM {A B} (R : A -> B -> Prop) l l' (f : A -> M S unit) (g : B -> M S unit) : Forall2 R l l' ->
  (forall x y s, R x y -> f x s = g y s) -> forall s, forM l f s = forM l' g s.
Proof.
  intros Hl Hf. induction Hl as [|x y l l' Hxy _ IH]; intros s; [done|]. cbn [forM].
  apply same_bind; [|by intros []]. intros. by apply Hf.
Qed.
End Same.
Lemma on_env_same {P A} (f g : Env -> res (A * Env)) (s : CState P) : (forall e, f e = g e) -> on_env f s = on_env g s.
Proof. intros H. unfold on_env. apply same_bind; [done|]. intros x s1. by rewrite H. Qed.

(** [ends P m Q]: started in [P], [m] returns in [Q] if it returns. *)
Definition ends {S A} (P : S -> Prop) (m : M S A) (Q : A -> S -> Prop) : Prop :=
  forall s, P s -> match m s with Ret a s' => Q a s' | _ => True end.
Section Ends.
Context {S : Type}.
Lemma ends_bind {A B} P (R : A -> S -> Prop) (Q : B -> S -> Prop) (m : M S A) f :
  ends P m R -> (forall a, ends (R a) (f a) Q) -> ends P (m ≫= f) Q.
Proof.
  intros Hm Hf s Hs. unfold mbind, M_bind. specialize (Hm s Hs). destruct (m s) as [a s'| |]; [by apply Hf|done..].
Qed.
Lemma ends_keeps {A} I (Q : A -> Prop) (m : M S A) : triple I m Q -> ends I m (fun a s => I s /\ Q a).
Proof. intros H s Hs. specialize (H s Hs). by destruct (m s). Qed.
Lemma ends_step {A B} I (Q0 : A -> Prop) (Q : B -> S -> Prop) (m : M S A) f :
  triple I m Q0 -> (forall a, Q0 a -> ends I (f a) Q) -> ends I (m ≫= f) Q.
Proof. intros Hm Hf. eapply ends_bind; [by apply ends_keeps|]. intros a s [Hs Ha]. by apply Hf. Qed.
Lemma ends_pure {A} (X : Prop) (m : M S A) : ends (fun _ => X) m (fun _ _ => X).
Proof. intros s HX. by destruct (m s). Qed.
Lemma ends_impl {A} P (Q Q' : A -> S -> Prop) (m : M S A) : ends P m Q -> (forall a s, Q a s -> Q' a s) -> ends P m Q'.
Proof. intros H HQ s Hs. specialize (H s Hs). destruct (m s); auto. Qed.
End Ends.

(** ** The header of a response *)

Section Response.
Context {S : Type} (c : Config) (m : simd).
Implicit Types (h : HTTP1State) (s : CState (Conn1 S)).

(** The memory of a header up to the end of the text it was parsed in. *)
Definition own_name (hd : phr_header) : list Z := match ph_name hd with Some t => tk_mem t | None => [] end.
Definition own_value (hd : phr_header) : list Z := tk_mem (ph_value hd).

(** What [read_response_header] does with a header it has parsed, on that
    memory alone. *)
Definition add_own_header (i : nat) (hd : phr_header) : M (CState (Conn1 S)) unit :=
  rpc_add_header (is_ingress c) i (own_name hd) (name_length (ph_name hd)) (own_value hd) (tk_len (ph_value hd)) false false.
Definition own_content_length (hd : phr_header) : M (CState (Conn1 S)) unit :=
  if name_length (ph_name hd) =? 14 then
    b ← lift (strncasecmp_eq (own_name hd) "Content-Length");
    if (b : bool) then
      match from_chars_int (tk_bytes (ph_value hd)) with
      | Some v => update_h1 (set_content_length v)
      | None => h ← get_h1; guard_fatal (negb (content_length h =? -1))
      end
    else mret tt
  else mret tt.
Definition own_encoding (hd : phr_header) : M (CState (Conn1 S)) unit :=
  if (name_length (ph_name hd) =? 17) && (7 <=? tk_len (ph_value hd)) then
    b ← lift (strncasecmp_eq (own_name hd) "Transfer-Encoding");
    if (b : bool) then
      b ← lift (strncasecmp_eq (own_value hd) "chunked");
      guard_fatal b
    else mret tt
  else mret tt.
Definition own_body_header (hd : phr_header) : M (CState (Conn1 S)) unit :=
  _ ← own_content_length hd; own_encoding hd.

Definition accept_header (b : Connection S) (id n : Z) (r : Response) : M (CState (Conn1 S)) bool :=
  _ ← update_h1 (set_hdr_size n);
  _ ← (if header_body_allowed (rs_status r) then forM (rs_headers r) own_body_header else mret tt);
  _ ← update_h1 (set_hdr_complete true);
  i ← conn_get_us_rpc (c_type b) id (c_fd b);
  _ ← cast_rpc HTTP1 i;
  _ ← forM (rs_headers r) (add_own_header i);
  _ ← update_rpc i (fun rpc =>
        Ok (set_minor (rs_minor r) (set_msg (string_of_bytes (tk_bytes (rs_msg r)))
             (set_status (rs_status r) rpc))));
  mret true.

(** A header, and the same header with more text behind it. *)
Record lengthened (hd hd' : phr_header) : Prop := {
  ln_name : exists x, (forall h, name_mem h (ph_name hd') = own_name hd ++ x h) /\
    (plain_name (own_name hd) \/ (own_name hd = [] /\ forall h, x h = []));
  ln_name_length : name_length (ph_name hd') = name_length (ph_name hd) /\ readable (own_name hd) (name_length (ph_name hd));
  ln_value : exists x, forall h, mem_of h (ph_value hd') = own_value hd ++ x h;
  ln_value_length : tk_len (ph_value hd') = tk_len (ph_value hd) /\ readable (own_value hd) (tk_len (ph_value hd));
  ln_bytes : tk_bytes (ph_value hd') = tk_bytes (ph_value hd)
}.

Lemma token_colon : token_char 58 = false.
Proof. reflexivity. Qed.
Lemma header_lengthened l e hd hd' : header_ok l hd -> same_header e hd hd' -> lengthened hd hd'.
Proof.
  intros [Hn [_ Hv]] [Hname Hval]. pose proof (same_token_bytes _ _ _ Hval) as Hb. destruct Hval as (Em & El & Hl). split.
  - unfold own_name, name_mem, mem_of, name_ok in *. destruct Hname as [t t' (Et & Elt & Hlt)|].
    + exists (fun h => e ++ behind h). split; [intros h; by rewrite Et, <- app_assoc|left].
      destruct Hn as (_ & Hpos & Hc). unfold tk_bytes in Hc. destruct (tk_mem t) as [|ch mem]; [cbn in Hlt; lia|].
      exists ch, mem. split; [done|]. intros ->. destruct (Z.to_nat (tk_len t)) eqn:E; [lia|]. by apply Forall_inv in Hc.
    + exists (fun _ => []). split; [done|by right].
  - unfold own_name, name_length, name_ok, readable in *. destruct Hname as [t t' (Et & Elt & Hlt)|]; [|cbn; lia].
    split; [done|]. destruct Hn as (_ & Hpos & _). lia.
  - exists (fun h => e ++ behind h). intros h. unfold mem_of, own_value. by rewrite Em, <- app_assoc.
  - split; [done|]. unfold readable, own_value. lia.
  - done.
Qed.
Lemma headers_lengthened l e hs hs' : Forall (header_ok l) hs -> Forall2 (same_header e) hs hs' -> Forall2 lengthened hs hs'.
Proof.
  intros Hok H. induction H as [|hd hd' hs hs' Hd H IH]; [constructor|]. apply Forall_cons in Hok as [??].
  constructor; [by eapply header_lengthened|auto].
Qed.

Lemma add_headers_own i hs hs' s : Forall2 lengthened hs hs' ->
  add_headers c i hs' false s = forM hs (add_own_header i) s.
Proof.
  intros H. unfold add_headers. rewrite (run_bind _ _ _ (h1 (cs_conn s)) s) by done. generalize (h1 (cs_conn s)) as h. intros h.
  symmetry. revert s. eapply same_forM; [exact H|]. intros hd hd' s [[x [Ex Hx]] [En Hn] [y Ey] [Ev Hv] _].
  unfold add_own_header, rpc_add_header. apply on_env_same. intros e. destruct (deref i e) as [r|]; [|done]. cbn [mbind res_bind].
  rewrite Ex, Ey, En, Ev, add_header_more; [done| |done..]. destruct Hx as [?|[? Hx]]; [by left|right; by rewrite Hx].
Qed.

Lemma body_headers_own hs hs' s : Forall2 lengthened hs hs' ->
  response_body_headers hs' s = forM hs own_body_header s.
Proof.
  intros H. unfold response_body_headers. rewrite (run_bind _ _ _ (h1 (cs_conn s)) s) by done.
  generalize (h1 (cs_conn s)) as h. intros h. symmetry. revert s. eapply same_forM; [exact H|].
  intros hd hd' s [[x [Ex _]] [En Hn] [y Ey] [Ev Hv] Eb]. unfold readable in *. revert s. apply same_bind.
  - intros s. unfold own_content_length. rewrite En, Ex, Eb. destruct (Z.eqb_spec (name_length (ph_name hd)) 14); [|done].
    by rewrite strncasecmp_more by (cbn; lia).
  - intros _ s. unfold own_encoding. rewrite En, Ex, Ey, Ev.
    destruct (Z.eqb_spec (name_length (ph_name hd)) 17); [|done]. cbn [andb].
    destruct (Z.leb_spec 7 (tk_len (ph_value hd))); [|done]. by rewrite !strncasecmp_more by (cbn; lia).
Qed.

Lemma read_header_accepts s n q l e q0 mx rest : response_ok mx l q0 -> same_response e q0 q ->
  phr_parse_response m HTTP1Connection_MAX_HEADERS (prev_buf_len (h1 (cs_conn s))) (text (h1 (cs_conn s))) = Got (n, q) rest ->
  read_response_header c m s = accept_header (base (cs_conn s)) (last_id (h1 (cs_conn s))) n q0 s.
Proof.
  intros (_ & _ & [_ Hmsg] & Hhs & _) (Emin & Est & [Em El] & Hsame) E. pose proof (headers_lengthened _ _ _ _ Hhs Hsame) as Hl.
  unfold read_response_header. rewrite (run_bind _ _ _ (h1 (cs_conn s)) s) by done.
  rewrite (run_bind _ _ _ (base (cs_conn s)) s) by done. rewrite E.
  assert (tk_bytes (rs_msg q) = tk_bytes (rs_msg q0)) as Eb.
  { unfold tk_bytes. rewrite Em, El. apply take_app_le. lia. }
  rewrite Emin, Est, Eb. generalize (base (cs_conn s)) (last_id (h1 (cs_conn s))). intros b id. unfold accept_header. revert s E.
  intros s _. revert s. apply same_bind; [done|]. intros _. apply same_bind.
  { intros s. destruct (header_body_allowed _); [|done]. by apply body_headers_own. }
  intros _. apply same_bind; [done|]. intros _. apply same_bind; [done|]. intros i. apply same_bind; [done|]. intros _.
  apply same_bind; [|done]. intros s. by apply add_headers_own.
Qed.

Lemma blind_accept_header l k b id n q : blind (on_h1 (S := S) (holds_text l k)) (accept_header b id n q).
Proof.
  unfold accept_header, add_own_header, own_body_header, own_content_length, own_encoding. blind_auto.
Qed.

Definition with_header (n : Z) (d : ConnectionDirection) (complete : bool) (x : Conn1 S) : Prop :=
  hdr_size (h1 x) = n /\ c_direction (base x) = d /\ (complete = true -> hdr_complete (h1 x) = true).
Abbreviation W n d p := (fun s : CState (Conn1 S) => with_header n d p (cs_conn s)).
Lemma keeps_with_header n d p {A} (op : M (CState (Conn1 S)) A) : moves (on_P eq) op -> keeps (W n d p) op.
Proof. apply triple_shared. Qed.
Lemma with_header_get_h1 n d p : triple (W n d p) get_h1 (fun h => hdr_size h = n).
Proof. intros s Hs. split; [done|]. apply Hs. Qed.
Hint Resolve with_header_get_h1 : triple.
Hint Extern 5 (triple _ _ _) => (apply keeps_with_header; solve [eauto with moves typeclass_instances]) : triple.
Lemma accept_header_ends b id n q d :
  ends (fun s => c_direction (base (cs_conn s)) = d) (accept_header b id n q) (fun a s => W n d true s /\ a = true).
Proof.
  unfold accept_header. eapply (ends_bind _ (fun _ => W n d false)); [by intros s|intros _].
  apply (ends_step _ (fun _ => True)).
  { unfold own_body_header, own_content_length, own_encoding. triple_auto. by intros s0. }
  intros _ _. eapply (ends_bind _ (fun _ => W n d true)); [by intros s (? & ? & ?)|intros _].
  apply ends_keeps. unfold add_own_header. triple_auto.
Qed.

(** ** The body of a response *)

(** What [finish_response] does when the body is complete. *)
Definition complete_response (b : Connection S) (id : Z) : M (CState (Conn1 S)) unit :=
  _ ← take_body;
  _ ← queue_enqueue (c_type b) (c_direction b) (c_fd b) id;
  h ← get_h1;
  total ← lift (checked_i32 (hdr_size h + content_length h));
  _ ← guard_fatal (total <? buf_len h);
  _ ← guard_fatal (idle h);
  _ ← update_h1 (set_idle true);
  reset_read.
Lemma finish_response_run s : let h := h1 (cs_conn s) in
  finish_response s = if buf_len h - hdr_size h <? content_length h then Ret tt s
    else complete_response (base (cs_conn s)) (last_id h) s.
Proof.
  intros h. unfold finish_response. rewrite (run_bind _ _ _ h s) by done. rewrite (run_bind _ _ _ (base (cs_conn s)) s) by done.
  by destruct (_ <? _).
Qed.

Lemma complete_settles k b id : settles (forget k) (complete_response b id).
Proof. unfold forget, complete_response, take_body. repeat blind_step. by apply settles_modify. Qed.

(** It returns only if the text ends with the body. *)
Definition measured (n z len : Z) (x : Conn1 S) : Prop :=
  hdr_size (h1 x) = n /\ content_length (h1 x) <= z /\ buf_len (h1 x) = len.
Lemma keeps_measured n z len {A} (op : M (CState (Conn1 S)) A) : moves (on_P eq) op ->
  keeps (fun s => measured n z len (cs_conn s)) op.
Proof. apply triple_shared. Qed.
Lemma get_h1_measured n z len : triple (fun s => measured n z len (cs_conn s)) get_h1 (fun h =>
  hdr_size h = n /\ content_length h <= z /\ buf_len h = len).
Proof. intros s Hs. by split. Qed.
Lemma get_base_measured n z len : keeps (fun s => measured n z len (cs_conn s)) get_base.
Proof. by intros s Hs. Qed.
Hint Resolve get_h1_measured get_base_measured : triple.
Hint Extern 5 (triple _ _ _) => (apply keeps_measured; solve [eauto with moves typeclass_instances]) : triple.
Lemma complete_response_ends b id n z len : 0 <= z ->
  ends (fun s => measured n z len (cs_conn s)) (complete_response b id) (fun _ _ => len <= n + z).
Proof.
  intros Hz. unfold complete_response. apply (ends_step _ (fun _ => True)).
  { unfold take_body. triple_auto. intros s (? & _ & ?). split; [|done]. by split. }
  intros _ _. apply (ends_step _ (fun _ => True)); [triple_auto|]. intros _ _.
  eapply ends_step; [apply get_h1_measured|]. intros h (Hh & Hc & Hl).
  eapply ends_step; [apply triple_lift|]. intros total Et. apply checked_i32_Ok in Et as [-> _].
  eapply ends_step; [apply triple_guard|]. intros ? Hle. apply Z.ltb_ge in Hle.
  intros s _. apply (ends_pure (len <= n + z)). lia.
Qed.

(** ** Piece by piece *)

Lemma sized_id s z : hdr_size (h1 (cs_conn s)) = z -> sized z s = s.
Proof. destruct s as [[x []] ctx]. cbn. by intros <-. Qed.

Lemma read_response_waits z l k s : hdr_complete (h1 (cs_conn s)) = false ->
  phr_parse_response m HTTP1Connection_MAX_HEADERS k l = Fail (-2) ->
  read_response c m (sized z (has_read l k s)) = Ret tt (sized (-2) (has_read l k s)).
Proof.
  intros Hc E. unfold read_response.
  rewrite (run_bind _ _ _ (h1 (cs_conn (sized z (has_read l k s)))) (sized z (has_read l k s))) by done.
  cbn [sized has_read on_h1 h1 cs_conn set_hdr_size holds_text set_buf hdr_complete]. rewrite Hc.
  rewrite (run_bind _ _ _ false (sized (-2) (has_read l k s))); [done|].
  unfold read_response_header.
  rewrite (run_bind _ _ _ (h1 (cs_conn (sized z (has_read l k s)))) (sized z (has_read l k s))) by done.
  rewrite (run_bind _ _ _ (base (cs_conn s)) (sized z (has_read l k s))) by done.
  rewrite text_read. cbn [sized has_read on_h1 h1 cs_conn set_hdr_size holds_text set_buf prev_buf_len]. by rewrite E.
Qed.

Lemma read_response_refuses z l k s : hdr_complete (h1 (cs_conn s)) = false ->
  match phr_parse_response m HTTP1Connection_MAX_HEADERS k l with Got _ _ => False | Fail r => r <> -2 | Oob => True end ->
  exists f, read_response c m (sized z (has_read l k s)) = Stop f.
Proof.
  intros Hc E. unfold read_response.
  rewrite (run_bind _ _ _ (h1 (cs_conn (sized z (has_read l k s)))) (sized z (has_read l k s))) by done.
  cbn [sized has_read on_h1 h1 cs_conn set_hdr_size holds_text set_buf hdr_complete]. rewrite Hc.
  unfold read_response_header, mbind at 1, M_bind.
  rewrite (run_bind _ _ _ (h1 (cs_conn (sized z (has_read l k s)))) (sized z (has_read l k s))) by done.
  rewrite (run_bind _ _ _ (base (cs_conn s)) (sized z (has_read l k s))) by done.
  rewrite text_read. cbn [sized has_read on_h1 h1 cs_conn set_hdr_size holds_text set_buf prev_buf_len].
  destruct (phr_parse_response _ _ _ _) as [|y|]; [done| |by eexists].
  rewrite (run_bind _ _ _ tt (sized y (has_read l k s))) by done. rewrite (proj2 (Z.eqb_neq _ _)) by done. by eexists.
Qed.

Lemma read_response_finds z l k s n q q0 rest pre e : hdr_complete (h1 (cs_conn s)) = false ->
  phr_parse_response m HTTP1Connection_MAX_HEADERS k l = Got (n, q) rest ->
  response_ok HTTP1Connection_MAX_HEADERS pre q0 -> same_response e q0 q ->
  read_response c m (sized z (has_read l k s)) =
    match accept_header (base (cs_conn s)) (last_id (h1 (cs_conn s))) n q0 s with
    | Ret _ s1 => finish_response (has_read l k s1)
    | Exc x s1 => Exc x (has_read l k s1)
    | Stop x => Stop x
    end.
Proof.
  intros Hc E Hok Hsame. unfold read_response.
  rewrite (run_bind _ _ _ (h1 (cs_conn (sized z (has_read l k s)))) (sized z (has_read l k s))) by done.
  cbn [sized has_read on_h1 h1 cs_conn set_hdr_size holds_text set_buf hdr_complete]. rewrite Hc.
  pose proof (blind_accept_header l k (base (cs_conn s)) (last_id (h1 (cs_conn s))) n q0 s) as Hb.
  assert (read_response_header c m (sized z (has_read l k s)) =
    accept_header (base (cs_conn s)) (last_id (h1 (cs_conn s))) n q0 (has_read l k s)) as Hr.
  { rewrite (read_header_accepts (sized z (has_read l k s)) n q pre e q0 _ rest Hok Hsame); [done|].
    rewrite text_read. exact E. }
  unfold mbind at 1, M_bind. unfold sized, has_read in Hr, Hb |- *. rewrite Hr, Hb.
  pose proof (accept_header_ends (base (cs_conn s)) (last_id (h1 (cs_conn s))) n q0 (c_direction (base (cs_conn s))) s eq_refl) as He.
  destruct (accept_header _ _ _ _ s) as [a s1|x s1|x]; [|done|done]. by destruct He as [_ ->].
Qed.

(** A connection in state [s] to which the response [whole] comes, with a
    header of [n] bytes, accepted into [s1]. *)
Section Arrival.
Context (s s1 : CState (Conn1 S)) (whole : list Z) (n : Z) (q0 : Response).
Context (Hup : c_direction (base (cs_conn s)) = UPSTREAM) (Hnew : hdr_complete (h1 (cs_conn s)) = false).
Context (Hsize : Z.of_nat (length whole) <= HTTP1Connection_BUF_SIZE).
Context (Hok : response_ok HTTP1Connection_MAX_HEADERS (take (Z.to_nat n) whole) q0).
Context (Hparse : forall j last_len, 0 <= last_len ->
  (last_len <= Z.of_nat j < n ->
    phr_parse_response m HTTP1Connection_MAX_HEADERS last_len (take j whole) = Fail (-2)) /\
  (last_len <= n <= Z.of_nat j -> exists q r e,
    phr_parse_response m HTTP1Connection_MAX_HEADERS last_len (take j whole) = Got (n, q) r /\ same_response e q0 q)).
Context (Hacc : accept_header (base (cs_conn s)) (last_id (h1 (cs_conn s))) n q0 s = Ret true s1).
Context (Hshort : forall len, n <= len < Z.of_nat (length whole) -> len - n < content_length (h1 (cs_conn s1))).

(** The state when [l] has come. *)
Definition arriving (l : list Z) (k : Z) (x : CState (Conn1 S)) : Prop :=
  (Z.of_nat (length l) < n /\ exists z, x = sized z (has_read l k s)) \/
  (n <= Z.of_nat (length l) /\ x = has_read l k s1).

Lemma accepted : with_header n UPSTREAM true (cs_conn s1).
Proof.
  pose proof (accept_header_ends (base (cs_conn s)) (last_id (h1 (cs_conn s))) n q0 UPSTREAM s Hup) as H.
  rewrite Hacc in H. by destruct H.
Qed.

Lemma arriving_read l k x b : arriving l k x -> piece b -> l ++ content b `prefix_of` whole ->
  http1_read c m b x = if Z.of_nat (length (l ++ content b)) <? n then Ret tt (sized (-2) (has_read (l ++ content b) (Z.of_nat (length l)) s))
    else finish_response (has_read (l ++ content b) (Z.of_nat (length l)) s1).
Proof.
  intros Hx Hb Hpre. pose proof (length_content b Hb) as Hlen. pose proof (prefix_length _ _ Hpre) as Hle.
  assert (take (length (l ++ content b)) whole = l ++ content b) as Et by (destruct Hpre as [e ->]; apply take_app_length).
  rewrite length_app in Hle. destruct Hx as [[Hl [z ->]]|[Hl ->]].
  - rewrite http1_read_step by (done || lia). rewrite Hup.
    destruct (Hparse (length (l ++ content b)) (Z.of_nat (length l)) ltac:(lia)) as [Hw Hf]. rewrite Et in Hw, Hf.
    destruct (Z.ltb_spec (Z.of_nat (length (l ++ content b))) n) as [Hlt|Hge].
    + apply read_response_waits; [done|]. apply Hw. rewrite length_app in *. lia.
    + destruct Hf as (q & r & e & E & Hsame); [lia|].
      rewrite (read_response_finds z _ _ s n q q0 r _ e Hnew E Hok Hsame). by rewrite Hacc.
  - destruct accepted as (Hn & Hd & Hc). rewrite (proj2 (Z.ltb_ge _ _)) by (rewrite length_app; lia).
    rewrite <- (sized_id (has_read l k s1) n) by done. rewrite http1_read_step by (done || lia). rewrite Hd, sized_id by done.
    unfold read_response. set (x := has_read (l ++ content b) (Z.of_nat (length l)) s1).
    rewrite (run_bind _ _ _ (h1 (cs_conn x)) x) by done. replace (hdr_complete (h1 (cs_conn x))) with true; [done|].
    symmetry. by apply Hc.
Qed.

Lemma finish_waits l k : n <= Z.of_nat (length l) < Z.of_nat (length whole) ->
  finish_response (has_read l k s1) = Ret tt (has_read l k s1).
Proof.
  intros Hl. rewrite finish_response_run. destruct accepted as (Hn & _ & _).
  cbn [has_read on_h1 h1 cs_conn holds_text set_buf buf_len hdr_size content_length]. rewrite Hn, (proj2 (Z.ltb_lt _ _)) by auto. done.
Qed.

Lemma arriving_pieces bs l k x : arriving l k x -> Forall piece bs -> bs <> [] -> whole = l ++ concat (content <$> bs) ->
  n <= Z.of_nat (length whole) ->
  exists k', forM bs (http1_read c m) x = finish_response (has_read whole k' s1).
Proof.
  revert l k x. induction bs as [|b bs IH]; intros l k x Hx Hbs Hne Hw Hn; [done|].
  apply Forall_cons in Hbs as [Hb Hbs]. pose proof (length_content b Hb) as Hlen.
  assert (whole = (l ++ content b) ++ concat (content <$> bs)) as Ew by (rewrite Hw; cbn; by rewrite app_assoc).
  assert (l ++ content b `prefix_of` whole) as Hpre by (by eexists).
  cbn [forM]. pose proof (arriving_read l k x b Hx Hb Hpre) as Hread. destruct bs as [|b2 bs].
  - exists (Z.of_nat (length l)). cbn [forM]. rewrite bind_mret_unit, Hread. cbn in Ew. rewrite app_nil_r in Ew.
    rewrite <- Ew. by rewrite (proj2 (Z.ltb_ge _ _)) by lia.
  - assert (Z.of_nat (length (l ++ content b)) < Z.of_nat (length whole)) as Hmore.
    { rewrite Ew, (length_app (l ++ content b)). apply Forall_cons in Hbs as [H2 _].
      cbn [fmap list_fmap concat]. rewrite (length_app (content b2)). pose proof (length_content b2 H2). destruct H2. lia. }
    assert (exists x', http1_read c m b x = Ret tt x' /\ arriving (l ++ content b) (Z.of_nat (length l)) x') as (x' & Ex & Hx').
    { rewrite Hread. destruct (Z.ltb_spec (Z.of_nat (length (l ++ content b))) n).
      - eexists. split; [done|]. left. eauto.
      - rewrite finish_waits by lia. eexists. split; [done|]. by right. }
    rewrite (run_bind _ _ _ tt x' Ex). by apply (IH (l ++ content b) (Z.of_nat (length l))).
Qed.
End Arrival.

(** C15: how the bytes of a response are spread over reads does not matter:
    when a connection that has read nothing of a response hands it over on
    reading it at once, it does so on reading it in any number of non-empty
    pieces, wherever they are cut, in the header or in the body; and it ends
    in the same state. *)
Theorem response_read_in_pieces b bs s s' : piece b -> Forall piece bs ->
  content b = concat (content <$> bs) -> filled b <= HTTP1Connection_BUF_SIZE ->
  c_direction (base (cs_conn s)) = UPSTREAM -> buf_len (h1 (cs_conn s)) = 0 -> hdr_complete (h1 (cs_conn s)) = false ->
  http1_read c m b s = Ret tt s' -> buf_len (h1 (cs_conn s')) = 0 ->
  forM bs (http1_read c m) s = Ret tt s'.
Proof.
  intros Hb Hbs Ec Hfit Hup Hfresh Hnew Hread Hdone. pose proof (length_content b Hb) as Hlen. pose proof Hb as [Hf _].
  pose proof (fresh_has_read s Hfresh) as Es. set (z := hdr_size _) in Es. set (k := prev_buf_len _) in Es.
  rewrite Es, http1_read_step, Hup in Hread by (done || (cbn; lia)). cbn [app length] in Hread. change (Z.of_nat 0) with 0 in Hread.
  destruct (phr_parse_response m HTTP1Connection_MAX_HEADERS 0 (content b)) as [[n q] r|y|] eqn:E.
  - destruct (response_prefix m HTTP1Connection_MAX_HEADERS (content b) n q r) as (q0 & Hn & Hok & Hparse);
      [by apply content_bytes|unfold HTTP1Connection_BUF_SIZE in *; lia|done|].
    destruct (Hparse (length (content b)) 0 ltac:(lia)) as [_ Hfound]. destruct Hfound as (q1 & r1 & e & E1 & Hsame); [lia|].
    rewrite firstn_all in E1. rewrite (read_response_finds z _ _ s n q1 q0 r1 _ e Hnew E1 Hok Hsame) in Hread.
    destruct (accept_header _ _ _ _ s) as [a s1|x s1|x] eqn:Eacc; [|done|done].
    pose proof (accept_header_ends (base (cs_conn s)) (last_id (h1 (cs_conn s))) n q0 UPSTREAM s Hup) as Hend.
    rewrite Eacc in Hend. destruct Hend as [(Hn1 & _) ->]. set (x := has_read (content b) 0 s1) in Hread.
    rewrite finish_response_run in Hread. destruct (_ <? _) eqn:Ecl in Hread.
    { injection Hread as <-. change (Z.of_nat (length (content b)) = 0) in Hdone. lia. }
    pose proof (complete_response_ends (base (cs_conn x)) (last_id (h1 (cs_conn x))) n
      (Z.max 0 (content_length (h1 (cs_conn s1)))) (Z.of_nat (length (content b))) ltac:(lia) x) as Htotal.
    rewrite Hread in Htotal. specialize (Htotal ltac:(split; [done|]; split; [cbn; lia|done])).
    assert (0 < n) as Hpos.
    { destruct (decide (n = 0)) as [->|]; [|lia]. destruct (Hparse 0%nat 0 ltac:(lia)) as [_ Hnil].
      destruct Hnil as (? & ? & ? & Hnil & _); [lia|]. by cbn in Hnil. }
    destruct (arriving_pieces s s1 (content b) n q0 Hup Hnew ltac:(lia) Hok Hparse Eacc ltac:(lia) bs [] k s)
      as [k' Hk']; [left; split; [done|by exists z]|done|..].
    { intros ->. cbn in Ec. rewrite Ec in Hlen. cbn in Hlen. lia. }
    { done. } { lia. }
    rewrite Hk', finish_response_run. pose proof (complete_settles k' (base (cs_conn x)) (last_id (h1 (cs_conn x))) x) as Hs.
    rewrite Hread in Hs. change (forget k' x) with (has_read (content b) k' s1) in Hs.
    change (buf_len _ - hdr_size _ <? content_length _) with
      (buf_len (h1 (cs_conn x)) - hdr_size (h1 (cs_conn x)) <? content_length (h1 (cs_conn x))). by rewrite Ecl.
  - destruct (decide (y = -2)) as [->|Hy].
    + rewrite read_response_waits in Hread by done. injection Hread as <-.
      change (Z.of_nat (length (content b)) = 0) in Hdone. lia.
    + destruct (read_response_refuses z (content b) 0 s Hnew) as [f Hstop]; [by rewrite E|]. by rewrite Hstop in Hread.
  - destruct (read_response_refuses z (content b) 0 s Hnew) as [f Hstop]; [by rewrite E|]. by rewrite Hstop in Hread.
Qed.
End Response.

(** A response with a body of four bytes reaches the connection that waits
    for it: a cut in the status line, one in the body. *)
Definition ex_response : list Z :=
  bytes_of_string "HTTP/1.1 200 OK" ++ [13; 10] ++ bytes_of_string "Content-Length: 4" ++ [13; 10; 13; 10] ++
  bytes_of_string "body".
Definition ex_response_pieces : list Buffer :=
  [ex_piece (take 10 ex_response); ex_piece (take 30 (drop 10 ex_response)); ex_piece (drop 40 ex_response)].
Definition ex_waiting : CState (Conn1 unit) :=
  mkCState (mkConn1 (upstream_conn 7 zero_addr "" 0 INGRESS (Proto1 h1_make)) (set_idle false (set_last_id 1 h1_make)))
    (mkCtx (x_ingress ex_ctx)
      (mkEnv {[0%nat := rpc_make 0 INGRESS HTTP1]} 0
        (mkMapper (mkByType ∅ ∅) (mkByType {[7 := {[1 := 0%nat]}]} ∅) (mkByType ∅ ∅) (mkPool [] [])) rpc_queue_make
        (e_stats (x_env ex_ctx))) (x_clock ex_ctx) 0).
Definition ex_body (i : nat) (s : CState (Conn1 unit)) : option (list Z) :=
  r ← e_heap (x_env (cs_ctx s)) !! i; Some (take (Z.to_nat (offset (res_data r))) (dr_data (res_data r))).

Lemma returns_in {T} (P : T -> Prop) (o : outcome T unit) :
  match o with Ret _ s' => P s' | _ => False end -> exists s', o = Ret tt s' /\ P s'.
Proof. destruct o as [[] s'| |]; [by exists s'|done..]. Qed.

Lemma response_read_in_pieces_witness : exists s',
  forM ex_response_pieces (http1_read ex_frontend SSE42) ex_waiting = Ret tt s' /\
  ex_body 0 s' = Some (bytes_of_string "body") /\ idle (h1 (cs_conn s')) = true.
Proof.
  assert (Forall piece [ex_piece ex_response] /\ Forall piece ex_response_pieces) as [Hb Hbs].
  { split; (refine (bool_decide_unpack (Forall (fun b => 0 < filled b <= Z.of_nat (length (data b)) /\
      Forall (fun c => 0 <= c <= 255) (data b)) _) _); vm_compute; exact I). }
  destruct (returns_in (fun s' => buf_len (h1 (cs_conn s')) = 0 /\ ex_body 0 s' = Some (bytes_of_string "body") /\
    idle (h1 (cs_conn s')) = true) (http1_read ex_frontend SSE42 (ex_piece ex_response) ex_waiting)) as (s' & E & Hlen & H);
    [vm_compute; done|].
  exists s'. split; [|exact H].
  apply (response_read_in_pieces ex_frontend SSE42 (ex_piece ex_response) ex_response_pieces ex_waiting s');
    [by apply Forall_inv in Hb|exact Hbs|vm_compute; reflexivity|vm_compute; discriminate|reflexivity..|exact E|exact Hlen].
Defined.
