(* ===== verification/Http2.v ===== *)
(** * HTTP/2 connections: [HTTP2Connection] and the nghttp2 callbacks of
    [src/connection.cc]

    The callbacks fill the messages while nghttp2 parses; the read callbacks
    hand it the bodies while it serialises. *)

From Stdlib Require Import ZArith Lia Ascii.
From stdpp Require Import base gmap strings list fin_maps.
From S2P Require Import Prelude Fp Config Buffers RpcMessage RpcMapper Queues Stats Ingress Connection.

Open Scope Z_scope.

Section Http2.
Context `{Nghttp2} (c : Config).

(** The connection, with its session at hand. *)
Record Conn2 := mkConn2 { base : Connection session; sess : session }.
Abbreviation M2 := (M (CState Conn2)).

Definition get_sess : M2 session := x ← get_conn; mret (sess x).
Definition get_base : M2 (Connection session) := x ← get_conn; mret (base x).
Definition put_sess (s : session) : M2 unit := update_conn (fun x => mkConn2 (base x) s).
Definition put_status (x : ConnectionStatus) : M2 unit :=
  update_conn (fun y => mkConn2 (set_c_status x (base y)) (sess y)).

(** ** Callbacks while reading *)

Definition on_begin_headers_callback (cat : headers_category) (stream : Z) : M2 unit :=
  b ← get_base;
  match cat with
  | HCAT_REQUEST =>
      _ ← guard_fatal (negb (bool_decide (c_direction b = DOWNSTREAM)));
      conn_allocate_rpc (c_type b) stream (c_fd b) HTTP2
  | _ => mret tt
  end.

Definition on_header_callback (cat : headers_category) (stream : Z) (name : list Z) (nl : Z) (value : list Z) (vl : Z)
    : M2 unit :=
  b ← get_base;
  match cat with
  | HCAT_REQUEST =>
      _ ← guard_fatal (negb (bool_decide (c_direction b = DOWNSTREAM)));
      i ← conn_get_ds_rpc (c_type b) stream (c_fd b);
      rpc_add_header (is_ingress c) i name nl value vl true false
  | HCAT_HEADERS =>
      _ ← guard_fatal (negb (bool_decide (c_direction b = UPSTREAM)));
      i ← conn_get_us_rpc (c_type b) stream (c_fd b);
      rpc_add_header (is_ingress c) i name nl value vl false true
  | HCAT_RESPONSE =>
      _ ← guard_fatal (negb (bool_decide (c_direction b = UPSTREAM)));
      i ← conn_get_us_rpc (c_type b) stream (c_fd b);
      rpc_add_header (is_ingress c) i name nl value vl false false
  | HCAT_PUSH_RESPONSE => mret tt
  end.

(** [add_data] of the message's class. *)
Definition add_data (i : nat) (bytes : list Z) (request : bool) : M2 unit :=
  update_rpc i (fun r => match http r with
    | HTTP1 => http_add_data bytes request r
    | HTTP2 => grpc_add_data bytes request r
    end).

Definition on_data_chunk_recv_callback (stream : Z) (bytes : list Z) : M2 unit :=
  b ← get_base;
  match c_direction b with
  | DOWNSTREAM => i ← conn_get_ds_rpc (c_type b) stream (c_fd b); add_data i bytes true
  | UPSTREAM => i ← conn_get_us_rpc (c_type b) stream (c_fd b); add_data i bytes false
  end.

(** The end of a stream: a DATA frame ends a request, a HEADERS frame (the
    trailers) ends a response. *)
Definition frame_recv_callback (type : frame_type) (end_stream : bool) (stream : Z) : M2 unit :=
  b ← get_base;
  if end_stream then
    match type with
    | FRAME_DATA =>
        _ ← queue_enqueue (c_type b) (c_direction b) (c_fd b) stream;
        i ← conn_get_ds_rpc (c_type b) stream (c_fd b);
        t ← now;
        update_rpc i (fun r => Ok (set_req_rcv_time t r))
    | FRAME_HEADERS =>
        _ ← queue_enqueue (c_type b) (c_direction b) (c_fd b) stream;
        i ← conn_get_us_rpc (c_type b) stream (c_fd b);
        _ ← cast_rpc HTTP2 i;
        t ← now;
        update_rpc i (fun r =>
          let r := set_res_rcv_time t r in
          Ok (if offset (res_data r) =? 0 then set_error true r else r))
    | _ => mret tt
    end
  else match type with
  | FRAME_SETTINGS => if bool_decide (c_status b = DOWN) then put_status UP else mret tt
  | _ => mret tt
  end.

Definition on_event (e : h2_event) : M2 unit :=
  match e with
  | BeginHeaders cat stream => on_begin_headers_callback cat stream
  | Header cat stream name nl value vl => on_header_callback cat stream name nl value vl
  | DataChunk stream bytes => on_data_chunk_recv_callback stream bytes
  | FrameRecv type end_stream stream => frame_recv_callback type end_stream stream
  | InvalidFrame => mret tt
  | ErrorCallback => fail Fatal
  end.

Definition http2_read (b : Buffer) : M2 unit :=
  s ← get_sess;
  bs ← lift (or_fault Undefined (slice 0 (Z.to_nat (filled b)) (data b)));
  let '(ret, events, s') := mem_recv s bs in
  _ ← forM events on_event;
  _ ← put_sess s';
  guard_fatal (negb (ret =? filled b)).

(** ** Callbacks while writing *)

(** The next chunk of a body: its bytes, the body behind it, and whether it
    was the last. *)
Definition read_chunk (d : DataReadStruct) (length : Z) : res (list Z * DataReadStruct * bool) :=
  let remain := u64 (offset d - read_offset d) in
  let to_copy := Z.min remain length in
  bs ← or_fault Undefined (slice (Z.to_nat (read_offset d)) (Z.to_nat to_copy) (dr_data d));
  let d' := mkDR (dr_data d) (offset d) (u64 (read_offset d + to_copy)) in
  Ok (bs, d', read_offset d' =? offset d').

(** The bytes and the flag EOF. *)
Definition data_read_callback_request (stream : Z) (src : nat) (length : Z) : M2 (list Z * bool) :=
  b ← get_base;
  r ← read_rpc src;
  if offset (req_data r) =? 0 then mret ([], true)
  else
    '(bs, d, last) ← lift (read_chunk (req_data r) length);
    _ ← update_rpc src (fun r => Ok (set_req_data d r));
    _ ← (if (last : bool) then
           i ← conn_get_us_rpc (c_type b) stream (c_fd b);
           t ← now;
           update_rpc i (fun r => Ok (set_req_for_time t r))
         else mret tt);
    mret (bs, last).

(** A header list: each field's name and value. *)
Definition field_nv (hd : HeaderField) : res nv :=
  n ← or_fault Undefined (slice 0 (Z.to_nat (name_len hd)) (hf_name hd));
  v ← or_fault Undefined (slice 0 (Z.to_nat (value_len hd)) (hf_value hd));
  Ok (n, v).
Fixpoint fields_nv (hs : list HeaderField) (i n : nat) : res (list nv) :=
  match n with
  | O => Ok []
  | S n' => hd ← at_ hs i; x ← field_nv hd; l ← fields_nv hs (S i) n'; Ok (x :: l)
  end.

(** The bytes and the flags EOF and NO_END_STREAM. The last chunk submits the
    trailers and is the end of the message. *)
Definition data_read_callback_response (others : nat -> Z) (stream : Z) (src : nat) (length : Z)
    : M2 (list Z * bool * bool) :=
  b ← get_base;
  r ← read_rpc src;
  if offset (res_data r) =? 0 then mret ([], true, false)
  else
    '(bs, d, last) ← lift (read_chunk (res_data r) length);
    _ ← update_rpc src (fun r => Ok (set_res_data d r));
    if (last : bool) then
      i ← conn_get_ds_rpc (c_type b) stream (c_fd b);
      _ ← cast_rpc HTTP2 i;
      r ← read_rpc i;
      trailers ← lift (fields_nv (res_trailers r) 0 (Z.to_nat (res_trailer_count r)));
      s ← get_sess;
      s ← lift (or_fault Fatal (submit_trailer s (ds_stream_id r) trailers));
      _ ← put_sess s;
      _ ← report_and_remove (is_ingress c) (c_type b) i (others i);
      mret (bs, true, true)
    else mret (bs, false, false).

(** [nghttp2_session_mem_send], with the read callback it may call. *)
Definition session_send (others : nat -> Z) : M2 (list Z) :=
  s ← get_sess;
  match mem_send s with
  | Sent out s' => _ ← put_sess s'; mret out
  | SendFailed => fail Fatal
  | ReadData stream src len s' =>
      _ ← put_sess s';
      '(bs, eof, no_end) ←
        (if prd_response src then data_read_callback_response others stream (prd_message src) len
         else '(bs, eof) ← data_read_callback_request stream (prd_message src) len; mret (bs, eof, false));
      s ← get_sess;
      let '(out, s') := resume s bs eof no_end in
      _ ← put_sess s';
      lift (or_fault Fatal out)
  end.

Definition http2_write (others : nat -> Z) (b : Buffer) : M2 (Buffer * Z) :=
  out ← session_send others;
  let written := Z.of_nat (length out) in
  if bsize b <? filled b + written then fail (Throw (BufferFull out))
  else
    d ← lift (store (data b) (Z.to_nat (filled b)) out);
    b ← lift (set_filled (written + filled b) (set_data d b));
    mret (b, i32 written).

(** ** Submitting *)

Definition http2_submit_settings : M2 unit :=
  s ← get_sess; s ← lift (or_fault Fatal (submit_settings s)); put_sess s.

Definition http2_submit_request (i : nat) : M2 Z :=
  _ ← cast_rpc HTTP2 i;
  r ← read_rpc i;
  nva ← lift (fields_nv (req_headers r) 0 (Z.to_nat (req_header_count r)));
  s ← get_sess;
  let '(id, s) := submit_request s nva (mkProvider i false) in
  _ ← put_sess s;
  _ ← guard_fatal (id <? 0);
  mret id.

(** The result of [nghttp2_submit_response] is not looked at. *)
Definition http2_submit_response (i : nat) : M2 unit :=
  _ ← cast_rpc HTTP2 i;
  r ← read_rpc i;
  nva ← lift (fields_nv (res_headers r) 0 (Z.to_nat (res_header_count r)));
  s ← get_sess;
  put_sess (default s (submit_response s (ds_stream_id r) nva (Some (mkProvider i true)))).

Definition http2_submit_error_response (i : nat) : M2 unit :=
  _ ← cast_rpc HTTP2 i;
  r ← read_rpc i;
  nva ← lift (fields_nv (res_headers r) 0 (Z.to_nat (res_header_count r)));
  s ← get_sess;
  s ← lift (or_fault Fatal (submit_response s (ds_stream_id r) nva None));
  put_sess s.
End Http2.
