(* ===== verification/Http2Props.v ===== *)
(** * HTTP/2 connections: theorems *)

From Stdlib Require Import ZArith Lia Ascii.
From stdpp Require Import base gmap strings list fin_maps.
From S2P Require Import Prelude Fp Config Buffers PicoHttp RpcMessage RpcMessageProps RpcMapper Queues Stats Ingress Connection Http2.

Open Scope Z_scope.

(** ** Bodies

    The library asks for a body frame by frame, each of at most [len] bytes,
    until a chunk is marked as the last; the peer appends what it receives. *)

Definition body (d : DataReadStruct) : list Z := take (Z.to_nat (offset d)) (dr_data d).
(** What is still to be sent. *)
Definition unread (d : DataReadStruct) : list Z := drop (Z.to_nat (read_offset d)) (body d).

Fixpoint send_body (fuel : nat) (len : Z) (d : DataReadStruct) : res (list (list Z) * DataReadStruct) :=
  match fuel with
  | O => Err Hang
  | S fuel' =>
      '(bs, d, last) ← read_chunk d len;
      if (last : bool) then Ok ([bs], d)
      else '(l, d) ← send_body fuel' len d; Ok (bs :: l, d)
  end.
Fixpoint receive_body (l : list (list Z)) (d : DataReadStruct) : res DataReadStruct :=
  match l with
  | [] => Ok d
  | bs :: l' => d ← append_data bs d; receive_body l' d
  end.

Record sendable (d : DataReadStruct) : Prop := {
  se_read : 0 <= read_offset d <= offset d;
  se_fits : offset d <= Z.of_nat (length (dr_data d)) < 2 ^ 63
}.

Lemma read_chunk_spec len d : sendable d -> 0 < len < 2 ^ 63 ->
  let n := Z.min (Z.of_nat (length (unread d))) len in
  read_chunk d len = Ok (take (Z.to_nat n) (unread d), mkDR (dr_data d) (offset d) (read_offset d + n),
    bool_decide (Z.of_nat (length (unread d)) <= len)).
Proof.
  intros [Hr Hf] Hl n.
  assert (Z.of_nat (length (unread d)) = offset d - read_offset d) as Hu
    by (unfold unread, body; rewrite length_drop, length_take; lia).
  assert (n = Z.min (offset d - read_offset d) len) as -> by (unfold n; by rewrite Hu).
  rewrite Hu. unfold read_chunk. rewrite (wrap_small 64 (offset d - read_offset d)) by lia.
  set (k := Z.min (offset d - read_offset d) len). assert (0 <= k <= offset d - read_offset d) by lia.
  unfold slice. rewrite decide_True by lia. cbn [or_fault mbind res_bind offset read_offset dr_data].
  rewrite (wrap_small 64) by lia.
  assert (take (Z.to_nat k) (drop (Z.to_nat (read_offset d)) (dr_data d)) = take (Z.to_nat k) (unread d)) as ->.
  { unfold unread, body. rewrite !take_drop_commute, take_take. do 2 f_equal. lia. }
  do 2 f_equal. case_bool_decide; lia.
Qed.

Lemma sendable_step len d : sendable d -> 0 < len ->
  let n := Z.min (Z.of_nat (length (unread d))) len in
  sendable (mkDR (dr_data d) (offset d) (read_offset d + n)) /\
  unread (mkDR (dr_data d) (offset d) (read_offset d + n)) = drop (Z.to_nat n) (unread d).
Proof.
  intros [Hr Hf] Hl n.
  assert (Z.of_nat (length (unread d)) = offset d - read_offset d) as Hu
    by (unfold unread, body; rewrite length_drop, length_take; lia).
  split; [split; cbn; lia|]. unfold unread, body. cbn [offset read_offset dr_data]. rewrite drop_drop. f_equal. lia.
Qed.

(** All the chunks: none empty, none longer than a frame, together what was
    unread; the last is the one that reaches the end. *)
Lemma send_body_spec len : 0 < len < 2 ^ 63 -> forall fuel d, sendable d -> unread d <> [] ->
  (length (unread d) <= fuel)%nat ->
  exists l d', send_body fuel len d = Ok (l, d') /\ concat l = unread d /\
    Forall (fun bs => 0 < Z.of_nat (length bs) <= len) l /\ read_offset d' = offset d.
Proof.
  intros Hl. induction fuel as [|fuel IH]; intros d Hd Hne Hf.
  { destruct (unread d); [done|cbn in Hf; lia]. }
  cbn [send_body]. rewrite (read_chunk_spec len d Hd Hl). cbn [mbind res_bind].
  destruct (sendable_step len d Hd ltac:(lia)) as [Hd' Hu'].
  set (n := Z.min (Z.of_nat (length (unread d))) len) in *. set (d1 := mkDR _ _ _) in *.
  assert (0 < Z.of_nat (length (unread d))) by (destruct (unread d); [done|cbn; lia]).
  case_bool_decide as Hlast.
  - assert (Z.to_nat n = length (unread d)) as En by lia. rewrite En, take_ge by lia.
    exists [unread d], d1. split; [done|]. split; [apply app_nil_r|]. split; [repeat constructor; lia|].
    cbn. destruct Hd as [Hr Hfit]. unfold unread, body in *. rewrite length_drop, length_take in *. lia.
  - destruct (IH d1 Hd') as (l & d' & -> & Hc & Hall & Hr).
    + rewrite Hu'. intros E. apply (f_equal length) in E. rewrite length_drop in E. cbn in E. lia.
    + rewrite Hu', length_drop. lia.
    + cbn [mbind res_bind]. eexists _, d'. split; [reflexivity|]. split; [|split; [|done]].
      * cbn [concat]. rewrite Hc, Hu'. apply take_drop.
      * constructor; [|done]. rewrite length_take. lia.
Qed.

Lemma receive_body_spec l : forall d, data_wf d -> offset d + Z.of_nat (length (concat l)) <= MAX_PAYLOAD_SIZE ->
  exists d', receive_body l d = Ok d' /\ data_wf d' /\ body d' = body d ++ concat l /\
    offset d' = offset d + Z.of_nat (length (concat l)).
Proof.
  induction l as [|bs l IH]; intros d Hd Hfit; cbn [receive_body concat] in *.
  { exists d. rewrite app_nil_r, Z.add_0_r. done. }
  rewrite length_app in Hfit. pose proof (append_data_spec bs d Hd) as H. rewrite decide_True in H by lia.
  destruct H as (d1 & -> & Hd1 & Ho & _ & Hs). cbn [mbind res_bind].
  destruct (IH d1 Hd1 ltac:(lia)) as (d' & E & Hd' & Hb & Ho'). exists d'. split; [done|]. split; [done|].
  rewrite Hb. split; [|rewrite Ho', Ho, length_app; lia].
  apply slice_Some in Hs as (_ & _ & Hs). rewrite drop_0 in Hs. unfold body at 1. rewrite <- Hs, <- app_assoc. done.
Qed.

(** C23: a body crosses an HTTP/2 connection unchanged: whatever the frame size,
    as many reads as the body has bytes are enough to reach the chunk that is
    marked as the last; no chunk is empty or longer than a frame; and the
    message that appends the chunks in order holds exactly the sender's body,
    all of which has then been read. *)
Theorem http2_body_transfer len d r : 0 < len < 2 ^ 63 -> sendable d -> read_offset d = 0 -> 0 < offset d <= MAX_PAYLOAD_SIZE ->
  data_wf r -> offset r = 0 ->
  exists l d' r', send_body (Z.to_nat (offset d)) len d = Ok (l, d') /\ receive_body l r = Ok r' /\
    body r' = body d /\ offset r' = offset d /\ read_offset d' = offset d /\
    Forall (fun bs => 0 < Z.of_nat (length bs) <= len) l.
Proof.
  intros Hl Hd Hr0 Ho Hr Hr0'.
  assert (unread d = body d) as Hu by (unfold unread; by rewrite Hr0).
  assert (Z.of_nat (length (body d)) = offset d) as Hb by (unfold body; rewrite length_take; destruct Hd; lia).
  destruct (send_body_spec len Hl (Z.to_nat (offset d)) d Hd) as (l & d' & E & Hc & Hall & Hrd).
  { rewrite Hu. intros Hn. rewrite Hn in Hb. cbn in Hb. lia. }
  { rewrite Hu. lia. }
  rewrite Hu in Hc. destruct (receive_body_spec l r Hr) as (r' & E' & _ & Hb' & Ho'); [rewrite Hc; lia|].
  exists l, d', r'. split; [done|]. split; [done|]. split; [|rewrite Ho', Hc; split; [lia|done]].
  rewrite Hb', Hc. unfold body at 1. by rewrite Hr0'.
Qed.

Lemma http2_body_transfer_witness : exists l d' r',
  send_body 5 2 (mkDR [1; 2; 3; 4; 5; 0; 0] 5 0) = Ok (l, d') /\ receive_body l data_make = Ok r' /\
  body r' = [1; 2; 3; 4; 5].
Proof.
  destruct (http2_body_transfer 2 (mkDR [1; 2; 3; 4; 5; 0; 0] 5 0) data_make) as (l & d' & r' & E & E' & Hb & _);
    [lia|split; cbn; lia|done|unfold MAX_PAYLOAD_SIZE; cbn; lia|apply data_make_wf|done|].
  exists l, d', r'. split; [exact E|]. split; [exact E'|exact Hb].
Defined.
