(* ===== verification/CreditQueue.v ===== *)
(** * CreditQueue: [include/credit_queue.hpp], [src/credit_queue.cc]

    The server-side queue of credit grants waiting for a slot: three
    priorities served by weighted round robin (16 : 4 : 1), a queue per
    endpoint inside each priority served in turn, and the counters of active
    requests with their global and per-endpoint limits. The payload type [B]
    stands for the [unique_ptr<Buffer>] the queue moves around. *)

From Stdlib Require Import ZArith Lia.
From stdpp Require Import base gmap strings list fin_maps.
From S2P Require Import Prelude Fp Config LocalMap.

Open Scope Z_scope.

Definition PriorityCount : nat := 3.

(** ** One priority level *)

Record InnerCreditQueue (B : Type) := mkICQ {
  icq_queue : LocalMap (list B);
  icq_it : nat;
  icq_size : Z
}.
Arguments mkICQ {B} _ _ _.
Arguments icq_queue {B} _.
Arguments icq_it {B} _.
Arguments icq_size {B} _.

(** The counters [pop] works on, passed by reference in the code. *)
Record Counters := mkCounters {
  in_flight : Z;
  global_limit : Z;
  in_flight_per_endpoint : LocalMap Z;
  per_endpoint_limit : LocalMap Z
}.

Definition with_in_flight (x : Z) (c : Counters) : Counters :=
  mkCounters x (global_limit c) (in_flight_per_endpoint c) (per_endpoint_limit c).
Definition with_ifpe (m : LocalMap Z) (c : Counters) : Counters :=
  mkCounters (in_flight c) (global_limit c) m (per_endpoint_limit c).

(** [x++] and [x--] on an [int32_t]. *)
Definition i32_incr (z : Z) : res Z := checked_i32 (z + 1).
Definition i32_decr (z : Z) : res Z := checked_i32 (z - 1).

Section Inner.
Context {B : Type}.

Definition icq_make (endpoints : list string) : res (InnerCreditQueue B) :=
  q ← make [] endpoints;
  Ok (mkICQ q (it_begin q) 0).

Definition icq_push (q : InnerCreditQueue B) (buffer : B) (endpoint : string)
    : res (InnerCreditQueue B) :=
  queue ← update (icq_queue q) endpoint (fun l => Ok (l ++ [buffer]));
  Ok (mkICQ queue (icq_it q) (u64 (icq_size q + 1))).

(** The guard of the loop body, at slot [s]. *)
Definition eligible (c : Counters) (s : LocalSlot (list B)) : res bool :=
  match sl_value s with
  | [] => Ok false
  | _ =>
      n ← get (in_flight_per_endpoint c) (sl_key s);
      l ← get (per_endpoint_limit c) (sl_key s);
      Ok ((n <? l) && (in_flight c <? global_limit c))
  end.

(** The body taken when the guard holds. *)
Definition take_front (q : InnerCreditQueue B) (c : Counters) (s : LocalSlot (list B))
    : res (B * InnerCreditQueue B * Counters) :=
  ifpe ← update (in_flight_per_endpoint c) (sl_key s) i32_incr;
  n ← i32_incr (in_flight c);
  match sl_value s with
  | [] => Err Undefined
  | b :: rest =>
      let queue := set_slot_value (icq_queue q) (icq_it q) rest in
      Ok (b, mkICQ queue (it_next queue (icq_it q)) (u64 (icq_size q - 1)),
          with_in_flight n (with_ifpe ifpe c))
  end.

Fixpoint icq_pop_loop (fuel : nat) (init_endpoint : string)
    (q : InnerCreditQueue B) (c : Counters)
    : res (option B * InnerCreditQueue B * Counters) :=
  match fuel with
  | O => Err Hang
  | S fuel' =>
      s ← get_slot (icq_queue q) (icq_it q);
      e ← eligible c s;
      if (e : bool) then
        '(b, q', c') ← take_front q c s;
        Ok (Some b, q', c')
      else
        let q' := mkICQ (icq_queue q) (it_next (icq_queue q) (icq_it q)) (icq_size q) in
        s' ← get_slot (icq_queue q') (icq_it q');
        if bool_decide (sl_key s' = init_endpoint) then Ok (None, q', c)
        else icq_pop_loop fuel' init_endpoint q' c
  end.

Definition icq_pop (q : InnerCreditQueue B) (c : Counters)
    : res (option B * InnerCreditQueue B * Counters) :=
  if icq_size q =? 0 then Ok (None, q, c)
  else
    s ← get_slot (icq_queue q) (icq_it q);
    icq_pop_loop (length (slots_ (icq_queue q))) (sl_key s) q c.
End Inner.

(** ** The queue *)

Record CreditQueue (B : Type) := mkCQ {
  credit_queue : list (InnerCreditQueue B);
  weights : list Z;
  cq_it : nat;
  remaining_rounds : Z;
  cq_lock : bool;          (* held *)
  cq_size : Z;             (* std::atomic<size_t> *)
  counters : Counters
}.
Arguments mkCQ {B} _ _ _ _ _ _ _.
Arguments credit_queue {B} _.
Arguments weights {B} _.
Arguments cq_it {B} _.
Arguments remaining_rounds {B} _.
Arguments cq_lock {B} _.
Arguments cq_size {B} _.
Arguments counters {B} _.

(** The loop of the constructor over the endpoints. *)
Fixpoint init_limits (max_limit : Z) (es : list string) (a b : LocalMap Z)
    : res (LocalMap Z * LocalMap Z) :=
  match es with
  | [] => Ok (a, b)
  | e :: es' => a' ← set a e 0; b' ← set b e max_limit; init_limits max_limit es' a' b'
  end.

Section Queue.
Context {B : Type}.
Implicit Types (cq : CreditQueue B).

Definition set_lock (b : bool) cq : CreditQueue B :=
  mkCQ (credit_queue cq) (weights cq) (cq_it cq) (remaining_rounds cq) b (cq_size cq) (counters cq).
Definition set_inner (l : list (InnerCreditQueue B)) cq : CreditQueue B :=
  mkCQ l (weights cq) (cq_it cq) (remaining_rounds cq) (cq_lock cq) (cq_size cq) (counters cq).
Definition set_turn (i : nat) (r : Z) cq : CreditQueue B :=
  mkCQ (credit_queue cq) (weights cq) i r (cq_lock cq) (cq_size cq) (counters cq).
Definition set_cq_size (n : Z) cq : CreditQueue B :=
  mkCQ (credit_queue cq) (weights cq) (cq_it cq) (remaining_rounds cq) (cq_lock cq) n (counters cq).
Definition set_counters (c : Counters) cq : CreditQueue B :=
  mkCQ (credit_queue cq) (weights cq) (cq_it cq) (remaining_rounds cq) (cq_lock cq) (cq_size cq) c.

(** [SpinLock::lock] spins while the flag is set. *)
Definition spin_lock cq : res (CreditQueue B) :=
  if cq_lock cq then Err Hang else Ok (set_lock true cq).
Definition spin_unlock cq : CreditQueue B := set_lock false cq.

(** The constructor; [cpu] is the argument [cpu_count], the rest is read
    from the global configuration. *)
Definition cq_make (cfg : Config) (endpoints : list string) (cpu : Z) : res (CreditQueue B) :=
  q0 ← icq_make endpoints;
  q1 ← icq_make endpoints;
  q2 ← icq_make endpoints;
  ifpe ← make 0 endpoints;
  pel ← make 0 endpoints;
  twice ← checked_i32 (cpu * 2);
  max_limit ← checked_i32 (twice + extra_limit cfg);
  '(ifpe, pel) ← init_limits max_limit endpoints ifpe pel;
  sum_limit ← checked_i32 (max_limit * Z.of_nat (length endpoints));
  gl ← (if decide (size (routing cfg) = 0%nat) then
          diff ← checked_i32 (sum_limit - max_limit);
          extra ← fp_to_i32 (f32_mul (f32_of_Z diff)
                               (value_or (over_commitment cfg) (f32_of_Z (-1))));
          checked_i32 (max_limit + extra)
        else Ok INT_MAX);
  Ok (mkCQ [q0; q1; q2] [16; 4; 1] 0 16 false 0 (mkCounters 0 gl ifpe pel)).

(** The locked region of [push], and the count that follows it. An exception
    for a priority out of range leaves it with the lock still held; a result
    [Err] has no state behind it, and no caller goes on after it: the handlers
    let the exception end the process. *)
Definition push_locked cq (buffer : B) (endpoint : string) (priority : Z) : res (CreditQueue B) :=
  cq ← spin_lock cq;
  (* (size_t)priority *)
  let p := u64 priority in
  q ← (if p <? Z.of_nat PriorityCount then at_ (credit_queue cq) (Z.to_nat p)
       else Err (Throw OutOfRange));
  q' ← icq_push q buffer endpoint;
  Ok (spin_unlock (set_inner (<[Z.to_nat p := q']> (credit_queue cq)) cq)).

Definition fetch_add_size (d : Z) cq : CreditQueue B := set_cq_size (u64 (cq_size cq + d)) cq.

Definition push cq (buffer : B) (endpoint : string) (priority : Z) : res (CreditQueue B) :=
  cq ← push_locked cq buffer endpoint priority;
  Ok (fetch_add_size 1 cq).

Definition update_endpoint_limit cq (limit : Z) (api : string) : res (CreditQueue B) :=
  cq ← spin_lock cq;
  let c := counters cq in
  pel ← set (per_endpoint_limit c) api limit;
  Ok (spin_unlock (set_counters
        (mkCounters (in_flight c) (global_limit c) (in_flight_per_endpoint c) pel) cq)).

Definition update_global_limit cq (limit : Z) : res (CreditQueue B) :=
  cq ← spin_lock cq;
  let c := counters cq in
  Ok (spin_unlock (set_counters
        (mkCounters (in_flight c) limit (in_flight_per_endpoint c) (per_endpoint_limit c)) cq)).

Definition next_it (i : nat) : nat := ((i + 1) mod PriorityCount)%nat.

(** [remaining_rounds--] and the turn it leaves. *)
Definition consume_round cq : res (CreditQueue B) :=
  let r := u64 (remaining_rounds cq - 1) in
  if r =? 0 then
    w ← at_ (weights cq) (next_it (cq_it cq));
    Ok (set_turn (next_it (cq_it cq)) w cq)
  else Ok (set_turn (cq_it cq) r cq).

Fixpoint pop_loop (fuel : nat) (init_index : nat) cq : res (option B * CreditQueue B) :=
  match fuel with
  | O => Err Hang
  | S fuel' =>
      q ← at_ (credit_queue cq) (cq_it cq);
      '(o, q', c') ← icq_pop q (counters cq);
      let cq := set_counters c' (set_inner (<[cq_it cq := q']> (credit_queue cq)) cq) in
      match o with
      | Some b =>
          cq ← consume_round cq;
          Ok (Some b, spin_unlock (fetch_add_size (-1) cq))
      | None =>
          w ← at_ (weights cq) (next_it (cq_it cq));
          let cq := set_turn (next_it (cq_it cq)) w cq in
          if decide (cq_it cq = init_index) then Ok (None, spin_unlock cq)
          else pop_loop fuel' init_index cq
      end
  end.

(** The locked region of [pop], after the test of [_size]. *)
Definition pop_locked cq : res (option B * CreditQueue B) :=
  cq ← spin_lock cq;
  if global_limit (counters cq) <=? in_flight (counters cq) then Ok (None, spin_unlock cq)
  else pop_loop PriorityCount (cq_it cq) cq.

Definition pop cq : res (option B * CreditQueue B) :=
  if cq_size cq =? 0 then Ok (None, cq) else pop_locked cq.

Definition increment_in_flight cq (api : string) : res (CreditQueue B) :=
  cq ← spin_lock cq;
  let c := counters cq in
  ifpe ← update (in_flight_per_endpoint c) api i32_incr;
  n ← i32_incr (in_flight c);
  Ok (spin_unlock (set_counters (with_in_flight n (with_ifpe ifpe c)) cq)).

Definition decrement_in_flight cq (api : string) : res (CreditQueue B) :=
  cq ← spin_lock cq;
  let c := counters cq in
  ifpe ← update (in_flight_per_endpoint c) api i32_decr;
  n ← i32_decr (in_flight c);
  Ok (spin_unlock (set_counters (with_in_flight n (with_ifpe ifpe c)) cq)).

Definition get_global_limit cq : Z := global_limit (counters cq).
Definition get_per_endpoint_limit cq (service : string) : res Z :=
  get (per_endpoint_limit (counters cq)) service.
End Queue.

(** ** Invariants *)

Definition i32_ok (z : Z) : Prop := - 2 ^ 31 <= z < 2 ^ 31.

(** Sum of a counter over the endpoints, and number of queued entries. *)
Definition total_of (m : LocalMap Z) : Z :=
  map_fold (fun _ v acc => v + acc) 0 (to_gmap m).
Definition backlog_of {B} (m : LocalMap (list B)) : Z :=
  map_fold (fun _ (v : list B) acc => Z.of_nat (length v) + acc) 0 (to_gmap m).

Lemma map_fold_insert_sum {A} (f : A -> Z) (m : gmap string A) k (v v' : A) :
  m !! k = Some v ->
  map_fold (fun _ v acc => f v + acc) 0 (<[k:=v']> m) =
  map_fold (fun _ v acc => f v + acc) 0 m - f v + f v'.
Proof.
  intros Hk. rewrite <- insert_delete_eq.
  rewrite map_fold_insert_L; [|intros; lia|apply lookup_delete_eq].
  rewrite (map_fold_delete_L _ _ k v m); [lia|intros; lia|done].
Qed.

Record counters_wf (keys : list string) (c : Counters) : Prop := {
  cw_ifpe : over keys (in_flight_per_endpoint c);
  cw_pel : over keys (per_endpoint_limit c);
  cw_in_flight : i32_ok (in_flight c);
  cw_global : i32_ok (global_limit c);
  cw_ifpe_range k n : get (in_flight_per_endpoint c) k = Ok n -> i32_ok n;
  cw_pel_range k l : get (per_endpoint_limit c) k = Ok l -> i32_ok l
}.

(** The accounting equation: the global counter is the sum of the others. *)
Definition balanced (c : Counters) : Prop :=
  in_flight c = total_of (in_flight_per_endpoint c).

Record icq_wf {B} (keys : list string) (q : InnerCreditQueue B) : Prop := {
  iw_queue : over keys (icq_queue q);
  iw_it : occ_at (icq_queue q) (icq_it q) = true;
  iw_size : icq_size q = backlog_of (icq_queue q);
  iw_bound : icq_size q < 2 ^ 62
}.

Section InnerProofs.
Context {B : Type} (keys : list string).
Implicit Types (q : InnerCreditQueue B) (c : Counters) (s : LocalSlot (list B)).

(** Endpoint [k] of [q] may be served: its queue starts with [b] and
    continues with [rest], and neither limit is reached. *)
Definition ready q c k b rest : Prop :=
  get (icq_queue q) k = Ok (b :: rest) /\ in_flight c < global_limit c /\
  exists n l, get (in_flight_per_endpoint c) k = Ok n /\
    get (per_endpoint_limit c) k = Ok l /\ n < l.

Lemma eligible_total c s : counters_wf keys c -> sl_key s ∈ keys -> is_ok (eligible c s).
Proof.
  intros Hc Hk. unfold eligible. destruct (sl_value s) as [|b rest]; [by eexists|].
  destruct (over_get _ _ _ (cw_ifpe keys c Hc) Hk) as [n Hn].
  destruct (over_get _ _ _ (cw_pel keys c Hc) Hk) as [l Hl].
  rewrite Hn, Hl. by eexists.
Qed.

Lemma eligible_ready q c s i : over keys (icq_queue q) -> counters_wf keys c ->
  slots_ (icq_queue q) !! i = Some s -> occupied s = true ->
  eligible c s = Ok true <-> exists b rest, ready q c (sl_key s) b rest.
Proof.
  intros Hq Hc Hs Ho. destruct Hq as [Hwf Hkeys].
  assert (sl_key s ∈ keys) as Hk by (apply Hkeys; by exists i, s).
  assert (get (icq_queue q) (sl_key s) = Ok (sl_value s)) as Hg
    by (apply get_Ok; eauto 10).
  unfold eligible, ready. rewrite Hg.
  destruct (over_get _ _ _ (cw_ifpe keys c Hc) Hk) as [n Hn].
  destruct (over_get _ _ _ (cw_pel keys c Hc) Hk) as [l Hl].
  rewrite Hn, Hl. destruct (sl_value s) as [|b rest]; simpl.
  - split; [intros [=]|]. intros (? & ? & [=] & _).
  - destruct (Z.ltb_spec n l), (Z.ltb_spec (in_flight c) (global_limit c)); simpl;
      (split; [intros [=]|intros (? & ? & [= <- <-] & ? & ? & ? & [= <-] & [= <-] & ?)]);
      try lia; try done. exists b, rest. eauto 10.
Qed.

(** The state after an entry of endpoint [k] was taken. *)
Record taken q c k rest q' c' : Prop := {
  tk_queue : to_gmap (icq_queue q') = <[k:=rest]> (to_gmap (icq_queue q));
  tk_size : icq_size q' = icq_size q - 1;
  tk_in_flight : in_flight c' = in_flight c + 1;
  tk_global : global_limit c' = global_limit c;
  tk_pel : per_endpoint_limit c' = per_endpoint_limit c;
  tk_ifpe n : get (in_flight_per_endpoint c) k = Ok n ->
    set (in_flight_per_endpoint c) k (n + 1) = Ok (in_flight_per_endpoint c')
}.

Lemma backlog_nonneg (m : LocalMap (list B)) : 0 <= backlog_of m.
Proof.
  unfold backlog_of. apply (map_fold_weak_ind (fun r _ => 0 <= r)); [done|]. intros; lia.
Qed.

Lemma backlog_set (m m' : LocalMap (list B)) k l l' : wf m ->
  get m k = Ok l -> to_gmap m' = <[k:=l']> (to_gmap m) ->
  backlog_of m' = backlog_of m - Z.of_nat (length l) + Z.of_nat (length l').
Proof.
  intros Hwf Hg Hm. unfold backlog_of. rewrite Hm.
  rewrite (map_fold_insert_sum (fun v => Z.of_nat (length v)) _ _ l); [done|].
  by apply lookup_to_gmap.
Qed.

Lemma total_set (m m' : LocalMap Z) k n n' : wf m ->
  get m k = Ok n -> set m k n' = Ok m' -> total_of m' = total_of m - n + n'.
Proof.
  intros Hwf Hg Hs. unfold total_of. rewrite (set_to_gmap _ _ _ _ Hwf Hs).
  rewrite (map_fold_insert_sum (fun v => v) _ _ n); [done|]. by apply lookup_to_gmap.
Qed.

Lemma i32_incr_below n l : i32_ok n -> i32_ok l -> n < l -> i32_incr n = Ok (n + 1).
Proof. unfold i32_ok. intros. apply checked_i32_Ok. lia. Qed.

Lemma ready_backlog q c k b rest : icq_wf keys q -> ready q c k b rest -> 0 < icq_size q.
Proof.
  intros Hq (Hg & _). rewrite (iw_size _ _ Hq). unfold backlog_of.
  destruct Hq as [[Hwf _] _ _ _]. apply lookup_to_gmap in Hg; [|done].
  rewrite (map_fold_delete_L _ _ k (b :: rest) (to_gmap (icq_queue q)));
    [|intros; lia|done].
  enough (0 <= map_fold (fun _ (v : list B) acc => Z.of_nat (length v) + acc) 0
                (delete k (to_gmap (icq_queue q)))) by (simpl; lia).
  apply (map_fold_weak_ind (fun r _ => 0 <= r)); [done|]. intros; lia.
Qed.

(** Moving one endpoint's counter and the global one. *)
Lemma counters_wf_update c k n m x :
  counters_wf keys c -> i32_ok n -> i32_ok x ->
  set (in_flight_per_endpoint c) k n = Ok m ->
  counters_wf keys (with_in_flight x (with_ifpe m c)).
Proof.
  intros Hc Hn Hx Hm. pose proof (over_wf _ _ (cw_ifpe _ _ Hc)) as Hwf.
  split; simpl; try apply Hc; [by eapply over_set; [apply Hc|]|done|].
  intros k' n' Hn'. destruct (decide (k = k')) as [<-|Hne].
  - rewrite (get_set_eq _ _ _ _ Hwf Hm) in Hn'. by injection Hn' as <-.
  - rewrite (get_set_ne _ _ _ _ _ Hwf Hm) in Hn' by done. by eapply cw_ifpe_range.
Qed.

Lemma take_front_spec q c s b rest :
  icq_wf keys q -> counters_wf keys c ->
  slots_ (icq_queue q) !! icq_it q = Some s -> occupied s = true ->
  ready q c (sl_key s) b rest ->
  exists q' c', take_front q c s = Ok (b, q', c') /\ icq_wf keys q' /\
    counters_wf keys c' /\ taken q c (sl_key s) rest q' c' /\
    icq_it q' = it_next (icq_queue q) (icq_it q).
Proof.
  intros Hq Hc Hs Ho Hr. pose proof (ready_backlog _ _ _ _ _ Hq Hr) as Hpos.
  destruct Hr as (Hg & Hlt & n & l & Hn & Hl & Hnl).
  pose proof (iw_queue _ _ Hq) as [Hwf Hkeys].
  assert (set (icq_queue q) (sl_key s) rest = Ok (set_slot_value (icq_queue q) (icq_it q) rest))
    as Hset by (apply set_Ok; eauto 10).
  assert (sl_value s = b :: rest) as Hv.
  { enough (Ok (sl_value s) = Ok (b :: rest)) by congruence. rewrite <- Hg. symmetry.
    apply get_Ok; eauto 10. }
  assert (is_ok (set (in_flight_per_endpoint c) (sl_key s) (n + 1))) as [ifpe Hifpe].
  { apply set_ok; [apply (cw_ifpe _ _ Hc)|].
    apply (over_keys _ _ (cw_ifpe _ _ Hc)). apply Hkeys. by exists (icq_it q), s. }
  assert (i32_incr n = Ok (n + 1)) as Hi1.
  { eapply i32_incr_below; [by eapply cw_ifpe_range|by eapply cw_pel_range|done]. }
  assert (i32_incr (in_flight c) = Ok (in_flight c + 1)) as Hi2.
  { eapply i32_incr_below; [apply (cw_in_flight _ _ Hc)|apply (cw_global _ _ Hc)|done]. }
  unfold take_front. unfold update. rewrite Hn. simpl. rewrite Hi1. simpl.
  rewrite Hifpe. simpl. rewrite Hi2. simpl. rewrite Hv.
  eexists _, _. split; [done|].
  pose proof (iw_bound _ _ Hq).
  assert (u64 (icq_size q - 1) = icq_size q - 1) as Hw by (apply wrap_small; lia).
  assert (to_gmap (set_slot_value (icq_queue q) (icq_it q) rest) =
          <[sl_key s:=rest]> (to_gmap (icq_queue q))) as Hgm
    by (by apply (set_to_gmap _ _ _ _ Hwf Hset)).
  split; [|split; [|split]].
  - split; simpl.
    + by eapply over_set; [apply (iw_queue _ _ Hq)|].
    + rewrite occ_at_set_slot_value, it_next_set_slot_value.
      apply it_next_occ, (iw_it _ _ Hq).
    + rewrite Hw, (iw_size _ _ Hq).
      pose proof (backlog_set (icq_queue q) _ (sl_key s) (b :: rest) rest Hwf Hg Hgm) as Hb.
      cbn [length] in Hb. lia.
    + lia.
  - apply (counters_wf_update _ (sl_key s) (n + 1)); try done.
    + by apply checked_i32_Ok in Hi1 as [_ ?].
    + by apply checked_i32_Ok in Hi2 as [_ ?].
  - split; simpl; try done. intros n' Hn'. congruence.
  - simpl. by rewrite it_next_set_slot_value.
Qed.

(** What a [pop] of one level does: it serves the first ready endpoint met
    from the iterator on, or finds that there is none. *)
Definition pos q d : nat := ((icq_it q + d) mod length (slots_ (icq_queue q)))%nat.

Definition none_before q c d : Prop :=
  forall e s, (e < d)%nat -> slots_ (icq_queue q) !! pos q e = Some s ->
    occupied s = true -> forall b rest, ~ ready q c (sl_key s) b rest.

Definition served q c b q' c' : Prop :=
  exists d s rest, (d < length (slots_ (icq_queue q)))%nat /\
    slots_ (icq_queue q) !! pos q d = Some s /\ occupied s = true /\
    none_before q c d /\ ready q c (sl_key s) b rest /\
    taken q c (sl_key s) rest q' c' /\
    icq_it q' = it_next (icq_queue q) (pos q d).

Definition pop_result q c (o : option B) q' c' : Prop :=
  match o with
  | Some b => served q c b q' c'
  | None => c' = c /\ icq_queue q' = icq_queue q /\ icq_size q' = icq_size q /\
      forall k b rest, ~ ready q c k b rest
  end.

Definition at_pos q i : InnerCreditQueue B := mkICQ (icq_queue q) i (icq_size q).

Lemma icq_wf_at_pos q i : icq_wf keys q -> occ_at (icq_queue q) i = true ->
  icq_wf keys (at_pos q i).
Proof. intros [] ?. by split. Qed.

Lemma occ_at_slot (m : LocalMap (list B)) i : occ_at m i = true ->
  exists s, slots_ m !! i = Some s /\ occupied s = true.
Proof. unfold occ_at. destruct (slots_ m !! i); [eauto|discriminate]. Qed.

(** Once all the positions were passed, no endpoint is ready. *)
Lemma none_before_all q c k b rest :
  icq_wf keys q -> none_before q c (length (slots_ (icq_queue q))) ->
  ~ ready q c k b rest.
Proof.
  intros Hq Hnone Hr. pose proof Hr as (Hg & _).
  apply get_Ok in Hg as (j & s & Hs & Ho & <- & _); [|apply (iw_queue _ _ Hq)].
  destruct (orbit_covers (icq_queue q) (icq_it q) j (iw_it _ _ Hq)) as (e & He & ->).
  { by eapply lookup_lt_Some. }
  by eapply (Hnone e s).
Qed.

Lemma icq_pop_loop_spec q c s0 fuel d :
  icq_wf keys q -> counters_wf keys c ->
  slots_ (icq_queue q) !! icq_it q = Some s0 ->
  let n := length (slots_ (icq_queue q)) in
  let i := pos q d in
  (d < n)%nat -> (n <= d + fuel)%nat -> occ_at (icq_queue q) i = true ->
  none_before q c d ->
  exists o q' c', icq_pop_loop fuel (sl_key s0) (at_pos q i) c = Ok (o, q', c') /\
    icq_wf keys q' /\ counters_wf keys c' /\ pop_result q c o q' c'.
Proof.
  intros Hq Hc Hs0 n. revert d. pose proof (iw_queue _ _ Hq) as Hover.
  induction fuel as [|fuel IH]; intros d i Hd Hfuel Hocc Hnone; [lia|].
  destruct (occ_at_slot _ _ Hocc) as (s & Hs & Ho).
  assert (sl_key s ∈ keys) as Hk by (apply Hover; by exists i, s).
  cbn [icq_pop_loop]. cbn [at_pos icq_queue icq_it icq_size].
  rewrite (get_slot_Ok _ _ _ Hs). cbn [mbind res_bind].
  destruct (eligible_total c s Hc Hk) as [e He]. rewrite He. cbn [mbind res_bind].
  pose proof (eligible_ready q c s i Hover Hc Hs Ho) as Helig.
  destruct e.
  { destruct (proj1 Helig He) as (b & rest & Hr).
    destruct (take_front_spec (at_pos q i) c s b rest) as (q' & c' & -> & ? & ? & Ht & Hit);
      [by apply icq_wf_at_pos|done..|].
    eexists _, _, _. split; [reflexivity|]. split; [done|]. split; [done|].
    exists d, s, rest. destruct Ht. repeat (split; [done|]). done. }
  assert (none_before q c (S d)) as Hnone'.
  { intros e s' He' Hs' Ho'. destruct (decide (e = d)) as [->|]; [|by apply (Hnone e); [lia|..]].
    fold i in Hs'. assert (s' = s) as -> by congruence.
    intros b rest Hr. enough (Ok false = Ok true) by done. rewrite <- He. apply Helig. eauto. }
  destruct (it_next_orbit (icq_queue q) (icq_it q) d (iw_it _ _ Hq) Hd)
    as (d' & Hd' & _ & Hj & Hoj & Hgap). fold (pos q d) in Hj, Hoj, Hgap. fold i in Hj, Hoj, Hgap.
  fold n in Hd'.
  assert (none_before q c d') as Hnone''.
  { intros e s' He' Hs' Ho'. destruct (decide (e <= d)%nat); [by apply (Hnone' e); [lia|..]|].
    exfalso. specialize (Hgap e ltac:(lia)). unfold occ_at in Hgap. unfold pos in Hs'.
    rewrite Hs' in Hgap. congruence. }
  destruct (occ_at_slot _ _ Hoj) as (s' & Hs' & Ho').
  rewrite (get_slot_Ok _ _ _ Hs'). cbn [mbind res_bind].
  case_bool_decide as Hkey.
  - assert (it_next (icq_queue q) i = icq_it q) as Hback.
    { pose proof (iw_it _ _ Hq) as H. unfold occ_at in H. rewrite Hs0 in H.
      apply (key_inj (icq_queue q) _ _ s' s0); [apply Hover|done..]. }
    assert (d' = n) as ->.
    { rewrite Hback in Hj. symmetry in Hj.
      apply mod_cycle in Hj; [lia|apply occ_at_lt, (iw_it _ _ Hq)|lia]. }
    eexists _, _, _. split; [reflexivity|].
    split; [by apply icq_wf_at_pos|]. repeat (split; [done|]).
    intros k b rest. by apply none_before_all.
  - assert (d' <> n).
    { intros ->. destruct Hkey. unfold pos, n in Hj.
      rewrite (proj2 (mod_cycle _ _ _ (occ_at_lt _ _ (iw_it _ _ Hq)) (Nat.le_refl _))) in Hj
        by by right.
      rewrite Hj in Hs'. congruence. }
    replace (it_next (icq_queue q) i) with (pos q d') by done.
    apply (IH d'); [lia|lia|by rewrite Hj in Hoj|done].
Qed.

Lemma icq_pop_spec q c : icq_wf keys q -> counters_wf keys c ->
  exists o q' c', icq_pop q c = Ok (o, q', c') /\ icq_wf keys q' /\
    counters_wf keys c' /\ pop_result q c o q' c'.
Proof.
  intros Hq Hc. unfold icq_pop. destruct (Z.eqb_spec (icq_size q) 0) as [Hz|].
  { eexists _, _, _. split; [reflexivity|]. repeat (split; [done|]).
    intros k b rest Hr%ready_backlog; [lia|done]. }
  destruct (occ_at_slot _ _ (iw_it _ _ Hq)) as (s & Hs & Ho).
  rewrite (get_slot_Ok _ _ _ Hs). cbn [mbind res_bind].
  assert (pos q 0 = icq_it q) as E.
  { unfold pos. rewrite Nat.add_0_r. apply Nat.mod_small, occ_at_lt, (iw_it _ _ Hq). }
  destruct (icq_pop_loop_spec q c s (length (slots_ (icq_queue q))) 0) as (o & q' & c' & H & ?).
  - done.
  - done.
  - done.
  - pose proof (occ_at_lt _ _ (iw_it _ _ Hq)). lia.
  - lia.
  - rewrite E. apply (iw_it _ _ Hq).
  - intros e s' ?. lia.
  - exists o, q', c'. split; [|done]. rewrite <- H, E. by destruct q.
Qed.
End InnerProofs.

(** ** The whole queue *)

Section QueueProofs.
Context {B : Type} (keys : list string).
Implicit Types (cq : CreditQueue B) (q : InnerCreditQueue B) (p : nat).

Definition weight (p : nat) : Z := default 0 ([16; 4; 1] !! p).

Fixpoint sum_sizes (l : list (InnerCreditQueue B)) : Z :=
  match l with [] => 0 | q :: l' => icq_size q + sum_sizes l' end.

(** The invariant of a queue whose lock is [lk]; [size] is off by the
    entries [lag] that were pushed and not yet counted. *)
Record cq_inv (lk : bool) (lag : Z) cq : Prop := {
  ci_levels : length (credit_queue cq) = PriorityCount;
  ci_inner : Forall (icq_wf keys) (credit_queue cq);
  ci_weights : weights cq = [16; 4; 1];
  ci_it : (cq_it cq < PriorityCount)%nat;
  ci_rounds : 1 <= remaining_rounds cq <= weight (cq_it cq);
  ci_lock : cq_lock cq = lk;
  ci_size : cq_size cq = u64 (sum_sizes (credit_queue cq) - lag);
  ci_counters : counters_wf keys (counters cq)
}.
Definition cq_wf := cq_inv false 0.

Definition level_idle cq p : Prop :=
  forall q, credit_queue cq !! p = Some q ->
  forall k b rest, ~ ready q (counters cq) k b rest.

(** Equality of levels up to the position of their iterators. *)
Definition same_level q q' : Prop := icq_queue q' = icq_queue q /\ icq_size q' = icq_size q.

Definition turn cq d : nat := ((cq_it cq + d) mod PriorityCount)%nat.

(** The turn after level [p] was served. *)
Definition turn_after (i : nat) (r : Z) (p : nat) : nat * Z :=
  let r0 := if decide (p = i) then r else weight p in
  if r0 =? 1 then (next_it p, weight (next_it p)) else (p, r0 - 1).

Definition cq_served cq (b : B) cq' : Prop :=
  exists d q q', (d < PriorityCount)%nat /\
    (forall e, (e < d)%nat -> level_idle cq (turn cq e)) /\
    credit_queue cq !! turn cq d = Some q /\
    credit_queue cq' !! turn cq d = Some q' /\
    served q (counters cq) b q' (counters cq') /\
    (forall p q1 q2, p <> turn cq d -> credit_queue cq !! p = Some q1 ->
       credit_queue cq' !! p = Some q2 -> same_level q1 q2) /\
    (cq_it cq', remaining_rounds cq') =
      turn_after (cq_it cq) (remaining_rounds cq) (turn cq d).

Definition cq_idle cq cq' : Prop :=
  counters cq' = counters cq /\ cq_it cq' = cq_it cq /\
  Forall2 same_level (credit_queue cq) (credit_queue cq').

Lemma at_lookup {A} (l : list A) i x : l !! i = Some x -> at_ l i = Ok x.
Proof. unfold at_. by intros ->. Qed.

Lemma next_it_lt i : (next_it i < PriorityCount)%nat.
Proof. apply Nat.mod_upper_bound. done. Qed.

Lemma weights_at p : (p < PriorityCount)%nat -> at_ [16; 4; 1] p = Ok (weight p).
Proof. unfold PriorityCount. intros. by destruct p as [|[|[|]]]; [..|lia]. Qed.

Lemma weight_pos p : (p < PriorityCount)%nat -> 1 <= weight p <= 16.
Proof. unfold PriorityCount. intros. destruct p as [|[|[|]]]; cbn; lia. Qed.

Lemma sum_sizes_insert (l : list (InnerCreditQueue B)) p q q' : l !! p = Some q ->
  sum_sizes (<[p:=q']> l) =
  sum_sizes l - icq_size q + icq_size q'.
Proof.
  revert p. induction l as [|x l IH]; intros [|p] H; [done..| |].
  - injection H as ->. simpl. lia.
  - simpl in *. rewrite (IH p H). lia.
Qed.

Lemma sum_sizes_nonneg (l : list (InnerCreditQueue B)) : Forall (icq_wf keys) l ->
  0 <= sum_sizes l.
Proof.
  induction 1 as [|q l Hq _ IH]; simpl; [lia|].
  pose proof (iw_size _ _ Hq). pose proof (backlog_nonneg (icq_queue q)). lia.
Qed.

Lemma sum_sizes_rest_nonneg (l : list (InnerCreditQueue B)) p q : Forall (icq_wf keys) l ->
  l !! p = Some q -> icq_size q <= sum_sizes l.
Proof.
  intros Hall. revert p. induction Hall as [|x l Hx Hall IH]; intros [|p] Hp; [done..| |]; simpl.
  - injection Hp as ->. pose proof (sum_sizes_nonneg l Hall). lia.
  - pose proof (iw_size _ _ Hx). pose proof (backlog_nonneg (icq_queue x)).
    specialize (IH p Hp). lia.
Qed.

(** One level replaced, the counters updated. *)
Lemma cq_inv_step lk lag cq p q q' c' :
  cq_inv lk lag cq -> credit_queue cq !! p = Some q -> icq_wf keys q' -> counters_wf keys c' ->
  cq_inv lk (lag + (icq_size q' - icq_size q))
    (set_counters c' (set_inner (<[p:=q']> (credit_queue cq)) cq)).
Proof.
  intros H Hp Hq' Hc'. split; simpl; try apply H.
  - by rewrite length_insert, (ci_levels _ _ _ H).
  - apply Forall_insert; [apply H|done].
  - rewrite (sum_sizes_insert _ p q), (ci_size _ _ _ H) by done. f_equal. lia.
  - done.
Qed.

Lemma cq_inv_size lk lag cq d : cq_inv lk lag cq ->
  cq_inv lk (lag - d) (set_cq_size (u64 (cq_size cq + d)) cq).
Proof.
  intros H. split; simpl; try apply H. rewrite (ci_size _ _ _ H).
  unfold wrap. rewrite Zplus_mod_idemp_l. f_equal. lia.
Qed.

Lemma cq_inv_turn lk lag cq i r : cq_inv lk lag cq ->
  (i < PriorityCount)%nat -> 1 <= r <= weight i -> cq_inv lk lag (set_turn i r cq).
Proof. intros H ? ?. split; simpl; try apply H; done. Qed.

Lemma cq_inv_lock lk lk' lag cq : cq_inv lk lag cq -> cq_inv lk' lag (set_lock lk' cq).
Proof. intros H. split; simpl; try apply H; done. Qed.

Lemma consume_round_spec cq : weights cq = [16; 4; 1] -> (cq_it cq < PriorityCount)%nat ->
  1 <= remaining_rounds cq <= weight (cq_it cq) ->
  let '(i, r) := turn_after (cq_it cq) (remaining_rounds cq) (cq_it cq) in
  consume_round cq = Ok (set_turn i r cq) /\ (i < PriorityCount)%nat /\ 1 <= r <= weight i.
Proof.
  intros Hw Hi Hr. pose proof (weight_pos _ Hi). pose proof (next_it_lt (cq_it cq)) as Hn.
  pose proof (weight_pos _ Hn).
  unfold turn_after, consume_round. rewrite decide_True by done.
  rewrite (wrap_small 64) by lia.
  destruct (Z.eqb_spec (remaining_rounds cq) 1) as [E|E].
  - rewrite E. change (1 - 1 =? 0) with true. cbn iota.
    rewrite Hw, weights_at by done. cbn [mbind res_bind]. split; [done|]. split; [done|]. lia.
  - destruct (Z.eqb_spec (remaining_rounds cq - 1) 0); [lia|]. split; [done|]. split; [done|]. lia.
Qed.

(** The state of the sweep after [d] idle levels, from [cq0]. *)
Record sweep (lag : Z) cq0 d cq : Prop := {
  sw_inv : cq_inv true lag cq;
  sw_counters : counters cq = counters cq0;
  sw_it : cq_it cq = turn cq0 d;
  sw_rounds : remaining_rounds cq =
    (if decide (turn cq0 d = cq_it cq0) then remaining_rounds cq0 else weight (turn cq0 d));
  sw_idle e : (e < d)%nat -> level_idle cq0 (turn cq0 e);
  sw_same : Forall2 same_level (credit_queue cq0) (credit_queue cq);
  sw_rest e : (d <= e < PriorityCount)%nat ->
    credit_queue cq !! turn cq0 e = credit_queue cq0 !! turn cq0 e
}.

Lemma turn_lt cq d : (turn cq d < PriorityCount)%nat.
Proof. apply Nat.mod_upper_bound. done. Qed.

Lemma turn_inj cq d e : (d < PriorityCount)%nat -> (e < PriorityCount)%nat ->
  turn cq d = turn cq e -> d = e.
Proof.
  unfold turn, PriorityCount. intros Hd He H.
  pose proof (Nat.div_mod_eq (cq_it cq + d) 3). pose proof (Nat.div_mod_eq (cq_it cq + e) 3). lia.
Qed.

Lemma next_it_turn cq d : next_it (turn cq d) = turn cq (S d).
Proof.
  unfold next_it, turn. rewrite Nat.Div0.add_mod_idemp_l. f_equal. lia.
Qed.

Lemma turn_back cq d : (cq_it cq < PriorityCount)%nat -> (d < PriorityCount)%nat ->
  turn cq (S d) = cq_it cq <-> S d = PriorityCount.
Proof. intros Hi Hd. unfold turn. rewrite mod_cycle by lia. lia. Qed.

Lemma level_exists lk lag cq p : cq_inv lk lag cq -> (p < PriorityCount)%nat ->
  exists q, credit_queue cq !! p = Some q /\ icq_wf keys q.
Proof.
  intros H Hp. rewrite <- (ci_levels _ _ _ H) in Hp.
  apply lookup_lt_is_Some in Hp as [q Hq]. exists q. split; [done|].
  by eapply Forall_lookup_1; [apply H|].
Qed.

Lemma sweep_lookup_ne lag cq0 d cq p q1 q2 q' : sweep lag cq0 d cq ->
  p <> turn cq0 d -> credit_queue cq0 !! p = Some q1 ->
  <[turn cq0 d:=q']> (credit_queue cq) !! p = Some q2 -> same_level q1 q2.
Proof.
  intros H Hne H1 H2. rewrite list_lookup_insert_ne in H2 by done.
  by eapply Forall2_lookup_lr; [apply H|..].
Qed.

Lemma sweep_start lag cq : cq_inv true lag cq -> sweep lag cq 0 cq.
Proof.
  intros H. assert (turn cq 0 = cq_it cq) as E.
  { unfold turn. rewrite Nat.add_0_r. apply Nat.mod_small, H. }
  split; rewrite ?E; try done.
  - by rewrite decide_True.
  - intros; lia.
  - apply Forall_Forall2_diag, Forall_true. by split.
Qed.

(** Serving an entry ends the sweep. *)
Lemma sweep_served lag cq0 d cq q b q' c' :
  sweep lag cq0 d cq -> (cq_it cq0 < PriorityCount)%nat -> (d < PriorityCount)%nat ->
  credit_queue cq0 !! turn cq0 d = Some q ->
  icq_wf keys q' -> counters_wf keys c' -> served q (counters cq0) b q' c' ->
  exists cq', consume_round (set_counters c' (set_inner (<[turn cq0 d:=q']> (credit_queue cq)) cq))
      = Ok cq' /\
    cq_inv false lag (spin_unlock (fetch_add_size (-1) cq')) /\
    cq_served cq0 b (spin_unlock (fetch_add_size (-1) cq')).
Proof.
  intros H Hi0 Hd Hq Hq' Hc' Hs. pose proof (sw_inv _ _ _ _ H) as Hinv.
  set (cq1 := set_counters _ _).
  assert (credit_queue cq !! turn cq0 d = Some q) as Hq1 by (rewrite (sw_rest _ _ _ _ H); [done|lia]).
  assert (cq_inv true (lag - 1) cq1) as Hinv1.
  { replace (lag - 1) with (lag + (icq_size q' - icq_size q)).
    - by apply cq_inv_step.
    - destruct Hs as (? & ? & ? & _ & _ & _ & _ & _ & [_ Hsz _ _ _ _] & _). lia. }
  assert (cq_it cq1 = turn cq0 d) as Hit by apply H.
  pose proof (consume_round_spec cq1 (ci_weights _ _ _ Hinv1) (ci_it _ _ _ Hinv1)
    (ci_rounds _ _ _ Hinv1)) as Hround.
  destruct (turn_after _ _ _) as [i r] eqn:Eturn. destruct Hround as (Hround & Hi & Hr).
  eexists. split; [exact Hround|]. split.
  - unfold spin_unlock. eapply cq_inv_lock.
    pose proof (cq_inv_size _ _ _ (-1) (cq_inv_turn _ _ _ _ _ Hinv1 Hi Hr)) as Hend.
    replace (lag - 1 - -1) with lag in Hend by lia. exact Hend.
  - exists d, q, q'. split; [done|]. split; [apply H|]. split; [done|]. split.
    { simpl. apply list_lookup_insert_eq. by eapply lookup_lt_Some. }
    split; [done|]. split.
    { intros p q1 q2 Hne H1 H2. by apply (sweep_lookup_ne lag cq0 d cq p q1 q2 q'). }
    simpl. rewrite <- Eturn, Hit. unfold turn_after. simpl. rewrite (sw_rounds _ _ _ _ H).
    rewrite (decide_True (P := turn cq0 d = turn cq0 d)) by done.
    by destruct (decide (turn cq0 d = cq_it cq0)).
Qed.

(** An idle level moves the sweep on. *)
Lemma sweep_next lag cq0 d cq q q' :
  sweep lag cq0 d cq -> (d < PriorityCount)%nat ->
  credit_queue cq0 !! turn cq0 d = Some q -> icq_wf keys q' -> same_level q q' ->
  (forall k b rest, ~ ready q (counters cq0) k b rest) ->
  let cq1 := set_counters (counters cq) (set_inner (<[turn cq0 d:=q']> (credit_queue cq)) cq) in
  cq_inv true lag (set_turn (turn cq0 (S d)) (weight (turn cq0 (S d))) cq1) /\
  (forall e, (e < S d)%nat -> level_idle cq0 (turn cq0 e)) /\
  Forall2 same_level (credit_queue cq0) (credit_queue cq1) /\
  (forall e, (S d <= e < PriorityCount)%nat ->
     credit_queue cq1 !! turn cq0 e = credit_queue cq0 !! turn cq0 e).
Proof.
  intros H Hd Hq Hq' Hsame Hidle cq1. pose proof (sw_inv _ _ _ _ H) as Hinv.
  assert (credit_queue cq !! turn cq0 d = Some q) as Hq1 by (rewrite (sw_rest _ _ _ _ H); [done|lia]).
  pose proof (weight_pos _ (turn_lt cq0 (S d))). split; [|split; [|split]].
  - apply cq_inv_turn; [|apply turn_lt|lia].
    replace lag with (lag + (icq_size q' - icq_size q)) by (destruct Hsame; lia).
    apply cq_inv_step; try done. apply Hinv.
  - intros e He. destruct (decide (e = d)) as [->|]; [|apply H; lia].
    intros q0 Hq0. replace q0 with q by congruence. done.
  - simpl. rewrite <- (list_insert_id (credit_queue cq0) (turn cq0 d) q) by done.
    apply Forall2_insert; [apply H|done].
  - intros e He. simpl. rewrite list_lookup_insert_ne; [apply H; lia|].
    intros Heq%turn_inj; lia.
Qed.

Definition pop_post cq0 (o : option B) cq' : Prop :=
  match o with
  | Some b => cq_served cq0 b cq'
  | None => cq_idle cq0 cq' /\ forall p, level_idle cq0 p
  end.

Lemma all_levels_idle cq0 : (cq_it cq0 < PriorityCount)%nat ->
  length (credit_queue cq0) = PriorityCount ->
  (forall e, (e < PriorityCount)%nat -> level_idle cq0 (turn cq0 e)) ->
  forall p, level_idle cq0 p.
Proof.
  intros Hi Hlen Hall p q Hq. assert (p < PriorityCount)%nat as Hp
    by (rewrite <- Hlen; by eapply lookup_lt_Some).
  revert q Hq. fold (level_idle cq0 p). unfold turn, PriorityCount in *.
  assert (exists e, (e < 3)%nat /\ ((cq_it cq0 + e) mod 3)%nat = p) as (e & He & <-); [|by apply Hall].
  destruct (cq_it cq0) as [|[|[|]]], p as [|[|[|]]]; try lia;
    solve [exists 0%nat; split; [lia|done] | exists 1%nat; split; [lia|done]
          | exists 2%nat; split; [lia|done]].
Qed.

Lemma pop_loop_spec lag cq0 fuel d cq :
  (cq_it cq0 < PriorityCount)%nat -> length (credit_queue cq0) = PriorityCount ->
  sweep lag cq0 d cq -> (d < PriorityCount)%nat -> (PriorityCount <= d + fuel)%nat ->
  exists o cq', pop_loop fuel (cq_it cq0) cq = Ok (o, cq') /\ cq_inv false lag cq' /\ pop_post cq0 o cq'.
Proof.
  intros Hi0 Hlen0. revert d cq. induction fuel as [|fuel IH]; intros d cq H Hd Hf; [lia|].
  destruct (level_exists _ _ _ _ (sw_inv _ _ _ _ H) (turn_lt cq0 d)) as (q & Hq & Hwf).
  pose proof Hq as Hq0. rewrite (sw_rest _ _ _ _ H) in Hq0 by lia.
  cbn [pop_loop]. rewrite (sw_it _ _ _ _ H), (at_lookup _ _ _ Hq). cbn [mbind res_bind].
  destruct (icq_pop_spec keys q (counters cq) Hwf (ci_counters _ _ _ (sw_inv _ _ _ _ H)))
    as (o & q' & c' & Hpop & Hwf' & Hc' & Hres).
  rewrite Hpop. cbn [mbind res_bind]. rewrite (sw_counters _ _ _ _ H) in Hres.
  destruct o as [b|].
  - destruct (sweep_served lag cq0 d cq q b q' c') as (cq' & -> & ? & ?); try done.
    cbn [mbind res_bind]. eexists _, _. split; [reflexivity|]. by split.
  - destruct Hres as (-> & Hqq & Hss & Hidle).
    rewrite <- (sw_counters _ _ _ _ H).
    destruct (sweep_next lag cq0 d cq q q') as (Hinv & Hidle' & Hsame & Hrest); try done.
    cbn [set_counters set_inner set_turn weights cq_it].
    rewrite (sw_it _ _ _ _ H), next_it_turn, (ci_weights _ _ _ (sw_inv _ _ _ _ H)).
    rewrite weights_at by apply turn_lt. cbn [mbind res_bind]. case_decide as Hback.
    + apply turn_back in Hback; [|done|done]. eexists _, _. split; [reflexivity|].
      split; [eapply cq_inv_lock, Hinv|]. split; [split; [|split]|].
      * simpl. apply H.
      * simpl. by apply turn_back.
      * done.
      * apply all_levels_idle; [done|done|]. intros e He. apply Hidle'. lia.
    + assert (S d <> PriorityCount) by by rewrite <- turn_back.
      apply (IH (S d)); [|lia|lia]. split; try done; [apply H|].
      simpl. by rewrite decide_False.
Qed.

Lemma cq_idle_refl cq : cq_idle cq cq.
Proof. split; [done|]. split; [done|]. apply Forall_Forall2_diag, Forall_true. by split. Qed.

Lemma sum_sizes_bound lk lag cq : cq_inv lk lag cq -> sum_sizes (credit_queue cq) < 2 ^ 63 + 2 ^ 62.
Proof.
  intros H. pose proof (ci_levels _ _ _ H) as Hlen. pose proof (ci_inner _ _ _ H) as Hall.
  destruct (credit_queue cq) as [|q0 [|q1 [|q2 [|]]]]; try discriminate Hlen.
  rewrite !Forall_cons in Hall. destruct Hall as (H0 & H1 & H2 & _).
  pose proof (iw_bound _ _ H0). pose proof (iw_bound _ _ H1). pose proof (iw_bound _ _ H2).
  simpl. lia.
Qed.

Lemma size_zero_idle cq : cq_wf cq -> cq_size cq = 0 -> forall p, level_idle cq p.
Proof.
  intros H Hz p q Hq k b rest Hr.
  assert (icq_wf keys q) as Hwf by (by eapply Forall_lookup_1; [apply H|]).
  pose proof (ready_backlog _ _ _ _ _ _ Hwf Hr) as Hpos.
  rewrite (ci_size _ _ _ H), Z.sub_0_r in Hz.
  pose proof (sum_sizes_insert _ p q (mkICQ (icq_queue q) (icq_it q) 0) Hq) as Hs. simpl in Hs.
  pose proof (sum_sizes_bound _ _ _ H) as Hlt.
  rewrite wrap_small in Hz by (split; [apply sum_sizes_nonneg, H|lia]).
  pose proof (sum_sizes_rest_nonneg (credit_queue cq) p q (ci_inner _ _ _ H) Hq). lia.
Qed.

Lemma unlock_lock cq : cq_lock cq = false -> spin_unlock (set_lock true cq) = cq.
Proof. destruct cq; simpl. intros ->. done. Qed.

Lemma spin_lock_free lag cq : cq_inv false lag cq -> spin_lock cq = Ok (set_lock true cq).
Proof. intros H. unfold spin_lock. by rewrite (ci_lock _ _ _ H). Qed.

Lemma pop_locked_correct lag cq : cq_inv false lag cq ->
  exists o cq', pop_locked cq = Ok (o, cq') /\ cq_inv false lag cq' /\ pop_post cq o cq'.
Proof.
  intros H. unfold pop_locked. rewrite (spin_lock_free lag) by done. cbn [mbind res_bind].
  change (counters (set_lock true cq)) with (counters cq).
  destruct (Z.leb_spec (global_limit (counters cq)) (in_flight (counters cq))).
  { rewrite unlock_lock by apply H. eexists _, _. split; [reflexivity|]. split; [done|].
    split; [apply cq_idle_refl|]. intros p q Hq k b rest (_ & ? & _). lia. }
  pose proof (cq_inv_lock _ true _ _ H) as Hl.
  destruct (pop_loop_spec lag (set_lock true cq) PriorityCount 0 (set_lock true cq))
    as (o & cq' & Hpop & Hwf & Hpost);
    [apply H|apply H|by apply sweep_start|unfold PriorityCount; lia..|].
  exists o, cq'. split; [exact Hpop|]. split; [done|]. by destruct o.
Qed.

Lemma pop_correct cq : cq_wf cq ->
  exists o cq', pop cq = Ok (o, cq') /\ cq_wf cq' /\ pop_post cq o cq'.
Proof.
  intros H. unfold pop. destruct (Z.eqb_spec (cq_size cq) 0) as [Hz|].
  - eexists _, _. split; [reflexivity|]. split; [done|].
    split; [apply cq_idle_refl|]. by apply size_zero_idle.
  - by apply pop_locked_correct.
Qed.

(** *** The other operations *)

Lemma icq_push_spec q b k l : icq_wf keys q -> icq_size q < 2 ^ 62 - 1 ->
  get (icq_queue q) k = Ok l ->
  exists q', icq_push q b k = Ok q' /\ icq_wf keys q' /\ icq_size q' = icq_size q + 1 /\
    to_gmap (icq_queue q') = <[k := l ++ [b]]> (to_gmap (icq_queue q)) /\
    icq_it q' = icq_it q.
Proof.
  intros Hq Hsz Hg. pose proof (iw_queue _ _ Hq) as [Hwf Hkeys].
  assert (is_ok (set (icq_queue q) k (l ++ [b]))) as [m Hm].
  { apply set_ok; [done|]. apply has_key_to_gmap; [done|].
    apply lookup_to_gmap in Hg; [by eexists|done]. }
  unfold icq_push, update. rewrite Hg. cbn [mbind res_bind]. rewrite Hm. cbn [mbind res_bind].
  eexists. split; [reflexivity|].
  pose proof (set_to_gmap _ _ _ _ Hwf Hm) as Hgm.
  pose proof (iw_size _ _ Hq). pose proof (backlog_nonneg (icq_queue q)).
  assert (u64 (icq_size q + 1) = icq_size q + 1) as Hw by (apply wrap_small; lia).
  split; [split; simpl|done].
  - by eapply over_set; [apply (iw_queue _ _ Hq)|].
  - apply set_Ok in Hm as (i & s & _ & _ & _ & ->); [|done].
    rewrite occ_at_set_slot_value. apply (iw_it _ _ Hq).
  - rewrite Hw. pose proof (backlog_set (icq_queue q) m k l (l ++ [b]) Hwf Hg Hgm) as Hb.
    rewrite length_app in Hb. simpl in Hb. lia.
  - rewrite Hw. lia.
Qed.

(** What [push] changes: the endpoint's queue at its priority grows by the
    entry, and nothing else moves. *)
Definition appended cq (b : B) (k : string) (p : nat) cq' : Prop :=
  exists q q' l, credit_queue cq !! p = Some q /\
    get (icq_queue q) k = Ok l /\
    to_gmap (icq_queue q') = <[k := l ++ [b]]> (to_gmap (icq_queue q)) /\
    icq_it q' = icq_it q /\ icq_size q' = icq_size q + 1 /\
    cq' = set_inner (<[p:=q']> (credit_queue cq)) cq.
Definition pushed cq b k p cq' : Prop :=
  exists cq1, appended cq b k p cq1 /\ cq' = fetch_add_size 1 cq1.

Lemma push_locked_correct lag cq b k p :
  cq_inv false lag cq -> (p < PriorityCount)%nat -> k ∈ keys ->
  sum_sizes (credit_queue cq) < 2 ^ 62 - 1 ->
  exists cq', push_locked cq b k (Z.of_nat p) = Ok cq' /\ cq_inv false (lag + 1) cq' /\
    appended cq b k p cq'.
Proof.
  intros H Hp Hk Hsz. destruct (level_exists _ _ _ _ H Hp) as (q & Hq & Hwf).
  destruct (over_get _ _ _ (iw_queue _ _ Hwf) Hk) as [l Hl].
  pose proof (sum_sizes_rest_nonneg (credit_queue cq) p q (ci_inner _ _ _ H) Hq).
  destruct (icq_push_spec q b k l) as (q' & Hpush & Hwf' & Hsz' & Hgm & Hit); [done|lia|done|].
  unfold push_locked. rewrite (spin_lock_free lag) by done. cbn [mbind res_bind].
  rewrite (wrap_small 64) by (unfold PriorityCount in *; lia).
  replace (Z.of_nat p <? Z.of_nat PriorityCount) with true by lia.
  rewrite Nat2Z.id. cbn [set_lock credit_queue]. rewrite (at_lookup _ _ _ Hq).
  cbn [mbind res_bind]. rewrite Hpush. cbn [mbind res_bind].
  eexists. split; [reflexivity|].
  destruct cq as [? ? ? ? lk ? ?]. pose proof (ci_lock _ _ _ H) as Hlk. simpl in Hlk. subst lk.
  split.
  - pose proof (cq_inv_step _ _ _ _ _ _ _ H Hq Hwf' (ci_counters _ _ _ H)) as Hi.
    rewrite Hsz' in Hi. replace (lag + (icq_size q + 1 - icq_size q)) with (lag + 1) in Hi by lia.
    exact Hi.
  - by exists q, q', l.
Qed.

Lemma push_correct cq b k p : cq_wf cq -> (p < PriorityCount)%nat -> k ∈ keys ->
  sum_sizes (credit_queue cq) < 2 ^ 62 - 1 ->
  exists cq', push cq b k (Z.of_nat p) = Ok cq' /\ cq_wf cq' /\ pushed cq b k p cq'.
Proof.
  intros H Hp Hk Hsz.
  destruct (push_locked_correct 0 cq b k p) as (cq1 & Hpush & Hi & Ha); [done..|].
  unfold push. rewrite Hpush. cbn [mbind res_bind]. eexists. split; [reflexivity|]. split.
  - apply (cq_inv_size _ _ _ 1 Hi).
  - by exists cq1.
Qed.

Lemma push_bad_priority cq b k pr : cq_lock cq = false -> i32_ok pr ->
  ~ 0 <= pr < Z.of_nat PriorityCount -> push cq b k pr = Err (Throw OutOfRange).
Proof.
  intros Hlk Hpr Hbad. unfold push, push_locked, spin_lock. rewrite Hlk. cbn [mbind res_bind].
  unfold i32_ok, PriorityCount in *.
  replace (u64 pr <? Z.of_nat 3) with false; [done|]. symmetry. apply Z.ltb_ge.
  destruct (Z.leb_spec 0 pr).
  - rewrite wrap_small; lia.
  - unfold wrap. rewrite <- (Z_mod_plus_full pr 1), Z.mod_small; lia.
Qed.

(** Moving the counters of one endpoint by [d]. *)
Definition moved cq (k : string) (d : Z) cq' : Prop :=
  exists n m, get (in_flight_per_endpoint (counters cq)) k = Ok n /\
    set (in_flight_per_endpoint (counters cq)) k (n + d) = Ok m /\
    cq' = set_counters (with_in_flight (in_flight (counters cq) + d)
            (with_ifpe m (counters cq))) cq.

Lemma moved_wf lag cq k d cq' : cq_inv false lag cq -> moved cq k d cq' ->
  (forall n, get (in_flight_per_endpoint (counters cq)) k = Ok n -> i32_ok (n + d)) ->
  i32_ok (in_flight (counters cq) + d) -> cq_inv false lag cq'.
Proof.
  intros H (n & m & Hn & Hm & ->) Hok1 Hok2. split; simpl; try apply H.
  eapply counters_wf_update; [apply H|by apply Hok1|done|exact Hm].
Qed.

(** [increment_in_flight] and [decrement_in_flight], with the step as a
    parameter. *)
Definition bump (step : Z -> res Z) cq (k : string) : res (CreditQueue B) :=
  cq ← spin_lock cq;
  let c := counters cq in
  ifpe ← update (in_flight_per_endpoint c) k step;
  n ← step (in_flight c);
  Ok (spin_unlock (set_counters (with_in_flight n (with_ifpe ifpe c)) cq)).

Lemma bump_moved step d cq k cq' : cq_lock cq = false ->
  (forall z z', step z = Ok z' <-> z' = z + d /\ i32_ok (z + d)) ->
  bump step cq k = Ok cq' <->
  moved cq k d cq' /\ i32_ok (in_flight (counters cq) + d) /\
  (forall n, get (in_flight_per_endpoint (counters cq)) k = Ok n -> i32_ok (n + d)).
Proof.
  intros Hlk Hstep. unfold bump, spin_lock. rewrite Hlk. cbn [mbind res_bind].
  destruct cq as [? ? ? ? lk ? c]. simpl in Hlk. subst lk. split.
  - intros H. bind_inv. injection H as <-.
    apply update_Ok in E as (v & v' & Hv & Hs & Hset). simpl in *.
    apply Hstep in E0 as [-> ?], Hs as [-> ?]. split; [|split; [done|]].
    + by exists v, a.
    + intros n Hn. congruence.
  - intros [(n & m & Hn & Hm & ->) [Hok1 Hok2]]. simpl in *.
    rewrite (proj2 (update_Ok _ m _ _)).
    + cbn [mbind res_bind]. rewrite (proj2 (Hstep _ _)) by done. done.
    + exists n, (n + d). split; [done|]. split; [apply Hstep; split; [done|by apply Hok2]|done].
Qed.

Lemma i32_incr_Ok z z' : i32_incr z = Ok z' <-> z' = z + 1 /\ i32_ok (z + 1).
Proof. apply checked_i32_Ok. Qed.
Lemma i32_decr_Ok z z' : i32_decr z = Ok z' <-> z' = z + -1 /\ i32_ok (z + -1).
Proof. apply checked_i32_Ok. Qed.

Lemma increment_Ok cq k cq' : cq_lock cq = false ->
  increment_in_flight cq k = Ok cq' <->
  moved cq k 1 cq' /\ i32_ok (in_flight (counters cq) + 1) /\
  (forall n, get (in_flight_per_endpoint (counters cq)) k = Ok n -> i32_ok (n + 1)).
Proof. intros. apply (bump_moved i32_incr); [done|apply i32_incr_Ok]. Qed.

Lemma decrement_Ok cq k cq' : cq_lock cq = false ->
  decrement_in_flight cq k = Ok cq' <->
  moved cq k (-1) cq' /\ i32_ok (in_flight (counters cq) + -1) /\
  (forall n, get (in_flight_per_endpoint (counters cq)) k = Ok n -> i32_ok (n + -1)).
Proof. intros. apply (bump_moved i32_decr); [done|apply i32_decr_Ok]. Qed.
End QueueProofs.
