(* ===== verification/CreditQueueSpec.v ===== *)
(** * What the credit queue promises

    An abstract specification of [CreditQueue]: queues of entries per
    priority and endpoint, the number of active requests and the limits. The
    implementation refines it operation by operation; conservation, safety
    and fairness are stated on executions. *)

From Stdlib Require Import ZArith Lia.
From stdpp Require Import base gmap strings list fin_maps.
From S2P Require Import Prelude Fp Config LocalMap CreditQueue.

Open Scope Z_scope.

Record Spec (B : Type) := mkSpec {
  sp_levels : list (gmap string (list B));
  sp_in_flight : Z;
  sp_global : Z;
  sp_active : gmap string Z;
  sp_limits : gmap string Z
}.
Arguments mkSpec {B} _ _ _ _ _.
Arguments sp_levels {B} _.
Arguments sp_in_flight {B} _.
Arguments sp_global {B} _.
Arguments sp_active {B} _.
Arguments sp_limits {B} _.

Inductive label (B : Type) : Type :=
  | LPush (b : B) (k : string) (p : nat)
  | LPop (o : option B)
  | LIncrement (k : string)
  | LDecrement (k : string)
  | LEndpointLimit (l : Z) (k : string)
  | LGlobalLimit (l : Z).
Arguments LPush {B} b k p.
Arguments LPop {B} o.
Arguments LIncrement {B} k.
Arguments LDecrement {B} k.
Arguments LEndpointLimit {B} l k.
Arguments LGlobalLimit {B} l.

Section Spec.
Context {B : Type}.
Implicit Types (a : Spec B) (cq : CreditQueue B).

(** A grant may be sent: endpoint [k] at priority [p] has a waiting entry
    [b], is below its limit, and the service is below the global limit. *)
Definition grantable a (p : nat) (k : string) (b : B) (rest : list B) : Prop :=
  exists m n l, sp_levels a !! p = Some m /\ m !! k = Some (b :: rest) /\
    sp_in_flight a < sp_global a /\
    sp_active a !! k = Some n /\ sp_limits a !! k = Some l /\ n < l.

Definition sp_grant a (p : nat) (k : string) (rest : list B) : Spec B :=
  mkSpec (alter (insert k rest) p (sp_levels a)) (sp_in_flight a + 1) (sp_global a)
    (alter (Z.add 1) k (sp_active a)) (sp_limits a).

Definition sp_move a (k : string) (d : Z) : Spec B :=
  mkSpec (sp_levels a) (sp_in_flight a + d) (sp_global a)
    (alter (Z.add d) k (sp_active a)) (sp_limits a).

Inductive spec_step : Spec B -> label B -> Spec B -> Prop :=
  | sp_push a b k p m l :
      sp_levels a !! p = Some m -> m !! k = Some l ->
      spec_step a (LPush b k p)
        (mkSpec (<[p := <[k := l ++ [b]]> m]> (sp_levels a)) (sp_in_flight a)
           (sp_global a) (sp_active a) (sp_limits a))
  | sp_pop_grant a b k p rest :
      grantable a p k b rest ->
      spec_step a (LPop (Some b)) (sp_grant a p k rest)
  | sp_pop_none a :
      (forall p k b rest, ~ grantable a p k b rest) ->
      spec_step a (LPop None) a
  | sp_incr a k n :
      sp_active a !! k = Some n -> spec_step a (LIncrement k) (sp_move a k 1)
  | sp_decr a k n :
      sp_active a !! k = Some n -> spec_step a (LDecrement k) (sp_move a k (-1))
  | sp_endpoint_limit a k l l0 :
      sp_limits a !! k = Some l0 ->
      spec_step a (LEndpointLimit l k)
        (mkSpec (sp_levels a) (sp_in_flight a) (sp_global a) (sp_active a)
           (<[k := l]> (sp_limits a)))
  | sp_global_limit a l :
      spec_step a (LGlobalLimit l)
        (mkSpec (sp_levels a) (sp_in_flight a) l (sp_active a) (sp_limits a)).

(** The specification state an implementation state stands for. *)
Definition abs cq : Spec B :=
  mkSpec ((fun q => to_gmap (icq_queue q)) <$> credit_queue cq)
    (in_flight (counters cq)) (global_limit (counters cq))
    (to_gmap (in_flight_per_endpoint (counters cq)))
    (to_gmap (per_endpoint_limit (counters cq))).

(** The operations of the implementation, as labelled steps that return
    normally. The waiting entries are bounded by the number of buffers,
    which is far below the bound asked of a push. *)
Inductive cq_step : CreditQueue B -> label B -> CreditQueue B -> Prop :=
  | st_push cq b k p cq' :
      sum_sizes (credit_queue cq) < 2 ^ 62 - 1 ->
      push cq b k (Z.of_nat p) = Ok cq' -> Z.of_nat p < 2 ^ 31 ->
      cq_step cq (LPush b k p) cq'
  | st_pop cq o cq' : pop cq = Ok (o, cq') -> cq_step cq (LPop o) cq'
  | st_incr cq k cq' : increment_in_flight cq k = Ok cq' -> cq_step cq (LIncrement k) cq'
  | st_decr cq k cq' : decrement_in_flight cq k = Ok cq' -> cq_step cq (LDecrement k) cq'
  | st_endpoint_limit cq l k cq' : i32_ok l ->
      update_endpoint_limit cq l k = Ok cq' -> cq_step cq (LEndpointLimit l k) cq'
  | st_global_limit cq l cq' : i32_ok l ->
      update_global_limit cq l = Ok cq' -> cq_step cq (LGlobalLimit l) cq'.

Inductive steps {S L} (step : S -> L -> S -> Prop) : S -> list L -> S -> Prop :=
  | steps_nil s : steps step s [] s
  | steps_cons s l s' ls s'' :
      step s l s' -> steps step s' ls s'' -> steps step s (l :: ls) s''.
End Spec.

(** ** Refinement *)

Section Refinement.
Context {B : Type} (keys : list string).
Implicit Types (cq : CreditQueue B) (q : InnerCreditQueue B).

Lemma inner_wf lag cq p q : cq_inv keys false lag cq -> credit_queue cq !! p = Some q ->
  wf (icq_queue q).
Proof.
  intros H Hq. assert (icq_wf keys q) as Hwf by (by eapply Forall_lookup_1; [apply H|]).
  apply Hwf.
Qed.

Lemma ifpe_wf lk lag cq : cq_inv keys lk lag cq -> wf (in_flight_per_endpoint (counters cq)).
Proof. intros H. apply (cw_ifpe _ _ (ci_counters _ _ _ _ H)). Qed.

Lemma pel_wf lk lag cq : cq_inv keys lk lag cq -> wf (per_endpoint_limit (counters cq)).
Proof. intros H. apply (cw_pel _ _ (ci_counters _ _ _ _ H)). Qed.

Lemma grantable_ready lag cq p k b rest : cq_inv keys false lag cq ->
  grantable (abs cq) p k b rest <->
  exists q, credit_queue cq !! p = Some q /\ ready q (counters cq) k b rest.
Proof.
  intros H. unfold grantable, ready, abs. simpl. split.
  - intros (m & n & l & Hm & Hk & Hlt & Hn & Hl & Hnl).
    rewrite list_lookup_fmap in Hm. apply fmap_Some in Hm as (q & Hq & ->).
    exists q. split; [done|]. split; [apply lookup_to_gmap; [by eapply inner_wf|done]|].
    split; [done|]. exists n, l.
    split; [apply lookup_to_gmap; [by eapply ifpe_wf|done]|].
    split; [apply lookup_to_gmap; [by eapply pel_wf|done]|done].
  - intros (q & Hq & Hg & Hlt & n & l & Hn & Hl & Hnl).
    exists (to_gmap (icq_queue q)), n, l.
    rewrite list_lookup_fmap, Hq. split; [done|].
    split; [apply lookup_to_gmap; [by eapply inner_wf|done]|].
    split; [done|].
    split; [apply lookup_to_gmap; [by eapply ifpe_wf|done]|].
    split; [apply lookup_to_gmap; [by eapply pel_wf|done]|done].
Qed.

Lemma same_levels_abs (l l' : list (InnerCreditQueue B)) : Forall2 same_level l l' ->
  (fun q => to_gmap (icq_queue q)) <$> l' = (fun q => to_gmap (icq_queue q)) <$> l.
Proof. induction 1 as [|q q' l l' [Hq _] _ IH]; [done|]. rewrite !fmap_cons, IH. by rewrite Hq. Qed.

Lemma abs_idle cq cq' : cq_idle cq cq' -> abs cq' = abs cq.
Proof. intros (Hc & _ & Hl). unfold abs. by rewrite Hc, (same_levels_abs _ _ Hl). Qed.

Lemma move_gmap (m m' : LocalMap Z) k n d : wf m -> get m k = Ok n ->
  set m k (n + d) = Ok m' -> to_gmap m' = alter (Z.add d) k (to_gmap m).
Proof.
  intros Hwf Hg Hs. rewrite (set_to_gmap _ _ _ _ Hwf Hs).
  apply lookup_to_gmap in Hg; [|done]. apply map_eq. intros k'.
  destruct (decide (k = k')) as [<-|].
  - rewrite lookup_insert_eq, lookup_alter_eq, Hg. simpl. f_equal. lia.
  - by rewrite lookup_insert_ne, lookup_alter_ne.
Qed.

(** Serving an entry in the implementation is a grant of the specification. *)
Lemma served_grant lag cq b cq' : cq_inv keys false lag cq -> cq_inv keys false lag cq' ->
  cq_served cq b cq' ->
  exists p k rest, grantable (abs cq) p k b rest /\ abs cq' = sp_grant (abs cq) p k rest.
Proof.
  intros H H' (d & q & q' & Hd & _ & Hq & Hq' & Hs & Hrest & _).
  destruct Hs as (e & s & rest & _ & _ & _ & _ & Hr & Ht & _).
  exists (turn cq d), (sl_key s), rest. split; [by apply (grantable_ready lag); [|exists q]|].
  destruct Ht as [Hgm _ Hif Hgl Hpel Hifpe]. unfold abs, sp_grant. simpl.
  rewrite Hif, Hgl, Hpel. destruct Hr as (_ & _ & n & l & Hn & _ & _).
  f_equal; [|by apply (move_gmap _ _ _ n 1 (ifpe_wf _ _ _ H) Hn), Hifpe].
  apply list_eq. intros p. destruct (decide (p = turn cq d)) as [->|Hne].
  - rewrite list_lookup_alter_eq, !list_lookup_fmap, Hq, Hq'. simpl. by rewrite Hgm.
  - rewrite list_lookup_alter_ne, !list_lookup_fmap by done.
    destruct (credit_queue cq !! p) as [q1|] eqn:E1, (credit_queue cq' !! p) as [q2|] eqn:E2; simpl.
    + by destruct (Hrest p q1 q2 Hne E1 E2) as [-> _].
    + apply lookup_lt_Some in E1. apply lookup_ge_None in E2.
      rewrite (ci_levels _ _ _ _ H) in E1. rewrite (ci_levels _ _ _ _ H') in E2. lia.
    + apply lookup_lt_Some in E2. apply lookup_ge_None in E1.
      rewrite (ci_levels _ _ _ _ H') in E2. rewrite (ci_levels _ _ _ _ H) in E1. lia.
    + done.
Qed.

Lemma pop_refines_spec lag cq o cq' : cq_inv keys false lag cq -> cq_inv keys false lag cq' ->
  pop_post cq o cq' -> spec_step (abs cq) (LPop o) (abs cq').
Proof.
  intros H H' Hpost. destruct o as [b|].
  - destruct (served_grant _ _ _ _ H H' Hpost) as (p & k & rest & Hg & ->). by constructor.
  - destruct Hpost as [Hidle Hnone]. rewrite (abs_idle _ _ Hidle). constructor.
    intros p k b rest (q & Hq & Hr)%(grantable_ready lag); [|done]. by eapply (Hnone p q).
Qed.

Lemma appended_refines lag cq b k p cq' : cq_inv keys false lag cq ->
  appended cq b k p cq' -> spec_step (abs cq) (LPush b k p) (abs cq').
Proof.
  intros H (q & q' & l & Hq & Hg & Hgm & _ & _ & ->).
  apply lookup_to_gmap in Hg; [|by eapply inner_wf].
  unfold abs at 2. simpl. rewrite list_fmap_insert, Hgm.
  apply (sp_push (abs cq) b k p (to_gmap (icq_queue q))); [|done].
  simpl. by rewrite list_lookup_fmap, Hq.
Qed.

Lemma moved_abs lag cq k d cq' : cq_inv keys false lag cq -> moved cq k d cq' ->
  is_Some (sp_active (abs cq) !! k) /\ abs cq' = sp_move (abs cq) k d.
Proof.
  intros H (n & m & Hn & Hm & ->). pose proof (ifpe_wf _ _ _ H) as Hwf. split.
  - exists n. simpl. by apply lookup_to_gmap.
  - unfold abs, sp_move. simpl. by rewrite (move_gmap _ _ _ n d Hwf Hn Hm).
Qed.

Lemma push_Ok_inv lag cq b k p cq' : cq_inv keys false lag cq -> Z.of_nat p < 2 ^ 31 ->
  push cq b k (Z.of_nat p) = Ok cq' -> (p < PriorityCount)%nat /\ k ∈ keys.
Proof.
  intros H Hp Hpush. assert (p < PriorityCount)%nat as Hlt.
  { destruct (decide (p < PriorityCount)%nat) as [|Hn]; [done|].
    rewrite push_bad_priority in Hpush; [discriminate|apply H|unfold i32_ok; lia|lia]. }
  split; [done|]. destruct (level_exists _ _ _ _ _ H Hlt) as (q & Hq & Hwf).
  unfold push, push_locked in Hpush. rewrite (spin_lock_free keys lag) in Hpush by done.
  cbn [mbind res_bind] in Hpush. rewrite (wrap_small 64) in Hpush by lia.
  replace (Z.of_nat p <? Z.of_nat PriorityCount) with true in Hpush by lia.
  rewrite Nat2Z.id in Hpush. cbn [set_lock credit_queue] in Hpush.
  rewrite (at_lookup _ _ _ Hq) in Hpush. bind_inv.
  injection E0 as <-. unfold icq_push in E1. bind_inv.
  apply update_Ok in E0 as (v & _ & Hg & _).
  apply get_Ok in Hg as (i & s & Hs & Ho & Hk & _); [|apply Hwf].
  apply (iw_queue _ _ Hwf). by exists i, s.
Qed.

(** *** The simulation *)

Lemma set_limit_refines lag cq l k m : cq_inv keys false lag cq -> i32_ok l ->
  set (per_endpoint_limit (counters cq)) k l = Ok m ->
  let c := counters cq in
  let cq' := set_counters (mkCounters (in_flight c) (global_limit c) (in_flight_per_endpoint c) m) cq in
  cq_inv keys false lag cq' /\ spec_step (abs cq) (LEndpointLimit l k) (abs cq').
Proof.
  intros H Hl Hm c cq'. pose proof (pel_wf _ _ _ H) as Hwf.
  pose proof (ci_counters _ _ _ _ H) as Hc. split.
  - split; simpl; try apply H. split; simpl; try apply Hc.
    + by eapply over_set; [apply (cw_pel _ _ Hc)|].
    + intros k' l' Hl'. destruct (decide (k = k')) as [<-|Hne].
      * rewrite (get_set_eq _ _ _ _ Hwf Hm) in Hl'. by injection Hl' as <-.
      * rewrite (get_set_ne _ _ _ _ _ Hwf Hm) in Hl' by done. by eapply cw_pel_range.
  - unfold abs at 2. simpl. rewrite (set_to_gmap _ _ _ _ Hwf Hm).
    apply set_Ok in Hm as (i & s & Hs & Ho & Hk & _); [|done].
    apply (sp_endpoint_limit (abs cq) k l (sl_value s)).
    simpl. apply lookup_to_gmap; [done|]. apply get_Ok; eauto 10.
Qed.

Lemma spin_relock (cq : CreditQueue B) : cq_lock cq = false ->
  forall c, spin_unlock (set_counters c (set_lock true cq)) = set_counters c cq.
Proof. destruct cq; simpl. intros ->. done. Qed.

Lemma step_refines cq l cq' : cq_wf keys cq -> cq_step cq l cq' ->
  cq_wf keys cq' /\ spec_step (abs cq) l (abs cq').
Proof.
  intros H Hstep. destruct Hstep as [cq b k p cq' Hsz Hpush Hp|cq o cq' Hpop
    |cq k cq' Hop|cq k cq' Hop|cq l k cq' Hl Hop|cq l cq' Hl Hop].
  - destruct (push_Ok_inv 0 cq b k p cq') as [Hlt Hk]; [done..|].
    destruct (push_correct keys cq b k p) as (cq1 & Hpush' & Hwf & cq2 & Ha & ->); [done..|].
    rewrite Hpush in Hpush'. injection Hpush' as ->. split; [done|].
    apply (appended_refines 0 cq b k p cq2 H Ha).
  - destruct (pop_correct keys cq H) as (o' & cq1 & Hpop' & Hwf & Hpost).
    rewrite Hpop in Hpop'. injection Hpop' as <- <-. split; [done|].
    by apply (pop_refines_spec 0).
  - apply increment_Ok in Hop as (Hm & Hok1 & Hok2); [|apply H].
    split; [by apply (moved_wf keys 0 cq k 1)|].
    destruct (moved_abs 0 cq k 1 cq' H Hm) as [[n Hn] ->]. by econstructor.
  - apply decrement_Ok in Hop as (Hm & Hok1 & Hok2); [|apply H].
    split; [by apply (moved_wf keys 0 cq k (-1))|].
    destruct (moved_abs 0 cq k (-1) cq' H Hm) as [[n Hn] ->]. by econstructor.
  - unfold update_endpoint_limit in Hop. rewrite (spin_lock_free keys 0) in Hop by done.
    bind_inv. injection E as <-. injection Hop as <-. simpl in E0.
    rewrite spin_relock by apply H. by apply set_limit_refines.
  - unfold update_global_limit in Hop. rewrite (spin_lock_free keys 0) in Hop by done.
    injection Hop as <-. cbn [set_lock counters]. rewrite spin_relock by apply H.
    pose proof (ci_counters _ _ _ _ H) as Hc. split.
    + split; simpl; try apply H. split; simpl; try apply Hc. done.
    + apply (sp_global_limit (abs cq)).
Qed.

Lemma trace_refines cq ls cq' : cq_wf keys cq -> steps cq_step cq ls cq' ->
  cq_wf keys cq' /\ steps spec_step (abs cq) ls (abs cq').
Proof.
  intros H Hs. induction Hs as [|cq l cq1 ls cq2 Hl _ IH]; [by split; [|constructor]|].
  destruct (step_refines _ _ _ H Hl) as [H1 Hspec]. destruct (IH H1) as [H2 Hrest].
  split; [done|]. by econstructor.
Qed.
End Refinement.

(** ** Conservation, on the specification *)

Section Conservation.
Context {B : Type}.
Implicit Types (a : Spec B).

Definition label_delta (l : label B) : Z :=
  match l with
  | LPop (Some _) | LIncrement _ => 1
  | LDecrement _ => -1
  | _ => 0
  end.

Definition pushes (ls : list (label B)) : list B :=
  omap (fun l => match l with LPush b _ _ => Some b | _ => None end) ls.
Definition grants (ls : list (label B)) : list B :=
  omap (fun l => match l with LPop o => o | _ => None end) ls.

(** The entries that wait, level by level. *)
Definition level_entries (m : gmap string (list B)) : list B := concat (map_to_list m).*2.
Definition waiting a : list B := concat (level_entries <$> sp_levels a).

Lemma level_entries_insert m k l l' : m !! k = Some l ->
  exists rest, level_entries m ≡ₚ l ++ rest /\ level_entries (<[k:=l']> m) ≡ₚ l' ++ rest.
Proof.
  intros Hk. exists (level_entries (delete k m)). unfold level_entries. split.
  - rewrite <- (map_to_list_delete m k l Hk) at 1. done.
  - rewrite <- insert_delete_eq. rewrite map_to_list_insert; [done|]. apply lookup_delete_eq.
Qed.

Lemma waiting_split (ls : list (gmap string (list B))) p m : ls !! p = Some m ->
  exists rest, concat (level_entries <$> ls) ≡ₚ level_entries m ++ rest /\
    forall m', concat (level_entries <$> <[p:=m']> ls) ≡ₚ level_entries m' ++ rest.
Proof.
  intros Hp. exists (concat (level_entries <$> take p ls) ++ concat (level_entries <$> drop (S p) ls)).
  assert (forall m', concat (level_entries <$> (take p ls ++ m' :: drop (S p) ls)) ≡ₚ
    level_entries m' ++ concat (level_entries <$> take p ls) ++ concat (level_entries <$> drop (S p) ls)) as E.
  { intros m'. rewrite fmap_app, fmap_cons, concat_app. simpl.
    rewrite Permutation_app_swap_app. done. }
  split.
  - rewrite <- E. by rewrite take_drop_middle.
  - intros m'. rewrite <- E, insert_take_drop by by eapply lookup_lt_Some. done.
Qed.

Lemma alter_insert_lookup {A} (f : A -> A) (l : list A) p x : l !! p = Some x ->
  alter f p l = <[p := f x]> l.
Proof.
  intros H. apply list_eq. intros i. destruct (decide (p = i)) as [<-|].
  - rewrite list_lookup_alter_eq, list_lookup_insert_eq by by eapply lookup_lt_Some. by rewrite H.
  - by rewrite list_lookup_alter_ne, list_lookup_insert_ne.
Qed.

Lemma step_conserves a l a' : spec_step a l a' ->
  waiting a ++ pushes [l] ≡ₚ grants [l] ++ waiting a'.
Proof.
  intros H. destruct H as [a b k p m l Hm Hk|a b k p rest (m & n & l & Hm & Hk & _)|a _
    |a k n _|a k n _|a k l l0 _|a l]; simpl; rewrite ?app_nil_r; try done.
  - unfold waiting. simpl.
    destruct (waiting_split _ p m Hm) as (r & Hr & Hr').
    destruct (level_entries_insert m k l (l ++ [b]) Hk) as (r2 & H1 & H2).
    rewrite Hr, Hr', H1, H2. solve_Permutation.
  - unfold waiting. simpl. rewrite (alter_insert_lookup _ _ _ m Hm).
    destruct (waiting_split _ p m Hm) as (r & Hr & Hr').
    destruct (level_entries_insert m k (b :: rest) rest Hk) as (r2 & H1 & H2).
    rewrite Hr, Hr', H1, H2. done.
Qed.

Lemma omap_cons_app {A C} (f : A -> option C) x (l : list A) :
  omap f (x :: l) = omap f [x] ++ omap f l.
Proof. simpl. by destruct (f x). Qed.

Lemma trace_conserves a ls a' : steps spec_step a ls a' ->
  waiting a ++ pushes ls ≡ₚ grants ls ++ waiting a'.
Proof.
  induction 1 as [a|a l a1 ls a2 Hl _ IH]; [by rewrite app_nil_r|].
  unfold pushes, grants. rewrite (omap_cons_app _ l ls), (omap_cons_app _ l ls).
  fold (pushes [l]) (pushes ls) (grants [l]) (grants ls).
  rewrite app_assoc, (step_conserves _ _ _ Hl), <- !app_assoc. by rewrite IH.
Qed.

Lemma trace_in_flight a ls a' : steps spec_step a ls a' ->
  sp_in_flight a' = sp_in_flight a + foldr Z.add 0 (label_delta <$> ls).
Proof.
  induction 1 as [a|a l a1 ls a2 Hl _ IH]; simpl; [lia|]. rewrite IH.
  assert (sp_in_flight a1 = sp_in_flight a + label_delta l) as -> by (destruct Hl; simpl; lia).
  unfold fmap. lia.
Qed.

(** The global counter is the sum of the endpoints' counters. *)
Definition sp_balanced a : Prop :=
  sp_in_flight a = map_fold (fun _ v acc => v + acc) 0 (sp_active a).

Lemma map_fold_alter_sum (m : gmap string Z) k n d : m !! k = Some n ->
  map_fold (fun _ v acc => v + acc) 0 (alter (Z.add d) k m) =
  map_fold (fun _ v acc => v + acc) 0 m + d.
Proof.
  intros Hk. assert (alter (Z.add d) k m = <[k := d + n]> m) as ->.
  { apply map_eq. intros k'. destruct (decide (k = k')) as [<-|].
    - by rewrite lookup_alter_eq, lookup_insert_eq, Hk.
    - by rewrite lookup_alter_ne, lookup_insert_ne. }
  rewrite (map_fold_insert_sum (fun v => v) m k n) by done. lia.
Qed.

Lemma step_balanced a l a' : spec_step a l a' -> sp_balanced a -> sp_balanced a'.
Proof.
  unfold sp_balanced. intros H Hb.
  destruct H as [| a b k p rest (m & n & l & _ & _ & _ & Hn & _) | | a k n Hn | a k n Hn | |];
    simpl; try done; rewrite (map_fold_alter_sum _ _ n) by done; lia.
Qed.

(** No counter above its limit. *)
Definition within_limits a : Prop :=
  sp_in_flight a <= sp_global a /\
  forall k n l, sp_active a !! k = Some n -> sp_limits a !! k = Some l -> n <= l.

Definition admission_only (l : label B) : Prop :=
  match l with LPush _ _ _ | LPop _ | LDecrement _ => True | _ => False end.

Lemma step_within_limits a l a' : spec_step a l a' -> admission_only l ->
  within_limits a -> within_limits a'.
Proof.
  intros H Hl [Hg Hk]. destruct H as [|a b k p rest (m & n & l & _ & _ & Hlt & Hn & Hlim & Hnl)
    | |a k n Hn|a k n Hn| |]; try done.
  - split; simpl; [lia|]. intros k' n' l' Hn' Hl'. destruct (decide (k = k')) as [<-|].
    + rewrite lookup_alter_eq, Hn in Hn'. simpl in Hn'. injection Hn' as <-. simplify_eq. lia.
    + rewrite lookup_alter_ne in Hn' by done. by eapply Hk.
  - split; simpl; [lia|]. intros k' n' l' Hn' Hl'. destruct (decide (k = k')) as [<-|].
    + rewrite lookup_alter_eq, Hn in Hn'. simpl in Hn'. injection Hn' as <-.
      specialize (Hk _ _ _ Hn Hl'). lia.
    + rewrite lookup_alter_ne in Hn' by done. by eapply Hk.
Qed.

Lemma trace_balanced a ls a' : steps spec_step a ls a' -> sp_balanced a -> sp_balanced a'.
Proof. induction 1; eauto using step_balanced. Qed.

Lemma trace_within_limits a ls a' : steps spec_step a ls a' -> Forall admission_only ls ->
  within_limits a -> within_limits a'.
Proof.
  induction 1 as [|a l a1 ls a2 Hl _ IH]; [done|]. intros [Hadm Hall]%Forall_cons Hw.
  apply IH; [done|]. by apply (step_within_limits _ _ _ Hl).
Qed.
End Conservation.
