(* ===== verification/CreditQueueProps.v ===== *)
(** * The credit queue: construction, fairness, concurrency

    The constructor establishes the invariant; successive [pop]s share the
    service among the priorities 16 : 4 : 1 and starve none; and the counter
    [_size], which [push] updates after it releases the lock, lags behind by
    the pushes in progress and by nothing else. *)

From Stdlib Require Import ZArith Lia.
From stdpp Require Import base gmap strings list fin_maps.
From S2P Require Import Prelude Fp Config LocalMap LocalMapProps CreditQueue CreditQueueSpec.

Open Scope Z_scope.

#[local] Opaque make.

(** ** Construction *)

Lemma map_fold_all_zero {A} (f : A -> Z) (m : gmap string A) :
  map_Forall (fun _ v => f v = 0) m -> map_fold (fun _ v acc => f v + acc) 0 m = 0.
Proof.
  induction m as [|k v m Hk IH] using map_ind; [done|].
  intros [Hv Hm]%map_Forall_insert; [|done].
  rewrite map_fold_insert_L; [|intros; lia|done]. rewrite IH by done. lia.
Qed.

Section Construction.
Context (keys : list string) (Hkeys : keys_ok keys).

Lemma make_over {T} (d : T) m : make d keys = Ok m ->
  over keys m /\ (forall k v, to_gmap m !! k = Some v -> v = d) /\
  occ_at m (it_begin m) = true.
Proof using Hkeys.
  intros Hm. destruct Hkeys as [Hne Hlen Hok Hseed].
  destruct (make_built d keys m) as (Hwf & Hk & Hv); [done..|].
  split; [by split|]. split.
  - intros k v (i & s & Hs & _ & _ & <-)%lookup_to_gmap%get_Ok; [by eapply Hv|done..].
  - apply it_begin_occ. destruct keys as [|k ks]; [done|].
    apply (has_key_occ _ k), Hk, list_elem_of_here.
Qed.

Lemma icq_make_wf {B} (q : InnerCreditQueue B) : icq_make keys = Ok q ->
  icq_wf keys q /\ icq_size q = 0.
Proof using Hkeys.
  unfold icq_make. intros H. bind_inv. injection H as <-.
  destruct (make_over _ _ E) as (Ho & Hv & Hi). split; [split; simpl|]; try done.
  symmetry. apply map_fold_all_zero. intros k v ->%Hv. done.
Qed.
End Construction.

Section Init.
Context (keys : list string).
Implicit Types (a b : LocalMap Z).

Lemma over_set_total {T} (m : LocalMap T) k v : over keys m -> k ∈ keys ->
  exists m', set m k v = Ok m' /\ over keys m' /\ to_gmap m' = <[k:=v]> (to_gmap m).
Proof.
  intros Ho Hk. destruct (set_ok m k v) as [m' Hm]; [apply Ho|by apply Ho|].
  exists m'. split; [done|]. split; [by eapply over_set|]. apply set_to_gmap; [apply Ho|done].
Qed.

Lemma init_limits_spec l es a b : (forall e, e ∈ es -> e ∈ keys) ->
  over keys a -> over keys b ->
  (forall k v, to_gmap a !! k = Some v -> v = 0) ->
  (forall k v, to_gmap b !! k = Some v -> v = 0 \/ v = l) ->
  exists a' b', init_limits l es a b = Ok (a', b') /\ over keys a' /\ over keys b' /\
    (forall k v, to_gmap a' !! k = Some v -> v = 0) /\
    (forall k v, to_gmap b' !! k = Some v -> v = 0 \/ v = l) /\
    (forall k, k ∈ es \/ to_gmap b !! k = Some l -> to_gmap b' !! k = Some l).
Proof.
  revert a b. induction es as [|e es IH]; intros a b Hin Ha Hb Hza Hzb; simpl.
  { exists a, b. split; [done|]. do 4 (split; [done|]). set_solver. }
  destruct (over_set_total a e 0) as (a1 & -> & Ha1 & Ga); [done|set_solver|].
  destruct (over_set_total b e l) as (b1 & -> & Hb1 & Gb); [done|set_solver|].
  cbn [mbind res_bind].
  destruct (IH a1 b1) as (a' & b' & Hi & ? & ? & ? & ? & Hall); [set_solver|done|done|..].
  - intros k v. rewrite Ga, lookup_insert. case_decide; [congruence|eauto].
  - intros k v. rewrite Gb, lookup_insert. case_decide; [intros [= ->]; auto|eauto].
  - exists a', b'. do 5 (split; [done|]). intros k Hk. apply Hall.
    rewrite Gb, lookup_insert. case_decide as E; [by right|].
    destruct Hk as [[->|]%elem_of_cons|]; [done|by left|by right].
Qed.
End Init.

Section Make.
Context {B : Type} (keys : list string).

(** The initial state: nothing waits, nothing is active, every endpoint has
    the limit [cpu_count * 2 + extra_limit]. *)
Lemma cq_make_spec cfg cpu (cq : CreditQueue B) : keys_ok keys -> cq_make cfg keys cpu = Ok cq ->
  cq_wf keys cq /\ balanced (counters cq) /\ in_flight (counters cq) = 0 /\
  (forall k, k ∈ keys -> get_per_endpoint_limit cq k = Ok (cpu * 2 + extra_limit cfg)) /\
  sum_sizes (credit_queue cq) = 0 /\
  (size (routing cfg) <> 0%nat -> get_global_limit cq = INT_MAX).
Proof.
  intros Hk H. unfold cq_make in H. bind_inv.
  apply checked_i32_Ok in E4 as [-> _]. apply checked_i32_Ok in E5 as [-> Hmax].
  destruct (make_over keys Hk _ _ E2) as (Oa & Va & _).
  destruct (make_over keys Hk _ _ E3) as (Ob & Vb & _).
  destruct (init_limits_spec keys (cpu * 2 + extra_limit cfg) keys a2 a3)
    as (ifpe & pel & Hi & Oi & Op & Zi & Zp & Hl); [done..|naive_solver|].
  rewrite Hi in E6. injection E6 as <-. bind_inv. clear E4.
  assert (i32_ok a5) as Hgl.
  { case_decide; bind_inv; [by apply checked_i32_Ok in E5 as [-> ?]|].
    injection E5 as <-. unfold i32_ok, INT_MAX. lia. }
  injection H as <-.
  destruct (icq_make_wf keys Hk _ E) as [W0 S0], (icq_make_wf keys Hk _ E0) as [W1 S1],
    (icq_make_wf keys Hk _ E1) as [W2 S2].
  split; [|split; [|split; [done|split; [|split]]]].
  - split; simpl; try done; [by repeat (apply Forall_cons_2; [done|]); apply Forall_nil_2|unfold PriorityCount; lia|..].
    + rewrite S0, S1, S2. done.
    + split; simpl; try done; unfold i32_ok.
      * intros k n Hn. apply lookup_to_gmap, Zi in Hn as ->; [lia|apply Oi].
      * intros k n Hn. apply lookup_to_gmap, Zp in Hn; [lia|apply Op].
  - unfold balanced, total_of. simpl. symmetry. apply map_fold_all_zero.
    intros k v ->%Zi. done.
  - intros k Hin. unfold get_per_endpoint_limit. simpl.
    apply lookup_to_gmap; [apply Op|]. apply Hl. by left.
  - simpl. rewrite S0, S1, S2. done.
  - intros Hr. unfold get_global_limit. simpl. rewrite decide_False in E5 by done. by injection E5 as <-.
Qed.
End Make.

(** ** Fairness among the priorities *)

Section Fairness.
Context {B : Type} (keys : list string).
Implicit Types (cq : CreditQueue B) (p : nat).

(** Level [p] gave one entry. *)
Definition gave cq cq' p : Prop :=
  exists q q', credit_queue cq !! p = Some q /\ credit_queue cq' !! p = Some q' /\
    icq_size q' = icq_size q - 1.

(** Successive [pop]s that each serve an entry, with the levels served;
    [Inv] holds of the queue before each of them. *)
Inductive pops (Inv : CreditQueue B -> Prop) : CreditQueue B -> list nat -> CreditQueue B -> Prop :=
  | pops_nil cq : pops Inv cq [] cq
  | pops_cons cq b cq1 p ps cq' :
      Inv cq -> pop cq = Ok (Some b, cq1) -> gave cq cq1 p ->
      pops Inv cq1 ps cq' -> pops Inv cq (p :: ps) cq'.

Definition level_ready p cq : Prop := (p < PriorityCount)%nat /\ ~ level_idle cq p.
Definition saturated cq : Prop := forall p, (p < PriorityCount)%nat -> ~ level_idle cq p.

(** One served [pop], as a move of the turn. *)
Lemma pop_turn cq b cq' p : cq_wf keys cq -> pop cq = Ok (Some b, cq') -> gave cq cq' p ->
  cq_wf keys cq' /\
  exists d, (d < PriorityCount)%nat /\ p = turn cq d /\
    (forall e, (e < d)%nat -> level_idle cq (turn cq e)) /\
    (cq_it cq', remaining_rounds cq') = turn_after (cq_it cq) (remaining_rounds cq) p.
Proof.
  intros H Hpop (q & q' & Hq & Hq' & Hsz).
  destruct (pop_correct keys cq H) as (o & cq1 & Hpop' & Hwf & Hpost).
  rewrite Hpop in Hpop'. injection Hpop' as <- <-. split; [done|].
  destruct Hpost as (d & q1 & q1' & Hd & Hidle & Hq1 & Hq1' & Hs & Hrest & Ht).
  exists d. split; [done|]. assert (p = turn cq d) as ->.
  { destruct (decide (p = turn cq d)) as [|Hne]; [done|].
    destruct (Hrest p q q' Hne Hq Hq') as [_ ?]. lia. }
  done.
Qed.

Lemma turn_rank i d : (i < PriorityCount)%nat -> (d < PriorityCount)%nat ->
  ((i + d) mod PriorityCount)%nat = if decide (i + d < PriorityCount)%nat then (i + d)%nat else (i + d - PriorityCount)%nat.
Proof.
  unfold PriorityCount. intros. case_decide; [by rewrite Nat.mod_small|].
  replace (i + d)%nat with (i + d - 3 + 1 * 3)%nat at 1 by lia.
  rewrite Nat.Div0.mod_add. apply Nat.mod_small. lia.
Qed.

(** Saturated: the turn alone decides. *)
Definition next_turn (t : nat * Z) : nat * Z := turn_after t.1 t.2 t.1.
Fixpoint schedule (n : nat) (t : nat * Z) : list nat :=
  match n with O => [] | S n' => t.1 :: schedule n' (next_turn t) end.

Lemma pops_schedule cq ps cq' : cq_wf keys cq -> pops saturated cq ps cq' ->
  ps = schedule (length ps) (cq_it cq, remaining_rounds cq).
Proof.
  intros H Hp. induction Hp as [cq|cq b cq1 p ps cq' Hs Hpop Hg _ IH]; [done|].
  destruct (pop_turn _ _ _ _ H Hpop Hg) as (Hwf & d & Hd & -> & Hidle & Ht).
  assert (turn cq d = cq_it cq) as E.
  { destruct d as [|d].
    - unfold turn. rewrite Nat.add_0_r. apply Nat.mod_small, H.
    - exfalso. apply (Hs (turn cq 0)); [apply turn_lt|]. apply Hidle. lia. }
  rewrite E in *. cbn [length schedule fst]. f_equal.
  rewrite IH at 1 by done. by rewrite Ht.
Qed.

Definition count_level p (ps : list nat) : Z := Z.of_nat (length (filter (eq p) ps)).

(** All the states of the turn. *)
Definition turns : list (nat * Z) :=
  ((fun r => (0%nat, Z.of_nat r)) <$> seq 1 16) ++
  ((fun r => (1%nat, Z.of_nat r)) <$> seq 1 4) ++ [(2%nat, 1)].

Lemma turns_complete i r : (i < PriorityCount)%nat -> 1 <= r <= weight i -> (i, r) ∈ turns.
Proof.
  unfold PriorityCount, turns. intros Hi Hr. rewrite !elem_of_app, !list_elem_of_fmap.
  destruct i as [|[|[|]]]; cbn in Hr; [left|right; left|right; right|lia].
  - exists (Z.to_nat r). rewrite elem_of_seq. split; [f_equal|]; lia.
  - exists (Z.to_nat r). rewrite elem_of_seq. split; [f_equal|]; lia.
  - replace r with 1 by lia. set_solver.
Qed.

Lemma schedule_shares : Forall (fun t => forall p, (p < PriorityCount)%nat ->
  count_level p (schedule 21 t) = weight p) turns.
Proof.
  apply Forall_forall. intros t Ht p Hp.
  enough (forallb (fun t => count_level 0 (schedule 21 t) =? 16) turns &&
    forallb (fun t => count_level 1 (schedule 21 t) =? 4) turns &&
    forallb (fun t => count_level 2 (schedule 21 t) =? 1) turns = true) as H; [|by vm_compute].
  apply andb_prop in H as [[H0 H1]%andb_prop H2]. apply list_elem_of_In in Ht.
  eapply forallb_forall in H0, H1, H2; [|exact Ht..]. unfold PriorityCount in Hp.
  destruct p as [|[|[|]]]; [change (weight 0) with 16|change (weight 1) with 4|change (weight 2) with 1|]; lia.
Qed.

Lemma pops_shares cq ps cq' p : cq_wf keys cq -> pops saturated cq ps cq' ->
  length ps = 21%nat -> (p < PriorityCount)%nat -> count_level p ps = weight p.
Proof.
  intros H Hp Hl Hlt. rewrite (pops_schedule _ _ _ H Hp), Hl.
  pose proof (turns_complete _ _ (ci_it _ _ _ _ H) (ci_rounds _ _ _ _ H)) as Hin.
  pose proof (schedule_shares) as Hs. rewrite Forall_forall in Hs. by apply Hs.
Qed.

(** The pops that can pass before the turn of level [p] comes. *)
Definition wait_of (i : nat) (r : Z) p : Z :=
  if decide (i = p) then 0
  else if decide (next_it i = p) then r
  else r + weight (next_it i).

Lemma wait_of_decreases i r d p : (i < PriorityCount)%nat -> 1 <= r <= weight i ->
  (d < PriorityCount)%nat -> (p < PriorityCount)%nat ->
  (forall e, (e < d)%nat -> ((i + e) mod PriorityCount)%nat <> p) ->
  let t := ((i + d) mod PriorityCount)%nat in
  t <> p ->
  let '(i', r') := turn_after i r t in wait_of i' r' p < wait_of i r p.
Proof.
  intros Hi Hr Hd Hp Hpast t Ht.
  pose proof (Hpast 0%nat) as P0. pose proof (Hpast 1%nat) as P1. clear Hpast.
  unfold turn_after, wait_of, t, PriorityCount in *.
  destruct i as [|[|[|]]]; [..|lia]; destruct p as [|[|[|]]]; [..|lia| | | |lia| | | |lia];
    destruct d as [|[|[|]]]; try lia; cbn in *; try lia;
    repeat case_match; repeat case_decide; simplify_eq; cbn in *; try lia.
Qed.

Lemma pops_wait cq ps cq' p : cq_wf keys cq -> pops (level_ready p) cq ps cq' -> p ∉ ps ->
  Z.of_nat (length ps) <= wait_of (cq_it cq) (remaining_rounds cq) p.
Proof.
  intros H Hp. induction Hp as [cq|cq b cq1 t ps cq' [Hlt Hr] Hpop Hg _ IH]; intros Hin.
  { pose proof (ci_rounds _ _ _ _ H). pose proof (weight_pos _ (next_it_lt (cq_it cq))).
    unfold wait_of. simpl. repeat case_decide; lia. }
  destruct (pop_turn _ _ _ _ H Hpop Hg) as (Hwf & d & Hd & -> & Hidle & Ht).
  apply not_elem_of_cons in Hin as [Hne Hin]. specialize (IH Hwf Hin).
  pose proof (wait_of_decreases (cq_it cq) (remaining_rounds cq) d p (ci_it _ _ _ _ H)
    (ci_rounds _ _ _ _ H) Hd Hlt) as Hdec. cbn zeta in Hdec. fold (turn cq d) in Hdec.
  rewrite <- Ht in Hdec. simpl length. assert (wait_of (cq_it cq1) (remaining_rounds cq1) p
    < wait_of (cq_it cq) (remaining_rounds cq) p); [|lia].
  apply Hdec; [|done]. intros e He Heq. apply Hr. rewrite <- Heq. by apply Hidle.
Qed.

Lemma wait_of_bound i r p : (i < PriorityCount)%nat -> 1 <= r <= weight i -> wait_of i r p <= 20.
Proof.
  unfold PriorityCount, wait_of. intros. destruct i as [|[|[|]]]; [..|lia]; cbn in *;
    repeat case_decide; lia.
Qed.
End Fairness.

(** ** Concurrent use *)

Section Concurrency.
Context {B : Type} (keys : list string).
Implicit Types (cq : CreditQueue B).

(** The shared queue, and the threads between the unlock of a [push] and
    its [_size.fetch_add(1)]. Everything done under the lock is one step. *)
Definition shared : Type := CreditQueue B * nat.

Inductive thread_step : shared -> shared -> Prop :=
  | th_push_locked cq n b k p cq' :
      (p < PriorityCount)%nat -> k ∈ keys -> sum_sizes (credit_queue cq) < 2 ^ 62 - 1 ->
      push_locked cq b k (Z.of_nat p) = Ok cq' ->
      thread_step (cq, n) (cq', S n)
  | th_push_counted cq n : thread_step (cq, S n) (fetch_add_size 1 cq, n)
  | th_pop_locked cq n o cq' : pop_locked cq = Ok (o, cq') -> thread_step (cq, n) (cq', n)
  | th_increment cq n k cq' : increment_in_flight cq k = Ok cq' -> thread_step (cq, n) (cq', n)
  | th_decrement cq n k cq' : decrement_in_flight cq k = Ok cq' -> thread_step (cq, n) (cq', n)
  | th_endpoint_limit cq n l k cq' : i32_ok l ->
      update_endpoint_limit cq l k = Ok cq' -> thread_step (cq, n) (cq', n)
  | th_global_limit cq n l cq' : i32_ok l ->
      update_global_limit cq l = Ok cq' -> thread_step (cq, n) (cq', n).

Definition shared_inv (s : shared) : Prop := cq_inv keys false (Z.of_nat s.2) s.1.

Lemma endpoint_limit_inv lag cq l k cq' : cq_inv keys false lag cq -> i32_ok l ->
  update_endpoint_limit cq l k = Ok cq' -> cq_inv keys false lag cq'.
Proof.
  intros H Hl Hop. unfold update_endpoint_limit in Hop.
  rewrite (spin_lock_free keys lag) in Hop by done. bind_inv. injection E as <-.
  injection Hop as <-. simpl in E0. rewrite spin_relock by apply H.
  by apply (set_limit_refines keys lag cq l k).
Qed.

Lemma global_limit_inv lag cq l cq' : cq_inv keys false lag cq -> i32_ok l ->
  update_global_limit cq l = Ok cq' -> cq_inv keys false lag cq'.
Proof.
  intros H Hl Hop. unfold update_global_limit in Hop.
  rewrite (spin_lock_free keys lag) in Hop by done. injection Hop as <-.
  cbn [set_lock counters]. rewrite spin_relock by apply H.
  pose proof (ci_counters _ _ _ _ H) as Hc.
  split; simpl; try apply H. split; simpl; try apply Hc. done.
Qed.

Lemma thread_step_inv s s' : thread_step s s' -> shared_inv s -> shared_inv s'.
Proof.
  unfold shared_inv. intros Hst H. destruct Hst as [cq n b k p cq' Hp Hk Hsz Hop|cq n
    |cq n o cq' Hop|cq n k cq' Hop|cq n k cq' Hop|cq n l k cq' Hl Hop|cq n l cq' Hl Hop];
    cbn [fst snd] in *.
  - destruct (push_locked_correct keys (Z.of_nat n) cq b k p H Hp Hk Hsz) as (cq1 & Hop' & Hi & _).
    rewrite Hop in Hop'. injection Hop' as <-.
    by replace (Z.of_nat (S n)) with (Z.of_nat n + 1) by lia.
  - replace (Z.of_nat n) with (Z.of_nat (S n) - 1) by lia. by apply cq_inv_size.
  - destruct (pop_locked_correct keys _ cq H) as (o' & cq1 & Hop' & Hi & _).
    rewrite Hop in Hop'. by injection Hop' as <- <-.
  - apply increment_Ok in Hop as (Hm & ? & ?); [|apply H]. by apply (moved_wf keys _ cq k 1).
  - apply decrement_Ok in Hop as (Hm & ? & ?); [|apply H]. by apply (moved_wf keys _ cq k (-1)).
  - by eapply endpoint_limit_inv.
  - by eapply global_limit_inv.
Qed.

Lemma thread_steps_inv s s' : rtc thread_step s s' -> shared_inv s -> shared_inv s'.
Proof. induction 1; eauto using thread_step_inv. Qed.

(** A [pop] that finds [_size = 0] leaves nothing behind but the pushes in
    progress. *)
Lemma size_read cq n : shared_inv (cq, n) ->
  Z.of_nat n < 2 ^ 62 ->
  cq_size cq = u64 (sum_sizes (credit_queue cq) - Z.of_nat n) /\
  (cq_size cq = 0 -> sum_sizes (credit_queue cq) = Z.of_nat n).
Proof.
  intros H Hn. pose proof (ci_size _ _ _ _ H) as Hs. cbn [fst snd] in Hs. split; [done|].
  intros Hz. rewrite Hs in Hz. pose proof (sum_sizes_nonneg keys _ (ci_inner _ _ _ _ H)) as Hge.
  pose proof (sum_sizes_bound _ _ _ _ H) as Hlt.
  cbn [fst] in *. unfold wrap in Hz. apply Z.mod_divide in Hz as [c Hc]; [|lia]. nia.
Qed.
End Concurrency.

(** ** Properties *)

(** A leaf service on four cores, with no over-commitment. *)
Definition ex_cfg : Config := mkConfig 64 16 4096 1 8080 9090 "127.0.0.1" 8000 "leaf" ∅ ∅
  false false false None None (Some 4) (Some (f32_of_Z 0)) 0
  default_aimd_err_d default_aimd_err_i default_aimd_adj_d default_aimd_adj_i default_safe_multiply.

Definition ex_queue : CreditQueue nat := Eval vm_compute in
  match cq_make ex_cfg ex_keys 4 with Ok q => q | Err _ => mkCQ [] [] 0 0 false 0 (mkCounters 0 0 (mkLocalMap [] 0 0 0) (mkLocalMap [] 0 0 0)) end.

Lemma ex_queue_made : cq_make ex_cfg ex_keys 4 = Ok ex_queue.
Proof. by vm_compute. Qed.

Lemma ex_queue_wf : cq_wf ex_keys ex_queue.
Proof. apply (cq_make_spec ex_keys ex_cfg 4 ex_queue ex_keys_ok ex_queue_made). Qed.

(** Two entries pushed. *)
Definition ex_pushed : CreditQueue nat := Eval vm_compute in
  match push ex_queue 1%nat "geo" 1 with
  | Ok q => match push q 2%nat "users" 0 with Ok q' => q' | Err _ => q end
  | Err _ => ex_queue end.

Definition ex_popped : CreditQueue nat := Eval vm_compute in
  match pop ex_pushed with Ok (_, q) => q | Err _ => ex_pushed end.

Lemma ex_trace : steps cq_step ex_queue
  [LPush 1%nat "geo" 1; LPush 2%nat "users" 0; LPop (Some 2%nat)]%string ex_popped.
Proof.
  eapply steps_cons; [apply (st_push _ 1%nat "geo" 1%nat); [done|vm_compute; reflexivity|done]|].
  eapply steps_cons; [apply (st_push _ 2%nat "users" 0%nat); [done|vm_compute; reflexivity|done]|].
  eapply steps_cons; [apply st_pop; vm_compute; reflexivity|]. apply steps_nil.
Qed.

(** C1: The credit queue refines its specification: every execution of the
    operations of a well-formed queue is an execution of the specification,
    in which a grant takes the front entry of an endpoint below its limit
    while the service is below the global limit, and [pop] answers nothing
    only when no waiting entry may be granted. *)
Theorem credit_queue_refines {B} keys (cq : CreditQueue B) ls cq' :
  cq_wf keys cq -> steps cq_step cq ls cq' ->
  cq_wf keys cq' /\ steps spec_step (abs cq) ls (abs cq').
Proof. apply trace_refines. Qed.

Lemma credit_queue_refines_witness : cq_wf ex_keys ex_popped /\
  steps spec_step (abs ex_queue)
    [LPush 1%nat "geo" 1; LPush 2%nat "users" 0; LPop (Some 2%nat)]%string (abs ex_popped).
Proof. apply (credit_queue_refines ex_keys); [exact ex_queue_wf|exact ex_trace]. Defined.

(** C9: Conservation: over any execution, the entries that waited and the
    entries pushed are, as multisets, the entries granted and the entries
    that still wait: none is lost, none is granted twice. The number of
    active requests moves by the grants and increments less the decrements,
    and stays the sum of the endpoints' counters. *)
Theorem credit_queue_conserves {B} keys (cq : CreditQueue B) ls cq' :
  cq_wf keys cq -> balanced (counters cq) -> steps cq_step cq ls cq' ->
  waiting (abs cq) ++ pushes ls ≡ₚ grants ls ++ waiting (abs cq') /\
  in_flight (counters cq') = in_flight (counters cq) + foldr Z.add 0 (label_delta <$> ls) /\
  balanced (counters cq').
Proof.
  intros H Hb Hs. destruct (trace_refines keys _ _ _ H Hs) as [_ Hspec].
  split; [by apply trace_conserves|]. split; [by apply trace_in_flight in Hspec|].
  by apply (trace_balanced _ _ _ Hspec).
Qed.

Lemma credit_queue_conserves_witness :
  let ls := [LPush 1%nat "geo" 1; LPush 2%nat "users" 0; LPop (Some 2%nat)]%string in
  waiting (abs ex_queue) ++ pushes ls ≡ₚ grants ls ++ waiting (abs ex_popped) /\
  in_flight (counters ex_popped) = 0 + foldr Z.add 0 (label_delta <$> ls) /\
  balanced (counters ex_popped).
Proof.
  apply (credit_queue_conserves ex_keys); [exact ex_queue_wf|by vm_compute|exact ex_trace].
Defined.

(** C10: Admission control: as long as the limits are not changed and no
    slot is taken outside [pop], no execution of pushes, pops and releases
    brings the number of active requests above the global limit, nor an
    endpoint's above its own. *)
Theorem credit_queue_within_limits {B} keys (cq : CreditQueue B) ls cq' :
  cq_wf keys cq -> within_limits (abs cq) -> Forall admission_only ls ->
  steps cq_step cq ls cq' -> within_limits (abs cq').
Proof.
  intros H Hw Hl Hs. destruct (trace_refines keys _ _ _ H Hs) as [_ Hspec].
  by apply (trace_within_limits _ _ _ Hspec).
Qed.

Lemma ex_within_limits : within_limits (abs ex_queue).
Proof.
  split; [done|]. intros k n l Hn Hl. simpl in Hn, Hl.
  assert (n = 0) as ->.
  { revert Hn. apply map_Forall_lookup_1 with (m := to_gmap (in_flight_per_endpoint (counters ex_queue))) (P := fun _ n => n = 0).
    apply (bool_decide_unpack _). by vm_compute. }
  assert (l = 8) as ->; [|done]. revert Hl.
  apply map_Forall_lookup_1 with (m := to_gmap (per_endpoint_limit (counters ex_queue))) (P := fun _ n => n = 8).
  apply (bool_decide_unpack _). by vm_compute.
Qed.

Lemma credit_queue_within_limits_witness : within_limits (abs ex_popped).
Proof.
  apply (credit_queue_within_limits ex_keys ex_queue
    [LPush 1%nat "geo" 1; LPush 2%nat "users" 0; LPop (Some 2%nat)]%string);
    [exact ex_queue_wf|exact ex_within_limits| |exact ex_trace].
  repeat (apply Forall_cons_2; [done|]); apply Forall_nil_2.
Defined.

(** C11: [pop] always returns on a well-formed queue, leaves it well formed,
    and either serves the front entry of the first priority, in the order of
    the turn, that has an endpoint to serve, or changes nothing because no
    endpoint of any priority can be served. *)
Theorem credit_queue_pop {B} keys (cq : CreditQueue B) : cq_wf keys cq ->
  exists o cq', pop cq = Ok (o, cq') /\ cq_wf keys cq' /\ pop_post cq o cq'.
Proof. apply pop_correct. Qed.

Lemma credit_queue_pop_witness :
  exists o cq', pop ex_pushed = Ok (o, cq') /\ cq_wf ex_keys cq' /\ pop_post ex_pushed o cq'.
Proof.
  apply credit_queue_pop. apply (trace_refines ex_keys ex_queue
    [LPush 1%nat "geo" 1; LPush 2%nat "users" 0]%string ex_pushed); [exact ex_queue_wf|].
  eapply steps_cons; [apply (st_push _ 1%nat "geo" 1%nat); [done|vm_compute; reflexivity|done]|].
  eapply steps_cons; [apply (st_push _ 2%nat "users" 0%nat); [done|vm_compute; reflexivity|done]|].
  apply steps_nil.
Defined.

(** [push] accepts exactly the three priorities: below 3 it appends the
    entry to its endpoint's queue; with any other value it throws. *)
Theorem credit_queue_push {B} keys (cq : CreditQueue B) b k pr :
  cq_wf keys cq -> i32_ok pr -> k ∈ keys -> sum_sizes (credit_queue cq) < 2 ^ 62 - 1 ->
  if decide (0 <= pr < 3)
  then exists cq', push cq b k pr = Ok cq' /\ cq_wf keys cq' /\ pushed cq b k (Z.to_nat pr) cq'
  else push cq b k pr = Err (Throw OutOfRange).
Proof.
  intros H Hpr Hk Hsz. case_decide as Hp.
  - pose proof (push_correct keys cq b k (Z.to_nat pr)) as Hp'.
    rewrite Z2Nat.id in Hp' by lia. apply Hp'; [done|unfold PriorityCount; lia|done|done].
  - apply push_bad_priority; [apply H|done|done].
Qed.

Lemma credit_queue_push_witness :
  push ex_queue 7%nat "geo" 3 = Err (Throw OutOfRange) /\
  exists cq', push ex_queue 7%nat "geo" 2 = Ok cq' /\ cq_wf ex_keys cq' /\ pushed ex_queue 7%nat "geo" 2 cq'.
Proof.
  split.
  - apply (credit_queue_push ex_keys ex_queue 7%nat "geo" 3 ex_queue_wf); [by split|apply (bool_decide_unpack _); by vm_compute|done].
  - apply (credit_queue_push ex_keys ex_queue 7%nat "geo" 2 ex_queue_wf); [by split|apply (bool_decide_unpack _); by vm_compute|done].
Defined.

(** C18: Weighted round robin: while every priority has an entry that can be
    served, any 21 successive grants are 16 of the first priority, 4 of the
    second and 1 of the third, from whatever point of the turn they start. *)
Theorem credit_queue_shares {B} keys (cq : CreditQueue B) ps cq' p :
  cq_wf keys cq -> pops saturated cq ps cq' -> length ps = 21%nat ->
  (p < PriorityCount)%nat -> count_level p ps = weight p.
Proof. intros H. by apply (pops_shares keys). Qed.

(** Runs of [pop], checked by evaluation: endpoint [k] is ready at every
    level, and the level served is the one whose size drops. *)
Definition ready_b {B} (k : string) (cq : CreditQueue B) (p : nat) : bool :=
  match credit_queue cq !! p with
  | Some q =>
      match get (icq_queue q) k, get (in_flight_per_endpoint (counters cq)) k,
        get (per_endpoint_limit (counters cq)) k with
      | Ok (_ :: _), Ok n, Ok l => (in_flight (counters cq) <? global_limit (counters cq)) && (n <? l)
      | _, _, _ => false
      end
  | None => false
  end.

Definition gave_b {B} (cq cq' : CreditQueue B) (p : nat) : bool :=
  match credit_queue cq !! p, credit_queue cq' !! p with
  | Some q, Some q' => icq_size q' =? icq_size q - 1
  | _, _ => false
  end.

Fixpoint run_pops {B} (k : string) (cq : CreditQueue B) (ps : list nat) : option (CreditQueue B) :=
  match ps with
  | [] => Some cq
  | p :: ps' =>
      match pop cq with
      | Ok (Some _, cq1) =>
          if forallb (ready_b k cq) (seq 0 PriorityCount) && gave_b cq cq1 p
          then run_pops k cq1 ps' else None
      | _ => None
      end
  end.

Lemma ready_b_not_idle {B} k (cq : CreditQueue B) p : ready_b k cq p = true -> ~ level_idle cq p.
Proof.
  unfold ready_b. destruct (credit_queue cq !! p) as [q|] eqn:Hq; [|discriminate].
  destruct (get (icq_queue q) k) as [[|b rest]|] eqn:Hg; [discriminate| |discriminate].
  destruct (get (in_flight_per_endpoint _) k) as [n|] eqn:Hn; [|discriminate].
  destruct (get (per_endpoint_limit _) k) as [l|] eqn:Hl; [|discriminate].
  intros [H1 H2]%andb_prop Hidle. apply (Hidle q Hq k b rest).
  split; [done|]. split; [lia|]. exists n, l. split; [done|]. split; [done|lia].
Qed.

Lemma run_pops_sound {B} k (cq : CreditQueue B) ps cq' :
  run_pops k cq ps = Some cq' -> pops saturated cq ps cq'.
Proof.
  revert cq. induction ps as [|p ps IH]; intros cq; cbn [run_pops].
  { intros [= ->]. constructor. }
  destruct (pop cq) as [[[b|] cq1]|] eqn:Hpop; [|discriminate..].
  destruct (_ && _) eqn:E; [|discriminate]. intros Hrun. apply andb_prop in E as [E1 E2].
  apply (pops_cons _ cq b cq1 p ps cq'); [|done| |by apply IH].
  - intros p' Hp'. apply (ready_b_not_idle k). eapply forallb_forall in E1; [exact E1|].
    apply in_seq. lia.
  - unfold gave_b in E2. destruct (credit_queue cq !! p) as [q|] eqn:Hq; [|discriminate].
    destruct (credit_queue cq1 !! p) as [q'|] eqn:Hq'; [|discriminate].
    exists q, q'. split; [done|]. split; [done|lia].
Qed.

Lemma pops_impl {B} (P Q : CreditQueue B -> Prop) cq ps cq' : (forall cq, P cq -> Q cq) ->
  pops P cq ps cq' -> pops Q cq ps cq'.
Proof. intros HPQ. induction 1; econstructor; eauto. Qed.

(** A queue with a limit of 108 and entries of one endpoint at each level. *)
Fixpoint push_n (n : nat) (pr : Z) (cq : CreditQueue nat) : CreditQueue nat :=
  match n with
  | O => cq
  | S n' => match push cq n "geo" pr with Ok q => push_n n' pr q | Err _ => cq end
  end.
Definition ex_cfg_wide : Config := mkConfig 64 16 4096 1 8080 9090 "127.0.0.1" 8000 "leaf" ∅ ∅
  false false false None None (Some 4) (Some (f32_of_Z 0)) 100
  default_aimd_err_d default_aimd_err_i default_aimd_adj_d default_aimd_adj_i default_safe_multiply.
Definition ex_busy : CreditQueue nat := Eval vm_compute in
  match cq_make ex_cfg_wide ex_keys 4 with
  | Ok q => push_n 20 0 (push_n 6 1 (push_n 3 2 q))
  | Err _ => ex_queue
  end.
Definition ex_busy_after : CreditQueue nat := Eval vm_compute in
  match run_pops "geo" ex_busy (schedule 21 (0%nat, 16)) with Some q => q | None => ex_busy end.

Lemma push_n_wf n pr cq : cq_wf ex_keys cq -> 0 <= pr < 3 ->
  sum_sizes (credit_queue cq) + Z.of_nat n < 2 ^ 61 -> cq_wf ex_keys (push_n n pr cq).
Proof.
  revert cq. induction n as [|n IH]; intros cq H Hp Hs; [done|]. cbn [push_n].
  destruct (push_correct ex_keys cq (S n) "geo" (Z.to_nat pr) H) as (cq' & Hpush & Hwf & cq1 & Ha & ->);
    [unfold PriorityCount; lia|apply (bool_decide_unpack _); by vm_compute|lia|].
  rewrite Z2Nat.id in Hpush by lia. rewrite Hpush. apply IH; [done|done|].
  destruct Ha as (q & q' & l & Hq & _ & _ & _ & Hsz & ->). simpl.
  rewrite (sum_sizes_insert _ _ q q' Hq). lia.
Qed.

Lemma ex_busy_wf : cq_wf ex_keys ex_busy.
Proof.
  destruct (cq_make (B:=nat) ex_cfg_wide ex_keys 4) as [q|] eqn:E; [|by vm_compute in E].
  destruct (cq_make_spec ex_keys ex_cfg_wide 4 q ex_keys_ok E) as (Hwf & _ & _ & _ & Hz & _).
  assert (ex_busy = push_n 20 0 (push_n 6 1 (push_n 3 2 q))) as ->.
  { vm_compute in E. injection E as <-. by vm_compute. }
  vm_compute in E. injection E as <-.
  apply push_n_wf; [apply push_n_wf; [apply push_n_wf|..]|..]; [exact Hwf|by vm_compute..].
Qed.

Lemma ex_busy_run : pops saturated ex_busy (schedule 21 (0%nat, 16)) ex_busy_after.
Proof. apply (run_pops_sound "geo"). by vm_compute. Qed.

Lemma credit_queue_shares_witness :
  count_level 1 (schedule 21 (0%nat, 16)) = weight 1 /\ 4 = weight 1.
Proof.
  split; [|done].
  apply (credit_queue_shares ex_keys ex_busy _ ex_busy_after); [exact ex_busy_wf|exact ex_busy_run|done|].
  unfold PriorityCount. lia.
Defined.

(** C19: No starvation: a priority that has an entry to serve before each of
    21 successive grants is served by one of them. *)
Theorem credit_queue_no_starvation {B} keys (cq : CreditQueue B) ps cq' p :
  cq_wf keys cq -> pops (level_ready p) cq ps cq' -> (21 <= length ps)%nat -> p ∈ ps.
Proof.
  intros H Hp Hl. destruct (decide (p ∈ ps)) as [|Hn]; [done|].
  pose proof (pops_wait keys _ _ _ _ H Hp Hn).
  pose proof (wait_of_bound _ _ p (ci_it _ _ _ _ H) (ci_rounds _ _ _ _ H)). lia.
Qed.

Lemma credit_queue_no_starvation_witness : 2%nat ∈ schedule 21 (0%nat, 16).
Proof.
  apply (credit_queue_no_starvation ex_keys ex_busy _ ex_busy_after); [exact ex_busy_wf| |done].
  eapply pops_impl; [|exact ex_busy_run]. intros cq Hs. split; [unfold PriorityCount; lia|].
  apply Hs. unfold PriorityCount. lia.
Defined.

(** C20: Whatever the interleaving of threads that push, pop and move
    counters, the invariant of the shared queue holds: [_size] is the number
    of waiting entries less the pushes that have not counted theirs yet,
    modulo [2^64], so that a [pop] that reads 0 misses at most those. *)
Theorem credit_queue_concurrent {B} keys (cq cq' : CreditQueue B) n :
  cq_wf keys cq -> rtc (thread_step keys) (cq, 0%nat) (cq', n) -> Z.of_nat n < 2 ^ 62 ->
  cq_inv keys false (Z.of_nat n) cq' /\
  cq_size cq' = u64 (sum_sizes (credit_queue cq') - Z.of_nat n) /\
  (cq_size cq' = 0 -> sum_sizes (credit_queue cq') = Z.of_nat n).
Proof.
  intros H Hs Hn. pose proof (thread_steps_inv keys _ _ Hs H) as Hi.
  split; [exact Hi|]. by apply (size_read keys cq' n).
Qed.

Definition ex_push_locked : CreditQueue nat := Eval vm_compute in
  match push_locked ex_queue 1%nat "geo" 1 with Ok q => q | Err _ => ex_queue end.
Definition ex_race : CreditQueue nat := Eval vm_compute in
  match pop_locked ex_push_locked with Ok (_, q) => q | Err _ => ex_queue end.

(** A pop that overtakes the count of a push leaves [_size] at [2^64 - 1]
    until the push counts. *)
Lemma credit_queue_concurrent_witness :
  cq_size ex_race = 2 ^ 64 - 1 /\ cq_size ex_race = u64 (sum_sizes (credit_queue ex_race) - 1).
Proof.
  split; [by vm_compute|].
  apply (credit_queue_concurrent ex_keys ex_queue ex_race 1); [exact ex_queue_wf| |done].
  eapply rtc_l; [|eapply rtc_l; [|apply rtc_refl]].
  - apply (th_push_locked ex_keys ex_queue 0 1%nat "geo" 1 ex_push_locked);
      [unfold PriorityCount; lia|apply (bool_decide_unpack _); by vm_compute|done|by vm_compute].
  - apply (th_pop_locked ex_keys ex_push_locked 1 (Some 1%nat) ex_race). by vm_compute.
Defined.

(** The constructor yields a well-formed empty queue: no active request,
    every endpoint at the limit [cpu_count * 2 + extra_limit], and no global
    limit for a service that calls others. *)
Theorem credit_queue_constructor {B} keys cfg cpu (cq : CreditQueue B) :
  keys_ok keys -> cq_make cfg keys cpu = Ok cq ->
  cq_wf keys cq /\ balanced (counters cq) /\ in_flight (counters cq) = 0 /\
  (forall k, k ∈ keys -> get_per_endpoint_limit cq k = Ok (cpu * 2 + extra_limit cfg)) /\
  sum_sizes (credit_queue cq) = 0 /\
  (size (routing cfg) <> 0%nat -> get_global_limit cq = INT_MAX).
Proof. apply cq_make_spec. Qed.

Lemma credit_queue_constructor_witness :
  cq_wf ex_keys ex_queue /\ get_per_endpoint_limit ex_queue "geo" = Ok 8.
Proof.
  destruct (credit_queue_constructor ex_keys ex_cfg 4 ex_queue ex_keys_ok ex_queue_made)
    as (H & _ & _ & Hl & _). split; [exact H|]. apply (Hl "geo").
  apply (bool_decide_unpack _). by vm_compute.
Defined.
