(* ===== verification/World.v ===== *)
(** * The state of a thread, and the ring: [include/state.h],
    [src/ring_wrapper.cc]

    The objects a thread owns, the virtual calls on its connections, and the
    submissions to io_uring. The kernel is the environment: what is submitted
    is a list of entries, each with its [UserData]; completions arrive as
    arguments of the event loop. *)

From Stdlib Require Import ZArith Lia Ascii.
From stdpp Require Import base gmap strings list fin_maps.
From S2P Require Import Prelude Fp Config Buffers PicoHttp RpcMessage RpcMapper Queues LocalMap Stats Ingress Connection Pool Http1 Http2 CreditQueue.

Open Scope Z_scope.

(** ** Submissions *)

Inductive Sqe :=
  | SqAccept (fd : Z) (ud : UserData)
  | SqRecvMultishot (fd : Z) (ud : UserData)
  | SqSend (fd : Z) (bytes : list Z) (ud : UserData)
  | SqConnect (fd : Z) (a : Addr) (ud : UserData)
  | SqClose (fd : Z) (ud : UserData)
  | SqRecvmsgMultishot (fd : Z) (ud : UserData)
  | SqSendmsg (fd : Z) (ud : UserData).

Definition set_ud_op (op : Operation) (ud : UserData) : UserData :=
  mkUserData (ud_buffer ud) (in_ring ud) (ud_listener ud) (ud_conn ud) op (ud_index ud) (udp_type ud) (accept_addr ud).
Definition set_ud_conn (p : option nat) (ud : UserData) : UserData :=
  mkUserData (ud_buffer ud) (in_ring ud) (ud_listener ud) p (ud_op ud) (ud_index ud) (udp_type ud) (accept_addr ud).
Definition set_ud_listener (l : option nat) (ud : UserData) : UserData :=
  mkUserData (ud_buffer ud) (in_ring ud) l (ud_conn ud) (ud_op ud) (ud_index ud) (udp_type ud) (accept_addr ud).
Definition set_ud_accept_addr (a : Addr) (ud : UserData) : UserData :=
  mkUserData (ud_buffer ud) (in_ring ud) (ud_listener ud) (ud_conn ud) (ud_op ud) (ud_index ud) (udp_type ud) a.

(** [set_user_data]: the last check before an entry is in the ring. *)
Definition check_ud (ud : UserData) : res unit :=
  fatal_if (match ud_op ud with OP_CLEAR => true | _ => false end).

(** ** State

    [HdrHistogram] is a third-party type. A listener is named by its type in
    a [UserData] (0 INGRESS, 1 EGRESS). *)

Class HdrHistogram := {
  Hist : Type;
  hdr_record_value : Hist -> Z -> Hist;
  hdr_reset : Hist -> Hist
}.

Section World.
Context `{Nghttp2} `{HdrHistogram}.

Record World := mkWorld {
  w_conns : gmap nat (Connection session);
  w_ctx : Ctx;
  w_bm : BufferManager;
  w_ring : list Sqe;
  w_ppm : PPMQueue;
  w_in_local : Z;
  w_credits : CreditQueue Buffer;
  w_last_rtt : LocalMap Z;
  w_drops : Z;
  w_util : Utilization Hist;
  w_ingress_pool : ConnectionPool;
  w_routes : Routes;
  w_listeners : ByType Listener;
  w_sockfd : Z
}.

Definition set_w_conns x w := mkWorld x (w_ctx w) (w_bm w) (w_ring w) (w_ppm w) (w_in_local w) (w_credits w)
  (w_last_rtt w) (w_drops w) (w_util w) (w_ingress_pool w) (w_routes w) (w_listeners w) (w_sockfd w).
Definition set_w_ctx x w := mkWorld (w_conns w) x (w_bm w) (w_ring w) (w_ppm w) (w_in_local w) (w_credits w)
  (w_last_rtt w) (w_drops w) (w_util w) (w_ingress_pool w) (w_routes w) (w_listeners w) (w_sockfd w).
Definition set_w_bm x w := mkWorld (w_conns w) (w_ctx w) x (w_ring w) (w_ppm w) (w_in_local w) (w_credits w)
  (w_last_rtt w) (w_drops w) (w_util w) (w_ingress_pool w) (w_routes w) (w_listeners w) (w_sockfd w).
Definition set_w_ring x w := mkWorld (w_conns w) (w_ctx w) (w_bm w) x (w_ppm w) (w_in_local w) (w_credits w)
  (w_last_rtt w) (w_drops w) (w_util w) (w_ingress_pool w) (w_routes w) (w_listeners w) (w_sockfd w).
Definition set_w_ppm x w := mkWorld (w_conns w) (w_ctx w) (w_bm w) (w_ring w) x (w_in_local w) (w_credits w)
  (w_last_rtt w) (w_drops w) (w_util w) (w_ingress_pool w) (w_routes w) (w_listeners w) (w_sockfd w).
Definition set_w_in_local x w := mkWorld (w_conns w) (w_ctx w) (w_bm w) (w_ring w) (w_ppm w) x (w_credits w)
  (w_last_rtt w) (w_drops w) (w_util w) (w_ingress_pool w) (w_routes w) (w_listeners w) (w_sockfd w).
Definition set_w_credits x w := mkWorld (w_conns w) (w_ctx w) (w_bm w) (w_ring w) (w_ppm w) (w_in_local w) x
  (w_last_rtt w) (w_drops w) (w_util w) (w_ingress_pool w) (w_routes w) (w_listeners w) (w_sockfd w).
Definition set_w_last_rtt x w := mkWorld (w_conns w) (w_ctx w) (w_bm w) (w_ring w) (w_ppm w) (w_in_local w) (w_credits w)
  x (w_drops w) (w_util w) (w_ingress_pool w) (w_routes w) (w_listeners w) (w_sockfd w).
Definition set_w_drops x w := mkWorld (w_conns w) (w_ctx w) (w_bm w) (w_ring w) (w_ppm w) (w_in_local w) (w_credits w)
  (w_last_rtt w) x (w_util w) (w_ingress_pool w) (w_routes w) (w_listeners w) (w_sockfd w).
Definition set_w_util x w := mkWorld (w_conns w) (w_ctx w) (w_bm w) (w_ring w) (w_ppm w) (w_in_local w) (w_credits w)
  (w_last_rtt w) (w_drops w) x (w_ingress_pool w) (w_routes w) (w_listeners w) (w_sockfd w).
Definition set_w_ingress_pool x w := mkWorld (w_conns w) (w_ctx w) (w_bm w) (w_ring w) (w_ppm w) (w_in_local w) (w_credits w)
  (w_last_rtt w) (w_drops w) (w_util w) x (w_routes w) (w_listeners w) (w_sockfd w).
Definition set_w_routes x w := mkWorld (w_conns w) (w_ctx w) (w_bm w) (w_ring w) (w_ppm w) (w_in_local w) (w_credits w)
  (w_last_rtt w) (w_drops w) (w_util w) (w_ingress_pool w) x (w_listeners w) (w_sockfd w).
Definition set_w_listeners x w := mkWorld (w_conns w) (w_ctx w) (w_bm w) (w_ring w) (w_ppm w) (w_in_local w) (w_credits w)
  (w_last_rtt w) (w_drops w) (w_util w) (w_ingress_pool w) (w_routes w) x (w_sockfd w).

Abbreviation MW := (M World).

(** The components, as parts of the state. *)
Definition on_bm {A} (f : BufferManager -> res (A * BufferManager)) : MW A := zoom w_bm set_w_bm f.
Definition on_bm_ (f : BufferManager -> res BufferManager) : MW unit := on_bm (fun b => b ← f b; Ok (tt, b)).
Definition on_credits {A} (f : CreditQueue Buffer -> res (A * CreditQueue Buffer)) : MW A := zoom w_credits set_w_credits f.
Definition on_credits_ (f : CreditQueue Buffer -> res (CreditQueue Buffer)) : MW unit :=
  on_credits (fun q => q ← f q; Ok (tt, q)).
Definition on_ppm {A} (f : PPMQueue -> res (A * PPMQueue)) : MW A := zoom w_ppm set_w_ppm f.
Definition w_env (w : World) : Env := x_env (w_ctx w).
Definition set_w_env (e : Env) (w : World) : World := set_w_ctx (set_x_env e (w_ctx w)) w.
Definition on_thread {A} (f : Env -> res (A * Env)) : MW A := zoom w_env set_w_env f.
Definition on_thread_ (f : Env -> res Env) : MW unit := on_thread (fun e => e ← f e; Ok (tt, e)).
Definition on_stats_ (f : Stats -> res Stats) : MW unit :=
  on_thread_ (fun e => s ← f (e_stats e); Ok (set_stats s e)).
Definition on_ingress {A} (f : Ingress -> Env -> res (A * Ingress * Env)) : MW A := fun w =>
  match f (x_ingress (w_ctx w)) (w_env w) with
  | Ok (a, g, e) => Ret a (set_w_ctx (set_x_ingress g (set_x_env e (w_ctx w))) w)
  | Err (Throw e) => Exc e w
  | Err f => Stop f
  end.

(** Clock readings: the next [n]. *)
Definition w_readings (n : nat) : MW (nat -> Z) := fun w =>
  Ret (readings (w_ctx w)) (set_w_ctx (advance_clock n (w_ctx w)) w).
Definition w_now : MW Z := r ← w_readings 1; mret (r 0%nat).
Definition now_us : MW Z := t ← w_now; mret (to_us t).

(** [catch (std::exception &) { LOG(FATAL) }] *)
Definition catch_fatal {A} (p : MW A) : MW A := fun w =>
  match p w with Exc _ _ => Stop Fatal | r => r end.

Definition rpc (i : nat) : MW RPCMessage := e ← gets w_env; lift (deref i e).
Definition set_rpc (i : nat) (f : RPCMessage -> RPCMessage) : MW unit :=
  on_thread_ (fun e => r ← deref i e; Ok (assign i (f r) e)).

(** ** Virtual calls on a connection *)

Definition conn_at (p : nat) : MW (Connection session) := m ← gets w_conns; lift (or_fault Undefined (m !! p)).

(** Run a method of a class on the connection at [p]. *)
Definition outcome_to {S S' A} (f : S -> S') (o : outcome S A) : outcome S' A :=
  match o with Ret a s => Ret a (f s) | Exc e s => Exc e (f s) | Stop f => Stop f end.

Definition run1 {A} (p : nat) (x : Connection session) (h : HTTP1State) (op : M (CState (Conn1 session)) A) : MW A := fun w =>
  outcome_to (fun s =>
      let y := set_c_proto (Proto1 (Http1.h1 (cs_conn s))) (Http1.base (cs_conn s)) in
      set_w_conns (<[p := y]> (w_conns w)) (set_w_ctx (cs_ctx s) w))
    (op (mkCState (mkConn1 x h) (w_ctx w))).
Definition run2 {A} (p : nat) (x : Connection session) (s : session) (op : M (CState Conn2) A) : MW A := fun w =>
  outcome_to (fun s =>
      let y := set_c_proto (Proto2 (sess (cs_conn s))) (Http2.base (cs_conn s)) in
      set_w_conns (<[p := y]> (w_conns w)) (set_w_ctx (cs_ctx s) w))
    (op (mkCState (mkConn2 x s) (w_ctx w))).
Definition on_conn {A} (p : nat) (op1 : M (CState (Conn1 session)) A) (op2 : M (CState Conn2) A) : MW A :=
  x ← conn_at p;
  match c_proto x with
  | Proto1 h => run1 p x h op1
  | Proto2 s => run2 p x s op2
  end.

Definition count_of {A} (f : A -> bool) (l : list A) : Z := Z.of_nat (length (filter (fun x => f x = true) l)).

(** The shared pointers to message [i] besides those of the mapper and of
    connection [p]: in the ingress queue, in the queue of requests that wait
    for a credit, and in the other connections. *)
Definition other_holders (w : World) (p i : nat) : Z :=
  count_of (Nat.eqb i) (queue (x_ingress (w_ctx w))) +
  count_of (Nat.eqb i) (concat ((fun '(_, m) => (map_to_list m).*2) <$> map_to_list (w_ppm w))) +
  count_of (fun '(q, x) => negb (Nat.eqb q p) && match c_proto x with
      | Proto1 h => bool_decide (rpc_message h = Some i) | Proto2 _ => false end)
    (map_to_list (w_conns w)).

Definition http_read (c : Config) (m : simd) (p : nat) (b : Buffer) : MW unit :=
  on_conn p (http1_read c m b) (http2_read c b).
Definition http_write (c : Config) (p : nat) (b : Buffer) : MW (Buffer * Z) :=
  w ← get_st; on_conn p (http1_write c (other_holders w p) b) (http2_write c (other_holders w p) b).
Definition want_write (p : nat) : MW bool :=
  x ← conn_at p;
  mret (match c_proto x with Proto1 h => http1_want_write h | Proto2 s => session_want_write s end).
Definition conn_submit_settings (p : nat) : MW unit := on_conn p (mret tt) http2_submit_settings.
Definition conn_submit_request (p i : nat) : MW Z := on_conn p (http1_submit_request i) (http2_submit_request i).
Definition conn_submit_response (p i : nat) : MW unit := on_conn p (http1_submit_response i) (http2_submit_response i).
Definition conn_submit_error_response (p i : nat) : MW unit :=
  on_conn p (http1_submit_error_response i) (http2_submit_error_response i).
Definition available (w : World) (p : nat) : bool :=
  match w_conns w !! p with
  | Some x => match c_proto x with
      | Proto1 h => http1_available (c_status x) h
      | Proto2 _ => bool_decide (c_status x = UP)
      end
  | None => false
  end.
Definition set_status_at (p : nat) (s : ConnectionStatus) : MW unit :=
  x ← conn_at p; modify (fun w => set_w_conns (<[p := set_c_status s x]> (w_conns w)) w).

(** ** RingWrapper *)

Definition push_sqe (e : Sqe) : MW unit := modify (fun w => set_w_ring (w_ring w ++ [e]) w).

Definition prepare_accept (t : ConnectionType) (ud : UserData) : MW unit :=
  ls ← gets w_listeners;
  let ud := set_ud_op ACCEPT (set_ud_listener (Some (match t with INGRESS => 0%nat | EGRESS => 1%nat end))
              (set_ud_accept_addr zero_addr ud)) in
  _ ← lift (check_ud ud);
  push_sqe (SqAccept (lis_fd (at_type t ls)) ud).

Definition ring_prepare_read (ud : UserData) (listener : option nat) (p : nat) : MW unit :=
  x ← conn_at p;
  let ud := Buffers.prepare_read ud listener (Some p) in
  _ ← lift (check_ud ud);
  push_sqe (SqRecvMultishot (c_fd x) ud).

Definition prepare_connect (p : nat) (ud : UserData) : MW unit :=
  x ← conn_at p;
  let ud := set_ud_op CONNECT (set_ud_conn (Some p) ud) in
  _ ← lift (check_ud ud);
  push_sqe (SqConnect (c_fd x) (c_addr x) ud).

Definition ring_prepare_write (p : nat) (b : Buffer) (ud : UserData) : MW unit :=
  x ← conn_at p;
  ud ← lift (Buffers.prepare_write ud (Some b) (Some p));
  _ ← lift (check_ud ud);
  push_sqe (SqSend (c_fd x) (take (Z.to_nat (filled b)) (data b)) ud).

Definition prepare_cancel (p : nat) (ud : UserData) : MW unit :=
  x ← conn_at p;
  let ud := set_ud_op CANCEL (set_ud_conn (Some p) ud) in
  _ ← lift (check_ud ud);
  push_sqe (SqClose (c_fd x) ud).

Definition prepare_rcvmsg (fd : Z) (ud : UserData) : MW unit :=
  let ud := set_ud_op RCVMSG ud in
  _ ← lift (check_ud ud);
  push_sqe (SqRecvmsgMultishot fd ud).

Definition ring_prepare_sendmsg (fd : Z) (b : Buffer) (ud : UserData) : MW unit :=
  ud ← lift (ud_set_buffer (Some b) ud);
  let ud := set_ud_op SENDMSG ud in
  _ ← lift (check_ud ud);
  push_sqe (SqSendmsg fd ud).

Definition prepare_sendmsg_with_serveraddr (fd : Z) (b : Buffer) (ud : UserData) (a : Addr) : MW unit :=
  ring_prepare_sendmsg fd (prepare_sendmsg a b) ud.

(** [ring.get_user_data(cqe)] *)
Definition ring_get_user_data (o : option UserData) : MW UserData :=
  ud ← lift (or_fault Fatal o);
  _ ← guard_fatal (match ud_op ud with OP_CLEAR => true | _ => false end);
  mret ud.

(** Hand a buffer to the ring as a datagram to [sockfd]. *)
Definition send_datagram (b : Buffer) : MW unit :=
  fd ← gets w_sockfd; ud ← on_bm get_user_data; ring_prepare_sendmsg fd b ud.
End World.
