(* ===== verification/ExampleWorld.v ===== *)
(** * A small thread

    The thread that the witnesses of the handlers run: one hosted service,
    "geo", two UDP buffers of 256 bytes, a few [UserData]s, and stand-ins for
    the two libraries that are parameters of the model. *)

From Stdlib Require Import ZArith Lia Ascii.
From stdpp Require Import base gmap strings list fin_maps.
From S2P Require Import Prelude Fp Config Buffers PicoHttp Rlp RpcMessage RpcMapper Queues LocalMap LocalMapProps Stats Ingress Connection Pool Http1 Http1Inv Http2 CreditQueue CreditQueueSpec CreditQueueProps World.

Open Scope Z_scope.

(** A session that sends what was submitted, one frame at a time, and
    receives nothing. *)
#[export] Instance toy_nghttp2 : Nghttp2 := {|
  session := list (list Z);
  session_client_new := [];
  session_server_new := [];
  mem_recv s bs := (Z.of_nat (length bs), [], s);
  session_want_write s := negb (Nat.eqb (length s) 0);
  mem_send s := match s with f :: s' => Sent f s' | [] => Sent [] [] end;
  resume s bs _ _ := (Some bs, s);
  submit_settings s := Some (s ++ [[0; 0; 0; 4; 0; 0; 0; 0; 0]]);
  submit_request s _ _ := (1, s);
  submit_response s _ _ _ := Some s;
  submit_trailer s _ _ := Some s
|}.
#[export] Instance toy_histogram : HdrHistogram := {|
  Hist := list Z;
  hdr_record_value h v := v :: h;
  hdr_reset _ := []
|}.

Definition geo : list string := ["geo"%string].
Lemma geo_ok : keys_ok geo.
Proof.
  split; [done|by vm_compute|..].
  - intros k Hk. unfold geo in Hk. rewrite elem_of_cons in Hk. destruct Hk as [->|[]%elem_of_nil]. by vm_compute.
  - intros T d m H. vm_compute in H. injection H as <-. discriminate.
Qed.

Definition geo_credits : CreditQueue Buffer := Eval vm_compute in
  match cq_make ex_config geo 4 with Ok q => q | Err _ => mkCQ [] [] 0 0 false 0 (mkCounters 0 0 no_map no_map) end.
Lemma geo_credits_made : cq_make ex_config geo 4 = Ok geo_credits.
Proof. vm_compute. reflexivity. Qed.

Definition geo_rtt : LocalMap ExponentialMovingAverage := Eval vm_compute in
  match LocalMap.make ema_make geo with Ok m => m | Err _ => no_map end.
Lemma geo_rtt_over : over geo geo_rtt.
Proof.
  destruct (make_built ema_make geo geo_rtt geo_ok) as (Hwf & Hk & _); [vm_compute; reflexivity|]. by split.
Qed.

(** The clock ticks once a microsecond, for a while. *)
Definition ex_clock (n : nat) : Z := 1000 * Z.min (Z.of_nat n) 1000000.
Definition ex_uds (n : nat) : list UserData := user_data_make <$> seq 0 n.
Definition ex_pool (uds : nat) : BufferManager :=
  mkBM 2 64 [None; None] [] [Some (buffer_make 256 2); Some (buffer_make 256 3)] [2; 3] (ex_uds uds) [] [].
Definition ex_listeners : ByType Listener := mkByType (mkListener 20 8080 INGRESS ∅) (mkListener 21 8081 EGRESS ∅).
Definition ex_world (uds : nat) : World :=
  mkWorld ∅ (mkCtx (x_ingress ex_ctx)
      (mkEnv ∅ 0 (e_mapper (x_env ex_ctx)) rpc_queue_make
         (mkStats 0 no_map no_map geo_rtt no_map no_map no_map no_map no_map)) ex_clock 0)
    (ex_pool uds) [] ∅ 0 geo_credits no_map 0 (mkUtil no_map no_map no_map 0 no_map no_map [])
    (pool_make INGRESS) ∅ ex_listeners 22.

Lemma geo_credits_wf : cq_wf geo geo_credits.
Proof. apply (cq_make_spec geo ex_config 4 geo_credits geo_ok geo_credits_made). Qed.
Lemma geo_credits_empty : waiting (abs geo_credits) = [].
Proof. vm_compute. reflexivity. Qed.
Lemma ex_clock_range n : 0 <= to_us (ex_clock n) < 2 ^ 62.
Proof.
  unfold to_us, ex_clock. rewrite Z.mul_comm, Z.quot_mul by lia. lia.
Qed.
