(* ===== verification/State.v ===== *)
(** * The protocol handlers: [src/state.cc]

    Credit requests, grants and returns, and the forwarding of requests and
    responses. [c] is the configuration, [fuel] bounds the frames one flush
    of an HTTP/2 connection writes. *)

From Stdlib Require Import ZArith Lia Ascii.
From stdpp Require Import base gmap strings list fin_maps.
From S2P Require Import Prelude Fp Config Buffers PicoHttp Rlp RpcMessage RpcMapper Queues LocalMap Stats Ingress Connection Pool Http1 Http2 CreditQueue World.

Open Scope Z_scope.

Section State.
Context `{Nghttp2} `{HdrHistogram} (c : Config) (fuel : nat).

Abbreviation MW := (M World).

(** ** Writing: [State::write_http] *)

(** Retry the bytes that did not fit in a new buffer. *)
Definition copy_outbuf (out : list Z) (b : Buffer) : res Buffer :=
  _ ← fatal_if (u64 (bsize b - filled b) <? Z.of_nat (length out));
  d ← store (data b) (Z.to_nat (filled b)) out;
  set_filled (filled b + Z.of_nat (length out)) (set_data d b).

(** [http_write] into [b]; when it does not fit, [b] is sent and a new buffer
    takes its place. *)
Definition write_or_flush (p : nat) (b : Buffer) : MW Buffer := fun w =>
  match http_write c p b w with
  | Ret (b', _) w' => Ret b' w'
  | Exc (BufferFull out) w' =>
      (ud ← on_bm get_user_data; _ ← ring_prepare_write p b ud;
       b' ← on_bm get_buffer; lift (copy_outbuf out b')) w'
  | Exc e w' => Exc e w'
  | Stop f => Stop f
  end.

(** The HTTP/2 loop: the buffer in hand, and whether to send it. *)
Fixpoint write_frames (n : nat) (p : nat) (b : option Buffer) (flag : bool) : MW (option Buffer * bool) :=
  match n with
  | O => fail Hang
  | S n' =>
      want ← want_write p;
      if (want : bool) then
        b ← (match b with Some b => mret b | None => on_bm get_buffer end);
        b ← write_or_flush p b;
        if filled b =? 0 then
          _ ← on_bm_ (free_buffer (Some b)); mret (None, flag)
        else write_frames n' p (Some b) true
      else mret (b, flag)
  end.

Fixpoint write_messages (n : nat) (p : nat) : MW unit :=
  match n with
  | O => fail Hang
  | S n' =>
      want ← want_write p;
      if (want : bool) then
        b ← on_bm get_buffer;
        '(b, _) ← (fun w => match http_write c p b w with Exc (BufferFull _) _ => Stop Fatal | r => r end);
        if filled b =? 0 then on_bm_ (free_buffer (Some b))
        else
          ud ← on_bm get_user_data;
          _ ← ring_prepare_write p b ud;
          write_messages n' p
      else mret tt
  end.

Definition write_http (p : nat) : MW unit :=
  want ← want_write p;
  if (want : bool) then
    x ← conn_at p;
    match c_http x with
    | HTTP2 =>
        '(b, flag) ← write_frames fuel p None false;
        if (flag : bool) then
          (* a null buffer would be dereferenced *)
          b ← lift (or_fault Undefined b);
          ud ← on_bm get_user_data;
          ring_prepare_write p b ud
        else mret tt
    | HTTP1 => write_messages fuel p
    end
  else mret tt.

(** ** Routing requests *)

(** Find an available connection in a pool; the pool remembers where. *)
Definition pick_ingress : MW nat := w ← get_st;
  '(p, cp) ← lift (get_any_connection (available w) (w_ingress_pool w));
  _ ← modify (set_w_ingress_pool cp); mret p.
Definition pick_route (service : string) : MW nat := w ← get_st;
  k ← lift (route_key service (w_routes w));
  cp ← lift (or_fault Fatal (w_routes w !! k));
  '(p, cp) ← lift (get_any_connection (available w) cp);
  _ ← modify (set_w_routes (<[k := cp]> (w_routes w))); mret p.

(** [nullptr] when the connection is not up yet: the request goes back to the
    queue. Every exception is fatal. *)
Definition route_request (t : ConnectionType) (ds_stream ds_fd : Z) : MW (option nat) :=
  e ← gets w_env;
  i ← lift (get_ds_rpc t ds_stream ds_fd (e_mapper e));
  catch_fatal (
    r ← rpc i;
    p ← (match t with INGRESS => pick_ingress | EGRESS => pick_route (service r) end);
    x ← conn_at p;
    match c_status x with
    | TEARDOWN => fail (Throw NoConnection)
    | DOWN =>
        _ ← on_thread_ (fun e => Ok (set_rpc_queue
              (rpc_enqueue t DOWNSTREAM (RpcMessage.ds_fd r) (ds_stream_id r) (e_queue e)) e));
        mret None
    | UP =>
        _ ← set_rpc i (set_us_fd (c_fd x));
        mret (Some p)
    end).

Definition lacks_headers (r : RPCMessage) : bool :=
  negb (is_plain_frontend c) && ((local_id r =? -1) || (priority r =? -1)).

Definition forward_request (conn : option nat) (i : nat) : MW bool :=
  catch_fatal (
    p ← lift (or_fault Undefined conn);
    x ← conn_at p;
    _ ← (match c_type x with
         | INGRESS => on_thread_ (fun e =>
             r ← deref i e;
             '(r, counter) ← set_local_id_header (is_ingress c) r (e_counter e);
             Ok (assign i r (set_counter counter e)))
         | EGRESS => mret tt
         end);
    stream ← conn_submit_request p i;
    _ ← set_rpc i (set_us_stream_id stream);
    r ← rpc i;
    _ ← guard_fatal (lacks_headers r);
    _ ← on_thread_ (fun e =>
          m ← route (c_type x) (ds_stream_id r) (RpcMessage.ds_fd r) (us_stream_id r) (c_fd x) (e_heap e) (e_mapper e);
          Ok (set_mapper m e));
    _ ← write_http p;
    mret true).

(** ** The RLP client: sending credit requests *)

Definition send_credit_request (a : Addr) (service : string) (num_credits id priority : Z) : MW unit :=
  b ← on_bm get_udp_buffer;
  t ← now_us;
  w ← get_st;
  last_rtt ← lift (LocalMap.get (w_last_rtt w) service);
  b ← lift (fill_credit_request b service num_credits id priority t last_rtt);
  ud ← on_bm get_user_data;
  prepare_sendmsg_with_serveraddr (w_sockfd w) b ud a.

Definition route_addr (service : string) : MW Addr :=
  w ← get_st; cp ← lift (get_pool service (w_routes w)); lift (pool_get_addr cp).

Definition request_for (service : string) (r : RPCMessage) : MW unit :=
  a ← route_addr service; send_credit_request a service 1 (local_id r) (priority r).

Definition mapping_at (service : string) : MW MappingInfo :=
  lift (or_fault (Throw OutOfRange) (mapping c !! service)).

(** Admit one request to the PPM queue and ask for its credits. *)
Definition admit_request : MW unit :=
  '(fd, stream) ← on_thread (fun e =>
      '(x, q) ← rpc_dequeue EGRESS DOWNSTREAM (e_queue e); Ok (x, set_rpc_queue q e));
  e ← gets w_env;
  i ← lift (get_ds_rpc EGRESS stream fd (e_mapper e));
  r ← rpc i;
  _ ← on_ppm (fun q => q ← ppm_push (service r) (local_id r) i q; Ok (tt, q));
  if is_ingress c then request_for (service r) r
  else
    e ← gets w_env;
    j ← lift (get_ingress_rpc (local_id r) (e_mapper e));
    ir ← rpc j;
    entry ← mapping_at (service ir);
    if value_or (dfanout entry) false then
      _ ← set_rpc j (set_dfanout_service (Some i));
      forM (downstreams entry) (fun ds => r ← rpc i; request_for ds r)
    else request_for (service r) r.

Fixpoint repeatM (n : nat) (p : MW unit) : MW unit :=
  match n with O => mret tt | S n' => _ ← p; repeatM n' p end.

Definition protocol_client_requests : MW unit :=
  e ← gets w_env;
  repeatM (Z.to_nat (rpc_queue_size EGRESS DOWNSTREAM (e_queue e))) admit_request.

(** ** Sending a request that has its credits *)

Definition send_sub_request (i : nat) : MW unit :=
  r ← rpc i;
  _ ← route_request EGRESS (ds_stream_id r) (RpcMessage.ds_fd r);
  r ← rpc i;
  w ← get_st;
  cp ← lift (get_pool (service r) (w_routes w));
  p ← lift (get_connection (us_fd r) cp);
  _ ← forward_request (Some p) i;
  t ← w_now;
  r ← rpc i;
  let wd := i32 (to_us (t - req_rcv_time r)) in
  _ ← on_stats_ (fun s =>
        m ← LocalMap.update (ema_wait_to_tx_us s) (service r) (fun x => Ok (ema_update wd x));
        Ok (set_wait m s));
  t ← w_now;
  on_stats_ (fun s =>
    m ← LocalMap.update (time_mean_ds_concurrency s) (service r) (twm_up t);
    Ok (set_concurrency m s)).

(** ** Credit transmission *)

Definition check_credit_transmission : MW unit :=
  o ← on_credits pop;
  match o with
  | None => mret tt
  | Some b =>
      t ← now_us;
      b ← lift (stamp_queuing_time t b);
      send_datagram b
  end.

Definition decrement_and_check (service : string) : MW unit :=
  _ ← on_credits_ (fun q => decrement_in_flight q service);
  check_credit_transmission.

Definition prepare_credit_return (grant : Buffer) : MW Buffer :=
  b ← on_bm get_udp_buffer; lift (fill_credit_return grant b).

(** ** Fan-out *)

Fixpoint flush_returns (l : list Buffer) : MW unit :=
  match l with [] => mret tt | b :: l' => _ ← send_datagram b; flush_returns l' end.

(** [true] when this was the last branch. *)
Definition count_branch (j : nat) (entry : MappingInfo) : MW bool :=
  r ← rpc j;
  mret (pfanout_req r =? Z.of_nat (length (downstreams entry))).
Definition incr_pfanout_req (j : nat) : MW unit := set_rpc j (fun r => set_pfanout_req (u8 (pfanout_req r + 1)) r).

Definition fanout_req_management (id : Z) (service : string) (grant : Buffer) : MW unit :=
  e ← gets w_env;
  j ← lift (get_ingress_rpc id (e_mapper e));
  ir ← rpc j;
  entry ← mapping_at (RpcMessage.service ir);
  if value_or (pfanout entry) false then
    _ ← incr_pfanout_req j;
    i ← on_ppm (ppm_pop service id);
    _ ← send_sub_request i;
    last ← count_branch j entry;
    if (last : bool) then r ← rpc j; decrement_and_check (RpcMessage.service r) else mret tt
  else if value_or (dfanout entry) false then
    _ ← incr_pfanout_req j;
    k ← lift (or_fault Undefined (dfanout_service ir));
    chosen ← rpc k;
    _ ← (if bool_decide (RpcMessage.service chosen = service) then mret tt
         else
           ret ← prepare_credit_return grant;
           set_rpc j (fun r => set_credit_return_queue (credit_return_queue r ++ [ret]) r));
    last ← count_branch j entry;
    if (last : bool) then
      i ← on_ppm (ppm_pop (RpcMessage.service chosen) id);
      _ ← send_sub_request i;
      r ← rpc j;
      _ ← set_rpc j (set_credit_return_queue []);
      _ ← flush_returns (credit_return_queue r);
      decrement_and_check (RpcMessage.service r)
    else mret tt
  else
    i ← on_ppm (ppm_pop service id);
    _ ← send_sub_request i;
    r ← rpc j;
    decrement_and_check (RpcMessage.service r).

Definition fanout_res_credit_management (id : Z) : MW unit :=
  e ← gets w_env;
  j ← lift (get_ingress_rpc id (e_mapper e));
  ir ← rpc j;
  entry ← mapping_at (service ir);
  first ← (if value_or (pfanout entry) false then
             _ ← set_rpc j (fun r => set_pfanout_res (u8 (pfanout_res r + 1)) r);
             r ← rpc j; mret (negb (1 <? pfanout_res r))
           else mret true);
  if (first : bool) then on_credits_ (fun q => increment_in_flight q (service ir)) else mret tt.

(** ** Credits received *)

(** The id, read with [data[i]]. *)
Definition raw_id (d : list Z) : res Z := bs ← raw_read d 5 8; Ok (i64 (be_value bs)).

(** The service, the number of credits and the id. *)
Definition credit_post_process (b : Buffer) : MW (string * Z * Z) :=
  key ← lift (extract_service_from_rlp_req (data b));
  w ← get_st;
  service ← (if is_ingress c then mret (ingress_service (x_ingress (w_ctx w))) else lift (ppm_check key (w_ppm w)));
  id ← lift (raw_id (data b));
  _ ← lift (rlp_timestamp (data b));
  _ ← lift (rlp_rtt (data b));
  t ← now_us;
  rtt ← lift (credit_rtt t (data b));
  _ ← guard_fatal (negb (0 <? rtt));
  _ ← zoom w_last_rtt set_w_last_rtt (fun m => m ← LocalMap.set m service rtt; Ok (tt, m));
  _ ← on_stats_ (fun s =>
        m ← LocalMap.update (ema_ds_sidecar_rtt_us s) service (fun x => Ok (ema_update rtt x));
        Ok (set_ds_rtt m s));
  requested ← lift (char_at (data b) 3);
  granted ← lift (char_at (data b) 4);
  _ ← guard_fatal (negb (requested - granted =? 0));
  _ ← guard_fatal (granted =? 0);
  _ ← guard_fatal (is_ingress c && negb (bool_decide (service = key)));
  mret (service, u64 granted, id).

Definition protocol_client_grant (b : Buffer) : MW unit :=
  '(service, num_credits, id) ← credit_post_process b;
  repeatM (Z.to_nat num_credits)
    (if is_ingress c then fail Fatal else fanout_req_management id service b).

(** ** Responses and INGRESS requests: [State::forward] *)

Definition report_utilization (service : string) : MW unit :=
  n ← gets w_in_local;
  r ← w_readings 3;
  zoom w_util set_w_util (fun u => u ← util_update hdr_record_value hdr_reset (u32 n) service r u; Ok (tt, u)).

(** [in_local.fetch_add], an [atomic<int32_t>], wraps. *)
Definition add_in_local (d : Z) : MW unit := modify (fun w => set_w_in_local (i32 (w_in_local w + d)) w).

Definition forward_downstream (t : ConnectionType) (fd stream : Z) : MW unit :=
  conn ← route_request t stream fd;
  e ← gets w_env;
  i ← lift (get_ds_rpc t stream fd (e_mapper e));
  _ ← forward_request conn i;
  if is_ingress c then mret tt
  else
    _ ← add_in_local 1;
    r ← rpc i;
    report_utilization (service r).

(** The bookkeeping of a response that was not dropped. *)
Definition account_response (t : ConnectionType) (r : RPCMessage) : MW unit :=
  _ ← guard_fatal ((local_id r =? -1) && negb (is_plain_frontend c));
  match t with
  | EGRESS =>
      _ ← (if is_ingress c then mret tt else fanout_res_credit_management (local_id r));
      now ← w_now;
      on_stats_ (fun s =>
        m ← LocalMap.update (time_mean_ds_concurrency s) (service r) (twm_down now);
        Ok (set_concurrency m s))
  | INGRESS =>
      _ ← decrement_and_check (service r);
      _ ← add_in_local (-1);
      report_utilization (service r)
  end.

(** The HTTP/1.1 message is moved into the connection; an HTTP/2 error
    response is removed at once, [rpc] being its only holder. *)
Definition submit_to_client (t : ConnectionType) (p i : nat) : MW unit :=
  r ← rpc i;
  if error r then
    match http r with
    | HTTP1 => conn_submit_error_response p i
    | HTTP2 =>
        _ ← conn_submit_error_response p i;
        w ← get_st;
        on_thread_ (fun e =>
          '(h, m) ← remove_rpc t i (other_holders w p i) (e_heap e) (e_mapper e);
          Ok (set_heap h (set_mapper m e)))
    end
  else conn_submit_response p i.

Definition forward_upstream (t : ConnectionType) (fd stream : Z) : MW unit :=
  e ← gets w_env;
  i ← lift (get_us_rpc t stream fd (e_mapper e));
  r ← rpc i;
  catch_fatal (
    ls ← gets w_listeners;
    p ← lift (lis_get_connection (RpcMessage.ds_fd r) (at_type t ls));
    _ ← (if is_drop r then modify (fun w => set_w_drops (u32 (w_drops w + 1)) w)
         else account_response t r);
    _ ← submit_to_client t p i;
    write_http p).

Fixpoint forward_loop (n : nat) (t : ConnectionType) (d : ConnectionDirection) : MW unit :=
  match n with
  | O => fail Hang
  | S n' =>
      e ← gets w_env;
      if rpc_queue_empty t d (e_queue e) then mret tt
      else
        '(fd, stream) ← on_thread (fun e =>
            '(x, q) ← rpc_dequeue t d (e_queue e); Ok (x, set_rpc_queue q e));
        match d with
        | DOWNSTREAM => _ ← forward_downstream t fd stream; forward_loop n' t d
        | UPSTREAM =>
            ls ← gets w_listeners;
            if no_connections (at_type t ls) then mret tt
            else _ ← forward_upstream t fd stream; forward_loop n' t d
        end
  end.

Definition forward (t : ConnectionType) (d : ConnectionDirection) : MW unit :=
  if bool_decide (t = EGRESS) && bool_decide (d = DOWNSTREAM) then mret tt
  else
    e ← gets w_env;
    forward_loop (S (length (queue_at t d (e_queue e)))) t d.

Definition remove_connection : MW unit := fail Fatal.

(** ** The ingress *)

Definition ingress_pre_credit : MW unit :=
  w ← get_st;
  let svc := ingress_service (x_ingress (w_ctx w)) in
  e ← lift (LocalMap.get (tail_e2e_time_us (e_stats (w_env w))) svc);
  let '(flushed, e) := consume_flush_updated e in
  _ ← on_stats_ (fun s => m ← LocalMap.set (tail_e2e_time_us s) svc e; Ok (set_tail_e2e m s));
  _ ← (if (flushed : bool) then
         r ← w_readings 2;
         on_ingress (fun g e => '(g, e) ← update_ingress_cap c (r 0%nat) (r 1%nat) g e; Ok (tt, g, e))
       else mret tt);
  send ← on_ingress (fun g e => let '(b, g) := send_credit_request_checker g in Ok (b, g, e));
  if (send : bool) then
    w ← get_st;
    id ← lift (get_tail_id (x_ingress (w_ctx w)) (w_env w));
    prio ← lift (get_tail_priority (x_ingress (w_ctx w)) (w_env w));
    a ← route_addr svc;
    send_credit_request a svc 1 id prio
  else mret tt.

(** [dequeue] never returns an empty optional: the branch that returns the
    credit is not reached. *)
Definition ingress_post_credit (b : Buffer) : MW unit :=
  '(_, num_credits, _) ← credit_post_process b;
  _ ← guard_fatal (negb (num_credits =? 1));
  t ← w_now;
  i ← on_ingress (fun g e => '(i, g) ← ing_dequeue t g; Ok (i, g, e));
  _ ← send_sub_request i;
  _ ← forward EGRESS UPSTREAM;
  ingress_pre_credit.

(** ** The RLP server: limits *)

Definition MAXFLOAT : fp := f32_of_Z ((2 ^ 24 - 1) * 2 ^ 104).

(** The time a downstream call takes: service time and wait. *)
Definition ds_time (s : Stats) (ds : string) : res fp :=
  a ← LocalMap.get (ema_ds_service_time_us s) ds;
  b ← LocalMap.get (ema_wait_to_tx_us s) ds;
  Ok (f32_add (ema_value a) (ema_value b)).

Fixpoint fold_ds (f : fp -> fp -> fp) (s : Stats) (acc : fp) (l : list string) : res fp :=
  match l with [] => Ok acc | ds :: l' => v ← ds_time s ds; fold_ds f s (f acc v) l' end.

Definition cal_local_service_time (us_service : string) (s : Stats) : res fp :=
  entry ← or_fault Fatal (mapping c !! us_service);
  us ← LocalMap.get (ema_us_service_time_us s) us_service;
  let us_rt := ema_value us in
  if value_or (pfanout entry) false then
    mx ← fold_ds (fun a v => if fp_gt v a then v else a) s fp_zero (downstreams entry);
    Ok (f32_sub us_rt mx)
  else if value_or (dfanout entry) false then
    mn ← fold_ds (fun a v => if fp_lt v a then v else a) s MAXFLOAT (downstreams entry);
    Ok (f32_sub us_rt mn)
  else
    sum ← fold_ds f32_add s fp_zero (downstreams entry);
    Ok (f32_sub us_rt sum).

Definition get_theo_term (service : string) (sequential : bool) (s : Stats) : res fp :=
  us ← LocalMap.get (ema_us_sidecar_rtt_us s) service;
  let rtts := ema_ds_sidecar_rtt_us s in
  let at_index (i : nat) := match slots_ rtts !! i with Some x => ema_value (sl_value x) | None => fp_zero end in
  Ok (if sequential then
        for_each_occupied_index (fun a i => f32_add a (at_index i)) (ema_value us) rtts
      else
        f32_add (ema_value us)
          (for_each_occupied_index (fun a i => if fp_gt (at_index i) a then at_index i else a) fp_zero rtts)).

(** The limit of an endpoint. *)
Definition endpoint_limit (entry : MappingInfo) (theo_term local_rt : fp) : res Z :=
  n ← fp_to_i32 (f32_ceil (f32_div theo_term local_rt));
  m ← checked_i32 (Z.max n 1 + 1);
  cpus ← or_fault (Throw BadOptionalAccess) (cpu_count c);
  l ← checked_i32 (m * cpus);
  let l := if value_or (dfanout entry) false then l
           else i32 (u64 l + Z.of_nat (length (downstreams entry))) in
  checked_i32 (l + extra_limit c).

(** The sum and the maximum of the limits of the hosted services. *)
Fixpoint limits_of (q : CreditQueue Buffer) (l : list string) (sum mx : Z) : res (Z * Z) :=
  match l with
  | [] => Ok (sum, mx)
  | s :: l' =>
      v ← get_per_endpoint_limit q s;
      sum ← checked_i32 (sum + v);
      limits_of q l' sum (if mx <? v then v else mx)
  end.

Definition global_limit_of (q : CreditQueue Buffer) : res Z :=
  '(sum, mx) ← limits_of q (get_hosted_services c) 0 0;
  d ← checked_i32 (sum - mx);
  oc ← or_fault (Throw BadOptionalAccess) (over_commitment c);
  extra ← fp_to_i32 (f32_mul (f32_of_Z d) oc);
  checked_i32 (mx + extra).

Definition recompute_limits (service : string) : MW unit :=
  s ← gets (fun w => e_stats (w_env w));
  local_rt ← lift (cal_local_service_time service s);
  entry ← lift (or_fault Fatal (mapping c !! service));
  let sequential := negb (value_or (pfanout entry) false) && negb (value_or (dfanout entry) false) in
  theo_term ← lift (get_theo_term service sequential s);
  limit ← lift (endpoint_limit entry theo_term local_rt);
  _ ← on_credits_ (fun q => update_endpoint_limit q limit service);
  if decide (size (routing c) = 0%nat) then
    on_credits_ (fun q => g ← global_limit_of q; update_global_limit q g)
  else mret tt.

Definition update_limits (rtt : Z) (service : string) : MW unit :=
  _ ← on_stats_ (fun s =>
        m ← LocalMap.update (ema_us_sidecar_rtt_us s) service (fun x => Ok (ema_update rtt x));
        Ok (set_us_rtt m s));
  s ← gets (fun w => e_stats (w_env w));
  x ← lift (LocalMap.get (ema_us_sidecar_rtt_us s) service);
  if ema_count x mod 2000 =? 0 then recompute_limits service else mret tt.

(** ** The RLP server: credit requests and returns *)

(** [data.at(i)] as a [char]. *)
Definition at_char (d : list Z) (i : nat) : res Z := b ← at_ d i; Ok (schar b).

Definition serve_request (req : Buffer) : MW unit :=
  flags ← lift (at_char (data req) 2);
  _ ← guard_fatal (negb (flags =? 0));
  requested ← lift (at_char (data req) 3);
  _ ← guard_fatal (negb (requested =? 1));
  service ← lift (extract_service_from_rlp_req (data req));
  _ ← lift (rlp_id (data req));
  priority ← lift (rlp_priority (data req));
  rtt ← lift (rlp_rtt (data req));
  _ ← guard_fatal (negb (0 <=? rtt));
  _ ← update_limits rtt service;
  resp ← on_bm get_udp_buffer;
  resp ← lift (write_failed_dn_response req resp);
  t ← now_us;
  _ ← on_credits_ (fun q => push q (set_ts t resp) service priority);
  check_credit_transmission.

Definition protocol_server (req : Buffer) : MW unit :=
  type ← lift (at_char (data req) 1);
  if type =? 1 then serve_request req
  else if type =? 2 then
    service ← lift (extract_service_from_rlp_req (data req));
    decrement_and_check service
  else fail Fatal.

Definition dispatch_rlp_recv (b : Buffer) : MW unit :=
  k ← lift (classify b);
  match k with
  | CreditReturn | CreditRequest => protocol_server b
  | CreditGrant => if is_ingress c then ingress_post_credit b else protocol_client_grant b
  end.
End State.
