(* ===== verification/StateProps.v ===== *)
(** * The protocol handlers: theorems

    What the handlers do together: the server grants credits as its queue
    admits requests; every outcome is given, with the conditions under which
    the handler returns. *)

From Stdlib Require Import ZArith Lia Ascii.
From stdpp Require Import base gmap strings list fin_maps.
From S2P Require Import Prelude Fp Config Buffers PicoHttp Rlp RpcMessage RpcMapper Queues LocalMap Stats Ingress Connection Moves Pool Http1 Http1Inv Http2 CreditQueue CreditQueueSpec CreditQueueProps World ExampleWorld State.

Open Scope Z_scope.

(** ** The server of credits *)

Section Server.
Context `{Nghttp2} `{HdrHistogram} (keys : list string) (c : Config).
Implicit Types (w : World).

(** A waiting entry: a grant for a request, stamped when it was queued. *)
Definition grant_waits (b : Buffer) : Prop :=
  exists p, holds b p /\ pk_type p = 1 /\ pk_flag p = 1 /\ pk_len p < 128 /\ 0 <= enter_queue_ts b < 2 ^ 62.

Record server_inv w : Prop := {
  si_credits : cq_wf keys (w_credits w);
  si_waiting : Forall grant_waits (waiting (abs (w_credits w)));
  si_rtt : over keys (ema_us_sidecar_rtt_us (e_stats (w_env w)));
  si_clock n : 0 <= to_us (x_clock (w_ctx w) n) < 2 ^ 62
}.

(** A free [UserData] is at hand; a free UDP buffer that takes packet [p]. *)
Definition ud_ready (bm : BufferManager) : Prop :=
  exists ud q, user_data_queue bm = ud :: q /\ ud_buffer ud = None.
Definition udp_ready (bm : BufferManager) (p : Packet) : Prop :=
  exists b bm', get_udp_buffer bm = Ok (b, bm') /\ fresh_for b p.

(** What the kernel is given for the grant [b] that leaves the queue at [t]. *)
Definition sends_grant (t : Z) (b : Buffer) w w' : Prop :=
  exists b' ud, stamp_queuing_time t b = Ok b' /\ classify b' = Ok CreditGrant /\ addr b' = addr b /\
    ud_buffer ud = Some b' /\ w_ring w' = w_ring w ++ [SqSendmsg (w_sockfd w) ud].

Lemma stamp_grant t b : grant_waits b -> 0 <= t < 2 ^ 62 ->
  exists b', stamp_queuing_time t b = Ok b' /\ classify b' = Ok CreditGrant /\ addr b' = addr b.
Proof.
  intros (p & Hh & Ht & Hf & Hl & Hts) Ht'.
  destruct (stamp_queuing_time_ok t b p Hh) as (b' & E & [Hc Hf' Hfit] & _ & _ & Ha);
    [unfold in_i64; simpl; lia|].
  exists b'. split; [done|]. split; [|done].
  rewrite (read_classify _ _ Hc b') by (done || (change (pk_len (stamped_packet _ p)) with (pk_len p); lia)).
  cbn [stamped_packet pk_type pk_flag]. by rewrite Ht, Hf.
Qed.

(** The datagram [b] goes to the ring. *)
Lemma send_datagram_run b w : ud_ready (w_bm w) -> exists ud u q, user_data_queue (w_bm w) = u :: q /\
  send_datagram b w = Ret tt (set_w_ring (w_ring w ++ [SqSendmsg (w_sockfd w) ud])
    (set_w_bm (set_user_data_queue q (w_bm w)) w)) /\ ud_buffer ud = Some b.
Proof.
  intros (ud & q & Hq & Hu). eexists _, ud, q. split; [done|]. split.
  - unfold send_datagram. rewrite (run_bind _ _ _ (w_sockfd w) w) by done.
    rewrite (run_bind _ _ _ ud (set_w_bm (set_user_data_queue q (w_bm w)) w))
      by (apply run_zoom; unfold get_user_data; by rewrite Hq).
    unfold ring_prepare_sendmsg, ud_set_buffer. rewrite Hu. reflexivity.
  - done.
Qed.

(** What credits do not touch. *)
Definition aside w w' : Prop :=
  w_conns w' = w_conns w /\ w_ppm w' = w_ppm w /\ e_mapper (w_env w') = e_mapper (w_env w).

(** [check_credit_transmission]: what [pop] grants is sent. *)
Lemma check_transmission_run w : server_inv w -> ud_ready (w_bm w) ->
  exists o q w', pop (w_credits w) = Ok (o, q) /\ check_credit_transmission w = Ret tt w' /\
    w_credits w' = q /\ server_inv w' /\ aside w w' /\
    match o with
    | None => w_ring w' = w_ring w
    | Some b => sends_grant (to_us (readings (w_ctx w) 0%nat)) b w w'
    end.
Proof.
  intros [Hcq Hw Hr Hck] Hud. destruct (pop_correct keys _ Hcq) as (o & q & Hpop & Hq & Hpost).
  exists o, q. unfold check_credit_transmission.
  assert (on_credits pop w = Ret o (set_w_credits q w)) as E by by apply run_zoom.
  pose proof (step_conserves _ _ _ (pop_refines_spec keys 0 _ _ _ Hcq Hq Hpost)) as Hc.
  cbn [pushes omap list_omap] in Hc. rewrite app_nil_r in Hc. rewrite Hc in Hw. apply Forall_app in Hw as [Ho Hw].
  destruct o as [b|].
  - cbn [grants omap list_omap] in Ho. apply Forall_inv in Ho.
    destruct (stamp_grant (to_us (readings (w_ctx w) 0%nat)) b Ho (Hck _)) as (b' & Es & Hcl & Ha).
    destruct (send_datagram_run b' (set_w_ctx (advance_clock 1 (w_ctx w)) (set_w_credits q w))) as (ud & u & us & _ & Esend & Hub);
      [done|].
    eexists. split; [done|]. split; [|split; [|split; [split|split]]].
    + rewrite (run_bind _ _ _ _ _ E). cbn beta iota.
      rewrite (run_bind _ _ _ (to_us (readings (w_ctx w) 0%nat)) (set_w_ctx (advance_clock 1 (w_ctx w)) (set_w_credits q w))) by done.
      rewrite (run_lift _ _ _ _ Es). exact Esend.
    + done.
    + done.
    + done.
    + done.
    + done.
    + done.
    + exists b', ud. done.
  - exists (set_w_credits q w). split; [done|]. split; [by rewrite (run_bind _ _ _ _ _ E)|]. done.
Qed.

(** No limits are due: they are computed anew at every 2000th request. *)
Definition not_due (service : string) w : Prop :=
  forall x, get (ema_us_sidecar_rtt_us (e_stats (w_env w))) service = Ok x -> u32 (ema_count x + 1) mod 2000 <> 0.

Lemma update_limits_run rtt service w : server_inv w -> service ∈ keys -> not_due service w ->
  exists m, over keys m /\
    update_limits c rtt service w = Ret tt (set_w_env (set_stats (set_us_rtt m (e_stats (w_env w))) (w_env w)) w).
Proof.
  intros [_ _ Hr _] Hk Hd. set (m0 := ema_us_sidecar_rtt_us (e_stats (w_env w))) in *.
  destruct (update_is_ok keys m0 service (fun x => Ok (ema_update rtt x)) Hr Hk) as [m Hm]; [by intros; eexists|].
  exists m. split; [by eapply over_update|]. unfold update_limits.
  rewrite (run_bind _ _ _ tt (set_w_env (set_stats (set_us_rtt m (e_stats (w_env w))) (w_env w)) w)).
  2:{ apply run_zoom. fold m0. by rewrite Hm. }
  rewrite (run_bind _ _ _ (set_us_rtt m (e_stats (w_env w))) (set_w_env (set_stats (set_us_rtt m (e_stats (w_env w))) (w_env w)) w)) by done.
  destruct (update_get _ _ _ _ (over_wf _ _ Hr) Hm) as [(x & y & Hx & Hy & Hg) _].
  rewrite (run_lift _ _ _ y Hg). injection Hy as <-.
  rewrite (proj2 (Z.eqb_neq _ _)); [done|]. by apply Hd.
Qed.

(** The request [p] of a client, in buffer [req]. *)
Record is_request (req : Buffer) (p : Packet) : Prop := {
  ir_holds : holds req p;
  ir_ok : packet_ok p;
  ir_type : pk_type p = 1;
  ir_flag : pk_flag p = 0;
  ir_requested : pk_requested p = 1;
  ir_short : pk_len p < 128;
  ir_rtt : 0 <= pk_rtt p
}.

Lemma request_byte d i x : slice i 1 d = Some [x] -> at_char d i = Ok (schar x).
Proof. intros Hx%slice_one. unfold at_char, at_. by rewrite Hx. Qed.

(** The grant prepared for the request, when it is queued at [t]. *)
Definition grant_for (req : Buffer) (p : Packet) (t : Z) (g : Buffer) : Prop :=
  holds g (granted_packet p) /\ slice 4 1 (data g) = Some [1] /\ addr g = addr req /\ enter_queue_ts g = t.

Lemma prepare_grant req p t b : is_request req p -> fresh_for b p ->
  exists g, write_failed_dn_response req b = Ok g /\ grant_for req p t (set_ts t g).
Proof.
  intros Hq Hb. destruct (write_credit_grant_ok 1 req b p (ir_holds _ _ Hq) Hb) as (g & E & [Hc Hf Hl] & H4 & _).
  exists (prepare_sendmsg (addr req) g). unfold write_failed_dn_response. rewrite E. split; [done|]. by split.
Qed.

Lemma grant_for_waits req p t g : is_request req p -> grant_for req p t g -> 0 <= t < 2 ^ 62 -> grant_waits g.
Proof.
  intros Hq (Hh & _ & _ & Hts) Ht. exists (granted_packet p). cbn [granted_packet pk_type pk_flag].
  change (pk_len (granted_packet p)) with (pk_len p). rewrite Hts. destruct Hq. by split.
Qed.

(** The read of a request: fields, and the limits left alone. *)
Lemma serve_request_read req p w : is_request req p -> server_inv w -> pk_service p ∈ keys -> not_due (pk_service p) w ->
  exists m, over keys m /\ serve_request c req w =
    (resp ← on_bm get_udp_buffer; resp ← lift (write_failed_dn_response req resp); t ← now_us;
     _ ← on_credits_ (fun q => push q (set_ts t resp) (pk_service p) (pk_priority p)); check_credit_transmission)
    (set_w_env (set_stats (set_us_rtt m (e_stats (w_env w))) (w_env w)) w).
Proof.
  intros [[Hc Hf Hfit] Hok Ht Hfl Hrq Hl Hrtt] Hi Hk Hd.
  destruct (update_limits_run (pk_rtt p) (pk_service p) w Hi Hk Hd) as (m & Hm & E).
  exists m. split; [done|]. unfold serve_request.
  rewrite (run_lift _ _ _ 0) by (rewrite (request_byte _ _ _ (ca_flag _ _ Hc)), Hfl; done).
  rewrite run_guard by done.
  rewrite (run_lift _ _ _ 1) by (rewrite (request_byte _ _ _ (ca_requested _ _ Hc)), Hrq; done).
  rewrite run_guard by done.
  rewrite (run_lift _ _ _ (pk_service p)) by (apply (read_service _ p Hc); [by left|done|lia]).
  rewrite (run_lift _ _ _ (pk_id p)) by by apply (read_id _ p).
  rewrite (run_lift _ _ _ (pk_priority p)) by by apply (read_priority _ p).
  rewrite (run_lift _ _ _ (pk_rtt p)) by by apply (read_rtt _ p).
  rewrite run_guard by (apply negb_false_iff; lia).
  by rewrite (run_bind _ _ _ _ _ E).
Qed.

Lemma server_inv_bm bm w : server_inv w -> server_inv (set_w_bm bm w).
Proof. intros []. by split. Qed.
Lemma server_inv_tick n w : server_inv w -> server_inv (set_w_ctx (advance_clock n (w_ctx w)) w).
Proof. intros []. by split. Qed.
Lemma server_inv_rtt m w : server_inv w -> over keys m ->
  server_inv (set_w_env (set_stats (set_us_rtt m (e_stats (w_env w))) (w_env w)) w).
Proof. intros [] ?. by split. Qed.

(** The entry [g] joins the queue. *)
Lemma push_run g service (pr : nat) w : server_inv w -> grant_waits g -> (pr < PriorityCount)%nat -> service ∈ keys ->
  sum_sizes (credit_queue (w_credits w)) < 2 ^ 62 - 1 ->
  exists q, on_credits_ (fun q => push q g service (Z.of_nat pr)) w = Ret tt (set_w_credits q w) /\
    server_inv (set_w_credits q w) /\ spec_step (abs (w_credits w)) (LPush g service pr) (abs q).
Proof.
  intros [Hcq Hw Hr Hck] Hg Hp Hk Hsz.
  destruct (push_correct keys _ g service pr Hcq Hp Hk Hsz) as (q & E & Hq & _).
  assert (cq_step (w_credits w) (LPush g service pr) q) as Hstep by (constructor; [done|done|unfold PriorityCount in Hp; lia]).
  destruct (step_refines keys _ _ _ Hcq Hstep) as [_ Hs].
  exists q. split; [apply run_zoom; by rewrite E|]. split; [|done]. split; [done| |done|done].
  pose proof (step_conserves _ _ _ Hs) as Hc. cbn [pushes grants omap list_omap app] in Hc.
  cbn [set_w_credits w_credits]. rewrite <- Hc. apply Forall_app. by split; [|constructor].
Qed.

(** The answer to a packet: the label [l] moves the queue, then what [pop]
    grants is sent. *)
Definition answered (l : label Buffer) (t : Z) w w' : Prop := server_inv w' /\ aside w w' /\
  exists o, steps spec_step (abs (w_credits w)) [l; LPop o] (abs (w_credits w')) /\
    match o with None => w_ring w' = w_ring w | Some b => sends_grant t b w w' end.

Lemma answer_run l w w1 : server_inv w1 -> spec_step (abs (w_credits w)) l (abs (w_credits w1)) ->
  ud_ready (w_bm w1) -> w_ring w1 = w_ring w -> w_sockfd w1 = w_sockfd w -> aside w w1 ->
  exists w', check_credit_transmission w1 = Ret tt w' /\ answered l (to_us (readings (w_ctx w1) 0%nat)) w w'.
Proof.
  intros Hi Hs Hud Hr Hf Has. destruct (check_transmission_run w1 Hi Hud) as (o & q & w' & Hpop & E & Hq & Hi' & Has' & Ho).
  exists w'. split; [done|]. split; [done|]. split; [unfold aside in *; intuition congruence|]. exists o. split.
  - econstructor; [exact Hs|]. econstructor; [|constructor].
    apply (step_refines keys (w_credits w1)); [apply Hi|]. constructor. by rewrite Hq.
  - destruct o; [|congruence]. destruct Ho as (b' & ud & ? & ? & ? & ? & E'). exists b', ud. by rewrite E', Hr, Hf.
Qed.

Lemma readings_tick x : readings (advance_clock 1 x) 0%nat = readings x 1%nat.
Proof. unfold readings, advance_clock. cbn. f_equal. lia. Qed.

Lemma serve_request_run req p w : is_request req p -> server_inv w -> pk_service p ∈ keys ->
  0 <= pk_priority p < 3 -> not_due (pk_service p) w -> sum_sizes (credit_queue (w_credits w)) < 2 ^ 62 - 1 ->
  udp_ready (w_bm w) p -> ud_ready (w_bm w) ->
  exists g w', grant_for req p (to_us (readings (w_ctx w) 0%nat)) g /\ serve_request c req w = Ret tt w' /\
    answered (LPush g (pk_service p) (Z.to_nat (pk_priority p))) (to_us (readings (w_ctx w) 1%nat)) w w'.
Proof.
  intros Hq Hi Hk Hp Hd Hsz (b & bm' & Hb & Hfr) (ud & udq & Hud & Hub).
  destruct (serve_request_read req p w Hq Hi Hk Hd) as (m & Hm & ->).
  set (w0 := set_w_env _ w). assert (server_inv w0) as Hi0 by exact (server_inv_rtt m w Hi Hm).
  destruct (prepare_grant req p (to_us (readings (w_ctx w) 0%nat)) b Hq Hfr) as (g & Eg & Hg).
  exists (set_ts (to_us (readings (w_ctx w) 0%nat)) g).
  set (w1 := set_w_ctx (advance_clock 1 (w_ctx w0)) (set_w_bm bm' w0)).
  assert (server_inv w1) as Hi1 by exact (server_inv_tick 1 _ (server_inv_bm bm' _ Hi0)).
  destruct (push_run (set_ts (to_us (readings (w_ctx w) 0%nat)) g) (pk_service p) (Z.to_nat (pk_priority p)) w1 Hi1)
    as (q & Epush & Hi2 & Hs); [eapply grant_for_waits; [exact Hq|exact Hg|apply Hi]|unfold PriorityCount; lia|done|done|].
  rewrite Z2Nat.id in Epush by lia.
  destruct (answer_run (LPush (set_ts (to_us (readings (w_ctx w) 0%nat)) g) (pk_service p) (Z.to_nat (pk_priority p)))
    w (set_w_credits q w1) Hi2 Hs) as (w' & E & Ha); [|done..|].
  { exists ud, udq. split; [|done]. cbn. unfold get_udp_buffer in Hb. destruct (free_udp_buffer_queue (w_bm w)); [done|].
    bind_inv. destruct a as [? ?]. by injection Hb as _ <-. }
  exists w'. split; [done|].
  assert (readings (w_ctx (set_w_credits q w1)) 0%nat = readings (w_ctx w) 1%nat) as Et by exact (readings_tick (w_ctx w)).
  rewrite Et in Ha. split; [|exact Ha].
  rewrite (run_bind _ _ _ b (set_w_bm bm' w0)) by by apply run_zoom.
  rewrite (run_lift _ _ _ g Eg), (run_bind _ _ _ (to_us (readings (w_ctx w) 0%nat)) w1) by done.
  by rewrite (run_bind _ _ _ _ _ Epush).
Qed.

(** C7: a server that receives a credit request for a service it hosts queues
    a grant for it, with the request's service, id and address and one
    credit, and answers it or another waiting request when the limits admit
    one: it sends exactly the entry that its queue grants, as a well-formed
    grant stamped with its waiting time, or nothing if nothing may be
    granted. (Shown for requests at which the limits are not computed anew.) *)
Theorem credit_request_served req p w : is_request req p -> server_inv w -> pk_service p ∈ keys ->
  0 <= pk_priority p < 3 -> not_due (pk_service p) w -> sum_sizes (credit_queue (w_credits w)) < 2 ^ 62 - 1 ->
  udp_ready (w_bm w) p -> ud_ready (w_bm w) ->
  exists g w', grant_for req p (to_us (readings (w_ctx w) 0%nat)) g /\ serve_request c req w = Ret tt w' /\
    answered (LPush g (pk_service p) (Z.to_nat (pk_priority p))) (to_us (readings (w_ctx w) 1%nat)) w w'.
Proof. apply serve_request_run. Qed.

(** A slot given back. *)
Lemma decrement_run service w : server_inv w -> is_ok (decrement_in_flight (w_credits w) service) -> ud_ready (w_bm w) ->
  exists w', decrement_and_check service w = Ret tt w' /\ answered (LDecrement service) (to_us (readings (w_ctx w) 0%nat)) w w'.
Proof.
  intros Hi [q Hq] Hud. assert (cq_step (w_credits w) (LDecrement service) q) as Hstep by by constructor.
  destruct (step_refines keys _ _ _ (si_credits _ Hi) Hstep) as [Hwf Hs].
  assert (server_inv (set_w_credits q w)) as Hi'.
  { destruct Hi as [_ Hw Hr Hck]. split; [done| |done|done].
    pose proof (step_conserves _ _ _ Hs) as Hcons. cbn [pushes grants omap list_omap app] in Hcons.
    rewrite app_nil_r in Hcons. cbn [set_w_credits w_credits]. by rewrite <- Hcons. }
  destruct (answer_run (LDecrement service) w (set_w_credits q w) Hi' Hs Hud eq_refl eq_refl) as (w' & E & Ha); [done|].
  exists w'. split; [|exact Ha].
  unfold decrement_and_check. by rewrite (run_bind _ _ _ tt (set_w_credits q w)) by (apply run_zoom; by rewrite Hq).
Qed.

(** C8: a credit return gives the slot back and passes it on at once: the
    counters of the service drop by one, and the waiting grant that may then
    be sent, if any, is sent. *)
Theorem credit_return_served ret p w : holds ret p -> pk_type p = 2 -> pk_len p < 128 -> server_inv w ->
  is_ok (decrement_in_flight (w_credits w) (pk_service p)) -> ud_ready (w_bm w) ->
  exists w', protocol_server c ret w = Ret tt w' /\
    answered (LDecrement (pk_service p)) (to_us (readings (w_ctx w) 0%nat)) w w'.
Proof.
  intros [Hc Hf Hfit] Ht Hl Hi Hq Hud. destruct (decrement_run (pk_service p) w Hi Hq Hud) as (w' & E & Ha).
  exists w'. split; [|exact Ha]. unfold protocol_server.
  rewrite (run_lift _ _ _ 2) by (rewrite (request_byte _ _ _ (ca_type _ _ Hc)), Ht; done).
  cbn [Z.eqb Pos.eqb].
  by rewrite (run_lift _ _ _ (pk_service p)) by (apply (read_service _ p Hc); [by right|done|lia]).
Qed.
End Server.

(** A thread that serves "geo" receives a request and grants it at once; the
    return gives the slot back. *)
Lemma ex_server n : server_inv geo (ex_world n).
Proof.
  split; [exact geo_credits_wf| |exact geo_rtt_over|exact ex_clock_range].
  cbn [w_credits ex_world]. rewrite geo_credits_empty. constructor.
Qed.

Lemma ex_request_ok : is_request ex_request ex_packet.
Proof. split; [apply ex_request_holds|apply ex_packet_ok|done|done|done|by vm_compute|cbn; lia]. Qed.

Lemma credit_request_served_witness : exists g w',
  serve_request ex_config ex_request (ex_world 4) = Ret tt w' /\
  grant_for ex_request ex_packet 0 g /\ answered geo (LPush g "geo" 2) 1 (ex_world 4) w' /\
  length (w_ring w') = 1%nat.
Proof.
  destruct (credit_request_served geo ex_config ex_request ex_packet (ex_world 4) ex_request_ok (ex_server 4))
    as (g & w' & Hg & E & Ha).
  - by apply (bool_decide_unpack _).
  - cbn. lia.
  - intros x Hx. vm_compute in Hx. injection Hx as <-. by vm_compute.
  - by vm_compute.
  - eexists _, _. split; [vm_compute; reflexivity|]. split; [done|by vm_compute|by vm_compute].
  - eexists _, _. by split.
  - exists g, w'. split; [exact E|]. split; [exact Hg|]. split; [exact Ha|].
    assert (match serve_request ex_config ex_request (ex_world 4) with Ret _ w => length (w_ring w) | _ => 0%nat end = 1%nat)
      as Hl by by vm_compute. by rewrite E in Hl.
Defined.

Definition ex_return : Buffer := Eval vm_compute in
  match fill_credit_return ex_request (ex_udp 4) with Ok b => b | Err _ => ex_udp 4 end.
Lemma ex_return_holds : holds ex_return (returned_packet ex_packet).
Proof. split; [split|..]; by vm_compute. Qed.

Lemma credit_return_served_witness : exists w', protocol_server ex_config ex_return (ex_world 4) = Ret tt w' /\
  answered geo (LDecrement "geo") 0 (ex_world 4) w'.
Proof.
  apply (credit_return_served geo ex_config ex_return (returned_packet ex_packet) (ex_world 4) ex_return_holds);
    [done|by vm_compute|apply ex_server|eexists; vm_compute; reflexivity|eexists _, _; by split].
Defined.

(** ** Fan-out: one slot for all the branches *)

Section FanOut.
Context `{Nghttp2} `{HdrHistogram} (keys : list string) (c : Config) (id : Z) (j : nat) (svc : string) (entry : MappingInfo).
Implicit Types (w : World).

(** The request [j] from upstream, of service [svc], has received [k]
    responses from its branches. *)
Record branches (k : Z) w : Prop := {
  br_request : get_ingress_rpc id (e_mapper (w_env w)) = Ok j;
  br_message : exists r, e_heap (w_env w) !! j = Some r /\ service r = svc /\ pfanout_res r = k;
  br_entry : mapping c !! svc = Some entry
}.

(** One response: the count, and the slot at the first. *)
Lemma fanout_response_run k w : branches k w -> pfanout entry = Some true ->
  exists w1, branches (u8 (k + 1)) w1 /\ w_credits w1 = w_credits w /\ w_ring w1 = w_ring w /\
    fanout_res_credit_management c id w =
      (if 1 <? u8 (k + 1) then Ret tt w1 else on_credits_ (fun q => increment_in_flight q svc) w1).
Proof.
  intros [Hj (r & Hr & Hs & <-) He] Hp. exists (set_w_env (assign j (set_pfanout_res (u8 (pfanout_res r + 1)) r) (w_env w)) w).
  assert (forall w r, e_heap (w_env w) !! j = Some r -> rpc j w = Ret r w) as Hrpc.
  { intros w0 r0 E. unfold rpc, gets, deref, mbind, M_bind. by rewrite E. }
  set (r1 := set_pfanout_res (u8 (pfanout_res r + 1)) r). set (w1 := set_w_env _ w).
  assert (e_heap (w_env w1) !! j = Some r1) as Hr1 by apply lookup_insert_eq.
  split; [split; [exact Hj|by exists r1|exact He]|]. split; [done|]. split; [done|].
  unfold fanout_res_credit_management. rewrite (run_bind _ _ _ (w_env w) w) by done.
  rewrite (run_lift _ _ _ j Hj), (run_bind _ _ _ r w) by by apply Hrpc.
  unfold mapping_at. rewrite (run_lift _ _ _ entry) by by rewrite Hs, He. rewrite Hs.
  unfold value_or. rewrite Hp. change (default false (Some true)) with true. cbn iota.
  rewrite (run_bind _ _ _ (negb (1 <? u8 (pfanout_res r + 1))) w1); [by destruct (1 <? _)|].
  rewrite (run_bind _ _ _ tt w1) by (apply run_zoom; unfold deref; by rewrite Hr).
  rewrite (run_bind _ _ _ r1 w1) by by apply Hrpc. done.
Qed.

Lemma fanout_rest_run n k w : branches k w -> pfanout entry = Some true -> 1 <= k -> k + Z.of_nat n <= 255 ->
  exists w', repeatM n (fanout_res_credit_management c id) w = Ret tt w' /\ branches (k + Z.of_nat n) w' /\
    w_credits w' = w_credits w /\ w_ring w' = w_ring w.
Proof.
  revert k w. induction n as [|n IH]; intros k w Hb Hp Hk Hn.
  { exists w. rewrite Z.add_0_r. done. }
  destruct (fanout_response_run k w Hb Hp) as (w1 & Hb1 & Hc1 & Hr1 & E).
  rewrite (wrap_small 8) in * by lia. rewrite (proj2 (Z.ltb_lt 1 (k + 1))) in E by lia.
  destruct (IH (k + 1) w1 Hb1 Hp ltac:(lia) ltac:(lia)) as (w' & Ew & Hb' & Hc' & Hr').
  exists w'. cbn [repeatM]. rewrite (run_bind _ _ _ _ _ E). split; [done|].
  replace (k + Z.of_nat (S n)) with (k + 1 + Z.of_nat n) by lia. split; [done|]. by split; etrans.
Qed.

(** C16: the responses of the branches of a parallel fan-out take one slot of
    the queue between them: however many come, up to the 255 that the counter
    can count, the first increments the counters of the request's service and
    the others change nothing but the count. *)
Theorem fanout_responses_take_one_slot n w : branches 0 w -> pfanout entry = Some true -> (1 <= n <= 255)%nat ->
  cq_wf keys (w_credits w) -> is_ok (increment_in_flight (w_credits w) svc) ->
  exists w', repeatM n (fanout_res_credit_management c id) w = Ret tt w' /\ branches (Z.of_nat n) w' /\
    cq_wf keys (w_credits w') /\ spec_step (abs (w_credits w)) (LIncrement svc) (abs (w_credits w')) /\ w_ring w' = w_ring w.
Proof.
  intros Hb Hp Hn Hwf [q Hq]. destruct n as [|n]; [lia|].
  destruct (fanout_response_run 0 w Hb Hp) as (w1 & [Hj1 Hm1 He1] & Hc1 & Hr1 & E). change (1 <? u8 (0 + 1)) with false in E.
  assert (on_credits_ (fun q => increment_in_flight q svc) w1 = Ret tt (set_w_credits q w1)) as Eq
    by (apply run_zoom; by rewrite Hc1, Hq).
  rewrite Eq in E. destruct (fanout_rest_run n 1 (set_w_credits q w1) ltac:(by split) Hp ltac:(lia) ltac:(lia)) as (w' & Ew & Hb' & Hc' & Hr').
  exists w'. cbn [repeatM]. rewrite (run_bind _ _ _ _ _ E). split; [done|].
  replace (Z.of_nat (S n)) with (1 + Z.of_nat n) by lia. split; [done|]. rewrite Hc', Hr'.
  assert (cq_step (w_credits w) (LIncrement svc) q) as Hst by by constructor.
  destruct (step_refines keys _ _ _ Hwf Hst). by split.
Qed.
End FanOut.

(** ** Routing *)

Section Routing.
Context `{Nghttp2} `{HdrHistogram}.
Implicit Types (w : World).

(** The pool for a request of [service]. *)
Definition pool_for (t : ConnectionType) (service : string) w : res ConnectionPool :=
  match t with INGRESS => Ok (w_ingress_pool w) | EGRESS => get_pool service (w_routes w) end.

Lemma available_up w p : available w p = true -> exists x, w_conns w !! p = Some x /\ c_status x = UP.
Proof.
  unfold available. destruct (w_conns w !! p) as [x|]; [|done]. intros Ha. exists x. split; [done|].
  destruct (c_proto x); [unfold http1_available in Ha; apply andb_prop in Ha as [_ Ha]|]; by apply bool_decide_eq_true in Ha.
Qed.

(** Picking a connection: from the pool, or an exception. *)
Definition pick (t : ConnectionType) (service : string) : M World nat :=
  match t with INGRESS => pick_ingress | EGRESS => pick_route service end.
(** The pool remembers where it was found. *)
Lemma get_pool_insert service k cp' w : route_key service (w_routes w) = Ok k ->
  get_pool service (<[k:=cp']> (w_routes w)) = Ok cp'.
Proof.
  unfold get_pool, route_key. destruct (w_routes w !! service) as [?|] eqn:Es.
  - intros [= <-]. rewrite !lookup_insert_eq. cbn. by rewrite lookup_insert_eq.
  - destruct (w_routes w !! "*"%string) as [?|] eqn:Ew; [|done]. intros [= <-].
    assert (service <> "*"%string) by (intros ->; congruence).
    rewrite lookup_insert_ne, Es, lookup_insert_eq by done. cbn. by rewrite lookup_insert_eq.
Qed.
Definition only_pools w w' : Prop :=
  w_conns w' = w_conns w /\ w_ctx w' = w_ctx w /\ w_bm w' = w_bm w /\ w_ring w' = w_ring w /\
  w_credits w' = w_credits w /\ w_ppm w' = w_ppm w /\ w_in_local w' = w_in_local w /\ w_util w' = w_util w /\
  w_last_rtt w' = w_last_rtt w /\ w_sockfd w' = w_sockfd w.
Lemma pick_run t service cp w : pool_for t service w = Ok cp ->
  match get_any_connection (available w) cp with
  | Ok (p, cp') => exists w', pick t service w = Ret p w' /\ only_pools w w' /\ pool_for t service w' = Ok cp'
  | Err (Throw e) => pick t service w = Exc e w
  | Err f => pick t service w = Stop f
  end.
Proof.
  destruct t; cbn [pool_for pick].
  - intros [= <-]. unfold pick_ingress. rewrite (run_bind _ _ _ w w) by done.
    destruct (get_any_connection _ _) as [[p cp]|[]]; try done. by eexists.
  - unfold get_pool. intros E. bind_inv. unfold pick_route. rewrite (run_bind _ _ _ w w) by done.
    rewrite (run_lift _ _ _ a E0), (run_lift _ _ _ cp E).
    destruct (get_any_connection _ _) as [[p cp']|[]]; try done. eexists. split; [reflexivity|]. split; [done|].
    by apply get_pool_insert.
Qed.

(** A request for which a connection is free. *)
Lemma route_request_free t stream fd i r cp w : get_ds_rpc t stream fd (e_mapper (w_env w)) = Ok i ->
  e_heap (w_env w) !! i = Some r -> pool_for t (service r) w = Ok cp -> pool_wf cp ->
  (exists k p, connections cp !! k = Some p /\ available w p = true) ->
  exists p x k w' cp', route_request t stream fd w = Ret (Some p) (set_w_env (assign i (set_us_fd (c_fd x) r) (w_env w)) w') /\
    connections cp !! k = Some p /\ w_conns w !! p = Some x /\ available w p = true /\ c_status x = UP /\
    only_pools w w' /\ pool_for t (service r) w' = Ok cp' /\ connections cp' = connections cp /\ pool_addr cp' = pool_addr cp.
Proof.
  intros Hi Hr Hcp Hwf (k0 & p0 & Hk0 & Hp0). pose proof (get_any_spec (available w) cp Hwf) as Hany.
  pose proof (pick_run t (service r) cp w Hcp) as Hpick.
  pose proof (get_any_addr (available w) cp) as Haddr.
  destruct (get_any_connection _ _) as [[p cp']|f]; [|destruct Hany as [-> Hn]; by rewrite (Hn k0 p0) in Hp0].
  specialize (Haddr p cp' eq_refl).
  destruct Hany as ((k & Hk) & Ha & Hcp' & _). destruct Hpick as (w' & E & Ho & Hpool). pose proof Ho as (Hc & Hx & _).
  assert (w_env w' = w_env w) as He by (unfold w_env; by rewrite Hx).
  destruct (available_up w p Ha) as (x & Hpx & Hup). exists p, x, k, w', cp'. split; [|done].
  unfold route_request. rewrite (run_bind _ _ _ (w_env w) w) by done. rewrite (run_lift _ _ _ i Hi). unfold catch_fatal.
  rewrite (run_bind _ _ _ r w) by (unfold rpc, gets, deref, mbind, M_bind; by rewrite Hr).
  fold (pick t (service r)). rewrite (run_bind _ _ _ _ _ E).
  rewrite (run_bind _ _ _ x w') by (unfold conn_at, gets, mbind, M_bind; by rewrite Hc, Hpx). rewrite Hup.
  rewrite (run_bind _ _ _ tt (set_w_env (assign i (set_us_fd (c_fd x) r) (w_env w')) w'))
    by (apply run_zoom; unfold deref; by rewrite He, Hr).
  by rewrite He.
Qed.

(** C17: a request is sent on a connection that is up and free whenever its pool
    has one, and the connection's descriptor is recorded in the message;
    when the pool has none the process aborts. The request is never put back
    in its queue: the branches for connections that are not up are dead. *)
Theorem route_request_outcome t stream fd i r cp w : get_ds_rpc t stream fd (e_mapper (w_env w)) = Ok i ->
  e_heap (w_env w) !! i = Some r -> pool_for t (service r) w = Ok cp -> pool_wf cp ->
  ((exists k p, connections cp !! k = Some p /\ available w p = true) ->
   exists p x k w', route_request t stream fd w = Ret (Some p) w' /\
     connections cp !! k = Some p /\ w_conns w' !! p = Some x /\ available w p = true /\ c_status x = UP /\
     e_heap (w_env w') !! i = Some (set_us_fd (c_fd x) r) /\ e_queue (w_env w') = e_queue (w_env w)) /\
  ((forall k p, connections cp !! k = Some p -> available w p = false) -> route_request t stream fd w = Stop Fatal).
Proof.
  intros Hi Hr Hcp Hwf. split.
  - intros Hfree. destruct (route_request_free t stream fd i r cp w Hi Hr Hcp Hwf Hfree)
      as (p & x & k & w' & cp' & E & Hk & Hp & Ha & Hup & (Hc & _) & _).
    eexists p, x, k, _. split; [exact E|]. split; [done|]. split; [cbn; by rewrite Hc|]. split; [done|]. split; [done|].
    split; [apply lookup_insert_eq|done].
  - intros Hn. pose proof (get_any_spec (available w) cp Hwf) as Hany. pose proof (pick_run t (service r) cp w Hcp) as Hpick.
    unfold route_request. rewrite (run_bind _ _ _ (w_env w) w) by done. rewrite (run_lift _ _ _ i Hi). unfold catch_fatal.
    rewrite (run_bind _ _ _ r w) by (unfold rpc, gets, deref, mbind, M_bind; by rewrite Hr). fold (pick t (service r)).
    destruct (get_any_connection _ _) as [[p cp']|f].
    + destruct Hany as ((k & Hk) & Ha & _). by rewrite (Hn k p Hk) in Ha.
    + destruct Hany as [-> _]. unfold mbind at 1, M_bind at 1. by rewrite Hpick.
Qed.
End Routing.

(** ** Examples of requests *)

(** A request to "geo", which calls two services in parallel; it arrived on
    descriptor 30 and waits to be sent on the connection at 0, which is up. *)
Definition fan_entry : MappingInfo := mkMappingInfo ["rate"; "user"]%string None (Some true) None.
Definition fan_config : Config := mkConfig 64 16 4096 1 8080 9090 "127.0.0.1" 8000 "geo" ∅ {["geo"%string := fan_entry]}
  false false false None None (Some 4) (Some (f32_of_Z 0)) 0
  default_aimd_err_d default_aimd_err_i default_aimd_adj_d default_aimd_adj_i default_safe_multiply.
Definition geo_request : RPCMessage :=
  mkRPC 1 30 (-1) (-1) (2 ^ 32) 5 0 INGRESS 0 0 0 0 0 [] None HTTP1 "geo" "/geo" "GET" 1 200 "OK" false
    [] 0 [] 0 [] 0 (mkDR [] 0 0) (mkDR [] 0 0).
Definition request_world : World :=
  set_w_conns {[0%nat := set_c_status UP (upstream_conn 40 zero_addr "app" 80 INGRESS (Proto1 h1_make))]}
    (set_w_ingress_pool (mkConnPool {[40 := 0%nat]} INGRESS None 0)
      (set_w_env (mkEnv {[0%nat := geo_request]} 0
          (mkMapper (mkByType {[30 := {[1 := 0%nat]}]} ∅) (mkByType ∅ ∅) (mkByType {[1 := 0%nat]} ∅) (mkPool [] []))
          rpc_queue_make (e_stats (w_env (ex_world 4)))) (ex_world 4))).

Lemma fanout_responses_take_one_slot_witness :
  exists w', repeatM 2 (fanout_res_credit_management fan_config (2 ^ 32)) request_world = Ret tt w' /\
    spec_step (abs geo_credits) (LIncrement "geo") (abs (w_credits w')).
Proof.
  destruct (fanout_responses_take_one_slot geo fan_config (2 ^ 32) 0 "geo" fan_entry 2 request_world)
    as (w' & E & _ & _ & Hs & _).
  - split; [by vm_compute|exists geo_request; split; [apply lookup_singleton_eq|done]|apply lookup_singleton_eq].
  - done.
  - lia.
  - exact geo_credits_wf.
  - eexists. vm_compute. reflexivity.
  - exists w'. split; [exact E|exact Hs].
Defined.

Lemma route_request_outcome_witness : exists w', route_request INGRESS 1 30 request_world = Ret (Some 0%nat) w' /\
  route_request INGRESS 1 30 (set_w_conns ∅ request_world) = Stop Fatal.
Proof.
  assert (pool_wf (w_ingress_pool request_world)) as Hwf by (right; vm_compute; lia).
  destruct (route_request_outcome INGRESS 1 30 0 geo_request (w_ingress_pool request_world) request_world) as [Hup _];
    [by vm_compute|apply lookup_singleton_eq|done|exact Hwf|].
  destruct (route_request_outcome INGRESS 1 30 0 geo_request (w_ingress_pool request_world) (set_w_conns ∅ request_world))
    as [_ Hdown]; [by vm_compute|apply lookup_singleton_eq|done|exact Hwf|].
  destruct Hup as (p & x & k & w' & E & Hk & _); [exists 40, 0%nat; split; [apply lookup_singleton_eq|by vm_compute]|].
  exists w'. split.
  - cbn in Hk. apply lookup_singleton_Some in Hk as [_ <-]. exact E.
  - apply Hdown. intros k' p' _. done.
Defined.
