(* ===== verification/Exchange.v ===== *)
(** * A credit, from request to grant

    The client's and the server's handlers composed through the datagrams
    they send: what one thread hands to the ring, the kernel delivers to
    another. *)

From Stdlib Require Import ZArith Lia Ascii.
From stdpp Require Import base gmap strings list fin_maps.
From S2P Require Import Prelude Fp Config Buffers PicoHttp Rlp RpcMessage RpcMapper Queues LocalMap LocalMapProps Stats Ingress Connection Moves Pool Http1 Http1Inv Http2 CreditQueue CreditQueueSpec CreditQueueProps World ExampleWorld State StateProps.

Open Scope Z_scope.

(** ** The network *)

(** The datagram that was sent in [b] arrives in [b'], from [from]. *)
Record arrives (b : Buffer) (from : Addr) (b' : Buffer) : Prop := {
  av_filled : filled b' = filled b;
  av_data : slice 0 (Z.to_nat (filled b)) (data b') = slice 0 (Z.to_nat (filled b)) (data b);
  av_fits : filled b' <= Z.of_nat (length (data b'));
  av_from : addr b' = from
}.

Lemma arrives_slice b from b' p j n : arrives b from b' -> holds b p -> (j + n <= Z.to_nat (pk_len p))%nat ->
  slice j n (data b') = slice j n (data b).
Proof.
  intros [Hf Hd _ _] [_ Hb Hfit] Hj. rewrite Hb in Hd.
  assert (exists bs, slice 0 (Z.to_nat (pk_len p)) (data b) = Some bs) as [bs Hs].
  { unfold slice. rewrite decide_True by lia. eauto. }
  rewrite Hs in Hd. by rewrite (slice_sub _ _ _ _ _ Hs Hj), (slice_sub _ _ _ _ _ Hd Hj).
Qed.
Lemma arrives_holds b from b' p : arrives b from b' -> holds b p -> holds b' p.
Proof.
  intros Ha Hh. split.
  - eapply carries_copy; [apply Hh|]. intros. by eapply arrives_slice.
  - rewrite (av_filled _ _ _ Ha). apply Hh.
  - rewrite <- (ho_filled _ _ Hh), <- (av_filled _ _ _ Ha). apply (av_fits _ _ _ Ha).
Qed.

Section Exchange.
Context `{Nghttp2} `{HdrHistogram}.
Implicit Types (w : World) (p : Packet).

(** The handlers from [w] to [w'] submit one datagram, the filled part of
    [b], to [a]. *)
Definition submits (a : Addr) (b : Buffer) w w' : Prop :=
  exists ud, ud_buffer ud = Some b /\ addr b = a /\ 0 <= filled b <= Z.of_nat (length (data b)) /\ w_ring w' = w_ring w ++ [SqSendmsg (w_sockfd w) ud].

(** ** The client asks *)

Record client_ready (service : string) (p : Packet) w : Prop := {
  cr_rtt : get (w_last_rtt w) service = Ok (pk_rtt p);
  cr_udp : udp_ready (w_bm w) p;
  cr_ud : ud_ready (w_bm w)
}.

Lemma get_udp_keeps_ud bm b bm' : get_udp_buffer bm = Ok (b, bm') -> user_data_queue bm' = user_data_queue bm.
Proof.
  unfold get_udp_buffer. destruct (free_udp_buffer_queue bm); [done|]. intros E. bind_inv. destruct a as [? ?].
  by injection E as _ <-.
Qed.

Lemma credit_request_sent a service id priority rtt w :
  let p := mkPacket 1 0 1 id priority (to_us (readings (w_ctx w) 0%nat)) rtt service in
  client_ready service p w ->
  exists b w', send_credit_request a service 1 id priority w = Ret tt w' /\ holds b p /\ submits a b w w' /\
    w_conns w' = w_conns w /\ exists n, w_ctx w' = advance_clock n (w_ctx w).
Proof.
  intros p [Hrtt (b0 & bm' & Hb & [_ Hfs [Hl _]]) (ud & q & Hq & Hu)].
  destruct (fill_credit_request_ok b0 service 1 id priority (to_us (readings (w_ctx w) 0%nat)) rtt)
    as (b & Eb & Hc & Hf & Hlen & _); [fold p; lia|done|]. fold p in Hc, Hf.
  exists (prepare_sendmsg a b). eexists. split; [|split; [split; [exact Hc|exact Hf|cbn; lia]|]].
  - unfold send_credit_request. rewrite (run_bind _ _ _ b0 (set_w_bm bm' w)) by by apply run_zoom.
    set (w1 := set_w_ctx (advance_clock 1 (w_ctx w)) (set_w_bm bm' w)).
    rewrite (run_bind _ _ _ (to_us (readings (w_ctx w) 0%nat)) w1) by done.
    rewrite (run_bind _ _ _ w1 w1) by done. rewrite (run_lift _ _ _ rtt) by done. rewrite (run_lift _ _ _ b) by done.
    rewrite (run_bind _ _ _ ud (set_w_bm (set_user_data_queue q bm') w1)).
    2:{ apply run_zoom. unfold get_user_data. change (w_bm w1) with bm'. by rewrite (get_udp_keeps_ud _ _ _ Hb), Hq. }
    unfold prepare_sendmsg_with_serveraddr, ring_prepare_sendmsg, ud_set_buffer. rewrite Hu. reflexivity.
  - split; [|split; [done|by exists 1%nat]].
    pose proof (pk_len_ge p). eexists. split; [|split; [done|split; [|reflexivity]]]; [done|]. cbn. lia.
Qed.

(** ** The server grants *)

Context (keys : list string) (cs : Config) (fuel : nat).

(** Nothing waits, and service [k] is below the limits. *)
Record idle_server (k : string) w : Prop := {
  is_inv : server_inv keys w;
  is_empty : waiting (abs (w_credits w)) = [];
  is_room : sum_sizes (credit_queue (w_credits w)) < 2 ^ 62 - 1;
  is_global : sp_in_flight (abs (w_credits w)) < sp_global (abs (w_credits w));
  is_limit : exists n l, sp_active (abs (w_credits w)) !! k = Some n /\ sp_limits (abs (w_credits w)) !! k = Some l /\ n < l
}.

(** The one entry that waits is granted. *)
Lemma sole_entry_granted (a a1 a2 : Spec Buffer) g k pr o : waiting a = [] -> sp_in_flight a < sp_global a ->
  (exists n l, sp_active a !! k = Some n /\ sp_limits a !! k = Some l /\ n < l) ->
  spec_step a (LPush g k pr) a1 -> spec_step a1 (LPop o) a2 ->
  o = Some g /\ sp_in_flight a2 = sp_in_flight a + 1 /\ waiting a2 = [].
Proof.
  intros He Hg (n & l & Hn & Hl & Hlt) Hpush Hpop.
  pose proof (step_conserves _ _ _ Hpush) as C1. pose proof (step_conserves _ _ _ Hpop) as C2.
  rewrite He in C1. cbn in C1, C2. rewrite app_nil_r in C2. rewrite <- C1 in C2.
  inversion Hpush as [? ? ? ? m q Hm Hk| | | | | |]; subst. inversion Hpop as [|? b k' p' rest Hgr|? Hnone| | | |]; subst.
  - cbn in C2. apply Permutation_singleton_l in C2. injection C2 as -> C2. by split_and!.
  - destruct (Hnone pr k g []). exists (<[k:=q ++ [g]]> m), n, l. cbn.
    assert (q = []) as ->.
    { unfold waiting in He. destruct (level_entries_insert m k q q Hk) as (rest & Hr & _).
      pose proof (list_elem_of_lookup_2 _ _ _ Hm) as Hin.
      assert (level_entries m = []) as Hlv.
      { apply (concat_nil_Forall (level_entries <$> sp_levels a)) in He. rewrite Forall_fmap, Forall_forall in He. by apply He. }
      rewrite Hlv in Hr. apply Permutation_nil_l in Hr. by destruct q. }
    split_and!; [apply list_lookup_insert_eq; by eapply lookup_lt_Some|apply lookup_insert_eq|done|done|done|done].
Qed.

Lemma serve_request_grants req p w : is_request req p -> idle_server (pk_service p) w -> pk_service p ∈ keys ->
  0 <= pk_priority p < 3 -> not_due (pk_service p) w -> udp_ready (w_bm w) p -> ud_ready (w_bm w) ->
  let t1 := to_us (readings (w_ctx w) 0%nat) in
  let t2 := to_us (readings (w_ctx w) 1%nat) in
  exists b w', dispatch_rlp_recv cs fuel req w = Ret tt w' /\ holds b (stamped_packet (i32 (t2 - t1)) (granted_packet p)) /\
    slice 4 1 (data b) = Some [1] /\ submits (addr req) b w w' /\ server_inv keys w' /\
    sp_in_flight (abs (w_credits w')) = sp_in_flight (abs (w_credits w)) + 1 /\ waiting (abs (w_credits w')) = [].
Proof.
  intros Hq [Hi He Hsz Hg Hl] Hk Hp Hd Hudp Hud t1 t2.
  destruct (serve_request_run keys cs req p w Hq Hi Hk Hp Hd Hsz Hudp Hud) as (g & w' & (Hh & H4 & Ha & Hts) & E & Hi' & _ & o & Hsteps & Ho).
  inversion Hsteps as [|? ? a1 ? ? Hpush Hrest]; subst. inversion Hrest as [|? ? a2 ? ? Hpop Hnil]; subst. inversion Hnil; subst.
  destruct (sole_entry_granted _ _ _ g (pk_service p) _ o He Hg Hl Hpush Hpop) as (-> & Hfl & Hw).
  destruct Ho as (b & ud & Es & _ & Hab & Hub & Hring).
  assert (in_i64 (t2 - enter_queue_ts g) = true) as Hr64.
  { fold t1 in Hts. rewrite Hts. pose proof (si_clock _ _ Hi (x_ticks (w_ctx w) + 0)%nat).
    pose proof (si_clock _ _ Hi (x_ticks (w_ctx w) + 1)%nat). unfold t1, t2, readings, in_i64. lia. }
  destruct (stamp_queuing_time_ok t2 g (granted_packet p) Hh Hr64) as (b' & Es' & Hb & H4' & _ & _).
  assert (b' = b) as -> by (unfold t2 in Es'; rewrite Es in Es'; by injection Es').
  exists b, w'. fold t1 in Hts. rewrite Hts in Hb. split_and!; [|done|by rewrite H4'|exists ud; split_and!; [done|by rewrite Hab, Ha|..|done]|done|done|done].
  2, 3: destruct Hb as [_ -> Hbl]; match goal with |- context [pk_len ?q] => pose proof (pk_len_ge q) end; lia.
  destruct Hq as [[Hc Hf Hfit] _ Ht Hfl' _ Hlen _]. unfold dispatch_rlp_recv.
  rewrite (run_lift _ _ _ CreditRequest) by (rewrite (read_classify _ p Hc req) by (done || lia); by rewrite Ht, Hfl').
  unfold protocol_server. rewrite (run_lift _ _ _ 1) by (rewrite (request_byte _ _ _ (ca_type _ _ Hc)), Ht; done).
  exact E.
Qed.

(** ** The client receives its credit *)

Context (cc : Config).

(** The client calls the service: it knows its RTT, and has requests to it. *)
Record calls (ds_keys : list string) (service : string) w : Prop := {
  ca_named : if is_ingress cc then ingress_service (x_ingress (w_ctx w)) = service else is_Some (w_ppm w !! service);
  ca_last : over ds_keys (w_last_rtt w);
  ca_stats : over ds_keys (ema_ds_sidecar_rtt_us (e_stats (w_env w)));
  ca_known : service ∈ ds_keys
}.

Lemma raw_id_read d p : carries d p -> packet_ok p -> raw_id d = Ok (pk_id p).
Proof.
  intros Hc Hp. unfold raw_id, raw_read. rewrite (ca_id _ _ Hc). cbn [or_fault mbind res_bind].
  by rewrite i64_be_bytes by apply Hp.
Qed.
Lemma char_read d i x : slice i 1 d = Some [x] -> char_at d i = Ok (schar x).
Proof. intros Hx%slice_one. unfold char_at. by rewrite Hx. Qed.

(** A client that has taken note of an RTT. *)
Definition rtt_recorded (m : LocalMap Z) (m2 : LocalMap ExponentialMovingAverage) w : World :=
  let w1 := set_w_last_rtt m (set_w_ctx (advance_clock 1 (w_ctx w)) w) in
  set_w_env (set_stats (set_ds_rtt m2 (e_stats (w_env w1))) (w_env w1)) w1.
Lemma grant_received ds_keys g p rtt w :
  holds g p -> packet_ok p -> pk_type p = 1 -> pk_len p < 128 -> pk_requested p = 1 -> slice 4 1 (data g) = Some [1] ->
  calls ds_keys (pk_service p) w ->
  credit_rtt (to_us (readings (w_ctx w) 0%nat)) (data g) = Ok rtt -> 0 < rtt ->
  exists m m2, credit_post_process cc g w = Ret (pk_service p, 1, pk_id p) (rtt_recorded m m2 w) /\ get m (pk_service p) = Ok rtt.
Proof.
  intros [Hc Hf Hfit] Hok Ht Hlen Hreq H4 [Hsvc Hlast Hst Hk] Hrtt Hpos. set (svc := pk_service p) in *.
  destruct (over_get _ _ _ Hlast Hk) as [old Hold].
  destruct (set_ok (w_last_rtt w) svc rtt) as [m Hm]; [apply Hlast|by apply (over_keys _ _ Hlast)|].
  set (w1 := set_w_last_rtt m (set_w_ctx (advance_clock 1 (w_ctx w)) w)).
  destruct (update_is_ok ds_keys (ema_ds_sidecar_rtt_us (e_stats (w_env w))) svc (fun x => Ok (ema_update rtt x)) Hst Hk)
    as [m2 Hm2]; [by intros; eexists|].
  exists m, m2. split; [|by eapply get_set_eq; [apply Hlast|]].
  unfold credit_post_process.
  rewrite (run_lift _ _ _ svc) by (apply (read_service _ p Hc); [by left|done|lia]).
  rewrite (run_bind _ _ _ w w) by done.
  rewrite (run_bind _ _ _ svc w).
  2:{ destruct (is_ingress cc); [by rewrite Hsvc|]. unfold ppm_check. by destruct Hsvc as [? ->]. }
  rewrite (run_lift _ _ _ (pk_id p)) by by apply raw_id_read.
  rewrite (run_lift _ _ _ (pk_timestamp p)) by by apply (read_timestamp _ p).
  rewrite (run_lift _ _ _ (pk_rtt p)) by by apply (read_rtt _ p).
  rewrite (run_bind _ _ _ (to_us (readings (w_ctx w) 0%nat)) (set_w_ctx (advance_clock 1 (w_ctx w)) w)) by done.
  rewrite (run_lift _ _ _ rtt) by done. rewrite run_guard by (apply negb_false_iff; lia).
  rewrite (run_bind _ _ _ tt w1) by (unfold zoom; cbn [w_last_rtt set_w_ctx]; by rewrite Hm).
  rewrite (run_bind _ _ _ tt (set_w_env (set_stats (set_ds_rtt m2 (e_stats (w_env w1))) (w_env w1)) w1))
    by (apply run_zoom; change (e_stats (w_env w1)) with (e_stats (w_env w)); by rewrite Hm2).
  rewrite (run_lift _ _ _ 1) by (rewrite (char_read _ _ _ (ca_requested _ _ Hc)), Hreq; done).
  rewrite (run_lift _ _ _ 1) by (rewrite (char_read _ _ _ H4); done).
  rewrite !run_guard by done. rewrite run_guard by (by rewrite bool_decide_true, andb_false_r). done.
Qed.

(** ** The exchange *)

(** C3: one exchange gets a free credit. A client asks the sidecar of a
    service for the credit of a request; when the datagram arrives there,
    nothing waits and the service is below its limits, that sidecar takes a
    slot and answers the client with one grant; when that arrives, the client
    finds in it the service, the one credit and the id of its request, and
    records as RTT the time since it asked less the time the grant waited on
    the server. *)
Theorem credit_exchange ds_keys a service id priority rtt wc ws :
  let t0 := to_us (readings (w_ctx wc) 0%nat) in
  let t1 := to_us (readings (w_ctx ws) 0%nat) in
  let t2 := to_us (readings (w_ctx ws) 1%nat) in
  let p := mkPacket 1 0 1 id priority t0 rtt service in
  packet_ok p -> 0 <= rtt -> 0 <= t0 -> (String.length service <= 101)%nat -> 0 <= priority < 3 -> client_ready service p wc ->
  idle_server service ws -> service ∈ keys -> not_due service ws -> udp_ready (w_bm ws) p -> ud_ready (w_bm ws) ->
  t1 <= t2 ->
  exists b wc', send_credit_request a service 1 id priority wc = Ret tt wc' /\ submits a b wc wc' /\
  forall client req, arrives b client req ->
  exists g ws', dispatch_rlp_recv cs fuel req ws = Ret tt ws' /\ submits client g ws ws' /\
    sp_in_flight (abs (w_credits ws')) = sp_in_flight (abs (w_credits ws)) + 1 /\ waiting (abs (w_credits ws')) = [] /\
  forall server grant w, arrives g server grant -> calls ds_keys service w ->
    let t3 := to_us (readings (w_ctx w) 0%nat) in
    t2 - t1 < t3 - t0 < 2 ^ 31 ->
    classify grant = Ok CreditGrant /\
    exists w', credit_post_process cc grant w = Ret (service, 1, id) w' /\
      get (w_last_rtt w') service = Ok ((t3 - t0) - (t2 - t1)).
Proof.
  intros t0 t1 t2 p Hok Hrtt Ht0 Hsvc Hprio Hcr His Hk Hd Hudp Hud H12.
  assert (pk_len p < 128) as Hlen by (unfold pk_len; change (Z.of_nat RLP_HEADER) with 26; cbn; lia).
  destruct (credit_request_sent a service id priority rtt wc Hcr) as (b & wc' & Ec & Hb & Hsub & _).
  exists b, wc'. split; [done|]. split; [done|]. intros client req Hreq.
  assert (is_request req p) as Hq by (split; [by eapply arrives_holds|done..]).
  destruct (serve_request_grants req p ws Hq His Hk Hprio Hd Hudp Hud) as (g & ws' & Es & Hg & H4 & Hsg & _ & Hfl & Hw).
  fold t1 t2 in Hg. rewrite (av_from _ _ _ Hreq) in Hsg.
  exists g, ws'. split; [done|]. split; [done|]. split; [done|]. split; [done|].
  intros server grant w Harr Hcalls t3 Ht3.
  pose proof (arrives_holds _ _ _ _ Harr Hg) as Hh. pose proof Hh as [Hc Hf Hfit].
  set (q := stamped_packet (i32 (t2 - t1)) (granted_packet p)) in *.
  assert (i32 (t2 - t1) = t2 - t1) as E12 by (apply swrap_small; simpl; lia).
  assert (packet_ok q) as Hqok by (destruct Hok; split; simpl; rewrite ?E12; try done; lia).
  assert (slice 4 1 (data grant) = Some [1]) as H4'.
  { rewrite (arrives_slice g server grant q 4 1 Harr Hg); [done|]. change (pk_len q) with (pk_len p). pose proof (pk_len_ge p). lia. }
  split; [by rewrite (read_classify _ q Hc grant) by (done || (change (pk_len q) with (pk_len p); lia))|].
  destruct (grant_received ds_keys grant q ((t3 - t0) - (t2 - t1)) w Hh Hqok eq_refl Hlen eq_refl H4' Hcalls)
    as (m & m2 & E & Hget); [|lia|by exists (rtt_recorded m m2 w)].
  unfold credit_rtt. rewrite (read_timestamp _ q Hc Hqok), (read_rtt _ q Hc Hqok). cbn [mbind res_bind].
  change (pk_timestamp q) with t0. change (pk_rtt q) with (i32 (t2 - t1)). rewrite E12.
  unfold checked_i64. fold t3. replace (in_i64 (t3 - t0)) with true by (unfold in_i64; symmetry; lia).
  cbn [mbind res_bind]. rewrite swrap_small by (simpl; lia). by apply checked_i32_Ok; split; [|simpl; lia].
Qed.
End Exchange.

(** A client whose request 77 waits for a credit of "geo", later, and the
    thread that serves "geo". *)
Definition geo_last : LocalMap Z := Eval vm_compute in
  match LocalMap.make 0 geo with Ok m => m | Err _ => no_map end.
Lemma geo_last_over : over geo geo_last.
Proof.
  destruct (make_built 0 geo geo_last geo_ok) as (Hwf & Hk & _); [vm_compute; reflexivity|]. by split.
Qed.
Definition geo_client (ticks : nat) : World :=
  set_w_last_rtt geo_last (set_w_ppm {["geo"%string := {[77 := 0%nat]}]}
    (set_w_env (set_stats (set_ds_rtt geo_rtt (e_stats (w_env (ex_world 4)))) (w_env (ex_world 4)))
      (set_w_ctx (advance_clock ticks (w_ctx (ex_world 4))) (ex_world 4)))).
Lemma arrives_at_once b a w w' from : submits a b w w' -> arrives b from (set_addr from b).
Proof. intros (ud & _ & _ & Hf & _). by split; cbn; try lia. Qed.

Lemma credit_exchange_witness : exists b wc' g ws' w',
  send_credit_request zero_addr "geo" 1 77 2 (geo_client 0) = Ret tt wc' /\
  dispatch_rlp_recv ex_config 10 (set_addr (mkAddr 1 9090) b) (ex_world 4) = Ret tt ws' /\
  credit_post_process ex_config (set_addr (mkAddr 2 9090) g) (geo_client 9) = Ret ("geo"%string, 1, 77) w' /\
  get (w_last_rtt w') "geo" = Ok 8.
Proof.
  destruct (credit_exchange geo ex_config 10 ex_config geo zero_addr "geo" 77 2 0 (geo_client 0) (ex_world 4))
    as (b & wc' & Ec & Hb & Hs).
  - split; by vm_compute.
  - lia.
  - by vm_compute.
  - cbn. lia.
  - lia.
  - split; [by vm_compute| |eexists _, _; by split].
    eexists _, _. split; [vm_compute; reflexivity|]. split; [done|by vm_compute|by vm_compute].
  - split; [apply ex_server|exact geo_credits_empty|by vm_compute|by vm_compute|].
    exists 0, 8. split_and!; by vm_compute.
  - by apply (bool_decide_unpack _).
  - intros x Hx. vm_compute in Hx. injection Hx as <-. by vm_compute.
  - eexists _, _. split; [vm_compute; reflexivity|]. split; [done|by vm_compute|by vm_compute].
  - eexists _, _. by split.
  - by vm_compute.
  - destruct (Hs (mkAddr 1 9090) (set_addr (mkAddr 1 9090) b)) as (g & ws' & Es & Hg & _ & _ & Hr);
      [by eapply arrives_at_once|].
    destruct (Hr (mkAddr 2 9090) (set_addr (mkAddr 2 9090) g) (geo_client 9)) as (_ & w' & Ew & Hget).
    + by eapply arrives_at_once.
    + split; [eexists; apply lookup_singleton_eq|exact geo_last_over|exact geo_rtt_over|by apply (bool_decide_unpack _)].
    + vm_compute. split; reflexivity.
    + exists b, wc', g, ws', w'. split; [exact Ec|]. split; [exact Es|]. split; [exact Ew|]. exact Hget.
Defined.
