(* ===== verification/Forward.v ===== *)
(** * A request, from its route to the ring

    Submitting a message to a connection, writing it and routing it,
    composed: what a thread hands to the kernel for a request, and where its
    response will find it. The connection is any that [transmits] the message;
    those of HTTP/1.1 are shown to here, those of HTTP/2 in [ForwardHttp2]. *)

From Stdlib Require Import ZArith Lia Ascii.
From stdpp Require Import base gmap strings list fin_maps.
From S2P Require Import Prelude Fp Config Buffers PicoHttp RpcMessage RpcMessageProps RpcMapper Queues LocalMap LocalMapProps Stats StatsProps Ingress Connection Moves Pool Http1 Http1Inv Http1Props Http2 CreditQueue World ExampleWorld State StateProps.

Open Scope Z_scope.

Section Forward.
Context `{Nghttp2} `{HdrHistogram} (c : Config).
Implicit Types (w : World) (r : RPCMessage).

Lemma set_w_ctx_id w : set_w_ctx (w_ctx w) w = w.
Proof. by destruct w. Qed.
Lemma conn_at_run p x w {B} (f : Connection session -> M World B) : w_conns w !! p = Some x -> (conn_at p ≫= f) w = f x w.
Proof. intros Hp. apply run_bind. unfold conn_at, gets, mbind, M_bind. by rewrite Hp. Qed.
Lemma rpc_run i r w {B} (f : RPCMessage -> M World B) : e_heap (w_env w) !! i = Some r -> (rpc i ≫= f) w = f r w.
Proof. intros Hi. apply run_bind. unfold rpc, gets, deref, mbind, M_bind. by rewrite Hi. Qed.

(** [w] with connection [p] in HTTP/1.1 state [h]. *)
Definition with_h1 (p : nat) (x : Connection session) (h : HTTP1State) w : World :=
  set_w_conns (<[p := set_c_proto (Proto1 h) x]> (w_conns w)) w.

Lemma run1_run p x h {A} (op : M (CState (Conn1 session)) A) op2 w a h' ctx :
  w_conns w !! p = Some x -> c_proto x = Proto1 h ->
  op (mkCState (mkConn1 x h) (w_ctx w)) = Ret a (mkCState (mkConn1 x h') ctx) ->
  on_conn p op op2 w = Ret a (with_h1 p x h' (set_w_ctx ctx w)).
Proof. intros Hp Hx E. unfold on_conn. rewrite (conn_at_run p x) by done. rewrite Hx. unfold run1. by rewrite E. Qed.

(** ** Submitting *)

Definition submitted (i : nat) (h : HTTP1State) : HTTP1State :=
  set_idle false (set_last_id (last_id h + 1) (put_rpc_message (Some i) h)).

Lemma submit_request_run (x : Connection session) h i r ctx : e_heap (x_env ctx) !! i = Some r -> http r = HTTP1 ->
  rpc_message h = None -> 0 <= last_id h < 2 ^ 31 - 1 ->
  http1_submit_request i (mkCState (mkConn1 x h) ctx) = Ret (last_id h + 1) (mkCState (mkConn1 x (submitted i h)) ctx).
Proof.
  intros Hi Hr Hm Hid. set (s := mkCState (mkConn1 x h) ctx). unfold http1_submit_request.
  rewrite (run_bind _ _ _ tt s).
  2:{ unfold cast_rpc. rewrite (run_bind _ _ _ r s); [by rewrite bool_decide_true by done|].
    unfold read_rpc. rewrite (run_bind _ _ _ ctx s) by done. unfold deref. by rewrite Hi. }
  rewrite (run_bind _ _ _ tt (mkCState (mkConn1 x (put_rpc_message (Some i) h)) ctx)).
  2:{ unfold set_rpc_message. rewrite (run_bind _ _ _ h s) by done. by rewrite run_guard by (by rewrite Hm). }
  set (s1 := mkCState (mkConn1 x (put_rpc_message (Some i) h)) ctx).
  rewrite (run_bind _ _ _ (put_rpc_message (Some i) h) s1) by done.
  rewrite (run_lift _ _ _ (last_id h + 1)) by (apply checked_i32_Ok; split; [done|simpl; lia]). done.
Qed.

(** ** Writing *)

Definition written (h : HTTP1State) : HTTP1State := put_rpc_message None h.
Definition sent_at (t : Z) r : RPCMessage := set_req_for_time t r.

Lemma http1_write_run others b (x : Connection session) h i r ctx : c_direction x = UPSTREAM -> rpc_message h = Some i ->
  idle h = false -> e_heap (x_env ctx) !! i = Some r -> headers_wf (req_headers r) (req_header_count r) ->
  holding b [] -> Z.of_nat (length (request_text r)) < bsize b ->
  exists b' n, http1_write c others b (mkCState (mkConn1 x h) ctx) =
    Ret (b', n) (mkCState (mkConn1 x (written h))
      (set_x_env (assign i (sent_at (readings ctx 0%nat) r) (x_env ctx)) (advance_clock 1 ctx))) /\
    holding b' (request_text r).
Proof.
  intros Hd Hm Hidle Hi Hw Hb Hfit. pose proof (write_request_spec r b Hb Hw) as Hspec. unfold writes in Hspec.
  rewrite decide_True in Hspec by done. destruct Hspec as (b' & E & Hh & _).
  exists b', (Z.of_nat (length (request_text r))). split; [|done].
  set (s := mkCState (mkConn1 x h) ctx). set (s1 := mkCState (mkConn1 x (written h)) ctx).
  unfold http1_write. rewrite (run_bind _ _ _ x s) by done.
  rewrite (run_bind _ _ _ i s1).
  2:{ unfold get_rpc_message. rewrite (run_bind _ _ _ h s) by done. by rewrite (run_lift _ _ _ i) by (by rewrite Hm). }
  rewrite (run_bind _ _ _ r s1).
  2:{ unfold read_rpc. rewrite (run_bind _ _ _ ctx s1) by done. unfold deref. by rewrite Hi. }
  rewrite Hd, (run_lift _ _ _ (b', Z.of_nat (length (request_text r)))) by done.
  set (s2 := mkCState (mkConn1 x (written h)) (advance_clock 1 ctx)).
  rewrite (run_bind _ _ _ (readings ctx 0%nat) s2) by done.
  set (s3 := mkCState (mkConn1 x (written h)) (set_x_env (assign i (sent_at (readings ctx 0%nat) r) (x_env ctx)) (advance_clock 1 ctx))).
  rewrite (run_bind _ _ _ tt s3).
  2:{ unfold update_rpc, on_env_, on_env. rewrite (run_bind _ _ _ (advance_clock 1 ctx) s2) by done.
    unfold deref. cbn [advance_clock x_env]. rewrite Hi. done. }
  rewrite (run_bind _ _ _ (written h) s3) by done. by rewrite run_guard by done.
Qed.

(** A buffer for the text [t] and a [UserData] are at hand; [bm'] is the
    manager without them. *)
Definition tcp_ready (bm : BufferManager) (t : list Z) (bm' : BufferManager) : Prop :=
  exists b bm1 ud q, get_buffer bm = Ok (b, bm1) /\ holding b [] /\ Z.of_nat (length t) < bsize b /\
    user_data_queue bm1 = ud :: q /\ ud_buffer ud = None /\ bm' = set_user_data_queue q bm1.

Lemma request_text_nonempty r : (0 < length (request_text r))%nat.
Proof. unfold request_text. rewrite !length_app. unfold CRLF. cbn. lia. Qed.

Lemma want_write_run p x h w : w_conns w !! p = Some x -> c_proto x = Proto1 h -> want_write p w = Ret (http1_want_write h) w.
Proof. intros Hp Hx. unfold want_write. rewrite (conn_at_run p x) by done. by rewrite Hx. Qed.

(** An HTTP/1.1 connection with one message to write: its text [t] goes to the
    ring. *)
Lemma write_http_once fuel p x h h' ctx b bm1 b' n t ud q w : w_conns w !! p = Some x -> c_proto x = Proto1 h ->
  is_Some (rpc_message h) -> get_buffer (w_bm w) = Ok (b, bm1) ->
  http1_write c (other_holders w p) b (mkCState (mkConn1 x h) (w_ctx w)) = Ret (b', n) (mkCState (mkConn1 x h') ctx) ->
  rpc_message h' = None -> (0 < length t)%nat -> filled b' = Z.of_nat (length t) -> take (length t) (data b') = t ->
  user_data_queue bm1 = ud :: q -> ud_buffer ud = None ->
  exists ud', write_http c (S (S fuel)) p w =
    Ret tt (set_w_ring (w_ring w ++ [SqSend (c_fd x) t ud']) (set_w_bm (set_user_data_queue q bm1)
      (with_h1 p x h' (set_w_ctx ctx w)))).
Proof.
  intros Hp Hx Hm Hb E Hm' Hne Hf Ht Hq Hu.
  assert (http1_want_write h = true) as Hwant by (unfold http1_want_write; by apply bool_decide_eq_true).
  unfold write_http. rewrite (run_bind _ _ _ true w) by (rewrite (want_write_run p x h) by done; by rewrite Hwant).
  rewrite (conn_at_run p x) by done. unfold c_http. rewrite Hx. cbn [write_messages].
  rewrite (run_bind _ _ _ true w) by (rewrite (want_write_run p x h) by done; by rewrite Hwant).
  set (w1 := set_w_bm bm1 w). rewrite (run_bind _ _ _ b w1) by (by apply run_zoom).
  set (w2 := with_h1 p x h' (set_w_ctx ctx w1)).
  rewrite (run_bind _ _ _ (b', n) w2).
  2:{ assert (http_write c p b w1 = Ret (b', n) w2) as ->; [|done]. unfold http_write.
    rewrite (run_bind _ _ _ w1 w1) by done. unfold on_conn. rewrite (conn_at_run p x) by done. rewrite Hx. unfold run1.
    change (other_holders w1 p) with (other_holders w p). change (w_ctx w1) with (w_ctx w). by rewrite E. }
  rewrite (proj2 (Z.eqb_neq _ _)) by lia.
  set (w3 := set_w_bm (set_user_data_queue q bm1) w2).
  rewrite (run_bind _ _ _ ud w3) by (apply run_zoom; unfold get_user_data; change (w_bm w2) with bm1; by rewrite Hq).
  set (ud' := mkUserData (Some b') (in_ring ud) (ud_listener ud) (Some p) WRITE (ud_index ud) (udp_type ud) (accept_addr ud)).
  assert (w_conns w3 !! p = Some (set_c_proto (Proto1 h') x)) as Hp3 by apply lookup_insert_eq.
  set (w4 := set_w_ring (w_ring w ++ [SqSend (c_fd x) t ud']) w3).
  rewrite (run_bind _ _ _ tt w4).
  2:{ unfold ring_prepare_write. rewrite (conn_at_run p _ w3 _ Hp3).
    rewrite (run_lift _ _ _ ud') by (unfold Buffers.prepare_write, ud_set_buffer; by rewrite Hu).
    rewrite (run_lift _ _ _ tt) by done. unfold push_sqe, modify. rewrite Hf, Nat2Z.id, Ht. done. }
  exists ud'.
  rewrite (run_bind _ _ _ false w4); [done|].
  rewrite (want_write_run p (set_c_proto (Proto1 h') x) h' w4) by done. unfold http1_want_write. by rewrite Hm'.
Qed.

Lemma write_http_run fuel p x h i r bm' w : w_conns w !! p = Some x -> c_proto x = Proto1 h -> c_direction x = UPSTREAM ->
  rpc_message h = Some i -> idle h = false -> e_heap (w_env w) !! i = Some r ->
  headers_wf (req_headers r) (req_header_count r) -> tcp_ready (w_bm w) (request_text r) bm' ->
  exists ud, write_http c (S (S fuel)) p w =
    Ret tt (set_w_ring (w_ring w ++ [SqSend (c_fd x) (request_text r) ud]) (set_w_bm bm' (with_h1 p x (written h)
      (set_w_ctx (set_x_env (assign i (sent_at (readings (w_ctx w) 0%nat) r) (w_env w)) (advance_clock 1 (w_ctx w))) w)))).
Proof.
  intros Hp Hx Hd Hm Hidle Hi Hw (b & bm1 & ud & q & Hb & Hhold & Hfit & Hq & Hu & ->).
  destruct (http1_write_run (other_holders w p) b x h i r (w_ctx w) Hd Hm Hidle Hi Hw Hhold Hfit) as (b' & n & E & Hh).
  eapply (write_http_once fuel p x h (written h) _ b bm1 b' n (request_text r) ud q w); try done; [apply request_text_nonempty|apply Hh..].
Qed.

(** ** Forwarding

    What follows holds of both protocols: a connection that can send the
    message is one on which the submission and the write succeed. *)

(** Message [i] is a request of side [t] that was admitted and not routed yet. *)
Record routable (t : ConnectionType) (i : nat) r w : Prop := {
  ro_heap : e_heap (w_env w) !! i = Some r;
  ro_stamped : lacks_headers c r = false;
  ro_ds : find_at (at_type t (ds_map (e_mapper (w_env w)))) (ds_fd r) (ds_stream_id r) = Some i;
  ro_new : at_type t (id_map (e_mapper (w_env w))) !! local_id r = None
}.

(** From [w] to [w'] the text of request [i], and nothing else, went to the
    ring, on connection [p], which [x] was and [y] is; the response on
    [stream] will find the request. *)
Record request_sent (t : ConnectionType) (i : nat) (text : list Z) (stream : Z) (p : nat) (x y : Connection session)
    (bm : BufferManager) w w' : Prop := {
  se_ring : exists ud, w_ring w' = w_ring w ++ [SqSend (c_fd x) text ud];
  se_conns : w_conns w' = <[p := y]> (w_conns w);
  se_route : get_us_rpc t stream (c_fd x) (e_mapper (w_env w')) = Ok i;
  se_ids t' : t' <> t -> at_type t' (id_map (e_mapper (w_env w'))) = at_type t' (id_map (e_mapper (w_env w)));
  se_bm : w_bm w' = bm;
  se_credits : w_credits w' = w_credits w;
  se_ppm : w_ppm w' = w_ppm w;
  se_clock : x_clock (w_ctx w') = x_clock (w_ctx w);
  se_rtt : ema_us_sidecar_rtt_us (e_stats (w_env w')) = ema_us_sidecar_rtt_us (e_stats (w_env w));
  se_others k : k <> i -> e_heap (w_env w') !! k = e_heap (w_env w) !! k
}.

(** What [forward_request] leaves alone. *)
Definition elsewhere w w' : Prop := e_stats (w_env w') = e_stats (w_env w) /\ e_queue (w_env w') = e_queue (w_env w) /\
  w_in_local w' = w_in_local w /\ w_util w' = w_util w /\ x_ingress (w_ctx w') = x_ingress (w_ctx w) /\
  w_last_rtt w' = w_last_rtt w /\ w_sockfd w' = w_sockfd w /\ w_routes w' = w_routes w.

(** [r'] is [r], routed. *)
Definition same_request r r' : Prop := exists fd stream, r' = set_us_stream_id stream (set_us_fd fd r).

(** A write on connection [p] that sends [text] and leaves the connection [y]:
    the message may have been changed, and time has passed. *)
Definition wrote_text (text : list Z) (p : nat) (x y : Connection session) (i : nat) r (bm : BufferManager) w
    (o : outcome World unit) : Prop :=
  exists ud n r', service r' = service r /\
    o = Ret tt (set_w_ring (w_ring w ++ [SqSend (c_fd x) text ud]) (set_w_bm bm (set_w_conns (<[p := y]> (w_conns w))
          (set_w_ctx (set_x_env (assign i r' (w_env w)) (advance_clock n (w_ctx w))) w)))).

(** Connection [p] sends message [i] as [text], on [stream]. *)
Definition transmits (fuel : nat) (t : ConnectionType) (p : nat) (x : Connection session) (i : nat) r (stream : Z) (text : list Z)
    (y : Connection session) (bm0 bm : BufferManager) : Prop :=
  exists y1,
    (forall w r', w_conns w !! p = Some x -> e_heap (w_env w) !! i = Some r' -> same_request r r' ->
      conn_submit_request p i w = Ret stream (set_w_conns (<[p := y1]> (w_conns w)) w)) /\
    (forall w r', w_conns w !! p = Some y1 -> w_bm w = bm0 -> e_heap (w_env w) !! i = Some r' -> same_request r r' ->
      get_us_rpc t stream (c_fd x) (e_mapper (w_env w)) = Ok i -> wrote_text text p x y i r bm w (write_http c fuel p w)).

Lemma same_request_routed r r' fd : same_request (set_us_fd fd r) r' -> same_request r r'.
Proof. intros (a & b & ->). by exists a, b. Qed.
Lemma transmits_routed fuel t p x i r fd stream text y bm0 bm : transmits fuel t p x i r stream text y bm0 bm ->
  transmits fuel t p x i (set_us_fd fd r) stream text y bm0 bm.
Proof.
  intros (y1 & HA & HB). exists y1. split.
  - intros w r' Hp Hi Hs. by eapply HA, same_request_routed.
  - intros w r' Hp Hb Hi Hs Hu. destruct (HB w r' Hp Hb Hi) as (ud & n & r4 & Hs4 & E); [by eapply same_request_routed|done|].
    by exists ud, n, r4.
Qed.

(** [forward_request] once the headers are complete. *)
Definition submit_routed fuel (p : nat) (x : Connection session) (i : nat) : M World bool :=
  stream ← conn_submit_request p i;
  _ ← set_rpc i (set_us_stream_id stream);
  r ← rpc i;
  _ ← guard_fatal (lacks_headers c r);
  _ ← on_thread_ (fun e =>
        m ← route (c_type x) (ds_stream_id r) (RpcMessage.ds_fd r) (us_stream_id r) (c_fd x) (e_heap e) (e_mapper e);
        Ok (set_mapper m e));
  _ ← write_http c fuel p;
  mret true.

Lemma submit_routed_sends t fuel p x i r stream text y bm w : w_conns w !! p = Some x -> c_type x = t -> routable t i r w ->
  us_fd r = c_fd x -> find_at (at_type t (us_map (e_mapper (w_env w)))) (c_fd x) stream = None ->
  transmits fuel t p x i r stream text y (w_bm w) bm ->
  exists w' r', submit_routed fuel p x i w = Ret true w' /\ request_sent t i text stream p x y bm w w' /\
    e_heap (w_env w') !! i = Some r' /\ service r' = service r /\ elsewhere w w'.
Proof.
  intros Hp Ht [Hi Hl Hds Hnew] Hfd Hus (y1 & HA & HB).
  set (r2 := set_us_stream_id stream r). assert (same_request r r2) as Hsame by (exists (us_fd r), stream; by destruct r).
  set (w1 := set_w_conns (<[p := y1]> (w_conns w)) w).
  assert (conn_submit_request p i w = Ret stream w1) as Esub.
  { apply (HA w r); [done|done|]. exists (us_fd r), (us_stream_id r). by destruct r. }
  set (w2 := set_w_env (assign i r2 (w_env w)) w1).
  destruct (route_tracks t i (e_heap (w_env w2)) (e_mapper (w_env w2)) r2) as (m & Hroute & Htr & _ & _ & _ & _ & Hother);
    [apply lookup_insert_eq|exact Hds|by (cbn; rewrite Hfd)|exact Hnew|].
  set (w3 := set_w_env (set_mapper m (w_env w2)) w2).
  assert (get_us_rpc t stream (c_fd x) m = Ok i) as Hget.
  { unfold get_us_rpc. pose proof (tr_us _ _ _ _ _ Htr) as E. cbn in E. rewrite Hfd in E. by rewrite E. }
  destruct (HB w3 r2) as (ud & n & r4 & Hs4 & Ewrite); [apply lookup_insert_eq|done|apply lookup_insert_eq|done|exact Hget|].
  eexists _, r4. split; [|split; [split|split; [|split]]].
  - unfold submit_routed. rewrite (run_bind _ _ _ _ _ Esub).
    rewrite (run_bind _ _ _ tt w2) by (apply run_zoom; change (w_env w1) with (w_env w); unfold deref; rewrite Hi; done).
    rewrite (rpc_run i r2) by apply lookup_insert_eq. rewrite run_guard by exact Hl.
    rewrite (run_bind _ _ _ tt w3).
    2:{ apply run_zoom. rewrite <- Hfd, Ht. change (us_fd r) with (us_fd r2). by rewrite Hroute. }
    rewrite (run_bind _ _ _ _ _ Ewrite). reflexivity.
  - by exists ud.
  - cbn. apply insert_insert_eq.
  - exact Hget.
  - intros t' Hne. change (e_mapper (w_env _)) with m at 1. by apply Hother.
  - done.
  - done.
  - done.
  - done.
  - done.
  - intros k Hk. cbn. by rewrite !lookup_insert_ne by done.
  - apply lookup_insert_eq.
  - done.
  - done.
Qed.

Lemma forward_request_sends fuel p x i r stream text y bm w : w_conns w !! p = Some x -> c_type x = EGRESS -> routable EGRESS i r w ->
  us_fd r = c_fd x -> find_at (on_egress (us_map (e_mapper (w_env w)))) (c_fd x) stream = None ->
  transmits fuel EGRESS p x i r stream text y (w_bm w) bm ->
  exists w' r', forward_request c fuel (Some p) i w = Ret true w' /\ request_sent EGRESS i text stream p x y bm w w' /\
    e_heap (w_env w') !! i = Some r' /\ service r' = service r /\ elsewhere w w'.
Proof.
  intros Hp Ht Hr Hfd Hus Htr. destruct (submit_routed_sends EGRESS fuel p x i r stream text y bm w Hp Ht Hr Hfd Hus Htr) as (w' & r' & E & Hsent).
  exists w', r'. split; [|done]. unfold forward_request, catch_fatal. rewrite (run_lift _ _ _ p) by done.
  rewrite (conn_at_run p x) by done. rewrite Ht. rewrite (run_bind _ _ _ tt w) by done.
  unfold submit_routed in E. rewrite Ht in E. by rewrite E.
Qed.

Lemma on_stats_run f st w : f (e_stats (w_env w)) = Ok st -> on_stats_ f w = Ret tt (set_w_env (set_stats st (w_env w)) w).
Proof. intros E. apply run_zoom. by rewrite E. Qed.

(** The statistics know the service. *)
Record counted (keys : list string) (service : string) (st : Stats) : Prop := {
  ct_wait : over keys (ema_wait_to_tx_us st);
  ct_level : over keys (time_mean_ds_concurrency st);
  ct_key : service ∈ keys;
  ct_started m : get (time_mean_ds_concurrency st) service = Ok m -> is_Some (last_flush_ m) -> is_Some (last_t_ m)
}.

(** The end of [send_sub_request]: the wait and the concurrency. *)
Definition count_sent (i : nat) : M World unit :=
  t ← w_now;
  r ← rpc i;
  let wd := i32 (to_us (t - req_rcv_time r)) in
  _ ← on_stats_ (fun s =>
        m ← LocalMap.update (ema_wait_to_tx_us s) (service r) (fun x => Ok (ema_update wd x));
        Ok (set_wait m s));
  t ← w_now;
  on_stats_ (fun s =>
    m ← LocalMap.update (time_mean_ds_concurrency s) (service r) (twm_up t);
    Ok (set_concurrency m s)).
Lemma count_sent_run keys i r w : e_heap (w_env w) !! i = Some r -> counted keys (service r) (e_stats (w_env w)) ->
  exists st, count_sent i w =
      Ret tt (set_w_env (set_stats st (w_env w)) (set_w_ctx (advance_clock 1 (advance_clock 1 (w_ctx w))) w)) /\
    ema_us_sidecar_rtt_us st = ema_us_sidecar_rtt_us (e_stats (w_env w)) /\
    tail_e2e_time_us st = tail_e2e_time_us (e_stats (w_env w)).
Proof.
  intros Hi [Hwait Hlevel Hkey Hstart]. set (wd := i32 (to_us (readings (w_ctx w) 0%nat - req_rcv_time r))).
  destruct (update_is_ok keys (ema_wait_to_tx_us (e_stats (w_env w))) (service r) (fun y => Ok (ema_update wd y)) Hwait Hkey)
    as [m1 E1]; [by intros; eexists|].
  set (w1 := set_w_ctx (advance_clock 1 (w_ctx w)) w). set (t := readings (w_ctx w1) 0%nat).
  destruct (update_is_ok keys (time_mean_ds_concurrency (e_stats (w_env w))) (service r) (twm_up t) Hlevel Hkey) as [m2 E2].
  { intros v Hv. destruct (twm_update_level (f64_add (twm_level v) (f64_of_Z 1)) t v (Hstart v Hv)) as (v' & E' & _).
    by exists v'. }
  set (w2 := set_w_env (set_stats (set_wait m1 (e_stats (w_env w1))) (w_env w1)) w1).
  set (w3 := set_w_ctx (advance_clock 1 (w_ctx w2)) w2).
  exists (set_concurrency m2 (e_stats (w_env w3))). split; [|done].
  unfold count_sent. rewrite (run_bind _ _ _ (readings (w_ctx w) 0%nat) w1) by done. rewrite (rpc_run i r) by done.
  rewrite (run_bind _ _ _ tt w2) by (apply on_stats_run; exact (f_equal (fun o => m ← o; Ok (set_wait m (e_stats (w_env w)))) E1)).
  rewrite (run_bind _ _ _ t w3) by done.
  transitivity (Ret tt (set_w_env (set_stats (set_concurrency m2 (e_stats (w_env w3))) (w_env w3)) w3)); [|reflexivity].
  apply on_stats_run.
  exact (f_equal (fun o => m ← o; Ok (set_concurrency m (e_stats (w_env w3)))) E2).
Qed.

(** What [send_sub_request] leaves alone. *)
Record kept (service : string) (cp : ConnectionPool) w w' : Prop := {
  kp_queue : e_queue (w_env w') = e_queue (w_env w);
  kp_in_local : w_in_local w' = w_in_local w;
  kp_ingress : x_ingress (w_ctx w') = x_ingress (w_ctx w);
  kp_last : w_last_rtt w' = w_last_rtt w;
  kp_sockfd : w_sockfd w' = w_sockfd w;
  kp_tail : tail_e2e_time_us (e_stats (w_env w')) = tail_e2e_time_us (e_stats (w_env w));
  kp_pool : exists cp', get_pool service (w_routes w') = Ok cp' /\ pool_addr cp' = pool_addr cp
}.

(** Every free connection of the pool sends message [i]; [Q] says how. *)
Definition pool_transmits fuel (t : ConnectionType) (cp : ConnectionPool) (i : nat) r (bm : BufferManager)
    (Q : nat -> Connection session -> Z -> list Z -> Connection session -> Prop) w : Prop :=
  forall fd p, connections cp !! fd = Some p -> available w p = true -> exists x stream text y,
    w_conns w !! p = Some x /\ c_type x = t /\ c_fd x = fd /\ Q p x stream text y /\
    find_at (at_type t (us_map (e_mapper (w_env w)))) fd stream = None /\
    transmits fuel t p x i r stream text y (w_bm w) bm.

Lemma send_sub_request_sends fuel keys i r bm cp Q w : routable EGRESS i r w -> counted keys (service r) (e_stats (w_env w)) ->
  get_pool (service r) (w_routes w) = Ok cp -> pool_wf cp -> pool_transmits fuel EGRESS cp i r bm Q w ->
  (exists fd p, connections cp !! fd = Some p /\ available w p = true) ->
  exists p x stream text y w', send_sub_request c fuel i w = Ret tt w' /\ connections cp !! c_fd x = Some p /\
    w_conns w !! p = Some x /\ available w p = true /\ Q p x stream text y /\ request_sent EGRESS i text stream p x y bm w w' /\
    kept (service r) cp w w'.
Proof.
  intros [Hi Hl Hds Hnew] Hcount Hcp Hwf Hpool Hfree.
  assert (get_ds_rpc EGRESS (ds_stream_id r) (RpcMessage.ds_fd r) (e_mapper (w_env w)) = Ok i) as Hget
    by (unfold get_ds_rpc; by rewrite Hds).
  destruct (route_request_free EGRESS (ds_stream_id r) (RpcMessage.ds_fd r) i r cp w Hget Hi Hcp Hwf Hfree)
    as (p & x & fd & w1 & cp' & Eroute & Hfd & Hp & Ha & _ & Hsame1 & Hcp' & Hsame & Haddr).
  destruct (Hpool fd p Hfd Ha) as (x' & stream & text & y & Hx' & Ht & Hk & HQ & Hus & Htr).
  assert (x' = x) as -> by congruence. subst fd.
  set (r1 := set_us_fd (c_fd x) r) in *. set (w2 := set_w_env (assign i r1 (w_env w)) w1) in *.
  pose proof Hsame1 as (Hc & Hx & Hbm & Hring & Hcr & Hppm & Hin & _ & Hlast & Hsock).
  destruct (forward_request_sends fuel p x i r1 stream text y bm w2) as (w3 & r3 & Efwd & Hsent & Hi3 & Hr3 & Hst3 & Hq3 & Hin3 & _ & Hg3 & Hl3 & Hs3 & Hro3).
  { cbn. by rewrite Hc. } { done. }
  { split; [apply lookup_insert_eq|done..]. }
  { done. } { done. }
  { cbn. rewrite Hbm. by apply transmits_routed. }
  destruct (count_sent_run keys i r3 w3 Hi3) as (st & Ecount & Hrtt & Htail); [by rewrite Hr3, Hst3|].
  eexists p, x, stream, text, y, _. split; [|split; [done|split; [done|split; [done|split; [done|split]]]]].
  - unfold send_sub_request. rewrite (rpc_run i r) by done. rewrite (run_bind _ _ _ _ _ Eroute).
    rewrite (rpc_run i r1) by apply lookup_insert_eq. rewrite (run_bind _ _ _ w2 w2) by done.
    rewrite (run_lift _ _ _ cp') by exact Hcp'.
    rewrite (run_lift _ _ _ p) by (unfold get_connection; rewrite Hsame; change (us_fd r1) with (c_fd x); by rewrite Hfd).
    rewrite (run_bind _ _ _ _ _ Efwd). exact Ecount.
  - destruct Hsent as [[ud Hr] Hcn Hus3 Hids Hb Hcred Hpp Hck Hrt Hoth]. split.
    + exists ud. cbn. rewrite Hr. cbn. by rewrite Hring.
    + cbn. rewrite Hcn. cbn. by rewrite Hc.
    + exact Hus3.
    + exact Hids.
    + exact Hb.
    + cbn. by rewrite Hcred.
    + cbn. by rewrite Hpp.
    + cbn. rewrite Hck. cbn. by rewrite Hx.
    + cbn. rewrite Hrtt. exact Hrt.
    + intros k Hk. cbn. rewrite Hoth by done. cbn. by rewrite lookup_insert_ne.
  - split; [exact Hq3|cbn; rewrite Hin3; exact Hin|cbn; rewrite Hg3; cbn; by rewrite Hx|cbn; rewrite Hl3; exact Hlast
      |cbn; rewrite Hs3; exact Hsock|cbn; rewrite Htail, Hst3; done|].
    exists cp'. split; [|exact Haddr]. cbn. rewrite Hro3. exact Hcp'.
Qed.

(** ** HTTP/1.1 *)

(** The connection at [p] takes the next request of side [t]: it is up, and
    free. *)
Record takes_request (t : ConnectionType) (p : nat) (x : Connection session) (h : HTTP1State) w : Prop := {
  tq_conn : w_conns w !! p = Some x;
  tq_proto : c_proto x = Proto1 h;
  tq_direction : c_direction x = UPSTREAM;
  tq_type : c_type x = t;
  tq_free : rpc_message h = None;
  tq_id : 0 <= last_id h < 2 ^ 31 - 1
}.

(** Message [i] is a request of side [t] that was admitted and not routed yet. *)
Record to_send (t : ConnectionType) (i : nat) r (bm : BufferManager) w : Prop := {
  ts_heap : e_heap (w_env w) !! i = Some r;
  ts_http : http r = HTTP1;
  ts_headers : headers_wf (req_headers r) (req_header_count r);
  ts_stamped : lacks_headers c r = false;
  ts_ds : find_at (at_type t (ds_map (e_mapper (w_env w)))) (ds_fd r) (ds_stream_id r) = Some i;
  ts_new : at_type t (id_map (e_mapper (w_env w))) !! local_id r = None;
  ts_buffer : tcp_ready (w_bm w) (request_text r) bm
}.

Abbreviation request_sent1 t i r p x h :=
  (request_sent t i (request_text r) (last_id h + 1) p x (set_c_proto (Proto1 (written (submitted i h))) x)).

Lemma http1_transmits t fuel p x h i r bm w : takes_request t p x h w -> http r = HTTP1 ->
  headers_wf (req_headers r) (req_header_count r) -> tcp_ready (w_bm w) (request_text r) bm ->
  transmits (S (S fuel)) t p x i r (last_id h + 1) (request_text r) (set_c_proto (Proto1 (written (submitted i h))) x) (w_bm w) bm.
Proof.
  intros [_ Hx Hd Ht Hm Hid] Hhttp Hw Hbuf. exists (set_c_proto (Proto1 (submitted i h)) x). split.
  - intros w1 r1 Hp Hi (fd & st & ->). unfold conn_submit_request.
    rewrite (run1_run p x h _ _ w1 (last_id h + 1) (submitted i h) (w_ctx w1)) by (done || by eapply submit_request_run).
    by rewrite set_w_ctx_id.
  - intros w1 r1 Hp Hb Hi (fd & st & ->) _.
    destruct (write_http_run fuel p (set_c_proto (Proto1 (submitted i h)) x) (submitted i h) i (set_us_stream_id st (set_us_fd fd r)) bm w1)
      as (ud & Ewrite); try done; [by rewrite Hb|].
    exists ud, 1%nat. eexists. split; [|exact Ewrite]. done.
Qed.

Lemma submit_routed_run t fuel p x h i r bm w : takes_request t p x h w -> to_send t i r bm w -> us_fd r = c_fd x ->
  find_at (at_type t (us_map (e_mapper (w_env w)))) (c_fd x) (last_id h + 1) = None ->
  exists w' r', submit_routed (S (S fuel)) p x i w = Ret true w' /\ request_sent1 t i r p x h bm w w' /\
    e_heap (w_env w') !! i = Some r' /\ service r' = service r /\ elsewhere w w'.
Proof.
  intros Ht [Hi Hhttp Hw Hl Hds Hnew Hbuf] Hfd Hus. pose proof Ht as [Hp _ _ Hct _ _].
  apply submit_routed_sends; [done|done|by split|done|done|]. by apply http1_transmits.
Qed.

(** Every connection of the pool that is free is an HTTP/1.1 connection to
    send requests on, known by its descriptor, and its next stream is new. *)
Definition http1_pool (t : ConnectionType) (cp : ConnectionPool) w : Prop := forall fd p, connections cp !! fd = Some p -> available w p = true ->
  exists x h, takes_request t p x h w /\ c_fd x = fd /\
    find_at (at_type t (us_map (e_mapper (w_env w)))) fd (last_id h + 1) = None.

(** How an HTTP/1.1 connection sends [r]. *)
Definition sends1 (t : ConnectionType) (i : nat) r w (p : nat) (x : Connection session) (stream : Z) (text : list Z) (y : Connection session) : Prop :=
  exists h, takes_request t p x h w /\ stream = last_id h + 1 /\ text = request_text r /\
    y = set_c_proto (Proto1 (written (submitted i h))) x.
Lemma http1_pool_transmits fuel t cp i r bm w : http1_pool t cp w -> to_send t i r bm w ->
  pool_transmits (S (S fuel)) t cp i r bm (sends1 t i r w) w.
Proof.
  intros Hpool [Hi Hhttp Hw Hl Hds Hnew Hbuf] fd p Hfd Ha. destruct (Hpool fd p Hfd Ha) as (x & h & Ht & Hk & Hus).
  eexists x, _, _, _. split_and!; [apply Ht|apply Ht|done|by exists h|exact Hus|by apply http1_transmits].
Qed.

Lemma busy_unavailable p x h i w : w_conns w !! p = Some (set_c_proto (Proto1 (written (submitted i h))) x) ->
  available w p = false.
Proof. intros Hp. unfold available. by rewrite Hp. Qed.

(** ** A queue with one stream *)

(** [w] when the queue of side [t] and direction [d] has been emptied. *)
Definition dequeued (t : ConnectionType) (d : ConnectionDirection) w : World :=
  set_w_env (set_rpc_queue (set_queue t d [] (e_queue (w_env w))) (w_env w)) w.

Lemma forward_one fuel t d fd stream w w' : t = INGRESS \/ d = UPSTREAM ->
  queue_at t d (e_queue (w_env w)) = [(fd, stream)] -> (d = UPSTREAM -> no_connections (at_type t (w_listeners w)) = false) ->
  match d with DOWNSTREAM => forward_downstream c fuel t fd stream | UPSTREAM => forward_upstream c fuel t fd stream end
    (dequeued t d w) = Ret tt w' ->
  queue_at t d (e_queue (w_env w')) = [] -> forward c fuel t d w = Ret tt w'.
Proof.
  intros Htd Hq Hno E Hq'. set (wq := dequeued t d w) in *.
  assert (forward c fuel t d w = forward_loop c fuel 2 t d w) as ->.
  { unfold forward. assert (bool_decide (t = EGRESS) && bool_decide (d = DOWNSTREAM) = false) as ->
      by (destruct Htd; subst; [done|by destruct t]).
    rewrite (run_bind _ _ _ (w_env w) w) by done. by rewrite Hq. }
  cbn [forward_loop]. rewrite (run_bind _ _ _ (w_env w) w) by done. unfold rpc_queue_empty at 1. rewrite Hq.
  rewrite (run_bind _ _ _ (fd, stream) wq) by (unfold wq, dequeued; apply run_zoom; unfold rpc_dequeue; by rewrite Hq).
  assert (forward_loop c fuel 1 t d w' = Ret tt w') as Eend.
  { cbn [forward_loop]. rewrite (run_bind _ _ _ (w_env w') w') by done. unfold rpc_queue_empty. by rewrite Hq'. }
  destruct d.
  - rewrite (run_bind _ _ _ (w_listeners wq) wq) by done. change (w_listeners wq) with (w_listeners w). rewrite Hno by done.
    rewrite (run_bind _ _ _ _ _ E). exact Eend.
  - rewrite (run_bind _ _ _ _ _ E). exact Eend.
Qed.
End Forward.

(** A request [r] sent on the HTTP/1.1 connection [x], in state [h]. *)
Abbreviation request_sent1 t i r p x h :=
  (request_sent t i (request_text r) (last_id h + 1) p x (set_c_proto (Proto1 (written (submitted i h))) x)).
