(* ===== verification/ForwardHttp2.v ===== *)
(** * A request on an HTTP/2 connection

    Submitting a message to nghttp2 and writing what it makes of it: between
    sidecars requests go over one HTTP/2 connection, the frames of a message
    collected in one buffer. *)

From Stdlib Require Import ZArith Lia Ascii.
From stdpp Require Import base gmap strings list fin_maps.
From S2P Require Import Prelude Fp Config Buffers PicoHttp RpcMessage RpcMessageProps RpcMapper Queues LocalMap Stats Ingress Connection Moves Pool Http1 Http1Inv Http1Props Http2 CreditQueue World ExampleWorld State StateProps Forward.

Open Scope Z_scope.

Section ForwardHttp2.
Context `{Nghttp2} `{HdrHistogram} (c : Config).
Implicit Types (w : World) (r : RPCMessage) (d : DataReadStruct) (s : session).

(** ** What a session sends *)

(** What the read callback answers for the body [d] of a request. *)
Definition read_body d (len : Z) : res (list Z * DataReadStruct * bool) :=
  if offset d =? 0 then Ok ([], d, true) else read_chunk d len.

(** Session [s] makes the frame [out], and is [s'] then: of its own, or from
    the body of message [i], of which [d] is left and [d'] will be, for the
    stream of the message. *)
Inductive makes_frame (i : nat) (stream : Z) s d (out : list Z) : session -> DataReadStruct -> Prop :=
  | mf_frame s' : mem_send s = Sent out s' -> makes_frame i stream s d out s' d
  | mf_data len s1 bs d' last s' : mem_send s = ReadData stream (mkProvider i false) len s1 ->
      read_body d len = Ok (bs, d', last) -> resume s1 bs last false = (Some out, s') -> makes_frame i stream s d out s' d'.

(** In [n] frames, session [s] sends [text] and has nothing more to send. *)
Inductive emits (i : nat) (stream : Z) : session -> DataReadStruct -> list Z -> session -> DataReadStruct -> nat -> Prop :=
  | em_done s d : session_want_write s = false -> emits i stream s d [] s d 0
  | em_frame s d out s1 d1 text s2 d2 n : session_want_write s = true -> makes_frame i stream s d out s1 d1 ->
      (0 < length out)%nat -> emits i stream s1 d1 text s2 d2 n -> emits i stream s d (out ++ text) s2 d2 (S n).

Definition proto2 (x : Connection session) s : Connection session := set_c_proto (Proto2 s) x.

Context (t : ConnectionType) (p i : nat) (x : Connection session) (stream : Z).

(** The message and its route are where the callback looks for them. *)
Record in_place r (e : Env) : Prop := {
  ip_heap : e_heap e !! i = Some r;
  ip_route : get_us_rpc t stream (c_fd x) (e_mapper e) = Ok i
}.
Lemma in_place_assign r r' e : in_place r e -> in_place r' (assign i r' e).
Proof. intros [_ Hr]. split; [apply lookup_insert_eq|exact Hr]. Qed.

(** What sending changes of the shared objects: the message, and the time. *)
Definition message_moved r r' (ctx ctx' : Ctx) : Prop :=
  service r' = service r /\ exists n, ctx' = set_x_env (assign i r' (x_env ctx)) (advance_clock n ctx).

Lemma message_stays r ctx : e_heap (x_env ctx) !! i = Some r -> message_moved r r ctx ctx.
Proof.
  intros Hi. split; [done|]. exists 0%nat. destruct ctx as [g e clk n]. unfold advance_clock, set_x_env. cbn in *.
  f_equal; [|lia]. destruct e as [h k m q st]. unfold assign, set_heap. cbn in *. by rewrite insert_id.
Qed.
Lemma message_moved_trans r r1 r2 ctx ctx1 ctx2 : message_moved r r1 ctx ctx1 -> message_moved r1 r2 ctx1 ctx2 -> message_moved r r2 ctx ctx2.
Proof.
  intros [Hs1 (n1 & ->)] [Hs2 (n2 & ->)]. split; [congruence|]. exists (n1 + n2)%nat. destruct ctx as [g e clk n].
  unfold advance_clock, set_x_env, assign, set_heap. cbn. rewrite insert_insert_eq. f_equal. lia.
Qed.

(** ** The read callback *)

Context (Ht : c_type x = t).

Abbreviation cstate s ctx := (mkCState (mkConn2 (proto2 x s) s) ctx).

Lemma read_body_run r d' len bs last s s0 ctx : in_place r (x_env ctx) -> read_body (req_data r) len = Ok (bs, d', last) ->
  exists r' ctx', data_read_callback_request stream i len (mkCState (mkConn2 (proto2 x s0) s) ctx) =
      Ret (bs, last) (mkCState (mkConn2 (proto2 x s0) s) ctx') /\
    message_moved r r' ctx ctx' /\ in_place r' (x_env ctx') /\ req_data r' = d'.
Proof.
  intros Hin E. pose proof Hin as [Hi Hroute]. set (st := mkCState (mkConn2 (proto2 x s0) s) ctx).
  unfold data_read_callback_request. rewrite (run_bind _ _ _ (proto2 x s0) st) by done.
  rewrite (run_bind _ _ _ r st).
  2:{ unfold read_rpc. rewrite (run_bind _ _ _ ctx st) by done. unfold deref. by rewrite Hi. }
  unfold read_body in E. destruct (offset (req_data r) =? 0).
  - injection E as <- <- <-. exists r, ctx. split; [done|]. split; [by apply message_stays|]. by split.
  - rewrite (run_lift _ _ _ _ E). cbv beta iota.
    set (ctx1 := set_x_env (assign i (set_req_data d' r) (x_env ctx)) ctx). set (st1 := mkCState (mkConn2 (proto2 x s0) s) ctx1).
    assert (message_moved r (set_req_data d' r) ctx ctx1) as Hm1.
    { split; [done|]. exists 0%nat. unfold ctx1, advance_clock, set_x_env. destruct ctx. cbn. f_equal. lia. }
    rewrite (run_bind _ _ _ tt st1).
    2:{ unfold update_rpc, on_env_, on_env. rewrite (run_bind _ _ _ ctx st) by done. unfold deref. by rewrite Hi. }
    pose proof (in_place_assign r (set_req_data d' r) _ Hin) as Hin1. destruct last.
    + set (r2 := set_req_for_time (readings ctx1 0%nat) (set_req_data d' r)).
      set (ctx2 := set_x_env (assign i r2 (x_env ctx1)) (advance_clock 1 ctx1)).
      exists r2, ctx2. split; [|split; [|split; [exact (in_place_assign _ r2 _ Hin1)|done]]].
      * rewrite (run_bind _ _ _ tt (mkCState (mkConn2 (proto2 x s0) s) ctx2)); [done|].
        rewrite (run_bind _ _ _ i st1).
        2:{ unfold conn_get_us_rpc. rewrite (run_bind _ _ _ ctx1 st1) by done.
            change (c_type (proto2 x s0)) with (c_type x). change (c_fd (proto2 x s0)) with (c_fd x). rewrite Ht.
            change (e_mapper (x_env ctx1)) with (e_mapper (x_env ctx)). by rewrite Hroute. }
        set (st2 := mkCState (mkConn2 (proto2 x s0) s) (advance_clock 1 ctx1)).
        rewrite (run_bind _ _ _ (readings ctx1 0%nat) st2) by done.
        unfold update_rpc, on_env_, on_env. rewrite (run_bind _ _ _ (advance_clock 1 ctx1) st2) by done.
        unfold deref. change (e_heap (x_env (advance_clock 1 ctx1)) !! i) with (<[i := set_req_data d' r]> (e_heap (x_env ctx)) !! i). by rewrite lookup_insert_eq.
      * eapply message_moved_trans; [exact Hm1|]. split; [done|]. by exists 1%nat.
    + exists (set_req_data d' r), ctx1. split; [done|]. by split_and!.
Qed.

(** ** One frame *)

Lemma session_send_run others r d' out s s' s0 ctx : in_place r (x_env ctx) -> makes_frame i stream s (req_data r) out s' d' ->
  exists r' ctx', session_send c others (mkCState (mkConn2 (proto2 x s0) s) ctx) =
      Ret out (mkCState (mkConn2 (proto2 x s0) s') ctx') /\
    message_moved r r' ctx ctx' /\ in_place r' (x_env ctx') /\ req_data r' = d'.
Proof.
  intros Hin Hf. unfold session_send. rewrite (run_bind _ _ _ s (mkCState (mkConn2 (proto2 x s0) s) ctx)) by done. destruct Hf as [s' E|len s1 bs d' last s' E Eb Er]; rewrite E.
  - exists r, ctx. split; [done|]. split; [by apply message_stays, Hin|]. by split.
  - destruct (read_body_run r d' len bs last s1 s0 ctx Hin Eb) as (r' & ctx' & Ecb & Hm & Hin' & Hd).
    exists r', ctx'. split; [|done]. rewrite (run_bind _ _ _ tt (mkCState (mkConn2 (proto2 x s0) s1) ctx)) by done.
    cbn [prd_response prd_message]. set (st := mkCState (mkConn2 (proto2 x s0) s1) ctx') in *.
    rewrite (run_bind _ _ _ (bs, last, false) st) by (rewrite (run_bind _ _ _ _ _ Ecb); done).
    rewrite (run_bind _ _ _ s1 st) by done. rewrite Er. done.
Qed.

Lemma http2_write_run others r d' b tx out s s' s0 ctx : in_place r (x_env ctx) -> makes_frame i stream s (req_data r) out s' d' ->
  holding b tx -> Z.of_nat (length (tx ++ out)) < bsize b ->
  exists b' r' ctx', http2_write c others b (mkCState (mkConn2 (proto2 x s0) s) ctx) =
      Ret (b', i32 (Z.of_nat (length out))) (mkCState (mkConn2 (proto2 x s0) s') ctx') /\ holding b' (tx ++ out) /\ bsize b' = bsize b /\
    message_moved r r' ctx ctx' /\ in_place r' (x_env ctx') /\ req_data r' = d'.
Proof.
  intros Hin Hf [Hfl Htx Hfit [Hs Hs']] Hlen.
  destruct (session_send_run others r d' out s s' s0 ctx Hin Hf) as (r' & ctx' & E & Hmoved).
  rewrite length_app in Hlen. set (d := take (length tx) (data b) ++ out ++ drop (length tx + length out) (data b)).
  eexists (mkBuffer d (is_free b) (is_provided b) (enter_queue_ts b) (bsize b) (Z.of_nat (length out) + filled b) (index b) (msg b) (addr b)).
  exists r', ctx'. split; [|split; [split; cbn [filled data bsize]|by split]].
  - unfold http2_write. rewrite (run_bind _ _ _ _ _ E). cbv zeta. rewrite (proj2 (Z.ltb_ge _ _)) by lia.
    rewrite (run_lift _ _ _ d) by (rewrite Hfl, Nat2Z.id; apply store_at; lia).
    erewrite run_lift; [reflexivity|]. unfold set_filled, set_data. cbn [bsize]. rewrite (proj2 (Z.ltb_ge _ _)) by lia. done.
  - rewrite length_app. lia.
  - unfold d. rewrite app_assoc, take_app_length' by (rewrite !length_app, length_take; lia). by rewrite Htx.
  - rewrite length_app. lia.
  - unfold d. rewrite !length_app, length_take, length_drop. lia.
Qed.

(** From [w] to [w'], only the session of connection [p] and the message moved. *)
Definition session_moved r r' s' w w' : Prop := exists ctx', message_moved r r' (w_ctx w) ctx' /\ in_place r' (x_env ctx') /\
  w' = set_w_conns (<[p := proto2 x s']> (w_conns w)) (set_w_ctx ctx' w).

Lemma session_moved_trans r r1 r2 s1 s2 w w1 w2 : session_moved r r1 s1 w w1 -> session_moved r1 r2 s2 w1 w2 ->
  session_moved r r2 s2 w w2.
Proof.
  intros (ctx1 & Hm1 & _ & ->) (ctx2 & Hm2 & Hin & ->). exists ctx2. split; [by eapply message_moved_trans|]. split; [done|].
  cbn. by rewrite insert_insert_eq.
Qed.

Lemma write_frame_run r d' b tx out s s' w : w_conns w !! p = Some (proto2 x s) -> in_place r (w_env w) ->
  makes_frame i stream s (req_data r) out s' d' -> holding b tx -> Z.of_nat (length (tx ++ out)) < bsize b ->
  exists b' r' w', write_or_flush c p b w = Ret b' w' /\ holding b' (tx ++ out) /\ bsize b' = bsize b /\
    session_moved r r' s' w w' /\ req_data r' = d'.
Proof.
  intros Hp Hin Hf Hh Hlen.
  destruct (http2_write_run (other_holders w p) r d' b tx out s s' s (w_ctx w) Hin Hf Hh Hlen) as (b' & r' & ctx' & E & Hh' & Hb & Hm & Hin' & Hd).
  exists b', r'. eexists. split; [|by split_and!; [..|exists ctx'|]].
  unfold write_or_flush, http_write. rewrite (run_bind _ _ _ w w) by done. unfold on_conn. rewrite (conn_at_run p (proto2 x s)) by done.
  unfold run2. cbn [proto2 c_proto set_c_proto]. change (set_c_proto (Proto2 s) x) with (proto2 x s). rewrite E. done.
Qed.

Lemma want_write2_run s w : w_conns w !! p = Some (proto2 x s) -> want_write p w = Ret (session_want_write s) w.
Proof. intros Hp. unfold want_write. by rewrite (conn_at_run p (proto2 x s)). Qed.

(** ** All of them *)

Lemma write_frames_run s d text s2 d2 n : emits i stream s d text s2 d2 n -> forall k r b tx w, (n < k)%nat ->
  w_conns w !! p = Some (proto2 x s) -> in_place r (w_env w) -> req_data r = d ->
  holding b tx -> (0 < length tx)%nat -> Z.of_nat (length (tx ++ text)) < bsize b ->
  exists b' r' w', write_frames c k p (Some b) true w = Ret (Some b', true) w' /\ holding b' (tx ++ text) /\
    (w' = w /\ r' = r /\ s2 = s \/ session_moved r r' s2 w w').
Proof.
  induction 1 as [s d Hno|s d out s1 d1 text s2 d2 n Hw Hf Hne Hem IH]; intros [|k] r b tx w Hk Hp Hin Hd Hh Htx Hlen; try lia;
    cbn [write_frames]; rewrite (run_bind _ _ _ _ _ (want_write2_run s w Hp)).
  - rewrite Hno, app_nil_r. exists b, r, w. split; [done|]. split; [done|]. by left.
  - rewrite Hw. subst d. rewrite app_assoc in Hlen. pose proof Hlen as Hlen'. rewrite length_app in Hlen'.
    destruct (write_frame_run r d1 b tx out s s1 w Hp Hin Hf Hh) as (b1 & r1 & w1 & E & Hh1 & Hb1 & Hm1 & Hd1); [lia|].
    rewrite (run_bind _ _ _ b w) by done. rewrite (run_bind _ _ _ _ _ E).
    rewrite (proj2 (Z.eqb_neq _ _)) by (rewrite (hl_filled _ _ Hh1), length_app; lia).
    destruct (IH k r1 b1 (tx ++ out) w1) as (b' & r' & w' & E' & Hh' & Hm'); try done; [lia|..].
    + destruct Hm1 as (ctx' & _ & _ & ->). apply lookup_insert_eq.
    + by destruct Hm1 as (ctx' & _ & Hin' & ->).
    + rewrite length_app. lia.
    + by rewrite Hb1.
    + exists b', r', w'. split; [done|]. split; [by rewrite app_assoc|]. right.
      destruct Hm' as [(-> & -> & ->)|Hm']; [done|]. by eapply session_moved_trans.
Qed.

(** The frames make one buffer, and go to the ring. *)
Lemma write_http2_run fuel r s d text s2 d2 n bm w : emits i stream s d text s2 d2 n -> (n < fuel)%nat -> (0 < n)%nat ->
  w_conns w !! p = Some (proto2 x s) -> in_place r (w_env w) -> req_data r = d -> tcp_ready (w_bm w) text bm ->
  wrote_text text p x (proto2 x s2) i r bm w (write_http c fuel p w).
Proof.
  intros Hem Hk Hn Hp Hin Hd (b & bm1 & ud & q & Hb & Hh & Hlen & Hq & Hu & ->).
  destruct fuel as [|k]; [lia|]. destruct Hem as [|s d out s1 d1 text s2 d2 n Hw Hf Hne Hem]; [lia|]. subst d.
  set (w1 := set_w_bm bm1 w).
  destruct (write_frame_run r _ b [] out s s1 w1 Hp Hin Hf Hh) as (b1 & r1 & w2 & E1 & Hh1 & Hb1 & Hm1 & Hd1);
    [rewrite length_app in Hlen; cbn; lia|].
  destruct (write_frames_run s1 _ text s2 d2 n Hem k r1 b1 out w2) as (b' & r' & w3 & E2 & Hh' & Hm'); try done; [lia|..].
  { destruct Hm1 as (ctx' & _ & _ & ->). apply lookup_insert_eq. }
  { by destruct Hm1 as (ctx' & _ & Hin' & ->). }
  { by rewrite Hb1. }
  assert (session_moved r r' s2 w1 w3) as (ctx' & (Hsvc & nt & Hctx) & _ & ->)
    by (destruct Hm' as [(-> & -> & ->)|Hm']; [done|by eapply session_moved_trans]).
  set (w3 := set_w_conns _ _) in *. set (w4 := set_w_bm (set_user_data_queue q bm1) w3).
  set (ud' := mkUserData (Some b') (in_ring ud) (ud_listener ud) (Some p) WRITE (ud_index ud) (udp_type ud) (accept_addr ud)).
  exists ud', nt, r'. split; [done|]. unfold write_http.
  rewrite (run_bind _ _ _ _ _ (want_write2_run s w Hp)), Hw. rewrite (conn_at_run p (proto2 x s)) by done.
  change (c_http (proto2 x s)) with HTTP2. cbv iota.
  rewrite (run_bind _ _ _ (Some b', true) w3).
  2:{ cbn [write_frames]. rewrite (run_bind _ _ _ _ _ (want_write2_run s w Hp)), Hw.
      rewrite (run_bind _ _ _ b w1) by (by apply run_zoom). rewrite (run_bind _ _ _ _ _ E1).
      rewrite (proj2 (Z.eqb_neq _ _)) by (rewrite (hl_filled _ _ Hh1); cbn; lia). exact E2. }
  rewrite (run_lift _ _ _ b') by done.
  rewrite (run_bind _ _ _ ud w4) by (apply run_zoom; unfold get_user_data; change (w_bm w3) with bm1; by rewrite Hq).
  unfold ring_prepare_write. rewrite (conn_at_run p (proto2 x s2) w4) by apply lookup_insert_eq.
  rewrite (run_lift _ _ _ ud') by (unfold Buffers.prepare_write, ud_set_buffer; by rewrite Hu).
  rewrite (run_lift _ _ _ tt) by done. unfold push_sqe, modify.
  rewrite (hl_filled _ _ Hh'), Nat2Z.id, (hl_text _ _ Hh'). unfold w4, w3, w1. subst ctx'. destruct w, x. reflexivity.
Qed.

(** ** Submitting *)

Lemma submit_request2_run r s nva s1 ctx : e_heap (x_env ctx) !! i = Some r -> http r = HTTP2 ->
  fields_nv (req_headers r) 0 (Z.to_nat (req_header_count r)) = Ok nva ->
  submit_request s nva (mkProvider i false) = (stream, s1) -> 0 <= stream ->
  http2_submit_request i (mkCState (mkConn2 x s) ctx) = Ret stream (mkCState (mkConn2 x s1) ctx).
Proof.
  intros Hi Hr Hnv Hsub Hpos. set (st := mkCState (mkConn2 x s) ctx).
  assert (forall B (f : RPCMessage -> M (CState Conn2) B), (read_rpc i ≫= f) st = f r st) as Hread.
  { intros B f. apply run_bind. unfold read_rpc. rewrite (run_bind _ _ _ ctx st) by done. unfold deref. by rewrite Hi. }
  unfold http2_submit_request. rewrite (run_bind _ _ _ tt st).
  2:{ unfold cast_rpc. rewrite Hread. by rewrite bool_decide_true by done. }
  rewrite Hread. rewrite (run_lift _ _ _ nva) by done. rewrite (run_bind _ _ _ s st) by done. rewrite Hsub.
  rewrite (run_bind _ _ _ tt (mkCState (mkConn2 x s1) ctx)) by done. rewrite run_guard by (by apply Z.ltb_ge). done.
Qed.
End ForwardHttp2.

(** ** How an HTTP/2 connection sends a request

    The session takes the request's headers on [stream], and then sends
    [text], which fits a buffer. *)
Record sends2 `{Nghttp2} `{HdrHistogram} (fuel i : nat) (r : RPCMessage) (bm0 bm : BufferManager)
    (x : Connection session) (stream : Z) (text : list Z) (y : Connection session) : Prop := {
  s2_sends : exists s nva s1 s2 d2 n, c_proto x = Proto2 s /\
    fields_nv (req_headers r) 0 (Z.to_nat (req_header_count r)) = Ok nva /\
    submit_request s nva (mkProvider i false) = (stream, s1) /\ emits i stream s1 (req_data r) text s2 d2 n /\
    (0 < n < fuel)%nat /\ y = proto2 x s2;
  s2_stream : 0 <= stream;
  s2_buffer : tcp_ready bm0 text bm
}.

(** The session decides what is sent. *)
Section Unique.
Context `{Nghttp2} `{HdrHistogram}.

Lemma makes_frame_unique i stream s d out s1 d1 out' s1' d1' : makes_frame i stream s d out s1 d1 ->
  makes_frame i stream s d out' s1' d1' -> out' = out /\ s1' = s1 /\ d1' = d1.
Proof. intros [] []; simplify_eq; repeat split; congruence. Qed.
Lemma emits_unique i stream s d text s2 d2 n : emits i stream s d text s2 d2 n -> forall text' s2' d2' n',
  emits i stream s d text' s2' d2' n' -> text' = text /\ s2' = s2.
Proof.
  induction 1 as [|s d out s1 d1 text s2 d2 n Hw Hf Hne Hem IH]; intros text' s2' d2' n' Hem'; inversion Hem' as [|? ? ? ? ? ? ? ? ? ? Hf']; subst;
    try congruence; [done|].
  destruct (makes_frame_unique _ _ _ _ _ _ _ _ _ _ Hf Hf') as (-> & -> & ->).
  match goal with H : emits i stream s1 d1 _ _ _ _ |- _ => by destruct (IH _ _ _ _ H) as [-> ->] end.
Qed.
Lemma sends2_unique fuel i r bm0 bm bm' x stream text y stream' text' y' : sends2 fuel i r bm0 bm x stream text y ->
  sends2 fuel i r bm0 bm' x stream' text' y' -> stream = stream' /\ text = text' /\ y = y'.
Proof.
  intros [(s & nva & s1 & s2 & d2 & n & Hx & Hnv & Hsub & Hem & _ & ->) _ _]
    [(s' & nva' & s1' & s2' & d2' & n' & Hx' & Hnv' & Hsub' & Hem' & _ & ->) _ _].
  assert (s' = s) as -> by congruence. assert (nva' = nva) as -> by congruence. rewrite Hsub in Hsub'. injection Hsub' as <- <-.
  by destruct (emits_unique _ _ _ _ _ _ _ _ Hem _ _ _ _ Hem') as [-> ->].
Qed.
End Unique.

Section Sending.
Context `{Nghttp2} `{HdrHistogram} (c : Config).

Lemma http2_transmits fuel t i r bm0 bm w p x stream text y : w_conns w !! p = Some x -> c_type x = t -> http r = HTTP2 ->
  sends2 fuel i r bm0 bm x stream text y -> transmits c fuel t p x i r stream text y bm0 bm.
Proof.
  intros Hp Ht Hhttp [(s & nva & s1 & s2 & d2 & n & Hx & Hnv & Hsub & Hem & Hn & ->) Hpos Hbuf].
  assert (forall s', proto2 x s' = set_c_proto (Proto2 s') x) as Hpx by done.
  exists (proto2 x s1). split.
  - intros w1 r1 Hp1 Hi (fd & st & ->). unfold conn_submit_request, on_conn. rewrite (conn_at_run p x) by done. rewrite Hx.
    unfold run2. rewrite (submit_request2_run i x stream (set_us_stream_id st (set_us_fd fd r)) s nva s1 (w_ctx w1)) by done.
    cbn. by rewrite set_w_ctx_id.
  - intros w1 r1 Hp1 Hb Hi (fd & st & ->) Hus.
    destruct (write_http2_run c t p i x stream Ht fuel (set_us_stream_id st (set_us_fd fd r)) s1 (req_data r) text s2 d2 n bm w1)
      as (ud & nt & r' & Hsvc & E); try done; [lia|lia|by rewrite Hb|].
    by exists ud, nt, r'.
Qed.

(** Every free connection of the pool is an HTTP/2 connection that sends the
    request. *)
Definition http2_pool fuel (t : ConnectionType) (cp : ConnectionPool) i r bm w : Prop :=
  forall fd p, connections cp !! fd = Some p -> available w p = true -> exists x stream text y,
    w_conns w !! p = Some x /\ c_type x = t /\ c_fd x = fd /\ sends2 fuel i r (w_bm w) bm x stream text y /\
    find_at (at_type t (us_map (e_mapper (w_env w)))) fd stream = None.

Lemma http2_pool_transmits fuel t cp i r bm w : http r = HTTP2 -> http2_pool fuel t cp i r bm w ->
  pool_transmits c fuel t cp i r bm (fun _ => sends2 fuel i r (w_bm w) bm) w.
Proof.
  intros Hhttp Hpool fd p Hfd Ha. destruct (Hpool fd p Hfd Ha) as (x & stream & text & y & Hp & Ht & Hk & Hs & Hus).
  exists x, stream, text, y. split_and!; try done. by eapply http2_transmits.
Qed.
End Sending.
