(* ===== verification/Release.v ===== *)
(** * A grant releases the request that waits for it

    The client's end of an exchange of credits, composed with the path of a
    request to the ring and with the server's queue: the sidecar of a service
    sends the request the credit was asked for, and passes on the slot that
    its own caller's request held. *)

From Stdlib Require Import ZArith Lia Ascii.
From stdpp Require Import base gmap strings list fin_maps.
From S2P Require Import Prelude Fp Config Buffers PicoHttp Rlp RpcMessage RpcMessageProps RpcMapper Queues LocalMap LocalMapProps Stats StatsProps Ingress Connection Moves Pool Http1 Http1Inv Http1Props Http1Split Http2 CreditQueue CreditQueueSpec CreditQueueProps World ExampleWorld State StateProps Exchange Forward ForwardHttp2.

Open Scope Z_scope.

Section Release.
Context `{Nghttp2} `{HdrHistogram} (keys ds_keys : list string) (c : Config).
Implicit Types (w : World) (r : RPCMessage).

(** [g] is a grant of one credit: packet [p]. *)
Record is_grant (g : Buffer) (p : Packet) : Prop := {
  ig_holds : holds g p;
  ig_ok : packet_ok p;
  ig_type : pk_type p = 1;
  ig_len : pk_len p < 128;
  ig_requested : pk_requested p = 1;
  ig_granted : slice 4 1 (data g) = Some [1]
}.

(** Request [i], [r], to service [service] waits for the credit with [id]. It
    is part of request [j], [rj], that came from upstream, of a service that
    calls others one at a time. *)
Record waits (service : string) (id : Z) (i : nat) r (m : gmap Z nat) (j : nat) rj w : Prop := {
  wt_ppm : w_ppm w !! service = Some m;
  wt_entry : m !! id = Some i;
  wt_service : RpcMessage.service r = service;
  wt_routable : routable c EGRESS i r w;
  wt_http : http r = HTTP2;
  wt_parent : get_ingress_rpc id (e_mapper (w_env w)) = Ok j;
  wt_message : e_heap (w_env w) !! j = Some rj;
  wt_other : j <> i;
  wt_plain : exists entry, mapping c !! RpcMessage.service rj = Some entry /\
    value_or (pfanout entry) false = false /\ value_or (dfanout entry) false = false
}.

Lemma repeatM_one (op : M World unit) w : repeatM 1 op w = op w.
Proof. apply bind_mret_unit. Qed.
Lemma ppm_pop_run service id i m w : w_ppm w !! service = Some m -> m !! id = Some i ->
  on_ppm (ppm_pop service id) w = Ret i (set_w_ppm (<[service := delete id m]> (w_ppm w)) w).
Proof.
  intros Hm Hi. apply run_zoom. unfold ppm_pop. rewrite Hm. cbn [or_fault mbind res_bind].
  assert (size m <> 0%nat) as Hsz by (intros Hz; apply map_size_empty_inv in Hz; subst; done).
  rewrite (proj2 (Nat.eqb_neq _ _)) by done. cbn [fatal_if mbind res_bind]. by rewrite Hi.
Qed.

(** C4: a grant releases the request that waits for it. When a grant of one
    credit arrives at the sidecar of a service that calls others one at a
    time, and a connection to the called service is free, the waiting
    request, and nothing else of it, is submitted to the HTTP/2 session of a
    free connection and goes to the ring as the frames the session makes of
    it; the response on its stream will find the request; the request no
    longer waits. The slot that its caller's request held is given back, and
    the next grant that it admits, if any, is sent. *)
Theorem grant_releases_request fuel g p i r m j rj bm cp rtt w : is_ingress c = false -> is_grant g p ->
  calls c ds_keys (pk_service p) w -> credit_rtt (to_us (readings (w_ctx w) 0%nat)) (data g) = Ok rtt -> 0 < rtt ->
  waits (pk_service p) (pk_id p) i r m j rj w -> counted ds_keys (pk_service p) (e_stats (w_env w)) ->
  get_pool (pk_service p) (w_routes w) = Ok cp -> pool_wf cp -> http2_pool fuel EGRESS cp i r bm w ->
  (exists fd q, connections cp !! fd = Some q /\ available w q = true) ->
  server_inv keys w -> is_ok (decrement_in_flight (w_credits w) (service rj)) -> ud_ready bm ->
  exists q x stream text y ud w1 w' t, protocol_client_grant c fuel g w = Ret tt w' /\
    connections cp !! c_fd x = Some q /\ w_conns w !! q = Some x /\ available w q = true /\
    sends2 fuel i r (w_bm w) bm x stream text y /\ w_conns w' !! q = Some y /\
    w_ring w1 = w_ring w ++ [SqSend (c_fd x) text ud] /\ w_credits w1 = w_credits w /\
    get_us_rpc EGRESS stream (c_fd x) (e_mapper (w_env w')) = Ok i /\
    w_ppm w' = <[pk_service p := delete (pk_id p) m]> (w_ppm w) /\
    answered keys (LDecrement (service rj)) t w1 w'.
Proof.
  intros Hmode [Hh Hok Ht Hlen Hreq H4] Hcalls Hrtt Hpos [Hm Hi Hsvc Hroutable Hhttp Hj Hrj Hne (entry & He & Hpf & Hdf)] Hcount Hcp
    Hwf Hpool Hfree Hinv Hdec Hud.
  destruct (grant_received c ds_keys g p rtt w Hh Hok Ht Hlen Hreq H4 Hcalls Hrtt Hpos) as (mr & m2 & Epost & _).
  set (w0 := rtt_recorded mr m2 w) in *. set (wp := set_w_ppm (<[pk_service p := delete (pk_id p) m]> (w_ppm w)) w0).
  destruct (send_sub_request_sends c fuel ds_keys i r bm cp (fun _ => sends2 fuel i r (w_bm wp) bm) wp)
    as (q & x & stream & text & y & w1 & Esend & Hq & Hx & Ha & Hs2 & Hsent & _);
    [by destruct Hroutable|rewrite Hsvc; by destruct Hcount|by rewrite Hsvc|done|by apply http2_pool_transmits|exact Hfree|].
  destruct Hsent as [[ud Hring] Hcn Hus _ Hbm Hcr Hppm Hck Hrt Hoth].
  destruct (decrement_run keys (service rj) w1) as (w' & Edec & Hans).
  { destruct Hinv as [Hi1 Hi2 Hi3 Hi4]. split; [by rewrite Hcr|by rewrite Hcr|rewrite Hrt; exact Hi3|].
    intros k. rewrite Hck. apply Hi4. }
  { by rewrite Hcr. } { by rewrite Hbm. }
  pose proof Hans as (_ & (Hac & Hap & Ham) & _).
  exists q, x, stream, text, y, ud, w1, w', (to_us (readings (w_ctx w1) 0%nat)). split_and!; [|done|exact Hx|exact Ha|exact Hs2|
    |exact Hring|exact Hcr|by rewrite Ham|by rewrite Hap, Hppm|exact Hans].
  - unfold protocol_client_grant. rewrite (run_bind _ _ _ _ _ Epost). change (Z.to_nat 1) with 1%nat.
    rewrite repeatM_one, Hmode. unfold fanout_req_management.
    rewrite (run_bind _ _ _ (w_env w0) w0) by done. rewrite (run_lift _ _ _ j) by exact Hj.
    rewrite (rpc_run j rj) by exact Hrj.
    rewrite (run_bind _ _ _ entry w0) by (unfold mapping_at; by rewrite He). rewrite Hpf, Hdf.
    rewrite (run_bind _ _ _ i wp) by exact (ppm_pop_run _ _ _ m w0 Hm Hi). rewrite (run_bind _ _ _ _ _ Esend).
    rewrite (rpc_run j rj) by (rewrite Hoth by done; exact Hrj). exact Edec.
  - rewrite Hac, Hcn. apply lookup_insert_eq.
Qed.
End Release.

(** ** An example: "geo" calls "rate" *)

Definition rate : list string := ["rate"%string].
Lemma rate_ok : keys_ok rate.
Proof.
  split; [done|by vm_compute|..].
  - intros k Hk. unfold rate in Hk. rewrite elem_of_cons in Hk. destruct Hk as [->|[]%elem_of_nil]. by vm_compute.
  - intros T d m H. vm_compute in H. injection H as <-. discriminate.
Qed.
Definition rate_map {T} (d : T) : LocalMap T := match LocalMap.make d rate with Ok m => m | Err _ => no_map end.
Lemma rate_map_over {T} (d : T) : over rate (rate_map d).
Proof.
  destruct (make_built d rate (rate_map d) rate_ok) as (Hwf & Hk & _); [vm_compute; reflexivity|]. by split.
Qed.

(** Sessions that keep the frames they will send, and the bodies they will
    read, sixteen bytes at a time. *)
Definition data_frame (bs : list Z) (eof : bool) : list Z :=
  [0; 0; Z.of_nat (length bs); 0; (if eof then 1 else 0); 0; 0; 0; 1] ++ bs.
Definition headers_frame (l : list nv) : list Z :=
  [0; 0; Z.of_nat (length (concat ((fun '(n, v) => n ++ v) <$> l))); 1; 4; 0; 0; 0; 1] ++ concat ((fun '(n, v) => n ++ v) <$> l).
#[local] Instance frame_sessions : Nghttp2 := {|
  session := list (list Z + Z * data_provider);
  session_client_new := [];
  session_server_new := [];
  mem_recv s bs := (Z.of_nat (length bs), [], s);
  session_want_write s := negb (Nat.eqb (length s) 0);
  mem_send s :=
    match s with
    | inl f :: s' => Sent f s'
    | inr (stream, prd) :: _ => ReadData stream prd 16 s
    | [] => Sent [] []
    end;
  resume s bs eof _ := (Some (data_frame bs eof), if eof then drop 1 s else s);
  submit_settings s := Some (s ++ [inl [0; 0; 0; 4; 0; 0; 0; 0; 0]]);
  submit_request s l prd := (1, s ++ [inl (headers_frame l); inr (1, prd)]);
  submit_response s _ _ _ := Some s;
  submit_trailer s _ _ := Some s
|}.

Definition rate_id : Z := 2 ^ 32 + 1.
Definition rate_packet : Packet := stamped_packet 5 (granted_packet (mkPacket 1 0 1 rate_id 2 0 0 "rate")).
Definition rate_grant : Buffer := Eval vm_compute in
  match (req ← fill_credit_request (ex_udp 3) "rate" 1 rate_id 2 0 0; g ← write_failed_dn_response req (ex_udp 4);
         stamp_queuing_time 5 g) with Ok b => b | Err _ => ex_udp 4 end.
Definition method_header : HeaderField := mkHF (bytes_of_string ":method") 7 (bytes_of_string "POST") 4.
Definition path_header : HeaderField := mkHF (bytes_of_string ":path") 5 (bytes_of_string "/rate") 5.
Definition rate_body : list Z := bytes_of_string "twenty bytes of body".
Definition rate_request : RPCMessage :=
  mkRPC 1 31 (-1) (-1) rate_id 2 0 EGRESS 0 0 0 0 0 [] None HTTP2 "rate" "/rate" "POST" 1 200 "OK" false
    ([method_header; path_header] ++ replicate 11 header_make) 2 (replicate 13 header_make) 0 [] 0
    (mkDR rate_body 20 0) (mkDR [] 0 0).
Definition rate_config : Config := mkConfig 64 16 4096 1 8080 9090 "127.0.0.1" 8000 "geo" ∅
  {["geo"%string := mkMappingInfo ["rate"%string] None None None]}
  false false false None None (Some 4) (Some (f32_of_Z 0)) 0
  default_aimd_err_d default_aimd_err_i default_aimd_adj_d default_aimd_adj_i default_safe_multiply.
Definition busy_credits : CreditQueue Buffer := Eval vm_compute in
  match increment_in_flight geo_credits "geo" with Ok q => q | Err _ => geo_credits end.
Lemma busy_credits_wf : cq_wf geo busy_credits.
Proof.
  assert (increment_in_flight geo_credits "geo" = Ok busy_credits) as E by (vm_compute; reflexivity).
  by destruct (step_refines geo geo_credits (LIncrement "geo") busy_credits geo_credits_wf) as [Hwf _]; [constructor|].
Qed.
Definition rate_conn : Connection session := set_c_status UP (upstream_conn 40 zero_addr "rate" 80 EGRESS (Proto2 session_client_new)).
Definition rate_pool : ConnectionPool := mkConnPool {[40 := 0%nat]} EGRESS None 0.
Definition rate_bm (uds : nat) : BufferManager :=
  mkBM 2 64 [Some (buffer_make 129 0); None] [0] [] [] (ex_uds uds) [] [].
Definition rate_world : World :=
  mkWorld {[0%nat := rate_conn]}
    (mkCtx (x_ingress ex_ctx)
      (mkEnv {[0%nat := geo_request; 1%nat := rate_request]} 0
         (mkMapper (mkByType ∅ {[31 := {[1 := 1%nat]}]}) (mkByType ∅ ∅) (mkByType {[1 := 0%nat]} ∅) (mkPool [] []))
         rpc_queue_make
         (mkStats 0 no_map no_map geo_rtt (rate_map ema_make) no_map no_map (rate_map twm_make) (rate_map ema_make)))
      ex_clock 9)
    (rate_bm 2) [] {["rate"%string := {[rate_id := 1%nat]}]} 0 busy_credits (rate_map 0) 0
    (mkUtil no_map no_map no_map 0 no_map no_map []) (pool_make INGRESS) {["rate"%string := rate_pool]} ex_listeners 22.

Lemma rate_server : server_inv geo rate_world.
Proof.
  assert (waiting (abs busy_credits) = []) as Hw by (vm_compute; reflexivity).
  split; [exact busy_credits_wf| |exact geo_rtt_over|exact ex_clock_range]. cbn [w_credits rate_world]. rewrite Hw. constructor.
Qed.
Lemma rate_granted : is_grant rate_grant rate_packet.
Proof.
  split; [split; [split|..]; by vm_compute|split; simpl; unfold rate_id; simpl; lia|done|by vm_compute|done|by vm_compute].
Qed.
Definition rate_bm_after : BufferManager := set_user_data_queue [user_data_make 1] (set_tcp [None; None] [] [] (rate_bm 2)).
Definition rate_headers : list nv :=
  [(bytes_of_string ":method", bytes_of_string "POST"); (bytes_of_string ":path", bytes_of_string "/rate")].
Definition rate_text : list Z :=
  headers_frame rate_headers ++ data_frame (take 16 rate_body) false ++ data_frame (drop 16 rate_body) true ++ [].
Lemma rate_emits : emits 1 1 [inl (headers_frame rate_headers); inr (1, mkProvider 1 false)] (mkDR rate_body 20 0) rate_text
  [] (mkDR rate_body 20 20) 3.
Proof.
  eapply em_frame; [done|by constructor|vm_compute; lia|].
  eapply em_frame; [done|eapply mf_data; [reflexivity|vm_compute; reflexivity|vm_compute; reflexivity]|vm_compute; lia|].
  eapply em_frame; [done|eapply mf_data; [reflexivity|vm_compute; reflexivity|vm_compute; reflexivity]|vm_compute; lia|].
  by constructor.
Qed.
Lemma rate_sends : sends2 4 1 rate_request (w_bm rate_world) rate_bm_after rate_conn 1 rate_text rate_conn.
Proof.
  split; [|done|].
  - eexists _, rate_headers, _, _, _, _. split; [reflexivity|]. split; [by vm_compute|]. split; [reflexivity|].
    split; [exact rate_emits|]. split; [lia|done].
  - exists (set_is_free false (buffer_make 129 0)). eexists _, _, _. split; [vm_compute; reflexivity|].
    split; [split; cbn [length take]; rewrite ?length_replicate; vm_compute; split || idtac; done|].
    split; [by vm_compute|]. split; [vm_compute; reflexivity|]. split; [done|by vm_compute].
Qed.

Lemma grant_releases_request_witness : exists ud w1 w' t,
  protocol_client_grant rate_config 4 rate_grant rate_world = Ret tt w' /\
  w_ring w1 = [SqSend 40 rate_text ud] /\
  get_us_rpc EGRESS 1 40 (e_mapper (w_env w')) = Ok 1%nat /\ answered geo (LDecrement "geo") t w1 w'.
Proof.
  destruct (grant_releases_request geo rate rate_config 4 rate_grant rate_packet 1 rate_request {[rate_id := 1%nat]} 0
    geo_request rate_bm_after rate_pool 4 rate_world)
    as (q & x & stream & text & y & ud & w1 & w' & t & E & Hq & Hx & _ & Hs & _ & Hring & _ & Hus & _ & Ha).
  - done.
  - exact rate_granted.
  - split; [eexists; apply lookup_singleton_eq|exact (rate_map_over 0)|exact (rate_map_over ema_make)|by apply (bool_decide_unpack _)].
  - vm_compute. reflexivity.
  - lia.
  - split; [apply lookup_singleton_eq|apply lookup_singleton_eq|done|by split|done|vm_compute; reflexivity|
      reflexivity|done|].
    exists (mkMappingInfo ["rate"%string] None None None). by split; [apply lookup_singleton_eq|].
  - split; [exact (rate_map_over ema_make)|exact (rate_map_over twm_make)|by apply (bool_decide_unpack _)|].
    intros m Hm. vm_compute in Hm. injection Hm as <-. by intros [? [=]].
  - reflexivity.
  - right. vm_compute. lia.
  - intros fd p Hp _. cbn in Hp. apply lookup_singleton_Some in Hp as [<- <-]. exists rate_conn, 1, rate_text, rate_conn.
    split; [done|]. split; [done|]. split; [done|]. split; [exact rate_sends|done].
  - exists 40, 0%nat. split; [apply lookup_singleton_eq|by vm_compute].
  - exact rate_server.
  - eexists. vm_compute. reflexivity.
  - eexists _, _. by split.
  - apply (lookup_singleton_Some 40 (c_fd x) 0%nat q) in Hq as [Hfd Hq]. subst q.
    apply (lookup_singleton_Some 0%nat 0%nat rate_conn x) in Hx as [_ Hx]. subst x.
    destruct (sends2_unique 4 1 rate_request _ _ _ rate_conn stream text y 1 rate_text rate_conn Hs rate_sends) as (-> & -> & _).
    exists ud, w1, w', t. split; [exact E|]. split; [|split; [exact Hus|exact Ha]].
    exact Hring.
Defined.
