(* ===== verification/Respond.v ===== *)
(** * A response goes back to its client

    The end of a request at the sidecar of the service that answered it: the
    slot of the request is given back and passed on, the response is written
    to the client that asked, and the message is forgotten and can be used
    again. *)

From Stdlib Require Import ZArith Lia Ascii.
From stdpp Require Import base gmap strings list fin_maps.
From S2P Require Import Prelude Fp Config Buffers PicoHttp PicoHttpFormat Rlp RpcMessage RpcMessageProps RpcMapper Queues LocalMap LocalMapProps Stats StatsProps Ingress Connection Moves Pool Http1 Http1Inv Http1Props Http2 CreditQueue CreditQueueSpec CreditQueueProps World ExampleWorld State StateProps Forward Release.

Open Scope Z_scope.

(** ** Holders of a message *)

Section Alone.
Context `{Nghttp2} `{HdrHistogram}.

(** Besides the mapper and connection [p], no one holds message [i]. *)
Record alone (i p : nat) (w : World) : Prop := {
  al_ingress : i ∉ queue (x_ingress (w_ctx w));
  al_ppm service m k j : w_ppm w !! service = Some m -> m !! k = Some j -> j <> i;
  al_conns q x h : q <> p -> w_conns w !! q = Some x -> c_proto x = Proto1 h -> rpc_message h <> Some i
}.

Lemma count_of_none {A} (f : A -> bool) l : (forall a, a ∈ l -> f a = false) -> count_of f l = 0.
Proof.
  intros Hf. unfold count_of. induction l as [|a l IH]; [done|]. rewrite filter_cons_False.
  - apply IH. intros b Hb. apply Hf. by right.
  - rewrite (Hf a) by left. done.
Qed.

Lemma alone_holders i p w : alone i p w -> other_holders w p i = 0.
Proof.
  intros [Hg Hp Hc]. unfold other_holders. rewrite !count_of_none; [done|..].
  - intros [q x] Hq%elem_of_map_to_list. cbn. destruct (Nat.eqb_spec q p) as [->|Hne]; [done|]. cbn.
    destruct (c_proto x) as [h|s] eqn:E; [|done]. apply bool_decide_eq_false. by eapply Hc.
  - intros j Hj. apply Nat.eqb_neq. apply list_elem_of_In, in_concat in Hj as (l & Hl%list_elem_of_In & Hj%list_elem_of_In).
    apply list_elem_of_fmap in Hl as ([service m] & -> & Hm%elem_of_map_to_list).
    apply list_elem_of_fmap in Hj as ([k j'] & -> & Hk%elem_of_map_to_list). cbn. intros Hji. by eapply Hp.
  - intros j Hj. apply Nat.eqb_neq. congruence.
Qed.
End Alone.

Section Respond.
Context `{Nghttp2} `{HdrHistogram} (keys ds us : list string) (c : Config).
Implicit Types (w : World) (r : RPCMessage).

(** ** Passing on the slot *)

(** What a slot given back leaves: the queue, and with a grant to send a
    reading of the clock, a [UserData] and a submission. *)
Definition slot_passed q w w' : Prop :=
  w' = set_w_credits q w \/
  exists ud uds s, user_data_queue (w_bm w) = ud :: uds /\
    w' = set_w_ring (w_ring w ++ [s]) (set_w_bm (set_user_data_queue uds (w_bm w))
           (set_w_ctx (advance_clock 1 (w_ctx w)) (set_w_credits q w))).

Lemma check_transmission_frame w w' : check_credit_transmission w = Ret tt w' -> ud_ready (w_bm w) ->
  exists q, slot_passed q w w'.
Proof.
  intros E (ud & uds & Hu & Hb). unfold check_credit_transmission, mbind, M_bind, on_credits, zoom in E.
  destruct (pop (w_credits w)) as [[[b|] q]|[]]; try discriminate; exists q.
  - right. set (w1 := set_w_ctx (advance_clock 1 (w_ctx w)) (set_w_credits q w)).
    change (now_us (set_w_credits q w)) with (Ret (to_us (readings (w_ctx w) 0%nat)) w1) in E. cbn beta iota in E.
    destruct (stamp_queuing_time _ b) as [b'|[]]; [|discriminate..]. cbn [lift] in E.
    destruct (send_datagram_run b' w1) as (ud' & u & us' & Hu' & E' & _); [by exists ud, uds|].
    pose proof (eq_trans (eq_sym E') E) as Ew. injection Ew as <-. by eexists u, us', _.
  - left. by injection E as <-.
Qed.

Lemma decrement_frame service w w' : decrement_and_check service w = Ret tt w' -> ud_ready (w_bm w) ->
  exists q, slot_passed q w w'.
Proof.
  intros E Hud. unfold decrement_and_check in E. unfold mbind at 1, M_bind, on_credits_, on_credits, zoom in E.
  destruct (q ← decrement_in_flight _ _; _) as [[[] q]|[]]; [|discriminate..].
  destruct (check_transmission_frame _ _ E Hud) as (q' & [->|(ud & uds & s & Hu & ->)]); exists q'; [by left|right].
  by exists ud, uds, s.
Qed.

(** ** Writing a response *)

(** Message [i] is no longer found under its keys on the ingress side, and is
    back in its pool; nothing else is lost. *)
Record forgets (i : nat) r (e e' : Env) : Prop := {
  fg_ds : erased (RpcMessage.ds_fd r) (ds_stream_id r) (at_type INGRESS (ds_map (e_mapper e))) (at_type INGRESS (ds_map (e_mapper e')));
  fg_us : erased (us_fd r) (us_stream_id r) (at_type INGRESS (us_map (e_mapper e))) (at_type INGRESS (us_map (e_mapper e')));
  fg_id : at_type INGRESS (id_map (e_mapper e')) = delete (local_id r) (at_type INGRESS (id_map (e_mapper e)));
  fg_egress : at_type EGRESS (ds_map (e_mapper e')) = at_type EGRESS (ds_map (e_mapper e)) /\
    at_type EGRESS (us_map (e_mapper e')) = at_type EGRESS (us_map (e_mapper e)) /\
    at_type EGRESS (id_map (e_mapper e')) = at_type EGRESS (id_map (e_mapper e));
  fg_heap j : j <> i -> e_heap e' !! j = e_heap e !! j;
  fg_pool : grpc_pool (pool (e_mapper e')) ++ http_pool (pool (e_mapper e')) ≡ₚ
    i :: grpc_pool (pool (e_mapper e)) ++ http_pool (pool (e_mapper e))
}.

(** The finished request [i] of the service, with its response. *)
Record finished (i : nat) r (x : Ctx) : Prop := {
  fi_tracked : tracked INGRESS i (e_heap (x_env x)) (e_mapper (x_env x)) r;
  fi_http : http r = HTTP1;
  fi_type : RpcMessage.type r = INGRESS;
  fi_ok : error r = false;
  fi_wf : response_wf r;
  fi_returns : credit_return_queue r = [];
  fi_time n : req_for_time r <= x_clock x n;
  fi_stats : stats_wf ds us (e_stats (x_env x));
  fi_service : service r ∈ us
}.

Lemma report_and_remove_run (s : CState (Conn1 session)) i r others : finished i r (cs_ctx s) -> others = 0 ->
  exists e', report_and_remove false INGRESS i others s =
      Ret tt (mkCState (cs_conn s) (set_x_env e' (advance_clock 6 (cs_ctx s)))) /\
    forgets i r (x_env (cs_ctx s)) e' /\ stats_wf ds us (e_stats e') /\ e_queue e' = e_queue (x_env (cs_ctx s)).
Proof.
  intros [Htr Hh Ht He Hw Hc Hclock Hst Hs] ->. destruct s as [cn ctx]. cbn [cs_ctx cs_conn] in *.
  pose proof (latency_reported ds us false (readings ctx) r (e_stats (x_env ctx)) Hst) as Hlat.
  rewrite Ht, He in Hlat. specialize (Hlat Hs ltac:(done)).
  rewrite (proj2 (Z.ltb_ge _ _)) in Hlat by apply Hclock. destruct Hlat as (st & El & Hst' & _).
  destruct (remove_untracks INGRESS i _ _ r Htr Hc) as (hp & m & Er & H1 & H2 & H3 & H4 & H5 & H6).
  exists (set_heap hp (set_mapper m (set_stats st (x_env ctx)))). split; [|split; [split|split]]; try done.
  - unfold report_and_remove. rewrite (run_bind _ _ _ ctx (mkCState cn ctx)) by done.
    rewrite (run_bind _ _ _ r (mkCState cn ctx)).
    2:{ unfold read_rpc. rewrite (run_bind _ _ _ ctx (mkCState cn ctx)) by done. unfold deref. by rewrite (tr_heap _ _ _ _ _ Htr). }
    rewrite (run_lift _ _ _ st) by exact El.
    set (ctx1 := advance_clock 6 (set_x_env (set_stats st (x_env ctx)) ctx)).
    rewrite (run_bind _ _ _ tt (mkCState cn ctx1)) by done.
    unfold on_env_, on_env. rewrite (run_bind _ _ _ ctx1 (mkCState cn ctx1)) by done.
    change (e_heap (x_env ctx1)) with (e_heap (x_env ctx)). change (e_mapper (x_env ctx1)) with (e_mapper (x_env ctx)).
    rewrite Er. reflexivity.
  - apply (H4 EGRESS). done.
Qed.

(** The connection after a response. *)
Definition responded (h : HTTP1State) : HTTP1State := set_idle true (put_rpc_message None h).

Definition response_wire r : list Z := view_text r ++ view_body r.

Lemma http1_respond_run others b (x : Connection session) h i r ctx : c_direction x = DOWNSTREAM -> c_type x = INGRESS ->
  is_ingress c = false -> rpc_message h = Some i -> idle h = false -> finished i r ctx -> others i = 0 ->
  holding b [] -> bsize b < 2 ^ 31 -> Z.of_nat (length (response_wire r)) < bsize b ->
  exists b' n e', http1_write c others b (mkCState (mkConn1 x h) ctx) =
      Ret (b', n) (mkCState (mkConn1 x (responded h)) (set_x_env e' (advance_clock 6 ctx))) /\
    filled b' = Z.of_nat (length (response_wire r)) /\ take (length (response_wire r)) (data b') = response_wire r /\
    forgets i r (x_env ctx) e' /\ stats_wf ds us (e_stats e') /\ e_queue e' = e_queue (x_env ctx).
Proof.
  intros Hd Ht Hmode Hm Hidle Hfin Ho Hb Hsz Hfit. pose proof (fi_wf _ _ _ Hfin) as Hw. pose proof Hfit as Hfit'.
  unfold response_wire in Hfit'. rewrite length_app in Hfit'.
  destruct (write_response_spec r b Hb Hsz (sw_minor _ Hw)) as (b' & E & Hf & Htake);
    [done|lia|unfold response_wire in Hfit; lia|].
  set (s0 := mkCState (mkConn1 x h) ctx). set (s1 := mkCState (mkConn1 x (put_rpc_message None h)) ctx).
  set (s2 := mkCState (mkConn1 x (responded h)) ctx).
  destruct (report_and_remove_run s2 i r (others i) Hfin Ho) as (e' & Er & Hfg & Hst & Hq).
  exists b', (Z.of_nat (length (response_wire r))), e'. split; [|done].
  unfold http1_write. rewrite (run_bind _ _ _ x s0) by done.
  rewrite (run_bind _ _ _ i s1).
  2:{ unfold get_rpc_message. rewrite (run_bind _ _ _ h s0) by done. by rewrite (run_lift _ _ _ i) by (by rewrite Hm). }
  rewrite (run_bind _ _ _ r s1).
  2:{ unfold read_rpc. rewrite (run_bind _ _ _ ctx s1) by done. unfold deref. by rewrite (tr_heap _ _ _ _ _ (fi_tracked _ _ _ Hfin)). }
  rewrite Hd, (run_lift _ _ _ (b', Z.of_nat (length (response_wire r)))) by exact E.
  rewrite (run_bind _ _ _ (put_rpc_message None h) s1) by done. rewrite run_guard by exact Hidle.
  rewrite (run_bind _ _ _ tt s2) by done. rewrite Hmode, Ht. by rewrite (run_bind _ _ _ _ _ Er).
Qed.

(** ** The response of a request *)

(** A buffer for the text [t], and a [UserData] each for it and for a grant. *)
Definition respond_ready (bm : BufferManager) (t : list Z) : Prop :=
  exists b bm1 u1 u2 q, get_buffer bm = Ok (b, bm1) /\ holding b [] /\ bsize b < 2 ^ 31 /\
    Z.of_nat (length t) < bsize b /\ user_data_queue bm = u1 :: u2 :: q /\ ud_buffer u1 = None /\ ud_buffer u2 = None.

Lemma get_buffer_uds bm b bm1 q : get_buffer bm = Ok (b, bm1) ->
  get_buffer (set_user_data_queue q bm) = Ok (b, set_user_data_queue q bm1) /\ user_data_queue bm1 = user_data_queue bm.
Proof.
  unfold get_buffer. cbn [set_user_data_queue free_buffer_queue buffer_vector tcp_ring].
  destruct (free_buffer_queue bm); [done|]. intros E. bind_inv. destruct a as [b0 vec]. injection E as -> <-.
  rewrite E0. done.
Qed.

(** A slot passed on leaves what a response needs. *)
Lemma slot_passed_ready q w w1 t : slot_passed q w w1 -> respond_ready (w_bm w) t ->
  exists b bm1 ud uds, get_buffer (w_bm w1) = Ok (b, bm1) /\ holding b [] /\ bsize b < 2 ^ 31 /\
    Z.of_nat (length t) < bsize b /\ user_data_queue bm1 = ud :: uds /\ ud_buffer ud = None.
Proof.
  intros Hs (b & bm1 & u1 & u2 & uds & Hb & Hh & Hsz & Hfit & Hu & H1 & H2).
  destruct (get_buffer_uds _ _ _ (u2 :: uds) Hb) as [Hb' Hu']. destruct Hs as [->|(ud & uds' & s & Hud & ->)].
  - exists b, bm1, u1, (u2 :: uds). by rewrite Hu'.
  - rewrite Hu in Hud. injection Hud as <- <-. by exists b, (set_user_data_queue (u2 :: uds) bm1), u2, uds.
Qed.

Lemma report_utilization_run service w : util_wf keys (w_util w) -> service ∈ keys ->
  exists u, report_utilization service w = Ret tt (set_w_util u (set_w_ctx (advance_clock 3 (w_ctx w)) w)).
Proof.
  intros Hu Hs.
  destruct (util_update_ok hdr_record_value hdr_reset keys (u32 (w_in_local w)) service (readings (w_ctx w)) (w_util w) Hu Hs) as (u & Eu & _).
  exists u. unfold report_utilization. rewrite (run_bind _ _ _ (w_in_local w) w) by done.
  set (w3 := set_w_ctx (advance_clock 3 (w_ctx w)) w). rewrite (run_bind _ _ _ (readings (w_ctx w)) w3) by done.
  apply run_zoom. change (w_util w3) with (w_util w). by rewrite Eu.
Qed.

(** The bookkeeping of a response: the slot is passed on, then the thread
    counts one request less. *)
Definition counted_down u w : World :=
  set_w_util u (set_w_ctx (advance_clock 3 (w_ctx w)) (set_w_in_local (i32 (w_in_local w + -1)) w)).

Lemma account_response_run r w w1 : (local_id r =? -1) && negb (is_plain_frontend c) = false ->
  decrement_and_check (service r) w = Ret tt w1 -> util_wf keys (w_util w1) -> service r ∈ keys ->
  exists u, account_response c INGRESS r w = Ret tt (counted_down u w1).
Proof.
  intros Hid Hdec Hu Hs. set (w2 := set_w_in_local (i32 (w_in_local w1 + -1)) w1).
  destruct (report_utilization_run (service r) w2 Hu Hs) as (u & Eu).
  exists u. unfold account_response. rewrite run_guard by exact Hid. rewrite (run_bind _ _ _ _ _ Hdec).
  rewrite (run_bind _ _ _ tt w2) by done. exact Eu.
Qed.

(** The client of request [i] waits for its response on connection [p]. *)
Record client_waits (i p : nat) r (x : Connection session) (h : HTTP1State) w : Prop := {
  cw_listed : lis_connections (at_type INGRESS (w_listeners w)) !! RpcMessage.ds_fd r = Some p;
  cw_conn : w_conns w !! p = Some x;
  cw_proto : c_proto x = Proto1 h;
  cw_direction : c_direction x = DOWNSTREAM;
  cw_type : c_type x = INGRESS;
  cw_free : rpc_message h = None;
  cw_busy : idle h = false;
  cw_alone : alone i p w
}.

Lemma submit_to_client_run p x h i r w : w_conns w !! p = Some x -> c_proto x = Proto1 h -> rpc_message h = None ->
  e_heap (w_env w) !! i = Some r -> http r = HTTP1 -> error r = false ->
  submit_to_client INGRESS p i w = Ret tt (with_h1 p x (put_rpc_message (Some i) h) w).
Proof.
  intros Hp Hx Hm Hi Hh He. unfold submit_to_client. rewrite (rpc_run i r) by done. rewrite He.
  set (s := mkCState (mkConn1 x h) (w_ctx w)). set (s1 := mkCState (mkConn1 x (put_rpc_message (Some i) h)) (w_ctx w)).
  assert (http1_submit_response i s = Ret tt s1) as E.
  { unfold http1_submit_response. rewrite (run_bind _ _ _ tt s).
    - unfold set_rpc_message. rewrite (run_bind _ _ _ h s) by done. by rewrite run_guard by (by rewrite Hm).
    - unfold cast_rpc. rewrite (run_bind _ _ _ r s); [by rewrite bool_decide_true by done|].
      unfold read_rpc. rewrite (run_bind _ _ _ (w_ctx w) s) by done. unfold deref. unfold w_env in Hi. by rewrite Hi. }
  unfold conn_submit_response, on_conn. rewrite (conn_at_run p x) by done. rewrite Hx. unfold run1. fold s. rewrite E.
  change (Ret tt (set_w_conns (<[p := set_c_proto (Proto1 (put_rpc_message (Some i) h)) x]> (w_conns w)) (set_w_ctx (w_ctx w) w)) =
    Ret tt (with_h1 p x (put_rpc_message (Some i) h) w)). by rewrite set_w_ctx_id.
Qed.

Lemma forward_upstream_run fuel p x h i r fd stream w w1 : client_waits i p r x h w -> finished i r (w_ctx w) ->
  get_us_rpc INGRESS stream fd (e_mapper (w_env w)) = Ok i -> (local_id r =? -1) && negb (is_plain_frontend c) = false ->
  is_ingress c = false -> respond_ready (w_bm w) (response_wire r) -> util_wf keys (w_util w) -> service r ∈ keys ->
  decrement_and_check (service r) w = Ret tt w1 ->
  exists ud w', forward_upstream c (S (S fuel)) INGRESS fd stream w = Ret tt w' /\
    w_ring w' = w_ring w1 ++ [SqSend (c_fd x) (response_wire r) ud] /\ w_credits w' = w_credits w1 /\
    w_in_local w' = i32 (w_in_local w - 1) /\ w_conns w' = <[p := set_c_proto (Proto1 (responded h)) x]> (w_conns w) /\
    forgets i r (w_env w) (w_env w') /\ e_queue (w_env w') = e_queue (w_env w).
Proof.
  intros [Hl Hp Hx Hd Hct Hm Hidle Hal] Hfin Hus Hid Hmode Hbm Hutil Hsvc Hdec.
  assert (ud_ready (w_bm w)) as Hud by (destruct Hbm as (b & bm1 & u1 & u2 & q & _ & _ & _ & _ & Hu & H1 & _); by exists u1, (u2 :: q)).
  destruct (decrement_frame _ _ _ Hdec Hud) as (q & Hslot).
  destruct (slot_passed_ready q w w1 _ Hslot Hbm) as (b & bm1 & u & uds & Hb & Hhold & Hsz & Hfit & Hu & Hub).
  assert (w_env w1 = w_env w /\ w_conns w1 = w_conns w /\ w_ppm w1 = w_ppm w /\ w_listeners w1 = w_listeners w /\
    w_util w1 = w_util w /\ w_in_local w1 = w_in_local w /\ x_ingress (w_ctx w1) = x_ingress (w_ctx w) /\
    x_clock (w_ctx w1) = x_clock (w_ctx w)) as (He & Hcn & Hppm & Hls & Hut & Hin & Hig & Hck)
    by (destruct Hslot as [->|(? & ? & ? & _ & ->)]; done).
  destruct (account_response_run r w w1 Hid Hdec) as (u' & Eacc); [by rewrite Hut|done|].
  set (w3 := counted_down u' w1) in *. pose proof (fi_tracked _ _ _ Hfin) as Htr.
  set (h1 := put_rpc_message (Some i) h). set (w4 := with_h1 p x h1 w3).
  assert (e_heap (w_env w3) !! i = Some r) as Hi by (change (w_env w3) with (w_env w1); rewrite He; apply (tr_heap _ _ _ _ _ Htr)).
  assert (submit_to_client INGRESS p i w3 = Ret tt w4) as Esub.
  { apply submit_to_client_run with (r := r); [change (w_conns w3) with (w_conns w1); by rewrite Hcn|done..| |]; apply Hfin. }
  assert (finished i r (w_ctx w4)) as Hfin4.
  { assert (x_env (w_ctx w4) = x_env (w_ctx w)) as He4 by exact He.
    assert (x_clock (w_ctx w4) = x_clock (w_ctx w)) as Hck4 by exact Hck.
    destruct Hfin. split; try done; rewrite ?He4, ?Hck4; done. }
  assert (alone i p w4) as Hal4.
  { destruct Hal as [A1 A2 A3]. split.
    - change (x_ingress (w_ctx w4)) with (x_ingress (w_ctx w1)). by rewrite Hig.
    - change (w_ppm w4) with (w_ppm w1). by rewrite Hppm.
    - intros q' y k Hne. cbn [w4 with_h1 set_w_conns w_conns]. rewrite lookup_insert_ne by done.
      change (w_conns w3) with (w_conns w1). rewrite Hcn. by apply A3. }
  destruct (http1_respond_run (other_holders w4 p) b (set_c_proto (Proto1 h1) x) h1 i r (w_ctx w4)) as (b' & n & e' & Ew & Hf & Htake & Hfg & _ & Hqe);
    [done|done|done|done|done|done|by apply alone_holders|done|done|done|].
  destruct (write_http_once c fuel p (set_c_proto (Proto1 h1) x) h1 (responded h1)
    (set_x_env e' (advance_clock 6 (w_ctx w4))) b bm1 b' n (response_wire r) u uds w4)
    as (ud & Ewr); [apply lookup_insert_eq|done|by eexists|exact Hb|exact Ew|done| |done|done|done|done|].
  { unfold response_wire, view_text, response_format, version_text. rewrite !length_app. cbn. lia. }
  eexists ud, _. split; [|split_and!].
  - unfold forward_upstream. rewrite (run_bind _ _ _ (w_env w) w) by done. rewrite (run_lift _ _ _ i) by done.
    rewrite (rpc_run i r) by apply (tr_heap _ _ _ _ _ Htr). unfold catch_fatal.
    rewrite (run_bind _ _ _ (w_listeners w) w) by done.
    rewrite (run_lift _ _ _ p) by (unfold lis_get_connection; by rewrite Hl).
    assert (is_drop r = false) as -> by (unfold is_drop; by rewrite (fi_ok _ _ _ Hfin), (fi_http _ _ _ Hfin)).
    rewrite (run_bind _ _ _ _ _ Eacc), (run_bind _ _ _ _ _ Esub), Ewr. reflexivity.
  - done.
  - done.
  - cbn. by rewrite Hin.
  - cbn. rewrite insert_insert_eq, Hcn. done.
  - change (x_env (w_ctx w4)) with (w_env w1) in Hfg. rewrite He in Hfg. exact Hfg.
  - change (x_env (w_ctx w4)) with (w_env w1) in Hqe. rewrite He in Hqe. exact Hqe.
Qed.

(** C6: a response goes back to the client that asked. When the application
    has answered request [i], and its stream is the one in the queue, the
    thread gives the slot of the request back and sends the next grant that
    this admits, if any; then the text of the response, and nothing else, goes
    to the ring, on the connection of the client, which is free again; the
    request is forgotten, its message is back in the pool, and the thread
    counts one request less in progress. *)
Theorem response_returns fuel p x h i r fd stream w : is_ingress c = false ->
  queue_at INGRESS UPSTREAM (e_queue (w_env w)) = [(fd, stream)] -> get_us_rpc INGRESS stream fd (e_mapper (w_env w)) = Ok i ->
  client_waits i p r x h w -> finished i r (w_ctx w) -> (local_id r =? -1) && negb (is_plain_frontend c) = false ->
  respond_ready (w_bm w) (response_wire r) -> util_wf keys (w_util w) -> service r ∈ keys ->
  server_inv keys w -> is_ok (decrement_in_flight (w_credits w) (service r)) ->
  exists w1 t ud w', forward c (S (S fuel)) INGRESS UPSTREAM w = Ret tt w' /\
    answered keys (LDecrement (service r)) t w w1 /\ w_credits w' = w_credits w1 /\
    w_ring w' = w_ring w1 ++ [SqSend (c_fd x) (response_wire r) ud] /\
    w_conns w' = <[p := set_c_proto (Proto1 (responded h)) x]> (w_conns w) /\
    forgets i r (w_env w) (w_env w') /\ w_in_local w' = i32 (w_in_local w - 1) /\
    queue_at INGRESS UPSTREAM (e_queue (w_env w')) = [].
Proof.
  intros Hmode Hq Hus Hc Hfin Hid Hbm Hutil Hsvc Hinv Hdec.
  assert (ud_ready (w_bm w)) as Hud by (destruct Hbm as (b & bm1 & u1 & u2 & q & _ & _ & _ & _ & Hu & H1 & _); by exists u1, (u2 :: q)).
  set (wq := dequeued INGRESS UPSTREAM w).
  destruct (decrement_run keys (service r) wq) as (w1 & Edec & Hans); [by destruct Hinv|done..|].
  destruct (forward_upstream_run fuel p x h i r fd stream wq w1) as (ud & w' & Efwd & Hring & Hcr & Hin & Hcn & Hfg & Hqe);
    [by destruct Hc as [? ? ? ? ? ? ? []]|by destruct Hfin|done..|].
  assert (queue_at INGRESS UPSTREAM (e_queue (w_env w')) = []) as Hq' by (rewrite Hqe; reflexivity).
  assert (forgets i r (w_env w) (w_env w')) as Hfg' by (destruct Hfg; by split).
  exists w1, (to_us (readings (w_ctx wq) 0%nat)), ud, w'. split; [|exact (conj Hans (conj Hcr (conj Hring (conj Hcn (conj Hfg' (conj Hin Hq'))))))].
  apply (forward_one c (S (S fuel)) INGRESS UPSTREAM fd stream w); [by left|done| |exact Efwd|done].
  intros _. apply bool_decide_eq_false. intros E. pose proof (cw_listed _ _ _ _ _ _ Hc) as Hl. by rewrite E in Hl.
Qed.
End Respond.

(** ** An example: "geo" has answered *)

Definition geo_map {T} (d : T) : LocalMap T := match LocalMap.make d geo with Ok m => m | Err _ => no_map end.
Lemma geo_map_default {T} (d : T) : over geo (geo_map d) /\ forall k v, get (geo_map d) k = Ok v -> v = d.
Proof.
  apply make_over_default; [done|by vm_compute|exact (ko_names _ geo_ok)|vm_compute; reflexivity|].
  intros E. vm_compute in E. discriminate.
Qed.

Definition geo_stats : Stats := mkStats 0 (geo_map ema_make) (geo_map ema_make) (geo_map ema_make) (geo_map ema_make)
  (geo_map sqe_make) (geo_map sqe_make) (geo_map twm_make) (geo_map ema_make).
Lemma geo_stats_wf : stats_wf geo geo geo_stats.
Proof.
  split; [exact (proj1 (geo_map_default _))|exact (proj1 (geo_map_default _))|exact (proj1 (geo_map_default _))|
    exact (proj1 (geo_map_default _))|exact (proj1 (geo_map_default _))|exact (proj1 (geo_map_default _))|
    exact (proj1 (geo_map_default _))|exact (proj1 (geo_map_default _))|..];
    intros k e ->%(proj2 (geo_map_default sqe_make)); apply sqe_make_ok.
Qed.

Definition geo_answer : RPCMessage :=
  mkRPC 1 30 1 40 (2 ^ 32) 5 0 INGRESS 0 0 0 0 0 [] None HTTP1 "geo" "/geo" "GET" 1 200 "OK" false
    (replicate 13 header_make) 0 (replicate 13 header_make) 0 [] 0 (mkDR [] 0 0) (mkDR (bytes_of_string "hi") 2 0).
Definition busy_h1 : HTTP1State := set_idle false h1_make.
Definition geo_conn : Connection session := downstream_conn 30 INGRESS (Proto1 busy_h1).
Definition answer_world : World :=
  mkWorld {[0%nat := geo_conn]}
    (mkCtx (x_ingress ex_ctx)
      (mkEnv {[0%nat := geo_answer]} 0
         (mkMapper (mkByType {[30 := {[1 := 0%nat]}]} ∅) (mkByType {[40 := {[1 := 0%nat]}]} ∅)
            (mkByType {[2 ^ 32 := 0%nat]} ∅) (mkPool [] []))
         (set_queue INGRESS UPSTREAM [(40, 1)] rpc_queue_make) geo_stats)
      ex_clock 9)
    (rate_bm 3) [] ∅ 1 busy_credits (geo_map 0) 0
    (mkUtil (geo_map fp_zero) (geo_map 0) (geo_map 0) 10 (geo_map 0) (geo_map 0) []) (pool_make INGRESS) ∅
    (mkByType (mkListener 20 8080 INGRESS {[30 := 0%nat]}) (mkListener 21 8081 EGRESS ∅)) 22.

Lemma geo_answer_wf : response_wf geo_answer.
Proof.
  split; [cbn; lia|cbn; lia|split; [apply (bool_decide_unpack _); by vm_compute|by vm_compute]|constructor|..].
  - split; [done| |cbn; lia]. apply Forall_replicate, header_make_wf.
  - split; [cbn; lia|]. apply (bool_decide_unpack _). by vm_compute.
Qed.

Lemma response_returns_witness : exists w1 t ud w', forward rate_config 2 INGRESS UPSTREAM answer_world = Ret tt w' /\
  answered geo (LDecrement "geo") t answer_world w1 /\
  w_ring w' = w_ring w1 ++ [SqSend 30 (bytes_of_string "HTTP/1.1 200 OK" ++ [13; 10; 13; 10] ++ bytes_of_string "hi") ud] /\
  w_in_local w' = 0.
Proof.
  destruct (response_returns geo geo geo rate_config 0 0 geo_conn busy_h1 0 geo_answer 40 1 answer_world)
    as (w1 & t & ud & w' & E & Ha & _ & Hr & _ & _ & Hl & _).
  - reflexivity.
  - reflexivity.
  - vm_compute. reflexivity.
  - split; try reflexivity.
    split; [apply not_elem_of_nil|intros service m k j Hm; done|].
    intros q x h Hq Hx. cbn in Hx. apply lookup_singleton_Some in Hx as [<- _]. done.
  - split; try reflexivity.
    + split; vm_compute; reflexivity.
    + exact geo_answer_wf.
    + intros n. cbn. unfold ex_clock. lia.
    + exact geo_stats_wf.
    + apply (bool_decide_unpack _). by vm_compute.
  - reflexivity.
  - eexists _, _, _, _, _. split; [vm_compute; reflexivity|].
    split; [split; [reflexivity|reflexivity|by vm_compute|by vm_compute]|]. split; [by vm_compute|]. split; [by vm_compute|].
    split; [reflexivity|]. split; reflexivity.
  - split; exact (proj1 (geo_map_default _)).
  - apply (bool_decide_unpack _). by vm_compute.
  - split; [exact busy_credits_wf| |exact (proj1 (geo_map_default ema_make))|exact ex_clock_range].
    cbn [w_credits answer_world]. assert (waiting (abs busy_credits) = []) as -> by (vm_compute; reflexivity). constructor.
  - eexists. vm_compute. reflexivity.
  - exists w1, t, ud, w'. split; [exact E|]. split; [exact Ha|]. split; [exact Hr|exact Hl].
Defined.
