(* ===== verification/Edge.v ===== *)
(** * A grant at the edge

    The ingress, composed: a credit that comes back releases the request at
    the head of its queue, and the next credit is asked for. *)

From Stdlib Require Import ZArith Lia Ascii.
From stdpp Require Import base gmap strings list fin_maps.
From S2P Require Import Prelude Fp Config Buffers PicoHttp Rlp RpcMessage RpcMessageProps RpcMapper Queues LocalMap LocalMapProps Stats StatsProps Ingress IngressProps Connection Moves Pool Http1 Http1Inv Http1Props Http1Split Http2 CreditQueue CreditQueueSpec CreditQueueProps World ExampleWorld State StateProps Exchange Forward Release Respond.

Open Scope Z_scope.

Section Edge.
Context `{Nghttp2} `{HdrHistogram} (ds_keys : list string) (c : Config).
Implicit Types (w : World) (r : RPCMessage) (p : Packet).

Lemma on_ingress_run {A} (f : Ingress -> Env -> res (A * Ingress * Env)) a g e w :
  f (x_ingress (w_ctx w)) (w_env w) = Ok (a, g, e) -> on_ingress f w = Ret a (set_w_ctx (set_x_ingress g (set_x_env e (w_ctx w))) w).
Proof. unfold on_ingress. by intros ->. Qed.

(** ** Asking for the next credit *)

(** The head of the queue is [j]; the client can ask for its credit. *)
Record asks_next (service : string) (a : Addr) (rtt : Z) (j : nat) r (bm : BufferManager) w : Prop := {
  an_heap : e_heap (w_env w) !! j = Some r;
  an_udp t : udp_ready bm (mkPacket 1 0 1 (local_id r) (priority r) t rtt service);
  an_ud : ud_ready bm
}.

(** One credit request is out exactly when a request waits: the one for the
    request at the head. *)
Definition asked_next (service : string) (a : Addr) (rtt : Z) (q : list nat) w w' : Prop :=
  queue (x_ingress (w_ctx w')) = q /\ has_credit_request_on_fly (x_ingress (w_ctx w')) = negb (Nat.eqb (length q) 0) /\
  w_conns w' = w_conns w /\ e_mapper (w_env w') = e_mapper (w_env w) /\
  match q with
  | [] => w_ring w' = w_ring w
  | j :: _ => exists r b t, e_heap (w_env w) !! j = Some r /\ submits a b w w' /\
      holds b (mkPacket 1 0 1 (local_id r) (priority r) t rtt service)
  end.

Lemma pre_credit_run service a rtt e cp w : ingress_service (x_ingress (w_ctx w)) = service ->
  over ds_keys (tail_e2e_time_us (e_stats (w_env w))) -> service ∈ ds_keys ->
  get (tail_e2e_time_us (e_stats (w_env w))) service = Ok e -> flush_updated_ e = false ->
  has_credit_request_on_fly (x_ingress (w_ctx w)) = false -> get (w_last_rtt w) service = Ok rtt ->
  get_pool service (w_routes w) = Ok cp -> pool_addr cp = Some a ->
  (forall j q, queue (x_ingress (w_ctx w)) = j :: q -> exists r, asks_next service a rtt j r (w_bm w) w) ->
  exists w', ingress_pre_credit c w = Ret tt w' /\ asked_next service a rtt (queue (x_ingress (w_ctx w))) w w'.
Proof.
  intros Hsvc Htail Hkey He Hflush Hfly Hrtt Hcp Haddr Hnext.
  assert (consume_flush_updated e = (false, e)) as Econ by (unfold consume_flush_updated; rewrite Hflush; by destruct e; cbn in *; subst).
  destruct (set_ok (tail_e2e_time_us (e_stats (w_env w))) service e) as [m Em]; [apply Htail|by apply (over_keys _ _ Htail)|].
  set (w1 := set_w_env (set_stats (set_tail_e2e m (e_stats (w_env w))) (w_env w)) w).
  set (g := set_on_fly (negb (Nat.eqb (length (queue (x_ingress (w_ctx w)))) 0)) (x_ingress (w_ctx w))).
  set (w2 := set_w_ctx (set_x_ingress g (w_ctx w1)) w1).
  assert (forall A (k : bool -> M World A), (on_ingress (fun g e => let '(b, g) := send_credit_request_checker g in Ok (b, g, e)) ≫= k) w1 =
    k (negb (Nat.eqb (length (queue (x_ingress (w_ctx w)))) 0)) w2) as Echeck.
  { intros A k. apply run_bind. erewrite on_ingress_run; [reflexivity|].
    change (x_ingress (w_ctx w1)) with (x_ingress (w_ctx w)). unfold send_credit_request_checker, ing_size. rewrite Hfly, andb_true_r.
    unfold g. destruct (queue (x_ingress (w_ctx w))); reflexivity. }
  unfold ingress_pre_credit. rewrite (run_bind _ _ _ w w) by done. rewrite Hsvc. rewrite (run_lift _ _ _ e) by done.
  rewrite Econ. cbv beta iota.
  rewrite (run_bind _ _ _ tt w1) by (apply on_stats_run; by rewrite Em). rewrite (run_bind _ _ _ tt w1) by done.
  rewrite Echeck. clear Echeck. destruct (queue (x_ingress (w_ctx w))) as [|j q] eqn:Eq.
  - exists w2. split; [done|]. split_and!; [exact Eq|done..].
  - destruct (Hnext j q eq_refl) as (r & [Hr Hudp Hud]). cbn [length Nat.eqb negb].
    destruct (credit_request_sent a service (local_id r) (priority r) rtt w2) as (b & w' & E & Hb & Hsub & Hc & n & Hx).
    { split; [exact Hrtt|apply Hudp|exact Hud]. }
    exists w'. split.
    + rewrite (run_bind _ _ _ w2 w2) by done.
      assert (head (queue (x_ingress (w_ctx w2))) = Some j) as Hhead by (cbn; by rewrite Eq).
      rewrite (run_lift _ _ _ (local_id r)) by (unfold get_tail_id, deref; rewrite Hhead; cbn; by rewrite Hr).
      rewrite (run_lift _ _ _ (priority r)) by (unfold get_tail_priority, deref; rewrite Hhead; cbn; by rewrite Hr).
      rewrite (run_bind _ _ _ a w2); [exact E|]. unfold route_addr. rewrite (run_bind _ _ _ w2 w2) by done.
      rewrite (run_lift _ _ _ cp) by exact Hcp. unfold pool_get_addr. by rewrite Haddr.
    + split_and!; [rewrite Hx; exact Eq|by rewrite Hx|by rewrite Hc|unfold w_env; by rewrite Hx|].
      exists r, b. eexists. split; [done|]. split; [|exact Hb].
      destruct Hsub as (ud & H1 & H2 & H3 & Hring). exists ud. split; [exact H1|]. split; [exact H2|]. split; [exact H3|]. exact Hring.
Qed.

(** ** The grant *)

(** C34: at the edge, a grant releases the request at the head of the queue.
    When a grant of one credit arrives at an ingress and a connection to the
    service is free, the request at the head leaves the queue; its text, and
    nothing else of it, goes to the ring on a free connection, which is busy
    from then on and on which the response will find the request. The next
    credit is asked for exactly when another request waits: for the one now
    at the head, with its id, its priority and the RTT this grant measured.
    (That is when no response waits to be written and the tail was not
    measured since the capacity was last adjusted.) *)
Theorem ingress_grant_releases_head fuel g p i rest r bm cp a rtt e w : is_ingress c = true -> is_grant g p ->
  calls c ds_keys (pk_service p) w -> credit_rtt (to_us (readings (w_ctx w) 0%nat)) (data g) = Ok rtt -> 0 < rtt ->
  ing_wf (x_ingress (w_ctx w)) -> queue (x_ingress (w_ctx w)) = i :: rest ->
  service r = pk_service p -> to_send c EGRESS i r bm w -> counted ds_keys (pk_service p) (e_stats (w_env w)) ->
  get_pool (pk_service p) (w_routes w) = Ok cp -> pool_wf cp -> pool_addr cp = Some a -> http1_pool EGRESS cp w ->
  (exists fd q, connections cp !! fd = Some q /\ available w q = true) ->
  queue_at EGRESS UPSTREAM (e_queue (w_env w)) = [] ->
  over ds_keys (tail_e2e_time_us (e_stats (w_env w))) ->
  get (tail_e2e_time_us (e_stats (w_env w))) (pk_service p) = Ok e -> flush_updated_ e = false ->
  (forall j q, rest = j :: q -> j <> i /\ exists r, asks_next (pk_service p) a rtt j r bm w) ->
  exists q x h ud w1 w', ingress_post_credit c (S (S fuel)) g w = Ret tt w' /\
    connections cp !! c_fd x = Some q /\ w_conns w !! q = Some x /\ c_proto x = Proto1 h /\
    available w q = true /\ available w' q = false /\
    w_ring w1 = w_ring w ++ [SqSend (c_fd x) (request_text r) ud] /\
    get_us_rpc EGRESS (last_id h + 1) (c_fd x) (e_mapper (w_env w')) = Ok i /\
    asked_next (pk_service p) a rtt rest w1 w' /\ (forall j, j <> i -> e_heap (w_env w1) !! j = e_heap (w_env w) !! j).
Proof.
  intros Hmode [Hh Hok Ht Hlen Hreq H4] Hcalls Hrtt Hpos [_ Hmean _] Hq Hsvc Hsend Hcount Hcp Hwf Haddr Hpool Hfree Hno Htail He
    Hflush Hnext.
  destruct (grant_received c ds_keys g p rtt w Hh Hok Ht Hlen Hreq H4 Hcalls Hrtt Hpos) as (mr & m2 & Epost & Hlast).
  pose proof Hcalls as [Hnamed _ _ Hkey]. rewrite Hmode in Hnamed.
  set (w0 := rtt_recorded mr m2 w) in *. set (wt := set_w_ctx (advance_clock 1 (w_ctx w0)) w0).
  destruct (twm_update_level (f64_of_Z (Z.of_nat (length rest))) (readings (w_ctx w0) 0%nat) (ingress_mean (x_ingress (w_ctx w))) Hmean)
    as (mean & Emean & _).
  set (g' := set_on_fly false (set_ing_queue rest mean (x_ingress (w_ctx w)))).
  set (wq := set_w_ctx (set_x_ingress g' (w_ctx wt)) wt).
  assert (http1_pool EGRESS cp wq) as Hpool'.
  { intros fd q' Hq' Hav. destruct (Hpool fd q' Hq' Hav) as (x & h & [] & ? & ?). exists x, h. by split; [split|]. }
  assert (to_send c EGRESS i r bm wq) as Hsend' by by destruct Hsend.
  destruct (send_sub_request_sends c (S (S fuel)) ds_keys i r bm cp (sends1 EGRESS i r wq) wq)
    as (q & x & stream & text & y & w1 & Esend & Hfd & Hx & Ha & (h & Htq & -> & -> & ->) & Hsent & Hkept);
    [by destruct Hsend|rewrite Hsvc; by destruct Hcount|by rewrite Hsvc|done|by apply http1_pool_transmits|exact Hfree|].
  destruct Hsent as [[ud Hring] Hcn Hus _ Hbm _ _ _ _ Hoth]. destruct Hkept as [Kq _ Kg Kl Ks Kt (cp' & Kp & Ka)].
  destruct (pre_credit_run (pk_service p) a rtt e cp' w1) as (w' & Epre & Hasked).
  { by rewrite Kg. } { by rewrite Kt. } { done. } { by rewrite Kt. } { done. } { by rewrite Kg. } { rewrite Kl. exact Hlast. }
  { by rewrite <- Hsvc. } { by rewrite Ka. }
  { intros j q' Hj. rewrite Kg in Hj. destruct (Hnext j q' Hj) as (Hne & rj & [Hr Hu Hd]). exists rj. rewrite Hbm.
    split; [rewrite (Hoth j Hne); exact Hr|exact Hu|exact Hd]. }
  rewrite Kg in Hasked. change (queue (x_ingress (w_ctx wq))) with rest in Hasked. pose proof Hasked as (_ & _ & Hc' & Hm' & _).
  exists q, x, h, ud, w1, w'. split; [|split; [done|split; [exact Hx|split; [exact (tq_proto _ _ _ _ _ Htq)|split; [exact Ha|split]]]]].
  - unfold ingress_post_credit. rewrite (run_bind _ _ _ _ _ Epost). rewrite run_guard by done.
    rewrite (run_bind _ _ _ (readings (w_ctx w0) 0%nat) wt) by done.
    rewrite (run_bind _ _ _ i wq).
    2:{ erewrite on_ingress_run; [reflexivity|]. change (x_ingress (w_ctx wt)) with (x_ingress (w_ctx w)).
        unfold ing_dequeue. rewrite Hq, Emean. done. }
    rewrite (run_bind _ _ _ _ _ Esend). rewrite (run_bind _ _ _ tt w1); [exact Epre|].
    unfold forward. assert (bool_decide (EGRESS = EGRESS) && bool_decide (UPSTREAM = DOWNSTREAM) = false) as -> by done.
    rewrite (run_bind _ _ _ (w_env w1) w1) by done. cbn [forward_loop]. rewrite (run_bind _ _ _ (w_env w1) w1) by done.
    unfold rpc_queue_empty. rewrite Kq. change (queue_at EGRESS UPSTREAM (e_queue (w_env wq))) with (queue_at EGRESS UPSTREAM (e_queue (w_env w))).
    by rewrite Hno.
  - eapply busy_unavailable. rewrite Hc', Hcn. apply lookup_insert_eq.
  - split; [exact Hring|]. split; [by rewrite Hm'|]. split; [exact Hasked|exact Hoth].
Qed.
End Edge.

(** ** An example: two requests wait at the edge *)

Definition edge_packet : Packet := stamped_packet 5 (granted_packet (mkPacket 1 0 1 2 1 0 0 "geo")).
Definition edge_grant : Buffer := Eval vm_compute in
  match (req ← fill_credit_request (ex_udp 3) "geo" 1 2 1 0 0; g ← write_failed_dn_response req (ex_udp 4);
         stamp_queuing_time 5 g) with Ok b => b | Err _ => ex_udp 4 end.
(** The requests, as [enqueue] left them: ids 2 and 3, priority 1. *)
Definition edge_request (stream : Z) : RPCMessage :=
  let new := set_ds_stream_id stream (set_ds_fd 30 (set_req_data (mkDR [] 0 0) (set_res_data (mkDR [] 0 0)
    (set_path "/geo" (set_method "GET" (set_minor 1 (assign_service "geo" (set_type EGRESS (rpc_make 0 EGRESS HTTP1))))))))) in
  let e := set_counter stream (assign 0 new (ex_env geo_stats)) in
  match ing_enqueue (ex_cfg_ingress 250) 0 7 (set_last_rpc_id (2 ^ 48 + stream - 1) ex_ingress) e with
  | Ok (_, e) => default new (e_heap e !! 0%nat)
  | Err _ => new
  end.
Definition edge_head : RPCMessage := Eval vm_compute in edge_request 1.
Definition edge_second : RPCMessage := Eval vm_compute in edge_request 2.
Definition edge_ingress : Ingress := mkIngress 10 [0%nat; 1%nat] twm_make true (Some 1) 0 (-1) (2 ^ 48) "geo".
Definition edge_conn : Connection session := set_c_status UP (upstream_conn 40 zero_addr "geo" 80 EGRESS (Proto1 h1_make)).
Definition edge_pool : ConnectionPool := mkConnPool {[40 := 0%nat]} EGRESS (Some (mkAddr 2 9090)) 0.
Definition edge_bm (uds : list UserData) (tcp : option Buffer) (free : list Z) : BufferManager :=
  mkBM 2 64 [tcp; None] free [Some (buffer_make 256 2)] [2] uds [] [].
Definition edge_world : World :=
  mkWorld {[0%nat := edge_conn]}
    (mkCtx edge_ingress
      (mkEnv {[0%nat := edge_head; 1%nat := edge_second]} 3
         (mkMapper (mkByType ∅ {[30 := {[1 := 0%nat; 2 := 1%nat]}]}) (mkByType ∅ ∅) (mkByType ∅ ∅) (mkPool [] []))
         rpc_queue_make geo_stats)
      ex_clock 9)
    (edge_bm (ex_uds 2) (Some (buffer_make 129 0)) [0]) [] ∅ 0 geo_credits (geo_map 0) 0
    (mkUtil no_map no_map no_map 0 no_map no_map []) (pool_make INGRESS) {["geo"%string := edge_pool]} ex_listeners 22.
Definition edge_bm_after : BufferManager := edge_bm [user_data_make 1] None [].

Lemma edge_granted : is_grant edge_grant edge_packet.
Proof. split; [split; [split|..]; by vm_compute|split; simpl; lia|done|by vm_compute|done|by vm_compute]. Qed.
Lemma edge_sends : to_send (ex_cfg_ingress 250) EGRESS 0 edge_head edge_bm_after edge_world.
Proof.
  split; try done.
  - split; [done| |cbn; lia]. repeat (constructor; [split; by vm_compute|]). constructor.
  - exists (set_is_free false (buffer_make 129 0)). eexists _, _, _. split; [vm_compute; reflexivity|].
    split; [split; cbn [length take]; rewrite ?length_replicate; vm_compute; split || idtac; done|].
    split; [by vm_compute|]. split; [vm_compute; reflexivity|]. split; [done|by vm_compute].
Qed.

Lemma ingress_grant_releases_head_witness : exists ud w1 w', ingress_post_credit (ex_cfg_ingress 250) 2 edge_grant edge_world = Ret tt w' /\
  w_ring w1 = [SqSend 40 (bytes_of_string "GET /geo HTTP/1.1" ++ [13; 10] ++
    bytes_of_string "rpc-id: 281474976710657" ++ [13; 10] ++ bytes_of_string "priority: 1" ++ [13; 10; 13; 10]) ud] /\
  get_us_rpc EGRESS 1 40 (e_mapper (w_env w')) = Ok 0%nat /\ asked_next "geo" (mkAddr 2 9090) 4 [1%nat] w1 w'.
Proof.
  destruct (ingress_grant_releases_head geo (ex_cfg_ingress 250) 0 edge_grant edge_packet 0 [1%nat] edge_head edge_bm_after
    edge_pool (mkAddr 2 9090) 4 sqe_make edge_world)
    as (q & x & h & ud & w1 & w' & E & Hq & Hx & Hh & _ & _ & Hring & Hus & Hask & _).
  - done.
  - exact edge_granted.
  - split; [done|exact (proj1 (geo_map_default 0))|exact (proj1 (geo_map_default ema_make))|by apply (bool_decide_unpack _)].
  - vm_compute. reflexivity.
  - lia.
  - split; [by vm_compute|by intros []|done].
  - done.
  - done.
  - exact edge_sends.
  - split; [exact (proj1 (geo_map_default ema_make))|exact (proj1 (geo_map_default twm_make))|by apply (bool_decide_unpack _)|].
    intros m ->%(proj2 (geo_map_default twm_make)). by intros [? [=]].
  - reflexivity.
  - right. vm_compute. lia.
  - done.
  - intros fd p Hp _. cbn in Hp. apply lookup_singleton_Some in Hp as [<- <-]. exists edge_conn, h1_make.
    split; [split; try done; cbn; lia|]. split; [done|by vm_compute].
  - exists 40, 0%nat. split; [apply lookup_singleton_eq|by vm_compute].
  - done.
  - exact (proj1 (geo_map_default sqe_make)).
  - vm_compute. reflexivity.
  - done.
  - intros j q [= <- <-]. split; [done|]. exists edge_second. split; [done| |eexists _, _; by split].
    intros t. eexists _, _. split; [vm_compute; reflexivity|]. split; [done|by vm_compute|by vm_compute].
  - apply (lookup_singleton_Some 40 (c_fd x) 0%nat q) in Hq as [Hfd Hq]. subst q.
    apply (lookup_singleton_Some 0%nat 0%nat edge_conn x) in Hx as [_ Hx]. subst x. injection Hh as Hh. subst h.
    exists ud, w1, w'. split; [exact E|]. split; [|split; [exact Hus|exact Hask]].
    rewrite Hring. vm_compute. reflexivity.
Defined.
