(* ===== verification/Arrive.v ===== *)
(** * A request reaches the application

    The start of a request at the sidecar of the service it is for: it gets
    the header by which the application's own calls will name it, and goes to
    the application on a free connection. *)

From Stdlib Require Import ZArith Lia Ascii.
From stdpp Require Import base gmap strings list fin_maps.
From S2P Require Import Prelude Fp Config Buffers PicoHttp RpcMessage RpcMessageProps RpcMapper Queues LocalMap LocalMapProps Stats StatsProps Ingress IngressProps Connection Moves Pool Http1 Http1Inv Http1Props Http2 CreditQueue World ExampleWorld State StateProps Forward Release Respond.

Open Scope Z_scope.

(** ** The header of the local id *)

(** [r] with its local id as a header. *)
Definition with_local_id (r : RPCMessage) : RPCMessage :=
  match push_header (c_str "rpc-local-id") 12 (snprintf32 (local_id r)).1 (snprintf32 (local_id r)).2
          (req_headers r) (req_header_count r) with
  | Ok (hs, n) => set_req_headers hs n r
  | Err _ => r
  end.

Lemma local_id_header_ingress r k : msg_wf r -> http r = HTTP1 -> RpcMessage.type r = INGRESS -> req_header_count r < 13 ->
  in_i64 (local_id r) = true -> local_id r <> -1 ->
  exists h, set_local_id_header false r k = Ok (with_local_id r, k) /\ header_wf h /\
    header_bytes h = (Some (bytes_of_string "rpc-local-id"), Some (print_decimal (local_id r))) /\
    with_local_id r = set_req_headers (<[Z.to_nat (req_header_count r) := h]> (req_headers r)) (req_header_count r + 1) r.
Proof.
  intros Hwf Hh Ht Hn Hid Hne. destruct (snprintf32_layout (local_id r)) as (pad & Ev & El & _).
  pose proof (length_print_decimal (local_id r)) as Hlen.
  destruct (push_req_header_small (c_str "rpc-local-id") 12 (snprintf32 (local_id r)).1 (snprintf32 (local_id r)).2 r)
    as (h & E & Hw & Hb); [done|done|by vm_compute| |lia|lia|].
  { unfold readable. rewrite El, Ev, length_app. lia. }
  assert (with_local_id r = set_req_headers (<[Z.to_nat (req_header_count r) := h]> (req_headers r)) (req_header_count r + 1) r) as Er.
  { unfold push_req_header in E. unfold with_local_id. destruct (push_header _ _ _ _ _ _) as [[hs n]|]; cbn [mbind res_bind] in E; congruence. }
  exists h. split; [|split; [done|split; [|done]]].
  - unfold set_local_id_header. destruct (snprintf32 (local_id r)) as [buf len] eqn:Es. cbn [fst snd] in E.
    unfold add_header_field. rewrite Hh. unfold http_add_header_field, interpret_header, on_rpc_id, on_rpc_local_id, on_priority.
    change (memcmp_eq (c_str "rpc-local-id") "rpc-id") with (Ok false).
    change (memcmp_eq (c_str "rpc-local-id") "rpc-local-id") with (Ok true).
    change (memcmp_eq (c_str "rpc-local-id") "priority") with (Ok false).
    pose proof (read_printed (local_id r) Hid) as Hread. rewrite Es in Hread. cbn [fst snd] in Hread.
    cbn [fatal_if mbind res_bind]. rewrite Hread. cbn [mbind res_bind]. rewrite Ht, (proj2 (Z.eqb_neq _ _)) by done.
    cbn [fatal_if mbind res_bind]. rewrite E, Er. done.
  - rewrite Hb, El, Nat2Z.id, Ev. by rewrite (slice_app_mid [] (print_decimal (local_id r)) (replicate pad 0)) by done.
Qed.

Lemma local_id_text fd r : request_text (with_local_id (set_us_fd fd r)) = request_text (with_local_id r).
Proof.
  unfold with_local_id. change (local_id (set_us_fd fd r)) with (local_id r).
  change (req_headers (set_us_fd fd r)) with (req_headers r). change (req_header_count (set_us_fd fd r)) with (req_header_count r).
  by destruct (push_header _ _ _ _ _ _) as [[hs n]|].
Qed.

Section Arrive.
Context `{Nghttp2} `{HdrHistogram} (keys : list string) (c : Config).
Implicit Types (w : World) (r : RPCMessage).

(** Message [i] is a request for the service of this sidecar: admitted by its
    own sidecar, which gave it a priority, with an id here, and not routed. *)
Record arrived (i : nat) r (bm : BufferManager) w : Prop := {
  ar_heap : e_heap (w_env w) !! i = Some r;
  ar_wf : msg_wf r;
  ar_http : http r = HTTP1;
  ar_type : RpcMessage.type r = INGRESS;
  ar_headers : req_header_count r < 13;
  ar_id : in_i64 (local_id r) = true /\ local_id r <> -1;
  ar_priority : priority r <> -1;
  ar_ds : find_at (at_type INGRESS (ds_map (e_mapper (w_env w)))) (RpcMessage.ds_fd r) (ds_stream_id r) = Some i;
  ar_new : at_type INGRESS (id_map (e_mapper (w_env w))) !! local_id r = None;
  ar_buffer : tcp_ready (w_bm w) (request_text (with_local_id r)) bm
}.

Lemma forward_request_ingress fuel p x h i r bm w : is_ingress c = false -> takes_request INGRESS p x h w -> arrived i r bm w ->
  us_fd r = c_fd x -> find_at (at_type INGRESS (us_map (e_mapper (w_env w)))) (c_fd x) (last_id h + 1) = None ->
  exists w' r', forward_request c (S (S fuel)) (Some p) i w = Ret true w' /\
    request_sent1 INGRESS i (with_local_id r) p x h bm w w' /\
    e_heap (w_env w') !! i = Some r' /\ service r' = service r /\ elsewhere w w'.
Proof.
  intros Hmode Ht [Hi Hwf Hh Hty Hn [Hid Hid1] Hprio Hds Hnew Hbuf] Hfd Hus.
  destruct (local_id_header_ingress r (e_counter (w_env w)) Hwf Hh Hty Hn Hid Hid1) as (hd & Eh & Hw & _ & Er).
  set (w1 := set_w_env (assign i (with_local_id r) (set_counter (e_counter (w_env w)) (w_env w))) w).
  destruct (submit_routed_run c INGRESS fuel p x h i (with_local_id r) bm w1) as (w' & r' & E & Hsent & Hi' & Hs' & He).
  - by destruct Ht.
  - split; [apply lookup_insert_eq|by rewrite Er| | | | |exact Hbuf]; rewrite Er.
    + exact (mw_req _ (set_req_headers_wf hd r Hwf Hn Hw)).
    + unfold lacks_headers. cbn. rewrite !(proj2 (Z.eqb_neq _ _)) by done. by rewrite andb_false_r.
    + exact Hds.
    + exact Hnew.
  - by rewrite Er.
  - exact Hus.
  - exists w', r'. split; [|split; [|split; [done|split; [by rewrite Hs', Er|exact He]]]].
    + unfold forward_request, catch_fatal. rewrite (run_lift _ _ _ p) by done. rewrite (conn_at_run p x) by apply Ht.
      pose proof (tq_type _ _ _ _ _ Ht) as Hct. rewrite Hct.
      rewrite (run_bind _ _ _ tt w1).
      2:{ apply run_zoom. unfold deref. rewrite Hi. cbn [or_fault mbind res_bind]. rewrite Hmode, Eh. done. }
      unfold submit_routed in E. rewrite Hct in E. by rewrite E.
    + destruct Hsent as [H1 H2 H3 H4 H5 H6 H7 H8 H9 H10]. split; try done. intros k Hk. rewrite H10 by done. cbn.
      by rewrite lookup_insert_ne.
Qed.

(** C5: a request reaches the application. A request in the queue goes, with
    its id in a header of its own, as its text on a free connection to the
    application, and nothing else goes to the ring; that connection is busy
    from then on, the response will find the request on it, and the thread
    counts one request more in progress. *)
Theorem request_reaches_application fuel i r bm w : is_ingress c = false -> arrived i r bm w ->
  queue_at INGRESS DOWNSTREAM (e_queue (w_env w)) = [(RpcMessage.ds_fd r, ds_stream_id r)] ->
  pool_wf (w_ingress_pool w) -> http1_pool INGRESS (w_ingress_pool w) w ->
  (exists fd p, connections (w_ingress_pool w) !! fd = Some p /\ available w p = true) ->
  util_wf keys (w_util w) -> service r ∈ keys ->
  exists p x h hd ud w', forward c (S (S fuel)) INGRESS DOWNSTREAM w = Ret tt w' /\
    connections (w_ingress_pool w) !! c_fd x = Some p /\ w_conns w !! p = Some x /\ c_proto x = Proto1 h /\
    available w p = true /\ available w' p = false /\
    w_ring w' = w_ring w ++ [SqSend (c_fd x) (request_text (with_local_id r)) ud] /\
    req_headers (with_local_id r) = <[Z.to_nat (req_header_count r) := hd]> (req_headers r) /\
    header_bytes hd = (Some (bytes_of_string "rpc-local-id"), Some (print_decimal (local_id r))) /\
    get_us_rpc INGRESS (last_id h + 1) (c_fd x) (e_mapper (w_env w')) = Ok i /\
    w_in_local w' = i32 (w_in_local w + 1) /\ queue_at INGRESS DOWNSTREAM (e_queue (w_env w')) = [].
Proof.
  intros Hmode Har Hq Hwf Hpool Hfree Hutil Hsvc.
  set (wq := dequeued INGRESS DOWNSTREAM w).
  assert (arrived i r bm wq) as Harq by (by destruct Har).
  pose proof (ar_heap _ _ _ _ Harq) as Hi. pose proof (ar_ds _ _ _ _ Harq) as Hds.
  assert (get_ds_rpc INGRESS (ds_stream_id r) (RpcMessage.ds_fd r) (e_mapper (w_env wq)) = Ok i) as Hget
    by (unfold get_ds_rpc; by rewrite Hds).
  destruct (route_request_free INGRESS (ds_stream_id r) (RpcMessage.ds_fd r) i r (w_ingress_pool w) wq Hget Hi eq_refl Hwf Hfree)
    as (p & x & fd & w1 & cp' & Eroute & Hfd & Hp & Ha & _ & (Hc & Hx & Hbm & Hring & _ & _ & Hin & Hut & _) & _).
  destruct (Hpool fd p Hfd Ha) as (x' & h & Ht & Hk & Hus).
  change (w_conns wq) with (w_conns w) in Hp. change (available wq p) with (available w p) in Ha.
  assert (x' = x) as -> by (pose proof (tq_conn _ _ _ _ _ Ht); congruence). subst fd.
  set (r1 := set_us_fd (c_fd x) r) in *. set (w2 := set_w_env (assign i r1 (w_env wq)) w1) in *.
  destruct (forward_request_ingress fuel p x h i r1 bm w2 Hmode) as (w3 & r3 & Efwd & Hsent & Hi3 & Hs3 & Hst3 & Hq3 & Hin3 & Hut3 & _).
  { destruct Ht as [T1 T2 T3 T4 T5 T6]. split; [by rewrite <- T1; cbn; rewrite Hc|done..]. }
  { destruct Harq as [? [] ? ? ? ? ? ? ? ?]. split; try done; [apply lookup_insert_eq|].
    unfold r1. rewrite local_id_text. cbn. by rewrite Hbm. }
  { done. } { done. }
  destruct (local_id_header_ingress r 0 (ar_wf _ _ _ _ Har) (ar_http _ _ _ _ Har) (ar_type _ _ _ _ Har) (ar_headers _ _ _ _ Har)
    (proj1 (ar_id _ _ _ _ Har)) (proj2 (ar_id _ _ _ _ Har))) as (hd & _ & _ & Hhd & Er).
  set (w4 := set_w_in_local (i32 (w_in_local w3 + 1)) w3).
  destruct (report_utilization_run keys (service r3) w4) as (u & Eutil);
    [change (w_util w4) with (w_util w3); rewrite Hut3; change (w_util w2) with (w_util w1); by rewrite Hut|by rewrite Hs3|].
  set (w5 := set_w_util u _) in Eutil.
  assert (queue_at INGRESS DOWNSTREAM (e_queue (w_env w5)) = []) as Hq5.
  { change (e_queue (w_env w5)) with (e_queue (w_env w3)). rewrite Hq3. reflexivity. }
  destruct Hsent as [[ud Hr3] Hcn Hroute _ _ _ _ _ _ _].
  exists p, x, h, hd, ud, w5. split_and!; try done.
  - apply (forward_one c (S (S fuel)) INGRESS DOWNSTREAM (RpcMessage.ds_fd r) (ds_stream_id r) w); [by left|done|done| |done].
    unfold forward_downstream. rewrite (run_bind _ _ _ _ _ Eroute). rewrite (run_bind _ _ _ (w_env w2) w2) by done.
    assert (e_mapper (w_env w2) = e_mapper (w_env wq)) as Hm by (unfold w2, w_env; cbn; by rewrite ?Hx).
    rewrite (run_lift _ _ _ i) by (rewrite Hm; exact Hget). rewrite (run_bind _ _ _ _ _ Efwd), Hmode.
    rewrite (run_bind _ _ _ tt w4) by done. rewrite (rpc_run i r3) by exact Hi3. exact Eutil.
  - apply Ht.
  - eapply busy_unavailable. change (w_conns w5) with (w_conns w3). rewrite Hcn. apply lookup_insert_eq.
  - change (w_ring w5) with (w_ring w3). rewrite Hr3. unfold r1. rewrite local_id_text. cbn. by rewrite Hring.
  - by rewrite Er.
  - cbn. rewrite Hin3. cbn. by rewrite Hin.
Qed.
End Arrive.

(** ** An example: a request for "geo" *)

Definition new_request : RPCMessage :=
  set_ds_stream_id 1 (set_ds_fd 30 (set_local_id (2 ^ 32) (set_global_id 5 (set_priority 0
    (set_path "/geo" (set_method "GET" (set_minor 1 (assign_service "geo" (rpc_make 0 INGRESS HTTP1))))))))).
Definition app_conn : Connection session := set_c_status UP (upstream_conn 40 zero_addr "app" 80 INGRESS (Proto1 h1_make)).
Definition app_pool : ConnectionPool := mkConnPool {[40 := 0%nat]} INGRESS None 0.
Definition arrive_world : World :=
  mkWorld {[0%nat := app_conn]}
    (mkCtx (x_ingress ex_ctx)
      (mkEnv {[0%nat := new_request]} 1
         (mkMapper (mkByType {[30 := {[1 := 0%nat]}]} ∅) (mkByType ∅ ∅) (mkByType ∅ ∅) (mkPool [] []))
         (set_queue INGRESS DOWNSTREAM [(30, 1)] rpc_queue_make) geo_stats)
      ex_clock 9)
    (rate_bm 2) [] ∅ 0 busy_credits (geo_map 0) 0
    (mkUtil (geo_map fp_zero) (geo_map 0) (geo_map 0) 10 (geo_map 0) (geo_map 0) []) app_pool ∅ ex_listeners 22.

Lemma new_request_arrived : arrived 0 new_request rate_bm_after arrive_world.
Proof.
  split; try reflexivity.
  - by destruct (rpc_make_wf 0 INGRESS HTTP1); split.
  - by split.
  - done.
  - exists (set_is_free false (buffer_make 129 0)). eexists _, _, _. split; [vm_compute; reflexivity|].
    split; [split; cbn [length take]; rewrite ?length_replicate; vm_compute; split || idtac; done|].
    split; [by vm_compute|]. split; [vm_compute; reflexivity|]. split; [done|by vm_compute].
Qed.

Lemma request_reaches_application_witness : exists ud w', forward rate_config 2 INGRESS DOWNSTREAM arrive_world = Ret tt w' /\
  w_ring w' = [SqSend 40 (bytes_of_string "GET /geo HTTP/1.1" ++ [13; 10] ++
    bytes_of_string "rpc-local-id: 4294967296" ++ [13; 10; 13; 10]) ud] /\
  get_us_rpc INGRESS 1 40 (e_mapper (w_env w')) = Ok 0%nat /\ w_in_local w' = 1.
Proof.
  destruct (request_reaches_application geo rate_config 0 0 new_request rate_bm_after arrive_world)
    as (p & x & h & hd & ud & w' & E & Hp & Hx & Hh & _ & _ & Hr & _ & _ & Hus & Hl & _).
  - reflexivity.
  - exact new_request_arrived.
  - reflexivity.
  - right. vm_compute. lia.
  - intros fd p Hp _. cbn in Hp. apply lookup_singleton_Some in Hp as [<- <-]. exists app_conn, h1_make.
    split; [split; try done; cbn; lia|]. split; [done|by vm_compute].
  - exists 40, 0%nat. split; [apply lookup_singleton_eq|by vm_compute].
  - split; exact (proj1 (geo_map_default _)).
  - apply (bool_decide_unpack _). by vm_compute.
  - apply (lookup_singleton_Some 40 (c_fd x) 0%nat p) in Hp as [_ Hp]. subst p.
    apply (lookup_singleton_Some 0%nat 0%nat app_conn x) in Hx as [_ Hx]. subst x. injection Hh as Hh. subst h.
    exists ud, w'. split; [exact E|]. split; [|split; [exact Hus|exact Hl]].
    rewrite Hr. vm_compute. reflexivity.
Defined.
