(* ===== verification/EventLoop.v ===== *)
(** * The event loop: [src/event_loop.cc], and the start of a thread

    [handle] is the body of the inner loop of [EventLoop::run]: one
    completion of io_uring. The constructors of [State] and [EventLoop] make
    the pools and the listeners a thread starts with. *)

From Stdlib Require Import ZArith Lia Ascii.
From stdpp Require Import base gmap strings list fin_maps.
From S2P Require Import Prelude Fp Config Buffers PicoHttp RpcMessage RpcMapper Queues LocalMap Stats Ingress Connection Pool Http1 Http2 CreditQueue World State.

Open Scope Z_scope.

(** A completion: [res], the index of a provided buffer when the flag
    [IORING_CQE_F_BUFFER] is set, and the [UserData] of its entry. *)
Record Cqe := mkCqe {
  cqe_res : Z;
  cqe_buffer : option Z;
  cqe_data : option UserData
}.

(** The type a listener number stands for. *)
Definition listener_type (n : nat) : ConnectionType := match n with O => INGRESS | _ => EGRESS end.

Section EventLoop.
Context `{Nghttp2} `{HdrHistogram} (c : Config) (fuel : nat) (m : simd).

Abbreviation MW := (M World).

Definition free_ud (ud : UserData) : MW unit := on_bm_ (free_user_data (Some ud)).

(** [listener->add_connection]: the new object is kept unless the descriptor
    is taken. *)
Definition accept_connection (t : ConnectionType) (fd : Z) (k : HTTP) : MW nat := fun w =>
  let p := fresh (dom (w_conns w)) in
  let x := downstream_conn fd t (match k with HTTP1 => Proto1 h1_make | HTTP2 => Proto2 session_server_new end) in
  if fd <? 0 then Stop Fatal
  else
    let '(q, l) := lis_add_connection fd p (at_type t (w_listeners w)) in
    Ret q (set_w_conns (if decide (q = p) then <[p := x]> (w_conns w) else w_conns w)
            (set_w_listeners (set_type_at t l (w_listeners w)) w)).

Definition accept_http (t : ConnectionType) : HTTP :=
  if is_frontend c && bool_decide (t = INGRESS) then HTTP1
  else if is_ingress c then HTTP1 else HTTP2.

Definition on_accept (e : Cqe) (ud : UserData) : MW unit :=
  _ ← guard_fatal (cqe_res e <? 0);
  n ← lift (or_fault Undefined (ud_listener ud));
  let t := listener_type n in
  p ← accept_connection t (cqe_res e) (accept_http t);
  _ ← conn_submit_settings p;
  rd ← on_bm get_user_data;
  _ ← ring_prepare_read rd (Some n) p;
  ad ← on_bm get_user_data;
  _ ← prepare_accept t ad;
  free_ud ud.

(** The buffer of a completed read. *)
Definition read_buffer (e : Cqe) (get : Z -> BufferManager -> res (Buffer * BufferManager)) : MW (option Buffer) :=
  match cqe_buffer e with
  | Some i => b ← on_bm (get i); mret (Some b)
  | None => if 0 <? cqe_res e then fail Fatal else mret None
  end.

(** The connection is given up: its descriptor is closed. *)
Definition teardown (p : nat) (b : option Buffer) : MW unit :=
  _ ← set_status_at p TEARDOWN;
  _ ← (match b with Some b => on_bm_ (free_buffer (Some b)) | None => mret tt end);
  ud ← on_bm get_user_data;
  prepare_cancel p ud.

(** What follows a read: forward what was received, ask for credits, flush. *)
Definition after_read (p : nat) (b : Buffer) : MW unit :=
  _ ← write_http c fuel p;
  _ ← on_bm_ (free_buffer (Some b));
  x ← conn_at p;
  _ ← forward c fuel (c_type x) (c_direction x);
  _ ← (if is_ingress c then ingress_pre_credit c else mret tt);
  _ ← catch_fatal (protocol_client_requests c);
  write_http c fuel p.

(** A malformed request closes the connection; other exceptions are not
    caught. *)
Definition read_or_teardown (p : nat) (b : Buffer) : MW unit := fun w =>
  match http_read c m p b w with
  | Ret _ w' => after_read p b w'
  | Exc HTTPParse w' => teardown p (Some b) w'
  | Exc x w' => Exc x w'
  | Stop f => Stop f
  end.

Definition on_read (e : Cqe) (ud : UserData) : MW unit :=
  b ← read_buffer e get_buffer_by_index;
  p ← lift (or_fault Undefined (ud_conn ud));
  if cqe_res e <=? 0 then
    _ ← guard_fatal (cqe_res e <? 0);
    teardown p b
  else
    b ← lift (or_fault Undefined b);
    b ← lift (set_filled (cqe_res e) b);
    read_or_teardown p b.

Definition on_connect (e : Cqe) (ud : UserData) : MW unit :=
  _ ← guard_fatal (cqe_res e <? 0);
  p ← lift (or_fault Undefined (ud_conn ud));
  _ ← conn_submit_settings p;
  x ← conn_at p;
  _ ← (match c_http x with
       | HTTP1 => set_status_at p UP
       | HTTP2 => write_http c fuel p
       end);
  rd ← on_bm get_user_data;
  _ ← ring_prepare_read rd (Some (match c_type x with INGRESS => 0%nat | EGRESS => 1%nat end)) p;
  free_ud (set_ud_conn None ud).

Definition on_write (e : Cqe) (ud : UserData) : MW unit :=
  _ ← guard_fatal (cqe_res e <? 0);
  '(b, ud) ← lift (ud_get_buffer ud);
  _ ← on_bm_ (free_buffer (Some b));
  free_ud ud.

(** A message still in progress on the connection is fatal. *)
Definition on_cancel (ud : UserData) : MW unit :=
  p ← lift (or_fault Undefined (ud_conn ud));
  x ← conn_at p;
  _ ← (match c_direction x with
       | UPSTREAM => remove_connection
       | DOWNSTREAM =>
           e ← gets w_env;
           _ ← guard_fatal (check_fd_exists (c_type x) (c_fd x) false (e_mapper e));
           modify (fun w => set_w_listeners (set_type_at (c_type x)
             (lis_remove_connection (c_fd x) (at_type (c_type x) (w_listeners w))) (w_listeners w)) w)
       end);
  free_ud (set_ud_conn None ud).

Definition on_rcvmsg (e : Cqe) : MW unit :=
  b ← read_buffer e get_udp_buffer_by_index;
  _ ← guard_fatal (cqe_res e <=? 0);
  b ← lift (or_fault Undefined b);
  b ← lift (handle_multishot_recv b (cqe_res e));
  _ ← catch_fatal (dispatch_rlp_recv c fuel b);
  on_bm_ (free_udp_buffer (Some b)).

Definition on_sendmsg (e : Cqe) (ud : UserData) : MW unit :=
  '(b, ud) ← lift (ud_get_buffer ud);
  _ ← guard_fatal (cqe_res e <=? 0);
  _ ← on_bm_ (free_udp_buffer (Some b));
  free_ud ud.

Definition handle (e : Cqe) : MW unit :=
  ud ← ring_get_user_data (cqe_data e);
  match ud_op ud with
  | ACCEPT => on_accept e ud
  | READ => on_read e ud
  | CONNECT => on_connect e ud
  | WRITE => on_write e ud
  | CANCEL => on_cancel ud
  | RCVMSG => on_rcvmsg e
  | SENDMSG => on_sendmsg e ud
  | OP_CLEAR => fail Fatal
  end.

(** The loop: the completions the kernel delivers, one after another. *)
Definition run_events (l : list Cqe) : MW unit := forM l handle.

(** Before the loop: arm the listeners and the datagram socket. *)
Definition run_prologue : MW unit :=
  a ← on_bm get_user_data; _ ← prepare_accept INGRESS a;
  b ← on_bm get_user_data; _ ← prepare_accept EGRESS b;
  fd ← gets w_sockfd;
  d ← on_bm get_user_data; prepare_rcvmsg fd d.

(** ** Starting a thread

    The operating system gives the descriptors of new sockets and resolves
    names; both are arguments. *)
Context (new_fd : nat -> Z) (resolve : string -> Z -> option Addr).

(** [pool.add_connection] of a fresh connection, and [prepare_connect]. *)
Definition connect_upstream (host : string) (port : Z) (t : ConnectionType) (k : HTTP) (cp : ConnectionPool)
    : MW ConnectionPool := fun w =>
  let p := fresh (dom (w_conns w)) in
  let fd := new_fd p in
  if fd <? 0 then Stop Fatal
  else match resolve host port with
  | None => Stop Fatal
  | Some a =>
      let x := upstream_conn fd a host port t
                 (match k with HTTP1 => Proto1 h1_make | HTTP2 => Proto2 session_client_new end) in
      let '(q, cp) := pool_add fd a p cp in
      (ud ← on_bm get_user_data; _ ← prepare_connect q ud; mret cp)
        (set_w_conns (if decide (q = p) then <[p := x]> (w_conns w) else w_conns w) w)
  end.

Fixpoint connect_n (n : nat) (host : string) (port : Z) (t : ConnectionType) (k : HTTP) (cp : ConnectionPool)
    : MW ConnectionPool :=
  match n with
  | O => mret cp
  | S n' => cp ← connect_upstream host port t k cp; connect_n n' host port t k cp
  end.

Definition connect_route (svc : string) (info : RoutingEntry) : MW unit :=
  _ ← modify (fun w => set_w_routes (add_route svc (w_routes w)) w);
  w ← get_st;
  cp ← lift (get_pool svc (w_routes w));
  n ← (if is_ingress c then lift (or_fault (Throw BadOptionalAccess) (ingress_pool_connections c)) else mret 1);
  cp ← connect_n (Z.to_nat n) (up_host (upstream info)) (wrap 16 (up_port (upstream info))) EGRESS
         (if is_ingress c then HTTP1 else HTTP2) cp;
  modify (fun w => set_w_routes (<[svc := cp]> (w_routes w)) w).

(** An ingress serves each service under its own name. The message of the
    check reads the first downstream, too, and throws when there is none. *)
Definition check_mapping (svc : string) (info : MappingInfo) : MW unit :=
  if is_ingress c then
    d ← lift (at_ (downstreams info) 0);
    guard_fatal (negb (Nat.eqb (length (downstreams info)) 1) || negb (bool_decide (d = svc)))
  else mret tt.

Definition connect_ingress_pool : MW unit :=
  n ← (if is_frontend c then lift (or_fault (Throw BadOptionalAccess) (frontend_pool_connections c))
       else mret (if is_ingress c then 0 else 1));
  w ← get_st;
  cp ← connect_n (Z.to_nat n) (ingress_upstream_host c) (ingress_upstream_port c) INGRESS
         (if is_ingress c || is_frontend c then HTTP1 else HTTP2) (w_ingress_pool w);
  modify (set_w_ingress_pool cp).

(** [State::State], once its members are initialised. *)
Definition state_init : MW unit :=
  _ ← guard_fatal (HTTP1Connection_BUF_SIZE <? buffer_size c);
  _ ← forM (map_to_list (routing c)) (fun '(svc, info) => connect_route svc info);
  _ ← forM (map_to_list (mapping c)) (fun '(svc, info) => check_mapping svc info);
  _ ← connect_ingress_pool;
  w ← get_st;
  _ ← guard_fatal (w_sockfd w <? 0);
  forM (get_hosted_services c) (fun svc => _ ← lift (get_per_endpoint_limit (w_credits w) svc); mret tt).

(** The member initialisers of [EventLoop] and [State], and the listeners:
    the credit queue is shared, the rest is the thread's own. The service is
    the one an ingress thread serves. *)
Definition egress_port (svc : string) : res Z :=
  if is_ingress c then
    entry ← or_fault (Throw OutOfRange) (mapping c !! svc);
    let p := value_or (listen_port entry) 0 in
    _ ← fatal_if (p =? 0); Ok p
  else Ok (egress_listener_port c).

Definition thread_init (index : Z) (svc : string) (credits : CreditQueue Buffer) (util : Utilization Hist)
    (clock : nat -> Z) (mem : nat -> Z * ConnectionType) (sockfd fd_egress fd_ingress : Z) : res World :=
  '(h, mapper) ← mapper_make mem MAX_gRPC_POOL_SIZE MAX_HTTP_POOL_SIZE;
  st ← stats_make (get_downstream_services c) (get_hosted_services c);
  g ← ingress_make c index svc;
  rtt ← LocalMap.make 0 (get_downstream_services c);
  port ← egress_port svc;
  Ok (mkWorld ∅ (mkCtx g (mkEnv h 1 mapper rpc_queue_make st) clock 0)
        (bm_make (buffer_count c) (buffer_size c)) [] (ppm_make (routing c)) 0 credits rtt 0 util
        (pool_make INGRESS) ∅
        (mkByType (mkListener fd_ingress (ingress_listener_port c) INGRESS ∅)
                  (mkListener fd_egress port EGRESS ∅)) sockfd).
End EventLoop.
