(* ===== verification/Evolution.v ===== *)
(** * How the state of a thread evolves

    Every operation of a connection keeps the connection's identity, and
    every handler of the thread moves the state along [evolves]: the ring by
    well-formed submissions, the credit queue and the datagrams sent by
    actions that belong to the handler's language. [caused] says which
    language a completion has. *)

From Stdlib Require Import ZArith Lia Ascii.
From stdpp Require Import base gmap strings list fin_maps.
From S2P Require Import Prelude Fp Config Buffers PicoHttp Rlp RpcMessage RpcMapper Queues LocalMap Stats Ingress Connection Moves Pool Http1 Http2 CreditQueue CreditQueueSpec World State EventLoop.

Open Scope Z_scope.

(** ** A connection keeps its identity

    Descriptor, address, host, port, type and direction are those it was
    made with. *)
Record same_conn {S} (x y : Connection S) : Prop := {
  sc_fd : c_fd y = c_fd x;
  sc_addr : c_addr y = c_addr x;
  sc_host : c_host y = c_host x /\ c_port y = c_port x;
  sc_type : c_type y = c_type x;
  sc_direction : c_direction y = c_direction x
}.
#[export] Instance same_conn_preorder {S} : PreOrder (@same_conn S).
Proof. split; [by intros ?|]. intros x y z [] []. split; try split; intuition congruence. Qed.


Section Conn1Moves.
Context {S : Type} (c : Config).
Definition keep_base1 (x y : Conn1 S) : Prop := same_conn (Http1.base x) (Http1.base y).
#[export] Instance keep_base1_preorder : PreOrder keep_base1.
Proof. split; [intros ?; unfold keep_base1; reflexivity|]. intros x y z ? ?. unfold keep_base1 in *. by etrans. Qed.
Abbreviation keeps m := (moves (on_P keep_base1) m).

Lemma keeps_update_h1 f : keeps (update_h1 f).
Proof. apply moves_update_conn. intros p. unfold keep_base1. cbn. reflexivity. Qed.
Hint Resolve keeps_update_h1 : moves.
Lemma keeps_get_h1 : keeps get_h1.
Proof. unfold get_h1. moves_auto. Qed.
Lemma keeps_get_base : keeps Http1.get_base.
Proof. unfold Http1.get_base. moves_auto. Qed.
Hint Resolve keeps_get_h1 keeps_get_base : moves.

Lemma keeps_fill_request r : keeps (fill_request c r).
Proof. unfold fill_request, add_headers. moves_auto. Qed.
Lemma keeps_hand_over i : keeps (hand_over c i).
Proof. unfold hand_over. moves_auto. Qed.
Hint Resolve keeps_fill_request keeps_hand_over : moves.
Lemma keeps_read_request m : keeps (read_request c m).
Proof. unfold read_request, request_content_length, reject, check_target, reset_read. moves_auto. Qed.
Lemma keeps_read_response m : keeps (read_response c m).
Proof.
  unfold read_response, read_response_header, response_body_headers, add_headers, finish_response, take_body, reset_read.
  moves_auto.
Qed.
Hint Resolve keeps_read_request keeps_read_response : moves.
Lemma keeps_http1_read m b : keeps (http1_read c m b).
Proof. unfold http1_read. moves_auto. Qed.
Lemma keeps_http1_write others b : keeps (http1_write c others b).
Proof. unfold http1_write, get_rpc_message. moves_auto. Qed.
Lemma keeps_http1_submit_request i : keeps (http1_submit_request i).
Proof. unfold http1_submit_request, set_rpc_message. moves_auto. Qed.
Lemma keeps_http1_submit_response i : keeps (http1_submit_response i).
Proof. unfold http1_submit_response, set_rpc_message. moves_auto. Qed.
End Conn1Moves.

Section Conn2Moves.
Context `{Nghttp2} (c : Config).
Definition keep_base2 (x y : Conn2) : Prop := same_conn (Http2.base x) (Http2.base y).
#[export] Instance keep_base2_preorder : PreOrder keep_base2.
Proof. split; [intros ?; unfold keep_base2; reflexivity|]. intros x y z ? ?. unfold keep_base2 in *. by etrans. Qed.
Abbreviation keeps m := (moves (on_P keep_base2) m).

Lemma keeps_put_sess s : keeps (put_sess s).
Proof. apply moves_update_conn. intros p. unfold keep_base2. cbn. reflexivity. Qed.
Lemma keeps_put_status x : keeps (put_status x).
Proof. apply moves_update_conn. intros p. by unfold keep_base2. Qed.
Hint Resolve keeps_put_sess keeps_put_status : moves.
Lemma keeps_get_sess : keeps get_sess.
Proof. unfold get_sess. moves_auto. Qed.
Lemma keeps_get_base2 : keeps Http2.get_base.
Proof. unfold Http2.get_base. moves_auto. Qed.
Hint Resolve keeps_get_sess keeps_get_base2 : moves.

Lemma keeps_on_event e : keeps (on_event c e).
Proof.
  unfold on_event, on_begin_headers_callback, on_header_callback, on_data_chunk_recv_callback, frame_recv_callback, add_data.
  moves_auto.
Qed.
Hint Resolve keeps_on_event : moves.
Lemma keeps_http2_read b : keeps (http2_read c b).
Proof. unfold http2_read. moves_auto. Qed.
Lemma keeps_http2_write others b : keeps (http2_write c others b).
Proof. unfold http2_write, session_send, data_read_callback_response, data_read_callback_request. moves_auto. Qed.
Lemma keeps_http2_submit_settings : keeps http2_submit_settings.
Proof. unfold http2_submit_settings. moves_auto. Qed.
Lemma keeps_http2_submit_request i : keeps (http2_submit_request i).
Proof. unfold http2_submit_request. moves_auto. Qed.
Lemma keeps_http2_submit_response i : keeps (http2_submit_response i).
Proof. unfold http2_submit_response. moves_auto. Qed.
Lemma keeps_http2_submit_error_response i : keeps (http2_submit_error_response i).
Proof. unfold http2_submit_error_response. moves_auto. Qed.
End Conn2Moves.

(** ** The calls of the credit queue

    [cq_call]: the operations the handlers call, as labels of the
    specification. *)
Inductive cq_call {B} : CreditQueue B -> label B -> CreditQueue B -> Prop :=
  | call_push cq b k p cq' : push cq b k (Z.of_nat p) = Ok cq' -> Z.of_nat p < 2 ^ 31 -> cq_call cq (LPush b k p) cq'
  | call_pop cq o cq' : pop cq = Ok (o, cq') -> cq_call cq (LPop o) cq'
  | call_incr cq k cq' : increment_in_flight cq k = Ok cq' -> cq_call cq (LIncrement k) cq'
  | call_decr cq k cq' : decrement_in_flight cq k = Ok cq' -> cq_call cq (LDecrement k) cq'
  | call_endpoint_limit cq l k cq' : i32_ok l -> update_endpoint_limit cq l k = Ok cq' ->
      cq_call cq (LEndpointLimit l k) cq'
  | call_global_limit cq l cq' : i32_ok l -> update_global_limit cq l = Ok cq' -> cq_call cq (LGlobalLimit l) cq'.

Lemma steps_app {S L} (step : S -> L -> S -> Prop) s ls s' ls' s'' :
  steps step s ls s' -> steps step s' ls' s'' -> steps step s (ls ++ ls') s''.
Proof. induction 1; [done|]. intros. econstructor; eauto. Qed.

(** Behind a cast, the priority is one of the queue's. *)
Lemma push_call {B} (q : CreditQueue B) b k pr q' : push q b k pr = Ok q' -> cq_call q (LPush b k (Z.to_nat (u64 pr))) q'.
Proof.
  intros H. assert (0 <= u64 pr) by (apply wrap_range; lia).
  assert (u64 pr < 3) as Hlt.
  { unfold push, push_locked in H. bind_inv. destruct (u64 pr <? Z.of_nat PriorityCount) eqn:E'; [|done].
    apply Z.ltb_lt in E'. exact E'. }
  constructor; rewrite Z2Nat.id by lia; [|lia].
  unfold push, push_locked in *. by rewrite wrap_wrap.
Qed.
Lemma checked_i32_ok z v : checked_i32 z = Ok v -> i32_ok v.
Proof. intros [-> ?]%checked_i32_Ok. done. Qed.

(** ** What the handlers do with credits

    An action is a call of the credit queue or a datagram. A grant that
    leaves the queue is one action with the datagram it is sent as. *)
Inductive action :=
  | Push (g : Buffer) (k : string) (p : nat)
  | Pass (o : option (Buffer * Buffer))  (* the grant popped, as it was queued and as it is sent *)
  | Take (k : string)
  | Free (k : string)
  | Limit (l : Z) (k : string)
  | GlobalLimit (l : Z)
  | Ask (b : Buffer)
  | Return (b : Buffer).

Definition label_of (a : action) : option (label Buffer) :=
  match a with
  | Push g k p => Some (LPush g k p)
  | Pass o => Some (LPop (fst <$> o))
  | Take k => Some (LIncrement k)
  | Free k => Some (LDecrement k)
  | Limit l k => Some (LEndpointLimit l k)
  | GlobalLimit l => Some (LGlobalLimit l)
  | Ask _ | Return _ => None
  end.
Definition datagrams (a : action) : list Buffer :=
  match a with Pass (Some (_, b)) | Ask b | Return b => [b] | _ => [] end.
(** The grant is sent with the time it waited. *)
Definition stamped (a : action) : Prop :=
  match a with Pass (Some (g, b)) => exists t, stamp_queuing_time t g = Ok b | _ => True end.

(** An action on the queue and the datagrams sent so far. *)
Record act (s : CreditQueue Buffer * list Buffer) (a : action) (s' : CreditQueue Buffer * list Buffer) : Prop := {
  act_call : match label_of a with Some l => cq_call s.1 l s'.1 | None => s'.1 = s.1 end;
  act_sends : s'.2 = s.2 ++ datagrams a;
  act_stamped : stamped a
}.

Lemma act_calls s tr s' : steps act s tr s' -> steps cq_call s.1 (omap label_of tr) s'.1.
Proof.
  induction 1 as [s|s a s1 tr s2 [Hc _ _] _ IH]; [constructor|]. cbn. destruct (label_of a).
  - by econstructor.
  - by rewrite <- Hc.
Qed.
Lemma act_datagrams s tr s' : steps act s tr s' -> s'.2 = s.2 ++ concat (datagrams <$> tr).
Proof.
  induction 1 as [s|s a s1 tr s2 [_ Hs _] _ IH]; [by rewrite app_nil_r|]. rewrite IH, Hs. cbn. by rewrite app_assoc.
Qed.
Lemma act_all_stamped s tr s' : steps act s tr s' -> Forall stamped tr.
Proof. induction 1 as [s|s a s1 tr s2 [_ _ Hs] _ IH]; by constructor. Qed.

(** ** Languages of actions *)

Abbreviation language := (list action -> Prop).
Class Trace (P : language) : Prop := { tr_nil : P []; tr_app a b : P a -> P b -> P (a ++ b) }.
Definition nothing : language := fun tr => tr = [].
Definition any : language := fun _ => True.
Definition one (a : action) : language := fun tr => tr = [a].
Definition cat (P Q : language) : language := fun tr => exists a b, tr = a ++ b /\ P a /\ Q b.
Inductive many (P : language) : language :=
  | many_nil : many P []
  | many_app a b : P a -> many P b -> many P (a ++ b).

#[export] Instance nothing_trace : Trace nothing.
Proof. split; [done|]. by intros a b -> ->. Qed.
#[export] Instance any_trace : Trace any.
Proof. by split. Qed.
#[export] Instance many_trace P : Trace (many P).
Proof.
  split; [constructor|]. intros a b Ha Hb. induction Ha as [|a1 a2 H1 _ IH]; [done|]. rewrite <- app_assoc. by constructor.
Qed.
Lemma many_one (P : language) tr : P tr -> many P tr.
Proof. intros H. rewrite <- (app_nil_r tr). constructor; [done|constructor]. Qed.

(** A credit request for one credit. *)
Definition asks : language := fun tr => exists a b0 service id prio t rtt b,
  fill_credit_request b0 service 1 id prio t rtt = Ok b /\ tr = [Ask (prepare_sendmsg a b)].
(** A pop, and the send of what it popped. *)
Definition passes : language := fun tr => exists o, tr = [Pass o].
(** A slot of the service is given back, and passed on. *)
Definition frees (k : string) : language := cat (one (Free k)) passes.
Definition takes : language := fun tr => exists k, tr = [Take k].
Definition returns : language := fun tr => exists b, tr = [Return b].
Definition limits : language := many (fun tr => exists l k, tr = [Limit l k] \/ tr = [GlobalLimit l]).

(** What a language may contain. *)
Class Asking (P : language) : Prop := asking tr : asks tr -> P tr.
Class Freeing (P : language) : Prop := freeing k tr : frees k tr -> P tr.
Class Taking (P : language) : Prop := taking tr : takes tr -> P tr.
Class Returning (P : language) : Prop := returning tr : returns tr -> P tr.

(** What a completion of a stream may do: requests read ask for credits, and
    responses take slots and give them back; an ingress takes none. *)
Definition stream_actions (c : Config) : language :=
  many (fun tr => asks tr \/ (is_ingress c = false /\ takes tr) \/ exists k, frees k tr).
#[export] Instance stream_asking c : Asking (stream_actions c).
Proof. intros tr H. apply many_one. by left. Qed.
#[export] Instance stream_freeing c : Freeing (stream_actions c).
Proof. intros k tr H. apply many_one. right. right. by exists k. Qed.
Lemma stream_taking c : is_ingress c = false -> Taking (stream_actions c).
Proof. intros Hc tr H. apply many_one. right. by left. Qed.

(** What a grant may do: requests that had waited are sent, which frees their
    callers' slots and returns the credits that are not used. *)
Definition grant_actions : language := many (fun tr => returns tr \/ exists k, frees k tr).
#[export] Instance grant_freeing : Freeing grant_actions.
Proof. intros k tr H. apply many_one. right. by exists k. Qed.
#[export] Instance grant_returning : Returning grant_actions.
Proof. intros tr H. apply many_one. by left. Qed.
Definition asks_only : language := many asks.
#[export] Instance asks_only_asking : Asking asks_only.
Proof. intros tr H. by apply many_one. Qed.

(** ** The moves of a thread *)

Section Evolves.
Context `{Nghttp2} `{HdrHistogram}.

(** The entry's data names the handler for its completion, the connection
    whose descriptor it is for, and the buffer it sends. *)
Definition of_conn (m : gmap nat (Connection session)) (fd : Z) (ud : UserData) : Prop :=
  exists p x, ud_conn ud = Some p /\ m !! p = Some x /\ c_fd x = fd.
Definition sqe_ok (m : gmap nat (Connection session)) (e : Sqe) : Prop :=
  match e with
  | SqAccept _ ud => ud_op ud = ACCEPT /\ is_Some (ud_listener ud)
  | SqRecvMultishot fd ud => ud_op ud = READ /\ of_conn m fd ud
  | SqSend fd bs ud => ud_op ud = WRITE /\ of_conn m fd ud /\
      exists b, ud_buffer ud = Some b /\ bs = take (Z.to_nat (filled b)) (data b)
  | SqConnect fd _ ud => ud_op ud = CONNECT /\ of_conn m fd ud
  | SqClose fd ud => ud_op ud = CANCEL /\ of_conn m fd ud
  | SqRecvmsgMultishot _ ud => ud_op ud = RCVMSG
  | SqSendmsg _ ud => ud_op ud = SENDMSG /\ is_Some (ud_buffer ud)
  end.

Definition conns_kept (m m' : gmap nat (Connection session)) : Prop :=
  forall p x, m !! p = Some x -> exists x', m' !! p = Some x' /\ same_conn x x'.
#[export] Instance conns_kept_preorder : PreOrder conns_kept.
Proof.
  split; [intros m p x Hx; exists x; split; [done|reflexivity]|].
  intros m1 m2 m3 H1 H2 p x Hx. destruct (H1 p x Hx) as (y & Hy & ?), (H2 p y Hy) as (z & Hz & ?).
  exists z. split; [done|]. by etrans.
Qed.

Lemma of_conn_kept m m' fd ud : conns_kept m m' -> of_conn m fd ud -> of_conn m' fd ud.
Proof.
  intros Hk (p & x & ? & Hx & <-). destruct (Hk p x Hx) as (y & Hy & Hs). exists p, y. by destruct Hs.
Qed.
Lemma sqe_ok_kept m m' e : conns_kept m m' -> sqe_ok m e -> sqe_ok m' e.
Proof. intros Hk. destruct e; cbn; intuition eauto using of_conn_kept. Qed.

(** What changes besides the credit queue. *)
Record frame (w w' : World) : Prop := {
  fr_ring : exists l, w_ring w' = w_ring w ++ l /\ Forall (sqe_ok (w_conns w')) l;
  fr_conns : conns_kept (w_conns w) (w_conns w');
  fr_sockfd : w_sockfd w' = w_sockfd w
}.
#[export] Instance frame_preorder : PreOrder frame.
Proof.
  split.
  - intros w. split; try reflexivity. exists []. by rewrite app_nil_r.
  - intros w1 w2 w3 [(l1 & R1 & K1) D1 S1] [(l2 & R2 & K2) D2 S2]. split; [|by etrans|congruence].
    exists (l1 ++ l2). split; [by rewrite R2, R1, app_assoc|]. apply Forall_app. split; [|done].
    eapply Forall_impl; [exact K1|]. intros e. by apply sqe_ok_kept.
Qed.

(** The datagrams submitted, and the queue. *)
Definition sent (w : World) : list Buffer :=
  omap (fun e => match e with SqSendmsg _ ud => ud_buffer ud | _ => None end) (w_ring w).
Definition view (w : World) : CreditQueue Buffer * list Buffer := (w_credits w, sent w).

(** From [w] to [w'], by actions of the language [P]. *)
Record evolves (P : language) (w w' : World) : Prop := {
  ev_acts : exists tr, steps act (view w) tr (view w') /\ P tr;
  ev_frame : frame w w'
}.

Lemma evolves_cat P Q w w1 w' : evolves P w w1 -> evolves Q w1 w' -> evolves (cat P Q) w w'.
Proof.
  intros [(tr & H1 & HP) F1] [(tr' & H2 & HQ) F2]. split; [|by etrans]. exists (tr ++ tr').
  split; [by eapply steps_app|]. by exists tr, tr'.
Qed.
Lemma evolves_weaken (P Q : language) w w' : evolves P w w' -> (forall tr, P tr -> Q tr) -> evolves Q w w'.
Proof. intros [(tr & H1 & HP) F1] HPQ. split; [|done]. exists tr. split; [done|by apply HPQ]. Qed.
#[export] Instance evolves_preorder P `{!Trace P} : PreOrder (evolves P).
Proof.
  split.
  - intros w. split; [|reflexivity]. exists []. split; [constructor|apply tr_nil].
  - intros w1 w2 w3 H1 H2. eapply evolves_weaken; [by eapply evolves_cat|]. intros tr (a & b & -> & ? & ?). by apply tr_app.
Qed.

(** Changes of the other fields. *)
Lemma evolves_still P `{!Trace P} w w' : view w' = view w -> frame w w' -> evolves P w w'.
Proof. intros Hv Hf. split; [|done]. exists []. rewrite Hv. split; [constructor|apply tr_nil]. Qed.
Lemma evolves_other P `{!Trace P} w w' : w_credits w' = w_credits w -> w_ring w' = w_ring w -> w_conns w' = w_conns w ->
  w_sockfd w' = w_sockfd w -> evolves P w w'.
Proof.
  intros Hc Hr Hk Hs. refine (evolves_still P _ _ _ _); [unfold view, sent; by rewrite Hc, Hr|].
  split; [exists []; by rewrite Hr, app_nil_r|by rewrite Hk|done].
Qed.
Lemma evolves_credits P w q a l : label_of a = Some l -> datagrams a = [] -> stamped a -> cq_call (w_credits w) l q -> P [a] ->
  evolves P w (set_w_credits q w).
Proof.
  intros Ha Hd Hs Hq HP. split; [|split; [exists []; by rewrite app_nil_r|done|done]]. exists [a]. split; [|done].
  econstructor; [|constructor]. split; [by rewrite Ha|by rewrite Hd, app_nil_r|done].
Qed.
Lemma evolves_conns P `{!Trace P} w m : conns_kept (w_conns w) m -> evolves P w (set_w_conns m w).
Proof. intros Hm. refine (evolves_still P _ _ _ _); [done|]. split; [exists []; by rewrite app_nil_r|done|done]. Qed.

Lemma frame_ring w e : sqe_ok (w_conns w) e -> frame w (set_w_ring (w_ring w ++ [e]) w).
Proof. intros He. split; [exists [e]; by rewrite Forall_singleton|done|done]. Qed.
Definition is_sendmsg (e : Sqe) : bool := match e with SqSendmsg _ _ => true | _ => false end.
Lemma evolves_ring P `{!Trace P} w e : is_sendmsg e = false -> sqe_ok (w_conns w) e -> evolves P w (set_w_ring (w_ring w ++ [e]) w).
Proof.
  intros Hne He. refine (evolves_still P _ _ _ _); [|by apply frame_ring]. unfold view, sent. cbn. rewrite omap_app.
  by destruct e; rewrite ?app_nil_r.
Qed.
Lemma sent_datagram w fd ud b : ud_buffer ud = Some b -> sent (set_w_ring (w_ring w ++ [SqSendmsg fd ud]) w) = sent w ++ [b].
Proof. intros Hb. unfold sent. cbn. rewrite omap_app. cbn. by rewrite Hb. Qed.

(** ** Operations that leave the credits alone *)

Section Steady.
Context (P : language) `{!Trace P}.
Abbreviation steady m := (moves (evolves P) m).
Hint Extern 5 (evolves _ _ _) => (apply evolves_other; first [reflexivity|typeclasses eauto]) : moves.

Lemma steady_modify f : (forall w, evolves P w (f w)) -> steady (modify f).
Proof. apply moves_modify. Qed.
Lemma steady_on_bm {A} (f : BufferManager -> res (A * BufferManager)) : steady (on_bm f).
Proof. apply moves_zoom; try typeclasses eauto. intros. by apply evolves_other. Qed.
Lemma steady_on_bm_ f : steady (on_bm_ f).
Proof. apply steady_on_bm. Qed.
Lemma steady_on_ppm {A} (f : PPMQueue -> res (A * PPMQueue)) : steady (on_ppm f).
Proof. apply moves_zoom; try typeclasses eauto. intros. by apply evolves_other. Qed.
Lemma steady_on_thread {A} (f : Env -> res (A * Env)) : steady (on_thread f).
Proof. apply moves_zoom; try typeclasses eauto. intros. by apply evolves_other. Qed.
Lemma steady_on_thread_ f : steady (on_thread_ f).
Proof. apply steady_on_thread. Qed.
Lemma steady_on_stats_ f : steady (on_stats_ f).
Proof. apply steady_on_thread. Qed.
Lemma steady_on_ingress {A} (f : Ingress -> Env -> res (A * Ingress * Env)) : steady (on_ingress f).
Proof.
  intros w. unfold on_ingress. destruct (f _ _) as [[[a g] e]|[]]; try done. by apply evolves_other.
Qed.
Lemma steady_readings n : steady (w_readings n).
Proof. intros w. cbn. by apply evolves_other. Qed.
Hint Resolve steady_on_bm steady_on_bm_ steady_on_ppm steady_on_thread steady_on_thread_ steady_on_stats_
  steady_on_ingress steady_readings : moves.
Lemma steady_now : steady w_now.
Proof. unfold w_now. moves_auto. Qed.
Hint Resolve steady_now : moves.
Lemma steady_now_us : steady now_us.
Proof. unfold now_us. moves_auto. Qed.
Lemma steady_catch_fatal {A} (m : M World A) : steady m -> steady (catch_fatal m).
Proof. intros Hm w. specialize (Hm w). unfold catch_fatal. by destruct (m w). Qed.
Lemma steady_rpc i : steady (rpc i).
Proof. unfold rpc. moves_auto. Qed.
Lemma steady_set_rpc i f : steady (set_rpc i f).
Proof. apply steady_on_thread. Qed.
Hint Resolve steady_now_us steady_catch_fatal steady_rpc steady_set_rpc : moves.

(** Virtual calls. *)
Lemma conns_kept_insert (m : gmap nat (Connection session)) p x y : m !! p = Some x -> same_conn x y -> conns_kept m (<[p := y]> m).
Proof.
  intros Hx Hs q z Hz. destruct (decide (q = p)) as [->|Hne].
  - exists y. rewrite lookup_insert_eq. split; [done|]. congruence.
  - exists z. rewrite lookup_insert_ne by done. split; [done|reflexivity].
Qed.
Lemma conns_kept_fresh (m : gmap nat (Connection session)) x : conns_kept m (<[fresh (dom m) := x]> m).
Proof.
  intros q z Hz. exists z. split; [|reflexivity]. rewrite lookup_insert_ne; [done|].
  intros <-. apply (is_fresh (dom m)). by apply elem_of_dom.
Qed.
Lemma evolves_virtual w m x : conns_kept (w_conns w) m -> evolves P w (set_w_conns m (set_w_ctx x w)).
Proof. intros Hm. etrans; [by apply (evolves_conns P w m)|]. by apply evolves_other. Qed.

Lemma steady_on_conn {A} p (op1 : M (CState (Conn1 session)) A) (op2 : M (CState Conn2) A) :
  moves (on_P keep_base1) op1 -> moves (on_P keep_base2) op2 -> steady (on_conn p op1 op2).
Proof.
  intros H1 H2 w. unfold on_conn, conn_at, gets, mbind at 1, M_bind at 1, mbind at 1, M_bind at 1.
  destruct (w_conns w !! p) as [x|] eqn:Ex; cbn; [|done].
  destruct (c_proto x) as [h|s].
  - unfold run1, outcome_to. specialize (H1 (mkCState (mkConn1 x h) (w_ctx w))).
    destruct (op1 _) as [a t|e t|]; [| |done]; apply evolves_virtual; (eapply conns_kept_insert; [exact Ex|]);
      destruct H1; by split.
  - unfold run2, outcome_to. specialize (H2 (mkCState (mkConn2 x s) (w_ctx w))).
    destruct (op2 _) as [a t|e t|]; [| |done]; apply evolves_virtual; (eapply conns_kept_insert; [exact Ex|]);
      destruct H2; by split.
Qed.

(** Every handler. *)
Context (c : Config) (fuel : nat) (mode : simd).
Hint Extern 1 (moves (evolves _) (modify _)) => (apply steady_modify; intros ?; apply evolves_other; first [reflexivity|typeclasses eauto]) : moves.
Hint Extern 1 (moves (evolves _) (zoom w_last_rtt _ _)) => (apply moves_zoom; try typeclasses eauto; intros; apply evolves_other; first [reflexivity|typeclasses eauto]) : moves.
Hint Extern 1 (moves (evolves _) (zoom w_util _ _)) => (apply moves_zoom; try typeclasses eauto; intros; apply evolves_other; first [reflexivity|typeclasses eauto]) : moves.

Lemma steady_conn_at p : steady (conn_at p).
Proof. unfold conn_at. moves_auto. Qed.
Lemma steady_http_read p b : steady (http_read c mode p b).
Proof. apply steady_on_conn; [apply keeps_http1_read|apply keeps_http2_read]. Qed.
Lemma steady_http_write p b : steady (http_write c p b).
Proof.
  unfold http_write. apply moves_bind; [typeclasses eauto|apply moves_get_st; typeclasses eauto|intros w].
  apply steady_on_conn; [apply keeps_http1_write|apply keeps_http2_write].
Qed.
Hint Resolve steady_conn_at steady_http_read steady_http_write : moves.
Lemma steady_want_write p : steady (want_write p).
Proof. unfold want_write. moves_auto. Qed.
Lemma steady_submit_settings p : steady (conn_submit_settings p).
Proof. apply steady_on_conn; [apply moves_ret; typeclasses eauto|apply keeps_http2_submit_settings]. Qed.
Lemma steady_submit_request p i : steady (conn_submit_request p i).
Proof. apply steady_on_conn; [apply keeps_http1_submit_request|apply keeps_http2_submit_request]. Qed.
Lemma steady_submit_response p i : steady (conn_submit_response p i).
Proof. apply steady_on_conn; [apply keeps_http1_submit_response|apply keeps_http2_submit_response]. Qed.
Lemma steady_submit_error_response p i : steady (conn_submit_error_response p i).
Proof. apply steady_on_conn; [apply keeps_http1_submit_response|apply keeps_http2_submit_error_response]. Qed.
Lemma steady_set_status p x : steady (set_status_at p x).
Proof.
  intros w. unfold set_status_at, conn_at, gets, mbind, M_bind, modify.
  destruct (w_conns w !! p) as [y|] eqn:Ey; cbn; [|done].
  refine (evolves_conns P _ _ _). eapply conns_kept_insert; [exact Ey|]. by split.
Qed.
Hint Resolve steady_want_write steady_submit_settings steady_submit_request steady_submit_response
  steady_submit_error_response steady_set_status : moves.

(** Submissions. *)
Lemma steady_prepare_accept t ud : steady (prepare_accept t ud).
Proof.
  unfold prepare_accept, push_sqe. do 2 (moves_step; [by moves_auto|]).
  apply steady_modify. intros w. apply evolves_ring; [done|done|]. split; [done|by eexists].
Qed.
Lemma steady_prepare_rcvmsg fd ud : steady (prepare_rcvmsg fd ud).
Proof. unfold prepare_rcvmsg, push_sqe. moves_step; [by moves_auto|]. apply steady_modify. intros w. by apply evolves_ring. Qed.

(** [of_conn], from the connection just looked up. *)
Lemma of_conn_intro m p x ud : m !! p = Some x -> ud_conn ud = Some p -> of_conn m (c_fd x) ud.
Proof. intros Hx Hu. by exists p, x. Qed.
Ltac submission := intros w; unfold conn_at, gets, mbind, M_bind, push_sqe, modify;
  match goal with |- context [w_conns w !! ?p] => destruct (w_conns w !! p) as [x|] eqn:Ex; cbn; [|done] end.
Lemma steady_prepare_read ud l p : steady (ring_prepare_read ud l p).
Proof. unfold ring_prepare_read. submission. apply evolves_ring; [done|done|]. split; [done|by eapply of_conn_intro]. Qed.
Lemma steady_prepare_connect p ud : steady (prepare_connect p ud).
Proof. unfold prepare_connect. submission. apply evolves_ring; [done|done|]. split; [done|by eapply of_conn_intro]. Qed.
Lemma steady_prepare_cancel p ud : steady (prepare_cancel p ud).
Proof. unfold prepare_cancel. submission. apply evolves_ring; [done|done|]. split; [done|by eapply of_conn_intro]. Qed.
Lemma steady_prepare_write p b ud : steady (ring_prepare_write p b ud).
Proof.
  unfold ring_prepare_write, Buffers.prepare_write, ud_set_buffer. submission. destruct (ud_buffer ud); cbn; [done|].
  apply evolves_ring; [done|done|]. split; [done|]. split; [by eapply of_conn_intro|by eexists].
Qed.
Hint Resolve steady_prepare_accept steady_prepare_rcvmsg steady_prepare_read
  steady_prepare_connect steady_prepare_cancel steady_prepare_write : moves.
Lemma steady_get_user_data o : steady (ring_get_user_data o).
Proof. unfold ring_get_user_data. moves_auto. Qed.
Hint Resolve steady_get_user_data : moves.

(** Writing. *)
Lemma steady_write_or_flush p b : steady (write_or_flush c p b).
Proof.
  intros w. unfold write_or_flush. pose proof (steady_http_write p b w) as Hw.
  destruct (http_write c p b w) as [[b' n] w'|[] w'|]; try done.
  match goal with |- match ?m w' with _ => _ end => assert (steady m) as Hm by moves_auto; specialize (Hm w'); destruct (m w') end;
    [by etrans|by etrans|done].
Qed.
Hint Resolve steady_write_or_flush : moves.
Lemma steady_write_frames n p b flag : steady (write_frames c n p b flag).
Proof. revert b flag. induction n as [|n IH]; intros b flag; cbn [write_frames]; moves_auto. Qed.
Lemma steady_fatal_full p b : steady (fun w => match http_write c p b w with Exc (BufferFull _) _ => Stop Fatal | r => r end).
Proof. intros w. pose proof (steady_http_write p b w) as Hw. by destruct (http_write c p b w) as [|[] |]. Qed.
Hint Resolve steady_write_frames steady_fatal_full : moves.
Lemma steady_write_messages n p : steady (write_messages c n p).
Proof. induction n as [|n IH]; cbn [write_messages]; moves_auto. Qed.
Hint Resolve steady_write_messages : moves.
Lemma steady_write_http p : steady (write_http c fuel p).
Proof. unfold write_http. moves_auto. Qed.
Hint Resolve steady_write_http : moves.

(** Requests. *)
Lemma steady_route_request t s fd : steady (route_request t s fd).
Proof.
  unfold route_request. do 2 (moves_step; [by moves_auto|]). apply steady_catch_fatal. unfold pick_ingress, pick_route. moves_auto.
Qed.
Lemma steady_forward_request o i : steady (forward_request c fuel o i).
Proof. unfold forward_request. apply steady_catch_fatal. moves_auto. Qed.
End Steady.
Hint Extern 5 (evolves _ _ _) => (apply evolves_other; first [reflexivity|typeclasses eauto]) : moves.
Hint Extern 1 (moves (evolves _) (modify _)) =>
  (apply steady_modify; intros ?; apply evolves_other; first [reflexivity|typeclasses eauto]) : moves.
Hint Extern 1 (moves (evolves _) (zoom w_last_rtt _ _)) =>
  (apply moves_zoom; try typeclasses eauto; intros; apply evolves_other; first [reflexivity|typeclasses eauto]) : moves.
Hint Extern 1 (moves (evolves _) (zoom w_util _ _)) =>
  (apply moves_zoom; try typeclasses eauto; intros; apply evolves_other; first [reflexivity|typeclasses eauto]) : moves.
Hint Resolve steady_on_bm steady_on_bm_ steady_on_ppm steady_on_thread
  steady_on_thread_ steady_on_stats_ steady_on_ingress steady_readings steady_now
  steady_now_us steady_rpc steady_set_rpc
  steady_conn_at steady_http_read steady_http_write steady_want_write steady_submit_settings
  steady_submit_request steady_submit_response steady_submit_error_response steady_set_status steady_prepare_accept
  steady_prepare_rcvmsg steady_prepare_read steady_prepare_connect steady_prepare_cancel steady_prepare_write
  steady_get_user_data steady_write_or_flush steady_write_frames steady_fatal_full steady_write_messages
  steady_write_http steady_route_request steady_forward_request steady_catch_fatal : moves.

(** ** Datagrams *)

Lemma steady_sendmsg (P : language) a fd b ud : datagrams a = [b] -> label_of a = None -> P [a] ->
  moves (evolves P) (ring_prepare_sendmsg fd b ud).
Proof.
  intros Hd Hl HP w. unfold ring_prepare_sendmsg, ud_set_buffer. destruct (ud_buffer ud); cbn; [done|].
  split; [|apply frame_ring; split; [done|by eexists]]. exists [a]. split; [|done].
  econstructor; [|constructor]. split; [by rewrite Hl| |by destruct a].
  unfold view. cbn [snd]. rewrite Hd. by apply sent_datagram.
Qed.
Lemma steady_return (P : language) `{!Trace P} `{!Returning P} b : moves (evolves P) (send_datagram b).
Proof.
  unfold send_datagram. do 2 (moves_step; [by moves_auto|]).
  eapply (steady_sendmsg P (Return b)); [done|done|]. apply returning. by eexists.
Qed.
Lemma steady_send_credit_request (P : language) `{!Trace P} `{!Asking P} a s i pr : moves (evolves P) (send_credit_request a s 1 i pr).
Proof.
  unfold send_credit_request. do 4 (moves_step; [by moves_auto|]).
  apply moves_lift_bind; [typeclasses eauto|]. intros b Eb. moves_step; [by moves_auto|].
  unfold prepare_sendmsg_with_serveraddr. eapply (steady_sendmsg P (Ask (prepare_sendmsg a b))); [done|done|].
  apply asking. by repeat eexists.
Qed.
Hint Resolve steady_return steady_send_credit_request : moves.

(** ** What a computation that returns has done

    Exceptions where credits move are fatal: only the state behind a value
    returned counts. *)

Definition ends {A} (R : World -> World -> Prop) (m : M World A) : Prop := forall w,
  match m w with Ret _ w' => R w w' | _ => True end.

Lemma ends_moves {A} R (m : M World A) : moves R m -> ends R m.
Proof. intros Hm w. specialize (Hm w). by destruct (m w). Qed.
Lemma ends_catch {A} R (m : M World A) : ends R m -> moves R (catch_fatal m).
Proof. intros Hm w. specialize (Hm w). unfold catch_fatal. by destruct (m w). Qed.
Lemma ends_weaken {A} (P Q : language) (m : M World A) : ends (evolves P) m -> (forall tr, P tr -> Q tr) -> ends (evolves Q) m.
Proof. intros Hm HPQ w. specialize (Hm w). destruct (m w); [|done|done]. by eapply evolves_weaken. Qed.
Lemma ends_cat {A B} (P Q : language) (m : M World A) (f : A -> M World B) : ends (evolves P) m ->
  (forall a, ends (evolves Q) (f a)) -> ends (evolves (cat P Q)) (m ≫= f).
Proof.
  intros Hm Hf w. unfold mbind, M_bind. specialize (Hm w). destruct (m w) as [a w1| |]; [|done|done].
  specialize (Hf a w1). destruct (f a w1); [|done|done]. by eapply evolves_cat.
Qed.
Lemma ends_seq {A B} (P : language) `{!Trace P} (m : M World A) (f : A -> M World B) : ends (evolves P) m ->
  (forall a, ends (evolves P) (f a)) -> ends (evolves P) (m ≫= f).
Proof. intros Hm Hf. eapply ends_weaken; [by apply (ends_cat P P)|]. intros tr (a & b & -> & ? & ?). by apply tr_app. Qed.
(** Behind a step that does nothing to the credits. *)
Lemma ends_after {A B} (Q : language) (m : M World A) (f : A -> M World B) : moves (evolves nothing) m ->
  (forall a, ends (evolves Q) (f a)) -> ends (evolves Q) (m ≫= f).
Proof.
  intros Hm Hf. eapply ends_weaken; [apply (ends_cat nothing Q); [by apply ends_moves|done]|]. by intros tr (a & b & -> & -> & ?).
Qed.
Lemma ends_lift_bind {A B} R (r : res A) (f : A -> M World B) : (forall a, r = Ok a -> ends R (f a)) -> ends R (lift r ≫= f).
Proof. intros Hf. destruct r as [a|[]]; [by apply Hf|done..]. Qed.

Context (c : Config) (fuel : nat) (mode : simd).

(** ** The credit queue *)

Lemma ends_credits (a : action) f : datagrams a = [] -> stamped a ->
  (forall q q', f q = Ok q' -> exists l, label_of a = Some l /\ cq_call q l q') -> ends (evolves (one a)) (on_credits_ f).
Proof.
  intros Hd Hs Hf w. unfold on_credits_, on_credits, zoom. destruct (f (w_credits w)) as [q|[]] eqn:E; cbn; try done.
  destruct (Hf _ _ E) as (l & Hl & Hq). by eapply evolves_credits.
Qed.
Lemma ends_push g k pr : ends (evolves (one (Push g k (Z.to_nat (u64 pr))))) (on_credits_ (fun q => push q g k pr)).
Proof. apply ends_credits; [done|done|]. intros q q' E. eexists. split; [done|]. by apply push_call. Qed.
Lemma ends_decrement k : ends (evolves (one (Free k))) (on_credits_ (fun q => decrement_in_flight q k)).
Proof. apply ends_credits; [done|done|]. intros q q' E. eexists. split; [done|]. by constructor. Qed.
Lemma ends_increment k : ends (evolves (one (Take k))) (on_credits_ (fun q => increment_in_flight q k)).
Proof. apply ends_credits; [done|done|]. intros q q' E. eexists. split; [done|]. by constructor. Qed.

Lemma send_datagram_ends b w : match send_datagram b w with
  | Ret _ w' => w_credits w' = w_credits w /\ sent w' = sent w ++ [b] /\ frame w w'
  | _ => True end.
Proof.
  unfold send_datagram. rewrite (run_bind _ _ _ (w_sockfd w) w) by done.
  unfold on_bm, zoom, mbind at 1, M_bind at 1. destruct (get_user_data (w_bm w)) as [[ud bm]|[]]; cbn; try done.
  unfold ring_prepare_sendmsg, ud_set_buffer. destruct (ud_buffer ud); cbn; [done|].
  split; [done|]. split; [by apply (sent_datagram (set_w_bm bm w))|].
  etrans; [|apply (frame_ring (set_w_bm bm w)); split; [done|by eexists]].
  split; [exists []; by rewrite app_nil_r|done|done].
Qed.

(** A grant that leaves the queue is sent, stamped. *)
Lemma ends_check_credit_transmission : ends (evolves passes) check_credit_transmission.
Proof.
  intros w. unfold check_credit_transmission, on_credits, zoom, mbind at 1, M_bind at 1.
  destruct (pop (w_credits w)) as [[[g|] q]|[]] eqn:E; cbn [fst snd]; try done.
  - set (w1 := set_w_credits q w). set (w2 := set_w_ctx (advance_clock 1 (w_ctx w1)) w1).
    rewrite (run_bind _ _ _ (to_us (readings (w_ctx w1) 0%nat)) w2) by done.
    unfold lift, mbind at 1, M_bind at 1. destruct (stamp_queuing_time _ g) as [b|[]] eqn:Es; cbn; try done.
    pose proof (send_datagram_ends b w2) as Hs. destruct (send_datagram b w2) as [u w'| |]; [|done|done].
    destruct Hs as (Hc & Hsent & Hf). split; [|etrans; [|exact Hf]; split; [exists []; by rewrite app_nil_r|done|done]].
    exists [Pass (Some (g, b))]. split; [|by eexists]. econstructor; [|constructor].
    split; [cbn; rewrite Hc; by constructor|exact Hsent|by eexists].
  - eapply (evolves_credits passes w q (Pass None)); [done|done|done|by constructor|by eexists].
Qed.
Lemma ends_decrement_and_check s : ends (evolves (frees s)) (decrement_and_check s).
Proof. apply ends_cat; [apply ends_decrement|intros _; apply ends_check_credit_transmission]. Qed.

(** ** Requests and responses *)

Lemma steady_mapping_at (P : language) `{!Trace P} s : moves (evolves P) (mapping_at c s).
Proof. unfold mapping_at. moves_auto. Qed.
Hint Resolve steady_mapping_at : moves.
Lemma steady_send_sub_request (P : language) `{!Trace P} i : moves (evolves P) (send_sub_request c fuel i).
Proof. unfold send_sub_request. moves_auto. Qed.
Hint Resolve steady_send_sub_request : moves.
Lemma steady_credit_post_process (P : language) `{!Trace P} b : moves (evolves P) (credit_post_process c b).
Proof. unfold credit_post_process. moves_auto. Qed.
Lemma steady_report_utilization (P : language) `{!Trace P} s : moves (evolves P) (report_utilization s).
Proof. unfold report_utilization. moves_auto. Qed.
Hint Resolve steady_credit_post_process steady_report_utilization : moves.
Lemma steady_forward_downstream (P : language) `{!Trace P} t fd s : moves (evolves P) (forward_downstream c fuel t fd s).
Proof. unfold forward_downstream, add_in_local. moves_auto. Qed.
Hint Resolve steady_forward_downstream : moves.

Section Asks.
Context (P : language) `{!Trace P} `{!Asking P}.
Lemma steady_request_for s r : moves (evolves P) (request_for s r).
Proof. unfold request_for, route_addr. moves_auto. Qed.
Hint Resolve steady_request_for : moves.
Lemma steady_admit_request : moves (evolves P) (admit_request c).
Proof. unfold admit_request. moves_auto. Qed.
Lemma steady_protocol_client_requests : moves (evolves P) (protocol_client_requests c).
Proof.
  unfold protocol_client_requests. moves_step; [by moves_auto|].
  match goal with |- moves _ (repeatM ?n _) => induction n as [|k IH]; cbn [repeatM]; [by moves_auto|] end.
  apply moves_bind; [typeclasses eauto|apply steady_admit_request|done].
Qed.
Lemma steady_ingress_pre_credit : moves (evolves P) (ingress_pre_credit c).
Proof. unfold ingress_pre_credit, route_addr. moves_auto. Qed.
End Asks.
Hint Resolve steady_protocol_client_requests steady_ingress_pre_credit : moves.

(** A response takes the slot of the request behind it, or gives back that of
    its own. *)
Section Responds.
Context (P : language) `{!Trace P} (t : ConnectionType).
Hypothesis (Hfree : t = INGRESS -> Freeing P) (Htake : t = EGRESS -> is_ingress c = false -> Taking P).

Lemma ends_fanout_res_credit_management id : Taking P -> ends (evolves P) (fanout_res_credit_management c id).
Proof.
  intros Hp. unfold fanout_res_credit_management. repeat (apply (ends_seq P); [by apply ends_moves; moves_auto|intros ?]).
  match goal with |- ends _ (if ?b then _ else _) => destruct b end; [|by apply ends_moves; moves_auto].
  eapply ends_weaken; [apply ends_increment|]. intros tr ->. apply taking. by eexists.
Qed.
Lemma ends_account_response r : ends (evolves P) (account_response c t r).
Proof.
  unfold account_response. apply (ends_seq P); [by apply ends_moves; moves_auto|intros _]. destruct t.
  - apply (ends_seq P); [|intros _; apply ends_moves; unfold add_in_local; by moves_auto].
    eapply ends_weaken; [apply ends_decrement_and_check|]. intros tr Htr. eapply (Hfree eq_refl); exact Htr.
  - apply (ends_seq P); [|intros _; by apply ends_moves; moves_auto].
    destruct (is_ingress c) eqn:Em; [by apply ends_moves; moves_auto|]. by apply ends_fanout_res_credit_management, Htake.
Qed.
Lemma steady_forward_upstream fd s : moves (evolves P) (forward_upstream c fuel t fd s).
Proof.
  unfold forward_upstream. do 3 (moves_step; [by moves_auto|]). apply ends_catch.
  do 2 (apply (ends_seq P); [by apply ends_moves; moves_auto|intros ?]).
  apply (ends_seq P); [|intros _; apply ends_moves; unfold submit_to_client; by moves_auto].
  match goal with |- ends _ (if ?b then _ else _) => destruct b end; [by apply ends_moves; moves_auto|apply ends_account_response].
Qed.
Lemma steady_forward d : moves (evolves P) (forward c fuel t d).
Proof.
  unfold forward. match goal with |- moves _ (if ?b then _ else _) => destruct b end; [by moves_auto|].
  moves_step; [by moves_auto|].
  match goal with |- moves _ (forward_loop _ _ ?n _ _) => induction n as [|k IH]; cbn [forward_loop]; [by moves_auto|] end.
  pose proof steady_forward_upstream. moves_auto.
Qed.
End Responds.

(** ** Grants *)

Section Grants.
Context (P : language) `{!Trace P} `{!Freeing P} `{!Returning P}.
Lemma steady_flush_returns l : moves (evolves P) (flush_returns l).
Proof. induction l as [|b l IH]; cbn [flush_returns]; moves_auto. Qed.
Lemma ends_frees k : ends (evolves P) (decrement_and_check k).
Proof. eapply ends_weaken; [apply ends_decrement_and_check|]. intros tr. apply freeing. Qed.
Lemma ends_fanout_req_management id s b : ends (evolves P) (fanout_req_management c fuel id s b).
Proof.
  pose proof steady_flush_returns. pose proof ends_frees. unfold fanout_req_management, incr_pfanout_req, count_branch, prepare_credit_return.
  repeat match goal with
  | |- ends _ (_ ≫= _) => apply (ends_seq P); [by apply ends_moves; moves_auto|intros ?]
  | |- ends _ (if ?b then _ else _) => destruct b
  | |- ends _ (decrement_and_check _) => apply ends_frees
  | |- ends _ _ => by apply ends_moves; moves_auto
  end.
Qed.
Lemma ends_protocol_client_grant b : is_ingress c = false -> ends (evolves P) (protocol_client_grant c fuel b).
Proof.
  intros Hm. unfold protocol_client_grant. apply (ends_seq P); [by apply ends_moves; moves_auto|]. intros [[service num] id].
  rewrite Hm. induction (Z.to_nat num) as [|k IH]; cbn [repeatM]; [by apply ends_moves; moves_auto|].
  apply (ends_seq P); [apply ends_fanout_req_management|done].
Qed.
End Grants.

Lemma steady_ingress_post_credit b : is_ingress c = true -> moves (evolves asks_only) (ingress_post_credit c fuel b).
Proof.
  intros Hm. unfold ingress_post_credit.
  assert (moves (evolves asks_only) (forward c fuel EGRESS UPSTREAM)) by (apply steady_forward; [typeclasses eauto|done|congruence]).
  moves_auto.
Qed.

(** ** The server *)

Lemma endpoint_limit_ok entry t rt l : endpoint_limit c entry t rt = Ok l -> i32_ok l.
Proof. unfold endpoint_limit. intros E. bind_inv. by eapply checked_i32_ok. Qed.
Lemma global_limit_ok q l : global_limit_of c q = Ok l -> i32_ok l.
Proof. unfold global_limit_of. intros E. bind_inv. destruct a as [? ?]. bind_inv. by eapply checked_i32_ok. Qed.
Lemma steady_limit f : (forall q q', f q = Ok q' -> exists a l k, (a = Limit l k \/ a = GlobalLimit l) /\
  match label_of a with Some x => cq_call q x q' | None => False end) -> moves (evolves limits) (on_credits_ f).
Proof.
  intros Hf. apply moves_zoom; try typeclasses eauto. intros w [] q E. bind_inv. injection E as <-. destruct (Hf _ _ E0) as (x & l & k & [-> | ->] & Hq).
  - eapply (evolves_credits limits w _ (Limit l k)); [done..|]. apply many_one. exists l, k. by left.
  - eapply (evolves_credits limits w _ (GlobalLimit l)); [done..|]. apply many_one. exists l, k. by right.
Qed.
Lemma steady_recompute_limits s : moves (evolves limits) (recompute_limits c s).
Proof.
  unfold recompute_limits. do 4 (moves_step; [by moves_auto|]).
  apply moves_lift_bind; [typeclasses eauto|]. intros l El%endpoint_limit_ok.
  moves_step.
  - apply steady_limit. intros q q' Eq. exists (Limit l s), l, s. split; [by left|]. by constructor.
  - moves_step; [|by moves_auto]. apply steady_limit. intros q q' E. unfold mbind, res_bind in E. destruct (global_limit_of c q) as [g|] eqn:Eg; [|done].
    exists (GlobalLimit g), g, s. split; [by right|]. constructor; [by eapply global_limit_ok|done].
Qed.
Hint Resolve steady_recompute_limits : moves.
Lemma steady_update_limits rtt s : moves (evolves limits) (update_limits c rtt s).
Proof. unfold update_limits. moves_auto. Qed.
(** ** Serving a datagram

    A credit request is queued as the grant that answers it, the limits
    adjusted before, and then the queue is asked for a grant to send. *)
Definition served (req : Buffer) : language := fun tr => exists service prio resp0 resp ts,
  extract_service_from_rlp_req (data req) = Ok service /\ rlp_priority (data req) = Ok prio /\
  write_failed_dn_response req resp0 = Ok resp /\
  cat limits (cat (one (Push (set_ts ts resp) service (Z.to_nat (u64 prio)))) passes) tr.
(** A credit that comes back frees its slot, which is passed on. *)
Definition returned (req : Buffer) : language := fun tr => exists service,
  extract_service_from_rlp_req (data req) = Ok service /\ frees service tr.
(** What a datagram makes the thread do. *)
Definition answers (req : Buffer) : language := fun tr =>
  match classify req with
  | Ok CreditRequest => served req tr
  | Ok CreditReturn => returned req tr
  | Ok CreditGrant => (if is_ingress c then asks_only else grant_actions) tr
  | Err _ => False
  end.

Lemma ends_serve_request req : ends (evolves (served req)) (serve_request c req).
Proof.
  unfold serve_request. do 4 (apply ends_after; [by moves_auto|intros ?]).
  apply ends_lift_bind. intros service Es. apply ends_after; [by moves_auto|intros _].
  apply ends_lift_bind. intros prio Ep. do 2 (apply ends_after; [by moves_auto|intros ?]).
  eapply ends_weaken.
  - apply (ends_cat limits (fun tr => exists resp0 resp ts, write_failed_dn_response req resp0 = Ok resp /\
      cat (one (Push (set_ts ts resp) service (Z.to_nat (u64 prio)))) passes tr)); [apply ends_moves, steady_update_limits|intros _].
    apply ends_after; [by moves_auto|]. intros resp0. apply ends_lift_bind. intros resp Er. apply ends_after; [by moves_auto|]. intros ts.
    eapply ends_weaken; [apply ends_cat; [apply ends_push|intros _; apply ends_check_credit_transmission]|].
    intros tr Htr. by exists resp0, resp, ts.
  - intros tr (l & tr' & -> & Hl & resp0 & resp & ts & Er & Htr). exists service, prio, resp0, resp, ts.
    split; [done|]. split; [done|]. split; [done|]. by exists l, tr'.
Qed.

(** The type the server reads is the one the datagram was told apart by. *)
Lemma classify_type req k : classify req = Ok k ->
  data req !! 1%nat = Some (match k with CreditReturn => 2 | CreditRequest | CreditGrant => 1 end).
Proof.
  unfold classify. intros E. bind_inv. unfold or_fault in *. destruct (data req !! 1%nat) as [x|]; [|done].
  match goal with H : Ok x = Ok ?y |- _ => injection H as <- end.
  destruct (Z.eqb_spec x 2) as [->|]; [by injection E as <-|]. destruct (Z.eqb_spec x 1) as [->|]; [|done].
  cbn [andb] in E. repeat match type of E with (if ?b then _ else _) = _ => destruct b end; (done || by injection E as <-).
Qed.

Lemma ends_dispatch_rlp_recv req : ends (evolves (answers req)) (dispatch_rlp_recv c fuel req).
Proof.
  unfold dispatch_rlp_recv. apply ends_lift_bind. intros k Ek. pose proof (classify_type req k Ek) as Ht.
  assert (at_char (data req) 1 = Ok (match k with CreditReturn => 2 | CreditRequest | CreditGrant => 1 end)) as Hc
    by (unfold at_char, at_; rewrite Ht; by destruct k).
  unfold answers. destruct k.
  - unfold protocol_server. rewrite Hc. intros w. rewrite (run_lift _ _ _ 2) by done. cbn [Z.eqb Pos.eqb]. revert w.
    apply ends_lift_bind. intros service Es. eapply ends_weaken; [apply ends_decrement_and_check|].
    intros tr Htr. rewrite Ek. by exists service.
  - unfold protocol_server. rewrite Hc. intros w. rewrite (run_lift _ _ _ 1) by done. cbn [Z.eqb Pos.eqb]. revert w.
    eapply ends_weaken; [apply ends_serve_request|]. intros tr Htr. by rewrite Ek.
  - destruct (is_ingress c) eqn:Em; (eapply ends_weaken; [|intros tr Htr; rewrite Ek; exact Htr]).
    + by apply ends_moves, steady_ingress_post_credit.
    + apply ends_protocol_client_grant; [typeclasses eauto..|done].
Qed.

(** ** The event loop *)

Section Loop.
Context (P : language) `{!Trace P}.
Lemma steady_free_ud ud : moves (evolves P) (free_ud ud).
Proof. apply steady_on_bm_; typeclasses eauto. Qed.
Hint Resolve steady_free_ud : moves.
Lemma steady_accept_connection t fd k : moves (evolves P) (accept_connection t fd k).
Proof.
  intros w. unfold accept_connection. destruct (fd <? 0); [done|]. destruct (lis_add_connection _ _ _) as [q l].
  etrans; [|refine (evolves_conns P _ _ _)]; [by apply evolves_other|]. cbn [set_w_listeners w_conns].
  case_decide; [apply conns_kept_fresh|reflexivity].
Qed.
Hint Resolve steady_accept_connection : moves.
Lemma steady_on_accept e ud : moves (evolves P) (on_accept c e ud).
Proof. unfold on_accept. moves_auto. Qed.
Lemma steady_read_buffer e f : moves (evolves P) (read_buffer e f).
Proof. unfold read_buffer. moves_auto. Qed.
Lemma steady_teardown p b : moves (evolves P) (teardown p b).
Proof. unfold teardown. moves_auto. Qed.
Hint Resolve steady_read_buffer steady_teardown : moves.
Lemma steady_on_connect e ud : moves (evolves P) (on_connect c fuel e ud).
Proof. unfold on_connect. moves_auto. Qed.
Lemma steady_on_write e ud : moves (evolves P) (on_write e ud).
Proof. unfold on_write. moves_auto. Qed.
Lemma steady_on_cancel ud : moves (evolves P) (on_cancel ud).
Proof. unfold on_cancel, remove_connection. moves_auto. Qed.
Lemma steady_on_sendmsg e ud : moves (evolves P) (on_sendmsg e ud).
Proof. unfold on_sendmsg. moves_auto. Qed.
Lemma steady_run_prologue : moves (evolves P) run_prologue.
Proof. unfold run_prologue. moves_auto. Qed.

Context `{!Asking P} `{!Freeing P} (Htake : is_ingress c = false -> Taking P).
Lemma steady_after_read p b : moves (evolves P) (after_read c fuel p b).
Proof.
  assert (forall t d, moves (evolves P) (forward c fuel t d)) by (intros; apply steady_forward; [typeclasses eauto|done|done]).
  unfold after_read. moves_auto.
Qed.
Lemma steady_read_or_teardown p b : moves (evolves P) (read_or_teardown c fuel mode p b).
Proof.
  intros w. unfold read_or_teardown. pose proof (steady_http_read P c mode p b w) as Hw.
  destruct (http_read c mode p b w) as [u w'|[] w'|]; try done.
  - pose proof (steady_after_read p b w') as Ha. destruct (after_read c fuel p b w'); [by etrans|by etrans|done].
  - pose proof (steady_teardown p (Some b) w') as Ha. destruct (teardown p (Some b) w'); [by etrans|by etrans|done].
Qed.
Hint Resolve steady_read_or_teardown : moves.
Lemma steady_on_read e ud : moves (evolves P) (on_read c fuel mode e ud).
Proof. unfold on_read. moves_auto. Qed.
End Loop.

(** What a completion makes the thread do: the data of its entry says which
    handler runs, and a datagram is the one in the buffer the kernel filled. *)
Definition caused (e : Cqe) (w : World) : language := fun tr => exists ud, cqe_data e = Some ud /\
  match ud_op ud with
  | READ => stream_actions c tr
  | RCVMSG => exists i b bm req, cqe_buffer e = Some i /\ get_udp_buffer_by_index i (w_bm w) = Ok (b, bm) /\
      handle_multishot_recv b (cqe_res e) = Ok req /\ answers req tr
  | _ => tr = []
  end.

Lemma on_rcvmsg_caused e w ud : cqe_data e = Some ud -> ud_op ud = RCVMSG ->
  match on_rcvmsg c fuel e w with Ret _ w' => evolves (caused e w) w w' | _ => True end.
Proof.
  intros Hud Hop. unfold on_rcvmsg, read_buffer. destruct (cqe_buffer e) as [i|] eqn:Ei.
  2:{ destruct (0 <? cqe_res e); [done|]. unfold mbind at 1, M_bind at 1. cbn. unfold mbind at 1, M_bind at 1.
      destruct (cqe_res e <=? 0); done. }
  unfold on_bm at 1, zoom. unfold mbind at 1, M_bind at 1, mbind at 1, M_bind at 1.
  destruct (get_udp_buffer_by_index i (w_bm w)) as [[b bm]|[]] eqn:Eb; cbn [fst snd]; try done.
  set (w1 := set_w_bm bm w).
  change (match (mret (Some b) : M World (option Buffer)) w1 with Ret x s => ?f x s | Exc e s => Exc e s | Stop f => Stop f end)
    with (f (Some b) w1).
  assert (forall A (m : M World A), ends (evolves (caused e w)) m -> match m w1 with Ret _ w' => evolves (caused e w) w w' | _ => True end) as Hfrom.
  { intros A m Hm. specialize (Hm w1). destruct (m w1) as [x w'| |]; [|done|done].
    destruct Hm as [Ha [Hr Hk Hs]]. by split; [|split]. }
  apply (Hfrom _ (_ ← guard_fatal (cqe_res e <=? 0); _)). apply ends_after; [by moves_auto|intros _].
  apply ends_lift_bind. intros b' [= <-]. apply ends_lift_bind. intros req Er.
  eapply ends_weaken.
  - apply (ends_cat (answers req) nothing); [apply ends_moves, ends_catch, ends_dispatch_rlp_recv|intros _; by apply ends_moves; moves_auto].
  - intros tr (x & y & -> & Hx & ->). rewrite app_nil_r. exists ud. split; [done|]. rewrite Hop. by exists i, b, bm, req.
Qed.

Lemma handle_caused e w : match handle c fuel mode e w with Ret _ w' => evolves (caused e w) w w' | _ => True end.
Proof.
  unfold handle. destruct (cqe_data e) as [ud|] eqn:Ed; [|done].
  assert (ud_op ud = OP_CLEAR \/ ud_op ud <> OP_CLEAR) as [Ec|Ec] by (destruct (ud_op ud); by (left + right)).
  { destruct ud; cbn in Ec; by subst. }
  rewrite (run_bind _ _ _ ud w) by (unfold ring_get_user_data; rewrite (run_lift _ _ _ ud) by done; by destruct (ud_op ud)).
  assert (ud_op ud = RCVMSG \/ ud_op ud <> RCVMSG) as [Er|Er] by (destruct (ud_op ud); by (left + right)); [rewrite Er; by apply (on_rcvmsg_caused e w ud)|].
  match goal with |- match ?m w with _ => _ end =>
    assert (ends (evolves (match ud_op ud with READ => stream_actions c | _ => nothing end)) m) as Hm end.
  { destruct (ud_op ud); try done; apply ends_moves;
    first [apply steady_on_accept|apply steady_on_read|apply steady_on_connect|apply steady_on_write|apply steady_on_cancel|apply steady_on_sendmsg];
    first [typeclasses eauto|apply stream_taking]. }
  specialize (Hm w). match goal with |- match ?o with _ => _ end => destruct o as [u w'| |]; [|done|done] end.
  eapply evolves_weaken; [exact Hm|]. intros tr Htr. exists ud. split; [done|]. by destruct (ud_op ud).
Qed.
End Evolves.
