(* ===== verification/EventLoopProps.v ===== *)
(** * The event loop: theorems

    What any run of the event loop does to the state it shares with other
    threads and with the kernel: the credits and the submissions. *)

From Stdlib Require Import ZArith Lia Ascii.
From stdpp Require Import base gmap strings list fin_maps.
From S2P Require Import Prelude Fp Config Buffers PicoHttp Rlp RpcMessage RpcMapper Queues LocalMap Stats Ingress Connection Moves Pool Http1 Http1Inv Http2 CreditQueue CreditQueueSpec CreditQueueProps World ExampleWorld State Forward EventLoop Evolution.

Open Scope Z_scope.

(** ** The calls of a run are steps of the queue

    The number of waiting entries, as the implementation counts it and as the
    specification does. *)
Section Calls.
Context {B : Type} (keys : list string).
Implicit Types (cq : CreditQueue B).

Lemma fold_lengths (m : gmap string (list B)) :
  map_fold (fun _ (v : list B) acc => Z.of_nat (length v) + acc) 0 m = Z.of_nat (length (level_entries m)).
Proof.
  rewrite map_fold_foldr. unfold level_entries. induction (map_to_list m) as [|[k v] l IH]; [done|].
  cbn. rewrite IH, length_app. lia.
Qed.

Lemma sizes_waiting cq : cq_wf keys cq -> sum_sizes (credit_queue cq) = Z.of_nat (length (waiting (abs cq))).
Proof.
  intros H. unfold waiting, abs. cbn [sp_levels]. pose proof (ci_inner _ _ _ _ H) as Hi.
  induction Hi as [|q l Hq _ IH]; [done|]. cbn. rewrite length_app, IH, (iw_size _ _ Hq).
  unfold backlog_of. rewrite fold_lengths. lia.
Qed.

Lemma call_step cq l cq' : cq_call cq l cq' ->
  sum_sizes (credit_queue cq) + Z.of_nat (length (pushes [l])) < 2 ^ 62 -> cq_step cq l cq'.
Proof. intros Hc. destruct Hc; cbn; intros; constructor; (done || lia). Qed.

(** Calls that push fewer than [2^62] entries are steps. *)
Lemma calls_steps cq ls cq' : cq_wf keys cq -> steps cq_call cq ls cq' ->
  sum_sizes (credit_queue cq) + Z.of_nat (length (pushes ls)) < 2 ^ 62 -> steps cq_step cq ls cq'.
Proof.
  intros H Hs. induction Hs as [|cq l cq1 ls cq2 Hl _ IH]; intros Hsz; [constructor|].
  unfold pushes in Hsz. rewrite (omap_cons_app _ l ls), length_app in Hsz. fold (pushes [l]) (pushes ls) in Hsz.
  assert (cq_step cq l cq1) as Hstep by (apply call_step; [done|lia]).
  destruct (step_refines keys _ _ _ H Hstep) as [H1 Hspec].
  econstructor; [exact Hstep|]. apply IH; [done|].
  pose proof (step_conserves _ _ _ Hspec) as Hc. apply Permutation_length in Hc. rewrite !length_app in Hc.
  rewrite (sizes_waiting cq) in Hsz by done. rewrite (sizes_waiting cq1) by done. lia.
Qed.
End Calls.

(** ** Runs *)

Section Runs.
Context `{Nghttp2} `{HdrHistogram} (c : Config) (fuel : nat) (m : simd).

(** A run over the completions [l], handled one after another: each does with
    credits what it is the cause of. [tr] is all they do, in order. *)
Inductive runs : World -> list Cqe -> list action -> World -> Prop :=
  | runs_nil w : runs w [] [] w
  | runs_cons w e tr w1 l tr' w2 : handle c fuel m e w = Ret tt w1 -> caused c e w tr -> steps act (view w) tr (view w1) ->
      runs w1 l tr' w2 -> runs w (e :: l) (tr ++ tr') w2.

(** The grants that left the queue, each with the datagram sent for it. *)
Definition passed (tr : list action) : list (Buffer * Buffer) := omap (fun a => match a with Pass o => o | _ => None end) tr.

Lemma passed_grants tr : grants (omap label_of tr) = (passed tr).*1.
Proof. induction tr as [|[] tr IH]; cbn; try done. destruct o as [[g b]|]; cbn; [by f_equal|done]. Qed.
Lemma passed_sent tr : (passed tr).*2 `sublist_of` concat (datagrams <$> tr).
Proof.
  induction tr as [|a tr IH]; [done|]. destruct a as [|[[g b]|]| | | | | |]; cbn; try done; by constructor.
Qed.
Lemma passed_stamped tr : Forall stamped tr -> Forall (fun x => exists t, stamp_queuing_time t x.1 = Ok x.2) (passed tr).
Proof.
  induction 1 as [|a tr Ha _ IH]; [constructor|]. destruct a as [|[[g b]|]| | | | | |]; cbn; try done. by constructor.
Qed.

Lemma run_explained l w w' : run_events c fuel m l w = Ret tt w' -> exists tr, runs w l tr w' /\ steps act (view w) tr (view w') /\ frame w w'.
Proof.
  unfold run_events. revert w. induction l as [|e l IH]; intros w Hrun; cbn [forM] in Hrun.
  - injection Hrun as <-. exists []. split; [constructor|]. split; [constructor|reflexivity].
  - pose proof (handle_caused c fuel m e w) as Hh. unfold mbind, M_bind in Hrun.
    destruct (handle c fuel m e w) as [[] w1| |] eqn:E; [|done|done]. destruct (IH w1 Hrun) as (tr' & Hr & Hs & Hf).
    destruct Hh as [(tr & Hs1 & Hc) Hf1]. exists (tr ++ tr'). split; [by econstructor|].
    split; [by eapply steps_app|by etrans].
Qed.

(** C2: whatever completions the kernel delivers, whatever the peers send and
    whatever nghttp2 answers, a run of the event loop does with credits what
    its completions are the cause of, in their order: a credit request is
    queued as its grant, once, a credit returned frees its slot, and either
    asks the queue for a grant to send; a grant received frees the slots of
    the callers of the requests it releases, or at an ingress only asks for
    the next credit; what streams carry asks for credits, takes slots and
    frees them; nothing else touches credits. A grant that leaves the queue is
    sent, stamped with the time it waited, and nothing but the datagrams of
    these actions is sent. As long as fewer than [2^62] entries are pushed,
    the queue stays well formed, the run is an execution of its specification,
    and no credit is lost or made up: those that waited and those pushed are
    those sent and those that still wait. *)
Theorem event_loop_refines_credits (l : list Cqe) (w w' : World) keys :
  cq_wf keys (w_credits w) -> run_events c fuel m l w = Ret tt w' ->
  exists tr, runs w l tr w' /\ sent w' = sent w ++ concat (datagrams <$> tr) /\
    (passed tr).*2 `sublist_of` concat (datagrams <$> tr) /\
    Forall (fun x => exists t, stamp_queuing_time t x.1 = Ok x.2) (passed tr) /\
    let ls := omap label_of tr in
    (sum_sizes (credit_queue (w_credits w)) + Z.of_nat (length (pushes ls)) < 2 ^ 62 ->
     cq_wf keys (w_credits w') /\ steps spec_step (abs (w_credits w)) ls (abs (w_credits w')) /\
     waiting (abs (w_credits w)) ++ pushes ls ≡ₚ (passed tr).*1 ++ waiting (abs (w_credits w'))).
Proof.
  intros Hwf Hrun. destruct (run_explained _ _ _ Hrun) as (tr & Hr & Hs & _). exists tr. split; [done|].
  split; [exact (act_datagrams _ _ _ Hs)|]. split; [apply passed_sent|].
  split; [by eapply passed_stamped, act_all_stamped|]. intros ls Hsz. pose proof (act_calls _ _ _ Hs) as Hls.
  destruct (trace_refines keys _ _ _ Hwf (calls_steps keys _ _ _ Hwf Hls Hsz)) as [Hwf' Hspec].
  split; [done|]. split; [done|]. rewrite <- passed_grants. by apply trace_conserves.
Qed.
End Runs.

Section Submissions.
Context `{Nghttp2} `{HdrHistogram}.

(** C12: every entry that the event loop submits to io_uring is well formed: its
    user data carries the operation that selects the handler of its
    completion, a live connection whose descriptor is the entry's own, and
    for a send the buffer whose filled part is sent. Connections keep their
    descriptor, address, type and direction, and none disappears from memory. *)
Theorem event_loop_submits_well_formed (c : Config) fuel m (l : list Cqe) (w w' : World) :
  Forall (sqe_ok (w_conns w)) (w_ring w) -> run_events c fuel m l w = Ret tt w' ->
  Forall (sqe_ok (w_conns w')) (w_ring w') /\ w_ring w `prefix_of` w_ring w' /\
  forall p x, w_conns w !! p = Some x -> exists x', w_conns w' !! p = Some x' /\ same_conn x x'.
Proof.
  intros Hr Hrun. destruct (run_explained _ _ _ _ _ _ Hrun) as (_ & _ & _ & [(new & -> & Hnew) Hk _]). split; [|split; [by eexists|exact Hk]].
  apply Forall_app. split; [|done]. eapply Forall_impl; [exact Hr|]. intros e. by apply sqe_ok_kept.
Qed.
End Submissions.

(** ** The life of a client's connection *)

Section Client.
Context `{Nghttp2} `{HdrHistogram} (c : Config) (fuel : nat) (m : simd) (t : ConnectionType).
Implicit Types (w : World) (ud : UserData).







End Client.

(** ** Example runs *)



(** A credit request arrives in a UDP buffer of the kernel's; then the send of
    its grant completes. *)
Definition request_datagram : Buffer :=
  mkBuffer (recvmsg_layout (mkAddr 167772161 9090) (replicate 8 0) (replicate 10 0) []
      (take 29 (data ex_request)) (replicate 32 0)) true true 0 255 0 2 zero_msg zero_addr.
Definition rcvmsg_world : World :=
  set_w_bm (mkBM 2 64 [None; None] [] [Some request_datagram; Some (buffer_make 256 3)] [3] (ex_uds 4) [] []) (ex_world 4).
Definition rcvmsg_ud : UserData := set_ud_op RCVMSG (user_data_make 9).
Definition rcvmsg_event : Cqe := mkCqe 61 (Some 2) (Some rcvmsg_ud).

Lemma rcvmsg_run : exists w', run_events ex_config 9 SSE42 [rcvmsg_event] rcvmsg_world = Ret tt w' /\ length (w_ring w') = 1%nat.
Proof.
  assert (match run_events ex_config 9 SSE42 [rcvmsg_event] rcvmsg_world with Ret _ w => length (w_ring w) | _ => 0%nat end = 1%nat)
    as Hl by by vm_compute.
  destruct (run_events ex_config 9 SSE42 [rcvmsg_event] rcvmsg_world) as [[] w'|e w'|f]; [|discriminate|discriminate].
  by exists w'.
Qed.

Lemma event_loop_refines_credits_witness : exists w' tr,
  run_events ex_config 9 SSE42 [rcvmsg_event] rcvmsg_world = Ret tt w' /\
  runs ex_config 9 SSE42 rcvmsg_world [rcvmsg_event] tr w' /\ sent w' = concat (datagrams <$> tr) /\
  (Z.of_nat (length (pushes (omap label_of tr))) < 2 ^ 62 -> cq_wf geo (w_credits w') /\
    pushes (omap label_of tr) ≡ₚ (passed tr).*1 ++ waiting (abs (w_credits w'))).
Proof.
  destruct rcvmsg_run as (w' & E & _).
  destruct (event_loop_refines_credits ex_config 9 SSE42 [rcvmsg_event] rcvmsg_world w' geo geo_credits_wf E)
    as (tr & Hr & Hs & _ & _ & Hq).
  exists w', tr. split; [exact E|]. split; [exact Hr|]. split; [exact Hs|]. intros Hl. destruct Hq as (Hwf & _ & Hp); [exact Hl|].
  split; [exact Hwf|]. cbn [rcvmsg_world ex_world w_credits set_w_bm] in Hp. by rewrite geo_credits_empty in Hp.
Defined.

Lemma event_loop_submits_well_formed_witness : exists w',
  run_events ex_config 9 SSE42 [rcvmsg_event] rcvmsg_world = Ret tt w' /\ length (w_ring w') = 1%nat /\
  Forall (sqe_ok (w_conns w')) (w_ring w').
Proof.
  destruct rcvmsg_run as (w' & E & Hl). exists w'. split; [exact E|]. split; [exact Hl|].
  apply (event_loop_submits_well_formed ex_config 9 SSE42 [rcvmsg_event] rcvmsg_world w'); [constructor|exact E].
Defined.
