(* ===== verification/Syscalls.v ===== *)
(** * System calls: the sockets, the ring, and the constructors that ask for them

    A constructor that talks to the operating system is a program that makes
    calls and goes on with their answers; a failed call is an answer too. The
    operating system is described by what a call does to the table of open
    descriptors. [src/connection.cc], [src/listener.cc], [src/ring_wrapper.cc]
    and the sockets of [State::State]. *)

From Stdlib Require Import ZArith Lia Ascii String.
From stdpp Require Import base gmap strings list fin_maps.
From S2P Require Import Prelude Fp Buffers RpcMessage Config LocalMap Connection Pool World ExampleWorld EventLoop.

Open Scope Z_scope.

(** ** Calls *)

Inductive sockopt := TCP_NODELAY | TCP_SYNCNT | SO_REUSEADDR | SO_REUSEPORT.
#[export] Instance sockopt_eq_dec : EqDecision sockopt.
Proof. solve_decision. Defined.

Definition EAGAIN : Z := 11.
Definition EALREADY : Z := 114.
Definition EINPROGRESS : Z := 115.
Definition O_NONBLOCK : Z := 2048.

(** The calls, of the system and of liburing, with the type of their answer. *)
Inductive syscall : Type -> Type :=
  | Socket (dgram nonblock : bool) : syscall Z
  | GetSoError (fd : Z) : syscall (Z * Z)
  | SetSockOpt (fd : Z) (o : sockopt) (v : Z) : syscall Z
  | GetFl (fd : Z) : syscall Z
  | SetFl (fd : Z) (flags : Z) : syscall Z
  | Bind (fd : Z) (a : Addr) : syscall Z
  | Listen (fd : Z) (backlog : Z) : syscall Z
  | Close (fd : Z) : syscall Z
  | GetAddrInfo (host : string) (service : list Z) : syscall (Z * Addr)
  | InetNtop (a : Addr) : syscall bool
  | FreeAddrInfo : syscall unit
  | SessionNew (server : bool) : syscall Z
  | QueueInit (entries : Z) : syscall Z
  | PageSize : syscall Z
  | MemAlign (align size : Z) : syscall Z
  | RegisterBufRing (entries bgid : Z) : syscall Z
  | BufRingInit (bgid : Z) : syscall unit
  (** head, tail and size of the two rings *)
  | RingPointers : syscall ((Z * Z * Z) * (Z * Z * Z))
  | SubmitAndWait (n : Z) : syscall Z
  | Submit : syscall Z
  | PeekCqe : syscall (Z * Cqe)
  (** whether there is a free entry *)
  | GetSqe : syscall bool.

(** ** Programs *)

Inductive prog (A : Type) : Type :=
  | Done (a : A)
  | Die (f : fault)
  | Call {R : Type} (c : syscall R) (k : R -> prog A).
Arguments Done {A} a.
Arguments Die {A} f.
Arguments Call {A R} c k.

Fixpoint prog_bind_ {A B} (f : A -> prog B) (p : prog A) : prog B :=
  match p with
  | Done a => f a
  | Die e => Die e
  | Call c k => Call c (fun r => prog_bind_ f (k r))
  end.
#[export] Instance prog_ret : MRet prog := fun A a => Done a.
#[export] Instance prog_bind : MBind prog := fun A B f p => prog_bind_ f p.

Definition call {R} (c : syscall R) : prog R := Call c (fun r => Done r).
Definition die_if (b : bool) : prog unit := if b then Die Fatal else Done tt.

(** ** The sockets of a connection *)

(** A socket whose pending error is not that of a connection in progress; the
    third dirty one is fatal. *)
Fixpoint clean_socket (fuel : nat) (retries : Z) : prog Z :=
  match fuel with
  | O => Die Hang
  | S fuel' =>
      fd ← call (Socket false true);
      _ ← die_if (fd <? 0);
      '(r, error) ← call (GetSoError fd);
      _ ← die_if (r <? 0);
      if (error =? EINPROGRESS) || (error =? EALREADY) then
        _ ← call (Close fd);
        _ ← die_if (2 <? retries + 1);
        clean_socket fuel' (retries + 1)
      else mret fd
  end.

Section Connections.
Context {S : Type}.

Definition open_upstream (host : string) (port : Z) (t : ConnectionType) (p : Proto S) :
    prog (Connection S) :=
  fd ← clean_socket 3 0;
  '(rv, a) ← call (GetAddrInfo host (print_decimal port));
  if negb (rv =? 0) then
    _ ← call (Close fd);
    Die Fatal
  else
    ok ← call (InetNtop a);
    _ ← die_if (negb ok);
    _ ← call FreeAddrInfo;
    r ← call (SetSockOpt fd TCP_NODELAY 1);
    _ ← die_if (r =? -1);
    r ← call (SetSockOpt fd TCP_SYNCNT 2);
    _ ← die_if (r =? -1);
    mret (upstream_conn fd a host port t p).

Definition open_downstream (fd : Z) (t : ConnectionType) (p : Proto S) : prog (Connection S) :=
  _ ← die_if (fd <? 0);
  flags ← call (GetFl fd);
  _ ← die_if (flags <? 0);
  r ← call (SetFl fd (Z.lor flags O_NONBLOCK));
  _ ← die_if (r <? 0);
  r ← call (SetSockOpt fd TCP_NODELAY 1);
  _ ← die_if (r =? -1);
  mret (downstream_conn fd t p).
End Connections.

Section Protocols.
Context `{Nghttp2}.

(** The constructors of the two classes, for each direction. *)
Definition http1_upstream (host : string) (port : Z) (t : ConnectionType) : prog (Connection session) :=
  open_upstream host port t (Proto1 h1_make).
Definition http1_downstream (fd : Z) (t : ConnectionType) : prog (Connection session) :=
  open_downstream fd t (Proto1 h1_make).
Definition http2_upstream (host : string) (port : Z) (t : ConnectionType) : prog (Connection session) :=
  x ← open_upstream host port t (Proto2 session_client_new);
  r ← call (SessionNew false);
  _ ← die_if (negb (r =? 0));
  mret x.
Definition http2_downstream (fd : Z) (t : ConnectionType) : prog (Connection session) :=
  x ← open_downstream fd t (Proto2 session_server_new);
  r ← call (SessionNew true);
  _ ← die_if (negb (r =? 0));
  mret x.
End Protocols.

(** ** Listeners and the socket of the datagrams *)

(** A port in network order. *)
Definition htons (port : Z) : Z := u8 port * 256 + port `div` 256.

Definition listener_make (port : Z) (t : ConnectionType) : prog Listener :=
  fd ← call (Socket false false);
  _ ← die_if (fd <? 0);
  r ← call (SetSockOpt fd SO_REUSEADDR 1);
  _ ← die_if (r <? 0);
  r ← call (SetSockOpt fd SO_REUSEPORT 1);
  _ ← die_if (r <? 0);
  r ← call (Bind fd (mkAddr 0 (htons port)));
  _ ← die_if (r <? 0);
  r ← call (Listen fd 300);
  _ ← die_if (r <? 0);
  mret (mkListener fd port t ∅).

Definition rlp_socket (c : Config) : prog Z :=
  fd ← call (Socket true false);
  _ ← die_if (fd <? 0);
  if negb (is_ingress c) then
    r ← call (SetSockOpt fd SO_REUSEPORT 1);
    _ ← die_if (r <? 0);
    r ← call (Bind fd (mkAddr 0 (htons (ingress_listener_port c))));
    _ ← die_if (r <? 0);
    mret fd
  else mret fd.

(** ** The ring *)

Definition SIZEOF_BUF_RING : Z := 16.

(** One of the two rings of provided buffers. *)
Definition register_ring (entries bgid : Z) : prog unit :=
  r ← call (RegisterBufRing (u32 entries) bgid);
  _ ← die_if (negb (r =? 0));
  call (BufRingInit bgid).

Definition ring_make (ring_size buffer_count : Z) : prog unit :=
  ret ← call (QueueInit (u32 ring_size));
  if ret <? 0 then Die (Throw RuntimeError)
  else
    page_size ← call PageSize;
    _ ← die_if (page_size <? 0);
    _ ← die_if (negb (Z.land buffer_count (u64 (buffer_count - 1)) =? 0));
    _ ← die_if (32 * 1024 * 1024 <? buffer_count);
    r ← call (MemAlign page_size (u64 (buffer_count * SIZEOF_BUF_RING)));
    _ ← die_if (negb (r =? 0));
    r ← call (MemAlign page_size (u64 (buffer_count * SIZEOF_BUF_RING)));
    _ ← die_if (negb (r =? 0));
    _ ← register_ring buffer_count 0;
    register_ring buffer_count 1.

Definition submit_and_wait : prog unit :=
  '((sq_head, sq_tail, sq_entries), (cq_head, cq_tail, cq_entries)) ← call RingPointers;
  _ ← die_if (sq_entries <? u32 (sq_tail - sq_head));
  _ ← die_if (cq_entries <? u32 (cq_tail - cq_head));
  ret ← call (SubmitAndWait 1);
  die_if (ret <? 0).

Definition submit : prog unit :=
  ret ← call Submit;
  die_if (ret <? 0).

Definition peek_cqe : prog (option Cqe) :=
  '(ret, cqe) ← call PeekCqe;
  if ret =? - EAGAIN then mret None
  else
    _ ← die_if (ret <? 0);
    mret (Some cqe).

(** An entry, zeroed. When the ring is full it is submitted, but the call
    stands in the message of a [VLOG(1)]: a verbosity [v] below one does not
    make it. *)
Definition get_sqe (v : Z) : prog unit :=
  ok ← call GetSqe;
  ok ← (if negb ok then _ ← (if 1 <=? v then _ ← call Submit; mret tt else mret tt); call GetSqe
        else mret true);
  die_if (negb ok).

(** ** The operating system

    A descriptor that is open has its status flags, the options set on it,
    and the address and backlog it was given. *)

Record Sock := mkSock {
  s_dgram : bool;
  s_flags : Z;
  s_opts : list (sockopt * Z);
  s_bound : option Addr;
  s_backlog : option Z
}.

Abbreviation Os := (gmap Z Sock).

Definition O_RDWR : Z := 2.
Definition fresh_sock (dgram nonblock : bool) : Sock :=
  mkSock dgram (if nonblock then Z.lor O_RDWR O_NONBLOCK else O_RDWR) [] None None.

(** What the system may answer: a new descriptor is one that is not open, and
    the flags of a descriptor are those it has. *)
Definition allowed {R} (c : syscall R) : R -> Os -> Prop :=
  match c in syscall R return R -> Os -> Prop with
  | Socket _ _ => fun r os => r < 0 \/ os !! r = None
  | GetFl fd => fun r os => r < 0 \/ exists s, os !! fd = Some s /\ r = s_flags s
  | SetSockOpt _ _ _ => fun r _ => r = 0 \/ r = -1
  | _ => fun _ _ => True
  end.

Definition on_sock (fd : Z) (f : Sock -> Sock) (os : Os) : option Os :=
  (fun s => <[fd := f s]> os) <$> os !! fd.

(** What a call does, given its answer; [None] when it names a descriptor
    that is not open. *)
Definition after {R} (c : syscall R) : R -> Os -> option Os :=
  match c in syscall R return R -> Os -> option Os with
  | Socket dgram nonblock => fun r os =>
      Some (if r <? 0 then os else <[r := fresh_sock dgram nonblock]> os)
  | GetSoError fd => fun _ os => on_sock fd id os
  | SetSockOpt fd o v => fun r os =>
      on_sock fd (fun s => if r =? 0
        then mkSock (s_dgram s) (s_flags s) ((o, v) :: s_opts s) (s_bound s) (s_backlog s) else s) os
  | GetFl fd => fun _ os => on_sock fd id os
  | SetFl fd flags => fun r os =>
      on_sock fd (fun s => if r <? 0 then s
        else mkSock (s_dgram s) flags (s_opts s) (s_bound s) (s_backlog s)) os
  | Bind fd a => fun r os =>
      on_sock fd (fun s => if r <? 0 then s
        else mkSock (s_dgram s) (s_flags s) (s_opts s) (Some a) (s_backlog s)) os
  | Listen fd n => fun r os =>
      on_sock fd (fun s => if r <? 0 then s
        else mkSock (s_dgram s) (s_flags s) (s_opts s) (s_bound s) (Some n)) os
  | Close fd => fun _ os => (fun _ => delete fd os) <$> os !! fd
  | _ => fun _ os => Some os
  end.

(** A call and its answer. *)
Inductive event :=
  | Ev (R : Type) (c : syscall R) (r : R).
Arguments Ev {R} c r.

(** [p] makes the calls of [tr], with the answers in it, and ends with [o]. *)
Fixpoint runs {A} (p : prog A) (tr : list event) (o : res A) : Prop :=
  match p with
  | Done a => tr = [] /\ o = Ok a
  | Die f => tr = [] /\ o = Err f
  | Call c k => exists r tr', tr = Ev c r :: tr' /\ runs (k r) tr' o
  end.

(** The answers are those of an operating system, whose descriptors are at
    first those of [os], then those of [os']. *)
Fixpoint serves (tr : list event) (os os' : Os) : Prop :=
  match tr with
  | [] => os' = os
  | Ev c r :: tr' => allowed c r os /\ exists os1, after c r os = Some os1 /\ serves tr' os1 os'
  end.

(** The answers of a system that keeps the law as far as the program names
    open descriptors. *)
Fixpoint lawful (tr : list event) (os : Os) : Prop :=
  match tr with
  | [] => True
  | Ev c r :: tr' => allowed c r os /\ forall os1, after c r os = Some os1 -> lawful tr' os1
  end.

(** ** Reasoning about programs: the weakest precondition *)

Fixpoint wp {A} (p : prog A) (Q : res A -> Os -> Prop) (os : Os) : Prop :=
  match p with
  | Done a => Q (Ok a) os
  | Die f => Q (Err f) os
  | Call c k => forall r, allowed c r os -> exists os1, after c r os = Some os1 /\ wp (k r) Q os1
  end.

Lemma wp_sound {A} (p : prog A) Q tr o : forall os, wp p Q os -> runs p tr o -> lawful tr os ->
  exists os', serves tr os os' /\ Q o os'.
Proof.
  revert tr. induction p as [a|f|R c k IH]; intros tr os Hwp Hrun Hlaw; cbn in *.
  - destruct Hrun as (-> & ->). by exists os.
  - destruct Hrun as (-> & ->). by exists os.
  - destruct Hrun as (r & tr' & -> & Hrun). destruct Hlaw as (Hr & Hlaw).
    destruct (Hwp r Hr) as (os1 & Ha & Hk).
    destruct (IH r tr' os1 Hk Hrun (Hlaw _ Ha)) as (os' & Hs & HQ).
    exists os'. split; [|done]. split; [done|]. by exists os1.
Qed.

Lemma wp_mono {A} (p : prog A) (Q Q' : res A -> Os -> Prop) : (forall o os, Q o os -> Q' o os) ->
  forall os, wp p Q os -> wp p Q' os.
Proof.
  intros HQ. induction p as [a|f|R c k IH]; cbn; intros os H; [by apply HQ..|].
  intros r Hr. destruct (H r Hr) as (os1 & ? & ?). exists os1. split; [done|]. by apply IH.
Qed.

Lemma wp_bind {A B} (p : prog A) (f : A -> prog B) Q : forall os,
  wp p (fun o os' => match o with Ok a => wp (f a) Q os' | Err e => Q (Err e) os' end) os ->
  wp (p ≫= f) Q os.
Proof.
  induction p as [a|e|R c k IH]; cbn; intros os H; [done..|].
  intros r Hr. destruct (H r Hr) as (os1 & ? & ?). exists os1. split; [done|]. by apply IH.
Qed.

Lemma wp_call {R} (c : syscall R) Q os :
  (forall r, allowed c r os -> exists os1, after c r os = Some os1 /\ Q (Ok r) os1) -> wp (call c) Q os.
Proof. done. Qed.

Lemma wp_call_bind {R A} (c : syscall R) (k : R -> prog A) Q os :
  (forall r, allowed c r os -> exists os1, after c r os = Some os1 /\ wp (k r) Q os1) ->
  wp (call c ≫= k) Q os.
Proof. done. Qed.

Lemma wp_die_bind {A} b (k : unit -> prog A) Q os :
  (b = true -> Q (Err Fatal) os) -> (b = false -> wp (k tt) Q os) -> wp (die_if b ≫= k) Q os.
Proof. intros Ht Hf. destruct b; [by apply Ht|by apply Hf]. Qed.

Lemma wp_fatal_bind {A} (k : unit -> prog A) (Q : res A -> Os -> Prop) b os :
  (forall os', Q (Err Fatal) os') -> (b = false -> wp (k tt) Q os) -> wp (die_if b ≫= k) Q os.
Proof. intros. by apply wp_die_bind. Qed.

Lemma on_sock_insert fd s f (os : Os) : on_sock fd f (<[fd := s]> os) = Some (<[fd := f s]> os).
Proof. unfold on_sock. rewrite lookup_insert_eq. simpl. by rewrite insert_insert_eq. Qed.

(** ** What a program makes

    The sockets it leaves open beyond those there were, in order. *)

Inductive grows : Os -> list (Z * Sock) -> Os -> Prop :=
  | grows_nil os : grows os [] os
  | grows_cons os fd s l os' : 0 <= fd -> os !! fd = None ->
      grows (<[fd := s]> os) l os' -> grows os ((fd, s) :: l) os'.

Lemma grows_app os1 l1 os2 l2 os3 : grows os1 l1 os2 -> grows os2 l2 os3 -> grows os1 (l1 ++ l2) os3.
Proof. induction 1; intros; simpl; [done|]. constructor; auto. Qed.

Lemma grows_one fd s os : 0 <= fd -> os !! fd = None -> grows os [(fd, s)] (<[fd := s]> os).
Proof. repeat (constructor; try done). Qed.

Lemma grows_other os l os' fd : grows os l os' -> ~ (os !! fd = None) -> (fd ∉ l.*1) /\ (os' !! fd = os !! fd).
Proof.
  induction 1 as [os|os fd' s l os' H0 Hn _ IH]; intros Hfd; [split; [by intros ?%elem_of_nil|done]|].
  assert (fd <> fd') as Hne by congruence.
  rewrite lookup_insert_ne in IH by congruence. destruct (IH Hfd) as (Hin & E).
  split; [|done]. simpl. by intros [?|?]%elem_of_cons.
Qed.

Lemma grows_spec os l os' : grows os l os' ->
  NoDup l.*1 /\ Forall (fun fd => 0 <= fd /\ os !! fd = None) l.*1 /\
  (forall fd s, (fd, s) ∈ l -> os' !! fd = Some s) /\
  (forall fd, fd ∉ l.*1 -> os' !! fd = os !! fd).
Proof.
  induction 1 as [os|os fd s l os' H0 Hn Hg (IHd & IHf & IHs & IHo)].
  { split_and!; [constructor|constructor|by intros ?? ?%elem_of_nil|done]. }
  destruct (grows_other _ _ _ fd Hg) as (Hin & E); [by rewrite lookup_insert_eq|].
  rewrite lookup_insert_eq in E. split_and!.
  - by constructor.
  - constructor; [done|]. rewrite Forall_forall in IHf |- *. intros fd' Hfd'.
    destruct (IHf fd' Hfd') as (? & Hn'). apply lookup_insert_None in Hn' as [??]. done.
  - intros fd' s' [[= -> ->]|?]%elem_of_cons; [done|by apply IHs].
  - simpl. intros fd' Hfd'. rewrite IHo by set_solver. rewrite lookup_insert_ne by set_solver. done.
Qed.

(** [p] ends, with a value and new sockets as [P] says, or in a failure that
    the process reports. *)
Definition made {A} (P : A -> list (Z * Sock) -> Prop) (os : Os) (o : res A) (os' : Os) : Prop :=
  match o with
  | Ok a => exists l, grows os l os' /\ P a l
  | Err Hang | Err Undefined => False
  | Err _ => True
  end.
Definition makes {A} (p : prog A) (P : A -> list (Z * Sock) -> Prop) : Prop :=
  forall os, wp p (made P os) os.

Lemma makes_ret {A} (a : A) (P : A -> list (Z * Sock) -> Prop) : P a [] -> makes (mret a) P.
Proof. intros HP os. exists []. split; [constructor|done]. Qed.

Lemma makes_bind {A B} (p : prog A) (f : A -> prog B) P Q : makes p P ->
  (forall a l, P a l -> makes (f a) (fun b l' => Q b (l ++ l'))) -> makes (p ≫= f) Q.
Proof.
  intros Hp Hf os. apply wp_bind. eapply wp_mono; [|apply Hp].
  intros [a|[| | |]] os'; simpl; try done. intros (l & Hg & HP).
  eapply wp_mono; [|by apply (Hf a l HP)].
  intros [b|[| | |]] os2; simpl; try done. intros (l2 & Hg2 & HQ).
  exists (l ++ l2). split; [by eapply grows_app|done].
Qed.

Lemma makes_call {R} (c : syscall R) P : (forall r os, after c r os = Some os) ->
  (forall r, P r []) -> makes (call c) P.
Proof. intros Ha HP os r _. exists os. split; [apply Ha|]. exists []. split; [constructor|apply HP]. Qed.

Lemma makes_die_if b (P : unit -> list (Z * Sock) -> Prop) : (b = false -> P tt []) -> makes (die_if b) P.
Proof. destruct b; intros HP os; simpl; [done|]. exists []. split; [constructor|by apply HP]. Qed.

Lemma makes_mono {A} (p : prog A) (P Q : A -> list (Z * Sock) -> Prop) :
  (forall a l, P a l -> Q a l) -> makes p P -> makes p Q.
Proof.
  intros HPQ Hp os. eapply wp_mono; [|apply Hp]. intros [a|[| | |]] os'; simpl; naive_solver.
Qed.

(** ** The constructors *)

Definition upstream_sock : Sock :=
  mkSock false (Z.lor O_RDWR O_NONBLOCK) [(TCP_SYNCNT, 2); (TCP_NODELAY, 1)] None None.
Definition listener_sock (port : Z) : Sock :=
  mkSock false O_RDWR [(SO_REUSEPORT, 1); (SO_REUSEADDR, 1)] (Some (mkAddr 0 (htons port))) (Some 300).
Definition rlp_sock (c : Config) : Sock :=
  if is_ingress c then fresh_sock true false
  else mkSock true O_RDWR [(SO_REUSEPORT, 1)] (Some (mkAddr 0 (htons (ingress_listener_port c)))) None.

(** A check that must fail for the program to go on. *)
Ltac wp_die := apply wp_fatal_bind;
  [done|let E := fresh "E" in intros E; rewrite ?E; try apply Z.ltb_ge in E].

Lemma clean_socket_wp n : forall retries (Q : res Z -> Os -> Prop) os,
  0 <= retries <= 2 -> 3 <= retries + Z.of_nat n ->
  (forall fd, 0 <= fd -> os !! fd = None -> Q (Ok fd) (<[fd := fresh_sock false true]> os)) ->
  (forall os', Q (Err Fatal) os') -> wp (clean_socket n retries) Q os.
Proof.
  induction n as [|n IH]; intros retries Q os Hr Hn Hok Hfatal; [lia|]. cbn [clean_socket].
  apply wp_call_bind. intros fd Hfd. eexists. split; [reflexivity|]. cbn [allowed] in Hfd.
  wp_die. destruct Hfd as [|Hfd]; [lia|].
  apply wp_call_bind. intros [r e] _. cbn [after]. rewrite on_sock_insert. eexists. split; [reflexivity|].
  unfold id. wp_die. destruct ((e =? EINPROGRESS) || (e =? EALREADY)).
  - apply wp_call_bind. intros r' _. cbn [after]. rewrite lookup_insert_eq. eexists. split; [reflexivity|].
    wp_die. rewrite delete_insert_id by done. apply IH; try done; lia.
  - by apply Hok.
Qed.

Section MakesUpstream.
Context {S : Type}.

Lemma open_upstream_makes host port t (p : Proto S) :
  makes (open_upstream host port t p) (fun x l => exists a fd,
    x = upstream_conn fd a host port t p /\ l = [(fd, upstream_sock)]).
Proof.
  intros os. unfold open_upstream. apply wp_bind, clean_socket_wp; [lia|lia| |done].
  intros fd H0 Hn. apply wp_call_bind. intros [rv a] _. eexists. split; [reflexivity|].
  destruct (negb (rv =? 0)).
  { apply wp_call_bind. intros r _. cbn [after]. rewrite lookup_insert_eq. eexists. by split. }
  apply wp_call_bind. intros ok _. eexists. split; [reflexivity|]. wp_die.
  apply wp_call_bind. intros u _. eexists. split; [reflexivity|].
  apply wp_call_bind. intros r Hr. cbn [after]. rewrite on_sock_insert. eexists. split; [reflexivity|].
  wp_die. destruct Hr as [->| ->]; [|done].
  apply wp_call_bind. intros r Hr. cbn [after]. rewrite on_sock_insert. eexists. split; [reflexivity|].
  wp_die. destruct Hr as [->| ->]; [|done].
  exists [(fd, upstream_sock)]. split; [by apply grows_one|]. by exists a, fd.
Qed.
End MakesUpstream.

(** An accepted descriptor ends non-blocking, without Nagle's delay, its
    other flags kept. *)
Lemma open_downstream_wp {S} fd t (p : Proto S) s os : os !! fd = Some s ->
  wp (open_downstream fd t p) (fun o os' => match o with
    | Ok x => x = downstream_conn fd t p /\ os' = <[fd := mkSock (s_dgram s) (Z.lor (s_flags s) O_NONBLOCK)
        ((TCP_NODELAY, 1) :: s_opts s) (s_bound s) (s_backlog s)]> os
    | Err Fatal => True | _ => False end) os.
Proof.
  intros Hs. unfold open_downstream. wp_die.
  rewrite <- (insert_id os fd s) by done.
  apply wp_call_bind. intros flags Hf. cbn [after]. rewrite on_sock_insert. eexists. split; [reflexivity|].
  unfold id. wp_die. destruct Hf as [|(s' & Hs' & ->)]; [lia|].
  rewrite lookup_insert_eq in Hs'. injection Hs' as <-.
  apply wp_call_bind. intros r _. cbn [after]. rewrite on_sock_insert. eexists. split; [reflexivity|]. wp_die.
  apply wp_call_bind. intros r' Hr'. cbn [after]. rewrite on_sock_insert. eexists. split; [reflexivity|].
  wp_die. destruct Hr' as [->| ->]; [|done]. split; [done|]. by rewrite insert_insert_eq.
Qed.

Section MakesProtocols.
Context `{Nghttp2}.

Definition open_http (k : HTTP) (host : string) (port : Z) (t : ConnectionType) : prog (Connection session) :=
  match k with HTTP1 => http1_upstream host port t | HTTP2 => http2_upstream host port t end.

(** A fresh connection, and its socket. *)
Definition fresh_conn (host : string) (port : Z) (t : ConnectionType) (k : HTTP)
    (x : Connection session) (fs : Z * Sock) : Prop :=
  exists a, fs = (c_fd x, upstream_sock) /\
    x = upstream_conn (c_fd x) a host port t
      (match k with HTTP1 => Proto1 h1_make | HTTP2 => Proto2 session_client_new end).

Lemma open_http_makes k host port t :
  makes (open_http k host port t) (fun x l => exists fs, l = [fs] /\ fresh_conn host port t k x fs).
Proof.
  destruct k; unfold open_http, http1_upstream, http2_upstream.
  - eapply makes_mono; [|apply open_upstream_makes].
    intros x l (a & fd & -> & ->). eexists. split; [done|]. by exists a.
  - eapply makes_bind; [apply open_upstream_makes|]. intros x l (a & fd & -> & ->).
    eapply makes_bind; [apply (makes_call _ (fun _ l' => l' = [])); done|]. intros r l ->.
    eapply makes_bind; [apply (makes_die_if _ (fun _ l' => l' = [])); done|]. intros [] l ->.
    apply makes_ret. eexists. split; [done|]. by exists a.
Qed.

(** ** The descriptors of a thread

    In the order of the constructors of [EventLoop] and [State]. *)

Fixpoint open_n (n : nat) (k : HTTP) (host : string) (port : Z) (t : ConnectionType) :
    prog (list (Connection session)) :=
  match n with
  | O => mret []
  | S n' => x ← open_http k host port t; xs ← open_n n' k host port t; mret (x :: xs)
  end.

Context (c : Config).

Definition pool_connections (n : option Z) : prog Z :=
  match n with Some n => mret n | None => Die (Throw BadOptionalAccess) end.

Fixpoint open_routes (routes : list (string * RoutingEntry)) : prog (list (Connection session)) :=
  match routes with
  | [] => mret []
  | (svc, info) :: routes' =>
      n ← (if is_ingress c then pool_connections (ingress_pool_connections c) else mret 1);
      xs ← open_n (Z.to_nat n) (if is_ingress c then HTTP1 else HTTP2)
             (up_host (upstream info)) (wrap 16 (up_port (upstream info))) EGRESS;
      ys ← open_routes routes';
      mret (xs ++ ys)
  end.

Definition open_ingress_pool : prog (list (Connection session)) :=
  n ← (if is_frontend c then pool_connections (frontend_pool_connections c)
       else mret (if is_ingress c then 0 else 1));
  open_n (Z.to_nat n) (if is_ingress c || is_frontend c then HTTP1 else HTTP2)
    (ingress_upstream_host c) (ingress_upstream_port c) INGRESS.

Definition of_res {A} (r : res A) : prog A := match r with Ok a => Done a | Err f => Die f end.

Record ThreadSockets := mkThreadSockets {
  ts_conns : list (Connection session);
  ts_rlp : Z;
  ts_egress : Listener;
  ts_ingress : Listener
}.

Definition thread_sockets (svc : string) : prog ThreadSockets :=
  _ ← ring_make (ring_size c) (buffer_count c);
  xs ← open_routes (map_to_list (routing c));
  ys ← open_ingress_pool;
  fd ← rlp_socket c;
  port ← of_res (egress_port c svc);
  e ← listener_make port EGRESS;
  i ← listener_make (ingress_listener_port c) INGRESS;
  mret (mkThreadSockets (xs ++ ys) fd e i).
End MakesProtocols.

Lemma listener_makes port t :
  makes (listener_make port t) (fun x l =>
    l = [(lis_fd x, listener_sock port)] /\ x = mkListener (lis_fd x) port t ∅).
Proof.
  intros os. unfold listener_make.
  apply wp_call_bind. intros fd Hfd. eexists. split; [reflexivity|]. cbn [allowed] in Hfd.
  wp_die. destruct Hfd as [|Hfd]; [lia|].
  do 2 (apply wp_call_bind; intros ? [->| ->]; cbn [after]; rewrite on_sock_insert;
    (eexists; split; [reflexivity|]); wp_die; [|done]).
  do 2 (apply wp_call_bind; intros ? _; cbn [after]; rewrite on_sock_insert;
    (eexists; split; [reflexivity|]); wp_die).
  exists [(fd, listener_sock port)]. split; [by apply grows_one|done].
Qed.

Lemma rlp_makes c : makes (rlp_socket c) (fun fd l => l = [(fd, rlp_sock c)]).
Proof.
  intros os. unfold rlp_socket, rlp_sock.
  apply wp_call_bind. intros fd Hfd. eexists. split; [reflexivity|]. cbn [allowed] in Hfd.
  wp_die. destruct Hfd as [|Hfd]; [lia|].
  destruct (is_ingress c); cbn [negb].
  { eexists. split; [by apply grows_one|done]. }
  apply wp_call_bind. intros ? [->| ->]; cbn [after]; rewrite on_sock_insert;
    (eexists; split; [reflexivity|]); wp_die; [|done].
  apply wp_call_bind. intros ? _; cbn [after]; rewrite on_sock_insert;
    (eexists; split; [reflexivity|]); wp_die.
  eexists. split; [by apply grows_one|done].
Qed.

(** Nothing of what the ring asks for is a descriptor of a socket. *)
Definition no_sock {A} : A -> list (Z * Sock) -> Prop := fun _ l => l = [].

Ltac no_socks :=
  repeat match goal with
    | |- makes (call _ ≫= _) _ =>
        apply (makes_bind _ _ no_sock); [by apply makes_call|intros ? ? ->; cbn [app]]
    | |- makes (die_if _ ≫= _) _ =>
        apply (makes_bind _ _ no_sock); [by apply makes_die_if|intros ? ? ->; cbn [app]]
    | |- makes (call _) _ => by apply makes_call
    | |- makes (if ?b then Die _ else _) _ => destruct b; [by intros os|]
    end.

Lemma register_ring_makes entries bgid : makes (register_ring entries bgid) no_sock.
Proof. unfold register_ring. no_socks. Qed.

Lemma ring_makes entries count : makes (ring_make entries count) no_sock.
Proof.
  unfold ring_make. no_socks.
  eapply makes_bind; [apply register_ring_makes|]. intros ? ? ->. apply register_ring_makes.
Qed.

(** The law, decided. *)
Definition allowed_b {R} (c : syscall R) : R -> Os -> bool :=
  match c in syscall R return R -> Os -> bool with
  | Socket _ _ => fun r os => (r <? 0) || bool_decide (os !! r = None)
  | GetFl fd => fun r os =>
      (r <? 0) || match os !! fd with Some s => r =? s_flags s | None => false end
  | SetSockOpt _ _ _ => fun r _ => (r =? 0) || (r =? -1)
  | _ => fun _ _ => true
  end.

Lemma allowed_b_spec {R} (c : syscall R) r os : allowed_b c r os = true -> allowed c r os.
Proof.
  destruct c; try done; simpl; intros [E|E]%orb_true_iff.
  - left. by apply Z.ltb_lt.
  - right. by apply bool_decide_eq_true in E.
  - left. by apply Z.eqb_eq.
  - right. by apply Z.eqb_eq.
  - left. by apply Z.ltb_lt.
  - right. destruct (os !! fd) as [s|]; [|done]. exists s. split; [done|]. by apply Z.eqb_eq.
Qed.

(** The run of a program on a system that answers from its state. *)
Fixpoint run_on {A} (answer : forall R, syscall R -> Os -> R) (p : prog A) (os : Os) :
    option (list event * res A * Os) :=
  match p with
  | Done a => Some ([], Ok a, os)
  | Die f => Some ([], Err f, os)
  | Call c k =>
      let r := answer _ c os in
      if allowed_b c r os then
        os1 ← after c r os;
        '(tr, o, os') ← run_on answer (k r) os1;
        Some (Ev c r :: tr, o, os')
      else None
  end.

Lemma run_on_spec {A} answer (p : prog A) : forall os tr o os',
  run_on answer p os = Some (tr, o, os') -> runs p tr o /\ lawful tr os.
Proof.
  induction p as [a|f|R c k IH]; intros os tr o os' E; cbn [run_on] in E.
  - by injection E as <- <- <-.
  - by injection E as <- <- <-.
  - destruct (allowed_b c (answer R c os) os) eqn:Ea; [|done]. apply allowed_b_spec in Ea.
    destruct (after c (answer R c os) os) as [os1|] eqn:E1; [|done]. cbn [mbind option_bind] in E.
    destruct (run_on answer (k (answer R c os)) os1) as [[[tr1 o1] os2]|] eqn:E2; [|done].
    injection E as <- <- <-. destruct (IH _ _ _ _ _ E2) as (Hr & Hl). split; [by eexists _, _|].
    cbn [lawful]. split; [done|]. intros os3 E3. by assert (os3 = os1) as -> by congruence.
Qed.

Section ThreadSockets.
Context `{Nghttp2} (c : Config).

Definition conn_socks (xs : list (Connection session)) : list (Z * Sock) :=
  (fun x => (c_fd x, upstream_sock)) <$> xs.
Definition pending (x : Connection session) : Prop := c_status x = DOWN /\ c_direction x = UPSTREAM.

Lemma open_n_makes n k host port t : makes (open_n n k host port t)
  (fun xs l => l = conn_socks xs /\ length xs = n /\ Forall pending xs).
Proof.
  induction n as [|n IH]; cbn [open_n]; [by apply makes_ret|].
  eapply makes_bind; [apply open_http_makes|]. intros x l (fs & -> & a & -> & Ex).
  eapply makes_bind; [exact IH|]. intros xs l (-> & Hn & Hp). apply makes_ret.
  rewrite app_nil_r. split; [done|]. split; [simpl; by rewrite Hn|].
  constructor; [|done]. unfold pending. by rewrite Ex.
Qed.

Lemma pool_connections_makes n : makes (pool_connections n) (fun _ l => l = []).
Proof. destruct n; [by apply makes_ret|by intros os]. Qed.

Lemma open_routes_makes routes : makes (open_routes c routes) (fun xs l => l = conn_socks xs /\ Forall pending xs).
Proof.
  induction routes as [|[svc info] routes IH]; cbn [open_routes]; [by apply makes_ret|].
  apply (makes_bind _ _ (fun _ l => l = [])); [destruct (is_ingress c); [apply pool_connections_makes|by apply makes_ret]|].
  intros n l ->. eapply makes_bind; [apply open_n_makes|]. intros xs l (-> & _ & Hx).
  eapply makes_bind; [exact IH|]. intros ys l (-> & Hy). apply makes_ret. simpl.
  rewrite app_nil_r. unfold conn_socks. rewrite fmap_app. split; [done|]. by apply Forall_app.
Qed.

Lemma open_ingress_pool_makes : makes (open_ingress_pool c) (fun xs l => l = conn_socks xs /\ Forall pending xs).
Proof.
  unfold open_ingress_pool.
  apply (makes_bind _ _ (fun _ l => l = [])); [destruct (is_frontend c); [apply pool_connections_makes|by apply makes_ret]|].
  intros n l ->. eapply makes_mono; [|apply open_n_makes]. by intros xs l (-> & _ & ?).
Qed.

Lemma egress_port_makes svc : makes (of_res (egress_port c svc)) (fun _ l => l = []).
Proof.
  unfold egress_port. destruct (is_ingress c); [|by apply makes_ret].
  destruct (mapping c !! svc) as [e|]; [|by intros os]. simpl.
  destruct (value_or (listen_port e) 0 =? 0); [by intros os|by apply makes_ret].
Qed.

(** The sockets of a thread that started. *)
Definition socks_of (ts : ThreadSockets) : list (Z * Sock) :=
  conn_socks (ts_conns ts) ++ [(ts_rlp ts, rlp_sock c);
    (lis_fd (ts_egress ts), listener_sock (lis_port (ts_egress ts)));
    (lis_fd (ts_ingress ts), listener_sock (ingress_listener_port c))].

Lemma thread_sockets_makes svc : makes (thread_sockets c svc) (fun ts l =>
  l = socks_of ts /\ Forall pending (ts_conns ts)).
Proof.
  unfold thread_sockets. eapply makes_bind; [apply ring_makes|]. intros [] l ->.
  eapply makes_bind; [apply open_routes_makes|]. intros xs l (-> & Hx).
  eapply makes_bind; [apply open_ingress_pool_makes|]. intros ys l (-> & Hy).
  eapply makes_bind; [apply rlp_makes|]. intros fd l ->.
  eapply makes_bind; [apply egress_port_makes|]. intros port l ->.
  eapply makes_bind; [apply listener_makes|]. intros e l (-> & Ee).
  eapply makes_bind; [apply listener_makes|]. intros i l (-> & Ei).
  apply makes_ret. unfold socks_of, conn_socks. cbn [ts_conns ts_rlp ts_egress ts_ingress].
  assert (lis_port e = port) as -> by (by rewrite Ee).
  rewrite fmap_app. simpl. rewrite <- (assoc_L (++)). split; [done|]. by apply Forall_app.
Qed.

(** C26: a thread that starts has exactly the sockets it needs. Whatever the
    operating system answers, dirty sockets, failed lookups and failed
    options included, the constructors of a thread end, name no descriptor
    that is not open, and either stop the process with a report or leave
    open, besides those there were, one descriptor for each connection, all
    distinct: the connections non-blocking, without Nagle's delay and with
    two SYN retries, the listeners bound and listening, the socket of the
    datagrams bound to the port of the mesh or, at an ingress, to none. *)
Theorem thread_sockets_accounted svc tr o os :
  runs (thread_sockets c svc) tr o -> lawful tr os ->
  exists os', serves tr os os' /\
  match o with
  | Ok ts =>
      let fds := (socks_of ts).*1 in
      NoDup fds /\ Forall (fun fd => 0 <= fd /\ os !! fd = None) fds /\
      (forall fd s, (fd, s) ∈ socks_of ts -> os' !! fd = Some s) /\
      (forall fd, fd ∉ fds -> os' !! fd = os !! fd) /\
      Forall pending (ts_conns ts)
  | Err Hang | Err Undefined => False
  | Err _ => True
  end.
Proof.
  intros Hrun Hlaw. destruct (wp_sound _ _ tr o os (thread_sockets_makes svc os) Hrun Hlaw) as (os' & Hs & Hm).
  exists os'. split; [done|]. destruct o as [ts|[| | |]]; try done.
  destruct Hm as (l & Hg & -> & Hp). apply grows_spec in Hg as (? & ? & ? & ?). by split_and!.
Qed.
End ThreadSockets.

(** A small operating system where every call succeeds; the next descriptor
    is the number of open ones and three more. *)
Definition toy_os (R : Type) (c : syscall R) : Os -> R :=
  match c in syscall R return Os -> R with
  | Socket _ _ => fun os => Z.of_nat (size os) + 3
  | GetSoError _ => fun _ => (0, 0)
  | GetFl fd => fun os => match os !! fd with Some s => s_flags s | None => -1 end
  | GetAddrInfo _ _ => fun _ => (0, mkAddr 16777343 20480)
  | InetNtop _ => fun _ => true
  | FreeAddrInfo | BufRingInit _ => fun _ => tt
  | PageSize => fun _ => 4096
  | RingPointers => fun _ => ((0, 0, 1), (0, 0, 1))
  | PeekCqe => fun _ => (- EAGAIN, mkCqe 0 None None)
  | GetSqe => fun _ => true
  | SetSockOpt _ _ _ | SetFl _ _ | Bind _ _ | Listen _ _ | Close _ | SessionNew _ | QueueInit _
  | MemAlign _ _ | RegisterBufRing _ _ | SubmitAndWait _ | Submit => fun _ => 0
  end.

Definition route_config : Config := mkConfig 64 16 4096 1 8080 9090 "127.0.0.1" 8000 "leaf"
  {["geo"%string := mkRoutingEntry (mkUpstream "geo-host" 8443) None None]} ∅
  false false false None None (Some 4) (Some (f32_of_Z 0)) 0
  default_aimd_err_d default_aimd_err_i default_aimd_adj_d default_aimd_adj_i default_safe_multiply.

Definition thread_run : list event * res ThreadSockets * Os :=
  default ([], Err Hang, ∅) (run_on toy_os (thread_sockets route_config "") ∅).

Lemma thread_run_runs :
  runs (thread_sockets route_config "") thread_run.1.1 thread_run.1.2 /\ lawful thread_run.1.1 ∅.
Proof.
  unfold thread_run. destruct (run_on toy_os (thread_sockets route_config "") ∅) as [[[tr o] os']|] eqn:E.
  - exact (run_on_spec _ _ _ _ _ _ E).
  - assert (is_Some (run_on toy_os (thread_sockets route_config "") ∅)) as [? E']
      by (apply (bool_decide_unpack _); vm_compute; exact I). congruence.
Qed.

Lemma thread_sockets_accounted_witness : exists os',
  serves thread_run.1.1 ∅ os' /\
  match thread_run.1.2 with Ok ts => (socks_of route_config ts).*1 | _ => [] end = [3; 4; 5; 6; 7].
Proof.
  destruct thread_run_runs as (Hr & Hl).
  destruct (thread_sockets_accounted route_config "" thread_run.1.1 thread_run.1.2 ∅ Hr Hl) as (os' & Hs & _).
  exists os'. split; [exact Hs|]. vm_compute. reflexivity.
Defined.

(** ** The ring of submissions *)

(** liburing gives an entry only while fewer than [entries] wait to be
    submitted; [n] of them do at first. *)
Fixpoint sq_lawful (entries : Z) (tr : list event) (n : Z) : Prop :=
  match tr with
  | [] => True
  | Ev c r :: tr' =>
      match c in syscall R return R -> Prop with
      | GetSqe => fun ok => if (ok : bool) then n < entries /\ sq_lawful entries tr' (n + 1) else sq_lawful entries tr' n
      | Submit | SubmitAndWait _ => fun _ => sq_lawful entries tr' 0
      | _ => fun _ => sq_lawful entries tr' n
      end r
  end.

(** [n] operations prepared one after the other. *)
Fixpoint get_sqes (n : nat) (v : Z) : prog unit :=
  match n with O => mret tt | S n' => _ ← get_sqe v; get_sqes n' v end.

(** C27: a full ring is not submitted but ends the process. [get_sqe] means to
    submit a full ring and go on, but the submission stands in a message that
    is only evaluated at verbosity one: below that, a thread that prepares
    more operations than the ring has entries, before it next waits, aborts.
    A thread prepares one for each of its connections before it waits for the
    first time. *)
Theorem full_ring_aborts entries n v tr o u :
  v < 1 -> 0 <= u <= entries -> entries - u < Z.of_nat n ->
  runs (get_sqes n v) tr o -> sq_lawful entries tr u -> o = Err Fatal.
Proof.
  intros Hv. revert tr u. induction n as [|n IH]; intros tr u Hu Hn Hrun Hlaw; [lia|].
  cbn in Hrun. destruct Hrun as (ok & tr1 & -> & Hrun). cbn in Hlaw.
  rewrite (proj2 (Z.leb_gt _ _)) in Hrun by lia. destruct ok; cbn in Hrun.
  - destruct Hlaw as (Hlt & Hlaw). apply (IH tr1 (u + 1)); [lia|lia|exact Hrun|exact Hlaw].
  - destruct Hrun as (ok & tr2 & -> & Hrun). cbn in Hlaw. destruct ok; cbn in Hrun.
    + destruct Hlaw as (Hlt & Hlaw). apply (IH tr2 (u + 1)); [lia|lia|exact Hrun|exact Hlaw].
    + apply Hrun.
Qed.

Lemma full_ring_aborts_witness : exists tr o,
  runs (get_sqes 2 0) tr o /\ sq_lawful 1 tr 0 /\ o = Err Fatal.
Proof.
  exists [Ev GetSqe true; Ev GetSqe false; Ev GetSqe false], (Err Fatal).
  assert (runs (get_sqes 2 0) [Ev GetSqe true; Ev GetSqe false; Ev GetSqe false] (Err Fatal)) as Hr.
  { cbn. exists true. eexists. split; [reflexivity|]. exists false. eexists. split; [reflexivity|].
    exists false. eexists. split; [reflexivity|]. by split. }
  split; [exact Hr|]. split; [by cbn|]. 
  apply (full_ring_aborts 1 2 0 _ _ 0 ltac:(lia) ltac:(lia) ltac:(lia) Hr). by cbn.
Defined.

(** The answer of [io_uring_get_sqe]. *)
Definition sqe_given (e : event) : bool :=
  match e with
  | Ev c r => match c in syscall R return R -> bool with GetSqe => id | _ => fun _ => true end r
  end.

(** At verbosity one the full ring is submitted first. *)
Lemma full_ring_submits v tr o : 1 <= v -> runs (get_sqe v) (Ev GetSqe false :: tr) o ->
  exists r tr', tr = Ev Submit r :: tr'.
Proof.
  intros Hv. cbn. rewrite (proj2 (Z.leb_le _ _)) by lia. intros (ok & tr1 & E & Hrun).
  assert (ok = false) as ->.
  { apply (f_equal (fun l => sqe_given <$> head l)) in E. by injection E as ->. }
  injection E as <-. cbn in Hrun. destruct Hrun as (r & tr2 & -> & _). by eexists _, _.
Qed.
