(* ===== verification/Main.v ===== *)
(** * The start of the process: [src/main.cc]

    [main] loads the configuration, checks it, makes the state the threads
    share and starts a thread for each index; a thread names itself, looks up
    the service it serves and runs its event loop. [pthread_setname_np] is a
    parameter. *)

From Stdlib Require Import ZArith Lia Ascii String.
From stdpp Require Import base gmap strings list fin_maps.
From S2P Require Import Prelude Fp Buffers Config RpcMessage LocalMap LocalMapProps CreditQueue CreditQueueSpec CreditQueueProps Http1Inv.

Open Scope Z_scope.

Section Main.
Context (setname : string -> Z).
Implicit Types (c : Config).

(** The two checks before anything is made. *)
Definition check_services c : res unit :=
  let hosted := Z.of_nat (length (get_hosted_services c)) in
  let downstream := Z.of_nat (length (get_downstream_services c)) in
  _ ← fatal_if (negb (hosted =? u64 (num_threads c)) && is_ingress c);
  fatal_if (negb (downstream =? hosted) && is_ingress c).

(** [SharedState]: the queue of the credits. *)
Definition shared_state c : res (CreditQueue Buffer) :=
  cq_make c (get_hosted_services c) (value_or (cpu_count c) (-1)).

(** [for (uint8_t i = 0; i < num_threads; i++)]: the indices of the threads
    that are started. *)
Fixpoint spawn (fuel : nat) c (i : Z) : res (list Z) :=
  match fuel with
  | O => Err Hang
  | S fuel' =>
      if i <? num_threads c then rest ← spawn fuel' c (u8 (i + 1)); Ok (i :: rest)
      else Ok []
  end.

Definition thread_name c (i : Z) : string :=
  (cfg_name c ++ "-s-" ++ string_of_bytes (print_decimal i))%string.

(** What a thread does before its event loop: the service it serves. *)
Definition thread_service c (i : Z) : res string :=
  _ ← fatal_if (negb (setname (thread_name c i) =? 0));
  if is_ingress c then at_ (get_downstream_services c) (Z.to_nat i) else Ok "empty"%string.

(** [main], up to the threads it waits for. A [uint8_t] has 256 values: an
    index that comes back to zero never ends. *)
Definition main (c : Config) : res (CreditQueue Buffer * list Z) :=
  _ ← check_services c;
  q ← shared_state c;
  threads ← spawn 257 c 0;
  Ok (q, threads).
End Main.

Lemma spawn_spec c n : forall i fuel, 0 <= i -> num_threads c = i + Z.of_nat n ->
  num_threads c <= 255 -> (n < fuel)%nat -> spawn fuel c i = Ok (seqZ i (Z.of_nat n)).
Proof.
  induction n as [|n IH]; intros i fuel Hi Hn Hmax Hf; (destruct fuel as [|fuel]; [lia|]); cbn [spawn].
  - rewrite (proj2 (Z.ltb_ge _ _)) by lia. done.
  - rewrite (proj2 (Z.ltb_lt _ _)) by lia.
    rewrite (wrap_small 8) by lia. rewrite (IH (i + 1)) by lia. cbn [mbind res_bind].
    rewrite (seqZ_cons i (Z.of_nat (S n))) by lia. repeat f_equal; lia.
Qed.

(** The index of more than 255 threads comes round for ever. *)
Lemma spawn_hangs c fuel : 255 < num_threads c -> forall i, 0 <= i <= 255 -> spawn fuel c i = Err Hang.
Proof.
  intros Hn. induction fuel as [|fuel IH]; intros i Hi; [done|]. cbn [spawn].
  rewrite (proj2 (Z.ltb_lt _ _)) by lia. rewrite IH; [done|].
  pose proof (wrap_range 8 (i + 1) ltac:(lia)). lia.
Qed.

Lemma check_services_ok c u : check_services c = Ok u -> is_ingress c = true -> 0 <= num_threads c < 2 ^ 64 ->
  Z.of_nat (length (get_downstream_services c)) = num_threads c.
Proof.
  unfold check_services. intros E Hi Hn. rewrite Hi, !andb_true_r in E. bind_inv.
  apply fatal_if_Ok, negb_false_iff, Z.eqb_eq in E0. apply fatal_if_Ok, negb_false_iff, Z.eqb_eq in E.
  rewrite E, E0. by apply (wrap_small 64).
Qed.

(** At an ingress each service gets one thread. When the checks pass, the
    shared state is made and there are at most 255 threads, [main] starts the
    threads 0, 1, ..., and, their names accepted, those of an ingress serve
    each downstream service exactly once. With more threads than 255 the
    loop never ends. *)
Theorem main_one_thread_per_service setname c q :
  0 <= num_threads c -> check_services c = Ok tt -> shared_state c = Ok q ->
  (num_threads c <= 255 ->
    main c = Ok (q, seqZ 0 (num_threads c)) /\
    ((forall i, setname (thread_name c i) = 0) -> is_ingress c = true ->
       (forall i, i ∈ seqZ 0 (num_threads c) -> exists svc, thread_service setname c i = Ok svc) /\
       forall svc, svc ∈ get_downstream_services c ->
         exists i, i ∈ seqZ 0 (num_threads c) /\
           forall j, j ∈ seqZ 0 (num_threads c) -> thread_service setname c j = Ok svc <-> j = i)) /\
  (255 < num_threads c -> forall fuel, spawn fuel c 0 = Err Hang).
Proof.
  intros H0 Hc Hq. split; [|by intros Hn fuel; apply spawn_hangs].
  intros Hn. split.
  { unfold main. rewrite Hc. cbn [mbind res_bind]. rewrite Hq. cbn [mbind res_bind].
    rewrite (spawn_spec c (Z.to_nat (num_threads c))) by lia. by rewrite Z2Nat.id by lia. }
  intros Hname Hi. pose proof (check_services_ok c tt Hc Hi ltac:(lia)) as Hlen.
  assert (forall i, thread_service setname c i = at_ (get_downstream_services c) (Z.to_nat i)) as Et.
  { intros i. unfold thread_service. by rewrite Hname, Hi. }
  split.
  - intros i Hin%elem_of_seqZ. rewrite Et.
    destruct (lookup_lt_is_Some_2 (get_downstream_services c) (Z.to_nat i)) as [svc Hs]; [lia|].
    exists svc. by apply at_Ok.
  - intros svc [n Hs]%list_elem_of_lookup. pose proof (lookup_lt_Some _ _ _ Hs).
    exists (Z.of_nat n). split; [apply elem_of_seqZ; lia|].
    intros j Hj%elem_of_seqZ. rewrite Et, at_Ok. split.
    + intros Hjs. pose proof (NoDup_lookup _ _ _ _ (get_downstream_services_NoDup c) Hs Hjs). lia.
    + intros ->. by rewrite Nat2Z.id.
Qed.

(** An ingress of two services. *)
Definition ex_ingress_config : Config := mkConfig 64 16 4096 2 8080 9090 "127.0.0.1" 8000 "edge"
  {["geo"%string := mkRoutingEntry (mkUpstream "geo-host" 8443) None None;
    "users"%string := mkRoutingEntry (mkUpstream "users-host" 8443) None None]}
  {["geo"%string := mkMappingInfo ["geo"%string] (Some 8001) None None;
    "users"%string := mkMappingInfo ["users"%string] (Some 8002) None None]}
  true false false (Some 4) None None None 0
  default_aimd_err_d default_aimd_err_i default_aimd_adj_d default_aimd_adj_i default_safe_multiply.

Lemma main_one_thread_per_service_witness :
  match main ex_ingress_config with Ok (_, threads) => threads = [0; 1] | Err _ => False end.
Proof.
  destruct (shared_state ex_ingress_config) as [q|] eqn:E; [|vm_compute in E; discriminate].
  destruct (main_one_thread_per_service (fun _ => 0) ex_ingress_config q ltac:(done) ltac:(vm_compute; reflexivity) E)
    as (H & _). destruct (H ltac:(done)) as (Hm & _). rewrite Hm. reflexivity.
Defined.

(** The name of a thread has the name of the sidecar, three bytes and its
    index: where names of threads hold fifteen bytes, as on Linux, a sidecar
    whose name has more than eleven does not start. *)
Lemma length_append (a b : string) : String.length (a ++ b) = (String.length a + String.length b)%nat.
Proof. induction a as [|x a IH]; simpl; [done|]. by rewrite IH. Qed.

Lemma long_name_aborts setname c i :
  (forall s, (15 < String.length s)%nat -> setname s <> 0) ->
  (11 < String.length (cfg_name c))%nat -> thread_service setname c i = Err Fatal.
Proof.
  intros Hs Hc. unfold thread_service. destruct (Z.eqb_spec (setname (thread_name c i)) 0) as [E|]; [|done].
  exfalso. apply (Hs (thread_name c i)); [|done]. unfold thread_name. rewrite !length_append.
  assert (0 < String.length (string_of_bytes (print_decimal i)))%nat; [|simpl; lia].
  destruct (print_decimal i) as [|b l] eqn:Ep; [|simpl; lia].
  unfold print_decimal in Ep. case_match; [done|]. cbn [digits] in Ep. case_match; [done|].
  by apply app_eq_nil in Ep as [_ ?].
Qed.
